(* ===== verification/_CoqProject ===== *)
-Q . S2P
Prelude.v
RefCount.v
FF.v
FFSync.v
Wire.v
MrpcInt.v
Bitmap.v
Packet.v
PacketStream.v
StreamProcessor.v
ProcessorInvariant.v
ProcessorRun.v
ClientProcessor.v
ServerProcessor.v
OwnedProcessor.v
MrpcServer.v
MrpcClient.v
ConsistentHash.v
ClientWrapper.v
DistributedClient.v
DistributedRun.v
CharArray.v
WcharArray.v
Blob.v
InterfaceLexer.v
InterfaceParser.v
Stdio.v
GeneratorCommon.v
GeneratedCode.v
ClientGenerator.v
ServerGenerator.v
Compiler.v
StubSemantics.v
RemoteCall.v
Rpc.v
PacketChannel.v
InterfaceHeap.v
