(* ===== verification/Prelude.v ===== *)
(** * multiplexing-rpc: a verification library

    multiplexing-rpc sends many remote procedure calls at once over one
    connection.  This library models the C code of the run-time library
    (src/src, src/include) and of its interface compiler (src/interface-compiler),
    and proves what makes each part correct.

    ** The program and its model

    A caller gets a _request stream_ of its own for each call and uses it like a
    connection.  A request stream cuts what is written to it into packets with
    its request id; a _stream processor_ on each side moves the packets of all
    request streams over the connection.

<<
     DistributedClient, ClientWrapper        the client of each server, routing
       |        \
       |         ConsistentHash
    callers          stream handlers
       |                   |
    MrpcClient         MrpcServer           start, stop, connections
       |                   |  OwnedProcessor  (interface)
    ClientProcessor    ServerProcessor      request streams, dispatch by id
        \                 /
      ProcessorRun, ProcessorInvariant      runs, invariant
             StreamProcessor                reader and writer fiber
              PacketStream                  bytes of a request <-> packets
                 Packet                     packets <-> bytes of the connection
         MrpcInt  Bitmap  (Wire)            values of the calls, ids
>>

    The files, with the sources they model:

    - [Prelude]: outcomes of C code, the monads, machine integers, arrays, the
      tactics [wp_step], [sp_step]... are built on, shared lemmas;
    - [FF], [FFSync]: the fiber-framework ff_*, which is not part of the
      repository: one class of operations per object with a class of laws, and
      an executable instance of each;
    - [MrpcInt] (src/mrpc_int.c): the integers on the wire, against the reference
      encodings [varint] and [zigzag];
    - [Bitmap] (src/mrpc_bitmap.c): the allocator of ids, with the interface
      [IdAllocator] its clients use;
    - [Packet] (src/mrpc_packet.c, private/mrpc_packet.h), [PacketStream]
      (src/mrpc_packet_stream.c): packets, and the byte streams made of them;
    - [StreamProcessor]: what src/mrpc_client_stream_processor.c and
      src/mrpc_server_stream_processor.c have in common;
      [ProcessorInvariant]: the invariant, and that the shared code keeps it;
      [ProcessorRun]: the interface [ProcessorSystem] of a processor as a
      transition system, and what follows from it for its runs;
    - [ClientProcessor], [ServerProcessor]: the two processors, which implement
      [ProcessorSystem];
    - [OwnedProcessor]: what the server knows of its stream processors, and that
      [ServerProcessor] implements it; [MrpcServer] (src/mrpc_server.c);
    - [MrpcClient] (src/mrpc_client.c), on top of [ClientProcessor];
    - [ConsistentHash] (src/mrpc_consistent_hash.c): the ring of the registered
      clients; [ClientWrapper] (src/mrpc_distributed_client_wrapper.c): the clients
      of a distributed client, on top of the interface [RpcClient], which
      [MrpcClient] implements; [DistributedClient] (src/mrpc_distributed_client.c,
      src/mrpc_distributed_client_controller.c) and [DistributedRun]: its
      operations, and its runs;
    - [RefCount]: the interface of reference-counted objects; [Wire]: the
      interface of values which are sent; [CharArray], [WcharArray], [Blob]
      (src/mrpc_char_array.c, src/mrpc_wchar_array.c, src/mrpc_blob.c), which
      implement both;
    - [InterfaceLexer], [InterfaceParser] (interface-compiler/src/parser.c,
      include/types.h): the parser of interface definitions;
    - [Stdio] (interface-compiler/src/common.c): formatted output to files, with
      calls which may fail; [GeneratorCommon] (c_common.c), [ClientGenerator]
      (c_client_generator.c), [ServerGenerator] (c_server_generator.c): the code
      generators; [GeneratedCode]: a reader of the text they write, and the
      relation [emits] between a generator and the statements of its text;
      [Compiler] (main.c): the program, from its arguments to its files;
    - [InterfaceHeap] (interface.c, and the allocations of parser.c): the linked
      structures of an interface in memory, how they are built, read and released;
    - [StubSemantics]: what the statements of a generated file do, a step function
      over the variables, references and stream of a C function; [RemoteCall]: the
      rules of this semantics, and what the stub and the handler of one method do;
      [Rpc]: the functions found in the two generated texts and run against each
      other;
    - [PacketChannel]: packet streams as an instance of the streams which the
      generated programs use, and calls over packets.

    ** How code is modelled

    An operation is a function into [outcome]: the result and the new state, or a
    [fault], which is where the C program has no defined continuation: a failed
    [ff_assert] (a debug build is modelled), an access out of bounds, an undefined
    shift or signed overflow, the use of a freed object.  So [wp (op s) Q] says at
    once that nothing goes wrong, that the operation returns, and that [Q] holds.

    Fibers are cooperative: they switch only in calls which wait.  A fiber is
    represented by the point where it waits ([reader_point], [main_point], ...),
    and each step runs it from one such point to the next, or runs one call of a
    user; a system is then a relation ([run], [ms_run], [mc_run], [dc_run]) over all
    interleavings of enabled steps, and its states are those [..._reachable] from
    the creation of the object.  Objects which are shared are kept in a store and
    named by pointers (indices), with freed cells.

    ** What is proved

    - Encodings: integers, packets, arrays and blobs are read back as they were
      written, on any transport; arbitrary input never leads to a fault ([MrpcInt],
      [Packet], [CharArray], [WcharArray], [Blob]).
    - Packet streams: bytes written in any chunks are read back in any chunks, no
      packet is lost or released twice in any session ([PacketStream]).
    - Stream processors: no assertion fails in any interleaving; the packets of a
      request form a message with what its owner wrote, whatever the other
      requests do; packets are routed by their id; pools, ids and counters agree
      with the request streams; the fibers end when they are told to
      ([ClientProcessor], [ServerProcessor]).
    - Server and client: the same for starting, stopping and deleting them; a stop
      returns ([MrpcServer], [MrpcClient]).
    - Distributed client: no assertion fails in any interleaving; requests go to
      the nearest registered client, consistently; counts, connectors and users
      agree; a stop returns ([DistributedRun]).
    - Ids in use are different ([Bitmap]); the ring holds the registered entries
      and finds the nearest one ([ConsistentHash]).
    - The parser accepts exactly the files which spell a valid interface
      ([InterfaceParser]).
    - The generated stubs and handlers, read back from the generated text, send
      and receive the parameters of each method in order and by their types
      ([ClientGenerator], [ServerGenerator]); the compiler writes exactly these
      files, or says that it failed ([Compiler]).
    - Generated programs: a call of a client stub is a call of the service, for
      every method with a number below 256 of an interface whose names differ, on
      streams which do not fail; on any input, and wherever a stream fails, the
      stub and the server end without a fault and with every reference accounted
      for ([Rpc]).
      A method with a larger number reaches another method.  The same over packets:
      the request and the response are messages of [PacketStream]
      ([PacketChannel]), which the stream processors carry.
    - The structures of an interface are well formed lists in memory, and each
      piece is released once, apart from one which is left ([InterfaceHeap]).

    Some theorems state where the code does not do what its comments say, or
    what it should do: they are named in the findings of the manifest.

    ** Bounds and fuel

    Loops over arrays recurse over the entries which are left.  Where the code
    loops until it sees an end, the definition has fuel and is a fault without it:
    [uint64_read_octets] has one round more than a number has octets,
    [write_loop] two more than there are bytes, [read_loop] and
    [clear_reader_queue] one more than there are packets, [lexer_loop] and the
    loops of the parser one or two more than the file has characters, the loops over
    linked lists as many as there are pieces of memory.  The
    theorems about these functions say that they return, so that the fuel is
    enough; none has the form "if it returns".

    ** What is not modelled

    - Time: a wait with a timeout returns as if the time had passed when there
      is nothing to wait for; sleeps are steps.
    - A call of a pool or a queue which has to wait because the pool is used up or
      the queue is full, inside of the stream processors: it is represented by its
      return.  [MrpcServer] does model the wait for a free stream processor.
    - Memory: allocation does not fail, [ff_free] and the deletion of events and
      queues do nothing, apart from objects whose use after deletion is a fault.
    - Logging.
    - The rest of the generated text: declarations, log messages and includes are
      written by the model of the generators, but read back as no statement.
    - Blobs as values of a call: the values of [Rpc] are whatever implements [Wire],
      which integers and arrays of characters do; a blob needs the disk as well.
      What the service does between its arguments and its results is a function.
    - The tests.
    - [DistributedClient] assumes that the hash function separates the keys in
      use ([KeysSpread]); what happens to keys which collide is a finding.
    - Characters are those of the "C" locale, and [char] is signed. *)

From stdpp Require Export prelude list.
From Stdlib Require Export ZArith Lia.
From Stdlib Require Export Strings.Byte.

Open Scope Z_scope.

(** ** Outcomes of C code

    Every operation of the program is a function into [outcome]: it returns a
    value, or it stops at the first point where the C program has no defined
    continuation.  [ff_assert] failures, accesses outside of a buffer, shifts
    by the width of the type, signed overflows and uses of freed memory are all faults, so a
    theorem of the form [wp (op s) Q] is at once a safety statement (no fault)
    and a total-correctness statement (a result satisfying [Q] exists). *)

Inductive fault :=
  | AssertionFailed
  | OutOfBounds
  | ShiftTooFar
  | SignedOverflow
  | UseAfterFree
  | WouldBlock
  | UndefinedFormat
  | OutOfFuel.

#[export] Instance byte_eq_decision : EqDecision byte := Byte.byte_eq_dec.

#[export] Instance fault_eq_dec : EqDecision fault.
Proof. solve_decision. Defined.

Inductive outcome (A : Type) : Type :=
  | Ret (a : A)
  | Fault (f : fault).
Arguments Ret {A} a.
Arguments Fault {A} f.

#[export] Instance outcome_ret : MRet outcome := @Ret.
#[export] Instance outcome_bind : MBind outcome := λ A B k m,
  match m with Ret a => k a | Fault f => Fault f end.

Definition ff_assert (b : bool) : outcome unit :=
  if b then Ret tt else Fault AssertionFailed.

(** Stateful operations thread the state of the object they work on. *)
Definition M (S A : Type) : Type := S → outcome (A * S).

#[export] Instance M_ret S : MRet (M S) := λ A a s, Ret (a, s).
#[export] Instance M_bind S : MBind (M S) := λ A B k m s,
  match m s with Ret (a, s') => k a s' | Fault f => Fault f end.

Definition lift {S A} (o : outcome A) : M S A := λ s,
  match o with Ret a => Ret (a, s) | Fault f => Fault f end.

(** Code which works on two objects at once. *)
Definition on_fst {S T A} (m : M S A) : M (S * T) A := λ st,
  match m st.1 with Ret (a, s) => Ret (a, (s, st.2)) | Fault f => Fault f end.
Definition on_snd {S T A} (m : M T A) : M (S * T) A := λ st,
  match m st.2 with Ret (a, t) => Ret (a, (st.1, t)) | Fault f => Fault f end.

Definition on_swap {S T A} (m : M (S * T) A) : M (T * S) A := λ ts,
  match m (ts.2, ts.1) with Ret (a, (s, t)) => Ret (a, (t, s)) | Fault f => Fault f end.

(** Objects on the heap: [None] once they are freed. *)
Definition deref {O} : M (option O) O := λ o,
  match o with Some a => Ret (a, o) | None => Fault UseAfterFree end.
Definition assign {O} (a : O) : M (option O) unit := λ o,
  match o with Some _ => Ret (tt, Some a) | None => Fault UseAfterFree end.
Definition ff_free {O} : M (option O) unit := λ o,
  match o with Some _ => Ret (tt, None) | None => Fault UseAfterFree end.

(** ** Weakest preconditions *)

Definition wp {A} (o : outcome A) (Q : A → Prop) : Prop :=
  match o with Ret a => Q a | Fault _ => False end.

(** ** Machine integers

    C integers are [Z]; a cast wraps. *)

Definition u8 (z : Z) : Z := z mod 2 ^ 8.
Definition u32 (z : Z) : Z := z mod 2 ^ 32.
Definition u64 (z : Z) : Z := z mod 2 ^ 64.
Definition s32 (z : Z) : Z := (z + 2 ^ 31) mod 2 ^ 32 - 2 ^ 31.
Definition s64 (z : Z) : Z := (z + 2 ^ 63) mod 2 ^ 64 - 2 ^ 63.

Definition is_u32 (z : Z) : Prop := 0 <= z < 2 ^ 32.
Definition is_u64 (z : Z) : Prop := 0 <= z < 2 ^ 64.
Definition is_s32 (z : Z) : Prop := - 2 ^ 31 <= z < 2 ^ 31.
Definition is_s64 (z : Z) : Prop := - 2 ^ 63 <= z < 2 ^ 63.

#[export] Instance is_u32_dec z : Decision (is_u32 z).
Proof. unfold is_u32. apply _. Defined.
#[export] Instance is_u64_dec z : Decision (is_u64 z).
Proof. unfold is_u64. apply _. Defined.
#[export] Instance is_s32_dec z : Decision (is_s32 z).
Proof. unfold is_s32. apply _. Defined.
#[export] Instance is_s64_dec z : Decision (is_s64 z).
Proof. unfold is_s64. apply _. Defined.

(** Signed arithmetic on [int] and shifts of [uint32_t] are undefined outside
    of their range. *)
Definition checked_int (z : Z) : outcome Z :=
  if bool_decide (is_s32 z) then Ret z else Fault SignedOverflow.

Definition shift_right_u32 (z n : Z) : outcome Z :=
  if bool_decide (0 <= n < 32) then Ret (Z.shiftr z n) else Fault ShiftTooFar.

(** [uint8_t] values travel as [byte]. *)
Definition Z_of_byte (b : byte) : Z := Z.of_N (Byte.to_N b).
Definition byte_of_Z (z : Z) : byte :=
  default x00 (Byte.of_N (Z.to_N (u8 z))).

(** ** Buffers: [memcpy] out of and into a C array, array accesses *)

Definition zlength {A} (l : list A) : Z := Z.of_nat (length l).

Definition buf_read {A} (buf : list A) (off len : Z) : outcome (list A) :=
  if bool_decide (0 <= off /\ 0 <= len /\ off + len <= zlength buf)
  then Ret (take (Z.to_nat len) (drop (Z.to_nat off) buf))
  else Fault OutOfBounds.

Definition buf_write {A} (buf : list A) (off : Z) (src : list A) : outcome (list A) :=
  if bool_decide (0 <= off /\ off + zlength src <= zlength buf)
  then Ret (take (Z.to_nat off) buf ++ src ++ drop (Z.to_nat off + length src) buf)
  else Fault OutOfBounds.

Definition arr_get {A} (arr : list A) (i : Z) : outcome A :=
  if bool_decide (0 <= i) then
    match arr !! Z.to_nat i with Some a => Ret a | None => Fault OutOfBounds end
  else Fault OutOfBounds.

Definition arr_set {A} (arr : list A) (i : Z) (a : A) : outcome (list A) :=
  if bool_decide (0 <= i < zlength arr) then Ret (<[Z.to_nat i := a]> arr)
  else Fault OutOfBounds.

(** The sum of a list of lengths. *)
Definition total (lens : list Z) : Z := foldr Z.add 0 lens.

(** ** Lemmas on outcomes *)

Create HintDb mrpc discriminated.

Section wp.
Context {A B : Type}.
Implicit Types (o : outcome A) (Q : A → Prop).

Lemma wp_ret a Q : wp (Ret a) Q ↔ Q a.
Proof. done. Qed.

Lemma wp_bind o (k : A → outcome B) (R : B → Prop) :
  wp (o ≫= k) R ↔ wp o (λ a, wp (k a) R).
Proof. by destruct o. Qed.

Lemma wp_mono o Q Q' : wp o Q → (∀ a, Q a → Q' a) → wp o Q'.
Proof. destruct o; simpl; auto. Qed.

Lemma wp_and o Q Q' : wp o Q → wp o Q' → wp o (λ a, Q a ∧ Q' a).
Proof. destruct o; simpl; auto. Qed.

Lemma wp_inv o Q : wp o Q → ∃ a, o = Ret a ∧ Q a.
Proof. destruct o; simpl; [eauto | done]. Qed.

Lemma wp_eq o Q a : o = Ret a → Q a → wp o Q.
Proof. by intros ->. Qed.
End wp.

Lemma wp_assert (b : bool) (Q : unit → Prop) :
  wp (ff_assert b) Q ↔ b = true ∧ Q tt.
Proof. destruct b; simpl; naive_solver. Qed.

Lemma wp_M_bind {S A B} (m : M S A) (k : A → M S B) s (Q : B * S → Prop) :
  wp ((m ≫= k) s) Q ↔ wp (m s) (λ r, wp (k r.1 r.2) Q).
Proof.
  unfold mbind, M_bind. destruct (m s) as [[a s']|f]; done.
Qed.

Lemma wp_lift {S A} (o : outcome A) (s : S) (Q : A * S → Prop) :
  wp (lift o s) Q ↔ wp o (λ a, Q (a, s)).
Proof. by destruct o. Qed.

Lemma wp_on_fst {S T A} (m : M S A) (s : S) (t : T) (Q : A * (S * T) → Prop) :
  wp (on_fst m (s, t)) Q ↔ wp (m s) (λ r, Q (r.1, (r.2, t))).
Proof. unfold on_fst. cbn. by destruct (m s) as [[a s']|]. Qed.

Lemma wp_on_snd {S T A} (m : M T A) (s : S) (t : T) (Q : A * (S * T) → Prop) :
  wp (on_snd m (s, t)) Q ↔ wp (m t) (λ r, Q (r.1, (s, r.2))).
Proof. unfold on_snd. cbn. by destruct (m t) as [[a t']|]. Qed.

Lemma wp_on_swap {S T A} (m : M (S * T) A) (s : S) (t : T) (Q : A * (T * S) → Prop) :
  wp (on_swap m (t, s)) Q ↔ wp (m (s, t)) (λ r, Q (r.1, (r.2.2, r.2.1))).
Proof. unfold on_swap. cbn. by destruct (m (s, t)) as [[a [s' t']]|]. Qed.

#[export] Instance wp_proper {A} :
  Proper ((=) ==> pointwise_relation A impl ==> impl) (@wp A).
Proof. intros o ? <- Q Q' HQ H. eapply wp_mono; [exact H | exact HQ]. Qed.

#[export] Instance wp_proper_iff {A} :
  Proper ((=) ==> pointwise_relation A iff ==> iff) (@wp A).
Proof.
  intros o ? <- Q Q' HQ. split; intros H; (eapply wp_mono; [exact H|]);
    intros a; apply HQ.
Qed.

(** One step of symbolic execution: split a bind, discharge an assertion. *)
Ltac wp_step :=
  match goal with
  | |- wp (Ret _) _ => cbn [wp]
  | |- wp (mret _) _ => cbn [wp mret outcome_ret]
  | |- wp (mret _ _) _ => cbn [wp mret M_ret]
  | |- wp (ff_assert _ ≫= _) _ =>
      rewrite wp_bind, wp_assert; split;
      [try solve [reflexivity | assumption | apply bool_decide_eq_true_2; (done || lia || (cbn; lia))] | ]
  | |- wp (lift (ff_assert _) _) _ =>
      rewrite wp_lift, wp_assert; split;
      [try solve [reflexivity | assumption | apply bool_decide_eq_true_2; (done || lia || (cbn; lia))] | ]
  | |- wp (lift _ _) _ => rewrite wp_lift
  | |- wp (on_fst _ (_, _)) _ => rewrite wp_on_fst
  | |- wp (on_snd _ (_, _)) _ => rewrite wp_on_snd
  | |- wp (on_swap _ (_, _)) _ => rewrite wp_on_swap
  | |- wp (deref (Some _)) _ => cbn [wp deref]
  | |- wp (assign _ (Some _)) _ => cbn [wp assign]
  | |- wp (ff_free (Some _)) _ => cbn [wp ff_free]
  | |- wp ((_ ≫= _) _) _ => rewrite wp_M_bind
  | |- wp (_ ≫= _) _ => rewrite wp_bind
  end; cbn [fst snd].
Ltac wp_steps := repeat wp_step.

(** Use a proved specification [H : wp o Q] of the next call. *)
Tactic Notation "wp_apply" uconstr(H) "as" simple_intropattern(pat) :=
  eapply wp_mono; [eapply H | cbn beta; intros pat; cbn [fst snd] in * ].

(** ** Lemmas on machine integers and buffers *)

Lemma u32_id z : is_u32 z → u32 z = z.
Proof. apply Z.mod_small. Qed.
Lemma u64_id z : is_u64 z → u64 z = z.
Proof. apply Z.mod_small. Qed.
Lemma u32_range z : is_u32 (u32 z).
Proof. apply Z.mod_pos_bound. lia. Qed.
Lemma u64_range z : is_u64 (u64 z).
Proof. apply Z.mod_pos_bound. lia. Qed.

Lemma s32_id z : is_s32 z → s32 z = z.
Proof. unfold is_s32, s32. intros. rewrite Z.mod_small; lia. Qed.
Lemma s64_id z : is_s64 z → s64 z = z.
Proof. unfold is_s64, s64. intros. rewrite Z.mod_small; lia. Qed.

Lemma Z_of_byte_range b : 0 <= Z_of_byte b < 256.
Proof.
  unfold Z_of_byte. pose proof (Byte.to_N_bounded b). lia.
Qed.

Lemma byte_of_Z_of_byte b : byte_of_Z (Z_of_byte b) = b.
Proof.
  unfold byte_of_Z, u8. rewrite Z.mod_small by apply Z_of_byte_range.
  unfold Z_of_byte. by rewrite N2Z.id, Byte.of_to_N.
Qed.

Lemma Z_of_byte_of_Z z : Z_of_byte (byte_of_Z z) = u8 z.
Proof.
  unfold byte_of_Z, Z_of_byte. assert (0 <= u8 z < 256) as Hr.
  { apply Z.mod_pos_bound. lia. }
  destruct (Byte.of_N (Z.to_N (u8 z))) as [b|] eqn:E; simpl.
  - apply Byte.to_of_N in E. lia.
  - apply Byte.of_N_None_iff in E. lia.
Qed.

Lemma Z_of_byte_inj b c : Z_of_byte b = Z_of_byte c → b = c.
Proof. intros H. by rewrite <- (byte_of_Z_of_byte b), H, byte_of_Z_of_byte. Qed.


Lemma zlength_nonneg {A} (l : list A) : 0 <= zlength l.
Proof. unfold zlength. lia. Qed.
Lemma zlength_nil {A} : zlength (@nil A) = 0.
Proof. done. Qed.
Lemma zlength_cons {A} (x : A) l : zlength (x :: l) = 1 + zlength l.
Proof. unfold zlength. simpl. lia. Qed.
Lemma zlength_app {A} (l k : list A) : zlength (l ++ k) = zlength l + zlength k.
Proof. unfold zlength. rewrite length_app. lia. Qed.
Lemma zlength_replicate {A} n (x : A) : zlength (replicate n x) = Z.of_nat n.
Proof. unfold zlength. by rewrite length_replicate. Qed.
Lemma zlength_take {A} n (l : list A) : zlength (take n l) = Z.min (Z.of_nat n) (zlength l).
Proof. unfold zlength. rewrite length_take. lia. Qed.
Lemma zlength_drop {A} n (l : list A) : zlength (drop n l) = Z.max 0 (zlength l - Z.of_nat n).
Proof. unfold zlength. rewrite length_drop. lia. Qed.
Lemma zlength_insert {A} i (x : A) l : zlength (<[i:=x]> l) = zlength l.
Proof. unfold zlength. by rewrite length_insert. Qed.

Lemma zlength_fmap {A B} (f : A → B) l : zlength (f <$> l) = zlength l.
Proof. unfold zlength. by rewrite length_fmap. Qed.

#[export] Hint Rewrite @zlength_nil @zlength_cons @zlength_app @zlength_replicate @zlength_fmap
  @zlength_take @zlength_drop @zlength_insert : zlen.

(** Linear arithmetic over lengths of buffers. *)
Ltac zlen :=
  autorewrite with zlen in *;
  repeat match goal with
  | |- context [zlength ?l] =>
      lazymatch goal with H : 0 <= zlength l |- _ => fail | _ => pose proof (zlength_nonneg l) end
  | _ : context [zlength ?l] |- _ =>
      lazymatch goal with H : 0 <= zlength l |- _ => fail | _ => pose proof (zlength_nonneg l) end
  end; lia.

Lemma wp_buf_read {A} (buf : list A) off len (Q : list A → Prop) :
  0 <= off → 0 <= len → off + len <= zlength buf →
  Q (take (Z.to_nat len) (drop (Z.to_nat off) buf)) →
  wp (buf_read buf off len) Q.
Proof. intros. unfold buf_read. rewrite bool_decide_eq_true_2; done. Qed.

Lemma wp_buf_write {A} (buf src : list A) off (Q : list A → Prop) :
  0 <= off → off + zlength src <= zlength buf →
  Q (take (Z.to_nat off) buf ++ src ++ drop (Z.to_nat off + length src) buf) →
  wp (buf_write buf off src) Q.
Proof. intros. unfold buf_write. rewrite bool_decide_eq_true_2; done. Qed.

Lemma wp_arr_get {A} (arr : list A) i a (Q : A → Prop) :
  0 <= i → arr !! Z.to_nat i = Some a → Q a → wp (arr_get arr i) Q.
Proof. intros Hi Ha HQ. unfold arr_get. rewrite bool_decide_eq_true_2 by done. by rewrite Ha. Qed.

Lemma wp_arr_set {A} (arr : list A) i a (Q : list A → Prop) :
  0 <= i < zlength arr → Q (<[Z.to_nat i := a]> arr) → wp (arr_set arr i a) Q.
Proof. intros Hi HQ. unfold arr_set. by rewrite bool_decide_eq_true_2. Qed.

Lemma wp_checked_int z (Q : Z → Prop) : is_s32 z → Q z → wp (checked_int z) Q.
Proof. intros Hz HQ. unfold checked_int. by rewrite bool_decide_eq_true_2. Qed.

Lemma wp_shift_right_u32 z n (Q : Z → Prop) :
  0 <= n < 32 → Q (Z.shiftr z n) → wp (shift_right_u32 z n) Q.
Proof. intros Hn HQ. unfold shift_right_u32. by rewrite bool_decide_eq_true_2. Qed.

Lemma take_S_hd {A} (l : list A) n :
  (n < length l)%nat → ∃ x, l !! n = Some x ∧ take (S n) l = take n l ++ [x].
Proof.
  intros Hn. destruct (lookup_lt_is_Some_2 l n Hn) as [x Hx].
  exists x. split; [done|]. by apply take_S_r.
Qed.

Lemma total_nonneg lens : Forall (λ n, 0 <= n) lens → 0 <= total lens.
Proof. unfold total. induction 1; cbn; lia. Qed.

(** ** Calls which leave a part of the state alone *)

Definition preserves {S A B} (f : S → B) (m : M S A) : Prop :=
  ∀ s a s', m s = Ret (a, s') → f s' = f s.

Lemma preserves_wp {S A B} (f : S → B) (m : M S A) s (R : A * S → Prop) :
  preserves f m → wp (m s) R → wp (m s) (λ r, R r ∧ f (r.2) = f s).
Proof. intros Hm Hs. destruct (m s) as [[a s']|] eqn:E; [|done]. split; [done|by eapply Hm]. Qed.

Lemma preserves_bind {S A A' B} (f : S → B) (m : M S A) (k : A → M S A') :
  preserves f m → (∀ a, preserves f (k a)) → preserves f (m ≫= k).
Proof.
  intros Hm Hk s a' s'. unfold mbind, M_bind. destruct (m s) as [[a s1]|] eqn:E; [|done].
  intros Hs. rewrite (Hk _ _ _ _ Hs). by eapply Hm.
Qed.

Lemma preserves_ret {S A B} (f : S → B) (a : A) : preserves f (mret a).
Proof. by intros s a' s' [= _ ->]. Qed.

Lemma preserves_lift {S A B} (f : S → B) (o : outcome A) : preserves f (lift o).
Proof. intros s a s'. unfold lift. destruct o; [by intros [= _ ->]|done]. Qed.

Create HintDb preserves.
#[export] Hint Resolve preserves_ret preserves_lift : preserves.
Ltac preserve := repeat first [solve [auto with preserves] | apply preserves_bind; [|intros ?] | case_match].
