(* ===== verification/RefCount.v ===== *)
(** * Reference counts

    The interface of the reference-counted objects of the library (char arrays,
    wide char arrays, blobs, client wrappers): what [inc_ref] and [dec_ref]
    promise to the holders of references. *)

From S2P Require Import Prelude.

(** [holds c n o]: the object is alive, has the contents [c] and [n] references;
    [freed o]: it has been destroyed. *)
Class RefCounted (O C : Type) := {
  inc_ref : M O unit;
  dec_ref : M O unit;
  holds : C → Z → O → Prop;
  freed : O → Prop;
}.

Definition MAX_REFS : Z := 2 ^ 31 - 1.

Class RefCountedSpec (O C : Type) `{RefCounted O C} : Prop := {
  inc_ref_spec c n o : holds c n o → 0 < n < MAX_REFS →
    wp (inc_ref o) (λ '(_, o'), holds c (n + 1) o');
  dec_ref_spec c n o : holds c n o → 0 < n →
    wp (dec_ref o) (λ '(_, o'), if bool_decide (n = 1) then freed o' else holds c (n - 1) o')
}.

Inductive ref_op := IncRef | DecRef.

Definition ref_step {O C} `{RefCounted O C} (op : ref_op) : M O unit :=
  match op with IncRef => inc_ref | DecRef => dec_ref end.

Fixpoint ref_run {O C} `{RefCounted O C} (ops : list ref_op) : M O unit :=
  match ops with
  | [] => mret tt
  | op :: ops => ref_step op;; ref_run ops
  end.

(** References held after a history, starting with [n]; [None] if someone uses a
    reference nobody holds, or too many are taken. *)
Fixpoint holders (n : Z) (ops : list ref_op) : option Z :=
  match ops with
  | [] => Some n
  | IncRef :: ops => if bool_decide (0 < n < MAX_REFS) then holders (n + 1) ops else None
  | DecRef :: ops => if bool_decide (0 < n) then holders (n - 1) ops else None
  end.

Lemma holders_dead ops m : holders 0 ops = Some m → ops = [] ∧ m = 0.
Proof. destruct ops as [|[] ops]; cbn; [by intros [= <-]|done|done]. Qed.

(** The object lives exactly as long as somebody holds a reference. *)
Lemma ref_run_spec {O C} `{RefCountedSpec O C} ops c o n m :
  holds c n o → 0 < n → holders n ops = Some m →
  wp (ref_run ops o) (λ '(_, o'), if bool_decide (m = 0) then freed o' else holds c m o').
Proof.
  revert o n. induction ops as [|[] ops IH]; intros o n Ho Hn Hm; cbn [ref_run holders ref_step] in *.
  - injection Hm as <-. cbn. by rewrite bool_decide_eq_false_2 by lia.
  - case_bool_decide; [|done]. rewrite wp_M_bind. eapply wp_mono; [by apply inc_ref_spec|].
    intros [[] o1] Ho1. cbn [fst snd]. apply (IH o1 (n + 1)); (done || lia).
  - case_bool_decide; [|done]. rewrite wp_M_bind. eapply wp_mono; [by apply dec_ref_spec|].
    intros [[] o1] Ho1. cbn [fst snd]. case_bool_decide as Hone.
    + subst n. by apply holders_dead in Hm as [-> ->].
    + apply (IH o1 (n - 1)); (done || lia).
Qed.
