(* ===== verification/FF.v ===== *)
(** * The fiber-framework interface

    multiplexing-rpc is written against the fiber-framework ([ff_*]), whose
    sources are not part of the repository.  This file states what the program
    relies on: one class of operations per framework object, one class of laws
    saying what the operations do to an abstract view of the object, and one
    executable instance per class, used to evaluate the program on concrete
    inputs.  No theorem about the program depends on an instance. *)

From S2P Require Import Prelude.

(** [enum ff_result] *)
Inductive ff_result := FF_SUCCESS | FF_FAILURE.

#[export] Instance ff_result_eq_dec : EqDecision ff_result.
Proof. solve_decision. Defined.

(** [struct ff_stream]: a byte stream.  [ff_stream_read n] returns the result
    and the bytes it stored at the start of the caller's buffer. *)
Class FFStream (S : Type) := {
  ff_stream_read : Z → M S (ff_result * list byte);
  ff_stream_write : list byte → M S ff_result;
}.

(** The view of a stream: the bytes its peer sends and that are not yet read,
    the bytes written so far, and the states in which it may be used, in which it may
    be written to, and in which all that was written is on its way to the peer. *)
Class StreamView (S : Type) := {
  stream_inv : S → Prop;
  writable : S → Prop;
  flushed : S → Prop;
  incoming : S → list byte;
  outgoing : S → list byte;
}.

(** Effect of a write of [bs] with result [r]. *)
Definition wrote {S} `{StreamView S} (bs : list byte) (s : S) (r : ff_result) (s' : S) : Prop :=
  stream_inv s' ∧ writable s' ∧ incoming s' = incoming s ∧
  match r with
  | FF_SUCCESS => outgoing s' = outgoing s ++ bs
  | FF_FAILURE => ∃ sent, sent `prefix_of` bs ∧ outgoing s' = outgoing s ++ sent
  end.

(** A call which does not write. *)
Definition undisturbed {S} `{StreamView S} (s s' : S) : Prop :=
  stream_inv s' ∧ ((writable s → writable s') ∧ (flushed s → flushed s')) ∧ outgoing s' = outgoing s.

(** Effect of a read which took [bs] from the stream. *)
Definition consumed {S} `{StreamView S} (bs : list byte) (s s' : S) : Prop :=
  undisturbed s s' ∧ incoming s = bs ++ incoming s'.

(** A read returns exactly the requested bytes or fails; a write appends
    exactly the given bytes or fails.  Either may fail at any time. *)
Class FFStreamSpec (S : Type) `{FFStream S, StreamView S} : Prop := {
  ff_stream_read_spec s n : stream_inv s → 0 <= n →
    wp (ff_stream_read n s) (λ '(r, bs, s'),
      match r with
      | FF_SUCCESS => consumed bs s s' ∧ zlength bs = n
      | FF_FAILURE => undisturbed s s' ∧ zlength bs <= n
      end);
  ff_stream_write_spec s bs : stream_inv s → writable s →
    wp (ff_stream_write bs s) (λ '(r, s'), wrote bs s r s')
}.

(** The transport does not fail: bytes which arrived can be read, and a write
    succeeds. *)
Class ReliableStream (S : Type) `{FFStream S, StreamView S} : Prop := {
  reliable_read s n : stream_inv s → 0 <= n <= zlength (incoming s) →
    wp (ff_stream_read n s) (λ '(r, _, _), r = FF_SUCCESS);
  reliable_write s bs : stream_inv s → writable s →
    wp (ff_stream_write bs s) (λ '(r, _), r = FF_SUCCESS)
}.

(** [struct ff_blocking_queue]: a FIFO queue.  The contents of a queue are the
    entries which a reader obtains before it would have to wait for longer than
    its timeout; a put returns once there is room for the entry. *)
Class FFBlockingQueue (Q A : Type) := {
  ff_blocking_queue_get_with_timeout : M Q (option A);
  ff_blocking_queue_get : M Q A;
  ff_blocking_queue_is_empty : Q → bool;
  ff_blocking_queue_put : A → M Q unit;
  ff_blocking_queue_create : Z → Q;
  queue_contents : Q → list A;
}.

Class FFBlockingQueueSpec (Q A : Type) `{FFBlockingQueue Q A} : Prop := {
  queue_create_spec n : queue_contents (ff_blocking_queue_create n) = [];
  queue_get_timeout_spec q :
    wp (ff_blocking_queue_get_with_timeout q) (λ '(r, q'),
      match queue_contents q with
      | [] => r = None ∧ queue_contents q' = []
      | x :: l => r = Some x ∧ queue_contents q' = l
      end);
  queue_get_spec q x l : queue_contents q = x :: l →
    wp (ff_blocking_queue_get q) (λ '(r, q'), r = x ∧ queue_contents q' = l);
  queue_is_empty_spec q :
    ff_blocking_queue_is_empty q = bool_decide (length (queue_contents q) = 0%nat);
  queue_put_spec q x :
    wp (ff_blocking_queue_put x q) (λ '(_, q'), queue_contents q' = queue_contents q ++ [x])
}.

(** [ff_hash_uint32(start_value, array, length)] and its byte and 16-bit
    variants. *)
Class FFHash := {
  ff_hash_uint32 : Z → list Z → Z;
  ff_hash_uint16 : Z → list Z → Z;
  ff_hash_uint8 : Z → list byte → Z;
}.

(** The hash functions return [uint32_t]. *)
Class FFHashSpec `{FFHash} : Prop := {
  ff_hash_uint32_range start l : is_u32 (ff_hash_uint32 start l);
  ff_hash_uint16_range start l : is_u32 (ff_hash_uint16 start l);
  ff_hash_uint8_range start l : is_u32 (ff_hash_uint8 start l)
}.

(** [ff_stream_copy] and [ff_stream_get_hash] work in chunks whose sizes they
    choose; [stream_hash] is the hash of the bytes which were read. *)
Class FFStreamUtil := {
  chunk_sizes : Z → list Z;
  stream_hash : Z → list byte → Z;
}.

Class FFStreamUtilSpec `{FFStreamUtil} : Prop := {
  chunk_sizes_nonneg len : 0 <= len → Forall (λ n, 0 <= n) (chunk_sizes len);
  chunk_sizes_total len : 0 <= len → total (chunk_sizes len) = len
}.

(** Reads each chunk from the first stream and writes it to the second one, up
    to the first failure. *)
Fixpoint copy_chunks {S T} `{FFStream S, FFStream T} (sizes : list Z) : M (S * T) ff_result :=
  match sizes with
  | [] => mret FF_SUCCESS
  | n :: sizes =>
      r ← on_fst (ff_stream_read n);
      match r with
      | (FF_FAILURE, _) => mret FF_FAILURE
      | (FF_SUCCESS, chunk) =>
          result ← on_snd (ff_stream_write chunk);
          match result with
          | FF_FAILURE => mret FF_FAILURE
          | FF_SUCCESS => copy_chunks sizes
          end
      end
  end.

Definition ff_stream_copy {S T} `{FFStream S, FFStream T, FFStreamUtil} (len : Z) :
    M (S * T) ff_result := copy_chunks (chunk_sizes len).

Fixpoint get_chunks {S} `{FFStream S} (sizes : list Z) (got : list byte) :
    M S (ff_result * list byte) :=
  match sizes with
  | [] => mret (FF_SUCCESS, got)
  | n :: sizes =>
      r ← ff_stream_read n;
      match r with
      | (FF_FAILURE, _) => mret (FF_FAILURE, got)
      | (FF_SUCCESS, chunk) => get_chunks sizes (got ++ chunk)
      end
  end.

Definition ff_stream_get_hash {S} `{FFStream S, FFStreamUtil} (len start_value : Z) :
    M S (ff_result * option Z) :=
  r ← get_chunks (chunk_sizes len) [];
  mret (match r with
        | (FF_SUCCESS, bytes) => (FF_SUCCESS, Some (stream_hash start_value bytes))
        | (FF_FAILURE, _) => (FF_FAILURE, None)
        end).

(** ** Executable instances *)

(** Everything in one chunk. *)
Definition one_chunk : FFStreamUtil := {|
  chunk_sizes len := [len];
  stream_hash start l := u32 (foldl (λ h x, 31 * h + Z_of_byte x) start l)
|}.

Lemma one_chunk_spec : @FFStreamUtilSpec one_chunk.
Proof. split; intros len Hlen; [by repeat constructor|]. cbn. lia. Qed.

(** A stream held in memory. *)
Record mem_stream := MemStream { ms_in : list byte; ms_out : list byte }.

#[export] Instance mem_stream_ops : FFStream mem_stream := {
  ff_stream_read n s :=
    if bool_decide (n <= zlength (ms_in s))
    then Ret (FF_SUCCESS, take (Z.to_nat n) (ms_in s),
              MemStream (drop (Z.to_nat n) (ms_in s)) (ms_out s))
    else Ret (FF_FAILURE, [], s);
  ff_stream_write bs s := Ret (FF_SUCCESS, MemStream (ms_in s) (ms_out s ++ bs))
}.

#[export] Instance mem_stream_view : StreamView mem_stream := {
  stream_inv _ := True;
  writable _ := True;
  flushed _ := True;
  incoming := ms_in;
  outgoing := ms_out
}.

(** A queue held in memory. *)
#[export] Instance list_queue {A} : FFBlockingQueue (list A) A := {
  ff_blocking_queue_get_with_timeout q :=
    match q with [] => Ret (None, []) | x :: l => Ret (Some x, l) end;
  ff_blocking_queue_get q :=
    match q with [] => Fault WouldBlock | x :: l => Ret (x, l) end;
  ff_blocking_queue_is_empty q := match q with [] => true | _ => false end;
  ff_blocking_queue_put x q := Ret (tt, q ++ [x]);
  ff_blocking_queue_create _ := [];
  queue_contents q := q
}.

(** A multiplicative hash. *)
Definition mix_hash : FFHash := {|
  ff_hash_uint32 start l := u32 (foldl (λ h x, 2654435761 * (h + x + 1)) start l);
  ff_hash_uint16 start l := u32 (foldl (λ h x, 2654435761 * (h + x + 1)) start l);
  ff_hash_uint8 start l := u32 (foldl (λ h x, 2654435761 * (h + Z_of_byte x + 1)) start l)
|}.

#[export] Instance mem_stream_spec : FFStreamSpec mem_stream.
Proof.
  split; [intros s n _ Hn | intros s bs _ _]; simpl; [|done].
  case_bool_decide; simpl.
  - unfold consumed, undisturbed; simpl. rewrite take_drop. repeat split; zlen.
  - unfold undisturbed; simpl. repeat split. zlen.
Qed.

#[export] Instance mem_stream_reliable : ReliableStream mem_stream.
Proof.
  split; [intros s n _ Hn | intros s bs _ _]; simpl in *; [|done].
  by rewrite bool_decide_eq_true_2 by lia.
Qed.

Section effects.
Context {S : Type} `{FFStreamSpec S}.
Implicit Types s : S.

Lemma wrote_app bs1 bs2 s s1 s2 r :
  wrote bs1 s FF_SUCCESS s1 → wrote bs2 s1 r s2 → wrote (bs1 ++ bs2) s r s2.
Proof.
  intros (_ & _ & Hi1 & Ho1) (Hs & Hw & Hi2 & Ho2). repeat split; try done; [congruence|].
  destruct r; rewrite Ho1 in Ho2.
  - by rewrite app_assoc.
  - destruct Ho2 as (sent & Hp & Ho2). exists (bs1 ++ sent).
    split; [by apply prefix_app | by rewrite app_assoc].
Qed.

Lemma wrote_fail bs1 bs2 s s1 :
  wrote bs1 s FF_FAILURE s1 → wrote (bs1 ++ bs2) s FF_FAILURE s1.
Proof.
  intros (Hs & Hw & Hi & sent & Hp & Ho). repeat split; try done.
  exists sent. split; [by apply prefix_app_r | done].
Qed.

Lemma wrote_nil s : stream_inv s → writable s → wrote [] s FF_SUCCESS s.
Proof. intros. repeat split; try done. by rewrite app_nil_r. Qed.

Lemma undisturbed_trans s s1 s2 :
  undisturbed s s1 → undisturbed s1 s2 → undisturbed s s2.
Proof. unfold undisturbed. intuition congruence. Qed.

Lemma consumed_undisturbed bs s s' : consumed bs s s' → undisturbed s s'.
Proof. by intros [? _]. Qed.

Lemma consumed_inv bs s s' : consumed bs s s' → stream_inv s'.
Proof. by intros [[? _] _]. Qed.

Lemma undisturbed_inv s s' : undisturbed s s' → stream_inv s'.
Proof. by intros [? _]. Qed.

Lemma consumed_app bs1 bs2 s s1 s2 :
  consumed bs1 s s1 → consumed bs2 s1 s2 → consumed (bs1 ++ bs2) s s2.
Proof.
  intros [Hu1 Hi1] [Hu2 Hi2]. split; [by eapply undisturbed_trans|].
  by rewrite Hi1, Hi2, app_assoc.
Qed.

Lemma consumed_then_failed bs s s1 s2 :
  consumed bs s s1 → undisturbed s1 s2 → undisturbed s s2.
Proof. intros [? _]. by apply undisturbed_trans. Qed.

Lemma consumed_take bs rest got s s' :
  incoming s = bs ++ rest → consumed got s s' → length got = length bs →
  got = bs ∧ incoming s' = rest.
Proof.
  intros Hin [_ Hc] Hlen. rewrite Hin in Hc.
  by destruct (app_inj_1 _ _ _ _ (eq_sym Hlen) Hc).
Qed.

(** A write, on any transport and on one which does not fail. *)
Lemma write_sends s bs : stream_inv s → writable s →
  wp (ff_stream_write bs s) (λ '(r, s'),
    wrote bs s r s' ∧ (ReliableStream S → r = FF_SUCCESS)).
Proof.
  intros Hs Hw. pose proof (ff_stream_write_spec s bs Hs Hw) as Hspec.
  destruct (ff_stream_write bs s) as [[r s']|] eqn:E; cbn in *; [|done].
  split; [done|]. intros Hrel. pose proof (reliable_write s bs Hs Hw) as Hok. by rewrite E in Hok.
Qed.

(** A reliable stream delivers the bytes at its front. *)
Lemma read_front `{!ReliableStream S} s bs rest :
  stream_inv s → incoming s = bs ++ rest →
  wp (ff_stream_read (zlength bs) s) (λ '(r, got, s'),
    r = FF_SUCCESS ∧ got = bs ∧ consumed bs s s' ∧ incoming s' = rest).
Proof.
  intros Hs Hin. pose proof (zlength_nonneg bs).
  eapply wp_mono.
  - apply wp_and; [apply ff_stream_read_spec | apply reliable_read]; try done.
    rewrite Hin. zlen.
  - intros [[r got] s'] [Hr ->]. destruct Hr as [Hc Hlen].
    destruct (consumed_take bs rest got s s' Hin Hc) as [-> Hr]; [|done].
    unfold zlength in Hlen. lia.
Qed.
End effects.

#[export] Hint Resolve consumed_undisturbed consumed_inv undisturbed_inv
  consumed_then_failed undisturbed_trans consumed_app : mrpc.

#[export] Instance list_queue_spec {A} : FFBlockingQueueSpec (list A) A.
Proof.
  split.
  - done.
  - intros [|x l]; simpl; done.
  - intros q x l; simpl. intros ->. simpl. done.
  - intros [|x l]; simpl; done.
  - intros q x; simpl. done.
Qed.

Lemma mix_hash_spec : @FFHashSpec mix_hash.
Proof. split; intros; apply u32_range. Qed.
