(* ===== verification/FFSync.v ===== *)
(** * The fiber-framework interface, continued: connections, events, pools

    The objects of the fiber-framework which the stream processors use, in the
    style of [FF]: operations, laws about an abstract view, one instance. *)

From stdpp Require Import sorting gmap.
From S2P Require Import Prelude FF.

(** The calls on a [struct ff_stream] which is a network connection. *)
Class FFConnection (S : Type) := {
  ff_stream_flush : M S ff_result;
  ff_stream_disconnect : M S unit;
}.

(** Neither call adds to or takes away from the bytes which were written; a
    disconnected stream may lose what its peer still sends. *)
Class FFConnectionSpec (S : Type) `{FFConnection S, StreamView S} : Prop := {
  ff_stream_flush_spec s : stream_inv s → writable s →
    wp (ff_stream_flush s) (λ '(_, s'),
      stream_inv s' ∧ writable s' ∧ incoming s' = incoming s ∧ outgoing s' = outgoing s);
  ff_stream_disconnect_spec s : stream_inv s → writable s →
    wp (ff_stream_disconnect s) (λ '(_, s'), undisturbed s s')
}.

(** [struct ff_event] of type [FF_EVENT_AUTO]: a wait returns once the event is
    set, and resets it. *)
Class FFEvent (E : Type) := {
  ff_event_create : E;
  ff_event_set : M E unit;
  ff_event_reset : M E unit;
  ff_event_wait : M E unit;
  event_is_set : E → bool;
}.

Class FFEventSpec (E : Type) `{FFEvent E} : Prop := {
  ff_event_create_spec : event_is_set ff_event_create = false;
  ff_event_set_spec e : wp (ff_event_set e) (λ '(_, e'), event_is_set e' = true);
  ff_event_reset_spec e : wp (ff_event_reset e) (λ '(_, e'), event_is_set e' = false);
  ff_event_wait_spec e : event_is_set e = true →
    wp (ff_event_wait e) (λ '(_, e'), event_is_set e' = false)
}.

(** [struct ff_event] of type [FF_EVENT_MANUAL]: a wait leaves the event set. *)
Class FFManualEvent (E : Type) := {
  manual_event_create : E;
  manual_event_set : M E unit;
  manual_event_reset : M E unit;
  manual_event_wait : M E unit;
  manual_is_set : E → bool;
}.

Class FFManualEventSpec (E : Type) `{FFManualEvent E} : Prop := {
  manual_event_create_spec : manual_is_set manual_event_create = false;
  manual_event_set_spec e : wp (manual_event_set e) (λ '(_, e'), manual_is_set e' = true);
  manual_event_reset_spec e : wp (manual_event_reset e) (λ '(_, e'), manual_is_set e' = false);
  manual_event_wait_spec e : manual_is_set e = true →
    wp (manual_event_wait e) (λ '(_, e'), manual_is_set e' = true)
}.

(** [struct ff_dictionary]: a map from keys to values, with the hash function of
    the keys and their equality.  [dict_remove_all] gives the entries in the
    order in which [ff_dictionary_remove_all_entries] passes them to its callback. *)
Class FFDictionary (D : Type) := {
  ff_dictionary_create : Z → (Z → Z) → (Z → Z → bool) → D;
  ff_dictionary_add_entry : Z → nat → M D ff_result;
  ff_dictionary_remove_entry : Z → M D (option nat);
  dict_remove_all : M D (list (Z * nat));
  dict_map : D → gmap Z nat;
}.

Class FFDictionarySpec (D : Type) `{FFDictionary D} : Prop := {
  ff_dictionary_create_spec order hash is_equal :
    (∀ k1 k2, is_equal k1 k2 = bool_decide (k1 = k2)) →
    dict_map (ff_dictionary_create order hash is_equal) = ∅;
  ff_dictionary_add_entry_spec d k v : wp (ff_dictionary_add_entry k v d) (λ '(r, d'),
    match dict_map d !! k with
    | Some _ => r = FF_FAILURE ∧ dict_map d' = dict_map d
    | None => r = FF_SUCCESS ∧ dict_map d' = <[k := v]> (dict_map d)
    end);
  ff_dictionary_remove_entry_spec d k : wp (ff_dictionary_remove_entry k d) (λ '(r, d'),
    r = dict_map d !! k ∧ dict_map d' = delete k (dict_map d));
  dict_remove_all_spec d : wp (dict_remove_all d) (λ '(l, d'),
    l ≡ₚ map_to_list (dict_map d) ∧ dict_map d' = ∅)
}.

(** [struct ff_pool]: entries are created on demand by a callback with its
    context, and reused once they are released.  A call of
    [ff_pool_acquire_entry] which has to wait, because all entries of the pool
    are in use, is represented by its return: callers for which the limit of
    the pool matters state that it is not reached. *)
Class FFPool (K A : Type) := {
  ff_pool_create : Z → K;
  ff_pool_acquire_entry : ∀ {C : Type}, M C A → M (K * C) A;
  ff_pool_release_entry : A → M K unit;
  ff_pool_delete : ∀ {C : Type}, (A → M C unit) → M (K * C) unit;
  pool_free : K → list A;
  pool_busy : K → Z;
}.

(** The destructor is applied to one entry after the other. *)
Fixpoint delete_entries {A C} (delete_func : A → M C unit) (l : list A) : M C unit :=
  match l with
  | [] => mret tt
  | a :: l => delete_func a;; delete_entries delete_func l
  end.

Class FFPoolSpec (K A : Type) `{FFPool K A} : Prop := {
  ff_pool_create_spec n :
    pool_free (ff_pool_create n) = [] ∧ pool_busy (ff_pool_create n) = 0;
  ff_pool_acquire_free_spec {C} (create : M C A) k c : pool_free k ≠ [] →
    wp (ff_pool_acquire_entry create (k, c)) (λ '(a, (k', c')),
      c' = c ∧ pool_free k ≡ₚ a :: pool_free k' ∧ pool_busy k' = pool_busy k + 1);
  ff_pool_acquire_new_spec {C} (create : M C A) k c (R : A * C → Prop) : pool_free k = [] →
    wp (create c) R →
    wp (ff_pool_acquire_entry create (k, c)) (λ '(a, (k', c')),
      R (a, c') ∧ pool_free k' = [] ∧ pool_busy k' = pool_busy k + 1);
  ff_pool_release_entry_spec k a :
    wp (ff_pool_release_entry a k) (λ '(_, k'),
      pool_free k' ≡ₚ a :: pool_free k ∧ pool_busy k' = pool_busy k - 1);
  ff_pool_delete_spec {C} (delete_func : A → M C unit) k c (R : C → Prop) :
    pool_busy k = 0 →
    (∀ l, l ≡ₚ pool_free k → wp (delete_entries delete_func l c) (λ '(_, c'), R c')) →
    wp (ff_pool_delete delete_func (k, c)) (λ '(_, (_, c')), R c')
}.

(** ** Instances *)

#[export] Instance mem_connection : FFConnection mem_stream := {
  ff_stream_flush s := Ret (FF_SUCCESS, s);
  ff_stream_disconnect s := Ret (tt, MemStream [] (ms_out s))
}.

#[export] Instance mem_connection_spec : FFConnectionSpec mem_stream.
Proof. by split. Qed.

#[export] Instance bool_event : FFEvent bool := {
  ff_event_create := false;
  ff_event_set _ := Ret (tt, true);
  ff_event_reset _ := Ret (tt, false);
  ff_event_wait e := if e then Ret (tt, false) else Fault WouldBlock;
  event_is_set e := e
}.

#[export] Instance bool_event_spec : FFEventSpec bool.
Proof. split; try done. by intros [|]. Qed.

#[export] Instance bool_manual_event : FFManualEvent bool := {
  manual_event_create := false;
  manual_event_set _ := Ret (tt, true);
  manual_event_reset _ := Ret (tt, false);
  manual_event_wait e := if e then Ret (tt, true) else Fault WouldBlock;
  manual_is_set e := e
}.

#[export] Instance bool_manual_event_spec : FFManualEventSpec bool.
Proof. split; try done. by intros [|]. Qed.

#[export] Instance gmap_dictionary : FFDictionary (gmap Z nat) := {
  ff_dictionary_create _ _ _ := ∅;
  ff_dictionary_add_entry k v d :=
    match d !! k with
    | Some _ => Ret (FF_FAILURE, d)
    | None => Ret (FF_SUCCESS, <[k := v]> d)
    end;
  ff_dictionary_remove_entry k d := Ret (d !! k, delete k d);
  dict_remove_all d := Ret (map_to_list d, ∅);
  dict_map d := d
}.

#[export] Instance gmap_dictionary_spec : FFDictionarySpec (gmap Z nat).
Proof. split; try done. intros d k v. cbn. by destruct (d !! k). Qed.

(** The free entries and the number of those in use. *)
#[export] Instance list_pool {A} : FFPool (list A * Z) A := {
  ff_pool_create _ := ([], 0);
  ff_pool_acquire_entry C create '(k, c) :=
    match k.1 with
    | a :: l => Ret (a, ((l, k.2 + 1), c))
    | [] => match create c with
            | Ret (a, c) => Ret (a, (([], k.2 + 1), c))
            | Fault f => Fault f
            end
    end;
  ff_pool_release_entry a k := Ret (tt, (a :: k.1, k.2 - 1));
  ff_pool_delete C delete_func '(k, c) :=
    match delete_entries delete_func (k.1) c with
    | Ret (_, c) => Ret (tt, (([], k.2), c))
    | Fault f => Fault f
    end;
  pool_free k := k.1;
  pool_busy k := k.2
}.

#[export] Instance list_pool_spec {A} : FFPoolSpec (list A * Z) A.
Proof.
  split; try done.
  - intros C create [[|a l] n] c; cbn; done.
  - intros C create [l n] c R; cbn. intros -> Hc.
    by destruct (create c) as [[a c']|].
  - intros C delete_func [l n] c R; cbn. intros _ Hl.
    specialize (Hl l (Permutation_refl l)). by destruct (delete_entries delete_func l c) as [[? c']|].
Qed.
