(* ===== verification/Wire.v ===== *)
(** * The wire interface

    What a value type promises to the code which sends it through a stream
    (src/mrpc_int.c, src/mrpc_char_array.c, src/mrpc_wchar_array.c implement
    it; packets, arrays and remote calls are proved against it). *)

From S2P Require Import Prelude FF.

(** A serializer, an unserializer and the octets they agree on.  The
    unserializer returns [enum ff_result] and the value of its output
    parameter, [None] if it was not assigned. *)
Class Wire (A : Type) := {
  wire_valid : A → Prop;
  wire_bytes : A → list byte;
  wire_serialize {S} `{FFStream S} : A → M S ff_result;
  wire_unserialize {S} `{FFStream S} : M S (ff_result * option A);
}.

Class WireSpec (A : Type) `{Wire A} : Prop := {
  (** Every value has an octet. *)
  wire_bytes_nonempty (a : A) : wire_valid a → wire_bytes a ≠ [];
  (** Serialization appends the octets of the value, or fails with the stream. *)
  wire_serialize_spec {S} `{FFStreamSpec S} (a : A) (s : S) :
    wire_valid a → stream_inv s → writable s →
    wp (wire_serialize a s) (λ '(r, s'), wrote (wire_bytes a) s r s');
  wire_serialize_reliable {S} `{FFStreamSpec S} `{!ReliableStream S} (a : A) (s : S) :
    wire_valid a → stream_inv s → writable s →
    wp (wire_serialize a s) (λ '(r, _), r = FF_SUCCESS);
  (** Whatever the peer sends, unserialization ends without a fault, and a
      success assigns a valid value. *)
  wire_unserialize_safe {S} `{FFStreamSpec S} (s : S) :
    stream_inv s →
    wp (wire_unserialize s) (λ '(r, o, s'),
      match r with
      | FF_SUCCESS => (∃ bs, consumed bs s s') ∧ ∃ a : A, o = Some a ∧ wire_valid a
      | FF_FAILURE => undisturbed s s' ∧ o = None
      end);
  (** The octets of a value are read back as this value, and nothing else is
      taken from the stream. *)
  wire_unserialize_bytes {S} `{FFStreamSpec S} `{!ReliableStream S} (a : A) (s : S) rest :
    wire_valid a → stream_inv s → incoming s = wire_bytes a ++ rest →
    wp (wire_unserialize s) (λ '(r, o, s'),
      r = FF_SUCCESS ∧ o = Some a ∧ consumed (wire_bytes a) s s' ∧ incoming s' = rest)
}.

(** What is sent is received, for every type with these laws. *)
Lemma wire_send_receive {A W R : Type} `{WireSpec A} `{FFStreamSpec W} `{!ReliableStream W}
    `{FFStreamSpec R} `{!ReliableStream R} (a : A) (w : W) :
  wire_valid a → stream_inv w → writable w →
  wp (wire_serialize a w) (λ '(res, w'),
    res = FF_SUCCESS ∧ outgoing w' = outgoing w ++ wire_bytes a ∧
    ∀ (r : R) rest, stream_inv r → incoming r = wire_bytes a ++ rest →
      wp (wire_unserialize r) (λ '(res, o, r'),
        res = FF_SUCCESS ∧ o = Some a ∧ incoming r' = rest)).
Proof.
  intros Ha Hw Hwr.
  eapply wp_mono; [apply wp_and; [by apply wire_serialize_spec|by apply wire_serialize_reliable]|].
  intros [res w'] [(_ & _ & _ & Hout) ->]. split; [done|]. split; [done|].
  intros r rest Hr Hin. eapply wp_mono; [by apply (wire_unserialize_bytes a)|].
  by intros [[? ?] ?] (? & ? & ? & ?).
Qed.
