(* ===== verification/MrpcInt.v ===== *)
(** * Integers on the wire (src/mrpc_int.c)

    Definitions follow the C functions; [varint] and [zigzag] are the reference
    encodings (base 128 with continuation bits, and the folding of signed
    integers). *)

From S2P Require Import Prelude FF Wire.

Definition BITS_PER_OCTET : Z := 7.
Definition MAX_UINT_N_OCTETS (n : Z) : Z := (n + BITS_PER_OCTET - 1) / BITS_PER_OCTET.
Definition MAX_UINT64_OCTETS : Z := MAX_UINT_N_OCTETS 64.
Definition OCTET_MASK : Z := Z.shiftl 1 BITS_PER_OCTET - 1.
Definition CONTINUE_NUMBER_FLAG : Z := Z.shiftl 1 BITS_PER_OCTET.
Definition MAX_UINT32_VALUE : Z := Z.shiftl 1 32 - 1.

(** The do-while loop of [mrpc_uint64_serialize].  [space] is the number of
    unused octets of [buf], so [ff_assert(len < MAX_UINT64_OCTETS)] fails when
    it is zero; [written] are the octets stored so far. *)
Fixpoint uint64_octets (space : nat) (data : Z) (written : list byte) : outcome (list byte) :=
  match space with
  | O => Fault AssertionFailed
  | S space =>
      let octet := byte_of_Z (Z.land data OCTET_MASK) in
      let data := Z.shiftr data BITS_PER_OCTET in
      let flag := if bool_decide (data ≠ 0) then CONTINUE_NUMBER_FLAG else 0 in
      let octet := byte_of_Z (Z.lor (Z_of_byte octet) flag) in
      let written := written ++ [octet] in
      if bool_decide (data ≠ 0) then uint64_octets space data written else Ret written
  end.

(** The loop of [mrpc_uint64_unserialize].  The test on [bits_len] ends it
    after [MAX_UINT64_OCTETS] octets, so [S MAX_UINT64_OCTETS] rounds of fuel
    are enough. *)
Fixpoint uint64_read_octets {S} `{FFStream S} (fuel : nat) (u_data bits_len : Z) :
    M S (ff_result * option Z) :=
  match fuel with
  | O => lift (Fault OutOfFuel)
  | Datatypes.S fuel =>
      if bool_decide (bits_len >= 64) then mret (FF_FAILURE, None)
      else
        r ← ff_stream_read 1;
        match r.1 with
        | FF_FAILURE => mret (FF_FAILURE, None)
        | FF_SUCCESS =>
            octet ← lift (arr_get r.2 0);
            let octet := Z_of_byte octet in
            let u_data := Z.lor u_data (u64 (Z.shiftl (Z.land octet OCTET_MASK) bits_len)) in
            let bits_len := bits_len + BITS_PER_OCTET in
            if bool_decide (Z.land octet CONTINUE_NUMBER_FLAG ≠ 0)
            then uint64_read_octets fuel u_data bits_len
            else mret (FF_SUCCESS, Some u_data)
        end
  end.

(** [(data << 1) ^ (data >> 63)] on [int64_t], converted to [uint64_t]. *)
Definition zigzag64 (data : Z) : Z := u64 (Z.lxor (s64 (Z.shiftl data 1)) (Z.shiftr data 63)).
(** [(u_data >> 1) ^ (-((int64_t)(u_data & 0x01)))], then the cast to [int64_t]. *)
Definition unzigzag64 (u_data : Z) : Z :=
  s64 (Z.lxor (Z.shiftr u_data 1) (u64 (- Z.land u_data 1))).
Definition zigzag32 (data : Z) : Z := u32 (Z.lxor (s32 (Z.shiftl data 1)) (Z.shiftr data 31)).
Definition unzigzag32 (u_data : Z) : Z :=
  s32 (Z.lxor (Z.shiftr u_data 1) (u32 (- Z.land u_data 1))).

Section operations.
Context {S : Type} `{FFStream S}.

Definition mrpc_uint64_serialize (data : Z) : M S ff_result :=
  buf ← lift (uint64_octets (Z.to_nat MAX_UINT64_OCTETS) data []);
  ff_stream_write buf.

Definition mrpc_uint64_unserialize : M S (ff_result * option Z) :=
  uint64_read_octets (Datatypes.S (Z.to_nat MAX_UINT64_OCTETS)) 0 0.

Definition mrpc_int64_serialize (data : Z) : M S ff_result :=
  mrpc_uint64_serialize (zigzag64 data).

Definition mrpc_int64_unserialize : M S (ff_result * option Z) :=
  r ← mrpc_uint64_unserialize;
  match r with
  | (FF_SUCCESS, Some u_data) => mret (FF_SUCCESS, Some (unzigzag64 u_data))
  | (result, _) => mret (result, None)
  end.

Definition mrpc_uint32_serialize (data : Z) : M S ff_result :=
  mrpc_uint64_serialize data.

Definition mrpc_uint32_unserialize : M S (ff_result * option Z) :=
  r ← mrpc_uint64_unserialize;
  match r with
  | (FF_SUCCESS, Some u_data) =>
      if bool_decide (u_data <= MAX_UINT32_VALUE)
      then mret (FF_SUCCESS, Some (u32 u_data))
      else mret (FF_FAILURE, None)
  | (result, _) => mret (result, None)
  end.

Definition mrpc_int32_serialize (data : Z) : M S ff_result :=
  mrpc_uint32_serialize (zigzag32 data).

Definition mrpc_int32_unserialize : M S (ff_result * option Z) :=
  r ← mrpc_uint32_unserialize;
  match r with
  | (FF_SUCCESS, Some u_data) => mret (FF_SUCCESS, Some (unzigzag32 u_data))
  | (result, _) => mret (result, None)
  end.
End operations.

Section hashes.
Context `{FFHash}.

Definition mrpc_uint64_get_hash (data start_value : Z) : Z :=
  ff_hash_uint32 start_value [u32 data; u32 (Z.shiftr data 32)].
Definition mrpc_int64_get_hash (data start_value : Z) : Z :=
  ff_hash_uint32 start_value [u32 data; u32 (Z.shiftr data 32)].
Definition mrpc_uint32_get_hash (data start_value : Z) : Z :=
  ff_hash_uint32 start_value [data].
(** The array is the 32-bit pattern of [data], read as [uint32_t]. *)
Definition mrpc_int32_get_hash (data start_value : Z) : Z :=
  ff_hash_uint32 start_value [u32 data].
End hashes.

(** ** Reference encodings *)

(** Base 128, least significant group first; all octets but the last one have
    their high bit set.  [n] bounds the number of octets. *)
Fixpoint base128 (n : nat) (z : Z) : list byte :=
  match n with
  | O => []
  | S n => if bool_decide (z < 128) then [byte_of_Z z]
           else byte_of_Z (128 + z mod 128) :: base128 n (z / 128)
  end.

Definition varint (z : Z) : list byte := base128 10 z.

Definition zigzag (z : Z) : Z := if bool_decide (z < 0) then - 2 * z - 1 else 2 * z.

(** The number a sequence of octets stands for. *)
Fixpoint octets_value (bs : list byte) : Z :=
  match bs with
  | [] => 0
  | b :: bs => Z_of_byte b mod 128 + 128 * octets_value bs
  end.

(** A complete sequence: exactly the last octet has its high bit clear. *)
Fixpoint octets_complete (bs : list byte) : bool :=
  match bs with
  | [] => false
  | [b] => bool_decide (Z_of_byte b < 128)
  | b :: bs => bool_decide (128 <= Z_of_byte b) && octets_complete bs
  end.

(** ** The four integer types as values on the wire *)

Inductive int_type := TUint32 | TInt32 | TUint64 | TInt64.

Record mrpc_int (t : int_type) := MrpcInt { int_value : Z }.
Arguments MrpcInt {t} _.
Arguments int_value {t} _.

Definition int_in_range (t : int_type) (z : Z) : Prop :=
  match t with
  | TUint32 => is_u32 z
  | TInt32 => is_s32 z
  | TUint64 => is_u64 z
  | TInt64 => is_s64 z
  end.

(** The unsigned number which is sent for a value. *)
Definition int_image (t : int_type) (z : Z) : Z :=
  match t with TUint32 | TUint64 => z | TInt32 | TInt64 => zigzag z end.

Definition int_serialize {S} `{FFStream S} (t : int_type) (z : Z) : M S ff_result :=
  match t with
  | TUint32 => mrpc_uint32_serialize z
  | TInt32 => mrpc_int32_serialize z
  | TUint64 => mrpc_uint64_serialize z
  | TInt64 => mrpc_int64_serialize z
  end.

Definition int_unserialize {S} `{FFStream S} (t : int_type) : M S (ff_result * option Z) :=
  match t with
  | TUint32 => mrpc_uint32_unserialize
  | TInt32 => mrpc_int32_unserialize
  | TUint64 => mrpc_uint64_unserialize
  | TInt64 => mrpc_int64_unserialize
  end.

#[export] Instance mrpc_int_wire t : Wire (mrpc_int t) := {
  wire_valid v := int_in_range t (int_value v);
  wire_bytes v := varint (int_image t (int_value v));
  wire_serialize S _ v := int_serialize t (int_value v);
  wire_unserialize S _ :=
    r ← int_unserialize t; mret (r.1, MrpcInt <$> r.2)
}.

(** ** Bit operations on octets *)

Lemma land_mask z : Z.land z OCTET_MASK = z mod 128.
Proof. change OCTET_MASK with (Z.ones 7). by rewrite Z.land_ones. Qed.

Lemma shiftr_octet z : Z.shiftr z BITS_PER_OCTET = z / 128.
Proof. by rewrite Z.shiftr_div_pow2. Qed.

Lemma testbit_above a n i : 0 <= n <= i → 0 <= a < 2 ^ n → Z.testbit a i = false.
Proof.
  intros Hn Ha. rewrite <- (Z.mod_small a (2 ^ n)) by done.
  apply Z.mod_pow2_bits_high. lia.
Qed.

Lemma land_shiftl_disjoint a b n :
  0 <= n → 0 <= a < 2 ^ n → Z.land a (Z.shiftl b n) = 0.
Proof.
  intros Hn Ha. apply Z.bits_inj'. intros i Hi. rewrite Z.land_spec, Z.bits_0.
  destruct (decide (i < n)).
  - rewrite Z.shiftl_spec_low by done. apply andb_false_r.
  - by rewrite (testbit_above a n i) by lia.
Qed.

Lemma lor_add_disjoint a b n :
  0 <= n → 0 <= a < 2 ^ n → Z.lor a (Z.shiftl b n) = a + b * 2 ^ n.
Proof.
  intros Hn Ha. pose proof (land_shiftl_disjoint a b n Hn Ha) as Hd.
  rewrite <- Z.shiftl_mul_pow2 by done.
  by rewrite Z.add_nocarry_lxor, Z.lxor_lor.
Qed.

Lemma lor_flag z : 0 <= z < 128 → Z.lor z CONTINUE_NUMBER_FLAG = 128 + z.
Proof.
  intros. change CONTINUE_NUMBER_FLAG with (Z.shiftl 1 7).
  rewrite lor_add_disjoint by lia. lia.
Qed.

Lemma land_flag b : Z.land (Z_of_byte b) CONTINUE_NUMBER_FLAG ≠ 0 ↔ 128 <= Z_of_byte b.
Proof. destruct b; vm_compute; naive_solver. Qed.

Lemma Z_of_byte_small z : 0 <= z < 256 → Z_of_byte (byte_of_Z z) = z.
Proof. intros. rewrite Z_of_byte_of_Z. by apply Z.mod_small. Qed.

(** ** [mrpc_uint64_serialize] computes [varint] *)

Lemma uint64_octets_base128 n data written :
  (0 < n)%nat → 0 <= data < 128 ^ Z.of_nat n →
  uint64_octets n data written = Ret (written ++ base128 n data).
Proof.
  revert data written. induction n as [|n IH]; [lia|]. intros data written _ Hd.
  cbn [uint64_octets base128]. rewrite land_mask, shiftr_octet, Z_of_byte_small.
  2:{ pose proof (Z.mod_pos_bound data 128). lia. }
  rewrite Nat2Z.inj_succ, Z.pow_succ_r in Hd by lia.
  assert (data / 128 = 0 ↔ data < 128) as Hdiv.
  { rewrite Z.div_small_iff by lia. lia. }
  destruct (decide (data < 128)) as [Hlt|Hge].
  - rewrite !(bool_decide_eq_false_2 (data / 128 ≠ 0)) by tauto.
    rewrite bool_decide_eq_true_2 by done. rewrite Z.lor_0_r, Z.mod_small by lia. done.
  - rewrite !(bool_decide_eq_true_2 (data / 128 ≠ 0)) by tauto.
    rewrite bool_decide_eq_false_2 by done.
    rewrite lor_flag by (apply Z.mod_pos_bound; lia).
    rewrite IH, <- app_assoc; [done| |split; [apply Z.div_pos|apply Z.div_lt_upper_bound]; lia].
    destruct n; [|lia]. simpl in Hd. lia.
Qed.

Lemma base128_complete n z : (0 < n)%nat → 0 <= z < 128 ^ Z.of_nat n →
  octets_complete (base128 n z) = true ∧ octets_value (base128 n z) = z ∧
  (1 <= length (base128 n z) <= n)%nat.
Proof.
  revert z. induction n as [|n IH]; [lia|]. intros z _ Hz. cbn [base128].
  rewrite Nat2Z.inj_succ, Z.pow_succ_r in Hz by lia.
  case_bool_decide as Hlt.
  - cbn. rewrite Z_of_byte_small, Z.mod_small by lia.
    rewrite bool_decide_eq_true_2 by done. repeat split; lia.
  - assert (0 < n)%nat as Hn. { destruct n; [simpl in Hz|]; lia. }
    destruct (IH (z / 128) Hn) as (Hc & Hv & Hl).
    { split; [apply Z.div_pos|apply Z.div_lt_upper_bound]; lia. }
    cbn [octets_complete octets_value length].
    pose proof (Z.mod_pos_bound z 128).
    rewrite Z_of_byte_small by lia. rewrite Hc, Hv.
    destruct (base128 n (z / 128)) eqn:E; [simpl in Hl; lia|].
    rewrite bool_decide_eq_true_2 by lia. cbn [andb]. split; [done|].
    rewrite <- Z.add_mod_idemp_l, Z.mod_same, Z.add_0_l, Z.mod_mod by lia.
    pose proof (Z.div_mod z 128). simpl in *. lia.
Qed.

Lemma varint_nonempty z : varint z ≠ [].
Proof. unfold varint. cbn [base128]. by case_bool_decide. Qed.

Lemma varint_spec z : is_u64 z →
  octets_complete (varint z) = true ∧ octets_value (varint z) = z ∧
  1 <= zlength (varint z) <= 10.
Proof.
  intros Hz. destruct (base128_complete 10 z) as (? & ? & ?); [lia| |].
  - unfold is_u64 in Hz. simpl. lia.
  - unfold zlength, varint. repeat split; try done; lia.
Qed.

(** The number of octets is the number of 7-bit groups of the value. *)
Lemma base128_length_le n k z : (0 < k <= n)%nat → 0 <= z < 128 ^ Z.of_nat n →
  (length (base128 n z) <= k)%nat ↔ z < 128 ^ Z.of_nat k.
Proof.
  revert k z. induction n as [|n IH]; [lia|]. intros k z Hk Hz. cbn [base128].
  rewrite Nat2Z.inj_succ, Z.pow_succ_r in Hz by lia.
  destruct k as [|k]; [lia|]. rewrite Nat2Z.inj_succ, Z.pow_succ_r by lia.
  assert (0 < 128 ^ Z.of_nat k) by (apply Z.pow_pos_nonneg; lia).
  case_bool_decide as Hlt; cbn [length]; [split; intros; nia|].
  assert (z / 128 < 128 ^ Z.of_nat n) by (apply Z.div_lt_upper_bound; lia).
  assert (0 <= z / 128) by (apply Z.div_pos; lia).
  destruct k as [|k].
  - destruct (base128_complete n (z / 128)) as (_ & _ & Hl); [|lia|simpl; split; intros; lia].
    destruct n; [simpl in *; lia|lia].
  - rewrite <- Nat.succ_le_mono, IH by lia. split; intros.
    + apply Z.lt_nge. intros Hge. apply Z.div_le_mono with (c := 128) in Hge; [|lia].
      rewrite Z.mul_comm, Z.div_mul in Hge; lia.
    + apply Z.div_lt_upper_bound; lia.
Qed.

(** Complete sequences are self-delimiting. *)
Lemma octets_complete_prefix_free bs1 bs2 r1 r2 :
  octets_complete bs1 = true → octets_complete bs2 = true →
  bs1 ++ r1 = bs2 ++ r2 → bs1 = bs2 ∧ r1 = r2.
Proof.
  revert bs2. induction bs1 as [|b bs1 IH]; intros [|c bs2]; try done.
  intros H1 H2 [= <- Heq]. cbn in H1, H2.
  destruct bs1 as [|b1 bs1], bs2 as [|c1 bs2]; try done;
    repeat (case_bool_decide; try done); try lia.
  simpl in H1, H2. destruct (IH (c1 :: bs2)) as [-> ->]; done.
Qed.

(** ** [mrpc_uint64_unserialize] computes [octets_value] *)

(** One round of the accumulation, with the wrap-around of the shift. *)
Lemma accumulate_octet u b bits_len :
  0 <= bits_len < 64 → 0 <= u < 2 ^ bits_len →
  Z.lor u (u64 (Z.shiftl (Z.land (Z_of_byte b) OCTET_MASK) bits_len)) =
  u64 (u + 2 ^ bits_len * (Z_of_byte b mod 128)).
Proof.
  intros Hb Hu. rewrite land_mask. unfold u64.
  set (v := Z_of_byte b mod 128).
  assert (2 ^ 64 = 2 ^ (64 - bits_len) * 2 ^ bits_len) as H64.
  { rewrite <- Z.pow_add_r by lia. f_equal. lia. }
  assert (0 < 2 ^ bits_len) by (apply Z.pow_pos_nonneg; lia).
  assert (0 < 2 ^ (64 - bits_len)) by (apply Z.pow_pos_nonneg; lia).
  rewrite Z.shiftl_mul_pow2, H64, Z.mul_mod_distr_r by lia.
  rewrite <- Z.shiftl_mul_pow2, lor_add_disjoint by lia.
  rewrite (Z.mul_comm (2 ^ (64 - bits_len))), Z.rem_mul_r by lia.
  rewrite (Z.mul_comm (2 ^ bits_len) v), Z.mod_add, (Z.mod_small u) by lia.
  rewrite Z.div_add, Z.div_small by lia. rewrite Z.add_0_l. ring.
Qed.

Lemma u64_accumulate u b v bits_len :
  0 <= bits_len →
  u64 (u64 (u + 2 ^ bits_len * b) + 2 ^ (bits_len + 7) * v) =
  u64 (u + 2 ^ bits_len * (b + 128 * v)).
Proof.
  intros Hb. unfold u64. rewrite Z.add_mod_idemp_l by lia. f_equal.
  rewrite Z.pow_add_r by lia. change (2 ^ 7) with 128. ring.
Qed.

Section reading.
Context {S : Type} `{FFStreamSpec S}.
Implicit Types s : S.

(** Reading one octet, as the loop does. *)
Lemma read_octet_spec s (Q : ff_result * list byte * S → Prop) :
  stream_inv s →
  (∀ b s', consumed [b] s s' → Q (FF_SUCCESS, [b], s')) →
  (∀ bs s', undisturbed s s' → Q (FF_FAILURE, bs, s')) →
  wp (ff_stream_read 1 s) Q.
Proof.
  intros Hs Hok Hfail. wp_apply ff_stream_read_spec as [[r bs] s']; [done|lia|].
  intros Hr. destruct r; destruct Hr as [Hc Hlen]; [|by apply Hfail].
  destruct bs as [|b [|]]; rewrite ?zlength_cons in Hlen; try (zlen || done).
  by apply Hok.
Qed.

(** Whatever the stream holds, the loop stops within its fuel; on success it
    took a complete sequence of octets and computed its value modulo 2^64. *)
Lemma uint64_read_octets_spec fuel u bits_len s :
  stream_inv s → 0 <= bits_len → (0 < fuel)%nat →
  64 <= bits_len + 7 * (Z.of_nat fuel - 1) →
  0 <= u < 2 ^ bits_len → is_u64 u →
  wp (uint64_read_octets fuel u bits_len s) (λ '(r, o, s'),
    match r with
    | FF_SUCCESS => ∃ bs, consumed bs s s' ∧ octets_complete bs = true ∧
        7 * (zlength bs - 1) + bits_len < 64 ∧
        o = Some (u64 (u + 2 ^ bits_len * octets_value bs))
    | FF_FAILURE => undisturbed s s' ∧ o = None
    end).
Proof.
  revert u bits_len s. induction fuel as [|fuel IH];
    intros u bits_len s Hs Hb Hpos Hfuel Hu Hu64; [lia|].
  cbn [uint64_read_octets]. case_bool_decide as Hlim; [cbn; by repeat split|].
  rewrite wp_M_bind. apply read_octet_spec; [done| |by intros].
  intros b s' Hc. cbn [fst snd]. rewrite wp_M_bind, wp_lift.
  eapply wp_arr_get; [lia|done|]. cbn [fst snd].
  rewrite accumulate_octet by lia.
  assert (u64 (u + 2 ^ bits_len * (Z_of_byte b mod 128)) <= u + 2 ^ bits_len * (Z_of_byte b mod 128)) as Hle.
  { apply Z.mod_le; [|lia]. pose proof (Z.mod_pos_bound (Z_of_byte b) 128). nia. }
  assert (u + 2 ^ bits_len * (Z_of_byte b mod 128) < 2 ^ (bits_len + 7)) as Hlt.
  { rewrite Z.pow_add_r by lia. pose proof (Z.mod_pos_bound (Z_of_byte b) 128). nia. }
  case_bool_decide as Hflag.
  - eapply wp_mono.
    + apply (IH _ (bits_len + BITS_PER_OCTET) s'); eauto with mrpc;
        unfold BITS_PER_OCTET; try lia.
      * pose proof (u64_range (u + 2 ^ bits_len * (Z_of_byte b mod 128))) as [? ?]. lia.
      * apply u64_range.
    + intros [[[|] o] s2]; [|by intros [? ->]; eauto with mrpc].
      intros (bs & Hc2 & Hcomp & Hlen & ->). exists (b :: bs).
      split; [by apply (consumed_app [b] bs s s' s2)|].
      unfold BITS_PER_OCTET in *. rewrite u64_accumulate by lia.
      apply land_flag in Hflag. rewrite zlength_cons.
      repeat split; [|lia].
      destruct bs; [done|]. cbn [octets_complete] in *.
      by rewrite (bool_decide_eq_true_2 _ Hflag).
  - exists [b]. split; [done|].
    assert (¬ 128 <= Z_of_byte b) by (by intros ?%land_flag).
    cbn [octets_complete octets_value]. change (zlength [b]) with 1.
    rewrite bool_decide_eq_true_2 by lia. repeat split; [lia|]. repeat f_equal. lia.
Qed.

(** On a reliable stream the loop succeeds on every complete sequence which
    the bound on the number of bits admits, ... *)
Lemma uint64_read_octets_success `{!ReliableStream S} fuel u bits_len bs rest s :
  stream_inv s → incoming s = bs ++ rest → octets_complete bs = true →
  0 <= bits_len → 7 * (zlength bs - 1) + bits_len < 64 → (length bs <= fuel)%nat →
  wp (uint64_read_octets fuel u bits_len s) (λ '(r, _, _), r = FF_SUCCESS).
Proof.
  revert u bits_len bs s. induction fuel as [|fuel IH];
    intros u bits_len bs s Hs Hin Hcomp Hb Hbits Hlen.
  { by destruct bs; simpl in Hlen; [|lia]. }
  destruct bs as [|b bs]; [done|]. rewrite zlength_cons in Hbits.
  pose proof (zlength_nonneg bs). cbn [uint64_read_octets].
  rewrite bool_decide_eq_false_2 by lia. rewrite wp_M_bind.
  eapply wp_mono; [apply (read_front s [b] (bs ++ rest)); done|].
  intros [[r got] s'] (-> & -> & Hc & Hin'). cbn [fst snd].
  rewrite wp_M_bind, wp_lift. eapply wp_arr_get; [lia|done|]. cbn [fst snd].
  case_bool_decide as Hflag; [|done]. apply land_flag in Hflag.
  destruct bs as [|c bs].
  { cbn in Hcomp. case_bool_decide; [lia|done]. }
  apply (IH _ _ (c :: bs)); try done; unfold BITS_PER_OCTET; simpl in *; try lia.
  - eauto with mrpc.
  - by apply andb_true_iff in Hcomp as [_ ?].
Qed.
End reading.

(** ** Signed integers *)

Lemma s64_range z : is_s64 (s64 z).
Proof. unfold is_s64, s64. pose proof (Z.mod_pos_bound (z + 2 ^ 63) (2 ^ 64)). lia. Qed.
Lemma s32_range z : is_s32 (s32 z).
Proof. unfold is_s32, s32. pose proof (Z.mod_pos_bound (z + 2 ^ 31) (2 ^ 32)). lia. Qed.

Lemma s_congr w z : 0 <= w → ∃ k, (z + 2 ^ w) mod 2 ^ (w + 1) - 2 ^ w = z + k * 2 ^ (w + 1).
Proof.
  intros Hw. exists (- ((z + 2 ^ w) / 2 ^ (w + 1))).
  assert (0 < 2 ^ (w + 1)) by (apply Z.pow_pos_nonneg; lia).
  rewrite Z.mod_eq by lia. lia.
Qed.

Lemma lxor_ones a n : 0 <= n → 0 <= a < 2 ^ n → Z.lxor a (Z.ones n) = 2 ^ n - 1 - a.
Proof.
  intros Hn Ha.
  assert (Z.land a (Z.lxor a (Z.ones n)) = 0) as Hd.
  { apply Z.bits_inj'. intros i Hi. rewrite Z.land_spec, Z.lxor_spec, Z.bits_0.
    destruct (decide (i < n)).
    - rewrite Z.ones_spec_low by lia. by destruct (Z.testbit a i).
    - by rewrite (testbit_above a n i) by lia. }
  pose proof (Z.add_nocarry_lxor a _ Hd) as Hadd.
  rewrite <- Z.lxor_assoc, Z.lxor_nilpotent, Z.lxor_0_l in Hadd.
  rewrite Z.ones_equiv in *. lia.
Qed.

Section zigzag.
(** Both widths are instances of [w + 1] bits with [w] = 63 and 31. *)
Variable w : Z.
Hypothesis Hw : 0 < w.

Let wrap z := z mod 2 ^ (w + 1).
Let swrap z := (z + 2 ^ w) mod 2 ^ (w + 1) - 2 ^ w.

Local Lemma pow_w : 2 ^ (w + 1) = 2 * 2 ^ w ∧ 0 < 2 ^ w.
Proof. split; [rewrite Z.pow_add_r by lia; lia | apply Z.pow_pos_nonneg; lia]. Qed.

Lemma fold_signed z : - 2 ^ w <= z < 2 ^ w →
  wrap (Z.lxor (swrap (Z.shiftl z 1)) (Z.shiftr z w)) = zigzag z.
Proof.
  intros Hz. destruct pow_w as [Hpow Hpos]. unfold wrap, swrap, zigzag.
  rewrite Z.shiftl_mul_pow2, Z.shiftr_div_pow2 by lia.
  destruct (s_congr w (z * 2 ^ 1)) as [k Hk]; [lia|]. rewrite Hk.
  case_bool_decide as Hneg.
  - assert (z / 2 ^ w = -1) as ->. { symmetry. apply (Z.div_unique_pos _ _ _ (z + 2 ^ w)); lia. }
    rewrite Z.lxor_m1_r. unfold Z.lnot.
    symmetry. apply (Z.mod_unique_pos _ _ (- k)); lia.
  - rewrite (Z.div_small z) by lia. rewrite Z.lxor_0_r.
    symmetry. apply (Z.mod_unique_pos _ _ k); lia.
Qed.

Lemma unfold_signed u : 0 <= u < 2 ^ (w + 1) →
  swrap (Z.lxor (Z.shiftr u 1) (wrap (- Z.land u 1))) =
  if Z.even u then u / 2 else - (u / 2) - 1.
Proof.
  intros Hu. destruct pow_w as [Hpow Hpos]. unfold wrap, swrap.
  change (Z.land u 1) with (Z.land u (Z.ones 1)).
  rewrite Z.land_ones, Z.shiftr_div_pow2 by lia. change (2 ^ 1) with 2.
  pose proof (Z.div_mod u 2) as Hdm. rewrite Zmod_even in *.
  assert (0 <= u / 2 < 2 ^ w) by (split; [apply Z.div_pos|apply Z.div_lt_upper_bound]; lia).
  destruct (Z.even u).
  - rewrite Z.mod_0_l, Z.lxor_0_r, Z.mod_small by lia. lia.
  - assert ((- (1)) mod 2 ^ (w + 1) = Z.ones (w + 1)) as ->.
    { rewrite Z.ones_equiv. symmetry. apply (Z.mod_unique_pos _ _ (-1)); lia. }
    rewrite lxor_ones by lia.
    rewrite <- (Z.mod_unique_pos (2 ^ (w + 1) - 1 - u / 2 + 2 ^ w) (2 ^ (w + 1)) 1
                  (2 ^ w - 1 - u / 2)); lia.
Qed.
End zigzag.

Lemma zigzag_range w z : 0 <= w → - 2 ^ w <= z < 2 ^ w → 0 <= zigzag z < 2 ^ (w + 1).
Proof.
  intros Hw Hz. rewrite Z.pow_add_r by lia. unfold zigzag. case_bool_decide; lia.
Qed.

Lemma unzigzag_zigzag z :
  (if Z.even (zigzag z) then zigzag z / 2 else - (zigzag z / 2) - 1) = z.
Proof.
  unfold zigzag. case_bool_decide.
  - replace (-2 * z - 1) with (1 + 2 * (- z - 1)) by lia.
    rewrite Z.even_add_mul_2. change (Z.even 1) with false. cbv iota.
    rewrite (Z.mul_comm 2), Z.div_add by lia. change (1 / 2) with 0. lia.
  - rewrite Z.even_mul. change (Z.even 2) with true. cbn [orb].
    rewrite (Z.mul_comm 2), Z.div_mul; lia.
Qed.

Lemma zigzag64_zigzag z : is_s64 z → zigzag64 z = zigzag z.
Proof. apply (fold_signed 63). lia. Qed.
Lemma zigzag32_zigzag z : is_s32 z → zigzag32 z = zigzag z.
Proof. apply (fold_signed 31). lia. Qed.
Lemma zigzag_u64 z : is_s64 z → is_u64 (zigzag z).
Proof. apply (zigzag_range 63). lia. Qed.
Lemma zigzag_u32 z : is_s32 z → is_u32 (zigzag z).
Proof. apply (zigzag_range 31). lia. Qed.
Lemma is_u32_u64 z : is_u32 z → is_u64 z.
Proof. unfold is_u32, is_u64. lia. Qed.

Lemma unzigzag64_zigzag z : is_s64 z → unzigzag64 (zigzag z) = z.
Proof.
  intros Hz. unfold unzigzag64.
  etransitivity; [apply (unfold_signed 63); [lia|by apply zigzag_u64]|apply unzigzag_zigzag].
Qed.

Lemma unzigzag32_zigzag z : is_s32 z → unzigzag32 (zigzag z) = z.
Proof.
  intros Hz. unfold unzigzag32.
  etransitivity; [apply (unfold_signed 31); [lia|by apply zigzag_u32]|apply unzigzag_zigzag].
Qed.

(** ** The functions of src/mrpc_int.c *)

Section specs.
Context {S : Type} `{FFStreamSpec S}.
Implicit Types s : S.

Lemma uint64_serialize_eq z s : is_u64 z →
  mrpc_uint64_serialize z s = ff_stream_write (varint z) s.
Proof.
  intros Hz. unfold mrpc_uint64_serialize, mbind, M_bind, lift.
  rewrite uint64_octets_base128; [done| |].
  - vm_compute. lia.
  - unfold is_u64 in Hz. change (128 ^ Z.of_nat (Z.to_nat MAX_UINT64_OCTETS)) with (2 ^ 70). lia.
Qed.

Lemma int_serialize_eq t z s : int_in_range t z →
  int_serialize t z s = ff_stream_write (varint (int_image t z)) s.
Proof.
  destruct t; cbn [int_in_range int_image int_serialize]; intros Hz.
  - by apply uint64_serialize_eq, is_u32_u64.
  - unfold mrpc_int32_serialize. rewrite zigzag32_zigzag by done.
    by apply uint64_serialize_eq, is_u32_u64, zigzag_u32.
  - by apply uint64_serialize_eq.
  - unfold mrpc_int64_serialize. rewrite zigzag64_zigzag by done.
    by apply uint64_serialize_eq, zigzag_u64.
Qed.

Lemma int_serialize_spec t z s : int_in_range t z → stream_inv s → writable s →
  wp (int_serialize t z s) (λ '(r, s'), wrote (varint (int_image t z)) s r s').
Proof. intros Hz Hs Hw. rewrite int_serialize_eq by done. by apply ff_stream_write_spec. Qed.

Lemma uint64_unserialize_spec s : stream_inv s →
  wp (mrpc_uint64_unserialize s) (λ '(r, o, s'),
    match r with
    | FF_SUCCESS => ∃ bs, consumed bs s s' ∧ octets_complete bs = true ∧
        zlength bs <= MAX_UINT64_OCTETS ∧ o = Some (u64 (octets_value bs))
    | FF_FAILURE => undisturbed s s' ∧ o = None
    end).
Proof.
  intros Hs. eapply wp_mono; [apply (uint64_read_octets_spec _ 0 0)|]; try done.
  - vm_compute. lia.
  - intros [[[|] o] s'] Hres; [|done]. destruct Hres as (bs & ? & ? & ? & ->).
    exists bs. do 2 (split; [done|]). split.
    + change MAX_UINT64_OCTETS with 10. lia.
    + by rewrite Z.add_0_l, Z.pow_0_r, Z.mul_1_l.
Qed.

Lemma uint64_unserialize_varint `{!ReliableStream S} s z rest :
  is_u64 z → stream_inv s → incoming s = varint z ++ rest →
  wp (mrpc_uint64_unserialize s) (λ '(r, o, s'),
    r = FF_SUCCESS ∧ o = Some z ∧ consumed (varint z) s s' ∧ incoming s' = rest).
Proof.
  intros Hz Hs Hin. destruct (varint_spec z Hz) as (Hc & Hv & Hl).
  eapply wp_mono.
  - apply wp_and; [by apply uint64_unserialize_spec|].
    apply (uint64_read_octets_success _ 0 0 (varint z) rest s); try done; try lia.
    change (Datatypes.S (Z.to_nat MAX_UINT64_OCTETS)) with 11%nat.
    unfold zlength in Hl. lia.
  - intros [[r o] s'] [Hres ->]. destruct Hres as (bs & Hcons & Hcomp & _ & ->).
    assert (bs ++ incoming s' = varint z ++ rest) as Heq
      by (rewrite <- Hin; symmetry; apply Hcons).
    apply octets_complete_prefix_free in Heq as [-> ->]; [|done..].
    rewrite Hv, u64_id by done. done.
Qed.

(** The value of the unsigned function decides the result of the others. *)
Lemma int_unserialize_spec t s : stream_inv s →
  wp (int_unserialize t s) (λ '(r, o, s'),
    match r with
    | FF_SUCCESS => (∃ bs, consumed bs s s') ∧ ∃ z, o = Some z ∧ int_in_range t z
    | FF_FAILURE => undisturbed s s' ∧ o = None
    end).
Proof.
  intros Hs. destruct t; cbn [int_unserialize];
    unfold mrpc_int32_unserialize, mrpc_uint32_unserialize, mrpc_int64_unserialize;
    rewrite ?wp_M_bind;
    (eapply wp_mono; [by apply uint64_unserialize_spec|]);
    intros [[[|] o] s'] Hres; cbn [fst snd]; try (by destruct Hres as [? ->]);
    destruct Hres as (bs & Hc & _ & _ & ->); try case_bool_decide;
    cbn [wp fst snd mret M_ret]; try (split; [|done]; eauto with mrpc);
    (split; [by exists bs|]); eexists; (split; [done|]); cbn [int_in_range];
    first [apply u32_range | apply u64_range | apply s32_range | apply s64_range].
Qed.

Lemma int_unserialize_bytes `{!ReliableStream S} t s z rest :
  int_in_range t z → stream_inv s → incoming s = varint (int_image t z) ++ rest →
  wp (int_unserialize t s) (λ '(r, o, s'),
    r = FF_SUCCESS ∧ o = Some z ∧ consumed (varint (int_image t z)) s s' ∧ incoming s' = rest).
Proof.
  intros Hz Hs Hin.
  assert (is_u64 (int_image t z)) as Hu.
  { destruct t; simpl in *; auto using is_u32_u64, zigzag_u32, zigzag_u64. }
  destruct t; cbn [int_unserialize int_image int_in_range] in *;
    unfold mrpc_int32_unserialize, mrpc_uint32_unserialize, mrpc_int64_unserialize;
    rewrite ?wp_M_bind;
    (eapply wp_mono; [by apply uint64_unserialize_varint|]);
    intros [[r o] s'] (-> & -> & Hc & Hr); cbn [fst snd]; try done.
  - rewrite bool_decide_eq_true_2 by (unfold is_u32 in Hz; change MAX_UINT32_VALUE with (2 ^ 32 - 1); lia).
    simpl. by rewrite u32_id.
  - pose proof (zigzag_u32 z Hz) as Hzz.
    rewrite bool_decide_eq_true_2 by (unfold is_u32 in Hzz; change MAX_UINT32_VALUE with (2 ^ 32 - 1); lia).
    simpl. rewrite u32_id by done.
    by rewrite unzigzag32_zigzag.
  - simpl. by rewrite unzigzag64_zigzag.
Qed.
End specs.

(** Lengths and characters travel as [uint32_t]. *)
Section uint32.
Context {S : Type} `{FFStreamSpec S}.
Implicit Types s : S.

Lemma uint32_sends z s : is_u32 z → stream_inv s → writable s →
  wp (mrpc_uint32_serialize z s) (λ '(r, s'),
    wrote (varint z) s r s' ∧ (ReliableStream S → r = FF_SUCCESS)).
Proof.
  intros Hz Hs Hw. change (mrpc_uint32_serialize z s) with (int_serialize TUint32 z s).
  rewrite int_serialize_eq by done. by apply write_sends.
Qed.

Lemma uint32_receives s : stream_inv s →
  wp (mrpc_uint32_unserialize s) (λ '(r, o, s'),
    match r with
    | FF_SUCCESS => (∃ bs, consumed bs s s') ∧ ∃ z, o = Some z ∧ is_u32 z
    | FF_FAILURE => undisturbed s s' ∧ o = None
    end).
Proof. intros Hs. by apply (int_unserialize_spec TUint32). Qed.

Lemma uint32_receives_bytes `{!ReliableStream S} z s rest :
  is_u32 z → stream_inv s → incoming s = varint z ++ rest →
  wp (mrpc_uint32_unserialize s) (λ '(r, o, s'),
    r = FF_SUCCESS ∧ o = Some z ∧ consumed (varint z) s s' ∧ incoming s' = rest).
Proof. intros Hz Hs Hin. by apply (int_unserialize_bytes TUint32). Qed.

(** A number below 2^14 takes at most two octets. *)
Lemma varint_short z : 0 <= z < 2 ^ 14 → 1 <= zlength (varint z) <= 2.
Proof.
  intros Hz. destruct (varint_spec z) as (_ & _ & Hl); [unfold is_u64; lia|].
  assert (length (varint z) <= 2)%nat; [|unfold zlength in *; lia].
  apply base128_length_le; [lia|lia|]. change (128 ^ Z.of_nat 2) with (2 ^ 14). lia.
Qed.
End uint32.

#[export] Instance mrpc_int_wire_spec t : WireSpec (mrpc_int t).
Proof.
  split; [intros ? _; apply varint_nonempty|..]; intros S ? ? ?; [intros [z] s|intros ? [z] s|intros s|intros ? [z] s rest]; simpl.
  - intros Hz Hs Hw. by apply int_serialize_spec.
  - intros Hz Hs Hw. rewrite int_serialize_eq by done. by apply reliable_write.
  - intros Hs. rewrite wp_M_bind. eapply wp_mono; [by apply int_unserialize_spec|].
    intros [[[|] o] s']; cbn; [|by intros [? ->]].
    intros (Hc & z & -> & Hz). split; [done|]. by exists (MrpcInt z).
  - intros Hz Hs Hin. rewrite wp_M_bind.
    eapply wp_mono; [by apply int_unserialize_bytes|].
    by intros [[r o] s'] (-> & -> & Hc & Hr).
Qed.

(** ** Properties *)

(** C30.  Integers of all four types survive the wire: serialization into a
    transport which does not fail succeeds, and whoever finds the bytes it sent
    at the front of a stream unserializes the same value and consumes exactly
    these bytes. *)
Theorem int_roundtrip {W R : Type} `{FFStreamSpec W} `{!ReliableStream W}
    `{FFStreamSpec R} `{!ReliableStream R} (t : int_type) (z : Z) (w : W) :
  int_in_range t z → stream_inv w → writable w →
  wp (int_serialize t z w) (λ '(res, w'),
    res = FF_SUCCESS ∧ ∃ sent, outgoing w' = outgoing w ++ sent ∧
    ∀ (r : R) rest, stream_inv r → incoming r = sent ++ rest →
      wp (int_unserialize t r) (λ '(res, o, r'),
        res = FF_SUCCESS ∧ o = Some z ∧ incoming r' = rest)).
Proof.
  intros Hz Hw Hwr. rewrite int_serialize_eq by done.
  eapply wp_mono; [apply wp_and; [by apply ff_stream_write_spec|by apply reliable_write]|].
  intros [res w'] [(_ & _ & _ & Hout) ->]. split; [done|].
  eexists; split; [exact Hout|]. intros r rest Hr Hin.
  eapply wp_mono; [by apply int_unserialize_bytes|].
  by intros [[? ?] ?] (? & ? & ? & ?).
Qed.

Lemma int_roundtrip_witness :
  wp (int_serialize TInt32 (-3432) (MemStream [] [])) (λ '(res, w'),
    res = FF_SUCCESS ∧ ∃ sent, outgoing w' = outgoing (MemStream [] []) ++ sent ∧
    ∀ (r : mem_stream) rest, stream_inv r → incoming r = sent ++ rest →
      wp (int_unserialize TInt32 r) (λ '(res, o, r'),
        res = FF_SUCCESS ∧ o = Some (-3432) ∧ incoming r' = rest)).
Proof.
  apply (int_roundtrip TInt32 (-3432) (MemStream [] []));
    [vm_compute; split; congruence | exact I | exact I].
Defined.

(** The number of octets of a 64-bit value: at most [k] octets are written
    exactly when the value is below 2^(7k), for every k up to the ten octets of
    the buffer, and the loop never overruns the buffer. *)
Lemma uint64_serialize_size {S : Type} `{FFStreamSpec S} (z : Z) (k : Z) (s : S) :
  is_u64 z → 1 <= k <= MAX_UINT64_OCTETS → stream_inv s → writable s →
  wp (mrpc_uint64_serialize z s) (λ '(r, s'),
    r = FF_SUCCESS → ∃ sent, outgoing s' = outgoing s ++ sent ∧
      1 <= zlength sent ∧ (zlength sent <= k ↔ z < 2 ^ (7 * k))).
Proof.
  intros Hz Hk Hs Hw. change MAX_UINT64_OCTETS with 10 in Hk.
  rewrite uint64_serialize_eq by done.
  eapply wp_mono; [by apply ff_stream_write_spec|].
  intros [r s'] (_ & _ & _ & Hout) ->. exists (varint z). split; [done|].
  split; [by apply varint_spec|].
  pose proof (base128_length_le 10 (Z.to_nat k) z) as Hl.
  rewrite Z2Nat.id in Hl by lia.
  rewrite Z.pow_mul_r by lia. change (2 ^ 7) with 128.
  rewrite <- Hl; [unfold zlength, varint; lia|lia|].
  unfold is_u64 in Hz. change (128 ^ Z.of_nat 10) with (2 ^ 70). lia.
Qed.

Lemma uint64_serialize_size_witness :
  wp (mrpc_uint64_serialize 16383 (MemStream [] [])) (λ '(r, s'),
    r = FF_SUCCESS → ∃ sent, outgoing s' = outgoing (MemStream [] []) ++ sent ∧
      1 <= zlength sent ∧ (zlength sent <= 2 ↔ 16383 < 2 ^ (7 * 2))).
Proof.
  apply (uint64_serialize_size 16383 2 (MemStream [] []));
    [vm_compute; split; congruence | vm_compute; split; congruence | exact I | exact I].
Defined.

(** Unserialization of an unsigned 64-bit value is total on arbitrary
    input: whatever the peer sends, the loop ends without a fault; a success
    took a complete group of at most ten octets and returns their base-128
    value modulo 2^64; a failure leaves the output parameter unassigned. *)
Lemma uint64_unserialize_total {S : Type} `{FFStreamSpec S} (s : S) :
  stream_inv s →
  wp (mrpc_uint64_unserialize s) (λ '(r, o, s'),
    match r with
    | FF_SUCCESS => ∃ bs, incoming s = bs ++ incoming s' ∧ octets_complete bs = true ∧
        zlength bs <= MAX_UINT64_OCTETS ∧ o = Some (octets_value bs mod 2 ^ 64)
    | FF_FAILURE => o = None
    end).
Proof.
  intros Hs. eapply wp_mono; [by apply uint64_unserialize_spec|].
  intros [[[|] o] s']; [|by intros [_ ->]]. intros (bs & [_ Hin] & Hres). by exists bs.
Qed.

Lemma uint64_unserialize_total_witness :
  wp (mrpc_uint64_unserialize (MemStream [xac; x02; x07] [])) (λ '(r, o, s'),
    match r with
    | FF_SUCCESS => ∃ bs, incoming (MemStream [xac; x02; x07] []) = bs ++ incoming s' ∧
        octets_complete bs = true ∧
        zlength bs <= MAX_UINT64_OCTETS ∧ o = Some (octets_value bs mod 2 ^ 64)
    | FF_FAILURE => o = None
    end).
Proof. apply (uint64_unserialize_total (MemStream [xac; x02; x07] [])). exact I. Defined.

(** A 32-bit field which carries a value above 2^32 - 1 is rejected, for
    both 32-bit types, and the octets of the value are consumed. *)
Lemma int32_unserialize_rejects_wide {S : Type} `{FFStreamSpec S} `{!ReliableStream S}
    (t : int_type) (z : Z) rest (s : S) :
  t = TUint32 ∨ t = TInt32 →
  is_u64 z → 2 ^ 32 <= z → stream_inv s → incoming s = varint z ++ rest →
  wp (int_unserialize t s) (λ '(r, o, s'), r = FF_FAILURE ∧ o = None ∧ incoming s' = rest).
Proof.
  intros Ht Hz Hwide Hs Hin.
  destruct Ht as [-> | ->]; cbn [int_unserialize];
    unfold mrpc_int32_unserialize, mrpc_uint32_unserialize; rewrite ?wp_M_bind;
    (eapply wp_mono; [by apply uint64_unserialize_varint|]);
    intros [[r o] s'] (-> & -> & _ & Hr); cbn [fst snd];
    rewrite bool_decide_eq_false_2 by (change MAX_UINT32_VALUE with (2 ^ 32 - 1); lia);
    done.
Qed.

Lemma int32_unserialize_rejects_wide_witness :
  wp (int_unserialize TInt32 (MemStream (varint (2 ^ 32) ++ [x01]) []))
    (λ '(r, o, s'), r = FF_FAILURE ∧ o = None ∧ incoming s' = [x01]).
Proof.
  apply (int32_unserialize_rejects_wide TInt32 (2 ^ 32) [x01]);
    [right; reflexivity | vm_compute; split; congruence | lia | exact I | reflexivity].
Defined.
