(* ===== verification/Bitmap.v ===== *)
(** * The bitmap of identifiers (src/mrpc_bitmap.c)

    Request ids of the client stream processor and ids of the server's stream
    processors are allocated from a bitmap.  Clients of the bitmap see only the
    interface [IdAllocator]: a set of identifiers in use. *)

From stdpp Require Import gmap.
From S2P Require Import Prelude.

Definition GET_BIT_U64 (u64_word bit_num : Z) : Z := Z.land (Z.shiftr u64_word bit_num) 1.
Definition SET_BIT_U64 (u64_word bit_num : Z) : Z := Z.lor u64_word (u64 (Z.shiftl 1 bit_num)).
Definition CLEAR_BIT_U64 (u64_word bit_num : Z) : Z :=
  Z.land u64_word (u64 (Z.lnot (u64 (Z.shiftl 1 bit_num)))).
Definition U64_ARRAY_INDEX (bit_num : Z) : Z := Z.shiftr bit_num 6.
Definition U64_BIT_NUM (bit_num : Z) : Z := Z.land bit_num 63.

Definition GET_BIT (u64_array : list Z) (bit_num : Z) : outcome Z :=
  word ← arr_get u64_array (U64_ARRAY_INDEX bit_num);
  Ret (GET_BIT_U64 word (U64_BIT_NUM bit_num)).

Definition SET_BIT (u64_array : list Z) (bit_num : Z) : outcome (list Z) :=
  word ← arr_get u64_array (U64_ARRAY_INDEX bit_num);
  arr_set u64_array (U64_ARRAY_INDEX bit_num) (SET_BIT_U64 word (U64_BIT_NUM bit_num)).

Definition CLEAR_BIT (u64_array : list Z) (bit_num : Z) : outcome (list Z) :=
  word ← arr_get u64_array (U64_ARRAY_INDEX bit_num);
  arr_set u64_array (U64_ARRAY_INDEX bit_num) (CLEAR_BIT_U64 word (U64_BIT_NUM bit_num)).

Definition GET_U64_ARRAY_SIZE (bits_size : Z) : Z := Z.shiftr (bits_size + 63) 6.

(** [struct mrpc_bitmap] *)
Record mrpc_bitmap := MrpcBitmap {
  bm_map : list Z;
  bm_size : Z;
  bm_last_free_bit : Z;
}.

Definition mrpc_bitmap_create (size : Z) : outcome mrpc_bitmap :=
  ff_assert (bool_decide (size > 0));;
  let map_size := GET_U64_ARRAY_SIZE size in
  Ret (MrpcBitmap (replicate (Z.to_nat map_size) 0) size 0).

(** The for loop of [mrpc_bitmap_acquire_bit]: [rounds] is [bitmap_size - i]; the
    result is [None] when [i] reaches [bitmap_size]. *)
Fixpoint acquire_bit_loop (rounds : nat) (bitmap : mrpc_bitmap) (n : Z) :
    outcome (option (Z * mrpc_bitmap)) :=
  match rounds with
  | O => Ret None
  | S rounds =>
      bit ← GET_BIT (bm_map bitmap) n;
      if bool_decide (bit = 0) then
        new_map ← SET_BIT (bm_map bitmap) n;
        Ret (Some (n, MrpcBitmap new_map (bm_size bitmap) n))
      else
        let n := n + 1 in
        let n := if bool_decide (n = bm_size bitmap) then 0 else n in
        acquire_bit_loop rounds bitmap n
  end.

Definition mrpc_bitmap_acquire_bit (bitmap : mrpc_bitmap) : outcome (Z * mrpc_bitmap) :=
  ff_assert (bool_decide (bm_size bitmap > 0));;
  ff_assert (bool_decide (bm_last_free_bit bitmap < bm_size bitmap));;
  found ← acquire_bit_loop (Z.to_nat (bm_size bitmap)) bitmap (bm_last_free_bit bitmap);
  match found with
  | Some (n, bitmap) => Ret (n, bitmap)
  | None => Ret (-1, bitmap)
  end.

Definition mrpc_bitmap_release_bit (bitmap : mrpc_bitmap) (n : Z) : outcome mrpc_bitmap :=
  ff_assert (bool_decide (bm_size bitmap > 0));;
  ff_assert (bool_decide (n < bm_size bitmap));;
  bit ← GET_BIT (bm_map bitmap) n;
  ff_assert (bool_decide (bit = 1));;
  new_map ← CLEAR_BIT (bm_map bitmap) n;
  Ret (MrpcBitmap new_map (bm_size bitmap) (bm_last_free_bit bitmap)).

(** ** The interface offered to the components which allocate identifiers *)

Class IdAllocator (B : Type) := {
  alloc_create : Z → outcome B;
  alloc_acquire : B → outcome (Z * B);
  alloc_release : B → Z → outcome B;
  (** [alloc_view b limit used]: the allocator hands out identifiers below
      [limit], and those in [used] are taken. *)
  alloc_view : B → Z → gset Z → Prop;
}.

Class IdAllocatorSpec (B : Type) `{IdAllocator B} : Prop := {
  alloc_view_range b limit used i : alloc_view b limit used → i ∈ used → 0 <= i < limit;
  alloc_create_spec limit : 0 < limit →
    wp (alloc_create limit) (λ b, alloc_view b limit ∅);
  alloc_acquire_spec b limit used : alloc_view b limit used →
    wp (alloc_acquire b) (λ '(i, b'),
      (i = -1 ∧ b' = b ∧ ∀ j, 0 <= j < limit → j ∈ used) ∨
      (0 <= i < limit ∧ (i ∉ used) ∧ alloc_view b' limit ({[i]} ∪ used)));
  alloc_release_spec b limit used i : alloc_view b limit used → i ∈ used →
    wp (alloc_release b i) (λ b', alloc_view b' limit (used ∖ {[i]}))
}.

(** A client which acquires identifiers and gives back some of those it holds
    ([Release k] gives back the k-th one); it records a refusal as no change. *)
Inductive alloc_op := Acquire | Release (k : nat).

Definition alloc_step {B} `{IdAllocator B} (op : alloc_op) (st : B * list Z) :
    outcome (B * list Z) :=
  match op with
  | Acquire =>
      r ← alloc_acquire (st.1);
      Ret (if bool_decide (r.1 = -1) then (r.2, st.2) else (r.2, r.1 :: st.2))
  | Release k =>
      match st.2 !! k with
      | None => Ret st
      | Some i => b ← alloc_release (st.1) i; Ret (b, delete k (st.2))
      end
  end.

Fixpoint alloc_run {B} `{IdAllocator B} (ops : list alloc_op) (st : B * list Z) :
    outcome (B * list Z) :=
  match ops with
  | [] => Ret st
  | op :: ops => st ← alloc_step op st; alloc_run ops st
  end.

(** A bit of the map, and the order in which the search visits the bits. *)
Definition bit_is_set (map : list Z) (n : Z) : bool :=
  match map !! Z.to_nat (n / 64) with Some word => Z.testbit word (n mod 64) | None => false end.

Definition search_order (start size i : Z) : Z := (start + i) mod size.

Record bitmap_inv (b : mrpc_bitmap) (limit : Z) (used : gset Z) : Prop := {
  inv_size : bm_size b = limit ∧ 0 < limit;
  inv_map : zlength (bm_map b) = GET_U64_ARRAY_SIZE limit;
  inv_words : Forall is_u64 (bm_map b);
  inv_last : 0 <= bm_last_free_bit b < limit;
  inv_bits n : 0 <= n < limit → bit_is_set (bm_map b) n = bool_decide (n ∈ used);
  inv_used n : n ∈ used → 0 <= n < limit
}.

#[export] Instance bitmap_allocator : IdAllocator mrpc_bitmap := {
  alloc_create := mrpc_bitmap_create;
  alloc_acquire := mrpc_bitmap_acquire_bit;
  alloc_release := mrpc_bitmap_release_bit;
  alloc_view := bitmap_inv
}.

(** ** Words and bits *)

Lemma array_index n : U64_ARRAY_INDEX n = n / 64.
Proof. unfold U64_ARRAY_INDEX. by rewrite Z.shiftr_div_pow2. Qed.

Lemma bit_num n : U64_BIT_NUM n = n mod 64.
Proof. unfold U64_BIT_NUM. change 63 with (Z.ones 6). by rewrite Z.land_ones. Qed.

Lemma array_size n : GET_U64_ARRAY_SIZE n = (n + 63) / 64.
Proof. unfold GET_U64_ARRAY_SIZE. by rewrite Z.shiftr_div_pow2. Qed.

Lemma get_bit_testbit w i : 0 <= i → GET_BIT_U64 w i = Z.b2z (Z.testbit w i).
Proof.
  intros Hi. unfold GET_BIT_U64. change 1 with (Z.ones 1).
  rewrite Z.land_ones, Z.testbit_spec' by lia.
  by rewrite Z.shiftr_div_pow2.
Qed.

Lemma one_shift i : 0 <= i < 64 → u64 (Z.shiftl 1 i) = 2 ^ i.
Proof.
  intros Hi. rewrite Z.shiftl_mul_pow2, Z.mul_1_l by lia. apply u64_id.
  split; [apply Z.pow_nonneg; lia | apply Z.pow_lt_mono_r; lia].
Qed.

Lemma u64_testbit z j : 0 <= j → Z.testbit (u64 z) j = bool_decide (j < 64) && Z.testbit z j.
Proof.
  intros Hj. unfold u64. case_bool_decide.
  - by rewrite Z.mod_pow2_bits_low.
  - by rewrite Z.mod_pow2_bits_high by lia.
Qed.

Lemma is_u64_testbit z : 0 <= z → (∀ j, 64 <= j → Z.testbit z j = false) → is_u64 z.
Proof.
  intros Hz Hbits. split; [done|]. destruct (decide (z = 0)) as [->|]; [lia|].
  apply Z.log2_lt_pow2; [lia|]. apply Z.lt_nge. intros Hge.
  specialize (Hbits (Z.log2 z) Hge). rewrite Z.bit_log2 in Hbits by lia. done.
Qed.

Lemma is_u64_high z j : is_u64 z → 64 <= j → Z.testbit z j = false.
Proof.
  intros Hz Hj. rewrite <- (u64_id z) by done. rewrite u64_testbit by lia.
  by rewrite bool_decide_eq_false_2 by lia.
Qed.

Lemma set_bit_testbit w i j : 0 <= i < 64 → 0 <= j →
  Z.testbit (SET_BIT_U64 w i) j = bool_decide (i = j) || Z.testbit w j.
Proof.
  intros Hi Hj. unfold SET_BIT_U64.
  rewrite one_shift, Z.lor_spec, Z.pow2_bits_eqb by lia.
  rewrite orb_comm. f_equal. by destruct (Z.eqb_spec i j); case_bool_decide.
Qed.

Lemma clear_bit_testbit w i j : 0 <= i < 64 → 0 <= j → is_u64 w →
  Z.testbit (CLEAR_BIT_U64 w i) j = bool_decide (i ≠ j) && Z.testbit w j.
Proof.
  intros Hi Hj Hw. unfold CLEAR_BIT_U64.
  rewrite one_shift, Z.land_spec, u64_testbit, Z.lnot_spec, Z.pow2_bits_eqb by lia.
  destruct (Z.eqb_spec i j) as [->|Hne].
  - rewrite (bool_decide_eq_false_2 (j ≠ j)) by tauto. simpl. by rewrite !andb_false_r.
  - rewrite (bool_decide_eq_true_2 (i ≠ j)) by done. simpl.
    case_bool_decide; [by rewrite andb_true_r|].
    by rewrite (is_u64_high w j) by (done || lia).
Qed.

Lemma set_bit_u64 w i : is_u64 w → 0 <= i < 64 → is_u64 (SET_BIT_U64 w i).
Proof.
  intros Hw Hi. apply is_u64_testbit.
  - unfold SET_BIT_U64. rewrite one_shift by done. apply Z.lor_nonneg.
    split; [apply Hw | apply Z.pow_nonneg; lia].
  - intros j Hj. rewrite set_bit_testbit, (is_u64_high w) by (done || lia).
    by rewrite bool_decide_eq_false_2 by lia.
Qed.

Lemma clear_bit_u64 w i : is_u64 w → 0 <= i < 64 → is_u64 (CLEAR_BIT_U64 w i).
Proof.
  intros Hw Hi. apply is_u64_testbit.
  - unfold CLEAR_BIT_U64. apply Z.land_nonneg. left. apply Hw.
  - intros j Hj. rewrite clear_bit_testbit, (is_u64_high w) by (done || lia).
    apply andb_false_r.
Qed.

(** ** Bits of the map *)

Lemma index_in_map limit n (m : list Z) :
  zlength m = GET_U64_ARRAY_SIZE limit → 0 <= n < limit → 0 <= n / 64 < zlength m.
Proof.
  rewrite array_size. intros -> Hn.
  split; [apply Z.div_pos; lia|].
  apply Z.div_lt_upper_bound; [lia|].
  pose proof (Z.div_mod (limit + 63) 64). pose proof (Z.mod_pos_bound (limit + 63) 64). lia.
Qed.

Section map_bits.
Variables (m : list Z) (limit : Z).
Hypothesis Hlen : zlength m = GET_U64_ARRAY_SIZE limit.
Hypothesis Hwords : Forall is_u64 m.

(** Every bit below the limit is in a word of the array. *)
Lemma word_of_bit n : 0 <= n < limit →
  ∃ w, m !! Z.to_nat (n / 64) = Some w ∧ is_u64 w ∧
    bit_is_set m n = Z.testbit w (n mod 64) ∧ arr_get m (U64_ARRAY_INDEX n) = Ret w.
Proof.
  intros Hn. pose proof (index_in_map limit n m Hlen Hn) as Hi.
  destruct (lookup_lt_is_Some_2 m (Z.to_nat (n / 64))) as [w Hw].
  { unfold zlength in Hi. lia. }
  exists w. split; [done|]. split; [by eapply Forall_lookup_1 in Hwords|].
  unfold bit_is_set, arr_get. rewrite Hw, array_index, Hw.
  by rewrite bool_decide_eq_true_2 by lia.
Qed.

Lemma GET_BIT_eq n : 0 <= n < limit → GET_BIT m n = Ret (Z.b2z (bit_is_set m n)).
Proof.
  intros Hn. destruct (word_of_bit n Hn) as (w & Hw & _ & Hb & Hg).
  unfold GET_BIT. rewrite Hg. cbn. rewrite bit_num, get_bit_testbit, Hb; [done|].
  apply Z.mod_pos_bound. lia.
Qed.

(** Storing a changed word changes the bits of that word only. *)
Lemma store_word n w' j :
  0 <= n < limit → 0 <= j →
  bit_is_set (<[Z.to_nat (n / 64) := w']> m) j =
  if decide (j / 64 = n / 64) then Z.testbit w' (j mod 64) else bit_is_set m j.
Proof.
  intros Hn Hj. pose proof (index_in_map limit n m Hlen Hn) as Hi.
  assert (0 <= j / 64) by (apply Z.div_pos; lia).
  unfold bit_is_set. destruct (decide (j / 64 = n / 64)) as [->|Hne].
  - rewrite list_lookup_insert_eq; [done|]. unfold zlength in Hi. lia.
  - rewrite list_lookup_insert_ne; [done|]. lia.
Qed.

Lemma store_bits (f : Z → Z → Z) (op : bool → bool) n w :
  (∀ i k, 0 <= i < 64 → 0 <= k →
     Z.testbit (f w i) k = if bool_decide (i = k) then op (Z.testbit w k) else Z.testbit w k) →
  0 <= n < limit → m !! Z.to_nat (n / 64) = Some w →
  ∀ j, 0 <= j →
    bit_is_set (<[Z.to_nat (n / 64) := f w (n mod 64)]> m) j =
    if bool_decide (n = j) then op (bit_is_set m j) else bit_is_set m j.
Proof.
  intros Hf Hn Hw j Hj. rewrite store_word by done.
  pose proof (Z.mod_pos_bound n 64). pose proof (Z.mod_pos_bound j 64).
  pose proof (Z.div_mod n 64). pose proof (Z.div_mod j 64).
  destruct (decide (j / 64 = n / 64)) as [Heq|Hne].
  - rewrite Hf by lia. unfold bit_is_set. rewrite Heq, Hw.
    rewrite (bool_decide_ext (n mod 64 = j mod 64) (n = j)) by lia. done.
  - rewrite (bool_decide_eq_false_2 (n = j)); [done|]. intros ->. done.
Qed.

Lemma SET_BIT_spec n : 0 <= n < limit →
  wp (SET_BIT m n) (λ m', zlength m' = zlength m ∧ Forall is_u64 m' ∧
    ∀ j, 0 <= j → bit_is_set m' j = bool_decide (n = j) || bit_is_set m j).
Proof.
  intros Hn. pose proof (index_in_map limit n m Hlen Hn) as Hi.
  destruct (word_of_bit n Hn) as (w & Hw & Hu & Hb & Hg).
  pose proof (Z.mod_pos_bound n 64) as Hmod.
  unfold SET_BIT. rewrite Hg. cbn [mbind outcome_bind].
  rewrite array_index, bit_num. apply wp_arr_set; [done|].
  split; [zlen|]. split; [apply Forall_insert; [done|apply set_bit_u64; [done|lia]]|].
  intros j Hj. rewrite (store_bits SET_BIT_U64 (λ _, true) n w) by
    (done || (intros; rewrite set_bit_testbit by done; by case_bool_decide)).
  by case_bool_decide.
Qed.

Lemma CLEAR_BIT_spec n : 0 <= n < limit →
  wp (CLEAR_BIT m n) (λ m', zlength m' = zlength m ∧ Forall is_u64 m' ∧
    ∀ j, 0 <= j → bit_is_set m' j = bool_decide (n ≠ j) && bit_is_set m j).
Proof.
  intros Hn. pose proof (index_in_map limit n m Hlen Hn) as Hi.
  destruct (word_of_bit n Hn) as (w & Hw & Hu & Hb & Hg).
  pose proof (Z.mod_pos_bound n 64) as Hmod.
  unfold CLEAR_BIT. rewrite Hg. cbn [mbind outcome_bind].
  rewrite array_index, bit_num. apply wp_arr_set; [done|].
  split; [zlen|]. split; [apply Forall_insert; [done|apply clear_bit_u64; [done|lia]]|].
  intros j Hj. rewrite (store_bits CLEAR_BIT_U64 (λ _, false) n w) by
    (done || (intros i k ? ?; rewrite clear_bit_testbit by done;
              by repeat case_bool_decide)).
  by repeat case_bool_decide.
Qed.
End map_bits.

(** ** The operations *)

Lemma bit_of_inv b limit used n : bitmap_inv b limit used → 0 <= n < limit →
  GET_BIT (bm_map b) n = Ret (Z.b2z (bool_decide (n ∈ used))).
Proof.
  intros Hinv Hn. rewrite <- (inv_bits _ _ _ Hinv n Hn).
  by apply (GET_BIT_eq _ limit); [apply Hinv|apply Hinv|].
Qed.

Lemma next_in_order start limit i : 0 <= start < limit → 0 <= i →
  (if bool_decide (search_order start limit i + 1 = limit) then 0
   else search_order start limit i + 1) = search_order start limit (i + 1).
Proof.
  intros Hs Hi. unfold search_order. rewrite Z.add_assoc.
  pose proof (Z.mod_pos_bound (start + i) limit).
  pose proof (Z.div_mod (start + i) limit).
  case_bool_decide.
  - apply (Z.mod_unique_pos _ _ ((start + i) / limit + 1)); lia.
  - apply (Z.mod_unique_pos _ _ ((start + i) / limit)); lia.
Qed.

Lemma search_order_range start limit i : 0 < limit → 0 <= search_order start limit i < limit.
Proof. intros. by apply Z.mod_pos_bound. Qed.

(** The search visits the bits in circular order and takes the first free one. *)
Lemma acquire_bit_loop_spec b limit used start rounds i :
  bitmap_inv b limit used → 0 <= start < limit → 0 <= i → i + Z.of_nat rounds = limit →
  (∀ j, 0 <= j < i → search_order start limit j ∈ used) →
  wp (acquire_bit_loop rounds b (search_order start limit i)) (λ found,
    match found with
    | None => ∀ j, 0 <= j < limit → search_order start limit j ∈ used
    | Some (n, b') => ∃ k, i <= k < limit ∧ n = search_order start limit k ∧ (n ∉ used) ∧
        (∀ j, 0 <= j < k → search_order start limit j ∈ used) ∧
        bitmap_inv b' limit ({[n]} ∪ used) ∧ bm_last_free_bit b' = n
    end).
Proof.
  intros Hinv Hstart. revert i. induction rounds as [|rounds IH]; intros i Hi Hsum Hprev.
  { cbn. intros j Hj. apply Hprev. lia. }
  cbn [acquire_bit_loop]. pose proof (inv_size _ _ _ Hinv) as [Hsz Hpos].
  pose proof (search_order_range start limit i Hpos) as Hn.
  set (n := search_order start limit i) in *.
  rewrite (bit_of_inv b limit used n Hinv Hn). cbn [mbind outcome_bind].
  destruct (decide (n ∈ used)) as [Hin|Hnot].
  - rewrite (bool_decide_eq_true_2 _ Hin). cbn [Z.b2z].
    rewrite (bool_decide_eq_false_2 (1 = 0)) by lia.
    rewrite Hsz. unfold n. rewrite next_in_order by done.
    eapply wp_mono; [apply IH; [lia|lia|]|].
    + intros j Hj. destruct (decide (j = i)) as [->|]; [done|]. apply Hprev. lia.
    + intros [[n' b']|]; [|done]. intros (k & Hk & Hrest). exists k. split; [lia|done].
  - rewrite (bool_decide_eq_false_2 _ Hnot). cbn [Z.b2z].
    rewrite (bool_decide_eq_true_2 (0 = 0)) by done. rewrite wp_bind.
    eapply wp_mono; [apply (SET_BIT_spec _ limit); [apply Hinv|apply Hinv|done]|].
    intros m' (Hlen & Hw & Hbits). cbn. exists i. do 4 (split; [done || lia|]).
    split; [|done]. split; cbn; try done.
    + by rewrite Hlen, (inv_map _ _ _ Hinv).
    + intros j Hj. rewrite Hbits, (inv_bits _ _ _ Hinv) by lia.
      repeat case_bool_decide; set_solver.
    + intros j Hj. apply elem_of_union in Hj as [->%elem_of_singleton|Hj]; [done|].
      by apply (inv_used _ _ _ Hinv) in Hj.
Qed.

Lemma order_covers start limit n : 0 <= start < limit → 0 <= n < limit →
  ∃ j, 0 <= j < limit ∧ search_order start limit j = n.
Proof.
  intros Hs Hn. unfold search_order. exists ((n - start) mod limit).
  split; [apply Z.mod_pos_bound; lia|].
  rewrite Z.add_mod_idemp_r by lia. replace (start + (n - start)) with n by lia.
  by apply Z.mod_small.
Qed.

Lemma acquire_bit_spec b limit used : bitmap_inv b limit used →
  wp (mrpc_bitmap_acquire_bit b) (λ '(n, b'),
    (n = -1 ∧ b' = b ∧ ∀ j, 0 <= j < limit → j ∈ used) ∨
    (∃ k, 0 <= k < limit ∧ n = search_order (bm_last_free_bit b) limit k ∧ (n ∉ used) ∧
      (∀ j, 0 <= j < k → search_order (bm_last_free_bit b) limit j ∈ used) ∧
      bitmap_inv b' limit ({[n]} ∪ used) ∧ bm_last_free_bit b' = n)).
Proof.
  intros Hinv. pose proof (inv_size _ _ _ Hinv) as [Hsz Hpos].
  pose proof (inv_last _ _ _ Hinv) as Hlast.
  unfold mrpc_bitmap_acquire_bit. do 2 wp_step. rewrite wp_bind.
  replace (bm_last_free_bit b) with (search_order (bm_last_free_bit b) limit 0) at 1.
  2:{ unfold search_order. rewrite Z.add_0_r. by apply Z.mod_small. }
  eapply wp_mono.
  - apply (acquire_bit_loop_spec b limit used _ (Z.to_nat (bm_size b)) 0);
      [done|done|lia|lia|intros; lia].
  - intros [[n b']|] Hres; cbn.
    + right. destruct Hres as (k & ? & ?). by exists k.
    + left. repeat split; try done. intros n Hn.
      destruct (order_covers (bm_last_free_bit b) limit n) as (j & Hj & <-); auto.
Qed.

Lemma release_bit_spec b limit used n : bitmap_inv b limit used → n ∈ used →
  wp (mrpc_bitmap_release_bit b n) (λ b', bitmap_inv b' limit (used ∖ {[n]})).
Proof.
  intros Hinv Hin. pose proof (inv_size _ _ _ Hinv) as [Hsz Hpos].
  pose proof (inv_used _ _ _ Hinv n Hin) as Hn.
  unfold mrpc_bitmap_release_bit. do 2 wp_step.
  rewrite (bit_of_inv b limit used n Hinv Hn), (bool_decide_eq_true_2 _ Hin).
  cbn [mbind outcome_bind Z.b2z]. wp_step. rewrite wp_bind.
  eapply wp_mono; [apply (CLEAR_BIT_spec _ limit); [apply Hinv|apply Hinv|done]|].
  intros m' (Hlen & Hw & Hbits). cbn. split; cbn; try apply Hinv; try done.
  - by rewrite Hlen, (inv_map _ _ _ Hinv).
  - intros j Hj. rewrite Hbits, (inv_bits _ _ _ Hinv) by lia.
    repeat case_bool_decide; set_solver.
  - intros j Hj. apply (inv_used _ _ _ Hinv). set_solver.
Qed.

Lemma create_spec limit : 0 < limit →
  wp (mrpc_bitmap_create limit) (λ b, bitmap_inv b limit ∅).
Proof.
  intros Hpos. unfold mrpc_bitmap_create. wp_step. cbn.
  split; cbn; try done; try lia.
  - rewrite array_size. pose proof (Z.div_pos (limit + 63) 64). zlen.
  - apply Forall_replicate. done.
  - intros n Hn. unfold bit_is_set. rewrite (bool_decide_eq_false_2 (n ∈ ∅)) by set_solver.
    destruct (_ !! _) as [w|] eqn:E; [|done].
    apply lookup_replicate in E as [-> _]. apply Z.bits_0.
Qed.

#[export] Instance bitmap_allocator_spec : IdAllocatorSpec mrpc_bitmap.
Proof.
  split; simpl.
  - intros b limit used i Hinv. apply Hinv.
  - apply create_spec.
  - intros b limit used Hinv. eapply wp_mono; [by apply acquire_bit_spec|].
    intros [n b'] [?|(k & ? & -> & ? & ? & ? & ?)]; [by left|right].
    split; [apply search_order_range; lia|done].
  - apply release_bit_spec.
Qed.

(** ** Clients of the interface *)

Section clients.
Context {B : Type} `{IdAllocatorSpec B}.

Lemma alloc_step_spec op limit b held :
  alloc_view b limit (list_to_set held) → NoDup held →
  wp (alloc_step op (b, held)) (λ st,
    alloc_view (st.1) limit (list_to_set (st.2)) ∧ NoDup (st.2)).
Proof.
  intros Hview Hnd. destruct op as [|k]; cbn [alloc_step fst snd].
  - rewrite wp_bind. eapply wp_mono; [by apply alloc_acquire_spec|].
    intros [i b'] [(-> & -> & _)|(Hi & Hnot & Hv)]; cbn [wp fst snd].
    + by rewrite bool_decide_eq_true_2.
    + rewrite bool_decide_eq_false_2 by lia. split; [done|].
      constructor; [|done]. by rewrite elem_of_list_to_set in Hnot.
  - destruct (held !! k) as [i|] eqn:Hk; [|done]. rewrite wp_bind.
    eapply wp_mono; [apply (alloc_release_spec b limit _ i Hview)|].
    + apply elem_of_list_to_set. by eapply list_elem_of_lookup_2.
    + intros b' Hv. cbn [wp fst snd]. apply delete_Permutation in Hk as Hp.
      set (rest := delete k held) in *. clearbody rest.
      rewrite Hp in Hnd. apply NoDup_cons in Hnd as [Hni Hnd]. split; [|done].
      replace (list_to_set rest : gset Z)
        with (list_to_set held ∖ {[i]} : gset Z); [done|].
      apply set_eq. intros x.
      rewrite elem_of_difference, !elem_of_list_to_set, elem_of_singleton, Hp, elem_of_cons.
      naive_solver.
Qed.

Lemma alloc_run_spec ops limit b held :
  alloc_view b limit (list_to_set held) → NoDup held →
  wp (alloc_run ops (b, held)) (λ st,
    alloc_view (st.1) limit (list_to_set (st.2)) ∧ NoDup (st.2)).
Proof.
  revert b held. induction ops as [|op ops IH]; intros b held Hview Hnd; [done|].
  cbn [alloc_run]. rewrite wp_bind. eapply wp_mono; [by apply alloc_step_spec|].
  intros [b' held'] [Hv' Hnd']. by apply IH.
Qed.
End clients.

(** ** Properties *)

(** [mrpc_bitmap_acquire_bit] returns the first free bit in circular order
    from the bit found last, marks it and no other bit, and remembers it; it
    returns -1 and changes nothing exactly when all bits are taken.  None of its
    assertions fails and every access is inside the array. *)
Lemma acquire_bit_first_free (b : mrpc_bitmap) (limit : Z) (used : gset Z) :
  bitmap_inv b limit used →
  wp (mrpc_bitmap_acquire_bit b) (λ '(n, b'),
    (n = -1 ∧ b' = b ∧ ∀ j, 0 <= j < limit → j ∈ used) ∨
    (∃ k, 0 <= k < limit ∧ n = search_order (bm_last_free_bit b) limit k ∧
      (n ∉ used) ∧ (∀ j, 0 <= j < k → search_order (bm_last_free_bit b) limit j ∈ used) ∧
      bitmap_inv b' limit ({[n]} ∪ used) ∧ bm_last_free_bit b' = n)).
Proof. apply acquire_bit_spec. Qed.

Lemma acquire_bit_first_free_witness :
  wp (mrpc_bitmap_acquire_bit (MrpcBitmap [0] 3 0)) (λ '(n, b'),
    (n = -1 ∧ b' = MrpcBitmap [0] 3 0 ∧ ∀ j, 0 <= j < 3 → j ∈ (∅ : gset Z)) ∨
    (∃ k, 0 <= k < 3 ∧ n = search_order 0 3 k ∧
      (n ∉ (∅ : gset Z)) ∧ (∀ j, 0 <= j < k → search_order 0 3 j ∈ (∅ : gset Z)) ∧
      bitmap_inv b' 3 ({[n]} ∪ ∅) ∧ bm_last_free_bit b' = n)).
Proof.
  apply (acquire_bit_first_free (MrpcBitmap [0] 3 0) 3 ∅).
  split; [simpl; lia|reflexivity|repeat constructor; lia|simpl; lia| |].
  - intros n Hn. assert (n = 0 ∨ n = 1 ∨ n = 2) as [-> | [-> | ->]] by lia; reflexivity.
  - intros n Hn. by apply elem_of_empty in Hn.
Defined.


