(* ===== verification/Packet.v ===== *)
(** * Packets (src/mrpc_packet.c, include/private/mrpc_packet.h)

    A packet carries a request id, a type and up to [MAX_PACKET_SIZE] bytes.
    Packet streams fill and drain packets; stream processors move them through
    the transport. *)

From S2P Require Import Prelude FF Wire MrpcInt.

Definition MAX_PACKET_SIZE : Z := Z.shiftl 1 12 - 1.

Inductive mrpc_packet_type :=
  | MRPC_PACKET_START
  | MRPC_PACKET_MIDDLE
  | MRPC_PACKET_END
  | MRPC_PACKET_SINGLE.

#[export] Instance mrpc_packet_type_eq_dec : EqDecision mrpc_packet_type.
Proof. solve_decision. Defined.

(** The numbers of the enumerators, and the cast
    [(enum mrpc_packet_type) (tmp & 0x03)]. *)
Definition packet_type_code (type : mrpc_packet_type) : Z :=
  match type with
  | MRPC_PACKET_START => 0
  | MRPC_PACKET_MIDDLE => 1
  | MRPC_PACKET_END => 2
  | MRPC_PACKET_SINGLE => 3
  end.

Definition packet_type_of_code (code : Z) : mrpc_packet_type :=
  if bool_decide (code = 0) then MRPC_PACKET_START
  else if bool_decide (code = 1) then MRPC_PACKET_MIDDLE
  else if bool_decide (code = 2) then MRPC_PACKET_END
  else MRPC_PACKET_SINGLE.

(** [struct mrpc_packet] *)
Record mrpc_packet := MrpcPacket {
  pk_buf : list byte;
  pk_curr_pos : Z;
  pk_size : Z;
  pk_type : mrpc_packet_type;
  pk_request_id : byte;
}.

Definition mrpc_packet_create : mrpc_packet :=
  MrpcPacket (replicate (Z.to_nat MAX_PACKET_SIZE) x00) 0 0 MRPC_PACKET_START x00.

Definition mrpc_packet_delete (packet : mrpc_packet) : outcome unit :=
  ff_assert (bool_decide (pk_curr_pos packet = 0));;
  ff_assert (bool_decide (pk_size packet = 0)).

Definition mrpc_packet_reset (packet : mrpc_packet) : mrpc_packet :=
  MrpcPacket (pk_buf packet) 0 0 MRPC_PACKET_START x00.

Definition mrpc_packet_get_request_id (packet : mrpc_packet) : byte := pk_request_id packet.

Definition mrpc_packet_set_request_id (packet : mrpc_packet) (request_id : byte) : mrpc_packet :=
  MrpcPacket (pk_buf packet) (pk_curr_pos packet) (pk_size packet) (pk_type packet) request_id.

Definition mrpc_packet_get_type (packet : mrpc_packet) : mrpc_packet_type := pk_type packet.

Definition mrpc_packet_set_type (packet : mrpc_packet) (type : mrpc_packet_type) : mrpc_packet :=
  MrpcPacket (pk_buf packet) (pk_curr_pos packet) (pk_size packet) type (pk_request_id packet).

(** Returns the bytes stored at the caller's buffer; their number is the
    result [bytes_read] of the C function. *)
Definition mrpc_packet_read_data (packet : mrpc_packet) (len : Z) :
    outcome (list byte * mrpc_packet) :=
  ff_assert (bool_decide (len >= 0));;
  ff_assert (bool_decide (pk_curr_pos packet >= 0));;
  ff_assert (bool_decide (pk_size packet >= pk_curr_pos packet));;
  ff_assert (bool_decide (pk_size packet <= MAX_PACKET_SIZE));;
  let bytes_left := pk_size packet - pk_curr_pos packet in
  let bytes_read := if bool_decide (len > bytes_left) then bytes_left else len in
  data ← buf_read (pk_buf packet) (pk_curr_pos packet) bytes_read;
  Ret (data, MrpcPacket (pk_buf packet) (pk_curr_pos packet + bytes_read)
               (pk_size packet) (pk_type packet) (pk_request_id packet)).

(** [len] is the length of [src]; returns [bytes_written]. *)
Definition mrpc_packet_write_data (packet : mrpc_packet) (src : list byte) :
    outcome (Z * mrpc_packet) :=
  let len := zlength src in
  ff_assert (bool_decide (len >= 0));;
  ff_assert (bool_decide (pk_curr_pos packet = 0));;
  ff_assert (bool_decide (pk_size packet >= 0));;
  ff_assert (bool_decide (pk_size packet <= MAX_PACKET_SIZE));;
  let bytes_left := MAX_PACKET_SIZE - pk_size packet in
  let bytes_written := if bool_decide (len > bytes_left) then bytes_left else len in
  buf ← buf_write (pk_buf packet) (pk_size packet) (take (Z.to_nat bytes_written) src);
  Ret (bytes_written, MrpcPacket buf (pk_curr_pos packet) (pk_size packet + bytes_written)
                        (pk_type packet) (pk_request_id packet)).

Section stream_io.
Context {S : Type} `{FFStream S}.

Definition mrpc_packet_read_from_stream (packet : mrpc_packet) : M S (ff_result * mrpc_packet) :=
  lift (ff_assert (bool_decide (pk_curr_pos packet = 0)));;
  lift (ff_assert (bool_decide (pk_size packet = 0)));;
  r ← ff_stream_read 1;
  (* the octet is stored in packet->request_id *)
  let packet := match r.2 with
                | [] => packet
                | octet :: _ => mrpc_packet_set_request_id packet octet
                end in
  match r.1 with
  | FF_FAILURE => mret (FF_FAILURE, packet)
  | FF_SUCCESS =>
      t ← mrpc_uint32_unserialize;
      match t with
      | (FF_SUCCESS, Some tmp) =>
          let size := Z.shiftr tmp 2 in
          let packet := MrpcPacket (pk_buf packet) (pk_curr_pos packet) size
                          (packet_type_of_code (Z.land tmp 3)) (pk_request_id packet) in
          if bool_decide (size > MAX_PACKET_SIZE) then mret (FF_FAILURE, packet)
          else
            r ← ff_stream_read size;
            buf ← lift (buf_write (pk_buf packet) 0 r.2);
            mret (r.1, MrpcPacket buf (pk_curr_pos packet) size (pk_type packet)
                         (pk_request_id packet))
      | _ => mret (FF_FAILURE, packet)
      end
  end.

Definition mrpc_packet_write_to_stream (packet : mrpc_packet) : M S ff_result :=
  lift (ff_assert (bool_decide (pk_curr_pos packet = 0)));;
  lift (ff_assert (bool_decide (pk_size packet <= MAX_PACKET_SIZE)));;
  result ← ff_stream_write [pk_request_id packet];
  match result with
  | FF_FAILURE => mret FF_FAILURE
  | FF_SUCCESS =>
      let tmp := Z.lor (packet_type_code (pk_type packet)) (u32 (Z.shiftl (pk_size packet) 2)) in
      result ← mrpc_uint32_serialize tmp;
      match result with
      | FF_FAILURE => mret FF_FAILURE
      | FF_SUCCESS =>
          body ← lift (buf_read (pk_buf packet) 0 (pk_size packet));
          ff_stream_write body
      end
  end.
End stream_io.

(** ** Specification vocabulary *)

Record packet_inv (p : mrpc_packet) : Prop := {
  packet_buf_length : zlength (pk_buf p) = MAX_PACKET_SIZE;
  packet_pos : 0 <= pk_curr_pos p <= pk_size p;
  packet_size : pk_size p <= MAX_PACKET_SIZE
}.

(** The bytes which can still be read from a packet. *)
Definition packet_payload (p : mrpc_packet) : list byte :=
  take (Z.to_nat (pk_size p - pk_curr_pos p)) (drop (Z.to_nat (pk_curr_pos p)) (pk_buf p)).

(** What [mrpc_packet_reset] and [mrpc_packet_create] return. *)
Definition packet_empty (p : mrpc_packet) : Prop :=
  zlength (pk_buf p) = MAX_PACKET_SIZE ∧ pk_curr_pos p = 0 ∧ pk_size p = 0 ∧
  pk_type p = MRPC_PACKET_START ∧ pk_request_id p = x00.

(** The number after the request id: 2 bits of type below the size. *)
Definition packet_header (type : mrpc_packet_type) (size : Z) : Z :=
  packet_type_code type + 4 * size.

(** The octets of a packet on the wire. *)
Definition packet_bytes (p : mrpc_packet) : list byte :=
  pk_request_id p :: varint (packet_header (pk_type p) (pk_size p)) ++ packet_payload p.

(** Two packets a reader cannot tell apart. *)
Definition packet_same (p q : mrpc_packet) : Prop :=
  pk_request_id p = pk_request_id q ∧ pk_type p = pk_type q ∧
  pk_curr_pos p = pk_curr_pos q ∧ pk_size p = pk_size q ∧
  packet_payload p = packet_payload q.

#[export] Instance packet_same_equiv : Equivalence packet_same.
Proof. unfold packet_same. split; red; intuition congruence. Qed.

Lemma max_packet_size : MAX_PACKET_SIZE = 4095.
Proof. done. Qed.

(** ** Headers *)

Lemma packet_type_code_range t : 0 <= packet_type_code t < 4.
Proof. destruct t; simpl; lia. Qed.

Lemma packet_type_of_type_code t : packet_type_of_code (packet_type_code t) = t.
Proof. by destruct t. Qed.

Lemma packet_header_lor t size : 0 <= size <= MAX_PACKET_SIZE →
  Z.lor (packet_type_code t) (u32 (Z.shiftl size 2)) = packet_header t size.
Proof.
  intros Hs. rewrite max_packet_size in Hs. pose proof (packet_type_code_range t).
  rewrite u32_id.
  - rewrite lor_add_disjoint by lia. unfold packet_header. lia.
  - rewrite Z.shiftl_mul_pow2 by lia. unfold is_u32. lia.
Qed.

Lemma packet_header_decode t size :
  packet_type_of_code (Z.land (packet_header t size) 3) = t ∧
  Z.shiftr (packet_header t size) 2 = size.
Proof.
  pose proof (packet_type_code_range t). unfold packet_header.
  change 3 with (Z.ones 2). rewrite Z.land_ones, Z.shiftr_div_pow2 by lia.
  change (2 ^ 2) with 4. rewrite (Z.mul_comm 4), Z.mod_add, Z.div_add by lia.
  rewrite Z.mod_small, Z.div_small by lia.
  split; [apply packet_type_of_type_code|lia].
Qed.

Lemma packet_header_range t size : 0 <= size <= MAX_PACKET_SIZE →
  0 <= packet_header t size < 2 ^ 14.
Proof.
  rewrite max_packet_size. pose proof (packet_type_code_range t). unfold packet_header. lia.
Qed.

Lemma packet_header_u32 t size : 0 <= size <= MAX_PACKET_SIZE → is_u32 (packet_header t size).
Proof. intros Hs. pose proof (packet_header_range t size Hs). unfold is_u32. lia. Qed.

(** ** Invariant *)

Lemma packet_empty_inv p : packet_empty p → packet_inv p.
Proof. intros (? & Hp & Hs & _). split; rewrite ?Hp, ?Hs; rewrite ?max_packet_size; lia || done. Qed.

Lemma packet_reset_empty p : zlength (pk_buf p) = MAX_PACKET_SIZE → packet_empty (mrpc_packet_reset p).
Proof. by repeat split. Qed.

Lemma packet_create_empty : packet_empty mrpc_packet_create.
Proof. by repeat split. Qed.

Lemma packet_payload_length p : packet_inv p →
  zlength (packet_payload p) = pk_size p - pk_curr_pos p.
Proof.
  intros [Hb Hpos Hsz]. unfold packet_payload. autorewrite with zlen. rewrite Hb. lia.
Qed.

Lemma packet_empty_payload p : packet_empty p → packet_payload p = [].
Proof. intros (_ & Hp & Hs & _). unfold packet_payload. by rewrite Hp, Hs. Qed.

Lemma packet_set_inv p id t : packet_inv p →
  packet_inv (mrpc_packet_set_request_id (mrpc_packet_set_type p t) id).
Proof. by intros [? ? ?]. Qed.

Lemma packet_set_type_inv p t : packet_inv p → packet_inv (mrpc_packet_set_type p t).
Proof. by intros [? ? ?]. Qed.

#[export] Hint Resolve packet_empty_inv packet_reset_empty packet_create_empty
  packet_set_inv packet_set_type_inv : mrpc.

(** ** Draining and filling a packet *)

Lemma packet_read_data_spec p len : packet_inv p → 0 <= len →
  wp (mrpc_packet_read_data p len) (λ '(data, p'),
    packet_inv p' ∧ zlength data = Z.min len (zlength (packet_payload p)) ∧
    packet_payload p = data ++ packet_payload p' ∧
    pk_type p' = pk_type p ∧ pk_request_id p' = pk_request_id p).
Proof.
  intros Hp Hlen. pose proof (packet_payload_length p Hp) as Hpl.
  destruct Hp as [Hb Hpos Hsz]. unfold mrpc_packet_read_data. do 4 wp_step.
  set (n := if bool_decide _ then _ else _).
  assert (n = Z.min len (zlength (packet_payload p))) as Hn.
  { unfold n. case_bool_decide; lia. }
  rewrite wp_bind. apply wp_buf_read; [lia|lia|lia|]. cbn.
  split; [split; cbn; lia || done|]. split; [|split; [|done]].
  - autorewrite with zlen. lia.
  - unfold packet_payload at 1 2. cbn.
    replace (Z.to_nat (pk_size p - pk_curr_pos p))
      with (Z.to_nat n + Z.to_nat (pk_size p - (pk_curr_pos p + n)))%nat by lia.
    replace (Z.to_nat (pk_curr_pos p + n)) with (Z.to_nat (pk_curr_pos p) + Z.to_nat n)%nat by lia.
    by rewrite <- drop_drop, take_take_drop.
Qed.

Lemma packet_write_data_spec p src : packet_inv p → pk_curr_pos p = 0 →
  wp (mrpc_packet_write_data p src) (λ '(n, p'),
    packet_inv p' ∧ pk_curr_pos p' = 0 ∧
    n = Z.min (zlength src) (MAX_PACKET_SIZE - pk_size p) ∧
    pk_size p' = pk_size p + n ∧
    packet_payload p' = packet_payload p ++ take (Z.to_nat n) src ∧
    pk_type p' = pk_type p ∧ pk_request_id p' = pk_request_id p).
Proof.
  intros Hp Hpos0. destruct Hp as [Hb Hpos Hsz]. pose proof (zlength_nonneg src).
  unfold mrpc_packet_write_data. do 4 wp_step.
  set (n := if bool_decide _ then _ else _).
  assert (n = Z.min (zlength src) (MAX_PACKET_SIZE - pk_size p)) as Hn.
  { unfold n. case_bool_decide; lia. }
  rewrite wp_bind. apply wp_buf_write; [lia|autorewrite with zlen; lia|]. cbn.
  split; [split; cbn; autorewrite with zlen; rewrite ?length_take; unfold zlength in *; lia|].
  do 3 (split; [done|]). split; [|done].
  unfold packet_payload. cbn. rewrite Hpos0. change (Z.to_nat 0) with 0%nat. rewrite !drop_0, !Z.sub_0_r.
  rewrite app_assoc. rewrite take_app_length'; [done|].
  rewrite length_app, !length_take. unfold zlength in *. lia.
Qed.

Lemma drop_0_take (p : mrpc_packet) : pk_curr_pos p = 0 →
  take (Z.to_nat (pk_size p)) (drop (Z.to_nat 0) (pk_buf p)) = packet_payload p.
Proof. intros Hp. unfold packet_payload. by rewrite Hp, Z.sub_0_r. Qed.

(** Storing a body at the start of the buffer makes it the payload. *)
Lemma payload_of_body buf body size t id : zlength body = size →
  packet_payload (MrpcPacket (body ++ drop (0 + length body) buf) 0 size t id) = body.
Proof.
  intros <-. unfold packet_payload. cbn. rewrite Z.sub_0_r. unfold zlength.
  rewrite Nat2Z.id. apply take_app_length.
Qed.

(** ** Packets on a stream *)

Section stream_specs.
Context {S : Type} `{FFStreamSpec S}.
Implicit Types (s : S) (p q : mrpc_packet).

Lemma packet_write_to_stream_spec p s :
  packet_inv p → pk_curr_pos p = 0 → stream_inv s → writable s →
  wp (mrpc_packet_write_to_stream p s) (λ '(r, s'), wrote (packet_bytes p) s r s').
Proof.
  intros Hp Hpos Hs Hw. destruct (Hp) as [Hb Hrange Hsz].
  unfold mrpc_packet_write_to_stream. do 4 wp_step. rewrite wp_M_bind.
  change (packet_bytes p) with
    ([pk_request_id p] ++ (varint (packet_header (pk_type p) (pk_size p)) ++ packet_payload p)).
  eapply wp_mono; [by apply ff_stream_write_spec|].
  intros [[|] s1] Hst1; [|by apply wrote_fail]. cbn [fst snd].
  rewrite wp_M_bind, packet_header_lor by lia.
  eapply wp_mono.
  { apply (int_serialize_spec TUint32); [apply packet_header_u32; lia|apply Hst1|apply Hst1]. }
  intros [[|] s2] Hst2; [|by eapply wrote_app, wrote_fail; [|]]. cbn [fst snd].
  rewrite wp_M_bind, wp_lift. apply wp_buf_read; [lia|lia|lia|].
  rewrite drop_0_take by done. cbn [fst snd].
  eapply wp_mono; [apply ff_stream_write_spec; [apply Hst2|apply Hst2]|].
  intros [r s3] Hst3. by do 2 (eapply wrote_app; [done|]).
Qed.

Lemma packet_read_from_stream_spec p s :
  zlength (pk_buf p) = MAX_PACKET_SIZE → pk_curr_pos p = 0 → pk_size p = 0 → stream_inv s →
  wp (mrpc_packet_read_from_stream p s) (λ '(r, p', s'),
    zlength (pk_buf p') = MAX_PACKET_SIZE ∧ undisturbed s s' ∧
    (r = FF_SUCCESS → packet_inv p' ∧ pk_curr_pos p' = 0 ∧ ∃ bs, consumed bs s s')).
Proof.
  intros Hb Hpos Hsz Hs. unfold mrpc_packet_read_from_stream. do 4 wp_step.
  rewrite wp_M_bind. apply read_octet_spec; [done| |]; cbn [fst snd].
  2:{ intros bs s' Hc. cbn. split; [by destruct bs|done]. }
  intros b s1 Hc1. rewrite wp_M_bind.
  eapply wp_mono; [apply (int_unserialize_spec TUint32); eauto with mrpc|].
  intros [[[|] o] s2]; cbn [fst snd].
  2:{ intros [Hu ->]. cbn. split; [done|]. split; [eauto with mrpc|done]. }
  intros ([bs2 Hc2] & tmp & -> & Htmp). cbn [int_in_range] in Htmp. unfold is_u32 in Htmp.
  assert (0 <= Z.shiftr tmp 2) by (apply Z.shiftr_nonneg; lia).
  case_bool_decide as Hmax.
  { cbn. split; [done|]. split; [eauto with mrpc|done]. }
  rewrite wp_M_bind. eapply wp_mono; [apply ff_stream_read_spec; [eauto with mrpc|done]|].
  intros [[r body] s3] Hr3. cbn [fst snd].
  assert (zlength body <= Z.shiftr tmp 2) as Hl by (destruct r; destruct Hr3; lia).
  rewrite wp_M_bind, wp_lift. apply wp_buf_write; [lia|cbn; lia|]. cbn.
  assert (zlength (body ++ drop (0 + length body) (pk_buf p)) = MAX_PACKET_SIZE) as Hlen.
  { autorewrite with zlen. rewrite Hb. unfold zlength in *. lia. }
  split; [done|]. split; [destruct r; destruct Hr3; eauto with mrpc|].
  intros ->. split; [split; cbn; [done|lia|lia]|]. split; [done|].
  eexists. eapply consumed_app; [|apply Hr3]. by eapply consumed_app.
Qed.

(** The octets of a packet are read back as this packet. *)
Lemma packet_read_bytes `{!ReliableStream S} p q rest s :
  packet_empty p → packet_inv q → pk_curr_pos q = 0 → stream_inv s →
  incoming s = packet_bytes q ++ rest →
  wp (mrpc_packet_read_from_stream p s) (λ '(r, p', s'),
    r = FF_SUCCESS ∧ packet_inv p' ∧ packet_same p' q ∧
    consumed (packet_bytes q) s s' ∧ incoming s' = rest).
Proof.
  intros (Hb & Hpos & Hsz & _) Hq Hqpos Hs Hin. destruct (Hq) as [Hqb Hqrange Hqsz].
  pose proof (packet_payload_length q Hq) as Hql.
  unfold mrpc_packet_read_from_stream. do 4 wp_step. rewrite wp_M_bind.
  set (hdr := packet_header (pk_type q) (pk_size q)) in *.
  assert (packet_bytes q = [pk_request_id q] ++ varint hdr ++ packet_payload q) as Hbytes by done.
  eapply wp_mono; [apply (read_front s [pk_request_id q] (varint hdr ++ packet_payload q ++ rest));
    [done|by rewrite Hin, Hbytes, <- !app_assoc]|].
  intros [[r got] s1] (-> & -> & Hc1 & Hin1). cbn [fst snd].
  rewrite wp_M_bind. eapply wp_mono;
    [apply (int_unserialize_bytes TUint32 s1 hdr (packet_payload q ++ rest));
     [apply packet_header_u32; lia|eauto with mrpc|done]|].
  intros [[r o] s2] (-> & -> & Hc2 & Hin2). cbn [fst snd].
  destruct (packet_header_decode (pk_type q) (pk_size q)) as [Htype Hsize].
  fold hdr in Htype, Hsize. rewrite Htype, Hsize, bool_decide_eq_false_2 by lia.
  rewrite wp_M_bind. replace (pk_size q) with (zlength (packet_payload q)) at 1 by lia.
  eapply wp_mono; [apply (read_front s2 (packet_payload q) rest); [eauto with mrpc|done]|].
  intros [[r body] s3] (-> & -> & Hc3 & Hin3). cbn [fst snd].
  rewrite wp_M_bind, wp_lift. apply wp_buf_write; [lia|cbn; lia|]. cbn. rewrite Hpos.
  split; [done|]. split.
  { split; cbn; [|lia|lia]. autorewrite with zlen. rewrite Hb.
    unfold zlength in *. lia. }
  split; [|split; [|done]].
  - repeat split; cbn; [by rewrite Hqpos|].
    apply (payload_of_body (pk_buf p) (packet_payload q)). lia.
  - rewrite Hbytes. eapply consumed_app; [done|]. by eapply consumed_app.
Qed.
End stream_specs.

(** ** Properties *)

(** C31.  A packet written to a transport which does not fail is read back from
    the bytes it produced: same request id, type, size and payload, whatever
    packet the reader reuses, and nothing beyond these bytes is taken. *)
Theorem packet_stream_roundtrip {W R : Type} `{FFStreamSpec W} `{!ReliableStream W}
    `{FFStreamSpec R} `{!ReliableStream R} (p q : mrpc_packet) (w : W) :
  packet_inv q → pk_curr_pos q = 0 → packet_empty p → stream_inv w → writable w →
  wp (mrpc_packet_write_to_stream q w) (λ '(res, w'),
    res = FF_SUCCESS → ∃ sent, outgoing w' = outgoing w ++ sent ∧
    ∀ (r : R) rest, stream_inv r → incoming r = sent ++ rest →
      wp (mrpc_packet_read_from_stream p r) (λ '(res, p', r'),
        res = FF_SUCCESS ∧ packet_same p' q ∧ incoming r' = rest)).
Proof.
  intros Hq Hpos Hp Hw Hwr.
  eapply wp_mono; [by apply packet_write_to_stream_spec|].
  intros [res w'] (_ & _ & _ & Hout) ->. eexists; split; [exact Hout|].
  intros r rest Hr Hin. eapply wp_mono; [by apply (packet_read_bytes p q rest r)|].
  by intros [[? ?] ?] (? & ? & ? & ? & ?).
Qed.

Definition sample_packet : mrpc_packet :=
  MrpcPacket (x61 :: x62 :: replicate 4093 x00) 0 2 MRPC_PACKET_END x05.

Lemma packet_stream_roundtrip_witness :
  wp (mrpc_packet_write_to_stream sample_packet (MemStream [] [])) (λ '(res, w'),
    res = FF_SUCCESS → ∃ sent, outgoing w' = outgoing (MemStream [] []) ++ sent ∧
    ∀ (r : mem_stream) rest, stream_inv r → incoming r = sent ++ rest →
      wp (mrpc_packet_read_from_stream mrpc_packet_create r) (λ '(res, p', r'),
        res = FF_SUCCESS ∧ packet_same p' sample_packet ∧ incoming r' = rest)).
Proof.
  apply (packet_stream_roundtrip mrpc_packet_create sample_packet (MemStream [] []));
    [split; vm_compute; intuition congruence | reflexivity | repeat split | exact I | exact I].
Defined.

(** The header of a packet takes at most three octets, as the comment on
    [MAX_PACKET_SIZE] claims: writing a packet sends between 2 and 3 octets more
    than its payload, for every type and size. *)
Lemma packet_header_octets {S : Type} `{FFStreamSpec S} (p : mrpc_packet) (s : S) :
  packet_inv p → pk_curr_pos p = 0 → stream_inv s → writable s →
  wp (mrpc_packet_write_to_stream p s) (λ '(r, s'),
    r = FF_SUCCESS → ∃ sent, outgoing s' = outgoing s ++ sent ∧
      pk_size p + 2 <= zlength sent <= pk_size p + 3).
Proof.
  intros Hp Hpos Hs Hw. eapply wp_mono; [by apply packet_write_to_stream_spec|].
  intros [r s'] (_ & _ & _ & Hout) ->. exists (packet_bytes p). split; [done|].
  pose proof (packet_payload_length p Hp) as Hl. destruct Hp as [? ? ?].
  pose proof (packet_header_range (pk_type p) (pk_size p)) as Hr.
  assert (length (varint (packet_header (pk_type p) (pk_size p))) <= 2)%nat as H2.
  { apply base128_length_le; [lia|lia|]. change (128 ^ Z.of_nat 2) with (2 ^ 14). lia. }
  destruct (varint_spec (packet_header (pk_type p) (pk_size p))) as (_ & _ & Hv).
  { unfold is_u64. lia. }
  unfold packet_bytes. autorewrite with zlen. unfold zlength in Hv |- *. unfold zlength in Hl. lia.
Qed.

Lemma packet_header_octets_witness :
  wp (mrpc_packet_write_to_stream sample_packet (MemStream [] [])) (λ '(r, s'),
    r = FF_SUCCESS → ∃ sent, outgoing s' = outgoing (MemStream [] []) ++ sent ∧
      pk_size sample_packet + 2 <= zlength sent <= pk_size sample_packet + 3).
Proof.
  apply (packet_header_octets sample_packet (MemStream [] []));
    [split; vm_compute; intuition congruence | reflexivity | exact I | exact I].
Defined.

(** C33.  Reading a packet is safe on arbitrary input: it ends without a fault
    and never stores outside of the packet's buffer; a success yields a packet
    whose size respects [MAX_PACKET_SIZE]; after a failure, resetting the packet
    makes it an empty packet again, so that it can return to the pool. *)
Theorem packet_read_any_input {S : Type} `{FFStreamSpec S} (p : mrpc_packet) (s : S) :
  packet_empty p → stream_inv s →
  wp (mrpc_packet_read_from_stream p s) (λ '(r, p', s'),
    packet_empty (mrpc_packet_reset p') ∧
    (r = FF_SUCCESS → packet_inv p' ∧ zlength (packet_payload p') = pk_size p' ∧
      pk_size p' <= MAX_PACKET_SIZE ∧ ∃ bs, incoming s = bs ++ incoming s')).
Proof.
  intros (Hb & Hpos & Hsz & _) Hs.
  eapply wp_mono; [by apply packet_read_from_stream_spec|].
  intros [[r p'] s'] (Hb' & _ & Hr). split; [auto with mrpc|].
  intros ->. destruct (Hr eq_refl) as (Hp' & Hpos' & bs & [_ Hin]).
  rewrite packet_payload_length, Hpos' by done.
  split; [done|]. split; [lia|]. split; [apply Hp'|by exists bs].
Qed.

Lemma packet_read_any_input_witness :
  wp (mrpc_packet_read_from_stream mrpc_packet_create (MemStream [x05; x0a; x61] []))
    (λ '(r, p', s'),
      packet_empty (mrpc_packet_reset p') ∧
      (r = FF_SUCCESS → packet_inv p' ∧ zlength (packet_payload p') = pk_size p' ∧
        pk_size p' <= MAX_PACKET_SIZE ∧
        ∃ bs, incoming (MemStream [x05; x0a; x61] []) = bs ++ incoming s')).
Proof.
  apply (packet_read_any_input mrpc_packet_create (MemStream [x05; x0a; x61] []));
    [repeat split | exact I].
Defined.
