(* ===== verification/PacketStream.v ===== *)
(** * Packet streams (src/mrpc_packet_stream.c)

    A packet stream presents the packets of one request as a byte stream: writes
    fill packets and put them on the writer queue shared by all requests of a
    connection, reads drain the packets which the stream processor pushed to the
    reader queue of the stream. *)

From S2P Require Import Prelude FF Packet.

(** The callbacks [acquire_packet_func] and [release_packet_func] with their
    context.  [pool_out] counts the packets which are out of the pool. *)
Class PacketPool (P : Type) := {
  acquire_packet_func : M P mrpc_packet;
  release_packet_func : mrpc_packet → M P unit;
  pool_inv : P → Prop;
  pool_out : P → Z;
}.

(** "This callback must return an empty mrpc_packet"; released packets have a
    buffer of the packet size. *)
Class PacketPoolSpec (P : Type) `{PacketPool P} : Prop := {
  acquire_packet_func_spec p : pool_inv p →
    wp (acquire_packet_func p) (λ '(packet, p'),
      packet_empty packet ∧ pool_inv p' ∧ pool_out p' = pool_out p + 1);
  release_packet_func_spec p packet :
    pool_inv p → zlength (pk_buf packet) = MAX_PACKET_SIZE →
    wp (release_packet_func packet p) (λ '(_, p'),
      pool_inv p' ∧ pool_out p' = pool_out p - 1)
}.

(** A pool which creates packets on demand and drops released ones. *)
#[export] Instance counting_pool : PacketPool Z := {
  acquire_packet_func p := Ret (mrpc_packet_create, p + 1);
  release_packet_func _ p := Ret (tt, p - 1);
  pool_inv _ := True;
  pool_out p := p
}.

(** [struct mrpc_packet_stream]; the shared writer queue and the pool behind
    [packet_func_ctx] are part of the state the operations work on. *)
Record mrpc_packet_stream (Q W P : Type) := PacketStream {
  ps_pool : P;
  ps_reader_queue : Q;
  ps_writer_queue : W;
  ps_current_read_packet : option mrpc_packet;
  ps_current_write_packet : option mrpc_packet;
  ps_request_id : byte;
}.
Arguments PacketStream {Q W P}.
Arguments ps_pool {Q W P}.
Arguments ps_reader_queue {Q W P}.
Arguments ps_writer_queue {Q W P}.
Arguments ps_current_read_packet {Q W P}.
Arguments ps_current_write_packet {Q W P}.
Arguments ps_request_id {Q W P}.

Section operations.
Context {Q W P : Type} `{PacketPool P} `{FFBlockingQueue Q mrpc_packet}
  `{FFBlockingQueue W (option mrpc_packet)}.
#[local] Abbreviation PS := (mrpc_packet_stream Q W P).

(** Access to the parts of the state. *)
Definition gets {A} (f : PS → A) : M PS A := λ st, Ret (f st, st).

Definition on_pool {A} (m : M P A) : M PS A := λ st,
  match m (ps_pool st) with
  | Ret (a, p) => Ret (a, PacketStream p (ps_reader_queue st) (ps_writer_queue st)
      (ps_current_read_packet st) (ps_current_write_packet st) (ps_request_id st))
  | Fault f => Fault f
  end.

Definition on_reader_queue {A} (m : M Q A) : M PS A := λ st,
  match m (ps_reader_queue st) with
  | Ret (a, q) => Ret (a, PacketStream (ps_pool st) q (ps_writer_queue st)
      (ps_current_read_packet st) (ps_current_write_packet st) (ps_request_id st))
  | Fault f => Fault f
  end.

Definition on_writer_queue {A} (m : M W A) : M PS A := λ st,
  match m (ps_writer_queue st) with
  | Ret (a, q) => Ret (a, PacketStream (ps_pool st) (ps_reader_queue st) q
      (ps_current_read_packet st) (ps_current_write_packet st) (ps_request_id st))
  | Fault f => Fault f
  end.

Definition set_current_read_packet (p : option mrpc_packet) : M PS unit := λ st,
  Ret (tt, PacketStream (ps_pool st) (ps_reader_queue st) (ps_writer_queue st)
             p (ps_current_write_packet st) (ps_request_id st)).

Definition set_current_write_packet (p : option mrpc_packet) : M PS unit := λ st,
  Ret (tt, PacketStream (ps_pool st) (ps_reader_queue st) (ps_writer_queue st)
             (ps_current_read_packet st) p (ps_request_id st)).

Definition set_request_id (id : byte) : M PS unit := λ st,
  Ret (tt, PacketStream (ps_pool st) (ps_reader_queue st) (ps_writer_queue st)
             (ps_current_read_packet st) (ps_current_write_packet st) id).

Definition is_null (p : option mrpc_packet) : bool :=
  match p with None => true | Some _ => false end.

Definition acquire_packet (packet_type : mrpc_packet_type) : M PS mrpc_packet :=
  lift (ff_assert (bool_decide (packet_type ≠ MRPC_PACKET_SINGLE)));;
  packet ← on_pool acquire_packet_func;
  request_id ← gets ps_request_id;
  let packet := mrpc_packet_set_request_id packet request_id in
  mret (mrpc_packet_set_type packet packet_type).

Definition release_packet (packet : mrpc_packet) : M PS unit :=
  on_pool (release_packet_func packet).

Definition is_first_type (t : mrpc_packet_type) : bool :=
  bool_decide (t = MRPC_PACKET_START) || bool_decide (t = MRPC_PACKET_SINGLE).
Definition is_last_type (t : mrpc_packet_type) : bool :=
  bool_decide (t = MRPC_PACKET_SINGLE) || bool_decide (t = MRPC_PACKET_END).
Definition is_open_type (t : mrpc_packet_type) : bool :=
  bool_decide (t = MRPC_PACKET_START) || bool_decide (t = MRPC_PACKET_MIDDLE).

Definition prefetch_current_read_packet : M PS ff_result :=
  cur ← gets ps_current_read_packet;
  lift (ff_assert (is_null cur));;
  got ← on_reader_queue ff_blocking_queue_get_with_timeout;
  match got with
  | Some packet =>
      if negb (is_first_type (mrpc_packet_get_type packet))
      then release_packet packet;; mret FF_FAILURE
      else set_current_read_packet (Some packet);; mret FF_SUCCESS
  | None => mret FF_FAILURE
  end.

Definition release_current_read_packet : M PS unit :=
  cur ← gets ps_current_read_packet;
  match cur with
  | Some packet => release_packet packet;; set_current_read_packet None
  | None => mret tt
  end.

Definition acquire_current_write_packet : M PS unit :=
  cur ← gets ps_current_write_packet;
  lift (ff_assert (is_null cur));;
  packet ← acquire_packet MRPC_PACKET_START;
  set_current_write_packet (Some packet).

Definition release_current_write_packet : M PS unit :=
  cur ← gets ps_current_write_packet;
  match cur with
  | Some packet =>
      lift (ff_assert (bool_decide (mrpc_packet_get_type packet ≠ MRPC_PACKET_SINGLE)));;
      release_packet packet;;
      set_current_write_packet None
  | None => mret tt
  end.

(** One round per queued packet; more fuel than packets is enough. *)
Fixpoint clear_reader_queue (fuel : nat) : M PS unit :=
  match fuel with
  | O => lift (Fault OutOfFuel)
  | S fuel =>
      is_empty ← gets (λ st, ff_blocking_queue_is_empty (ps_reader_queue st));
      if (is_empty : bool) then mret tt
      else
        packet ← on_reader_queue ff_blocking_queue_get;
        release_packet packet;;
        clear_reader_queue fuel
  end.

Definition mrpc_packet_stream_create (pool : P) (writer_queue : W)
    (max_reader_queue_size : Z) : outcome PS :=
  ff_assert (bool_decide (max_reader_queue_size > 0));;
  Ret (PacketStream pool (ff_blocking_queue_create max_reader_queue_size) writer_queue
         None None x00).

Definition mrpc_packet_stream_delete : M PS unit :=
  st ← gets id;
  lift (ff_assert (is_null (ps_current_read_packet st)));;
  lift (ff_assert (is_null (ps_current_write_packet st)));;
  lift (ff_assert (bool_decide (ps_request_id st = x00))).

Definition mrpc_packet_stream_initialize (request_id : byte) : M PS unit :=
  st ← gets id;
  lift (ff_assert (is_null (ps_current_read_packet st)));;
  lift (ff_assert (is_null (ps_current_write_packet st)));;
  lift (ff_assert (bool_decide (ps_request_id st = x00)));;
  set_request_id request_id.

Definition mrpc_packet_stream_shutdown : M PS unit :=
  release_current_write_packet;;
  cur ← gets ps_current_write_packet;
  lift (ff_assert (is_null cur));;
  release_current_read_packet;;
  cur ← gets ps_current_read_packet;
  lift (ff_assert (is_null cur));;
  fuel ← gets (λ st, length (queue_contents (ps_reader_queue st)) + 1)%nat;
  clear_reader_queue fuel;;
  set_request_id x00.

(** The while loop of [mrpc_packet_stream_read]: [got] are the bytes stored in
    the caller's buffer so far.  Returns the result, these bytes and the
    value of [current_read_packet].  Each round but the last one takes a packet
    from the reader queue. *)
Fixpoint read_loop (fuel : nat) (current_read_packet : mrpc_packet)
    (packet_type : mrpc_packet_type) (len : Z) (got : list byte) :
    M PS (ff_result * list byte * mrpc_packet) :=
  match fuel with
  | O => lift (Fault OutOfFuel)
  | S fuel =>
      if negb (bool_decide (len > 0)) then mret (FF_SUCCESS, got, current_read_packet)
      else
        r ← lift (mrpc_packet_read_data current_read_packet len);
        let data := r.1 in
        let current_read_packet := r.2 in
        let bytes_read := zlength data in
        lift (ff_assert (bool_decide (bytes_read >= 0)));;
        lift (ff_assert (bool_decide (bytes_read <= len)));;
        let len := len - bytes_read in
        let got := got ++ data in
        if negb (bool_decide (len > 0))
        then read_loop fuel current_read_packet packet_type len got
        else if is_last_type packet_type
        then mret (FF_FAILURE, got, current_read_packet)
        else
          next ← on_reader_queue ff_blocking_queue_get_with_timeout;
          match next with
          | None => mret (FF_FAILURE, got, current_read_packet)
          | Some packet =>
              let packet_type := mrpc_packet_get_type packet in
              if is_first_type packet_type
              then release_packet packet;; mret (FF_FAILURE, got, current_read_packet)
              else
                release_packet current_read_packet;;
                read_loop fuel packet packet_type len got
          end
  end.

(** Rounds for the packets in the reader queue, the current one and the end. *)
Definition reader_rounds : M PS nat :=
  gets (λ st, length (queue_contents (ps_reader_queue st)) + 2)%nat.

Definition mrpc_packet_stream_read (len : Z) : M PS (ff_result * list byte) :=
  lift (ff_assert (bool_decide (len >= 0)));;
  cur ← gets ps_current_read_packet;
  result ← (if is_null cur then prefetch_current_read_packet else mret FF_SUCCESS);
  match result with
  | FF_FAILURE =>
      (* end: stores the NULL read above *)
      set_current_read_packet None;; mret (FF_FAILURE, [])
  | FF_SUCCESS =>
      cur ← gets ps_current_read_packet;
      lift (ff_assert (negb (is_null cur)));;
      match cur with
      | None => mret (FF_FAILURE, [])
      | Some current_read_packet =>
          fuel ← reader_rounds;
          r ← read_loop fuel current_read_packet
                (mrpc_packet_get_type current_read_packet) len [];
          set_current_read_packet (Some (r.2));;
          mret (r.1)
      end
  end.

(** The while loop of [mrpc_packet_stream_write]; returns the value of
    [current_write_packet].  Each round but the first one starts with an
    empty packet, so [length p + 2] rounds are enough. *)
Fixpoint write_loop (fuel : nat) (current_write_packet : mrpc_packet) (p : list byte) :
    M PS mrpc_packet :=
  match fuel with
  | O => lift (Fault OutOfFuel)
  | S fuel =>
      let len := zlength p in
      if negb (bool_decide (len > 0)) then mret current_write_packet
      else
        r ← lift (mrpc_packet_write_data current_write_packet p);
        let bytes_written := r.1 in
        let current_write_packet := r.2 in
        lift (ff_assert (bool_decide (bytes_written >= 0)));;
        lift (ff_assert (bool_decide (bytes_written <= len)));;
        let p := drop (Z.to_nat bytes_written) p in
        if bool_decide (zlength p > 0) then
          on_writer_queue (ff_blocking_queue_put (Some current_write_packet));;
          packet ← acquire_packet MRPC_PACKET_MIDDLE;
          write_loop fuel packet p
        else write_loop fuel current_write_packet p
  end.

Definition mrpc_packet_stream_write (buf : list byte) : M PS ff_result :=
  lift (ff_assert (bool_decide (zlength buf >= 0)));;
  cur ← gets ps_current_write_packet;
  (if is_null cur then acquire_current_write_packet else mret tt);;
  cur ← gets ps_current_write_packet;
  lift (ff_assert (negb (is_null cur)));;
  match cur with
  | None => mret FF_FAILURE
  | Some current_write_packet =>
      lift (ff_assert (is_open_type (mrpc_packet_get_type current_write_packet)));;
      packet ← write_loop (length buf + 2) current_write_packet buf;
      set_current_write_packet (Some packet);;
      mret FF_SUCCESS
  end.

Definition mrpc_packet_stream_flush : M PS ff_result :=
  cur ← gets ps_current_write_packet;
  lift (ff_assert (negb (is_null cur)));;
  match cur with
  | None => mret FF_FAILURE
  | Some current_write_packet =>
      let packet_type := mrpc_packet_get_type current_write_packet in
      lift (ff_assert (is_open_type packet_type));;
      let packet_type := if bool_decide (packet_type = MRPC_PACKET_START)
                         then MRPC_PACKET_SINGLE else MRPC_PACKET_END in
      let current_write_packet := mrpc_packet_set_type current_write_packet packet_type in
      on_writer_queue (ff_blocking_queue_put (Some current_write_packet));;
      packet ← acquire_packet MRPC_PACKET_END;
      set_current_write_packet (Some packet);;
      mret FF_SUCCESS
  end.

Definition mrpc_packet_stream_disconnect : M PS unit :=
  packet ← acquire_packet MRPC_PACKET_END;
  on_reader_queue (ff_blocking_queue_put packet).

Definition mrpc_packet_stream_push_packet (packet : mrpc_packet) : M PS unit :=
  on_reader_queue (ff_blocking_queue_put packet).
End operations.

(** ** What a reader and a writer can observe *)

(** The bytes which follow a packet of type [t] in a reader queue: the payloads
    up to the end of the message or to the first packet which cannot follow. *)
Fixpoint tail_bytes (t : mrpc_packet_type) (rest : list mrpc_packet) : list byte :=
  if is_last_type t then []
  else match rest with
       | [] => []
       | p :: rest =>
           if is_first_type (pk_type p) then []
           else packet_payload p ++ tail_bytes (pk_type p) rest
       end.

Definition next_type (ps : list mrpc_packet) : mrpc_packet_type :=
  match ps with [] => MRPC_PACKET_START | _ => MRPC_PACKET_MIDDLE end.

(** Packets which a writer has completed: full ones, START first and MIDDLE
    afterwards, all with the request id of the stream. *)
Fixpoint full_packets (id : byte) (t : mrpc_packet_type) (ps : list mrpc_packet) : Prop :=
  match ps with
  | [] => True
  | p :: ps => packet_inv p ∧ pk_curr_pos p = 0 ∧ pk_size p = MAX_PACKET_SIZE ∧
      pk_request_id p = id ∧ pk_type p = t ∧ full_packets id MRPC_PACKET_MIDDLE ps
  end.

Definition payloads (ps : list mrpc_packet) : list byte := mjoin (packet_payload <$> ps).

(** A message: the packets a writer produces for [body]. *)
Definition message (id : byte) (ps : list mrpc_packet) (body : list byte) : Prop :=
  ∃ init lst, ps = init ++ [lst] ∧ full_packets id MRPC_PACKET_START init ∧
    packet_inv lst ∧ pk_curr_pos lst = 0 ∧ pk_request_id lst = id ∧
    pk_type lst = (if decide (init = []) then MRPC_PACKET_SINGLE else MRPC_PACKET_END) ∧
    (init ≠ [] → 0 < pk_size lst) ∧ payloads ps = body.

Section views.
Context {Q W P : Type} `{PacketPool P} `{FFBlockingQueue Q mrpc_packet}
  `{FFBlockingQueue W (option mrpc_packet)}.
Implicit Types st : mrpc_packet_stream Q W P.

Definition arrived st : list mrpc_packet := queue_contents (ps_reader_queue st).

(** A first packet has arrived (or was already taken). *)
Definition ps_started st : bool :=
  match ps_current_read_packet st with
  | Some _ => true
  | None => match arrived st with p :: _ => is_first_type (pk_type p) | [] => false end
  end.

(** The bytes a reader can still obtain. *)
Definition ps_incoming st : list byte :=
  match ps_current_read_packet st with
  | Some p => packet_payload p ++ tail_bytes (pk_type p) (arrived st)
  | None =>
      match arrived st with
      | p :: rest => if is_first_type (pk_type p)
                     then packet_payload p ++ tail_bytes (pk_type p) rest else []
      | [] => []
      end
  end.

Record ps_inv st : Prop := {
  ps_pool_inv : pool_inv (ps_pool st);
  ps_arrived_inv : Forall packet_inv (arrived st);
  ps_read_inv : from_option packet_inv True (ps_current_read_packet st);
  ps_write_inv : from_option packet_inv True (ps_current_write_packet st)
}.

Definition count (p : option mrpc_packet) : Z := if is_null p then 0 else 1.

(** The packets for which the stream or its queues are responsible. *)
Definition ps_owned st : Z :=
  count (ps_current_read_packet st) + count (ps_current_write_packet st) +
  zlength (arrived st) + zlength (queue_contents (ps_writer_queue st)).

(** Packets in circulation outside of this stream. *)
Definition ps_foreign st : Z := pool_out (ps_pool st) - ps_owned st.

(** The reader's operations leave the writer's half alone, and conversely. *)
Definition same_writer st st' : Prop :=
  ps_writer_queue st' = ps_writer_queue st ∧
  ps_current_write_packet st' = ps_current_write_packet st ∧
  ps_request_id st' = ps_request_id st.

Definition same_reader st st' : Prop :=
  ps_reader_queue st' = ps_reader_queue st ∧
  ps_current_read_packet st' = ps_current_read_packet st ∧
  ps_request_id st' = ps_request_id st.

(** The writer has accepted [sent] and not flushed it; it has put [ps] on the
    writer queue, from where the connection may have taken them already. *)
Definition ps_writing (ps : list mrpc_packet) (sent : list byte) st : Prop :=
  full_packets (ps_request_id st) MRPC_PACKET_START ps ∧
  match ps_current_write_packet st with
  | None => ps = [] ∧ sent = []
  | Some p => packet_inv p ∧ pk_curr_pos p = 0 ∧ pk_request_id p = ps_request_id st ∧
      pk_type p = next_type ps ∧ (ps ≠ [] → 0 < pk_size p) ∧
      sent = payloads ps ++ packet_payload p
  end.

(** The writer has flushed [sent] as the packets [ps]. *)
Definition ps_flushed (ps : list mrpc_packet) (sent : list byte) st : Prop :=
  message (ps_request_id st) ps sent ∧
  ∃ p, ps_current_write_packet st = Some p ∧ pk_type p = MRPC_PACKET_END ∧ pk_size p = 0.

(** [st'] has put [new] on the writer queue. *)
Definition queued (new : list mrpc_packet) st st' : Prop :=
  queue_contents (ps_writer_queue st') = queue_contents (ps_writer_queue st) ++ (Some <$> new).
End views.

(** ** Symbolic execution of stream operations *)

Section exec.
Context {Q W P : Type} `{PacketPoolSpec P} `{FFBlockingQueueSpec Q mrpc_packet}
  `{FFBlockingQueueSpec W (option mrpc_packet)}.
Implicit Types (pool : P) (rq : Q) (wq : W).

Lemma wp_gets {A} (f : mrpc_packet_stream Q W P → A) st (R : A * _ → Prop) :
  wp (gets f st) R ↔ R (f st, st).
Proof. done. Qed.

Lemma wp_on_pool {A} (m : M P A) pool rq wq cr cw id (R : A * mrpc_packet_stream Q W P → Prop) :
  wp (m pool) (λ r, R (r.1, PacketStream (r.2) rq wq cr cw id)) →
  wp (on_pool m (PacketStream pool rq wq cr cw id)) R.
Proof. unfold on_pool. cbn. by destruct (m pool) as [[a p]|]. Qed.

Lemma wp_on_reader_queue {A} (m : M Q A) pool rq wq cr cw id (R : A * mrpc_packet_stream Q W P → Prop) :
  wp (m rq) (λ r, R (r.1, PacketStream pool (r.2) wq cr cw id)) →
  wp (on_reader_queue m (PacketStream pool rq wq cr cw id)) R.
Proof. unfold on_reader_queue. cbn. by destruct (m rq) as [[a p]|]. Qed.

Lemma wp_on_writer_queue {A} (m : M W A) pool rq wq cr cw id (R : A * mrpc_packet_stream Q W P → Prop) :
  wp (m wq) (λ r, R (r.1, PacketStream pool rq (r.2) cr cw id)) →
  wp (on_writer_queue m (PacketStream pool rq wq cr cw id)) R.
Proof. unfold on_writer_queue. cbn. by destruct (m wq) as [[a p]|]. Qed.

(** An acquired packet is empty and carries the type and the request id. *)
Lemma wp_acquire_packet t pool rq wq cr cw id (R : mrpc_packet * mrpc_packet_stream Q W P → Prop) :
  t ≠ MRPC_PACKET_SINGLE → pool_inv pool →
  (∀ p pool', packet_inv p → pk_curr_pos p = 0 → pk_size p = 0 → packet_payload p = [] →
     pk_type p = t → pk_request_id p = id →
     pool_inv pool' → pool_out pool' = pool_out pool + 1 →
     R (p, PacketStream pool' rq wq cr cw id)) →
  wp (acquire_packet t (PacketStream pool rq wq cr cw id)) R.
Proof.
  intros Ht Hpool HR. unfold acquire_packet.
  rewrite wp_M_bind, wp_lift, wp_assert. split; [by apply bool_decide_eq_true_2|].
  cbn [fst snd]. rewrite wp_M_bind. apply wp_on_pool.
  eapply wp_mono; [by apply acquire_packet_func_spec|].
  intros [p pool'] (Hp & Hpool' & Hout). cbn [fst snd]. cbn. apply HR; try done.
  - apply packet_empty_inv in Hp. destruct Hp. by split.
  - apply Hp.
  - apply Hp.
  - by apply packet_empty_payload in Hp.
Qed.

Lemma wp_release_packet p pool rq wq cr cw id (R : unit * mrpc_packet_stream Q W P → Prop) :
  packet_inv p → pool_inv pool →
  (∀ pool', pool_inv pool' → pool_out pool' = pool_out pool - 1 →
     R (tt, PacketStream pool' rq wq cr cw id)) →
  wp (release_packet p (PacketStream pool rq wq cr cw id)) R.
Proof.
  intros [Hp _ _] Hpool HR. apply wp_on_pool.
  eapply wp_mono; [by apply release_packet_func_spec|].
  intros [[] pool'] [? ?]. by apply HR.
Qed.
End exec.

(** Step through an operation on a concrete state; conditions of assertions are
    left to the caller when they are not evident. *)
Ltac ps_step :=
  match goal with
  | |- wp ((gets _ ≫= _) _) _ => rewrite wp_M_bind, wp_gets
  | |- wp ((lift (ff_assert _) ≫= _) _) _ =>
      rewrite wp_M_bind, wp_lift, wp_assert; split;
      [first [reflexivity | done | apply bool_decide_eq_true_2; lia | idtac]|]
  | |- wp ((acquire_packet _ ≫= _) _) _ =>
      rewrite wp_M_bind; apply wp_acquire_packet; [done|done|]
  | |- wp ((release_packet _ ≫= _) _) _ =>
      rewrite wp_M_bind; apply wp_release_packet; [done|done|]
  | |- wp ((set_current_read_packet _ ≫= _) _) _ =>
      rewrite wp_M_bind; unfold set_current_read_packet; cbn [wp]
  | |- wp ((set_current_write_packet _ ≫= _) _) _ =>
      rewrite wp_M_bind; unfold set_current_write_packet; cbn [wp]
  | |- wp (set_current_read_packet _ _) _ => unfold set_current_read_packet; cbn [wp]
  | |- wp (set_current_write_packet _ _) _ => unfold set_current_write_packet; cbn [wp]
  | |- wp (set_request_id _ _) _ => unfold set_request_id; cbn [wp]
  | |- wp ((mret _ ≫= _) _) _ => rewrite wp_M_bind; cbn [wp mret M_ret]
  | |- wp ((_ ≫= _) _) _ => rewrite wp_M_bind
  | |- wp (mret _ _) _ => cbn [wp mret M_ret]
  end; cbn [fst snd is_null ps_pool ps_reader_queue ps_writer_queue ps_current_read_packet
            ps_current_write_packet ps_request_id negb].

#[export] Instance counting_pool_spec : PacketPoolSpec Z.
Proof.
  split; [intros p _|intros p packet _ _]; cbn; [|done].
  split; [apply packet_create_empty|done].
Qed.

(** ** Reading *)

Lemma tail_bytes_last t rest : is_last_type t = true → tail_bytes t rest = [].
Proof. intros Ht. destruct rest; cbn; by rewrite Ht. Qed.

Lemma tail_bytes_nil t : tail_bytes t [] = [].
Proof. cbn. by destruct (is_last_type t). Qed.

Lemma tail_bytes_cons t p rest : is_last_type t = false →
  tail_bytes t (p :: rest) =
  if is_first_type (pk_type p) then [] else packet_payload p ++ tail_bytes (pk_type p) rest.
Proof. intros Ht. cbn. by rewrite Ht. Qed.

Section reading.
Context {Q W P : Type} `{PacketPoolSpec P} `{FFBlockingQueueSpec Q mrpc_packet}
  `{FFBlockingQueueSpec W (option mrpc_packet)}.
Implicit Types (pool : P) (rq : Q) (wq : W) (st : mrpc_packet_stream Q W P).

(** The loop delivers the bytes of the current packet and of the packets
    which follow it; it stops short exactly when there are not enough. *)
Definition read_loop_post (B got : list byte) (len : Z) pool rq wq cr cw id
    (r : ff_result * list byte * mrpc_packet * mrpc_packet_stream Q W P) : Prop :=
  ∃ pool' rq' new, r.2 = PacketStream pool' rq' wq cr cw id ∧
    pool_inv pool' ∧ Forall packet_inv (queue_contents rq') ∧ packet_inv (r.1.2) ∧
    r.1.1.2 = got ++ new ∧
    pool_out pool' - zlength (queue_contents rq') = pool_out pool - zlength (queue_contents rq) ∧
    match r.1.1.1 with
    | FF_SUCCESS => zlength new = len ∧
        B = new ++ packet_payload (r.1.2) ++ tail_bytes (pk_type (r.1.2)) (queue_contents rq')
    | FF_FAILURE => zlength B < len ∧ new = B
    end.

(** One round which uses up a packet, followed by the rounds for the rest. *)
Lemma read_loop_post_app data B' got len pool rq pool1 rq1 wq cr cw id r :
  pool_out pool1 - zlength (queue_contents rq1) = pool_out pool - zlength (queue_contents rq) →
  read_loop_post B' (got ++ data) (len - zlength data) pool1 rq1 wq cr cw id r →
  read_loop_post (data ++ B') got len pool rq wq cr cw id r.
Proof.
  intros Hout (pool' & rq' & new & ? & ? & ? & ? & Hgot & ? & Hres).
  exists pool', rq', (data ++ new). rewrite Hgot, <- app_assoc.
  do 5 (split; [done|]). split; [lia|].
  destruct (r.1.1.1); destruct Hres as [Hl ->]; autorewrite with zlen.
  - split; [lia|]. by rewrite <- app_assoc.
  - split; [lia|done].
Qed.

Lemma read_loop_spec fuel p len got pool rq wq cr cw id :
  packet_inv p → pool_inv pool → Forall packet_inv (queue_contents rq) →
  0 <= len → (length (queue_contents rq) + 2 <= fuel)%nat →
  wp (read_loop fuel p (pk_type p) len got (PacketStream pool rq wq cr cw id))
    (read_loop_post (packet_payload p ++ tail_bytes (pk_type p) (queue_contents rq))
       got len pool rq wq cr cw id).
Proof.
  revert p len got pool rq. induction fuel as [|fuel IH];
    intros p len got pool rq Hp Hpool Hrq Hlen Hfuel; [lia|].
  cbn [read_loop]. case_bool_decide as Hpos; cbn [negb].
  2:{ exists pool, rq, []. cbn. rewrite app_nil_r. do 6 (split; [done|]). split; [zlen|done]. }
  rewrite wp_M_bind, wp_lift. eapply wp_mono; [by apply packet_read_data_spec|].
  intros [data p'] (Hp' & Hdl & Hpay & Htype & _). cbn [fst snd].
  pose proof (zlength_nonneg data). do 2 ps_step.
  assert (zlength (packet_payload p) = zlength data + zlength (packet_payload p')) as Hpl
    by (rewrite Hpay; zlen).
  pose proof (zlength_nonneg (packet_payload p')).
  case_bool_decide as Hmore; cbn [negb].
  2:{ (* the packet had enough *)
      destruct fuel as [|fuel]; [lia|]. cbn [read_loop].
      rewrite bool_decide_eq_false_2 by lia. cbn [negb].
      exists pool, rq, data. cbn. do 6 (split; [done|]). split; [lia|].
      by rewrite Htype, Hpay, <- app_assoc. }
  assert (packet_payload p' = []) as Hnil.
  { apply length_zero_iff_nil. unfold zlength in *. lia. }
  rewrite Hpay, Hnil, app_nil_r.
  destruct (is_last_type (pk_type p)) eqn:Hlast.
  { (* the message ended *)
    rewrite tail_bytes_last, app_nil_r by done. exists pool, rq, data. cbn.
    do 6 (split; [done|]). split; (lia || done). }
  rewrite wp_M_bind. apply wp_on_reader_queue.
  eapply wp_mono; [apply queue_get_timeout_spec|]. intros [next rq1] Hget.
  cbn [fst snd]. destruct (queue_contents rq) as [|q rest] eqn:Hq.
  { (* no packet before the timeout *)
    destruct Hget as [-> Hrq1]. rewrite tail_bytes_nil, app_nil_r.
    exists pool, rq1, data. cbn. rewrite Hrq1, Hq.
    do 6 (split; [done|]). split; (lia || done). }
  destruct Hget as [-> Hrq1]. apply Forall_cons in Hrq as [Hqinv Hrest].
  rewrite tail_bytes_cons by done. unfold mrpc_packet_get_type. destruct (is_first_type (pk_type q)) eqn:Hfirst.
  { (* a packet which cannot follow: it is released *)
    ps_step. intros pool1 Hpool1 Hout1. cbn. exists pool1, rq1, data. cbn.
    rewrite Hrq1, Hq, app_nil_r, zlength_cons.
    do 5 (split; [done|]). split; [lia|]. split; (lia || done). }
  ps_step. intros pool1 Hpool1 Hout1. cbn [fst snd].
  eapply wp_mono.
  { apply (IH q _ (got ++ data) pool1 rq1); rewrite ?Hrq1; try done; [lia|].
    simpl in Hfuel. lia. }
  intros r Hr. apply (read_loop_post_app _ _ _ _ pool rq pool1 rq1).
  { rewrite Hrq1, Hq, zlength_cons. lia. }
  by rewrite Hrq1 in Hr.
Qed.

Lemma stream_read_spec len st :
  ps_inv st → 0 <= len →
  wp (mrpc_packet_stream_read len st) (λ '(r, data, st'),
    ps_inv st' ∧ same_writer st st' ∧ ps_foreign st' = ps_foreign st ∧
    match r with
    | FF_SUCCESS => ps_started st = true ∧ zlength data = len ∧
        ps_incoming st = data ++ ps_incoming st' ∧ ps_started st' = true
    | FF_FAILURE => (ps_started st = false ∧ data = []) ∨
        (ps_started st = true ∧ zlength (ps_incoming st) < len ∧ data = ps_incoming st ∧ ps_started st' = true)
    end).
Proof.
  intros [Hpool Harr Hread Hwrite] Hlen. unfold mrpc_packet_stream_read, reader_rounds.
  destruct st as [pool rq wq cr cw id]. unfold arrived in *. cbn in *.
  ps_step. ps_step. rewrite wp_M_bind. destruct cr as [p|]; cbn [is_null].
  - (* a current packet exists *)
    cbn [wp mret M_ret fst snd]. do 3 ps_step. rewrite wp_M_bind.
    eapply wp_mono; [by apply read_loop_spec|].
    intros [[[r data] p'] st'] (pool' & rq' & new & Hst & Hpool' & Harr' & Hp' & Hnew & Hout & Hres).
    cbn in *. subst st' data. cbn.
    split; [by split|]. split; [done|]. split; [unfold ps_foreign, ps_owned; cbn; unfold arrived; cbn; lia|].
    unfold ps_incoming, ps_started. cbn. unfold arrived. cbn.
    destruct r; destruct Hres as [Hl ->]; [done|by right].
  - (* the first packet is prefetched *)
    unfold prefetch_current_read_packet. ps_step. ps_step. rewrite wp_M_bind.
    apply wp_on_reader_queue. eapply wp_mono; [apply queue_get_timeout_spec|].
    intros [got rq1] Hget. cbn [fst snd].
    unfold ps_incoming, ps_started, arrived. cbn.
    destruct (queue_contents rq) as [|q rest] eqn:Hq.
    { destruct Hget as [-> Hrq1]. cbn. split; [split; cbn; unfold arrived; cbn; rewrite ?Hrq1; done|].
      split; [done|]. split; [|by left].
      unfold ps_foreign, ps_owned, arrived. cbn. by rewrite Hrq1, Hq. }
    destruct Hget as [-> Hrq1]. apply Forall_cons in Harr as [Hqinv Hrest].
    unfold mrpc_packet_get_type. destruct (is_first_type (pk_type q)) eqn:Hfirst; cbn [negb].
    + do 5 ps_step. rewrite wp_M_bind. eapply wp_mono; [apply read_loop_spec; by rewrite ?Hrq1|].
      intros [[[r data] p'] st'] (pool' & rq' & new & Hst & Hpool' & Harr' & Hp' & Hnew & Hout & Hres).
      cbn in *. subst st' data. cbn.
      split; [by split|]. split; [done|].
      split; [unfold ps_foreign, ps_owned, arrived; cbn; rewrite Hrq1 in Hout; rewrite Hq, zlength_cons; unfold count; cbn; lia|].
      rewrite Hrq1 in Hres. destruct r; destruct Hres as [Hl ->]; [done|by right].
    + ps_step. intros pool1 Hpool1 Hout1. cbn.
      split; [split; cbn; unfold arrived; cbn; rewrite ?Hrq1; done|].
      split; [done|]. split; [|by left].
      unfold ps_foreign, ps_owned, arrived. cbn. rewrite Hrq1, Hq, zlength_cons. lia.
Qed.
End reading.

(** ** Writing *)

Lemma full_packets_snoc id t ps p :
  full_packets id t ps → packet_inv p → pk_curr_pos p = 0 → pk_size p = MAX_PACKET_SIZE →
  pk_request_id p = id → pk_type p = (match ps with [] => t | _ => MRPC_PACKET_MIDDLE end) →
  full_packets id t (ps ++ [p]).
Proof.
  revert t. induction ps as [|q ps IH]; intros t Hps Hp Hpos Hsz Hid Ht; cbn in *; [done|].
  destruct Hps as (? & ? & ? & ? & ? & Hps). do 5 (split; [done|]).
  apply IH; try done. by destruct ps.
Qed.

Lemma payloads_app ps qs : payloads (ps ++ qs) = payloads ps ++ payloads qs.
Proof. unfold payloads. by rewrite fmap_app, join_app. Qed.

Lemma payloads_cons p ps : payloads (p :: ps) = packet_payload p ++ payloads ps.
Proof. done. Qed.

Lemma payloads_one p : payloads [p] = packet_payload p.
Proof. unfold payloads. cbn. apply app_nil_r. Qed.

Section writing.
Context {Q W P : Type} `{PacketPoolSpec P} `{FFBlockingQueueSpec Q mrpc_packet}
  `{FFBlockingQueueSpec W (option mrpc_packet)}.
Implicit Types (pool : P) (rq : Q) (wq : W) (st : mrpc_packet_stream Q W P).

(** The packet being filled, after the packets [ps] of the same message. *)
Definition filling (id : byte) (ps : list mrpc_packet) (p : mrpc_packet) : Prop :=
  full_packets id MRPC_PACKET_START ps ∧ packet_inv p ∧ pk_curr_pos p = 0 ∧
  pk_request_id p = id ∧ pk_type p = next_type ps.

Lemma filling_next id ps p q :
  filling id ps p → pk_size p = MAX_PACKET_SIZE → packet_inv q → pk_curr_pos q = 0 →
  pk_request_id q = id → pk_type q = MRPC_PACKET_MIDDLE → filling id (ps ++ [p]) q.
Proof.
  intros (Hps & Hp & Hpos & Hid & Ht) Hfull Hq Hqpos Hqid Hqt.
  split; [by apply full_packets_snoc|]. do 3 (split; [done|]).
  rewrite Hqt. by destruct ps.
Qed.

(** The packets [ps] of the message have left for the writer queue before. *)
Lemma write_loop_spec ps fuel p bs pool rq wq cr cw id :
  filling id ps p → pool_inv pool →
  (ps ≠ [] → bs = [] → 0 < pk_size p) →
  (length bs + (if decide (pk_size p = MAX_PACKET_SIZE) then 2 else 1) <= fuel)%nat →
  wp (write_loop fuel p bs (PacketStream pool rq wq cr cw id)) (λ '(p', st'),
    ∃ pool' wq' new, st' = PacketStream pool' rq wq' cr cw id ∧ pool_inv pool' ∧
      queue_contents wq' = queue_contents wq ++ (Some <$> new) ∧ filling id (ps ++ new) p' ∧
      (ps ++ new ≠ [] → 0 < pk_size p') ∧ pool_out pool' = pool_out pool + zlength new ∧
      payloads (ps ++ new) ++ packet_payload p' = payloads ps ++ packet_payload p ++ bs).
Proof.
  revert ps p bs pool wq. induction fuel as [|fuel IH];
    intros ps p bs pool wq Hfill Hpool Hne Hfuel.
  { destruct (decide _); lia. }
  cbn [write_loop]. case_bool_decide as Hlen; cbn [negb].
  2:{ destruct bs; [|zlen]. exists pool, wq, []. rewrite !app_nil_r, Z.add_0_r.
      do 4 (split; [done|]). split; [auto|done]. }
  pose proof Hfill as (Hps & Hp & Hpos & Hid & Ht).
  rewrite wp_M_bind, wp_lift. eapply wp_mono; [by apply packet_write_data_spec|].
  intros [n p1] (Hp1 & Hpos1 & Hn & Hsz1 & Hpay1 & Ht1 & Hid1). cbn [fst snd].
  pose proof (packet_size p Hp). pose proof (packet_pos p Hp).
  do 2 ps_step.
  assert (Hfill1 : filling id ps p1).
  { do 2 (split; [done|]). split; [done|]. split; congruence. }
  assert (Hdl : length (drop (Z.to_nat n) bs) = (length bs - Z.to_nat n)%nat) by apply length_drop.
  case_bool_decide as Hmore.
  - (* the packet is full: queue it and continue in a fresh one *)
    unfold zlength in Hmore, Hn. rewrite Hdl in Hmore.
    assert (pk_size p1 = MAX_PACKET_SIZE) as Hfull by lia.
    rewrite wp_M_bind. apply wp_on_writer_queue.
    eapply wp_mono; [apply queue_put_spec|]. intros [[] wq1] Hwq1. cbn [fst snd].
    ps_step. intros q pool1 Hq Hqpos Hqsz Hqpay Hqt Hqid Hpool1 Hout1. cbn [fst snd].
    eapply wp_mono.
    { apply (IH (ps ++ [p1]) q _ pool1 wq1); [by apply filling_next|done| |].
      - intros _ Hnil. apply (f_equal length) in Hnil. rewrite Hdl in Hnil. simpl in Hnil. lia.
      - rewrite Hdl. rewrite decide_False by (rewrite max_packet_size; lia).
        destruct (decide (pk_size p = MAX_PACKET_SIZE)); lia. }
    intros [p' st'] (pool' & wq' & new & -> & Hpool' & Hwq' & Hrest).
    rewrite <- app_assoc in Hrest. destruct Hrest as (Hfill' & Hne' & Hout' & Hpay').
    exists pool', wq', (p1 :: new). split; [done|]. split; [done|].
    split; [by rewrite Hwq', Hwq1, <- app_assoc|]. do 2 (split; [done|]).
    split; [rewrite zlength_cons; lia|].
    cbn [app] in Hpay'. rewrite Hpay', payloads_app, payloads_one, Hqpay, Hpay1. cbn [app].
    rewrite <- !app_assoc. by rewrite take_drop.
  - (* everything fitted *)
    assert (Hnil : drop (Z.to_nat n) bs = []).
    { apply length_zero_iff_nil. unfold zlength in Hmore. lia. }
    destruct fuel as [|fuel]; [destruct (decide _); unfold zlength in *; lia|].
    rewrite Hnil. cbn [write_loop]. rewrite bool_decide_eq_false_2 by (rewrite zlength_nil; lia).
    cbn [negb wp mret M_ret]. exists pool, wq, []. rewrite !app_nil_r, Z.add_0_r.
    do 4 (split; [done|]).
    split; [intros _; unfold zlength in *; rewrite length_drop in Hmore; lia|]. split; [done|].
    rewrite Hpay1. do 2 f_equal. rewrite <- (take_drop (Z.to_nat n) bs) at 2.
    by rewrite Hnil, app_nil_r.
Qed.

Lemma open_type_next ps : is_open_type (next_type ps) = true.
Proof. by destruct ps. Qed.

(** The part of [mrpc_packet_stream_write] which has a packet to continue with. *)
Lemma write_continue_spec ps p bs pool rq wq cr id :
  pool_inv pool → filling id ps p → (ps ≠ [] → 0 < pk_size p) →
  wp ((cur ← gets ps_current_write_packet;
       lift (ff_assert (negb (is_null cur)));;
       match cur with
       | None => mret FF_FAILURE
       | Some current_write_packet =>
           lift (ff_assert (is_open_type (mrpc_packet_get_type current_write_packet)));;
           packet ← write_loop (length bs + 2) current_write_packet bs;
           set_current_write_packet (Some packet);;
           mret FF_SUCCESS
       end) (PacketStream pool rq wq cr (Some p) id)) (λ '(r, st'),
    ∃ pool' wq' new p', r = FF_SUCCESS ∧
      st' = PacketStream pool' rq wq' cr (Some p') id ∧ pool_inv pool' ∧
      queue_contents wq' = queue_contents wq ++ (Some <$> new) ∧ packet_inv p' ∧
      pool_out pool' = pool_out pool + zlength new ∧
      ps_writing (ps ++ new) (payloads ps ++ packet_payload p ++ bs) st').
Proof.
  intros Hpool Hfill Hne. do 2 ps_step. ps_step.
  { unfold mrpc_packet_get_type. destruct Hfill as (_ & _ & _ & _ & ->). apply open_type_next. }
  rewrite wp_M_bind. eapply wp_mono.
  { apply (write_loop_spec ps); [done|done|auto|]. destruct (decide _); lia. }
  intros [p' st'] (pool' & wq' & new & -> & Hpool' & Hwq' & Hfill' & Hne' & Hout' & Hpay').
  cbn [fst snd]. do 2 ps_step. exists pool', wq', new, p'.
  destruct Hfill' as (Hfull' & Hp' & Hpos' & Hid' & Ht').
  do 6 (split; [done|]). split; [done|]. do 5 (split; [done|]).
  exact (eq_sym Hpay').
Qed.

Lemma stream_write_spec ps sent bs st :
  ps_inv st → ps_writing ps sent st →
  wp (mrpc_packet_stream_write bs st) (λ '(r, st'),
    r = FF_SUCCESS ∧ ps_inv st' ∧ same_reader st st' ∧ ps_foreign st' = ps_foreign st ∧
    is_null (ps_current_write_packet st') = false ∧
    ∃ new, queued new st st' ∧ ps_writing (ps ++ new) (sent ++ bs) st').
Proof.
  intros [Hpool Harr Hread Hwrite] (Hfull & Hcur).
  destruct st as [pool rq wq cr cw id]. unfold arrived in *. cbn in *.
  unfold mrpc_packet_stream_write. ps_step; [apply bool_decide_eq_true_2; zlen|]. ps_step.
  rewrite wp_M_bind.
  assert (∀ pool1 p, pool_inv pool1 → filling id ps p → (ps ≠ [] → 0 < pk_size p) →
    pool_out pool1 - 1 = pool_out pool - count cw → sent = payloads ps ++ packet_payload p →
    ∀ r st', (∃ pool' wq' new p', r = FF_SUCCESS ∧
      st' = PacketStream pool' rq wq' cr (Some p') id ∧ pool_inv pool' ∧
      queue_contents wq' = queue_contents wq ++ (Some <$> new) ∧ packet_inv p' ∧
      pool_out pool' = pool_out pool1 + zlength new ∧
      ps_writing (ps ++ new) (payloads ps ++ packet_payload p ++ bs) st') →
    r = FF_SUCCESS ∧ ps_inv st' ∧ same_reader (PacketStream pool rq wq cr cw id) st' ∧
    ps_foreign st' = ps_foreign (PacketStream pool rq wq cr cw id) ∧
    is_null (ps_current_write_packet st') = false ∧
    ∃ new, queued new (PacketStream pool rq wq cr cw id) st' ∧
      ps_writing (ps ++ new) (sent ++ bs) st') as Hpost.
  { intros pool1 p _ _ _ Hout -> r st'
      (pool' & wq' & new & p' & -> & -> & Hpool' & Hwq' & Hp' & Hout' & Hw').
    split; [done|]. split; [by split|]. split; [done|].
    split; [unfold ps_foreign, ps_owned, arrived, count in *; cbn in *; rewrite Hwq', zlength_app, zlength_fmap; lia|].
    split; [done|]. exists new. split; [done|]. by rewrite <- app_assoc. }
  destruct cw as [p|]; cbn [is_null].
  - ps_step. destruct Hcur as (Hp & Hpos & Hid & Ht & Hne & Hsent).
    assert (filling id ps p) as Hfill by (by do 4 (split; [done|])).
    eapply wp_mono; [by apply (write_continue_spec ps p)|].
    intros [r st']. by apply (Hpost pool p).
  - destruct Hcur as [-> ->]. unfold acquire_current_write_packet. do 2 ps_step.
    ps_step. intros p pool1 Hp Hpos Hsz Hpay Ht Hid Hpool1 Hout1. cbn [fst snd]. ps_step.
    assert (filling id [] p) as Hfill by (by do 4 (split; [done|])).
    eapply wp_mono; [by apply (write_continue_spec [] p)|].
    intros [r st']. apply (Hpost pool1 p); try done. unfold count; cbn. lia.
Qed.

Lemma stream_flush_spec ps sent st :
  ps_inv st → ps_writing ps sent st → is_null (ps_current_write_packet st) = false →
  wp (mrpc_packet_stream_flush st) (λ '(r, st'),
    r = FF_SUCCESS ∧ ps_inv st' ∧ same_reader st st' ∧ ps_foreign st' = ps_foreign st ∧
    ∃ lst, queued [lst] st st' ∧ ps_flushed (ps ++ [lst]) sent st').
Proof.
  intros [Hpool Harr Hread Hwrite] (Hfull & Hcur) Hnull.
  destruct st as [pool rq wq cr cw id]. unfold arrived in *. cbn in *.
  destruct cw as [p|]; [|done]. destruct Hcur as (Hp & Hpos & Hid & Ht & Hne & ->).
  unfold mrpc_packet_stream_flush, mrpc_packet_get_type. do 2 ps_step.
  ps_step; [rewrite Ht; apply open_type_next|].
  rewrite wp_M_bind. apply wp_on_writer_queue.
  eapply wp_mono; [apply queue_put_spec|]. intros [[] wq1] Hwq1. cbn [fst snd].
  ps_step. intros q pool1 Hq Hqpos Hqsz Hqpay Hqt Hqid Hpool1 Hout1. cbn [fst snd].
  do 2 ps_step. split; [done|]. split; [by split|]. split; [done|]. split.
  { unfold ps_foreign, ps_owned, arrived, count. cbn. rewrite Hwq1. unfold zlength. rewrite length_app. cbn [length]. lia. }
  set (lst := mrpc_packet_set_type p _) in *.
  exists lst. split; [done|]. split; [|by exists q]. exists ps, lst. split; [done|]. split; [done|].
  split; [by apply packet_set_type_inv|]. do 2 (split; [done|]). split.
  - cbn. rewrite Ht. by destruct ps.
  - split; [done|]. by rewrite payloads_app, payloads_one.
Qed.
End writing.

(** ** From the writer to the reader *)

Lemma tail_bytes_message id t init lst qs extra :
  is_last_type t = false → full_packets id MRPC_PACKET_MIDDLE init →
  pk_type lst = MRPC_PACKET_END → Forall2 packet_same qs (init ++ [lst]) →
  tail_bytes t (qs ++ extra) = payloads (init ++ [lst]).
Proof.
  intros Ht Hinit Hlst. revert t qs Ht Hinit. induction init as [|p init IH];
    intros t qs Ht Hinit Hsame; cbn [app] in Hsame;
    apply Forall2_cons_inv_r in Hsame as (q & qs' & (_ & Hqt & _ & _ & Hqp) & Hqs & ->);
    cbn [app]; rewrite tail_bytes_cons by done.
  - apply Forall2_nil_inv_r in Hqs as ->. rewrite Hqt, Hlst, Hqp. cbn [is_first_type].
    by rewrite tail_bytes_last, payloads_one, app_nil_r.
  - destruct Hinit as (_ & _ & _ & _ & Hpt & Hinit).
    rewrite Hqt, Hpt, Hqp. cbn. rewrite IH by done. done.
Qed.

(** A message starts with a first packet, and its payloads are its body. *)
Lemma message_readable id ps body qs extra :
  message id ps body → Forall2 packet_same qs ps →
  ∃ q rest, qs ++ extra = q :: rest ∧ is_first_type (pk_type q) = true ∧
    packet_payload q ++ tail_bytes (pk_type q) rest = body.
Proof.
  intros (init & lst & -> & Hinit & _ & _ & _ & Ht & _ & <-) Hsame.
  destruct init as [|p init]; cbn [app] in Hsame;
    apply Forall2_cons_inv_r in Hsame as (q & qs' & (_ & Hqt & _ & _ & Hqp) & Hqs & ->);
    exists q, (qs' ++ extra); (split; [done|]).
  - rewrite Hqt, Ht, Hqp. split; [done|].
    rewrite tail_bytes_last by done. cbn [app]. by rewrite payloads_one, app_nil_r.
  - destruct Hinit as (_ & _ & _ & _ & Hpt & Hinit). rewrite Hqt, Hpt, Hqp. split; [done|].
    by rewrite (tail_bytes_message id _ init lst).
Qed.

(** Every packet but the last one is full. *)
Lemma full_packets_payloads id t ps : full_packets id t ps →
  zlength (payloads ps) = MAX_PACKET_SIZE * zlength ps.
Proof.
  revert t. induction ps as [|p ps IH]; intros t; [done|].
  intros (Hp & Hpos & Hsz & _ & _ & Hps). rewrite payloads_cons, zlength_app, zlength_cons, (IH _ Hps).
  rewrite packet_payload_length, Hpos, Hsz, max_packet_size by done. lia.
Qed.

(** The number of packets of a message depends on the length of its body only. *)
Lemma message_packets id ps body : message id ps body →
  zlength ps = Z.max 1 ((zlength body + MAX_PACKET_SIZE - 1) / MAX_PACKET_SIZE).
Proof.
  intros (init & lst & -> & Hinit & Hp & Hpos & _ & _ & Hne & <-).
  rewrite payloads_app, payloads_one. autorewrite with zlen.
  change (zlength [lst]) with 1.
  rewrite (full_packets_payloads _ _ _ Hinit), packet_payload_length, Hpos by done.
  pose proof (packet_size _ Hp). pose proof (packet_pos _ Hp). pose proof (zlength_nonneg init).
  rewrite max_packet_size in *. destruct init as [|q init].
  - change (zlength []) with 0 in *.
    assert ((4095 * 0 + (pk_size lst - 0) + 4095 - 1) / 4095 < 2) by (apply Z.div_lt_upper_bound; lia). lia.
  - specialize (Hne ltac:(done)).
    replace (4095 * zlength (q :: init) + (pk_size lst - 0) + 4095 - 1)
      with ((zlength (q :: init) + 1) * 4095 + (pk_size lst - 1)) by lia.
    rewrite Z.div_add_l, (Z.div_small (pk_size lst - 1)) by lia. lia.
Qed.

Section sequences.
Context {Q W P : Type} `{PacketPool P} `{FFBlockingQueue Q mrpc_packet}
  `{FFBlockingQueue W (option mrpc_packet)}.
#[local] Abbreviation PS := (mrpc_packet_stream Q W P).

(** A sequence of writes, up to the first failure. *)
Fixpoint write_chunks (chunks : list (list byte)) : M PS ff_result :=
  match chunks with
  | [] => mret FF_SUCCESS
  | bs :: chunks =>
      r ← mrpc_packet_stream_write bs;
      match r with FF_SUCCESS => write_chunks chunks | FF_FAILURE => mret FF_FAILURE end
  end.

(** A sequence of reads, up to the first failure, and all bytes obtained. *)
Fixpoint read_chunks (lens : list Z) : M PS (ff_result * list byte) :=
  match lens with
  | [] => mret (FF_SUCCESS, [])
  | len :: lens =>
      r ← mrpc_packet_stream_read len;
      match r with
      | (FF_SUCCESS, got) => s ← read_chunks lens; mret (s.1, got ++ s.2)
      | (FF_FAILURE, got) => mret (FF_FAILURE, got)
      end
  end.

Definition write_message (chunks : list (list byte)) : M PS ff_result :=
  r ← write_chunks chunks;
  match r with FF_SUCCESS => mrpc_packet_stream_flush | FF_FAILURE => mret FF_FAILURE end.
End sequences.

Section sequence_specs.
Context {Q W P : Type} `{PacketPoolSpec P} `{FFBlockingQueueSpec Q mrpc_packet}
  `{FFBlockingQueueSpec W (option mrpc_packet)}.
Implicit Types (st : mrpc_packet_stream Q W P).

Lemma queued_trans new1 new2 st st1 st2 :
  queued new1 st st1 → queued new2 st1 st2 → queued (new1 ++ new2) st st2.
Proof. unfold queued. intros H1' H2'. by rewrite H2', H1', fmap_app, app_assoc. Qed.

Lemma same_reader_trans st st1 st2 :
  same_reader st st1 → same_reader st1 st2 → same_reader st st2.
Proof. unfold same_reader. intuition congruence. Qed.

Lemma write_chunks_spec ps sent chunks st :
  ps_inv st → ps_writing ps sent st →
  wp (write_chunks chunks st) (λ '(r, st'),
    r = FF_SUCCESS ∧ ps_inv st' ∧ same_reader st st' ∧ ps_foreign st' = ps_foreign st ∧
    (is_null (ps_current_write_packet st) = false ∨ chunks ≠ [] →
      is_null (ps_current_write_packet st') = false) ∧
    ∃ new, queued new st st' ∧ ps_writing (ps ++ new) (sent ++ mjoin chunks) st').
Proof.
  revert ps sent st. induction chunks as [|bs chunks IH]; intros ps sent st Hst Hw;
    cbn [write_chunks].
  { cbn. do 4 (split; [done|]). split; [by intros [?|?]|].
    exists []. unfold queued. by rewrite !app_nil_r. }
  rewrite wp_M_bind. eapply wp_mono; [by apply stream_write_spec|].
  intros [r st1] (-> & Hst1 & Hr1 & Hf1 & Hn1 & new1 & Hq1 & Hw1). cbn [fst snd].
  eapply wp_mono; [by apply (IH (ps ++ new1))|].
  intros [r st2] (-> & Hst2 & Hr2 & Hf2 & Hn2 & new2 & Hq2 & Hw2).
  do 2 (split; [done|]). split; [by eapply same_reader_trans|]. split; [congruence|].
  split; [auto|]. exists (new1 ++ new2). split; [by eapply queued_trans|].
  by rewrite <- !app_assoc in Hw2.
Qed.

(** What a complete write of a message does. *)
Lemma write_message_spec chunks st :
  ps_inv st → ps_current_write_packet st = None → chunks ≠ [] →
  wp (write_message chunks st) (λ '(r, st'),
    r = FF_SUCCESS ∧ ps_inv st' ∧ same_reader st st' ∧ ps_foreign st' = ps_foreign st ∧
    ∃ ps, queued ps st st' ∧ ps_flushed ps (mjoin chunks) st').
Proof.
  intros Hst Hcur Hne. unfold write_message. rewrite wp_M_bind.
  eapply wp_mono; [apply (write_chunks_spec [] []); [done|]|].
  { split; [done|]. by rewrite Hcur. }
  intros [r st1] (-> & Hst1 & Hr1 & Hf1 & Hn1 & ps & Hq1 & Hw1). cbn [fst snd].
  eapply wp_mono; [by apply stream_flush_spec; auto|].
  intros [r st2] (-> & Hst2 & Hr2 & Hf2 & lst & Hq2 & Hfl).
  do 2 (split; [done|]). split; [by eapply same_reader_trans|]. split; [congruence|].
  exists (ps ++ [lst]). split; [by eapply queued_trans|done].
Qed.

(** Reads of a started stream deliver consecutive bytes; the first one which
    asks for more than there is fails, having delivered the rest. *)
Lemma read_chunks_spec lens st :
  ps_inv st → ps_started st = true → Forall (λ n, 0 <= n) lens →
  wp (read_chunks lens st) (λ '(r, got, st'),
    ps_inv st' ∧ same_writer st st' ∧ ps_foreign st' = ps_foreign st ∧
    r = (if bool_decide (total lens <= zlength (ps_incoming st)) then FF_SUCCESS else FF_FAILURE) ∧
    got = take (Z.to_nat (total lens)) (ps_incoming st) ∧
    (r = FF_SUCCESS → ps_started st' = true ∧ ps_incoming st = got ++ ps_incoming st')).
Proof.
  revert st. induction lens as [|len lens IH]; intros st Hst Hstart Hlens; cbn [read_chunks].
  { cbn. do 3 (split; [done|]). by rewrite bool_decide_eq_true_2 by apply zlength_nonneg. }
  apply Forall_cons in Hlens as [Hlen Hlens]. pose proof (total_nonneg _ Hlens).
  rewrite wp_M_bind. eapply wp_mono; [by apply stream_read_spec|].
  intros [[r data] st1] (Hst1 & Hw1 & Hf1 & Hr). cbn [fst snd].
  change (total (len :: lens)) with (len + total lens). destruct r.
  - destruct Hr as (_ & Hl & Hin & Hs1). rewrite wp_M_bind.
    eapply wp_mono; [by apply IH|]. intros [[r rest] st2] (Hst2 & Hw2 & Hf2 & Hr2 & -> & Hok).
    cbn in *. split; [done|]. split; [unfold same_writer in *; intuition congruence|].
    split; [congruence|]. rewrite Hin. autorewrite with zlen. split.
    { rewrite Hr2. do 2 case_bool_decide; (done || lia). }
    split.
    + rewrite Z2Nat.inj_add by lia. unfold zlength in Hl.
      by rewrite take_app_add' by lia.
    + intros ->. destruct (Hok eq_refl) as [Hs2 Hin2]. split; [done|].
      by rewrite Hin2, <- app_assoc at 1.
  - destruct Hr as [[Hf _]|(_ & Hl & -> & _)]; [congruence|]. cbn.
    do 3 (split; [done|]). rewrite bool_decide_eq_false_2 by lia.
    split; [done|]. split; [|done]. rewrite take_ge; [done|]. unfold zlength in Hl. lia.
Qed.
End sequence_specs.

(** ** Life cycle *)

Section lifecycle.
Context {Q W P : Type} `{PacketPoolSpec P} `{FFBlockingQueueSpec Q mrpc_packet}
  `{FFBlockingQueueSpec W (option mrpc_packet)}.
Implicit Types (pool : P) (rq : Q) (wq : W) (st : mrpc_packet_stream Q W P).

(** A stream as [mrpc_packet_stream_create] and [mrpc_packet_stream_shutdown]
    leave it. *)
Definition ps_idle st : Prop :=
  pool_inv (ps_pool st) ∧ ps_current_read_packet st = None ∧
  ps_current_write_packet st = None ∧ ps_request_id st = x00 ∧ arrived st = [].

Lemma clear_reader_queue_spec fuel pool rq wq cr cw id :
  pool_inv pool → Forall packet_inv (queue_contents rq) →
  (length (queue_contents rq) + 1 <= fuel)%nat →
  wp (clear_reader_queue fuel (PacketStream pool rq wq cr cw id)) (λ '(_, st'),
    ∃ pool' rq', st' = PacketStream pool' rq' wq cr cw id ∧ pool_inv pool' ∧
      queue_contents rq' = [] ∧ pool_out pool' = pool_out pool - zlength (queue_contents rq)).
Proof.
  revert pool rq. induction fuel as [|fuel IH]; intros pool rq Hpool Hrq Hfuel; [lia|].
  cbn [clear_reader_queue]. ps_step. rewrite queue_is_empty_spec.
  destruct (queue_contents rq) as [|q rest] eqn:Hq.
  { cbn. exists pool, rq. rewrite Hq. do 3 (split; [done|]).
    change (zlength (@nil mrpc_packet)) with 0. lia. }
  rewrite bool_decide_eq_false_2 by done. apply Forall_cons in Hrq as [Hqi Hrest].
  rewrite wp_M_bind. apply wp_on_reader_queue.
  eapply wp_mono; [by apply queue_get_spec|]. intros [p rq1] [-> Hrq1]. cbn [fst snd].
  ps_step. intros pool1 Hpool1 Hout1. cbn [fst snd]. simpl in Hfuel.
  eapply wp_mono; [apply (IH pool1 rq1); rewrite ?Hrq1; try done; lia|].
  intros [? st'] (pool' & rq' & -> & Hpool' & Hrq' & Hout').
  exists pool', rq'. do 3 (split; [done|]). rewrite Hout', Hrq1, zlength_cons. lia.
Qed.

Lemma release_current_read_spec pool rq wq cr cw id :
  pool_inv pool → from_option packet_inv True cr →
  wp (release_current_read_packet (PacketStream pool rq wq cr cw id)) (λ '(_, st'),
    ∃ pool', st' = PacketStream pool' rq wq None cw id ∧ pool_inv pool' ∧
      pool_out pool' = pool_out pool - count cr).
Proof.
  intros Hpool Hcr. unfold release_current_read_packet. ps_step.
  destruct cr as [p|]; [|exists pool; unfold count; cbn; do 2 (split; [done|]); lia].
  cbn in Hcr. ps_step. intros pool1 Hpool1 Hout1. cbn [fst snd]. ps_step. by exists pool1.
Qed.

Lemma release_current_write_spec pool rq wq cr cw id :
  pool_inv pool → from_option packet_inv True cw →
  from_option (λ p, pk_type p ≠ MRPC_PACKET_SINGLE) True cw →
  wp (release_current_write_packet (PacketStream pool rq wq cr cw id)) (λ '(_, st'),
    ∃ pool', st' = PacketStream pool' rq wq cr None id ∧ pool_inv pool' ∧
      pool_out pool' = pool_out pool - count cw).
Proof.
  intros Hpool Hcw Ht. unfold release_current_write_packet. ps_step.
  destruct cw as [p|]; [|exists pool; unfold count; cbn; do 2 (split; [done|]); lia].
  cbn in Hcw, Ht. ps_step; [by apply bool_decide_eq_true_2|].
  ps_step. intros pool1 Hpool1 Hout1. cbn [fst snd]. ps_step. by exists pool1.
Qed.

(** Shutting down returns every packet of the stream to the pool; the packets
    on the shared writer queue belong to the connection. *)
Lemma stream_shutdown_spec st :
  ps_inv st →
  from_option (λ p, pk_type p ≠ MRPC_PACKET_SINGLE) True (ps_current_write_packet st) →
  wp (mrpc_packet_stream_shutdown st) (λ '(_, st'),
    ps_idle st' ∧ ps_writer_queue st' = ps_writer_queue st ∧ ps_foreign st' = ps_foreign st).
Proof.
  intros [Hpool Harr Hread Hwrite] Ht. destruct st as [pool rq wq cr cw id].
  unfold arrived in *. cbn in *. unfold mrpc_packet_stream_shutdown.
  rewrite wp_M_bind. eapply wp_mono; [by apply release_current_write_spec|].
  intros [? st'] (pool1 & -> & Hpool1 & Hout1). cbn [fst snd]. do 2 ps_step.
  rewrite wp_M_bind. eapply wp_mono; [by apply release_current_read_spec|].
  intros [? st'] (pool2 & -> & Hpool2 & Hout2). cbn [fst snd]. do 3 ps_step.
  rewrite wp_M_bind. eapply wp_mono; [by apply clear_reader_queue_spec|].
  intros [? st'] (pool3 & rq3 & -> & Hpool3 & Hrq3 & Hout3). cbn [fst snd]. ps_step.
  split; [by do 4 (split; [done|])|]. split; [done|].
  unfold ps_foreign, ps_owned, arrived. cbn. rewrite Hrq3. unfold count in *. cbn in *.
  change (zlength (@nil mrpc_packet)) with 0. lia.
Qed.

Lemma stream_push_spec p st :
  ps_inv st → packet_inv p →
  wp (mrpc_packet_stream_push_packet p st) (λ '(_, st'),
    ps_inv st' ∧ same_writer st st' ∧ arrived st' = arrived st ++ [p] ∧
    ps_current_read_packet st' = ps_current_read_packet st ∧
    ps_foreign st' = ps_foreign st - 1).
Proof.
  intros [Hpool Harr Hread Hwrite] Hp. destruct st as [pool rq wq cr cw id].
  unfold arrived in *. cbn in *. unfold mrpc_packet_stream_push_packet.
  apply wp_on_reader_queue. eapply wp_mono; [apply queue_put_spec|].
  intros [[] rq1] Hrq1. cbn. split.
  { split; try done. unfold arrived. cbn. rewrite Hrq1. by apply Forall_app_2; [|constructor]. }
  unfold ps_foreign, ps_owned, arrived. cbn. rewrite Hrq1. do 3 (split; [done|]).
  unfold zlength. rewrite length_app. cbn [length]. lia.
Qed.

(** Disconnecting appends an empty END packet. *)
Lemma stream_disconnect_spec st :
  ps_inv st →
  wp (mrpc_packet_stream_disconnect st) (λ '(_, st'),
    ps_inv st' ∧ same_writer st st' ∧
    ps_current_read_packet st' = ps_current_read_packet st ∧ ps_foreign st' = ps_foreign st ∧
    ∃ p, arrived st' = arrived st ++ [p] ∧ pk_type p = MRPC_PACKET_END ∧ packet_payload p = []).
Proof.
  intros [Hpool Harr Hread Hwrite]. destruct st as [pool rq wq cr cw id].
  unfold arrived in *. cbn in *. unfold mrpc_packet_stream_disconnect.
  ps_step. intros p pool1 Hp Hpos Hsz Hpay Ht Hid Hpool1 Hout1. cbn [fst snd].
  apply wp_on_reader_queue. eapply wp_mono; [apply queue_put_spec|].
  intros [[] rq1] Hrq1. cbn. split.
  { split; try done. unfold arrived. cbn. rewrite Hrq1. by apply Forall_app_2; [|constructor]. }
  unfold ps_foreign, ps_owned, arrived. cbn. rewrite Hrq1. do 2 (split; [done|]).
  split; [|by exists p].
  unfold zlength. rewrite length_app. cbn [length]. lia.
Qed.

Lemma stream_initialize_spec id st :
  ps_idle st →
  wp (mrpc_packet_stream_initialize id st) (λ '(_, st'),
    ps_inv st' ∧ ps_request_id st' = id ∧ ps_current_write_packet st' = None ∧
    ps_current_read_packet st' = None ∧ arrived st' = [] ∧
    ps_writer_queue st' = ps_writer_queue st ∧ ps_foreign st' = ps_foreign st).
Proof.
  destruct st as [pool rq wq cr cw id0]. unfold arrived.
  intros (Hpool & Hcr & Hcw & Hid & Harr). unfold arrived in Harr. cbn in *. subst.
  unfold mrpc_packet_stream_initialize. repeat ps_step. cbn.
  split; [split; cbn; unfold arrived; cbn; rewrite ?Harr; done|]. done.
Qed.
End lifecycle.

(** ** Sessions: arbitrary interleavings of the users of a stream *)

(** What the reader, the writer, the stream processor ([OpPush], [OpDisconnect])
    and the writer fiber of the connection ([OpTake]) do with a stream. *)
Inductive stream_op :=
  | OpRead (len : Z)
  | OpWrite (buf : list byte)
  | OpFlush
  | OpPush (packet : mrpc_packet)
  | OpDisconnect
  | OpTake.

(** How far the writer is: "cannot be called after the mrpc_packet_stream_flush()
    call", "only after at least single successful call to the
    mrpc_packet_stream_write()", "cannot be called multiple times". *)
Inductive writer_phase := Fresh | Writing | Flushed.

#[export] Instance writer_phase_eq_dec : EqDecision writer_phase.
Proof. solve_decision. Defined.

Definition op_phase (ph : writer_phase) (op : stream_op) : writer_phase :=
  match op with OpWrite _ => Writing | OpFlush => Flushed | _ => ph end.

Definition op_allowed (ph : writer_phase) (op : stream_op) : Prop :=
  match op with
  | OpRead len => 0 <= len
  | OpWrite _ => ph ≠ Flushed
  | OpFlush => ph = Writing
  | OpPush packet => packet_inv packet
  | OpDisconnect | OpTake => True
  end.

Fixpoint disciplined (ph : writer_phase) (ops : list stream_op) : Prop :=
  match ops with
  | [] => True
  | op :: ops => op_allowed ph op ∧ disciplined (op_phase ph op) ops
  end.

Definition final_phase (ph : writer_phase) (ops : list stream_op) : writer_phase :=
  foldl op_phase ph ops.

Definition op_written (op : stream_op) : list byte :=
  match op with OpWrite buf => buf | _ => [] end.
Definition written (ops : list stream_op) : list byte := mjoin (op_written <$> ops).

Definition op_pushed (op : stream_op) : Z := match op with OpPush _ => 1 | _ => 0 end.
Definition pushed (ops : list stream_op) : Z := total (op_pushed <$> ops).

Section sessions.
Context {Q W P : Type} `{PacketPool P} `{FFBlockingQueue Q mrpc_packet}
  `{FFBlockingQueue W (option mrpc_packet)}.
#[local] Abbreviation PS := (mrpc_packet_stream Q W P).

(** The result is the packet taken from the writer queue, if any. *)
Definition stream_step (op : stream_op) : M PS (list (option mrpc_packet)) :=
  match op with
  | OpRead len => mrpc_packet_stream_read len;; mret []
  | OpWrite buf => mrpc_packet_stream_write buf;; mret []
  | OpFlush => mrpc_packet_stream_flush;; mret []
  | OpPush packet => mrpc_packet_stream_push_packet packet;; mret []
  | OpDisconnect => mrpc_packet_stream_disconnect;; mret []
  | OpTake => got ← on_writer_queue ff_blocking_queue_get_with_timeout;
      mret (option_list got)
  end.

Fixpoint stream_run (ops : list stream_op) : M PS (list (option mrpc_packet)) :=
  match ops with
  | [] => mret []
  | op :: ops => taken ← stream_step op; rest ← stream_run ops; mret (taken ++ rest)
  end.
End sessions.

Section session_specs.
Context {Q W P : Type} `{PacketPoolSpec P} `{FFBlockingQueueSpec Q mrpc_packet}
  `{FFBlockingQueueSpec W (option mrpc_packet)}.
Implicit Types st : mrpc_packet_stream Q W P.

Definition phase_inv (ph : writer_phase) (ps : list mrpc_packet) (sent : list byte) st : Prop :=
  match ph with
  | Fresh => ps = [] ∧ sent = [] ∧ ps_current_write_packet st = None
  | Writing => ps_writing ps sent st ∧ is_null (ps_current_write_packet st) = false
  | Flushed => ps_flushed ps sent st
  end.

Lemma phase_inv_same ph ps sent st st' :
  ps_current_write_packet st' = ps_current_write_packet st →
  ps_request_id st' = ps_request_id st →
  phase_inv ph ps sent st → phase_inv ph ps sent st'.
Proof.
  intros Hw Hid. unfold phase_inv, ps_writing, ps_flushed. by rewrite Hw, Hid.
Qed.

Lemma phase_inv_writing ph ps sent st :
  ph ≠ Flushed → phase_inv ph ps sent st → ps_writing ps sent st.
Proof.
  destruct ph; cbn; [|by intros _ [? _]|done].
  intros _ (-> & -> & Hw). unfold ps_writing. by rewrite Hw.
Qed.

Lemma phase_inv_open ph ps sent st :
  phase_inv ph ps sent st →
  from_option (λ p, pk_type p ≠ MRPC_PACKET_SINGLE) True (ps_current_write_packet st).
Proof.
  destruct ph; cbn.
  - by intros (_ & _ & ->).
  - intros [[_ Hw] _]. destruct (ps_current_write_packet st) as [p|]; [|done].
    destruct Hw as (_ & _ & _ & Ht & _). cbn. rewrite Ht. by destruct ps.
  - intros [_ (p & -> & Ht & _)]. cbn. by rewrite Ht.
Qed.

Definition step_post (ph : writer_phase) (op : stream_op) (ps : list mrpc_packet)
    (sent : list byte) st (r : list (option mrpc_packet) * mrpc_packet_stream Q W P) : Prop :=
  ps_inv r.2 ∧ ps_request_id r.2 = ps_request_id st ∧
  ps_foreign r.2 = ps_foreign st - op_pushed op + zlength r.1 ∧
  ∃ new, r.1 ++ queue_contents (ps_writer_queue r.2) =
           queue_contents (ps_writer_queue st) ++ (Some <$> new) ∧
    phase_inv (op_phase ph op) (ps ++ new) (sent ++ op_written op) r.2.

(** Operations which leave the writer's half alone. *)
Lemma step_post_reader ph op ps sent st st' :
  ps_inv st' → same_writer st st' → phase_inv ph ps sent st →
  op_phase ph op = ph → op_written op = [] →
  ps_foreign st' = ps_foreign st - op_pushed op → step_post ph op ps sent st ([], st').
Proof.
  intros Hst' (Hq & Hw & Hid) Hph Hop Hwr Hf. unfold step_post. cbn [fst snd].
  split; [done|]. split; [done|].
  split; [rewrite zlength_nil; lia|].
  exists []. rewrite Hq, Hop, Hwr, !app_nil_r. split; [done|]. by eapply phase_inv_same.
Qed.

Lemma stream_step_spec ph op ps sent st :
  ps_inv st → phase_inv ph ps sent st → op_allowed ph op →
  wp (stream_step op st) (step_post ph op ps sent st).
Proof.
  intros Hst Hph Hop. destruct op as [len|buf| |p| |]; cbn [stream_step] in *; rewrite wp_M_bind.
  - eapply wp_mono; [by apply stream_read_spec|].
    intros [[r data] st'] (Hst' & Hsame & Hf & _). cbn [fst snd].
    apply step_post_reader; try done. cbn. zlen.
  - eapply wp_mono; [by eapply stream_write_spec, phase_inv_writing|].
    intros [r st'] (_ & Hst' & (_ & _ & Hid) & Hf & Hn & new & Hq & Hw). cbn [fst snd].
    split; [done|]. split; [done|]. split; [cbn in *; zlen|].
    exists new. by split.
  - cbn in Hop. subst ph. destruct Hph as [Hw Hn].
    eapply wp_mono; [by apply stream_flush_spec|].
    intros [r st'] (_ & Hst' & (_ & _ & Hid) & Hf & lst & Hq & Hfl). cbn [fst snd].
    split; [done|]. split; [done|]. split; [cbn in *; zlen|].
    exists [lst]. rewrite app_nil_r. by split.
  - eapply wp_mono; [by apply stream_push_spec|].
    intros [r st'] (Hst' & Hsame & _ & _ & Hf). by apply step_post_reader.
  - eapply wp_mono; [by apply stream_disconnect_spec|].
    intros [r st'] (Hst' & Hsame & _ & Hf & _). apply step_post_reader; try done. cbn. zlen.
  - destruct st as [pool rq wq cr cw id]. destruct Hst as [Hpool Harr Hread Hwrite].
    apply wp_on_writer_queue. eapply wp_mono; [apply queue_get_timeout_spec|].
    intros [got wq1] Hget. cbn [fst snd]. split; [by split|]. split; [done|].
    cbn [op_written op_phase op_pushed]. cbn in *. unfold ps_foreign, ps_owned, arrived. cbn.
    destruct (queue_contents wq) as [|q rest] eqn:Hq.
    + destruct Hget as [-> ->]. cbn. split; [unfold zlength; cbn [length]; lia|].
      exists []. rewrite !app_nil_r. split; [done|]. by eapply phase_inv_same.
    + destruct Hget as [-> ->]. cbn. split.
      { unfold zlength; cbn [length]; lia. }
      exists []. rewrite !app_nil_r. split; [done|]. by eapply phase_inv_same.
Qed.

Lemma stream_run_spec ph ops ps sent st :
  ps_inv st → phase_inv ph ps sent st → disciplined ph ops →
  wp (stream_run ops st) (λ '(taken, st'),
    ps_inv st' ∧ ps_request_id st' = ps_request_id st ∧
    ps_foreign st' = ps_foreign st - pushed ops + zlength taken ∧
    ∃ new, taken ++ queue_contents (ps_writer_queue st') =
             queue_contents (ps_writer_queue st) ++ (Some <$> new) ∧
      phase_inv (final_phase ph ops) (ps ++ new) (sent ++ written ops) st').
Proof.
  revert ph ps sent st. induction ops as [|op ops IH]; intros ph ps sent st Hst Hph Hops;
    cbn [stream_run].
  { cbn. do 2 (split; [done|]). split; [unfold zlength; cbn; lia|].
    exists []. by rewrite !app_nil_r. }
  destruct Hops as [Hop Hops]. rewrite wp_M_bind.
  eapply wp_mono; [by eapply stream_step_spec|].
  intros [taken1 st1] (Hst1 & Hid1 & Hf1 & new1 & Hq1 & Hph1). cbn [fst snd] in *.
  rewrite wp_M_bind. eapply wp_mono; [by eapply IH|].
  intros [taken2 st2] (Hst2 & Hid2 & Hf2 & new2 & Hq2 & Hph2). cbn [fst snd wp mret M_ret] in *.
  split; [done|]. split; [congruence|].
  change (pushed (op :: ops)) with (op_pushed op + pushed ops).
  change (written (op :: ops)) with (op_written op ++ written ops).
  split; [rewrite zlength_app; lia|].
  exists (new1 ++ new2). rewrite <- !app_assoc in *. split; [|done].
  by rewrite Hq2, fmap_app, app_assoc, Hq1, <- app_assoc.
Qed.
End session_specs.

(** ** Disconnecting *)

Lemma tail_bytes_end t rest p :
  pk_type p = MRPC_PACKET_END → packet_payload p = [] →
  tail_bytes t (rest ++ [p]) = tail_bytes t rest.
Proof.
  intros Ht Hp. revert t. induction rest as [|q rest IH]; intros t; cbn [app].
  - rewrite tail_bytes_nil. destruct (is_last_type t) eqn:E; [by rewrite tail_bytes_last|].
    rewrite tail_bytes_cons by done. rewrite Ht, Hp. cbn. done.
  - destruct (is_last_type t) eqn:E; [by rewrite !tail_bytes_last|].
    rewrite !tail_bytes_cons by done. by rewrite IH.
Qed.

Section disconnecting.
Context {Q W P : Type} `{PacketPoolSpec P} `{FFBlockingQueueSpec Q mrpc_packet}
  `{FFBlockingQueueSpec W (option mrpc_packet)}.
Implicit Types st : mrpc_packet_stream Q W P.

(** The END packet adds nothing to what a started reader obtains. *)
Lemma stream_disconnect_incoming st p st' :
  ps_current_read_packet st' = ps_current_read_packet st →
  arrived st' = arrived st ++ [p] → pk_type p = MRPC_PACKET_END → packet_payload p = [] →
  ps_started st' = ps_started st ∧ ps_incoming st' = ps_incoming st.
Proof.
  intros Hcur Harr Ht Hp. unfold ps_started, ps_incoming. rewrite Hcur, Harr.
  destruct (ps_current_read_packet st) as [q|]; [by rewrite tail_bytes_end|].
  destruct (arrived st) as [|q rest]; cbn; [by rewrite Ht|].
  by rewrite tail_bytes_end.
Qed.

(** A packet which cannot be the first one is dropped by the first read. *)
Lemma read_drops_leading p rest len st :
  ps_inv st → 0 <= len → ps_current_read_packet st = None → arrived st = p :: rest →
  is_first_type (pk_type p) = false →
  wp (mrpc_packet_stream_read len st) (λ '(r, data, st'),
    r = FF_FAILURE ∧ data = [] ∧ ps_current_read_packet st' = None ∧ arrived st' = rest).
Proof.
  intros [Hpool Harr Hread Hwrite] Hlen Hcur Hp Hfirst.
  destruct st as [pool rq wq cr cw id]. unfold arrived in *. cbn in *. subst cr.
  unfold mrpc_packet_stream_read, prefetch_current_read_packet. do 2 ps_step.
  rewrite wp_M_bind. do 2 ps_step. rewrite wp_M_bind. apply wp_on_reader_queue.
  eapply wp_mono; [apply queue_get_timeout_spec|]. intros [got rq1] Hget. cbn [fst snd].
  rewrite Hp in Hget, Harr. destruct Hget as [-> Hrq1]. apply Forall_cons in Harr as [Hpi _].
  unfold mrpc_packet_get_type. rewrite Hfirst. cbn [negb].
  ps_step. intros pool1 _ _. by cbn.
Qed.
End disconnecting.

(** ** Properties *)

Section properties.
Context {Q W P : Type} `{PacketPoolSpec P} `{FFBlockingQueueSpec Q mrpc_packet}
  `{FFBlockingQueueSpec W (option mrpc_packet)}.
Implicit Types st : mrpc_packet_stream Q W P.

Lemma idle_inv st : ps_idle st → ps_inv st.
Proof.
  intros (Hp & Hr & Hw & _ & Ha). split; [done|by rewrite Ha|by rewrite Hr|by rewrite Hw].
Qed.

Lemma idle_foreign st : ps_idle st →
  ps_foreign st = pool_out (ps_pool st) - zlength (queue_contents (ps_writer_queue st)).
Proof.
  intros (_ & Hr & Hw & _ & Ha). unfold ps_foreign, ps_owned.
  rewrite Hr, Hw, Ha. unfold count. cbn. change (zlength (@nil mrpc_packet)) with 0. lia.
Qed.

Lemma idle_delete st : ps_idle st → wp (mrpc_packet_stream_delete st) (λ _, True).
Proof.
  destruct st. intros (_ & Hr & Hw & Hid & _). cbn in *. subst.
  unfold mrpc_packet_stream_delete. by do 3 ps_step.
Qed.
End properties.

(** C3.  Packet streams are transparent: whatever chunks a message is written
    in, the packets put on the writer queue give a reader to whose stream they
    are delivered (as packets it cannot tell apart, possibly followed by more
    packets) exactly the bytes of the message in order, for reads of any sizes;
    reads which ask for more than the message fail. *)
Theorem packet_stream_transparent {Q W P Q' W' P' : Type}
    `{PacketPoolSpec P} `{FFBlockingQueueSpec Q mrpc_packet}
    `{FFBlockingQueueSpec W (option mrpc_packet)}
    `{PacketPoolSpec P'} `{FFBlockingQueueSpec Q' mrpc_packet}
    `{FFBlockingQueueSpec W' (option mrpc_packet)}
    (chunks : list (list byte)) (w : mrpc_packet_stream Q W P) :
  ps_inv w → ps_current_write_packet w = None → chunks ≠ [] →
  wp (write_message chunks w) (λ '(r, w'),
    r = FF_SUCCESS ∧ ∃ ps, queued ps w w' ∧
    ∀ (st : mrpc_packet_stream Q' W' P') qs extra lens,
      ps_inv st → ps_current_read_packet st = None →
      arrived st = qs ++ extra → Forall2 packet_same qs ps → Forall (λ n, 0 <= n) lens →
      wp (read_chunks lens st) (λ '(r, got, _),
        r = (if bool_decide (total lens <= zlength (mjoin chunks))
             then FF_SUCCESS else FF_FAILURE) ∧
        got = take (Z.to_nat (total lens)) (mjoin chunks))).
Proof.
  intros Hw Hcur Hne. eapply wp_mono; [by apply write_message_spec|].
  intros [r w'] (-> & _ & _ & _ & ps & Hq & Hmsg & _). split; [done|]. exists ps. split; [done|].
  intros st qs extra lens Hst Hnone Harr Hsame Hlens.
  destruct (message_readable _ _ _ _ extra Hmsg Hsame) as (q & rest & Hqs & Hfirst & Hbody).
  assert (ps_started st = true) as Hstart
    by (unfold ps_started; by rewrite Hnone, Harr, Hqs).
  assert (ps_incoming st = mjoin chunks) as Hin
    by (unfold ps_incoming; by rewrite Hnone, Harr, Hqs, Hfirst).
  eapply wp_mono; [by apply read_chunks_spec|].
  intros [[r got] st'] (_ & _ & _ & -> & -> & _). by rewrite Hin.
Qed.

Definition sample_stream : mrpc_packet_stream (list mrpc_packet) (list (option mrpc_packet)) Z :=
  PacketStream 0 [] [] None None x07.

Lemma packet_stream_transparent_witness :
  wp (write_message [[x61; x62]; [x63]] sample_stream) (λ '(r, w'),
    r = FF_SUCCESS ∧ ∃ ps, queued ps sample_stream w' ∧
    ∀ (st : mrpc_packet_stream (list mrpc_packet) (list (option mrpc_packet)) Z) qs extra lens,
      ps_inv st → ps_current_read_packet st = None →
      arrived st = qs ++ extra → Forall2 packet_same qs ps → Forall (λ n, 0 <= n) lens →
      wp (read_chunks lens st) (λ '(r, got, _),
        r = (if bool_decide (total lens <= zlength (mjoin [[x61; x62]; [x63]]))
             then FF_SUCCESS else FF_FAILURE) ∧
        got = take (Z.to_nat (total lens)) (mjoin [[x61; x62]; [x63]]))).
Proof.
  apply (packet_stream_transparent [[x61; x62]; [x63]] sample_stream);
    [split; try exact I; constructor | reflexivity | discriminate].
Defined.

(** In every interleaving of the operations of the reader, the writer, the
    stream processor and the connection which respects the calling rules of the
    header, no assertion fails, and once the writer has flushed, the packets put
    on the writer queue (taken by the connection or still there) are a message
    with the request id of the stream whose body is what was written: one SINGLE
    packet or full START and MIDDLE packets and an END packet. *)
Lemma packet_stream_session_message {Q W P : Type}
    `{PacketPoolSpec P} `{FFBlockingQueueSpec Q mrpc_packet}
    `{FFBlockingQueueSpec W (option mrpc_packet)}
    (id : byte) (ops : list stream_op) (st : mrpc_packet_stream Q W P) :
  ps_idle st → disciplined Fresh ops →
  wp ((mrpc_packet_stream_initialize id;; stream_run ops) st) (λ '(taken, st'),
    ∃ new, taken ++ queue_contents (ps_writer_queue st') =
             queue_contents (ps_writer_queue st) ++ (Some <$> new) ∧
      (final_phase Fresh ops = Flushed → message id new (written ops))).
Proof.
  intros Hst Hops. rewrite wp_M_bind. eapply wp_mono; [by apply stream_initialize_spec|].
  intros [[] st1] (Hst1 & Hid & Hcw & Hcr & Harr & Hwq & _). cbn [fst snd].
  eapply wp_mono; [by apply (stream_run_spec Fresh ops [] [])|].
  intros [taken st2] (_ & Hid2 & _ & new & Hq & Hph). exists new.
  split; [by rewrite Hq, Hwq|]. intros Hfin. rewrite Hfin in Hph.
  destruct Hph as [Hmsg _]. by rewrite Hid2, Hid in Hmsg.
Qed.

Definition sample_ops : list stream_op :=
  [OpPush mrpc_packet_create; OpWrite [x61]; OpRead 3; OpTake; OpWrite [x62]; OpFlush;
   OpTake; OpDisconnect].

Definition fresh_stream : mrpc_packet_stream (list mrpc_packet) (list (option mrpc_packet)) Z :=
  PacketStream 1 [] [] None None x00.

Lemma sample_ops_disciplined : disciplined Fresh sample_ops.
Proof.
  split; [apply packet_empty_inv, packet_create_empty|].
  repeat (split; [cbn; (done || lia)|]). exact I.
Qed.

Lemma fresh_stream_idle : ps_idle fresh_stream.
Proof. by repeat split. Qed.

Lemma packet_stream_session_message_witness :
  wp ((mrpc_packet_stream_initialize x09;; stream_run sample_ops) fresh_stream)
    (λ '(taken, st'),
      ∃ new, taken ++ queue_contents (ps_writer_queue st') =
               queue_contents (ps_writer_queue fresh_stream) ++ (Some <$> new) ∧
        (final_phase Fresh sample_ops = Flushed → message x09 new (written sample_ops))).
Proof.
  apply (packet_stream_session_message x09 sample_ops fresh_stream);
    [exact fresh_stream_idle | exact sample_ops_disciplined].
Defined.

(** C29.  No packet is lost or released twice: after any session which respects
    the calling rules, at whatever point it is shut down, the stream can be
    deleted, it holds no packet, and the packets which are out of the pool are
    those which were out before, less the ones pushed to the stream, plus the
    ones it put on the writer queue. *)
Theorem packet_stream_conservation {Q W P : Type}
    `{PacketPoolSpec P} `{FFBlockingQueueSpec Q mrpc_packet}
    `{FFBlockingQueueSpec W (option mrpc_packet)}
    (id : byte) (ops : list stream_op) (st : mrpc_packet_stream Q W P) :
  ps_idle st → disciplined Fresh ops →
  wp ((mrpc_packet_stream_initialize id;; stream_run ops) st) (λ '(taken, st1),
    wp (mrpc_packet_stream_shutdown st1) (λ '(_, st2),
      ps_idle st2 ∧ wp (mrpc_packet_stream_delete st2) (λ _, True) ∧
      pool_out (ps_pool st2) =
        pool_out (ps_pool st) - pushed ops + zlength taken +
        zlength (queue_contents (ps_writer_queue st2)) -
        zlength (queue_contents (ps_writer_queue st)))).
Proof.
  intros Hst Hops. rewrite wp_M_bind. eapply wp_mono; [by apply stream_initialize_spec|].
  intros [[] st1] (Hst1 & Hid & Hcw & Hcr & Harr & Hwq & Hf1). cbn [fst snd].
  eapply wp_mono; [by apply (stream_run_spec Fresh ops [] [])|].
  intros [taken st2] (Hst2 & _ & Hf2 & new & Hq & Hph).
  eapply wp_mono; [by eapply stream_shutdown_spec, phase_inv_open|].
  intros [[] st3] (Hidle & Hwq3 & Hf3). split; [done|]. split; [by apply idle_delete|].
  pose proof (idle_foreign _ Hst). pose proof (idle_foreign _ Hidle). lia.
Qed.

Lemma packet_stream_conservation_witness :
  wp ((mrpc_packet_stream_initialize x09;; stream_run sample_ops) fresh_stream)
    (λ '(taken, st1),
      wp (mrpc_packet_stream_shutdown st1) (λ '(_, st2),
        ps_idle st2 ∧ wp (mrpc_packet_stream_delete st2) (λ _, True) ∧
        pool_out (ps_pool st2) =
          pool_out (ps_pool fresh_stream) - pushed sample_ops + zlength taken +
          zlength (queue_contents (ps_writer_queue st2)) -
          zlength (queue_contents (ps_writer_queue fresh_stream)))).
Proof.
  apply (packet_stream_conservation x09 sample_ops fresh_stream);
    [exact fresh_stream_idle | exact sample_ops_disciplined].
Defined.

(** What one read does, for any packets the peer may have sent: it never
    fails an assertion or leaves a packet's buffer, it succeeds exactly when a
    first packet has arrived and the payloads up to the end of the message (or
    to the first packet which cannot follow) hold enough bytes, it stores a
    prefix of these payloads, and no packet is lost. *)
Lemma packet_stream_read_exact {Q W P : Type}
    `{PacketPoolSpec P} `{FFBlockingQueueSpec Q mrpc_packet}
    `{FFBlockingQueueSpec W (option mrpc_packet)}
    (len : Z) (st : mrpc_packet_stream Q W P) :
  ps_inv st → 0 <= len →
  wp (mrpc_packet_stream_read len st) (λ '(r, data, st'),
    r = (if ps_started st && bool_decide (len <= zlength (ps_incoming st))
         then FF_SUCCESS else FF_FAILURE) ∧
    data = (if ps_started st then take (Z.to_nat len) (ps_incoming st) else []) ∧
    (r = FF_SUCCESS → ps_incoming st' = drop (Z.to_nat len) (ps_incoming st)) ∧
    ps_inv st' ∧ ps_foreign st' = ps_foreign st).
Proof.
  intros Hst Hlen. eapply wp_mono; [by apply stream_read_spec|].
  intros [[r data] st'] (Hst' & _ & Hf & Hr). destruct r.
  - destruct Hr as (-> & Hl & -> & _). autorewrite with zlen. cbn [andb].
    pose proof (zlength_nonneg (ps_incoming st')). unfold zlength in Hl.
    rewrite bool_decide_eq_true_2 by (unfold zlength in *; lia).
    rewrite take_app_length', drop_app_length' by lia. done.
  - destruct Hr as [[-> ->]|(-> & Hl & -> & _)]; [done|]. cbn [andb].
    rewrite bool_decide_eq_false_2 by lia. split; [done|].
    split; [|done]. rewrite take_ge; [done|]. unfold zlength in Hl. lia.
Qed.

Lemma packet_stream_read_exact_witness :
  wp (mrpc_packet_stream_read 3 sample_stream) (λ '(r, data, st'),
    r = (if ps_started sample_stream && bool_decide (3 <= zlength (ps_incoming sample_stream))
         then FF_SUCCESS else FF_FAILURE) ∧
    data = (if ps_started sample_stream
            then take (Z.to_nat 3) (ps_incoming sample_stream) else []) ∧
    (r = FF_SUCCESS → ps_incoming st' = drop (Z.to_nat 3) (ps_incoming sample_stream)) ∧
    ps_inv st' ∧ ps_foreign st' = ps_foreign sample_stream).
Proof.
  apply (packet_stream_read_exact 3 sample_stream); [split; try exact I; constructor | lia].
Defined.

(** The number of packets of a message is the least possible, at least one,
    and depends on the length of its body only, not on the chunks it was
    written in: all packets but the last one are full. *)
Lemma packet_stream_packet_count {Q W P : Type}
    `{PacketPoolSpec P} `{FFBlockingQueueSpec Q mrpc_packet}
    `{FFBlockingQueueSpec W (option mrpc_packet)}
    (chunks : list (list byte)) (st : mrpc_packet_stream Q W P) :
  ps_inv st → ps_current_write_packet st = None → chunks ≠ [] →
  wp (write_message chunks st) (λ '(_, st'),
    ∃ new, queued new st st' ∧
      zlength new = Z.max 1 ((zlength (mjoin chunks) + MAX_PACKET_SIZE - 1) / MAX_PACKET_SIZE)).
Proof.
  intros Hst Hcur Hne. eapply wp_mono; [by apply write_message_spec|].
  intros [r st'] (_ & _ & _ & _ & ps & Hq & Hmsg & _). exists ps.
  split; [done|]. by eapply message_packets.
Qed.

Lemma packet_stream_packet_count_witness :
  wp (write_message [[x61]; []] sample_stream) (λ '(_, st'),
    ∃ new, queued new sample_stream st' ∧
      zlength new =
        Z.max 1 ((zlength (mjoin [[x61]; []]) + MAX_PACKET_SIZE - 1) / MAX_PACKET_SIZE)).
Proof.
  apply (packet_stream_packet_count [[x61]; []] sample_stream);
    [split; try exact I; constructor | reflexivity | discriminate].
Defined.

(** Disconnecting a stream does not take bytes from its reader and makes
    the next read which wants more fail; but when no packet has arrived at all,
    that failing read drops the END packet: the reader queue is empty again, so
    a subsequent read waits for a packet until its timeout, although the header
    says that the call unblocks pending and subsequent reads. *)
Lemma packet_stream_disconnect {Q W P : Type}
    `{PacketPoolSpec P} `{FFBlockingQueueSpec Q mrpc_packet}
    `{FFBlockingQueueSpec W (option mrpc_packet)}
    (len : Z) (st : mrpc_packet_stream Q W P) :
  ps_inv st → 0 <= len →
  wp (mrpc_packet_stream_disconnect st) (λ '(_, st1),
    ps_started st1 = ps_started st ∧ ps_incoming st1 = ps_incoming st ∧
    (ps_current_read_packet st = None → arrived st = [] →
      wp (mrpc_packet_stream_read len st1) (λ '(r, data, st2),
        r = FF_FAILURE ∧ data = [] ∧ ps_current_read_packet st2 = None ∧ arrived st2 = []))).
Proof.
  intros Hst Hlen. eapply wp_mono; [by apply stream_disconnect_spec|].
  intros [[] st1] (Hst1 & _ & Hcur & _ & p & Harr & Ht & Hp).
  destruct (stream_disconnect_incoming st p st1 Hcur Harr Ht Hp) as [-> ->].
  do 2 (split; [done|]). intros Hnone Hnil. rewrite Hnil in Harr.
  apply (read_drops_leading p []); try done; [congruence|by rewrite Ht].
Qed.

Lemma packet_stream_disconnect_witness :
  wp (mrpc_packet_stream_disconnect sample_stream) (λ '(_, st1),
    ps_started st1 = ps_started sample_stream ∧ ps_incoming st1 = ps_incoming sample_stream ∧
    (ps_current_read_packet sample_stream = None → arrived sample_stream = [] →
      wp (mrpc_packet_stream_read 4 st1) (λ '(r, data, st2),
        r = FF_FAILURE ∧ data = [] ∧ ps_current_read_packet st2 = None ∧ arrived st2 = []))).
Proof.
  apply (packet_stream_disconnect 4 sample_stream); [split; try exact I; constructor | lia].
Defined.
