(* ===== verification/StreamProcessor.v ===== *)
(** * What the client and the server stream processors share
    (src/mrpc_client_stream_processor.c, src/mrpc_server_stream_processor.c)

    A stream processor multiplexes request streams over one connection: a reader
    fiber reads packets and pushes them to the request stream with their request
    id, a writer fiber writes the packets of all request streams.  The two source
    files repeat the code of this file; [X] is what one of them adds to the
    struct.

    Fibers switch only where they wait.  A fiber is represented by the point at
    which it waits, and each definition below which takes such a point runs the
    fiber from there to the next one. *)

From S2P Require Import Prelude FF FFSync Packet PacketStream.

Inductive processor_state := STATE_WORKING | STATE_STOP_INITIATED | STATE_STOPPED.

#[export] Instance processor_state_eq_dec : EqDecision processor_state.
Proof. solve_decision. Defined.

Definition MAX_REQUEST_STREAMS_CNT : Z := 0x100.
Definition MAX_PACKETS_CNT : Z := 2 * MAX_REQUEST_STREAMS_CNT.

(** [struct request_stream] with the [struct mrpc_packet_stream] it owns; the
    writer queue and the packets pool of the latter are those of the processor. *)
Record request_stream (Q : Type) := RequestStream {
  rs_reader_queue : Q;
  rs_current_read_packet : option mrpc_packet;
  rs_current_write_packet : option mrpc_packet;
  rs_packet_stream_id : byte;
  rs_request_id : byte;
}.
Arguments RequestStream {Q}.
Arguments rs_reader_queue {Q}.
Arguments rs_current_read_packet {Q}.
Arguments rs_current_write_packet {Q}.
Arguments rs_packet_stream_id {Q}.
Arguments rs_request_id {Q}.

(** Where the reader and the writer fiber wait. *)
Inductive reader_point :=
  | ReaderIdle
  | ReaderStart
  | ReaderAcquire
  | ReaderRead (packet : mrpc_packet)
  | ReaderWaitRequests
  | ReaderWaitWriter.

Inductive writer_point :=
  | WriterIdle
  | WriterStart
  | WriterGet
  | WriterWrite (packet : mrpc_packet)
  | WriterFlush
  | WriterSkip.

(** [struct mrpc_client_stream_processor] and
    [struct mrpc_server_stream_processor].  [request_stream *] is an index into
    [sp_heap]; [sp_reader] and [sp_writer] are the points of the two fibers. *)
Record stream_processor (Q W K R E S X : Type) := StreamProcessor {
  sp_writer_queue : W;
  sp_writer_stop_event : E;
  sp_request_streams_pool : R;
  sp_request_streams_stop_event : E;
  sp_packets_pool : K;
  sp_active_request_streams : list (option nat);
  sp_stream : option S;
  sp_active_request_streams_cnt : Z;
  sp_state : processor_state;
  sp_extra : X;
  sp_heap : list (option (request_stream Q));
  sp_reader : reader_point;
  sp_writer : writer_point;
}.
Arguments StreamProcessor {Q W K R E S X}.
Arguments sp_writer_queue {Q W K R E S X}.
Arguments sp_writer_stop_event {Q W K R E S X}.
Arguments sp_request_streams_pool {Q W K R E S X}.
Arguments sp_request_streams_stop_event {Q W K R E S X}.
Arguments sp_packets_pool {Q W K R E S X}.
Arguments sp_active_request_streams {Q W K R E S X}.
Arguments sp_stream {Q W K R E S X}.
Arguments sp_active_request_streams_cnt {Q W K R E S X}.
Arguments sp_state {Q W K R E S X}.
Arguments sp_extra {Q W K R E S X}.
Arguments sp_heap {Q W K R E S X}.
Arguments sp_reader {Q W K R E S X}.
Arguments sp_writer {Q W K R E S X}.

(** ** The packets pool *)

Section packets.
Context {K : Type} `{FFPool K mrpc_packet}.

Definition create_packet : M processor_state mrpc_packet :=
  state ← λ s, Ret (s, s);
  lift (ff_assert (bool_decide (state ≠ STATE_STOPPED)));;
  mret mrpc_packet_create.

Definition delete_packet (packet : mrpc_packet) : M unit unit :=
  lift (mrpc_packet_delete packet).

(** [acquire_packet] and [release_packet], the callbacks of packet streams, see
    the state and the packets pool of the processor. *)
Definition acquire_stream_packet : M (processor_state * K) mrpc_packet :=
  state ← on_fst (λ s, Ret (s, s));
  lift (ff_assert (bool_decide (state ≠ STATE_STOPPED)));;
  on_swap (ff_pool_acquire_entry create_packet).

Definition release_stream_packet (packet : mrpc_packet) : M (processor_state * K) unit :=
  state ← on_fst (λ s, Ret (s, s));
  lift (ff_assert (bool_decide (state ≠ STATE_STOPPED)));;
  on_snd (ff_pool_release_entry (mrpc_packet_reset packet)).

#[export] Instance processor_packets : PacketPool (processor_state * K) := {
  acquire_packet_func := acquire_stream_packet;
  release_packet_func := release_stream_packet;
  pool_inv p := p.1 ≠ STATE_STOPPED ∧ Forall packet_empty (pool_free (p.2));
  pool_out p := pool_busy (p.2)
}.
End packets.

Section operations.
Context {Q W K R E S X : Type}.
Context `{FFBlockingQueue Q mrpc_packet} `{FFBlockingQueue W (option mrpc_packet)}.
Context `{FFPool K mrpc_packet} `{FFPool R nat} `{FFEvent E} `{FFStream S} `{FFConnection S}.
#[local] Abbreviation SP := (stream_processor Q W K R E S X).

(** ** Access to the fields *)

Definition field {A} (f : SP → A) : M SP A := λ sp, Ret (f sp, sp).

Definition set_state (x : processor_state) : M SP unit :=
  λ '(StreamProcessor wq we rp re kp act st cnt _ ex h rd wr),
    Ret (tt, StreamProcessor wq we rp re kp act st cnt x ex h rd wr).
Definition set_stream (x : option S) : M SP unit :=
  λ '(StreamProcessor wq we rp re kp act _ cnt s ex h rd wr),
    Ret (tt, StreamProcessor wq we rp re kp act x cnt s ex h rd wr).
Definition set_active_cnt (x : Z) : M SP unit :=
  λ '(StreamProcessor wq we rp re kp act st _ s ex h rd wr),
    Ret (tt, StreamProcessor wq we rp re kp act st x s ex h rd wr).
Definition set_active_request_streams (x : list (option nat)) : M SP unit :=
  λ '(StreamProcessor wq we rp re kp _ st cnt s ex h rd wr),
    Ret (tt, StreamProcessor wq we rp re kp x st cnt s ex h rd wr).
Definition set_extra (x : X) : M SP unit :=
  λ '(StreamProcessor wq we rp re kp act st cnt s _ h rd wr),
    Ret (tt, StreamProcessor wq we rp re kp act st cnt s x h rd wr).
Definition set_heap (x : list (option (request_stream Q))) : M SP unit :=
  λ '(StreamProcessor wq we rp re kp act st cnt s ex _ rd wr),
    Ret (tt, StreamProcessor wq we rp re kp act st cnt s ex x rd wr).
Definition set_reader (x : reader_point) : M SP unit :=
  λ '(StreamProcessor wq we rp re kp act st cnt s ex h _ wr),
    Ret (tt, StreamProcessor wq we rp re kp act st cnt s ex h x wr).
Definition set_writer (x : writer_point) : M SP unit :=
  λ '(StreamProcessor wq we rp re kp act st cnt s ex h rd _),
    Ret (tt, StreamProcessor wq we rp re kp act st cnt s ex h rd x).

Definition on_queue {A} (m : M W A) : M SP A :=
  λ '(StreamProcessor wq we rp re kp act st cnt s ex h rd wr),
    match m wq with
    | Ret (a, wq) => Ret (a, StreamProcessor wq we rp re kp act st cnt s ex h rd wr)
    | Fault f => Fault f
    end.
Definition on_writer_event {A} (m : M E A) : M SP A :=
  λ '(StreamProcessor wq we rp re kp act st cnt s ex h rd wr),
    match m we with
    | Ret (a, we) => Ret (a, StreamProcessor wq we rp re kp act st cnt s ex h rd wr)
    | Fault f => Fault f
    end.
Definition on_requests_event {A} (m : M E A) : M SP A :=
  λ '(StreamProcessor wq we rp re kp act st cnt s ex h rd wr),
    match m re with
    | Ret (a, re) => Ret (a, StreamProcessor wq we rp re kp act st cnt s ex h rd wr)
    | Fault f => Fault f
    end.
(** The callbacks of the pool get the processor as their context; they do not
    touch the pool itself. *)
Definition on_requests_pool {A} (m : M (R * SP) A) : M SP A := λ sp,
  match m (sp_request_streams_pool sp, sp) with
  | Ret (a, (rp, StreamProcessor wq we _ re kp act st cnt s ex h rd wr)) =>
      Ret (a, StreamProcessor wq we rp re kp act st cnt s ex h rd wr)
  | Fault f => Fault f
  end.
(** The packets of the processor, as a packet stream sees them. *)
Definition on_packets {A} (m : M (processor_state * K) A) : M SP A :=
  λ '(StreamProcessor wq we rp re kp act st cnt s ex h rd wr),
    match m (s, kp) with
    | Ret (a, (_, kp)) => Ret (a, StreamProcessor wq we rp re kp act st cnt s ex h rd wr)
    | Fault f => Fault f
    end.
(** The network connection; the code asserts that there is one. *)
Definition on_stream {A} (m : M S A) : M SP A :=
  λ '(StreamProcessor wq we rp re kp act st cnt s ex h rd wr),
    match st with
    | None => Fault AssertionFailed
    | Some stream =>
        match m stream with
        | Ret (a, stream) =>
            Ret (a, StreamProcessor wq we rp re kp act (Some stream) cnt s ex h rd wr)
        | Fault f => Fault f
        end
    end.

Definition request_stream_at (ptr : nat) : M SP (request_stream Q) := λ sp,
  match sp_heap sp !! ptr with
  | Some (Some rs) => Ret (rs, sp)
  | _ => Fault UseAfterFree
  end.

Definition stream_view (sp : SP) (rs : request_stream Q) :
    mrpc_packet_stream Q W (processor_state * K) :=
  PacketStream (sp_state sp, sp_packets_pool sp) (rs_reader_queue rs) (sp_writer_queue sp)
    (rs_current_read_packet rs) (rs_current_write_packet rs) (rs_packet_stream_id rs).

Definition store_view (sp : SP) (ptr : nat) (rs : request_stream Q)
    (ps : mrpc_packet_stream Q W (processor_state * K)) : SP :=
  let rs := RequestStream (ps_reader_queue ps) (ps_current_read_packet ps)
              (ps_current_write_packet ps) (ps_request_id ps) (rs_request_id rs) in
  StreamProcessor (ps_writer_queue ps) (sp_writer_stop_event sp) (sp_request_streams_pool sp)
    (sp_request_streams_stop_event sp) ((ps_pool ps).2) (sp_active_request_streams sp)
    (sp_stream sp) (sp_active_request_streams_cnt sp) (sp_state sp) (sp_extra sp)
    (<[ptr := Some rs]> (sp_heap sp)) (sp_reader sp) (sp_writer sp).

(** A call on [request_stream->packet_stream]. *)
Definition on_packet_stream (ptr : nat) {A}
    (m : M (mrpc_packet_stream Q W (processor_state * K)) A) : M SP A := λ sp,
  match sp_heap sp !! ptr with
  | Some (Some rs) =>
      match m (stream_view sp rs) with
      | Ret (a, ps) => Ret (a, store_view sp ptr rs ps)
      | Fault f => Fault f
      end
  | _ => Fault UseAfterFree
  end.

(** ** Packets and request streams *)

Definition acquire_processor_packet : M SP mrpc_packet := on_packets acquire_stream_packet.

Definition release_processor_packet (packet : mrpc_packet) : M SP unit :=
  on_packets (release_stream_packet packet).

Definition assert_state (p : processor_state → bool) : M SP unit :=
  state ← field sp_state; lift (ff_assert (p state)).

Definition is_stop_initiated (state : processor_state) : bool :=
  bool_decide (state = STATE_STOP_INITIATED).
Definition not_stopped (state : processor_state) : bool := bool_decide (state ≠ STATE_STOPPED).

(** The packet stream of a new request stream, and [ff_malloc]. *)
Definition new_packet_stream : M SP (mrpc_packet_stream Q W (processor_state * K)) := λ sp,
  lift (mrpc_packet_stream_create (sp_state sp, sp_packets_pool sp) (sp_writer_queue sp)
          MAX_PACKETS_CNT) sp.

Definition alloc_request_stream (packet_stream : mrpc_packet_stream Q W (processor_state * K))
    (request_id : byte) : M SP nat :=
  heap ← field sp_heap;
  set_heap (heap ++ [Some (RequestStream (ps_reader_queue packet_stream)
    (ps_current_read_packet packet_stream) (ps_current_write_packet packet_stream)
    (ps_request_id packet_stream) request_id)]);;
  mret (length heap).

Definition free_request_stream (ptr : nat) : M SP unit :=
  heap ← field sp_heap; set_heap (<[ptr := None]> heap).

(** The part of [acquire_request_stream] which follows [ff_pool_acquire_entry]. *)
Definition attach_request_stream (ptr : nat) (request_id : byte) : M SP unit :=
  active_request_streams ← field sp_active_request_streams;
  slot ← lift (arr_get active_request_streams (Z_of_byte request_id));
  lift (ff_assert (bool_decide (slot = None)));;
  on_packet_stream ptr (mrpc_packet_stream_initialize request_id);;
  active_request_streams ← lift (arr_set active_request_streams (Z_of_byte request_id) (Some ptr));
  set_active_request_streams active_request_streams;;
  cnt ← field sp_active_request_streams_cnt;
  set_active_cnt (cnt + 1);;
  lift (ff_assert (bool_decide (cnt + 1 <= MAX_REQUEST_STREAMS_CNT)));;
  (if bool_decide (cnt + 1 = 1) then on_requests_event ff_event_reset else mret tt).

(** The part of [release_request_stream] which follows its first assertions. *)
Definition detach_request_stream (ptr : nat) : M SP unit :=
  rs ← request_stream_at ptr;
  let request_id := rs_request_id rs in
  active_request_streams ← field sp_active_request_streams;
  slot ← lift (arr_get active_request_streams (Z_of_byte request_id));
  lift (ff_assert (bool_decide (slot = Some ptr)));;
  on_packet_stream ptr mrpc_packet_stream_shutdown;;
  active_request_streams ← lift (arr_set active_request_streams (Z_of_byte request_id) None);
  set_active_request_streams active_request_streams;;
  on_requests_pool (on_fst (ff_pool_release_entry ptr));;
  cnt ← field sp_active_request_streams_cnt;
  set_active_cnt (cnt - 1);;
  (if bool_decide (cnt - 1 = 0) then on_requests_event ff_event_set else mret tt).

(** The functions of [request_stream_wrapper_vtable]. *)
Definition read_from_request_stream_wrapper (ptr : nat) (len : Z) : M SP (ff_result * list byte) :=
  on_packet_stream ptr (mrpc_packet_stream_read len).
Definition write_to_request_stream_wrapper (ptr : nat) (buf : list byte) : M SP ff_result :=
  on_packet_stream ptr (mrpc_packet_stream_write buf).
Definition flush_request_stream_wrapper (ptr : nat) : M SP ff_result :=
  on_packet_stream ptr mrpc_packet_stream_flush.
Definition disconnect_request_stream_wrapper (ptr : nat) : M SP unit :=
  on_packet_stream ptr mrpc_packet_stream_disconnect.

(** ** The writer fiber *)

Definition start_stream_writer : M SP unit :=
  assert_state not_stopped;;
  set_writer WriterStart.

(** [stop_stream_writer] up to its wait. *)
Definition stop_stream_writer : M SP unit :=
  assert_state is_stop_initiated;;
  on_queue (ff_blocking_queue_put None);;
  set_reader ReaderWaitWriter.

Definition writer_queue_is_empty : M SP bool :=
  field (λ sp, ff_blocking_queue_is_empty (sp_writer_queue sp)).

Definition writer_end : M SP unit :=
  on_writer_event ff_event_set;;
  set_writer WriterIdle.

(** One round of [skip_writer_queue_packets]. *)
Definition skip_writer_queue_packets : M SP unit :=
  packet ← on_queue ff_blocking_queue_get;
  match packet with
  | None =>
      is_empty ← writer_queue_is_empty;
      lift (ff_assert is_empty);;
      writer_end
  | Some packet => release_processor_packet packet
  end.

Section writer.
Variable stop_async : M SP unit.

(** The second assertion is that of [skip_writer_queue_packets]. *)
Definition writer_failed : M SP unit :=
  stop_async;;
  assert_state is_stop_initiated;;
  assert_state is_stop_initiated;;
  set_writer WriterSkip.

Definition stream_writer_func : M SP unit :=
  writer ← field sp_writer;
  match writer with
  | WriterIdle => mret tt
  | WriterStart =>
      stream ← field sp_stream;
      lift (ff_assert (match stream with Some _ => true | None => false end));;
      assert_state not_stopped;;
      set_writer WriterGet
  | WriterGet =>
      packet ← on_queue ff_blocking_queue_get;
      match packet with
      | None =>
          assert_state is_stop_initiated;;
          is_empty ← writer_queue_is_empty;
          lift (ff_assert is_empty);;
          writer_end
      | Some packet => set_writer (WriterWrite packet)
      end
  | WriterWrite packet =>
      result ← on_stream (mrpc_packet_write_to_stream packet);
      release_processor_packet packet;;
      is_empty ← writer_queue_is_empty;
      match result with
      | FF_SUCCESS => set_writer (if is_empty : bool then WriterFlush else WriterGet)
      | FF_FAILURE => writer_failed
      end
  | WriterFlush =>
      result ← on_stream ff_stream_flush;
      match result with
      | FF_SUCCESS => set_writer WriterGet
      | FF_FAILURE => writer_failed
      end
  | WriterSkip => skip_writer_queue_packets
  end.
End writer.

(** ** The end of the reader fiber *)

Fixpoint disconnect_loop (rounds : nat) (i : Z) : M SP unit :=
  match rounds with
  | O => mret tt
  | Datatypes.S rounds =>
      active_request_streams ← field sp_active_request_streams;
      slot ← lift (arr_get active_request_streams i);
      match slot with
      | Some ptr => on_packet_stream ptr mrpc_packet_stream_disconnect
      | None => mret tt
      end;;
      disconnect_loop rounds (i + 1)
  end.

(** [stop_all_request_streams] up to its wait, and the rest of it. *)
Definition stop_all_request_streams : M SP unit :=
  assert_state is_stop_initiated;;
  disconnect_loop (Z.to_nat MAX_REQUEST_STREAMS_CNT) 0;;
  set_reader ReaderWaitRequests.

Definition assert_no_request_streams : M SP unit :=
  cnt ← field sp_active_request_streams_cnt;
  lift (ff_assert (bool_decide (cnt = 0))).

Definition all_request_streams_stopped : M SP unit :=
  on_requests_event ff_event_wait;;
  assert_no_request_streams.
End operations.

(** ** The packets pool keeps the promises of [PacketPoolSpec] *)

#[export] Instance processor_packets_spec {K} `{FFPoolSpec K mrpc_packet} :
  PacketPoolSpec (processor_state * K).
Proof.
  split.
  - intros [s k] [Hs Hfree]. cbn in Hs, Hfree. cbn -[on_swap]. unfold acquire_stream_packet.
    wp_steps. cbn [wp fst snd]. wp_steps.
    destruct (decide (pool_free k = [])) as [Hnil|Hne].
    + eapply wp_mono.
      * apply (ff_pool_acquire_new_spec _ k s (λ r, r = (mrpc_packet_create, s)));
          [done|]. unfold create_packet. rewrite wp_M_bind. cbn [wp fst snd].
        by wp_steps.
      * intros [packet [k' s']] ([= -> ->] & Hfree' & Hbusy). cbn. rewrite Hfree'.
        split; [apply packet_create_empty|done].
    + eapply wp_mono; [by apply ff_pool_acquire_free_spec|].
      intros [packet [k' s']] (-> & Hperm & Hbusy). cbn.
      rewrite Hperm in Hfree. by apply Forall_cons in Hfree as [? ?].
  - intros [s k] packet [Hs Hfree] Hlen. cbn in Hs, Hfree. cbn -[on_snd]. unfold release_stream_packet.
    wp_steps. cbn [wp fst snd]. wp_steps. eapply wp_mono; [apply ff_pool_release_entry_spec|].
    intros [[] k'] [Hperm Hbusy]. cbn. rewrite Hperm.
    split; [split; [done|]|done]. constructor; [by apply packet_reset_empty|done].
Qed.

(** ** Sums over a table *)

Lemma total_update {A} (f g : A → Z) l i x : l !! i = Some x →
  (∀ j y, j ≠ i → l !! j = Some y → g y = f y) →
  total (g <$> l) = total (f <$> l) - f x + g x.
Proof.
  revert i. induction l as [|y l IH]; intros i Hi Hother; [done|].
  destruct i as [|i]; cbn in Hi.
  - injection Hi as ->. cbn. fold (total (g <$> l)) (total (f <$> l)).
    assert (g <$> l = f <$> l) as ->; [|lia].
    apply list_eq. intros j. rewrite !list_lookup_fmap.
    destruct (l !! j) as [z|] eqn:Hj; [|done]. cbn. f_equal.
    by apply (Hother (Datatypes.S j)).
  - cbn. fold (total (g <$> l)) (total (f <$> l)).
    rewrite (IH i Hi) by (intros j z Hj; apply (Hother (Datatypes.S j)); lia).
    rewrite (Hother 0%nat y) by done. lia.
Qed.

Lemma total_insert {A} (f : A → Z) l i x y : l !! i = Some x →
  total (f <$> <[i := y]> l) = total (f <$> l) - f x + f y.
Proof.
  revert i. induction l as [|z l IH]; intros i Hi; [done|].
  destruct i as [|i]; cbn in Hi.
  - injection Hi as ->. cbn. lia.
  - change (f z + total (f <$> <[i := y]> l) = f z + total (f <$> l) - f x + f y).
    rewrite (IH i Hi). lia.
Qed.

Lemma total_zero {A} (f : A → Z) l :
  (∀ x, x ∈ l → 0 <= f x) → total (f <$> l) = 0 → ∀ x, x ∈ l → f x = 0.
Proof.
  induction l as [|y l IH]; intros Hnn Hz x Hx; [by apply elem_of_nil in Hx|].
  cbn in Hz. fold (total (f <$> l)) in Hz.
  assert (0 <= total (f <$> l)) as Hl.
  { apply total_nonneg, Forall_fmap, Forall_forall. intros z Hz'. apply Hnn. by right. }
  pose proof (Hnn y ltac:(left)) as Hy.
  apply elem_of_cons in Hx as [->|Hx]; [lia|].
  apply IH; [|lia|done]. intros z Hz'. apply Hnn. by right.
Qed.

(** ** Request streams in a processor *)

Section registry.
Context {Q : Type} `{FFBlockingQueue Q mrpc_packet}.
Implicit Types (rs : request_stream Q) (heap : list (option (request_stream Q))).
Implicit Types (act : list (option nat)) (free : list nat).

(** How far the writer of a request stream is. *)
Definition rs_phase rs : writer_phase :=
  match rs_current_write_packet rs with
  | None => Fresh
  | Some p => if decide (pk_type p = MRPC_PACKET_END) then Flushed else Writing
  end.

(** The packets a request stream holds. *)
Definition rs_owned rs : Z :=
  count (rs_current_read_packet rs) + count (rs_current_write_packet rs) +
  zlength (queue_contents (rs_reader_queue rs)).

Definition rs_idle rs : Prop :=
  rs_current_read_packet rs = None ∧ rs_current_write_packet rs = None ∧
  rs_packet_stream_id rs = x00 ∧ queue_contents (rs_reader_queue rs) = [].

(** The fields of a packet stream which only its writer changes. *)
Definition rs_writer rs : mrpc_packet_stream (list mrpc_packet) (list (option mrpc_packet)) Z :=
  PacketStream 0 [] [] None (rs_current_write_packet rs) (rs_packet_stream_id rs).

(** What a request has written, and the packets it has queued for it. *)
Definition session : Type := list mrpc_packet * list byte.

Definition rs_ok rs (g : session) : Prop :=
  Forall packet_inv (queue_contents (rs_reader_queue rs)) ∧
  from_option packet_inv True (rs_current_read_packet rs) ∧
  from_option packet_inv True (rs_current_write_packet rs) ∧
  phase_inv (rs_phase rs) (g.1) (g.2) (rs_writer rs).

Definition slot_of (request_id : byte) : nat := Z.to_nat (Z_of_byte request_id).

Definition slot_count (slot : option nat) : Z := match slot with Some _ => 1 | None => 0 end.

Definition slot_owned heap (slot : option nat) : Z :=
  match slot with
  | Some ptr => match heap !! ptr with Some (Some rs) => rs_owned rs | _ => 0 end
  | None => 0
  end.

(** The active request streams are where their request ids say, the free ones
    of the pool are idle; [sessions] tells what the active ones have written. *)
Record registry heap act free (cnt : Z) (sessions : nat → session) : Prop := {
  reg_length : length act = Z.to_nat MAX_REQUEST_STREAMS_CNT;
  reg_active i ptr : act !! i = Some (Some ptr) → ∃ rs,
    heap !! ptr = Some (Some rs) ∧ slot_of (rs_request_id rs) = i ∧
    rs_packet_stream_id rs = rs_request_id rs ∧ rs_ok rs (sessions i);
  reg_free ptr : ptr ∈ free → ∃ rs, heap !! ptr = Some (Some rs) ∧ rs_idle rs;
  reg_disjoint i ptr : act !! i = Some (Some ptr) → ptr ∉ free;
  reg_nodup : NoDup free;
  reg_cnt : cnt = total (slot_count <$> act)
}.

Definition new_session (sessions : nat → session) (i : nat) (g : session) : nat → session :=
  λ j, if decide (j = i) then g else sessions j.
End registry.

Section registry_lemmas.
Context {Q : Type} `{FFBlockingQueueSpec Q mrpc_packet}.
Implicit Types (rs : request_stream Q) (heap : list (option (request_stream Q))).
Implicit Types (act : list (option nat)) (free : list nat).

Lemma slot_range id : (slot_of id < Z.to_nat MAX_REQUEST_STREAMS_CNT)%nat.
Proof.
  unfold slot_of. pose proof (Z_of_byte_range id). change MAX_REQUEST_STREAMS_CNT with 256. lia.
Qed.

Lemma slot_inj id id' : slot_of id = slot_of id' → id = id'.
Proof.
  unfold slot_of. intros Heq. apply Z_of_byte_inj.
  pose proof (Z_of_byte_range id). pose proof (Z_of_byte_range id'). lia.
Qed.

Lemma registry_slot heap act free cnt sessions id :
  registry heap act free cnt sessions → ∃ slot, act !! slot_of id = Some slot.
Proof.
  intros Hreg. apply lookup_lt_is_Some. rewrite (reg_length _ _ _ _ _ Hreg). apply slot_range.
Qed.

(** A request stream is active under one id. *)
Lemma registry_unique heap act free cnt sessions i j ptr :
  registry heap act free cnt sessions →
  act !! i = Some (Some ptr) → act !! j = Some (Some ptr) → i = j.
Proof.
  intros Hreg Hi Hj.
  destruct (reg_active _ _ _ _ _ Hreg i ptr Hi) as (rs & Hrs & <- & _).
  destruct (reg_active _ _ _ _ _ Hreg j ptr Hj) as (rs' & Hrs' & <- & _). congruence.
Qed.

Lemma slot_count_nonneg slot : 0 <= slot_count slot.
Proof. by destruct slot. Qed.

Lemma counts_nonneg act : Forall (λ n, 0 <= n) (slot_count <$> act).
Proof. apply Forall_fmap, Forall_forall. intros x _. apply slot_count_nonneg. Qed.

Lemma registry_cnt_range heap act free cnt sessions :
  registry heap act free cnt sessions → 0 <= cnt <= MAX_REQUEST_STREAMS_CNT.
Proof.
  intros [Hlen _ _ _ _ ->]. split; [apply total_nonneg, counts_nonneg|].
  assert (total (slot_count <$> act) <= zlength act) as Hle.
  { clear. induction act as [|[n|] act IH]; cbn; [unfold zlength; cbn; lia|..];
      fold (total (slot_count <$> act)); rewrite zlength_cons; lia. }
  unfold zlength in Hle. rewrite Hlen in Hle. change MAX_REQUEST_STREAMS_CNT with 256 in *. lia.
Qed.

Lemma registry_cnt_pos heap act free cnt sessions i ptr :
  registry heap act free cnt sessions → act !! i = Some (Some ptr) → 0 < cnt.
Proof.
  intros Hreg Hi. pose proof (registry_cnt_range _ _ _ _ _ Hreg).
  destruct (decide (cnt = 0)) as [Hz|]; [|lia]. rewrite (reg_cnt _ _ _ _ _ Hreg) in Hz.
  assert (slot_count (Some ptr) = 0) as Hc; [|done].
  apply (total_zero slot_count act); [|done|by eapply list_elem_of_lookup_2].
  intros; apply slot_count_nonneg.
Qed.

Lemma registry_none heap act free sessions i slot :
  registry heap act free 0 sessions → act !! i = Some slot → slot = None.
Proof.
  destruct slot as [ptr|]; [|done]. intros Hreg Hi.
  pose proof (registry_cnt_pos _ _ _ _ _ _ _ Hreg Hi). lia.
Qed.

(** Changing the contents of an active request stream. *)
Lemma registry_update heap act free cnt sessions i ptr rs rs' g :
  registry heap act free cnt sessions →
  act !! i = Some (Some ptr) → heap !! ptr = Some (Some rs) →
  rs_request_id rs' = rs_request_id rs →
  rs_packet_stream_id rs' = rs_packet_stream_id rs → rs_ok rs' g →
  registry (<[ptr := Some rs']> heap) act free cnt (new_session sessions i g) ∧
  total (slot_owned (<[ptr := Some rs']> heap) <$> act) =
    total (slot_owned heap <$> act) - rs_owned rs + rs_owned rs'.
Proof.
  intros Hreg Hi Hptr Hid Hpid Hok.
  assert (∀ j p, j ≠ i → act !! j = Some (Some p) → p ≠ ptr) as Hother.
  { intros j p Hj Hp ->. apply Hj. by eapply registry_unique. }
  assert ((ptr < length heap)%nat) as Hlt by by eapply lookup_lt_Some.
  destruct (reg_active _ _ _ _ _ Hreg i ptr Hi) as (rs0 & Hrs0 & Hslot & Hpsid & _).
  assert (rs0 = rs) as -> by congruence. split.
  - split; try by apply Hreg.
    + intros j p Hj. unfold new_session. destruct (decide (j = i)) as [->|Hne].
      * assert (p = ptr) as -> by congruence. exists rs'. rewrite list_lookup_insert_eq by done.
        rewrite Hid, Hpid. by split_and!.
      * rewrite list_lookup_insert_ne by (apply not_eq_sym; by eapply Hother).
        by apply (reg_active _ _ _ _ _ Hreg).
    + intros p Hp. assert (p ≠ ptr) as Hne.
      { intros ->. by apply (reg_disjoint _ _ _ _ _ Hreg i ptr). }
      rewrite list_lookup_insert_ne by congruence. by apply (reg_free _ _ _ _ _ Hreg).
  - rewrite (total_update (slot_owned heap) _ act i (Some ptr) Hi).
    + cbn. by rewrite Hptr, list_lookup_insert_eq.
    + intros j [p|] Hj Hp; [|done]. cbn.
      rewrite list_lookup_insert_ne; [done|]. apply not_eq_sym. by eapply Hother.
Qed.

Lemma registry_permute heap act free free' cnt sessions :
  registry heap act free cnt sessions → free ≡ₚ free' → registry heap act free' cnt sessions.
Proof.
  intros [Hlen Hact Hfree Hdis Hnd Hcnt] Hperm. split; try done.
  - intros ptr Hp. apply Hfree. by rewrite Hperm.
  - intros i ptr Hi. rewrite <- Hperm. by eapply Hdis.
  - by rewrite <- Hperm.
Qed.

(** A pointer no slot and no free entry refers to. *)
Definition detached act free (ptr : nat) : Prop :=
  (ptr ∉ free) ∧ ∀ j, act !! j ≠ Some (Some ptr).

(** Taking an entry from the pool. *)
Lemma registry_take heap act free free' cnt sessions ptr :
  registry heap act free cnt sessions → free ≡ₚ ptr :: free' →
  registry heap act free' cnt sessions ∧ detached act free' ptr ∧
  ∃ rs, heap !! ptr = Some (Some rs) ∧ rs_idle rs.
Proof.
  intros Hreg Hperm. pose proof (registry_permute _ _ _ _ _ _ Hreg Hperm) as Hreg'.
  destruct Hreg' as [Hlen Hact Hfree Hdis Hnd Hcnt].
  apply NoDup_cons in Hnd as [Hnin Hnd]. split; [|split].
  - split; try done.
    + intros p Hp. apply Hfree. by right.
    + intros i p Hi Hp. apply (Hdis i p Hi). by right.
  - split; [done|]. intros j Hj. apply (Hdis j ptr Hj). by left.
  - apply Hfree. by left.
Qed.

(** A new request stream on the heap. *)
Lemma registry_alloc heap act free cnt sessions rs :
  registry heap act free cnt sessions →
  registry (heap ++ [Some rs]) act free cnt sessions ∧ detached act free (length heap) ∧
  total (slot_owned (heap ++ [Some rs]) <$> act) = total (slot_owned heap <$> act).
Proof.
  intros [Hlen Hact Hfree Hdis Hnd Hcnt].
  assert (∀ ptr rs', heap !! ptr = Some (Some rs') → (heap ++ [Some rs]) !! ptr = Some (Some rs'))
    as Happ by (intros; by apply lookup_app_l_Some).
  split; [|split].
  - split; try done.
    + intros i ptr Hi. destruct (Hact i ptr Hi) as (rs' & Hrs' & ?). eauto.
    + intros ptr Hp. destruct (Hfree ptr Hp) as (rs' & Hrs' & ?). eauto.
  - split.
    + intros Hp. destruct (Hfree _ Hp) as (rs' & Hrs' & _). apply lookup_lt_Some in Hrs'. lia.
    + intros j Hj. destruct (Hact j _ Hj) as (rs' & Hrs' & _). apply lookup_lt_Some in Hrs'. lia.
  - f_equal. apply list_eq. intros j. rewrite !list_lookup_fmap.
    destruct (act !! j) as [[ptr|]|] eqn:Hj; [|done..].
    destruct (Hact j ptr Hj) as (rs' & Hrs' & _). cbn. by rewrite Hrs', (Happ _ _ Hrs').
Qed.

(** Giving a detached request stream a slot. *)
Lemma registry_attach heap act free cnt sessions ptr rs rs' id g :
  registry heap act free cnt sessions → detached act free ptr →
  heap !! ptr = Some (Some rs) → act !! slot_of id = Some None →
  rs_request_id rs' = id → rs_packet_stream_id rs' = id → rs_ok rs' g →
  registry (<[ptr := Some rs']> heap) (<[slot_of id := Some ptr]> act) free (cnt + 1)
    (new_session sessions (slot_of id) g) ∧
  total (slot_owned (<[ptr := Some rs']> heap) <$> <[slot_of id := Some ptr]> act) =
    total (slot_owned heap <$> act) + rs_owned rs'.
Proof.
  intros Hreg [Hnin Hnact] Hptr Hslot Hid Hpid Hok.
  assert ((ptr < length heap)%nat) as Hlt by by eapply lookup_lt_Some.
  assert ((slot_of id < length act)%nat) as Hslt by by eapply lookup_lt_Some.
  assert (∀ j p, j ≠ slot_of id → <[slot_of id:=Some ptr]> act !! j = Some (Some p) →
            act !! j = Some (Some p) ∧ p ≠ ptr) as Hother.
  { intros j p Hj Hp. rewrite list_lookup_insert_ne in Hp by done.
    split; [done|]. intros ->. by apply (Hnact j). }
  split.
  - split.
    + rewrite length_insert. apply (reg_length _ _ _ _ _ Hreg).
    + intros j p Hj. unfold new_session. destruct (decide (j = slot_of id)) as [->|Hne].
      * rewrite list_lookup_insert_eq in Hj by done. injection Hj as <-.
        exists rs'. rewrite list_lookup_insert_eq by done. by rewrite Hid, Hpid.
      * destruct (Hother j p Hne Hj) as [Hj' Hp]. rewrite list_lookup_insert_ne by congruence.
        by apply (reg_active _ _ _ _ _ Hreg).
    + intros p Hp. rewrite list_lookup_insert_ne by congruence. by apply (reg_free _ _ _ _ _ Hreg).
    + intros j p Hj. destruct (decide (j = slot_of id)) as [->|Hne].
      * rewrite list_lookup_insert_eq in Hj by done. by injection Hj as <-.
      * destruct (Hother j p Hne Hj) as [Hj' Hp]. by eapply (reg_disjoint _ _ _ _ _ Hreg).
    + apply (reg_nodup _ _ _ _ _ Hreg).
    + rewrite (total_insert _ _ _ None) by done. cbn. rewrite (reg_cnt _ _ _ _ _ Hreg). lia.
  - rewrite (total_insert _ _ _ None) by done. cbn. rewrite list_lookup_insert_eq by done.
    rewrite (total_update (slot_owned heap) _ act (slot_of id) None Hslot); [cbn; lia|].
    intros j [p|] Hj Hp; [|done]. cbn. rewrite list_lookup_insert_ne; [done|].
    intros <-. by apply (Hnact j).
Qed.

(** Taking the slot away; the idle request stream returns to the pool. *)
Lemma registry_detach heap act free free' cnt sessions i ptr rs rs' :
  registry heap act free cnt sessions → act !! i = Some (Some ptr) →
  heap !! ptr = Some (Some rs) → rs_idle rs' → free' ≡ₚ ptr :: free →
  registry (<[ptr := Some rs']> heap) (<[i := None]> act) free' (cnt - 1) sessions ∧
  total (slot_owned (<[ptr := Some rs']> heap) <$> <[i := None]> act) =
    total (slot_owned heap <$> act) - rs_owned rs.
Proof.
  intros Hreg Hi Hptr Hidle Hperm.
  assert ((ptr < length heap)%nat) as Hlt by by eapply lookup_lt_Some.
  assert ((i < length act)%nat) as Hslt by by eapply lookup_lt_Some.
  assert (∀ j p, <[i:=None]> act !! j = Some (Some p) →
            j ≠ i ∧ act !! j = Some (Some p) ∧ p ≠ ptr) as Hother.
  { intros j p Hj. destruct (decide (j = i)) as [->|Hne].
    { by rewrite list_lookup_insert_eq in Hj. }
    rewrite list_lookup_insert_ne in Hj by done. split_and!; [done|done|].
    intros ->. apply Hne. by eapply registry_unique. }
  split.
  - split.
    + rewrite length_insert. apply (reg_length _ _ _ _ _ Hreg).
    + intros j p Hj. destruct (Hother j p Hj) as (Hne & Hj' & Hp).
      rewrite list_lookup_insert_ne by congruence. by apply (reg_active _ _ _ _ _ Hreg).
    + intros p Hp. rewrite Hperm in Hp. destruct (decide (p = ptr)) as [->|Hne].
      * exists rs'. by rewrite list_lookup_insert_eq.
      * rewrite list_lookup_insert_ne by congruence. apply (reg_free _ _ _ _ _ Hreg).
        by apply elem_of_cons in Hp as [?|?].
    + intros j p Hj Hp. destruct (Hother j p Hj) as (Hne & Hj' & Hpne).
      rewrite Hperm in Hp. apply elem_of_cons in Hp as [?|?]; [done|].
      by eapply (reg_disjoint _ _ _ _ _ Hreg).
    + rewrite Hperm. apply NoDup_cons. split; [|apply (reg_nodup _ _ _ _ _ Hreg)].
      by eapply (reg_disjoint _ _ _ _ _ Hreg).
    + rewrite (total_insert _ _ _ (Some ptr)) by done. cbn. rewrite (reg_cnt _ _ _ _ _ Hreg). lia.
  - rewrite (total_insert _ _ _ (Some ptr)) by done.
    rewrite (total_update (slot_owned heap) _ act i (Some ptr) Hi); [cbn; rewrite Hptr; lia|].
    intros j [p|] Hj Hp; [|done]. cbn. rewrite list_lookup_insert_ne; [done|].
    intros <-. apply Hj. by eapply registry_unique.
Qed.

(** ** Writers *)

Lemma phase_inv_phase rs ph ps sent : phase_inv ph ps sent (rs_writer rs) → rs_phase rs = ph.
Proof.
  destruct rs as [rq cr cw pid id]. unfold rs_phase. destruct ph; cbn.
  - by intros (_ & _ & Hcw); cbn in Hcw; subst cw.
  - intros [[_ Hw] Hnull]. cbn in Hw. destruct cw as [p|]; [|done].
    destruct Hw as (_ & _ & _ & Ht & _). rewrite Ht. by destruct ps.
  - intros [_ (p & Hp & Ht & _)]. cbn in Hp. subst cw. by rewrite Ht.
Qed.

(** A packet which the writer fiber can send, for the request [id]. *)
Definition sendable (id : byte) (p : mrpc_packet) : Prop :=
  packet_inv p ∧ pk_curr_pos p = 0 ∧ pk_request_id p = id.

Lemma full_packets_sendable id t ps : full_packets id t ps → Forall (sendable id) ps.
Proof.
  revert t. induction ps as [|p ps IH]; intros t; [done|].
  intros (? & ? & _ & ? & _ & Hps). constructor; [done|]. by eapply IH.
Qed.

Lemma phase_inv_sendable rs ph ps sent :
  phase_inv ph ps sent (rs_writer rs) → Forall (sendable (rs_packet_stream_id rs)) ps.
Proof.
  destruct ph; cbn.
  - by intros (-> & _).
  - intros [[Hps _] _]. by eapply full_packets_sendable.
  - intros [(init & lst & -> & Hinit & ? & ? & ? & _) _]. apply Forall_app.
    split; [by eapply full_packets_sendable|]. by apply Forall_singleton.
Qed.
End registry_lemmas.

(** ** Calls on request streams *)

Section call_specs.
Context {Q W K R E S X : Type}.
Context `{FFBlockingQueueSpec Q mrpc_packet} `{FFBlockingQueueSpec W (option mrpc_packet)}.
Context `{FFPoolSpec K mrpc_packet} `{FFPoolSpec R nat} `{FFEventSpec E}.
#[local] Abbreviation SP := (stream_processor Q W K R E S X).
Implicit Types (sp : SP) (rs : request_stream Q).

(** What the calls on request streams leave to a processor's other fields. *)
Definition with_streams sp (wq : W) (kp : K) (heap : list (option (request_stream Q))) : SP :=
  StreamProcessor wq (sp_writer_stop_event sp) (sp_request_streams_pool sp)
    (sp_request_streams_stop_event sp) kp (sp_active_request_streams sp) (sp_stream sp)
    (sp_active_request_streams_cnt sp) (sp_state sp) (sp_extra sp) heap (sp_reader sp) (sp_writer sp).

(** The packets which neither a request stream nor the writer queue holds. *)
Definition outside_packets (kp : K) heap act (wq : W) : Z :=
  pool_busy kp - total (slot_owned heap <$> act) - zlength (queue_contents wq).

Definition sp_outside sp : Z :=
  outside_packets (sp_packets_pool sp) (sp_heap sp) (sp_active_request_streams sp) (sp_writer_queue sp).

Lemma wp_on_packet_stream {A} ptr (m : M (mrpc_packet_stream Q W (processor_state * K)) A) sp rs
    (P : A * SP → Prop) :
  sp_heap sp !! ptr = Some (Some rs) →
  wp (m (stream_view sp rs)) (λ '(a, ps), P (a, store_view sp ptr rs ps)) →
  wp (on_packet_stream ptr m sp) P.
Proof.
  intros Hptr Hm. unfold on_packet_stream. rewrite Hptr. by destruct (m _) as [[a ps]|].
Qed.

Lemma rs_ok_view sp rs g :
  pool_inv (sp_state sp, sp_packets_pool sp) → rs_ok rs g → ps_inv (stream_view sp rs).
Proof. intros Hp (? & ? & ? & _). by split. Qed.

Lemma view_foreign sp rs :
  ps_foreign (stream_view sp rs) =
  pool_busy (sp_packets_pool sp) - rs_owned rs - zlength (queue_contents (sp_writer_queue sp)).
Proof. unfold ps_foreign, ps_owned, rs_owned, arrived. cbn. lia. Qed.

(** Only the connection takes packets from the writer queue. *)
Lemma stream_step_taken {P} `{PacketPool P} op (st : mrpc_packet_stream Q W P) R' :
  op ≠ OpTake → wp (stream_step op st) R' → wp (stream_step op st) (λ r, R' r ∧ r.1 = []).
Proof.
  intros Hop. destruct op; try done; cbn [stream_step]; unfold mbind, M_bind;
    match goal with |- wp (match ?m with Ret _ => _ | Fault _ => _ end) _ → _ =>
      by destruct m as [[? ?]|] end.
Qed.

Lemma request_stream_call sp sessions i ptr rs op :
  let act := sp_active_request_streams sp in
  let free := pool_free (sp_request_streams_pool sp) in
  let cnt := sp_active_request_streams_cnt sp in
  pool_inv (sp_state sp, sp_packets_pool sp) →
  registry (sp_heap sp) act free cnt sessions →
  act !! i = Some (Some ptr) → sp_heap sp !! ptr = Some (Some rs) →
  op_allowed (rs_phase rs) op → op ≠ OpTake →
  wp (on_packet_stream ptr (stream_step op) sp) (λ '(taken, sp'), ∃ wq kp rs' new,
    taken = [] ∧ sp' = with_streams sp wq kp (<[ptr := Some rs']> (sp_heap sp)) ∧
    pool_inv (sp_state sp, kp) ∧ rs_request_id rs' = rs_request_id rs ∧
    registry (<[ptr := Some rs']> (sp_heap sp)) act free cnt
      (new_session sessions i ((sessions i).1 ++ new, (sessions i).2 ++ op_written op)) ∧
    queue_contents wq = queue_contents (sp_writer_queue sp) ++ (Some <$> new) ∧
    Forall (sendable (rs_request_id rs)) new ∧
    sp_outside sp' = sp_outside sp - op_pushed op).
Proof.
  intros act free cnt Hpool Hreg Hi Hptr Hop Htake.
  destruct (reg_active _ _ _ _ _ Hreg i ptr Hi) as (rs0 & Hrs0 & Hslot & Hpid & Hok).
  assert (rs0 = rs) as -> by congruence. set (g := sessions i) in *.
  apply (wp_on_packet_stream _ _ _ rs); [done|].
  assert (phase_inv (rs_phase rs) g.1 g.2 (stream_view sp rs)) as Hph by apply Hok.
  eapply wp_mono.
  { apply stream_step_taken; [done|]. apply (stream_step_spec (rs_phase rs) op g.1 g.2); try done.
    by eapply rs_ok_view. }
  intros [taken ps] [(Hinv & Hid & Hf & new & Hq & Hph') Htaken]. cbn [fst snd] in *. subst taken.
  change (ps_request_id ps = rs_packet_stream_id rs) in Hid.
  set (rs' := RequestStream (ps_reader_queue ps) (ps_current_read_packet ps)
    (ps_current_write_packet ps) (ps_request_id ps) (rs_request_id rs)).
  assert (rs_phase rs' = op_phase (rs_phase rs) op) as Hph2.
  { eapply phase_inv_phase. exact Hph'. }
  assert (rs_ok rs' (g.1 ++ new, g.2 ++ op_written op)) as Hok'.
  { destruct Hinv as [_ ? ? ?]. split_and!; try done. rewrite Hph2. exact Hph'. }
  destruct (registry_update _ _ _ _ _ i ptr rs rs' _ Hreg Hi Hptr eq_refl Hid Hok') as [Hreg' Hown].
  exists (ps_writer_queue ps), ((ps_pool ps).2), rs', new. cbn [app] in Hq.
  split; [done|]. split; [done|]. split; [by split; [apply Hpool|apply Hinv]|].
  split; [done|]. split; [done|]. split; [done|]. split.
  { assert (Forall (sendable (rs_packet_stream_id rs')) (g.1 ++ new)) as Hsend.
    { eapply phase_inv_sendable. exact Hph'. }
    apply Forall_app in Hsend as [_ Hsend]. cbn in Hsend. by rewrite Hid, Hpid in Hsend. }
  rewrite view_foreign in Hf. unfold ps_foreign, ps_owned, arrived in Hf. rewrite zlength_nil in Hf.
  change (outside_packets (ps_pool ps).2 (<[ptr:=Some rs']> (sp_heap sp)) act (ps_writer_queue ps) =
    sp_outside sp - op_pushed op).
  unfold sp_outside, outside_packets. fold act. rewrite Hown.
  change (rs_owned rs') with (count (ps_current_read_packet ps) +
    count (ps_current_write_packet ps) + zlength (queue_contents (ps_reader_queue ps))).
  cbn in Hf. lia.
Qed.

(** ** Symbolic execution of processor operations *)

Implicit Types (wq : W) (we re : E) (rp : R) (kp : K) (act : list (option nat)) (st : option S).
Implicit Types (cnt : Z) (s : processor_state) (ex : X) (h : list (option (request_stream Q))).
Implicit Types (rd : reader_point) (wr : writer_point).

Lemma wp_on_queue {A} (m : M W A) wq we rp re kp act st cnt s ex h rd wr (P : A * SP → Prop) :
  wp (m wq) (λ r, P (r.1, StreamProcessor (r.2) we rp re kp act st cnt s ex h rd wr)) →
  wp (on_queue m (StreamProcessor wq we rp re kp act st cnt s ex h rd wr)) P.
Proof. cbn. by destruct (m wq) as [[a q]|]. Qed.

Lemma wp_on_writer_event {A} (m : M E A) wq we rp re kp act st cnt s ex h rd wr (P : A * SP → Prop) :
  wp (m we) (λ r, P (r.1, StreamProcessor wq (r.2) rp re kp act st cnt s ex h rd wr)) →
  wp (on_writer_event m (StreamProcessor wq we rp re kp act st cnt s ex h rd wr)) P.
Proof. cbn. by destruct (m we) as [[a q]|]. Qed.

Lemma wp_on_requests_event {A} (m : M E A) wq we rp re kp act st cnt s ex h rd wr (P : A * SP → Prop) :
  wp (m re) (λ r, P (r.1, StreamProcessor wq we rp (r.2) kp act st cnt s ex h rd wr)) →
  wp (on_requests_event m (StreamProcessor wq we rp re kp act st cnt s ex h rd wr)) P.
Proof. cbn. by destruct (m re) as [[a q]|]. Qed.

Lemma wp_on_packets {A} (m : M (processor_state * K) A) wq we rp re kp act st cnt s ex h rd wr
    (P : A * SP → Prop) :
  wp (m (s, kp)) (λ r, P (r.1, StreamProcessor wq we rp re (r.2.2) act st cnt s ex h rd wr)) →
  wp (on_packets m (StreamProcessor wq we rp re kp act st cnt s ex h rd wr)) P.
Proof. cbn. by destruct (m (s, kp)) as [[a [? q]]|]. Qed.

Lemma wp_on_stream {A} (m : M S A) wq we rp re kp act stream cnt s ex h rd wr (P : A * SP → Prop) :
  wp (m stream) (λ r, P (r.1, StreamProcessor wq we rp re kp act (Some (r.2)) cnt s ex h rd wr)) →
  wp (on_stream m (StreamProcessor wq we rp re kp act (Some stream) cnt s ex h rd wr)) P.
Proof. cbn. by destruct (m stream) as [[a q]|]. Qed.

(** The pool gives a processor back whose own pool is as before. *)
Definition set_requests_pool (rp : R) sp : SP :=
  StreamProcessor (sp_writer_queue sp) (sp_writer_stop_event sp) rp
    (sp_request_streams_stop_event sp) (sp_packets_pool sp) (sp_active_request_streams sp)
    (sp_stream sp) (sp_active_request_streams_cnt sp) (sp_state sp) (sp_extra sp) (sp_heap sp)
    (sp_reader sp) (sp_writer sp).

Lemma wp_on_requests_pool {A} (m : M (R * SP) A) sp (P : A * SP → Prop) :
  wp (m (sp_request_streams_pool sp, sp)) (λ '(a, (rp, sp')), P (a, set_requests_pool rp sp')) →
  wp (on_requests_pool m sp) P.
Proof. unfold on_requests_pool. by destruct (m _) as [[a [rp' []]]|]. Qed.

Lemma wp_field {A} (f : SP → A) sp (P : A * SP → Prop) : wp (field f sp) P ↔ P (f sp, sp).
Proof. done. Qed.

Lemma wp_request_stream_at ptr sp rs (P : request_stream Q * SP → Prop) :
  sp_heap sp !! ptr = Some (Some rs) → P (rs, sp) → wp (request_stream_at ptr sp) P.
Proof. unfold request_stream_at. by intros ->. Qed.
End call_specs.

Ltac sp_simpl := cbn [fst snd sp_writer_queue sp_writer_stop_event sp_request_streams_pool
  sp_request_streams_stop_event sp_packets_pool sp_active_request_streams sp_stream
  sp_active_request_streams_cnt sp_state sp_extra sp_heap sp_reader sp_writer].
Ltac sp_simpl_all := cbn [fst snd sp_writer_queue sp_writer_stop_event sp_request_streams_pool
  sp_request_streams_stop_event sp_packets_pool sp_active_request_streams sp_stream
  sp_active_request_streams_cnt sp_state sp_extra sp_heap sp_reader sp_writer] in *.
Ltac sp_step :=
  match goal with
  | |- wp (field _ _) _ => rewrite wp_field
  | |- wp (set_state _ _) _ => cbn [set_state wp]
  | |- wp (set_stream _ _) _ => cbn [set_stream wp]
  | |- wp (set_active_cnt _ _) _ => cbn [set_active_cnt wp]
  | |- wp (set_active_request_streams _ _) _ => cbn [set_active_request_streams wp]
  | |- wp (set_extra _ _) _ => cbn [set_extra wp]
  | |- wp (set_heap _ _) _ => cbn [set_heap wp]
  | |- wp (set_reader _ _) _ => cbn [set_reader wp]
  | |- wp (set_writer _ _) _ => cbn [set_writer wp]
  | |- wp (assert_state _ _) _ => unfold assert_state
  | |- wp ((assert_state _ ≫= _) _) _ => rewrite wp_M_bind; unfold assert_state
  | |- wp (on_queue _ _) _ => apply wp_on_queue
  | |- wp (on_writer_event _ _) _ => apply wp_on_writer_event
  | |- wp (on_requests_event _ _) _ => apply wp_on_requests_event
  | |- wp (on_packets _ _) _ => apply wp_on_packets
  | |- wp (on_stream _ _) _ => apply wp_on_stream
  | _ => wp_step
  end; sp_simpl.
Ltac sp_steps := repeat sp_step.

Section attach_specs.
Context {Q W K R E S X : Type}.
Context `{FFBlockingQueueSpec Q mrpc_packet} `{FFBlockingQueueSpec W (option mrpc_packet)}.
Context `{FFPoolSpec K mrpc_packet} `{FFPoolSpec R nat} `{FFEventSpec E}.
#[local] Abbreviation SP := (stream_processor Q W K R E S X).
Implicit Types (sp : SP) (rs : request_stream Q).
Implicit Types (wq : W) (we re : E) (rp : R) (kp : K) (act : list (option nat)) (st : option S).
Implicit Types (cnt : Z) (s : processor_state) (ex : X) (h : list (option (request_stream Q))).
Implicit Types (rd : reader_point) (wr : writer_point).

Lemma slot_get act id slot : act !! slot_of id = Some slot →
  ∀ P, P slot → wp (arr_get act (Z_of_byte id)) P.
Proof.
  intros Hslot P HP. eapply wp_arr_get; [apply Z_of_byte_range|exact Hslot|done].
Qed.

Lemma slot_set act id (slot : option nat) : length act = Z.to_nat MAX_REQUEST_STREAMS_CNT →
  ∀ P, P (<[slot_of id := slot]> act) → wp (arr_set act (Z_of_byte id) slot) P.
Proof.
  intros Hlen P HP. apply wp_arr_set; [|done]. pose proof (Z_of_byte_range id).
  unfold zlength. rewrite Hlen. change MAX_REQUEST_STREAMS_CNT with 256. lia.
Qed.

Lemma initialize_call sp ptr rs id :
  pool_inv (sp_state sp, sp_packets_pool sp) → sp_heap sp !! ptr = Some (Some rs) → rs_idle rs →
  wp (on_packet_stream ptr (mrpc_packet_stream_initialize id) sp) (λ '(_, sp'), ∃ kp rs',
    sp' = with_streams sp (sp_writer_queue sp) kp (<[ptr := Some rs']> (sp_heap sp)) ∧
    pool_inv (sp_state sp, kp) ∧ pool_busy kp = pool_busy (sp_packets_pool sp) ∧
    rs_request_id rs' = rs_request_id rs ∧ rs_packet_stream_id rs' = id ∧
    rs_ok rs' ([], []) ∧ rs_owned rs' = 0).
Proof.
  intros Hpool Hptr (Hcr & Hcw & Hpid & Hrq). apply (wp_on_packet_stream _ _ _ rs); [done|].
  eapply wp_mono; [by apply (stream_initialize_spec id (stream_view sp rs))|].
  intros [[] [[s' kp] rq wq cr cw pid]] (Hinv & Hid & Hcw' & Hcr' & Harr & Hwq & Hf).
  rewrite view_foreign in Hf. unfold ps_foreign, ps_owned, arrived in *. cbn in *. subst.
  rewrite Harr in Hf. unfold rs_owned, count in Hf. rewrite Hcr, Hcw, Hrq in Hf. cbn in Hf.
  change (zlength (@nil mrpc_packet)) with 0 in Hf.
  exists kp, (RequestStream rq None None id (rs_request_id rs)). split; [done|].
  split; [split; [apply Hpool|apply Hinv]|]. split; [lia|]. split; [done|]. split; [done|]. split.
  - split_and!; try done. cbn. by rewrite Harr.
  - unfold rs_owned. cbn. by rewrite Harr.
Qed.

Lemma shutdown_call sp ptr rs g :
  pool_inv (sp_state sp, sp_packets_pool sp) → sp_heap sp !! ptr = Some (Some rs) → rs_ok rs g →
  wp (on_packet_stream ptr mrpc_packet_stream_shutdown sp) (λ '(_, sp'), ∃ kp rs',
    sp' = with_streams sp (sp_writer_queue sp) kp (<[ptr := Some rs']> (sp_heap sp)) ∧
    pool_inv (sp_state sp, kp) ∧ pool_busy kp = pool_busy (sp_packets_pool sp) - rs_owned rs ∧
    rs_request_id rs' = rs_request_id rs ∧ rs_idle rs').
Proof.
  intros Hpool Hptr Hok. apply (wp_on_packet_stream _ _ _ rs); [done|].
  eapply wp_mono.
  { apply stream_shutdown_spec; [by eapply rs_ok_view|].
    destruct Hok as (_ & _ & _ & Hph). by apply phase_inv_open in Hph. }
  intros [[] [[s' kp] rq wq cr cw pid]] (Hidle & Hwq & Hf).
  rewrite view_foreign in Hf. destruct Hidle as (Hinv & Hcr & Hcw & Hpid & Harr).
  unfold ps_foreign, ps_owned, arrived in *. cbn in *. subst. rewrite Harr in Hf.
  unfold count in Hf. cbn in Hf. change (zlength (@nil mrpc_packet)) with 0 in Hf.
  exists kp, (RequestStream rq None None x00 (rs_request_id rs)). split; [done|].
  split; [split; [apply Hpool|apply Hinv]|]. split; [lia|]. by split_and!.
Qed.

Lemma attach_spec wq we rp re kp act st cnt s ex h rd wr ptr rs id :
  pool_inv (s, kp) → length act = Z.to_nat MAX_REQUEST_STREAMS_CNT →
  act !! slot_of id = Some None → h !! ptr = Some (Some rs) → rs_idle rs →
  0 <= cnt < MAX_REQUEST_STREAMS_CNT →
  wp (attach_request_stream ptr id (StreamProcessor wq we rp re kp act st cnt s ex h rd wr : SP))
    (λ '(_, sp'), ∃ re' kp' rs',
      sp' = StreamProcessor wq we rp re' kp' (<[slot_of id := Some ptr]> act) st (cnt + 1) s ex
              (<[ptr := Some rs']> h) rd wr ∧
      pool_inv (s, kp') ∧ pool_busy kp' = pool_busy kp ∧
      rs_request_id rs' = rs_request_id rs ∧ rs_packet_stream_id rs' = id ∧
      rs_ok rs' ([], []) ∧ rs_owned rs' = 0 ∧
      event_is_set re' = (if bool_decide (cnt = 0) then false else event_is_set re)).
Proof.
  intros Hpool Hlen Hslot Hptr Hidle Hcnt.
  unfold attach_request_stream. sp_step. sp_step. sp_step. sp_step.
  eapply slot_get; [done|]. sp_step. sp_step. sp_step.
  eapply wp_mono; [by apply (initialize_call _ ptr rs id)|].
  intros [[] sp'] (kp' & rs' & -> & Hpool' & Hbusy & Hid & Hpid & Hok & Hown).
  unfold with_streams. sp_simpl_all.
  sp_step. sp_step. eapply slot_set; [done|]. sp_steps.
  destruct (decide (cnt = 0)) as [Hz|Hz].
  - rewrite !bool_decide_eq_true_2 by lia. sp_step.
    eapply wp_mono; [apply ff_event_reset_spec|]. intros [[] re'] Hre. sp_simpl.
    by exists re', kp', rs'.
  - rewrite !bool_decide_eq_false_2 by lia. sp_step. by exists re, kp', rs'.
Qed.

Lemma detach_spec wq we rp re kp act st cnt s ex h rd wr ptr rs g :
  pool_inv (s, kp) → length act = Z.to_nat MAX_REQUEST_STREAMS_CNT →
  act !! slot_of (rs_request_id rs) = Some (Some ptr) → h !! ptr = Some (Some rs) → rs_ok rs g →
  wp (detach_request_stream ptr (StreamProcessor wq we rp re kp act st cnt s ex h rd wr : SP))
    (λ '(_, sp'), ∃ rp' re' kp' rs',
      sp' = StreamProcessor wq we rp' re' kp' (<[slot_of (rs_request_id rs) := None]> act) st
              (cnt - 1) s ex (<[ptr := Some rs']> h) rd wr ∧
      pool_inv (s, kp') ∧ pool_busy kp' = pool_busy kp - rs_owned rs ∧
      rs_request_id rs' = rs_request_id rs ∧ rs_idle rs' ∧
      pool_free rp' ≡ₚ ptr :: pool_free rp ∧ pool_busy rp' = pool_busy rp - 1 ∧
      event_is_set re' = (if bool_decide (cnt = 1) then true else event_is_set re)).
Proof.
  intros Hpool Hlen Hslot Hptr Hok. unfold detach_request_stream.
  sp_step. apply (wp_request_stream_at _ _ rs); [done|]. sp_simpl. sp_steps.
  eapply slot_get; [done|]. sp_steps.
  eapply wp_mono; [by apply (shutdown_call _ ptr rs g)|].
  intros [[] sp'] (kp' & rs' & -> & Hpool' & Hbusy & Hid & Hidle).
  unfold with_streams. sp_simpl_all.
  sp_step. sp_step. eapply slot_set; [done|]. sp_step. sp_step. sp_step.
  apply wp_on_requests_pool. sp_simpl. sp_step.
  eapply wp_mono; [apply ff_pool_release_entry_spec|]. intros [[] rp'] [Hperm Hrbusy].
  cbn [fst snd set_requests_pool]. unfold set_requests_pool. sp_simpl. sp_steps.
  destruct (decide (cnt = 1)) as [Hz|Hz].
  - rewrite !bool_decide_eq_true_2 by lia. sp_step.
    eapply wp_mono; [apply ff_event_set_spec|]. intros [[] re'] Hre. sp_simpl.
    by exists rp', re', kp', rs'.
  - rewrite !bool_decide_eq_false_2 by lia. sp_step. by exists rp', re, kp', rs'.
Qed.
End attach_specs.
