(* ===== verification/ProcessorInvariant.v ===== *)
(** * The invariant of the stream processors

    What holds of a client or server stream processor whenever all its fibers
    wait, and that the code both processors share preserves it: the registry of
    request streams, the accounting of packets, the contents of the writer queue
    and the agreement between the state, the events and the two fibers. *)

From S2P Require Import Prelude FF FFSync Packet PacketStream StreamProcessor.

(** The mark which stops the writer is on the queue from the moment the reader
    waits for the writer until the writer takes it. *)
Definition closing_mark (rd : reader_point) (wr : writer_point) : list (option mrpc_packet) :=
  match rd, wr with
  | ReaderWaitWriter, WriterIdle => []
  | ReaderWaitWriter, _ => [None]
  | _, _ => []
  end.

Definition is_writer_idle (wr : writer_point) : bool :=
  match wr with WriterIdle => true | _ => false end.

Definition reader_held (rd : reader_point) : Z := match rd with ReaderRead _ => 1 | _ => 0 end.

(** The packet the writer fiber is about to write. *)
Definition writer_packets (wr : writer_point) : list mrpc_packet :=
  match wr with WriterWrite packet => [packet] | _ => [] end.

Definition outbound (p : mrpc_packet) : Prop := sendable (pk_request_id p) p.

Section invariant.
Context {Q W K R E S X : Type}.
Context `{FFBlockingQueue Q mrpc_packet} `{FFBlockingQueue W (option mrpc_packet)}.
Context `{FFPool K mrpc_packet} `{FFPool R nat} `{FFEvent E} `{StreamView S}.
#[local] Abbreviation SP := (stream_processor Q W K R E S X).
Implicit Types (sp : SP) (st : option S) (we re : E) (s : processor_state) (cnt : Z).

Definition stream_ok st : Prop := ∃ stream, st = Some stream ∧ stream_inv stream ∧ writable stream.

(** A connection is being processed. *)
Definition connected we re st cnt s wr : Prop :=
  stream_ok st ∧ is_writer_idle wr = false ∧ event_is_set we = false ∧
  event_is_set re = bool_decide (cnt = 0).

Definition reader_ok we re st cnt s rd wr : Prop :=
  match rd with
  | ReaderIdle => s ≠ STATE_WORKING ∧ st = None ∧ cnt = 0 ∧ wr = WriterIdle ∧ event_is_set we = false
  | ReaderStart => s ≠ STATE_STOPPED ∧ stream_ok st ∧ cnt = 0 ∧ wr = WriterIdle ∧
      event_is_set we = false
  | ReaderAcquire => s ≠ STATE_STOPPED ∧ connected we re st cnt s wr
  | ReaderRead packet => packet_empty packet ∧ s ≠ STATE_STOPPED ∧ connected we re st cnt s wr
  | ReaderWaitRequests => s = STATE_STOP_INITIATED ∧ connected we re st cnt s wr
  | ReaderWaitWriter => s = STATE_STOP_INITIATED ∧ stream_ok st ∧ cnt = 0 ∧
      event_is_set we = is_writer_idle wr
  end.

Definition writer_ok s wr : Prop :=
  match wr with
  | WriterWrite packet => outbound packet
  | WriterSkip => s = STATE_STOP_INITIATED
  | _ => True
  end.

Record sp_inv (sessions : nat → session) (pending : list mrpc_packet) sp : Prop := {
  inv_registry : registry (sp_heap sp) (sp_active_request_streams sp)
    (pool_free (sp_request_streams_pool sp)) (sp_active_request_streams_cnt sp) sessions;
  inv_packets : Forall packet_empty (pool_free (sp_packets_pool sp));
  inv_busy : pool_busy (sp_request_streams_pool sp) = sp_active_request_streams_cnt sp;
  inv_queue : queue_contents (sp_writer_queue sp) =
    (Some <$> pending) ++ closing_mark (sp_reader sp) (sp_writer sp);
  inv_pending : Forall outbound pending;
  inv_idle : sp_writer sp = WriterIdle → pending = [];
  inv_outside : sp_outside sp + zlength (closing_mark (sp_reader sp) (sp_writer sp)) =
    reader_held (sp_reader sp) + zlength (writer_packets (sp_writer sp));
  inv_reader : reader_ok (sp_writer_stop_event sp) (sp_request_streams_stop_event sp) (sp_stream sp)
    (sp_active_request_streams_cnt sp) (sp_state sp) (sp_reader sp) (sp_writer sp);
  inv_writer : writer_ok (sp_state sp) (sp_writer sp)
}.

(** The packets which still have to be written, in order. *)
Definition unsent (pending : list mrpc_packet) sp : list mrpc_packet :=
  writer_packets (sp_writer sp) ++ pending.

Definition stream_out sp : list byte :=
  match sp_stream sp with Some stream => outgoing stream | None => [] end.

(** The request ids of the request streams, and how many there are. *)
Definition heap_ids (heap : list (option (request_stream Q))) : list (option byte) :=
  (λ o : option (request_stream Q), rs_request_id <$> o) <$> heap.

(** Steps which create or delete no request stream. *)
Definition same_requests sp sp' : Prop :=
  sp_extra sp' = sp_extra sp ∧ heap_ids (sp_heap sp') = heap_ids (sp_heap sp) ∧
  Z.of_nat (length (pool_free (sp_request_streams_pool sp'))) + sp_active_request_streams_cnt sp' =
  Z.of_nat (length (pool_free (sp_request_streams_pool sp))) + sp_active_request_streams_cnt sp.

(** The writer fiber has not failed on this connection. *)
Definition writer_alive wr : Prop := wr ≠ WriterSkip ∧ wr ≠ WriterIdle.
End invariant.

(** Instructing a processor which is not stopped to stop. *)
Class StopAsync {Q W K R E S X} `{StreamView S} (stop_async : M (stream_processor Q W K R E S X) unit) : Prop :=
  stop_async_spec wq we rp re kp act st cnt s ex h rd wr : s ≠ STATE_STOPPED → stream_ok st →
    wp (stop_async (StreamProcessor wq we rp re kp act st cnt s ex h rd wr)) (λ '(_, sp'), ∃ st',
      sp' = StreamProcessor wq we rp re kp act st' cnt STATE_STOP_INITIATED ex h rd wr ∧
      stream_ok st' ∧ outgoing <$> st' = outgoing <$> st).

Section shared_specs.
Context {Q W K R E S X : Type}.
Context `{FFBlockingQueueSpec Q mrpc_packet} `{FFBlockingQueueSpec W (option mrpc_packet)}.
Context `{FFPoolSpec K mrpc_packet} `{FFPoolSpec R nat} `{FFEventSpec E}.
Context `{FFStreamSpec S} `{!FFConnection S} `{!FFConnectionSpec S}.
#[local] Abbreviation SP := (stream_processor Q W K R E S X).
Implicit Types (sp : SP).

Lemma release_packet_call wq we rp re kp act st cnt s ex h rd wr p :
  s ≠ STATE_STOPPED → Forall packet_empty (pool_free kp) → zlength (pk_buf p) = MAX_PACKET_SIZE →
  wp (release_processor_packet p (StreamProcessor wq we rp re kp act st cnt s ex h rd wr : SP))
    (λ '(_, sp'), ∃ kp', sp' = StreamProcessor wq we rp re kp' act st cnt s ex h rd wr ∧
      Forall packet_empty (pool_free kp') ∧ pool_busy kp' = pool_busy kp - 1).
Proof.
  intros Hs Hk Hp. unfold release_processor_packet. apply wp_on_packets.
  change (release_stream_packet p) with (release_packet_func (P := processor_state * K) p).
  eapply wp_mono; [by apply (release_packet_func_spec (s, kp) p)|].
  intros [[] [s' kp']] [[_ Hk'] Hbusy]. cbn in *. by exists kp'.
Qed.

Lemma acquire_packet_call wq we rp re kp act st cnt s ex h rd wr :
  s ≠ STATE_STOPPED → Forall packet_empty (pool_free kp) →
  wp (acquire_processor_packet (StreamProcessor wq we rp re kp act st cnt s ex h rd wr : SP))
    (λ '(p, sp'), ∃ kp', sp' = StreamProcessor wq we rp re kp' act st cnt s ex h rd wr ∧
      packet_empty p ∧ Forall packet_empty (pool_free kp') ∧ pool_busy kp' = pool_busy kp + 1).
Proof.
  intros Hs Hk. unfold acquire_processor_packet. apply wp_on_packets.
  change acquire_stream_packet with (acquire_packet_func (P := processor_state * K)).
  eapply wp_mono; [by apply (acquire_packet_func_spec (s, kp))|].
  intros [p [s' kp']] (Hp & [_ Hk'] & Hbusy). cbn in *. by exists kp'.
Qed.

(** The first entry of the writer queue. *)
Lemma queue_head wq pending mark :
  queue_contents wq = (Some <$> pending) ++ mark → queue_contents wq ≠ [] →
  (∃ p rest, pending = p :: rest ∧
     wp (ff_blocking_queue_get wq) (λ '(got, wq'), got = Some p ∧
       queue_contents wq' = (Some <$> rest) ++ mark)) ∨
  (∃ m rest, pending = [] ∧ mark = m :: rest ∧
     wp (ff_blocking_queue_get wq) (λ '(got, wq'), got = m ∧ queue_contents wq' = rest)).
Proof.
  intros Hq Hne. destruct pending as [|p rest]; cbn in Hq.
  - right. destruct mark as [|m rest]; [done|]. exists m, rest. split_and!; [done|done|].
    by apply queue_get_spec.
  - left. exists p, rest. split; [done|]. by apply queue_get_spec.
Qed.

Lemma queue_drained wq : queue_contents wq = [] → ff_blocking_queue_is_empty wq = true.
Proof. intros Hq. by rewrite queue_is_empty_spec, Hq. Qed.

(** ** The writer fiber *)

Definition writer_enabled sp : Prop :=
  match sp_writer sp with
  | WriterIdle => False
  | WriterGet | WriterSkip => queue_contents (sp_writer_queue sp) ≠ []
  | _ => True
  end.

(** What the writer fiber leaves alone. *)
Definition writer_frame sp sp' : Prop :=
  sp_heap sp' = sp_heap sp ∧ sp_active_request_streams sp' = sp_active_request_streams sp ∧
  sp_request_streams_pool sp' = sp_request_streams_pool sp ∧
  sp_active_request_streams_cnt sp' = sp_active_request_streams_cnt sp ∧
  sp_extra sp' = sp_extra sp ∧ sp_reader sp' = sp_reader sp ∧
  (sp_state sp' = sp_state sp ∨ sp_state sp' = STATE_STOP_INITIATED).

(** How much the writer fiber still has to do for the packets of the queue. *)
Definition writer_work (wr : writer_point) : nat :=
  match wr with WriterWrite _ => 2 | WriterStart | WriterFlush => 1 | _ => 0 end.

Definition writer_load sp : nat :=
  (3 * length (queue_contents (sp_writer_queue sp)) + writer_work (sp_writer sp))%nat.

Definition writer_post sessions pending sp (r : unit * SP) : Prop := ∃ pending' gone,
  sp_inv sessions pending' (r.2) ∧ writer_frame sp (r.2) ∧
  (writer_load (r.2) < writer_load sp)%nat ∧
  unsent pending sp = gone ++ unsent pending' (r.2) ∧
  (writer_alive (sp_writer (r.2)) → writer_alive (sp_writer sp) ∧
     stream_out (r.2) = stream_out sp ++ mjoin (packet_bytes <$> gone)).

(** A processor whose writer runs is connected. *)
Lemma running_writer we re st cnt s rd wr :
  reader_ok we re st cnt s rd wr → is_writer_idle wr = false →
  s ≠ STATE_STOPPED ∧ stream_ok st ∧ event_is_set we = false.
Proof.
  intros Hr Hw. destruct rd; cbn in Hr; unfold connected in Hr.
  - destruct Hr as (_ & _ & _ & -> & _). done.
  - destruct Hr as (_ & _ & _ & -> & _). done.
  - naive_solver.
  - naive_solver.
  - destruct Hr as (-> & ? & ? & ? & ?). done.
  - destruct Hr as (-> & ? & ? & He). rewrite Hw in He. done.
Qed.

(** The points of a running writer do not matter to the reader. *)
Lemma reader_ok_writer we re st st' cnt s s' rd wr wr' :
  reader_ok we re st cnt s rd wr → is_writer_idle wr = false → is_writer_idle wr' = false →
  stream_ok st' → s' = s ∨ s' = STATE_STOP_INITIATED → reader_ok we re st' cnt s' rd wr'.
Proof.
  intros Hr Hw Hw' Hst Hs.
  assert (s ≠ STATE_STOPPED → s' ≠ STATE_STOPPED) as Hs' by (destruct Hs; congruence).
  destruct rd; cbn in *; unfold connected in *.
  - destruct Hr as (_ & _ & _ & -> & _). done.
  - destruct Hr as (_ & _ & _ & -> & _). done.
  - naive_solver.
  - naive_solver.
  - destruct Hr as (-> & _ & ? & ? & ?). split_and!; (done || naive_solver).
  - destruct Hr as (-> & ? & ? & He). rewrite Hw in He. rewrite Hw'. naive_solver.
Qed.

Lemma closing_mark_running rd wr wr' :
  is_writer_idle wr = false → is_writer_idle wr' = false → closing_mark rd wr' = closing_mark rd wr.
Proof. by destruct rd, wr, wr'. Qed.

Lemma writer_moves sessions pending wq we rp re kp act st cnt s ex h rd wr
    pending' wq' kp' st' s' wr' :
  sp_inv sessions pending (StreamProcessor wq we rp re kp act st cnt s ex h rd wr : SP) →
  is_writer_idle wr = false → is_writer_idle wr' = false →
  queue_contents wq' = (Some <$> pending') ++ closing_mark rd wr → Forall outbound pending' →
  Forall packet_empty (pool_free kp') →
  pool_busy kp' - zlength pending' - zlength (writer_packets wr') =
    pool_busy kp - zlength pending - zlength (writer_packets wr) →
  stream_ok st' → s' = s ∨ s' = STATE_STOP_INITIATED → writer_ok s' wr' →
  sp_inv sessions pending' (StreamProcessor wq' we rp re kp' act st' cnt s' ex h rd wr').
Proof.
  intros Hinv Hw Hw' Hq Hpend Hkp Hbusy Hst Hs Hok. destruct Hinv as [Hreg _ Hrb Hq0 _ _ Hout Hr _].
  unfold sp_outside, outside_packets in Hout. sp_simpl_all. rewrite Hq0 in Hout.
  split; unfold sp_outside, outside_packets; sp_simpl; try done.
  - by rewrite (closing_mark_running rd wr wr').
  - by intros ->.
  - rewrite Hq, (closing_mark_running rd wr wr') by done. autorewrite with zlen in *. lia.
  - by eapply reader_ok_writer.
Qed.

Lemma frame_refl wq wq' we we' rp re kp kp' act st st' cnt s s' ex h rd wr wr' :
  s' = s ∨ s' = STATE_STOP_INITIATED →
  writer_frame (StreamProcessor wq we rp re kp act st cnt s ex h rd wr : SP)
    (StreamProcessor wq' we' rp re kp' act st' cnt s' ex h rd wr').
Proof. intros Hs. unfold writer_frame. by split_and!. Qed.

Section writer_specs.
Context (stop_async : M SP unit) `{!StopAsync stop_async}.
Context (sessions : nat → session) (we : E) (rp : R) (re : E) (act : list (option nat)) (cnt : Z).
Context (ex : X) (h : list (option (request_stream Q))) (rd : reader_point).
Implicit Types (wq : W) (kp : K) (st : option S) (s : processor_state) (wr : writer_point).

(** A processor in which the writer fiber is at work. *)
#[local] Abbreviation at_work wq kp st s wr :=
  (StreamProcessor wq we rp re kp act st cnt s ex h rd wr : SP).

(** The writer goes on to a point where it holds no packet; [gone] has been
    written to the connection. *)
Lemma writer_goes_on pending pending' wq wq' kp kp' st st' s wr wr' gone :
  sp_inv sessions pending' (at_work wq' kp' st' s wr') →
  (writer_load (at_work wq' kp' st' s wr') < writer_load (at_work wq kp st s wr))%nat →
  writer_packets wr ++ pending = gone ++ writer_packets wr' ++ pending' → writer_alive wr →
  stream_out (at_work wq' kp' st' s wr') =
    stream_out (at_work wq kp st s wr) ++ mjoin (packet_bytes <$> gone) →
  writer_post sessions pending (at_work wq kp st s wr) (tt, at_work wq' kp' st' s wr').
Proof.
  intros Hinv Hload Hun Ha Hout. exists pending', gone. split; [done|].
  split; [apply frame_refl; by left|]. by split_and!.
Qed.

(** [WriterSkip] is entered after a failure: the queue is drained. *)
Lemma writer_failed_spec pending gone wq kp kp' st st' s wr :
  s ≠ STATE_STOPPED → stream_ok st' → writer_packets wr = gone → (0 < writer_work wr)%nat →
  (∀ st2, stream_ok st2 →
     sp_inv sessions pending (at_work wq kp' st2 STATE_STOP_INITIATED WriterSkip)) →
  wp (writer_failed stop_async (at_work wq kp' st' s wr))
    (writer_post sessions pending (at_work wq kp st s wr)).
Proof.
  intros Hs Hst Hgone Hwork Hinv. unfold writer_failed. sp_step.
  eapply wp_mono; [by apply stop_async_spec|]. intros [[] sp'] (st2 & -> & Hst2 & _). sp_simpl.
  sp_steps. exists pending, gone. split; [by apply Hinv|]. split; [apply frame_refl; by right|].
  split; [unfold writer_load; sp_simpl; cbn [snd writer_work]; lia|].
  split; [unfold unsent; sp_simpl; by rewrite Hgone|]. by intros [? _].
Qed.

(** The writer has taken the stop mark. *)
Lemma writer_end_spec wq wq' kp st s wr m rest :
  sp_inv sessions [] (at_work wq kp st s wr) → is_writer_idle wr = false → writer_packets wr = [] →
  closing_mark rd wr = m :: rest → queue_contents wq' = rest →
  m = None ∧ s = STATE_STOP_INITIATED ∧ rest = [] ∧
  wp (writer_end (at_work wq' kp st s wr)) (writer_post sessions [] (at_work wq kp st s wr)).
Proof.
  intros [Hreg Hkp Hrb Hq0 _ _ Hout Hr _] Hw Hnil Hmark Hq. unfold sp_outside, outside_packets in Hout.
  sp_simpl_all. destruct rd; try done.
  assert (closing_mark ReaderWaitWriter wr = [None]) as Hmark' by by destruct wr.
  rewrite Hmark' in *. injection Hmark as <- <-. cbn in Hr. destruct Hr as (-> & Hst & -> & Hwe).
  do 3 (split; [done|]). unfold writer_end. sp_steps.
  eapply wp_mono; [apply ff_event_set_spec|]. intros [[] we'] Hwe'. sp_simpl. sp_step.
  rewrite Hq0, Hnil in Hout. exists [], []. split; [|split; [apply frame_refl; by left|split]]; cbn [snd].
  - split; unfold sp_outside, outside_packets; sp_simpl; try done.
    rewrite Hq. cbn -[zlength] in *. unfold zlength in *. cbn [length] in *. lia.
  - unfold writer_load. sp_simpl. rewrite Hq, Hq0. cbn. lia.
  - unfold unsent. cbn. rewrite Hnil. split; [done|]. by intros [_ ?].
Qed.

#[local] Ltac moves := eapply writer_moves; try done; try (by left); try (by right);
  try (cbn [writer_packets]; zlen).
#[local] Ltac goes_on := eapply writer_goes_on; [moves| | |by split|]; unfold writer_load; sp_simpl;
  cbn [writer_work]; try lia; try done; try (by cbn; rewrite app_nil_r).

Section at_work.
Context (pending : list mrpc_packet) (wq : W) (kp : K) (stream : S) (s : processor_state).

Lemma at_work_facts wr :
  sp_inv sessions pending (at_work wq kp (Some stream) s wr) → is_writer_idle wr = false →
  s ≠ STATE_STOPPED ∧ stream_ok (Some stream) ∧ Forall outbound pending ∧
  Forall packet_empty (pool_free kp) ∧ queue_contents wq = (Some <$> pending) ++ closing_mark rd wr.
Proof.
  intros Hinv Hwr. destruct (running_writer _ _ _ _ _ _ _ (inv_reader _ _ _ Hinv) Hwr) as (Hs & Hst & _).
  split_and!; [done|done|apply (inv_pending _ _ _ Hinv)|apply (inv_packets _ _ _ Hinv)|].
  apply (inv_queue _ _ _ Hinv).
Qed.

(** The writer takes a packet, or the stop mark and ends. *)
Lemma writer_get_spec :
  sp_inv sessions pending (at_work wq kp (Some stream) s WriterGet) → queue_contents wq ≠ [] →
  wp (stream_writer_func stop_async (at_work wq kp (Some stream) s WriterGet))
    (writer_post sessions pending (at_work wq kp (Some stream) s WriterGet)).
Proof.
  intros Hinv Hne. destruct (at_work_facts _ Hinv eq_refl) as (Hs & Hst & Hpend & Hkp & Hq).
  unfold stream_writer_func. sp_step. sp_step. sp_step. sp_step.
  destruct (queue_head wq pending _ Hq Hne) as [(p & rest & -> & Hhead)|(m & rest & -> & Hm & Hhead)];
    (eapply wp_mono; [exact Hhead|]); intros [got wq'] [-> Hq']; sp_simpl.
  - apply Forall_cons in Hpend as [Hp Hrest]. sp_step. goes_on.
    rewrite Hq, Hq', !length_app, !length_fmap. cbn. lia.
  - destruct (writer_end_spec wq wq' kp (Some stream) s WriterGet m rest) as (-> & -> & -> & Hend);
      [done|done|done|done|done|].
    unfold writer_queue_is_empty. sp_steps; [by apply queue_drained|]. exact Hend.
Qed.

(** The packet is written and returned to the pool. *)
Lemma writer_write_spec p :
  sp_inv sessions pending (at_work wq kp (Some stream) s (WriterWrite p)) →
  wp (stream_writer_func stop_async (at_work wq kp (Some stream) s (WriterWrite p)))
    (writer_post sessions pending (at_work wq kp (Some stream) s (WriterWrite p))).
Proof.
  intros Hinv. destruct (at_work_facts _ Hinv eq_refl) as (Hs & Hst & Hpend & Hkp & Hq).
  pose proof (inv_writer _ _ _ Hinv) as Hp. sp_simpl_all. cbn in Hp.
  destruct (Hst) as (stream0 & [= <-] & Hsi & Hsw).
  unfold stream_writer_func. sp_step. sp_step. sp_step. sp_step.
  eapply wp_mono; [apply (packet_write_to_stream_spec p stream); [apply Hp|apply Hp|done|done]|].
  intros [result stream'] Hout. sp_simpl. sp_step.
  eapply wp_mono; [apply release_packet_call; [done|done|apply Hp]|].
  intros [[] sp'] (kp' & -> & Hkp' & Hbusy). sp_simpl. unfold writer_queue_is_empty. sp_step. sp_step.
  assert (stream_ok (Some stream')) as Hst'.
  { exists stream'. split; [done|]. destruct result; split; apply Hout. }
  destruct result.
  - destruct (ff_blocking_queue_is_empty wq); sp_step;
      (eapply (writer_goes_on _ _ _ _ _ _ _ _ _ _ _ [p]);
        [moves|unfold writer_load; sp_simpl; cbn; lia|done|by split|]);
      cbn; rewrite app_nil_r; apply Hout.
  - eapply writer_failed_spec; try done; [cbn; lia|]. intros st2 Hst2. moves.
Qed.

Lemma writer_flush_spec :
  sp_inv sessions pending (at_work wq kp (Some stream) s WriterFlush) →
  wp (stream_writer_func stop_async (at_work wq kp (Some stream) s WriterFlush))
    (writer_post sessions pending (at_work wq kp (Some stream) s WriterFlush)).
Proof.
  intros Hinv. destruct (at_work_facts _ Hinv eq_refl) as (Hs & Hst & Hpend & Hkp & Hq).
  destruct (Hst) as (stream0 & [= <-] & Hsi & Hsw).
  unfold stream_writer_func. sp_step. sp_step. sp_step. sp_step.
  eapply wp_mono; [by apply ff_stream_flush_spec|].
  intros [result stream'] (Hsi' & Hsw' & Hin & Hout). sp_simpl.
  assert (stream_ok (Some stream')) as Hst' by by exists stream'.
  destruct result; [sp_step; goes_on|].
  eapply writer_failed_spec; try done; [cbn; lia|]. intros st2 Hst2. moves.
Qed.

(** After a failure the packets are returned to the pool. *)
Lemma writer_skip_spec :
  sp_inv sessions pending (at_work wq kp (Some stream) s WriterSkip) → queue_contents wq ≠ [] →
  wp (stream_writer_func stop_async (at_work wq kp (Some stream) s WriterSkip))
    (writer_post sessions pending (at_work wq kp (Some stream) s WriterSkip)).
Proof.
  intros Hinv Hne. destruct (at_work_facts _ Hinv eq_refl) as (Hs & Hst & Hpend & Hkp & Hq).
  pose proof (inv_writer _ _ _ Hinv) as Hstop. sp_simpl_all. cbn in Hstop.
  unfold stream_writer_func. sp_step. sp_step.
  unfold skip_writer_queue_packets. sp_step. sp_step.
  destruct (queue_head wq pending _ Hq Hne) as [(p & rest & -> & Hhead)|(m & rest & -> & Hm & Hhead)];
    (eapply wp_mono; [exact Hhead|]); intros [got wq'] [-> Hq']; sp_simpl.
  - apply Forall_cons in Hpend as [Hp Hrest].
    eapply wp_mono; [apply release_packet_call; [done|done|apply Hp]|].
    intros [[] sp'] (kp' & -> & Hkp' & Hbusy). exists rest, [p].
    split; [moves|]. split; [apply frame_refl; by left|]. split.
    { unfold writer_load. sp_simpl. rewrite Hq, Hq', !length_app, !length_fmap. cbn. lia. }
    split; [done|]. by intros [? _].
  - destruct (writer_end_spec wq wq' kp (Some stream) s WriterSkip m rest) as (-> & _ & -> & Hend);
      [done|done|done|done|done|].
    unfold writer_queue_is_empty. sp_steps; [by apply queue_drained|]. exact Hend.
Qed.

Lemma writer_start_spec :
  sp_inv sessions pending (at_work wq kp (Some stream) s WriterStart) →
  wp (stream_writer_func stop_async (at_work wq kp (Some stream) s WriterStart))
    (writer_post sessions pending (at_work wq kp (Some stream) s WriterStart)).
Proof.
  intros Hinv. destruct (at_work_facts _ Hinv eq_refl) as (Hs & Hst & Hpend & Hkp & Hq).
  unfold stream_writer_func. sp_step. sp_step. sp_steps. goes_on.
Qed.
End at_work.
End writer_specs.

(** One step of the writer fiber, wherever it waits. *)
Lemma writer_step_spec (stop_async : M SP unit) `{!StopAsync stop_async} sessions pending sp :
  sp_inv sessions pending sp → writer_enabled sp →
  wp (stream_writer_func stop_async sp) (writer_post sessions pending sp).
Proof.
  destruct sp as [wq we rp re kp act st cnt s ex h rd wr]. intros Hinv Hen.
  unfold writer_enabled in Hen. pose proof (inv_reader _ _ _ Hinv) as Hr. sp_simpl_all.
  assert (is_writer_idle wr = false) as Hwr by by destruct wr.
  destruct (running_writer _ _ _ _ _ _ _ Hr Hwr) as (_ & (stream & -> & _) & _).
  destruct wr; [done|by apply writer_start_spec|by apply writer_get_spec|by eapply writer_write_spec|
    by apply writer_flush_spec|by apply writer_skip_spec].
Qed.

(** ** Calls on active request streams *)

(** While a request stream is active, the writer is not being stopped. *)
Lemma active_not_closing we re st cnt s rd wr :
  reader_ok we re st cnt s rd wr → 0 < cnt → s ≠ STATE_STOPPED ∧ stream_ok st ∧
  closing_mark rd wr = [] ∧ is_writer_idle wr = false.
Proof.
  intros Hr Hcnt. destruct rd; cbn in Hr; unfold connected in Hr.
  - destruct Hr as (_ & _ & -> & _). lia.
  - destruct Hr as (_ & _ & -> & _). lia.
  - by destruct Hr as (? & ? & ? & _).
  - by destruct Hr as (_ & ? & ? & ? & _).
  - by destruct Hr as (-> & ? & ? & _).
  - destruct Hr as (_ & _ & -> & _). lia.
Qed.

Lemma heap_ids_insert h ptr rs rs' :
  h !! ptr = Some (Some rs) → rs_request_id rs' = rs_request_id rs →
  heap_ids (<[ptr := Some rs']> h) = heap_ids (Q:=Q) h.
Proof.
  intros Hptr Hid. unfold heap_ids. rewrite list_fmap_insert. apply list_insert_id.
  rewrite list_lookup_fmap, Hptr. cbn. by rewrite Hid.
Qed.

(** The reader [rd] which makes the call is on its way to a point [rd'] where it
    holds a packet less, if it has pushed one. *)
Lemma request_call_inv sessions pending wq we rp re kp act st cnt s ex h rd0 rd wr i ptr rs op :
  sp_inv sessions pending (StreamProcessor wq we rp re kp act st cnt s ex h rd0 wr : SP) →
  act !! i = Some (Some ptr) → h !! ptr = Some (Some rs) →
  op_allowed (rs_phase rs) op → op ≠ OpTake →
  wp (on_packet_stream ptr (stream_step op) (StreamProcessor wq we rp re kp act st cnt s ex h rd wr))
    (λ '(taken, sp'), ∃ wq' kp' rs' new, taken = [] ∧
      sp' = StreamProcessor wq' we rp re kp' act st cnt s ex (<[ptr := Some rs']> h) rd wr ∧
      rs_request_id rs' = rs_request_id rs ∧ Forall (sendable (rs_request_id rs)) new ∧
      ∀ rd', reader_held rd' = reader_held rd0 - op_pushed op → reader_ok we re st cnt s rd' wr →
        sp_inv (new_session sessions i ((sessions i).1 ++ new, (sessions i).2 ++ op_written op))
          (pending ++ new)
          (StreamProcessor wq' we rp re kp' act st cnt s ex (<[ptr := Some rs']> h) rd' wr)).
Proof.
  intros [Hreg Hkp Hrb Hq Hpend Hidle Hout Hr Hw] Hi Hptr Hop Htake. sp_simpl_all.
  pose proof (registry_cnt_pos _ _ _ _ _ _ _ Hreg Hi) as Hcnt.
  destruct (active_not_closing _ _ _ _ _ _ _ Hr Hcnt) as (Hs & Hst & Hmark & Hwidle).
  rewrite Hmark in Hq, Hout. rewrite app_nil_r in Hq.
  eapply wp_mono; [by eapply (request_stream_call _ sessions i ptr rs op)|].
  intros [taken sp'] (wq' & kp' & rs' & new & -> & -> & [_ Hkp'] & Hid & Hreg' & Hq' & Hsend & Hout').
  sp_simpl_all. exists wq', kp', rs', new. do 4 (split; [done|]). intros rd' Hheld Hr'.
  destruct (active_not_closing _ _ _ _ _ _ _ Hr' Hcnt) as (_ & _ & Hmark' & _).
  split; sp_simpl; try done.
  - by rewrite Hmark', Hq', Hq, fmap_app, app_nil_r.
  - apply Forall_app. split; [done|]. eapply Forall_impl; [exact Hsend|].
    intros p (? & ? & ?). by split_and!.
  - intros ->. done.
  - rewrite Hmark'. unfold sp_outside, with_streams in *. sp_simpl_all. lia.
Qed.

(** The packets with the request id of slot [i]. *)
Definition packets_for (i : nat) (ps : list mrpc_packet) : list mrpc_packet :=
  filter (λ p, slot_of (pk_request_id p) = i) ps.

Lemma packets_for_sendable id i ps : Forall (sendable id) ps →
  packets_for i ps = if decide (slot_of id = i) then ps else [].
Proof.
  unfold packets_for. induction 1 as [|p ps (_ & _ & Hid) _ IH]; [by case_decide|].
  rewrite filter_cons, IH, Hid. by case_decide.
Qed.

Lemma packets_for_app i ps qs : packets_for i (ps ++ qs) = packets_for i ps ++ packets_for i qs.
Proof. apply filter_app. Qed.

(** The session of slot [i] has queued its part of [new]. *)
Definition grows (i : nat) (new : list mrpc_packet) (g g' : session) : Prop :=
  g'.1 = g.1 ++ packets_for i new.

Lemma grows_nil i g : grows i [] g g.
Proof. unfold grows. cbn. by rewrite app_nil_r. Qed.

Lemma grows_app i new1 new2 g g1 g2 :
  grows i new1 g g1 → grows i new2 g1 g2 → grows i (new1 ++ new2) g g2.
Proof. unfold grows. intros H1' H2'. by rewrite H2', H1', packets_for_app, app_assoc. Qed.

Lemma grows_session sessions i id new sent j :
  Forall (sendable id) new → slot_of id = i →
  grows j new (sessions j) (new_session sessions i ((sessions i).1 ++ new, sent) j).
Proof.
  intros Hsend Hslot. unfold grows, new_session. rewrite (packets_for_sendable id) by done.
  rewrite Hslot. destruct (decide (j = i)) as [->|Hne].
  - by rewrite decide_True.
  - rewrite decide_False by congruence. by rewrite app_nil_r.
Qed.

Lemma disconnect_call ptr sp R' :
  wp (on_packet_stream ptr (stream_step OpDisconnect) sp) R' →
  wp (on_packet_stream ptr mrpc_packet_stream_disconnect sp) (λ r, R' ([], r.2)).
Proof.
  unfold on_packet_stream. destruct (sp_heap sp !! ptr) as [[rs|]|]; [|done..].
  cbn [stream_step]. unfold mbind, M_bind. by destruct (mrpc_packet_stream_disconnect _) as [[? ?]|].
Qed.

Lemma disconnect_loop_spec n i0 sessions pending wq we rp re kp act st cnt s ex h rd0 rd wr :
  sp_inv sessions pending (StreamProcessor wq we rp re kp act st cnt s ex h rd0 wr : SP) →
  0 <= i0 → i0 + Z.of_nat n <= MAX_REQUEST_STREAMS_CNT →
  wp (disconnect_loop n i0 (StreamProcessor wq we rp re kp act st cnt s ex h rd wr))
    (λ '(_, sp'), ∃ wq' kp' h' new sessions',
      sp' = StreamProcessor wq' we rp re kp' act st cnt s ex h' rd wr ∧
      heap_ids h' = heap_ids h ∧
      (∀ j, grows j new (sessions j) (sessions' j) ∧ (sessions' j).2 = (sessions j).2) ∧
      ∀ rd', reader_held rd' = reader_held rd0 → reader_ok we re st cnt s rd' wr →
        closing_mark rd' wr = closing_mark rd0 wr →
        sp_inv sessions' (pending ++ new)
          (StreamProcessor wq' we rp re kp' act st cnt s ex h' rd' wr)).
Proof.
  revert i0 sessions pending wq kp h. induction n as [|n IH];
    intros i0 sessions pending wq kp h Hinv Hi0 Hn; cbn [disconnect_loop].
  { sp_step. exists wq, kp, h, [], sessions. split; [done|]. split; [done|].
    split; [intros j; split; [apply grows_nil|done]|]. intros rd' Hheld Hr' Hmark'. rewrite app_nil_r.
    destruct Hinv as [? ? ? Hq ? ? Hout ? ?]. sp_simpl_all.
    split; sp_simpl; rewrite ?Hmark', ?Hheld; done. }
  pose proof (inv_registry _ _ _ Hinv) as Hreg. sp_simpl_all. change MAX_REQUEST_STREAMS_CNT with 256 in Hn.
  destruct (lookup_lt_is_Some_2 act (Z.to_nat i0)) as [slot Hslot].
  { rewrite (reg_length _ _ _ _ _ Hreg). change MAX_REQUEST_STREAMS_CNT with 256. lia. }
  sp_step. sp_step. sp_step. sp_step. eapply wp_arr_get; [done|done|].
  destruct slot as [ptr|].
  2:{ sp_step. sp_step. apply IH; [done|lia|change MAX_REQUEST_STREAMS_CNT with 256; lia]. }
  destruct (reg_active _ _ _ _ _ Hreg _ _ Hslot) as (rs & Hrs & Hid & _).
  pose proof (request_call_inv _ _ _ _ _ _ _ _ _ _ _ _ _ rd0 rd _ _ _ _ OpDisconnect Hinv Hslot Hrs I)
    as Hcall.
  sp_step. eapply wp_mono; [by eapply disconnect_call, Hcall|].
  intros [[] sp1] (wq1 & kp1 & rs1 & new1 & _ & Hsp1 & Hid1 & Hsend & Hinv1). cbn [snd] in Hsp1. subst sp1.
  specialize (Hinv1 rd0 ltac:(cbn; lia) (inv_reader _ _ _ Hinv)). sp_simpl_all. cbn [op_written] in Hinv1.
  eapply wp_mono; [apply IH; [exact Hinv1|lia|change MAX_REQUEST_STREAMS_CNT with 256; lia]|].
  intros [[] sp'] (wq2 & kp2 & h2 & new2 & sessions2 & -> & Hids & Hgrow & Hinv2).
  exists wq2, kp2, h2, (new1 ++ new2), sessions2. split; [done|].
  split; [rewrite Hids; by eapply heap_ids_insert|]. split.
  - intros j. destruct (Hgrow j) as [Hg2 Hs2]. split.
    + eapply grows_app; [|exact Hg2]. by eapply grows_session.
    + rewrite Hs2. unfold new_session. case_decide; [subst; cbn; apply app_nil_r|done].
  - rewrite <- app_assoc in Hinv2. exact Hinv2.
Qed.

(** ** Attaching and detaching *)

(** The number of active request streams changes together with the event. *)
Lemma reader_ok_cnt we re re' st cnt cnt' s rd wr :
  reader_ok we re st cnt s rd wr → rd ≠ ReaderIdle → rd ≠ ReaderStart → rd ≠ ReaderWaitWriter →
  event_is_set re' = bool_decide (cnt' = 0) → reader_ok we re' st cnt' s rd wr.
Proof.
  intros Hr Hni Hns Hnw Hre. destruct rd; try done; cbn in *; unfold connected in *;
    destruct_and?; split_and!; done.
Qed.

Lemma active_reader we re st cnt s rd wr :
  reader_ok we re st cnt s rd wr → 0 < cnt →
  rd ≠ ReaderIdle ∧ rd ≠ ReaderStart ∧ rd ≠ ReaderWaitWriter ∧
  event_is_set re = bool_decide (cnt = 0).
Proof.
  intros Hr Hcnt. destruct rd; cbn in *; unfold connected in *; destruct_and?; split_and?; (done || lia).
Qed.

Lemma detach_inv sessions pending wq we rp re kp act st cnt s ex h rd wr i ptr :
  sp_inv sessions pending (StreamProcessor wq we rp re kp act st cnt s ex h rd wr : SP) →
  act !! i = Some (Some ptr) →
  wp (detach_request_stream ptr (StreamProcessor wq we rp re kp act st cnt s ex h rd wr))
    (λ '(_, sp'), ∃ rp' re' kp' h',
      sp' = StreamProcessor wq we rp' re' kp' (<[i := None]> act) st (cnt - 1) s ex h' rd wr ∧
      sp_inv sessions pending sp' ∧
      same_requests (StreamProcessor wq we rp re kp act st cnt s ex h rd wr) sp').
Proof.
  intros [Hreg Hkp Hrb Hq Hpend Hidle Hout Hr Hw] Hi. sp_simpl_all.
  destruct (reg_active _ _ _ _ _ Hreg i ptr Hi) as (rs & Hrs & <- & Hpid & Hok).
  pose proof (registry_cnt_pos _ _ _ _ _ _ _ Hreg Hi) as Hcnt.
  destruct (active_reader _ _ _ _ _ _ _ Hr Hcnt) as (Hni & Hns & Hnw & Hre).
  destruct (active_not_closing _ _ _ _ _ _ _ Hr Hcnt) as (Hs & Hst & Hmark & Hwidle).
  eapply wp_mono.
  { eapply (detach_spec _ _ _ _ _ _ _ _ _ _ _ _ _ ptr rs); try done.
    apply (reg_length _ _ _ _ _ Hreg). }
  intros [[] sp'] (rp' & re' & kp' & rs' & -> & [_ Hkp'] & Hbusy & Hid & Hidle' & Hperm & Hrb' & Hre').
  destruct (registry_detach _ _ _ _ _ _ _ _ _ _ Hreg Hi Hrs Hidle' Hperm) as [Hreg' Hown].
  exists rp', re', kp', (<[ptr := Some rs']> h). split; [done|]. split.
  - split; sp_simpl; try done; [lia| |].
    + unfold sp_outside, outside_packets in *. sp_simpl_all. lia.
    + eapply reader_ok_cnt; try done. rewrite Hre', Hre.
      destruct (decide (cnt = 1)); [by rewrite !bool_decide_eq_true_2 by lia|].
      by rewrite !bool_decide_eq_false_2 by lia.
  - unfold same_requests. sp_simpl. split; [done|]. split; [by eapply heap_ids_insert|].
    rewrite Hperm. cbn [length]. lia.
Qed.

Definition with_request_id (rs : request_stream Q) (id : byte) : request_stream Q :=
  RequestStream (rs_reader_queue rs) (rs_current_read_packet rs) (rs_current_write_packet rs)
    (rs_packet_stream_id rs) id.

Lemma with_same_request_id rs : with_request_id rs (rs_request_id rs) = rs.
Proof. by destruct rs. Qed.

Lemma rs_owned_none rs : rs_owned rs = 0 →
  rs_current_read_packet rs = None ∧ rs_current_write_packet rs = None ∧
  queue_contents (rs_reader_queue rs) = [].
Proof.
  unfold rs_owned, count, zlength.
  destruct (rs_current_read_packet rs), (rs_current_write_packet rs), (queue_contents _);
    cbn [length]; (done || lia).
Qed.

(** The request stream [ptr] was taken from the pool [rp0], which is [rp] now; it
    gets the request id [id]. *)
Lemma attach_inv sessions pending wq we rp0 rp re kp act st cnt s ex0 ex h0 h rd wr ptr rs id :
  sp_inv sessions pending (StreamProcessor wq we rp0 re kp act st cnt s ex0 h0 rd wr : SP) →
  registry h act (pool_free rp) cnt sessions → detached act (pool_free rp) ptr →
  total (slot_owned h <$> act) = total (slot_owned h0 <$> act) →
  pool_busy rp = cnt + 1 → h !! ptr = Some (Some rs) → rs_idle rs →
  act !! slot_of id = Some None → s ≠ STATE_STOPPED → cnt < MAX_REQUEST_STREAMS_CNT →
  rd ≠ ReaderIdle → rd ≠ ReaderStart → rd ≠ ReaderWaitWriter →
  wp (attach_request_stream ptr id (StreamProcessor wq we rp re kp act st cnt s ex h rd wr : SP))
    (λ '(_, sp'), ∃ re' kp' rs',
      sp' = StreamProcessor wq we rp re' kp' (<[slot_of id := Some ptr]> act) st (cnt + 1) s ex
              (<[ptr := Some rs']> h) rd wr ∧
      rs_request_id rs' = rs_request_id rs ∧ rs_owned rs' = 0 ∧
      sp_inv (new_session sessions (slot_of id) ([], [])) pending
        (StreamProcessor wq we rp re' kp' (<[slot_of id := Some ptr]> act) st (cnt + 1) s ex
           (<[ptr := Some (with_request_id rs' id)]> h) rd wr)).
Proof.
  intros [_ Hkp _ Hq Hpend Hidle Hout Hr Hw] Hreg Hdet Howned Hrb Hptr Hrs Hslot Hs Hlt Hni Hns Hnw.
  sp_simpl_all. pose proof (registry_cnt_range _ _ _ _ _ Hreg) as Hcnt.
  assert (event_is_set re = bool_decide (cnt = 0)) as Hre.
  { destruct rd; try done; cbn in Hr; unfold connected in Hr; by destruct_and?. }
  eapply wp_mono.
  { eapply (attach_spec _ _ _ _ _ _ _ _ _ _ _ _ _ ptr rs id); try done; [|lia].
    apply (reg_length _ _ _ _ _ Hreg). }
  intros [[] sp'] (re' & kp' & rs' & -> & [_ Hkp'] & Hbusy & Hid & Hpid & Hok & Hown & Hre').
  destruct (registry_attach _ _ _ _ _ ptr rs (with_request_id rs' id) id ([], []) Hreg Hdet Hptr
              Hslot) as [Hreg' Hown']; [done..|].
  exists re', kp', rs'. do 3 (split; [done|]).
  split; sp_simpl; try done.
  - unfold sp_outside, outside_packets in *. sp_simpl_all.
    change (rs_owned (with_request_id rs' id)) with (rs_owned rs') in Hown'. lia.
  - eapply reader_ok_cnt; try done. rewrite Hre', Hre, (bool_decide_eq_false_2 (cnt + 1 = 0)) by lia.
    by destruct (bool_decide (cnt = 0)).
Qed.

(** ** The end of the reader fiber *)

(** The client asserts once more that there are no request streams. *)
Lemma assert_no_requests_again (m : M SP unit) sp :
  (all_request_streams_stopped;; assert_no_request_streams;; m) sp =
  (all_request_streams_stopped;; m) sp.
Proof.
  unfold all_request_streams_stopped, assert_no_request_streams, field, mbind, M_bind.
  destruct (on_requests_event _ sp) as [[[] sp']|]; [|done].
  destruct (bool_decide _) eqn:Hcnt; cbn; by rewrite ?Hcnt.
Qed.

Lemma requests_stopped_spec sessions pending wq we rp re kp act st cnt s ex h wr :
  sp_inv sessions pending
    (StreamProcessor wq we rp re kp act st cnt s ex h ReaderWaitRequests wr : SP) →
  event_is_set re = true →
  wp ((all_request_streams_stopped;; stop_stream_writer)
        (StreamProcessor wq we rp re kp act st cnt s ex h ReaderWaitRequests wr))
    (λ '(_, sp'), ∃ wq' re', cnt = 0 ∧ s = STATE_STOP_INITIATED ∧
      queue_contents wq' = queue_contents wq ++ [None] ∧
      sp' = StreamProcessor wq' we rp re' kp act st cnt s ex h ReaderWaitWriter wr ∧
      sp_inv sessions pending sp').
Proof.
  intros [Hreg Hkp Hrb Hq Hpend Hidle Hout Hr Hw] Hset. sp_simpl_all.
  destruct Hr as (-> & Hst & Hwi & Hwe & Hre).
  rewrite Hset in Hre. symmetry in Hre. apply bool_decide_eq_true_1 in Hre. subst cnt.
  unfold all_request_streams_stopped, assert_no_request_streams, stop_stream_writer.
  sp_step. sp_step. sp_step. eapply wp_mono; [by apply ff_event_wait_spec|].
  intros [[] re'] Hre'. sp_simpl. sp_steps.
  eapply wp_mono; [apply queue_put_spec|]. intros [[] wq'] Hq'. sp_simpl. sp_step.
  exists wq', re'. do 4 (split; [done|]).
  assert (closing_mark ReaderWaitWriter wr = [None]) as Hmark by by destruct wr.
  split; sp_simpl; try done.
  - rewrite Hmark, Hq', Hq. cbn [closing_mark]. by rewrite app_nil_r.
  - unfold sp_outside, outside_packets in *. sp_simpl_all. rewrite Hmark, Hq'.
    cbn [closing_mark reader_held] in *. unfold zlength in *. rewrite length_app.
    cbn [length] in *. lia.
  - cbn. by rewrite Hwi.
Qed.

(** The reader has waited for the writer: the processor is quiet. *)
Lemma processor_stopped_spec sessions pending wq we rp re kp act st cnt s ex h wr :
  sp_inv sessions pending
    (StreamProcessor wq we rp re kp act st cnt s ex h ReaderWaitWriter wr : SP) →
  event_is_set we = true →
  wr = WriterIdle ∧ pending = [] ∧
  wp (on_writer_event ff_event_wait
        (StreamProcessor wq we rp re kp act st cnt s ex h ReaderWaitWriter wr))
    (λ '(_, sp'), ∃ we',
      sp' = StreamProcessor wq we' rp re kp act st cnt s ex h ReaderWaitWriter wr ∧
      ∀ s', s' ≠ STATE_WORKING → sp_inv sessions pending
        (StreamProcessor wq we' rp re kp act None cnt s' ex h ReaderIdle wr)).
Proof.
  intros [Hreg Hkp Hrb Hq Hpend Hidle Hout Hr Hw] Hset. sp_simpl_all.
  destruct Hr as (-> & Hst & -> & Hwe). rewrite Hset in Hwe.
  assert (wr = WriterIdle) as -> by by destruct wr. split; [done|]. split; [by apply Hidle|].
  sp_step. eapply wp_mono; [by apply ff_event_wait_spec|]. intros [[] we'] Hwe'. sp_simpl.
  exists we'. split; [done|]. intros s' Hs'. by split.
Qed.

(** ** The reader fiber *)

(** Points of a reader which processes a connection. *)
Definition is_connected (rd : reader_point) : bool :=
  match rd with ReaderAcquire | ReaderRead _ | ReaderWaitRequests => true | _ => false end.

Lemma reader_ok_connected we re st cnt s rd wr :
  reader_ok we re st cnt s rd wr → is_connected rd = true →
  s ≠ STATE_STOPPED ∧ connected we re st cnt s wr.
Proof. intros Hr Hrd. destruct rd; try done; cbn in Hr; destruct_and?; split; congruence. Qed.

Lemma connected_point rd we re st cnt s wr :
  (∀ p, rd = ReaderRead p → packet_empty p) → (rd = ReaderWaitRequests → s = STATE_STOP_INITIATED) →
  is_connected rd = true → s ≠ STATE_STOPPED → connected we re st cnt s wr →
  reader_ok we re st cnt s rd wr.
Proof. intros Hp Hw Hrd Hs Hc. destruct rd; try done; cbn; auto. Qed.

Lemma reader_moves sessions pending wq we rp re kp act st cnt s ex h rd wr kp' st' s' rd' :
  sp_inv sessions pending (StreamProcessor wq we rp re kp act st cnt s ex h rd wr : SP) →
  is_connected rd = true → is_connected rd' = true → Forall packet_empty (pool_free kp') →
  pool_busy kp' - reader_held rd' = pool_busy kp - reader_held rd → stream_ok st' →
  s' = s ∨ s' = STATE_STOP_INITIATED → (∀ p, rd' = ReaderRead p → packet_empty p) →
  (rd' = ReaderWaitRequests → s' = STATE_STOP_INITIATED) →
  sp_inv sessions pending (StreamProcessor wq we rp re kp' act st' cnt s' ex h rd' wr).
Proof.
  intros [Hreg Hkp Hrb Hq Hpend Hidle Hout Hr Hw] Hrd Hrd' Hkp' Hbusy Hst' Hs' Hread Hwait.
  sp_simpl_all. destruct (reader_ok_connected _ _ _ _ _ _ _ Hr Hrd) as [Hs (_ & Hwi & Hwe & Hre)].
  assert (∀ rd, is_connected rd = true → closing_mark rd wr = []) as Hmark by by intros [].
  rewrite (Hmark rd Hrd) in Hq, Hout.
  split; unfold sp_outside, outside_packets in *; sp_simpl_all; rewrite ?(Hmark rd' Hrd'); try done.
  - lia.
  - apply connected_point; try done. destruct Hs'; congruence.
  - destruct Hs' as [->| ->]; [done|]. by destruct wr.
Qed.

(** A processor which is stopped while its fibers run. *)
Lemma stop_inv sessions pending wq we rp re kp act st cnt s ex h rd wr st' :
  sp_inv sessions pending (StreamProcessor wq we rp re kp act st cnt s ex h rd wr : SP) →
  rd ≠ ReaderIdle → stream_ok st' →
  sp_inv sessions pending (StreamProcessor wq we rp re kp act st' cnt STATE_STOP_INITIATED ex h rd wr).
Proof.
  intros [Hreg Hkp Hrb Hq Hpend Hidle Hout Hr Hw] Hrd Hst'. sp_simpl_all.
  split; try done; sp_simpl; [|by destruct wr].
  destruct rd; try done; cbn in *; unfold connected in *; destruct_and?; split_and!; done.
Qed.

Lemma not_idle_running we re st cnt s rd wr :
  reader_ok we re st cnt s rd wr → s = STATE_WORKING → rd ≠ ReaderIdle ∧ stream_ok st.
Proof.
  intros Hr ->. destruct rd; cbn in Hr; unfold connected in Hr; destruct_and?; done.
Qed.

(** The code after a [break] of the reader's loop; the reader holds no packet any
    more, whatever its last point [rd] was. *)
Lemma reader_break_spec (stop_async : M SP unit) `{!StopAsync stop_async}
    sessions pending wq we rp re kp act st cnt s ex h rd wr :
  sp_inv sessions pending (StreamProcessor wq we rp re kp act st cnt s ex h ReaderAcquire wr : SP) →
  wp ((stop_async;; assert_state is_stop_initiated;; stop_all_request_streams)
        (StreamProcessor wq we rp re kp act st cnt s ex h rd wr))
    (λ '(_, sp'), ∃ wq' kp' h' st' new sessions',
      sp' = StreamProcessor wq' we rp re kp' act st' cnt STATE_STOP_INITIATED ex h'
              ReaderWaitRequests wr ∧
      heap_ids h' = heap_ids h ∧ outgoing <$> st' = outgoing <$> st ∧
      (∀ j, grows j new (sessions j) (sessions' j) ∧ (sessions' j).2 = (sessions j).2) ∧
      sp_inv sessions' (pending ++ new) sp').
Proof.
  intros Hinv. pose proof (inv_reader _ _ _ Hinv) as Hr. sp_simpl_all. destruct Hr as (Hs & Hst & Hc).
  sp_step. eapply wp_mono; [by apply stop_async_spec|]. intros [[] sp'] (st' & -> & Hst' & Hout).
  sp_simpl. sp_steps. unfold stop_all_request_streams. sp_steps.
  eapply wp_mono.
  { apply (disconnect_loop_spec _ _ sessions pending _ _ _ _ _ _ _ _ _ _ _ ReaderAcquire);
      [by eapply stop_inv|lia|change MAX_REQUEST_STREAMS_CNT with 256; lia]. }
  intros [[] sp'] (wq' & kp' & h' & new & sessions' & -> & Hids & Hgrow & Hinv'). sp_simpl. sp_step.
  exists wq', kp', h', st', new, sessions'. do 4 (split; [done|]).
  apply Hinv'; [done| |done]. cbn. split; [done|]. split; [done|]. apply Hc.
Qed.

(** What the reader gets from the connection. *)
Lemma reader_read_spec sessions pending wq we rp re kp act st cnt s ex h p wr :
  sp_inv sessions pending (StreamProcessor wq we rp re kp act st cnt s ex h (ReaderRead p) wr : SP) →
  wp (on_stream (mrpc_packet_read_from_stream p)
        (StreamProcessor wq we rp re kp act st cnt s ex h (ReaderRead p) wr))
    (λ '(r, p', sp'), ∃ st',
      sp' = StreamProcessor wq we rp re kp act st' cnt s ex h (ReaderRead p) wr ∧
      stream_ok st' ∧ outgoing <$> st' = outgoing <$> st ∧ zlength (pk_buf p') = MAX_PACKET_SIZE ∧
      (r = FF_SUCCESS → packet_inv p' ∧ pk_curr_pos p' = 0)).
Proof.
  intros Hinv. pose proof (inv_reader _ _ _ Hinv) as Hr. sp_simpl_all.
  destruct Hr as (Hp & Hs & (stream & -> & Hsi & Hsw) & _). sp_step.
  eapply wp_mono; [apply packet_read_from_stream_spec; [apply Hp|apply Hp|apply Hp|done]|].
  intros [[r p'] stream'] (Hb & (Hsi' & (Hsw' & _) & Hout) & Hok). exists (Some stream').
  split; [done|]. split; [exists stream'; auto|]. split; [cbn; by rewrite Hout|].
  split; [done|]. intros ->. destruct (Hok eq_refl) as (? & ? & _). done.
Qed.
End shared_specs.
