(* ===== verification/ProcessorRun.v ===== *)
(** * Runs of the stream processors

    A client or server stream processor with its users and its two fibers is a
    transition system: a step is a call of a user, or what a fiber does between
    two points where it waits.  This file holds what the two systems share: the
    interface [ProcessorSystem] with its laws, the properties of the runs which
    follow from the laws, and the parts of the steps both processors have. *)

From S2P Require Import Prelude FF FFSync Packet PacketStream StreamProcessor ProcessorInvariant.

(** The operations users have on a request stream. *)
Definition is_user_op (op : stream_op) : bool :=
  match op with OpPush _ | OpTake => false | _ => true end.

Section definitions.
Context {Q W K R E S X : Type}.
Context `{FFBlockingQueue Q mrpc_packet} `{FFBlockingQueue W (option mrpc_packet)}.
Context `{FFPool K mrpc_packet} `{FFPool R nat} `{FFEvent E} `{StreamView S}.
#[local] Abbreviation SP := (stream_processor Q W K R E S X).
Implicit Types (sp : SP).

(** The calls of [request_stream_wrapper_vtable]. *)
Definition request_op (ptr : nat) (op : stream_op) : M SP unit :=
  match op with
  | OpRead len => read_from_request_stream_wrapper ptr len;; mret tt
  | OpWrite buf => write_to_request_stream_wrapper ptr buf;; mret tt
  | OpFlush => flush_request_stream_wrapper ptr;; mret tt
  | OpDisconnect => disconnect_request_stream_wrapper ptr
  | OpPush _ | OpTake => mret tt
  end.

(** The reader fiber does not have to wait. *)
Definition reader_enabled sp : Prop :=
  match sp_reader sp with
  | ReaderIdle => False
  | ReaderStart | ReaderAcquire | ReaderRead _ => True
  | ReaderWaitRequests => event_is_set (sp_request_streams_stop_event sp) = true
  | ReaderWaitWriter => event_is_set (sp_writer_stop_event sp) = true
  end.

(** The packets which still have to be written, as the processor stores them. *)
Definition sp_unsent sp : list mrpc_packet :=
  writer_packets (sp_writer sp) ++ omap id (queue_contents (sp_writer_queue sp)).

(** [ptr] is an active request stream, in slot [i], whose contents are [rs]. *)
Definition active_at sp (i ptr : nat) (rs : request_stream Q) : Prop :=
  sp_active_request_streams sp !! i = Some (Some ptr) ∧ sp_heap sp !! ptr = Some (Some rs).

(** The owner of the request stream [ptr] may call [op] on it. *)
Definition request_allowed sp (ptr : nat) (op : stream_op) : Prop :=
  is_user_op op = true ∧ ∃ i rs, active_at sp i ptr rs ∧ op_allowed (rs_phase rs) op.

(** The packets all parts of the processor hold. *)
Definition held_packets sp : Z :=
  total (slot_owned (sp_heap sp) <$> sp_active_request_streams sp) +
  zlength (omap id (queue_contents (sp_writer_queue sp))) +
  reader_held (sp_reader sp) + zlength (writer_packets (sp_writer sp)).

(** How many steps the fibers still make, once all request streams are released. *)
Definition work_left sp : nat :=
  (writer_load sp +
  match sp_reader sp with ReaderWaitRequests => 5 | ReaderWaitWriter => 1 | _ => 0 end)%nat.

(** The reader has left its loop. *)
Definition is_closing sp : Prop :=
  match sp_reader sp with ReaderWaitRequests | ReaderWaitWriter => True | _ => False end.

Definition is_stopped sp : Prop := sp_reader sp = ReaderIdle ∧ sp_state sp = STATE_STOPPED.

(** The writer fiber is going to run, or has not failed. *)
Definition sending sp : Prop := sp_reader sp = ReaderStart ∨ writer_alive (sp_writer sp).

(** [rs'] is [rs] with one more packet to read. *)
Definition received (q : mrpc_packet) (rs rs' : request_stream Q) : Prop :=
  queue_contents (rs_reader_queue rs') = queue_contents (rs_reader_queue rs) ++ [q] ∧
  rs_current_read_packet rs' = rs_current_read_packet rs ∧
  rs_current_write_packet rs' = rs_current_write_packet rs ∧
  rs_packet_stream_id rs' = rs_packet_stream_id rs ∧ rs_request_id rs' = rs_request_id rs.

(** The reader fiber ends after it has waited for the writer only. *)
Definition reader_ends sp sp' : Prop :=
  sp_reader sp' = ReaderIdle → sp_reader sp = ReaderIdle ∨ sp_reader sp = ReaderWaitWriter.

(** What a step with the post-condition below may do to the other requests:
    [new] are the packets put on the writer queue, [gone] those which the writer
    has written, or dropped after a failure. *)
Definition step_effect (inv : (nat → session) → list mrpc_packet → SP → Prop)
    (written : nat → list byte) (connect : bool) (released : nat → Prop)
    sessions pending sp (r : unit * SP) : Prop :=
  ∃ sessions' pending' new gone, inv sessions' pending' (r.2) ∧
  reader_ends sp (r.2) ∧
  unsent pending sp ++ new = gone ++ unsent pending' (r.2) ∧
  (connect = false → sending (r.2) → sending sp ∧
     stream_out (r.2) = stream_out sp ++ mjoin (packet_bytes <$> gone)) ∧
  ∀ i ptr, sp_active_request_streams sp !! i = Some (Some ptr) → ¬ released ptr →
    sp_active_request_streams (r.2) !! i = Some (Some ptr) ∧
    grows i new (sessions i) (sessions' i) ∧
    (sessions' i).2 = (sessions i).2 ++ written ptr.
End definitions.

(** ** The transition system *)

(** The steps: those of the fibers, what a step writes to the request stream with
    the given pointer, whether it starts a connection, and whether it releases a
    request stream. *)
Class ProcessorOp (Op : Type) := {
  reader_op : Op;
  writer_op : Op;
  written_by : nat → Op → list byte;
  is_connect : Op → bool;
  releases : Op → nat → Prop;
}.

Definition is_fiber_step `{ProcessorOp Op} (op : Op) : Prop := op = reader_op ∨ op = writer_op.

(** Their meaning, and the invariant of the system. *)
Class ProcessorSystem (Op Q W K R E S X : Type) := {
  system_step : Op → M (stream_processor Q W K R E S X) unit;
  system_enabled : Op → stream_processor Q W K R E S X → Prop;
  system_inv : (nat → session) → list mrpc_packet → stream_processor Q W K R E S X → Prop;
  stop_processor : M (stream_processor Q W K R E S X) unit;
}.

Section runs.
Context {Op Q W K R E S X : Type} `{!ProcessorOp Op}.
Context `{FFBlockingQueueSpec Q mrpc_packet} `{FFBlockingQueueSpec W (option mrpc_packet)}.
Context `{FFPoolSpec K mrpc_packet} `{FFPoolSpec R nat} `{FFEventSpec E}.
Context `{FFStreamSpec S} `{!FFConnection S} `{!FFConnectionSpec S}.
#[local] Abbreviation SP := (stream_processor Q W K R E S X).
Implicit Types (sp : SP).

(** A run of the users and the fibers: a sequence of enabled steps. *)
Inductive run `{!ProcessorSystem Op Q W K R E S X} : list Op → SP → SP → Prop :=
  | run_nil sp : run [] sp sp
  | run_cons op ops sp sp1 sp2 :
      system_enabled op sp → system_step op sp = Ret (tt, sp1) → run ops sp1 sp2 →
      run (op :: ops) sp sp2.

Definition step_post `{!ProcessorSystem Op Q W K R E S X} sessions pending (op : Op) sp :
    unit * SP → Prop :=
  step_effect system_inv (λ ptr, written_by ptr op) (is_connect op) (releases op) sessions pending sp.

Class ProcessorSystemSpec `{!ProcessorSystem Op Q W K R E S X} : Prop := {
  system_inv_sp sessions pending sp : system_inv sessions pending sp → sp_inv sessions pending sp;
  system_stop_async : StopAsync stop_processor;
  system_writer_step sp : system_step writer_op sp = stream_writer_func stop_processor sp;
  system_writer_enabled sp : system_enabled writer_op sp ↔ writer_enabled sp;
  system_reader_enabled sp : system_enabled reader_op sp ↔ reader_enabled sp;
  (** Every enabled step is carried out and keeps the invariant. *)
  system_step_spec sessions pending op sp :
    system_inv sessions pending sp → system_enabled op sp →
    wp (system_step op sp) (step_post sessions pending op sp);
  (** The end of the reader fiber. *)
  system_reader_end sessions pending sp :
    system_inv sessions pending sp → is_closing sp → reader_enabled sp →
    wp (system_step reader_op sp) (λ r,
      match sp_reader sp with
      | ReaderWaitRequests => sp_reader (r.2) = ReaderWaitWriter ∧
          writer_load (r.2) = (writer_load sp + 3)%nat
      | _ => is_stopped (r.2) ∧ writer_load (r.2) = writer_load sp
      end ∧ sp_active_request_streams_cnt (r.2) = sp_active_request_streams_cnt sp)
}.

Context `{!ProcessorSystem Op Q W K R E S X} `{!ProcessorSystemSpec}.

#[export] Instance processor_stop_async : StopAsync stop_processor.
Proof. apply system_stop_async. Qed.

Lemma run_inv ops sp sp' : run ops sp sp' → ∀ sessions pending, system_inv sessions pending sp →
  ∃ sessions' pending', system_inv sessions' pending' sp'.
Proof.
  induction 1 as [sp|op ops sp sp1 sp2 Hen Hstep _ IH]; intros sessions pending Hinv; [eauto|].
  pose proof (system_step_spec _ _ _ _ Hinv Hen) as Hpost. rewrite Hstep in Hpost.
  destruct Hpost as (sessions' & pending' & _ & _ & Hinv' & _). by eapply IH.
Qed.

(** ** Multiplexing *)

Lemma omap_some (l : list mrpc_packet) : omap id (Some <$> l) = l.
Proof. induction l as [|x l IH]; [done|]. cbn. by f_equal. Qed.

Lemma queue_pending sessions pending sp : sp_inv sessions pending sp →
  omap id (queue_contents (sp_writer_queue sp)) = pending ∧ sp_unsent sp = unsent pending sp.
Proof.
  intros Hinv. assert (omap id (queue_contents (sp_writer_queue sp)) = pending) as Hq.
  { rewrite (inv_queue _ _ _ Hinv), omap_app, omap_some.
    replace (omap id (closing_mark (sp_reader sp) (sp_writer sp))) with (@nil mrpc_packet);
      [by rewrite app_nil_r|]. by destruct (sp_reader sp), (sp_writer sp). }
  split; [done|]. unfold sp_unsent. by rewrite Hq.
Qed.

Lemma run_progress ops sp sp' : run ops sp sp' → ∀ sessions pending i ptr,
  system_inv sessions pending sp → sp_active_request_streams sp !! i = Some (Some ptr) →
  Forall (λ op, ¬ releases op ptr ∧ is_connect op = false) ops →
  ∃ sessions' pending' new gone, system_inv sessions' pending' sp' ∧
    sp_active_request_streams sp' !! i = Some (Some ptr) ∧
    unsent pending sp ++ new = gone ++ unsent pending' sp' ∧
    (sending sp' → sending sp ∧ stream_out sp' = stream_out sp ++ mjoin (packet_bytes <$> gone)) ∧
    grows i new (sessions i) (sessions' i) ∧
    (sessions' i).2 = (sessions i).2 ++ mjoin (written_by ptr <$> ops).
Proof.
  induction 1 as [sp|op ops sp sp1 sp2 Hen Hstep Hrun IH];
    intros sessions pending i ptr Hinv Hi Hops.
  { exists sessions, pending, [], []. split; [done|]. split; [done|].
    split; [by rewrite app_nil_r|]. split; [intros Ha; split; [done|]; cbn; by rewrite app_nil_r|].
    split; [apply grows_nil|cbn; by rewrite app_nil_r]. }
  apply Forall_cons in Hops as [[Hdel Hcon] Hops].
  pose proof (system_step_spec _ _ _ _ Hinv Hen) as Hpost. rewrite Hstep in Hpost.
  destruct Hpost as (sessions1 & pending1 & new1 & gone1 & Hinv1 & _ & Hun1 & Hout1 & Hact1). cbn [snd] in *.
  destruct (Hact1 i ptr Hi Hdel) as (Hi1 & Hg1 & Hs1).
  destruct (IH _ _ _ _ Hinv1 Hi1 Hops)
    as (sessions2 & pending2 & new2 & gone2 & Hinv2 & Hi2 & Hun2 & Hout2 & Hg2 & Hs2).
  exists sessions2, pending2, (new1 ++ new2), (gone1 ++ gone2). split; [done|]. split; [done|].
  split; [by rewrite app_assoc, Hun1, <- !app_assoc, Hun2|]. split.
  - intros Halive. destruct (Hout2 Halive) as [Halive1 ->]. destruct (Hout1 Hcon Halive1) as [Ha ->].
    by rewrite fmap_app, join_app, <- app_assoc.
  - split; [by eapply grows_app|]. rewrite Hs2, Hs1. cbn. by rewrite <- app_assoc.
Qed.

(** While its owner keeps it, a request stream which starts without a packet
    queues the packets of a message. *)
Lemma run_multiplexing sessions pending sp ops sp' i ptr rs :
  system_inv sessions pending sp → run ops sp sp' → active_at sp i ptr rs →
  rs_current_write_packet rs = None →
  Forall (λ op, ¬ releases op ptr ∧ is_connect op = false) ops →
  ∃ new gone rs', active_at sp' i ptr rs' ∧ slot_of (rs_request_id rs') = i ∧
    sp_unsent sp ++ new = gone ++ sp_unsent sp' ∧
    (writer_alive (sp_writer sp') → stream_out sp' = stream_out sp ++ mjoin (packet_bytes <$> gone)) ∧
    (rs_phase rs' = Flushed →
       message (rs_request_id rs') (packets_for i new) (mjoin (written_by ptr <$> ops))).
Proof.
  intros Hinv Hrun [Hi Hptr] Hfresh Hops.
  destruct (run_progress _ _ _ Hrun _ _ _ _ Hinv Hi Hops)
    as (sessions' & pending' & new & gone & Hinv' & Hi' & Hun & Hout & Hg & Hs).
  apply system_inv_sp in Hinv, Hinv'.
  destruct (reg_active _ _ _ _ _ (inv_registry _ _ _ Hinv) i ptr Hi) as (rs0 & Hrs0 & _ & _ & Hok).
  destruct (reg_active _ _ _ _ _ (inv_registry _ _ _ Hinv') i ptr Hi') as (rs' & Hrs' & Hid & Hpid & Hok').
  assert (rs0 = rs) as -> by congruence.
  assert (sessions i = ([], [])) as Hs0.
  { destruct Hok as (_ & _ & _ & Hph). unfold rs_phase in Hph. rewrite Hfresh in Hph.
    destruct Hph as (Hps & Hsent & _). destruct (sessions i). by cbn in *; subst. }
  exists new, gone, rs'. split; [done|]. split; [done|].
  destruct (queue_pending _ _ _ Hinv) as [_ ->]. destruct (queue_pending _ _ _ Hinv') as [_ ->].
  split; [done|]. split; [intros Ha; by apply Hout; right|]. intros Hfl.
  destruct Hok' as (_ & _ & _ & Hph). rewrite Hfl in Hph. destruct Hph as [Hmsg _].
  unfold grows in Hg. rewrite Hg, Hs, Hs0 in Hmsg. cbn in Hmsg. by rewrite Hpid in Hmsg.
Qed.
(** ** Stopping *)

Lemma fiber_step_work sessions pending op sp :
  system_inv sessions pending sp → is_closing sp → is_fiber_step op → system_enabled op sp →
  wp (system_step op sp) (λ r, (work_left (r.2) < work_left sp)%nat ∧
    sp_active_request_streams_cnt (r.2) = sp_active_request_streams_cnt sp ∧
    (is_closing (r.2) ∨ is_stopped (r.2))).
Proof.
  intros Hinv Hcl [-> | ->] Hen.
  - apply system_reader_enabled in Hen.
    eapply wp_mono; [by eapply system_reader_end|]. intros [[] sp'] [Hrd Hcnt]. cbn [snd] in *.
    unfold work_left, is_closing in *. destruct (sp_reader sp); try done;
      destruct Hrd as [Hrd ->]; [rewrite Hrd|destruct Hrd as [Hrd Hst]; rewrite Hrd];
      (split; [lia|]); (split; [done|]); [by left|by right].
  - apply system_writer_enabled in Hen. rewrite system_writer_step. apply system_inv_sp in Hinv.
    eapply wp_mono; [by apply (writer_step_spec stop_processor sessions pending)|].
    intros r (pending' & gone & _ & (_ & _ & _ & Hcnt & _ & Hrd & _) & Hload & _).
    unfold work_left, is_closing in *. rewrite Hrd. split_and!; [lia|done|by left].
Qed.

Lemma stopped_no_fiber_step sessions pending op sp :
  system_inv sessions pending sp → sp_reader sp = ReaderIdle → is_fiber_step op →
  ¬ system_enabled op sp.
Proof.
  intros Hinv Hrd Hop. apply system_inv_sp in Hinv.
  pose proof (inv_reader _ _ _ Hinv) as Hr. rewrite Hrd in Hr. destruct Hr as (_ & _ & _ & Hwr & _).
  destruct Hop as [-> | ->]; rewrite ?system_reader_enabled, ?system_writer_enabled;
    unfold reader_enabled, writer_enabled; intros Hw; [by rewrite Hrd in Hw|by rewrite Hwr in Hw].
Qed.

(** While the processor closes, a fiber can go on unless somebody still owns a
    request stream. *)
Lemma closing_not_stuck sessions pending sp :
  system_inv sessions pending sp → is_closing sp → sp_active_request_streams_cnt sp = 0 →
  system_enabled reader_op sp ∨ system_enabled writer_op sp.
Proof.
  rewrite system_reader_enabled, system_writer_enabled. intros Hinv%system_inv_sp Hcl Hcnt.
  pose proof (inv_reader _ _ _ Hinv) as Hr. pose proof (inv_queue _ _ _ Hinv) as Hq.
  destruct sp as [wq we rp re kp act st cnt s b h rd wr].
  unfold is_closing in Hcl. unfold reader_enabled, writer_enabled. sp_simpl_all.
  destruct rd; try done.
  - left. destruct Hr as (_ & _ & _ & _ & ->). by apply bool_decide_eq_true_2.
  - destruct Hr as (_ & _ & _ & Hwe). destruct wr; [left; done|right..]; try done;
      rewrite Hq; by destruct pending.
Qed.

Lemma run_closing ops sp sp' : run ops sp sp' → ∀ sessions pending,
  system_inv sessions pending sp → is_closing sp ∨ is_stopped sp → Forall is_fiber_step ops →
  (length ops <= work_left sp)%nat ∧
  (sp_active_request_streams_cnt sp = 0 → (∀ op, is_fiber_step op → ¬ system_enabled op sp') →
     is_stopped sp').
Proof.
  induction 1 as [sp|op ops sp sp1 sp2 Hen Hstep Hrun IH]; intros sessions pending Hinv Hcl Hops.
  - split; [cbn; lia|]. intros Hcnt Hstuck. destruct Hcl as [Hcl|Hcl]; [|done].
    destruct (closing_not_stuck _ _ _ Hinv Hcl Hcnt) as [Hen|Hen];
      exfalso; eapply Hstuck; [by left|done|by right|done].
  - apply Forall_cons in Hops as [Hop Hops].
    destruct Hcl as [Hcl|[Hidle _]]; [|by destruct (stopped_no_fiber_step _ _ _ _ Hinv Hidle Hop)].
    pose proof (system_step_spec _ _ _ _ Hinv Hen) as Hpost.
    pose proof (fiber_step_work _ _ _ _ Hinv Hcl Hop Hen) as Hwork. rewrite Hstep in Hpost, Hwork.
    destruct Hpost as (sessions1 & pending1 & _ & _ & Hinv1 & _).
    destruct Hwork as (Hlt & Hcnt & Hcl1). cbn [snd] in *.
    destruct (IH _ _ Hinv1 Hcl1 Hops) as [Hlen Hend]. cbn [length]. split; [lia|]. by rewrite Hcnt in Hend.
Qed.
End runs.

(** ** Parts of the steps *)

Section step_parts.
Context {Q W K R E S X : Type}.
Context `{FFBlockingQueueSpec Q mrpc_packet} `{FFBlockingQueueSpec W (option mrpc_packet)}.
Context `{FFPoolSpec K mrpc_packet} `{FFPoolSpec R nat} `{FFEventSpec E}.
Context `{FFStreamSpec S} `{!FFConnection S} `{!FFConnectionSpec S}.
#[local] Abbreviation SP := (stream_processor Q W K R E S X).
Implicit Types (sp : SP).

Lemma reader_stays sp sp' : sp_reader sp' = sp_reader sp → reader_ends sp sp'.
Proof. intros Hrd ?. left. by rewrite <- Hrd. Qed.

(** A step which leaves the request streams and the packets in flight alone. *)
Lemma effect_stays inv written connect released sessions pending sp sp' :
  inv sessions pending sp' → unsent pending sp' = unsent pending sp →
  sp_active_request_streams sp' = sp_active_request_streams sp →
  (connect = false → sending sp' → sending sp ∧ stream_out sp' = stream_out sp) →
  reader_ends sp sp' → (∀ ptr, written ptr = []) →
  step_effect inv written connect released sessions pending sp (tt, sp').
Proof.
  intros Hinv Hun Hact Hout Hend Hwr. exists sessions, pending, [], []. cbn [snd]. do 2 (split; [done|]).
  split; [by rewrite app_nil_r|]. split.
  - intros Hc Ha. cbn. rewrite app_nil_r. by apply Hout.
  - intros i ptr Hi _. rewrite Hact, Hwr, app_nil_r. split; [done|]. split; [apply grows_nil|done].
Qed.

(** A step of a request stream or of the reader, which queues packets. *)
Lemma effect_queues inv (written : nat → list byte) connect released
    sessions pending sessions' new sp sp' :
  inv sessions' (pending ++ new) sp' → sp_writer sp' = sp_writer sp →
  (sp_reader sp' = ReaderStart → sp_reader sp = ReaderStart) → reader_ends sp sp' →
  stream_out sp' = stream_out sp →
  (∀ i ptr, sp_active_request_streams sp !! i = Some (Some ptr) → ¬ released ptr →
    sp_active_request_streams sp' !! i = Some (Some ptr) ∧
    grows i new (sessions i) (sessions' i) ∧ (sessions' i).2 = (sessions i).2 ++ written ptr) →
  step_effect inv written connect released sessions pending sp (tt, sp').
Proof.
  intros Hinv Hwr Hrd Hend Hout Hact. exists sessions', (pending ++ new), new, []. cbn [snd].
  do 2 (split; [done|]). split; [unfold unsent; by rewrite Hwr, <- app_assoc|]. split; [|done].
  intros _ Ha. unfold sending in *. rewrite Hwr in Ha.
  split; [destruct Ha as [?|?]; [left; by apply Hrd|by right]|]. rewrite Hout. cbn. by rewrite app_nil_r.
Qed.

(** A step which moves the reader, and nothing the other requests see. *)
Lemma effect_moves inv (written : nat → list byte) connect released sessions pending sp sp' :
  inv sessions pending sp' → sp_writer sp' = sp_writer sp →
  (sp_reader sp' = ReaderStart → sp_reader sp = ReaderStart) → reader_ends sp sp' →
  stream_out sp' = stream_out sp →
  sp_active_request_streams sp' = sp_active_request_streams sp → (∀ ptr, written ptr = []) →
  step_effect inv written connect released sessions pending sp (tt, sp').
Proof.
  intros Hinv Hwr Hrd Hend Hout Hact Hwritten.
  apply effect_queues with (sessions' := sessions) (new := []); try done; [by rewrite app_nil_r|].
  intros i ptr Hi _. rewrite Hact, Hwritten, app_nil_r. split; [done|]. split; [apply grows_nil|done].
Qed.

Lemma same_stream_out wq wq' we we' rp rp' re re' kp kp' act act' st st' cnt cnt' s s' ex ex' h h'
    rd rd' wr wr' :
  outgoing <$> st' = outgoing <$> st →
  stream_out (StreamProcessor wq' we' rp' re' kp' act' st' cnt' s' ex' h' rd' wr' : SP) =
  stream_out (StreamProcessor wq we rp re kp act st cnt s ex h rd wr : SP).
Proof. unfold stream_out. sp_simpl. by destruct st, st'; cbn; intros; simplify_eq. Qed.

(** The wrappers do what the packet stream does. *)
Lemma request_op_call ptr op sp R' : is_user_op op = true →
  wp (on_packet_stream ptr (stream_step op) sp) R' →
  wp (request_op ptr op sp) (λ r, R' ([], r.2)).
Proof.
  intros Hop. unfold request_op, read_from_request_stream_wrapper, write_to_request_stream_wrapper,
    flush_request_stream_wrapper, disconnect_request_stream_wrapper, on_packet_stream.
  destruct op; try done; cbn [stream_step]; unfold mbind, M_bind;
    (destruct (sp_heap sp !! ptr) as [[rs|]|]; [|done..]);
    match goal with |- wp (match (match ?m with Ret _ => _ | Fault _ => _ end) with Ret _ => _ | Fault _ => _ end) _ → _ =>
      by destruct m as [[? ?]|] end.
Qed.

Lemma push_call ptr p sp R' :
  wp (on_packet_stream ptr (stream_step (OpPush p)) sp) R' →
  wp (on_packet_stream ptr (mrpc_packet_stream_push_packet p) sp) (λ r, R' ([], r.2)).
Proof.
  unfold on_packet_stream. destruct (sp_heap sp !! ptr) as [[rs|]|]; [|done..].
  cbn [stream_step]. unfold mbind, M_bind. by destruct (mrpc_packet_stream_push_packet _ _) as [[? ?]|].
Qed.

(** What a call on a request stream leaves alone. *)
Definition call_frame sp sp' : Prop :=
  same_requests sp sp' ∧ sp_active_request_streams sp' = sp_active_request_streams sp ∧
  sp_state sp' = sp_state sp ∧ sp_reader sp' = sp_reader sp ∧ sp_writer sp' = sp_writer sp ∧
  stream_out sp' = stream_out sp.

(** The sessions of all slots after a call on the request stream [ptr]. *)
Definition call_sessions sp ptr sent new (sessions sessions' : nat → session) : Prop :=
  ∀ j p, sp_active_request_streams sp !! j = Some (Some p) → grows j new (sessions j) (sessions' j) ∧
    (sessions' j).2 = (sessions j).2 ++ (if decide (p = ptr) then sent else []).

Lemma call_sessions_spec heap free cnt sessions sp i ptr id sent new :
  registry heap (sp_active_request_streams sp) free cnt sessions →
  sp_active_request_streams sp !! i = Some (Some ptr) → slot_of id = i → Forall (sendable id) new →
  call_sessions sp ptr sent new sessions
    (new_session sessions i ((sessions i).1 ++ new, (sessions i).2 ++ sent)).
Proof.
  intros Hreg Hi Hslot Hsend j p Hj. split; [by eapply grows_session|].
  unfold new_session. destruct (decide (j = i)) as [->|Hne].
  - by rewrite decide_True by congruence.
  - rewrite decide_False; [by rewrite app_nil_r|]. intros ->. apply Hne. by eapply registry_unique.
Qed.

(** A call of the owner of a request stream. *)
Lemma request_op_spec sessions pending ptr op sp :
  sp_inv sessions pending sp → request_allowed sp ptr op →
  wp (request_op ptr op sp) (λ '(_, sp'), ∃ sessions' new,
    sp_inv sessions' (pending ++ new) sp' ∧ call_frame sp sp' ∧
    call_sessions sp ptr (op_written op) new sessions sessions').
Proof.
  destruct sp as [wq we rp re kp act st cnt s b h rd wr].
  intros Hinv (Huser & i & rs & [Hi Hrs] & Hop). sp_simpl_all.
  assert (op ≠ OpTake ∧ op_pushed op = 0) as [Htake Hpush] by by destruct op.
  eapply wp_mono.
  { apply request_op_call; [done|]. by eapply (request_call_inv _ _ _ _ _ _ _ _ _ _ _ _ _ rd rd). }
  intros [[] sp'] (wq' & kp' & rs' & new & _ & Hsp' & Hid & Hsend & Hinv'). cbn [snd] in Hsp'. subst sp'.
  specialize (Hinv' rd ltac:(lia) (inv_reader _ _ _ Hinv)).
  pose proof (inv_registry _ _ _ Hinv) as Hreg. sp_simpl_all.
  eexists _, new. split; [exact Hinv'|]. split.
  - split; [|done]. split; [done|]. split; [by apply (heap_ids_insert _ _ rs)|done].
  - eapply call_sessions_spec; sp_simpl; [exact Hreg|exact Hi| |exact Hsend].
    destruct (reg_active _ _ _ _ _ Hreg i ptr Hi) as (rs0 & ? & ? & _). congruence.
Qed.

(** The reader pushes the packet it has read to an active request stream. *)
Lemma push_spec sessions pending wq we rp re kp act st cnt s ex h p0 p wr i ptr :
  sp_inv sessions pending (StreamProcessor wq we rp re kp act st cnt s ex h (ReaderRead p0) wr : SP) →
  packet_inv p → act !! i = Some (Some ptr) →
  wp (on_packet_stream ptr (mrpc_packet_stream_push_packet p)
        (StreamProcessor wq we rp re kp act st cnt s ex h (ReaderRead p0) wr))
    (λ '(_, sp'), ∃ wq' kp' h' new sessions',
      sp' = StreamProcessor wq' we rp re kp' act st cnt s ex h' (ReaderRead p0) wr ∧
      heap_ids h' = heap_ids h ∧
      sp_inv sessions' (pending ++ new)
        (StreamProcessor wq' we rp re kp' act st cnt s ex h' ReaderAcquire wr) ∧
      call_sessions (StreamProcessor wq we rp re kp act st cnt s ex h (ReaderRead p0) wr)
        ptr [] new sessions sessions').
Proof.
  intros Hinv Hp Hi. pose proof (inv_registry _ _ _ Hinv) as Hreg.
  pose proof (inv_reader _ _ _ Hinv) as Hr. sp_simpl_all.
  destruct (reg_active _ _ _ _ _ Hreg _ _ Hi) as (rs & Hrs & Hid & _).
  pose proof (request_call_inv _ _ _ _ _ _ _ _ _ _ _ _ _ (ReaderRead p0) (ReaderRead p0) _ _ _ _
    (OpPush p) Hinv Hi Hrs Hp) as Hcall.
  eapply wp_mono; [by eapply push_call, Hcall|].
  intros [[] sp1] (wq1 & kp1 & rs1 & new & _ & Hsp1 & Hid1 & Hsend & Hinv1). cbn [snd] in Hsp1. subst sp1.
  specialize (Hinv1 ReaderAcquire eq_refl ltac:(apply Hr)).
  eexists wq1, kp1, _, new, _. split; [done|]. split; [by eapply heap_ids_insert|].
  split; [exact Hinv1|]. eapply (call_sessions_spec h); sp_simpl; done.
Qed.

(** The reader gives up the packet it has read and leaves its loop. *)
Lemma reader_leaves_spec (stop_async : M SP unit) `{!StopAsync stop_async}
    sessions pending wq we rp re kp act st cnt s ex h p p' st' wr :
  sp_inv sessions pending (StreamProcessor wq we rp re kp act st cnt s ex h (ReaderRead p) wr : SP) →
  stream_ok st' → outgoing <$> st' = outgoing <$> st → zlength (pk_buf p') = MAX_PACKET_SIZE →
  wp ((release_processor_packet p';; stop_async;; assert_state is_stop_initiated;;
       stop_all_request_streams)
        (StreamProcessor wq we rp re kp act st' cnt s ex h (ReaderRead p) wr))
    (λ '(_, sp'), ∃ wq' kp' h' st2 new sessions',
      sp' = StreamProcessor wq' we rp re kp' act st2 cnt STATE_STOP_INITIATED ex h'
              ReaderWaitRequests wr ∧
      heap_ids h' = heap_ids h ∧ outgoing <$> st2 = outgoing <$> st ∧
      (∀ j, grows j new (sessions j) (sessions' j) ∧ (sessions' j).2 = (sessions j).2) ∧
      sp_inv sessions' (pending ++ new) sp').
Proof.
  intros Hinv Hst' Hout Hb.
  pose proof (inv_reader _ _ _ Hinv) as Hr. pose proof (inv_packets _ _ _ Hinv) as Hkp. sp_simpl_all.
  destruct Hr as (_ & Hs & _). sp_step.
  eapply wp_mono; [by apply release_packet_call|]. intros [[] sp'] (kp' & -> & Hkp' & Hbusy). sp_simpl.
  eapply wp_mono.
  { apply (reader_break_spec stop_async sessions pending).
    eapply reader_moves; [exact Hinv|done..|cbn; lia|done|by left|done|done]. }
  intros [[] sp'] (wq' & kp2 & h' & st2 & new & sessions' & -> & Hh & Hout2 & Hgrow & Hinv').
  exists wq', kp2, h', st2, new, sessions'. do 2 (split; [done|]). by rewrite Hout2.
Qed.

(** The writer fiber. *)
Lemma effect_writer (stop_async : M SP unit) `{!StopAsync stop_async} inv connect released
    sessions pending sp :
  sp_inv sessions pending sp → writer_enabled sp →
  (∀ pending' sp', sp_inv sessions pending' sp' → writer_frame sp sp' → inv sessions pending' sp') →
  wp (stream_writer_func stop_async sp)
    (step_effect inv (λ _, []) connect released sessions pending sp).
Proof.
  intros Hinv Hen Hkeep. eapply wp_mono; [by apply (writer_step_spec stop_async sessions pending)|].
  intros [[] sp'] (pending' & gone & Hinv' & Hframe & _ & Hun & Hout). cbn [snd] in *.
  exists sessions, pending', [], gone. cbn [snd]. split; [by apply Hkeep|].
  destruct Hframe as (_ & Hact & _ & _ & _ & Hrd & _).
  split; [unfold reader_ends; rewrite Hrd; by left|]. split; [by rewrite app_nil_r|]. split.
  { intros _ [Hstart|Ha]; [|destruct (Hout Ha); split; [by right|done]]. rewrite Hrd in Hstart.
    pose proof (inv_reader _ _ _ Hinv) as Hr. rewrite Hstart in Hr.
    destruct Hr as (_ & _ & _ & Hidle & _). unfold writer_enabled in Hen. by rewrite Hidle in Hen. }
  intros i ptr Hi _. rewrite Hact.
  split; [done|]. split; [apply grows_nil|]. by rewrite app_nil_r.
Qed.

Lemma push_received ptr rs q sp :
  sp_heap sp !! ptr = Some (Some rs) →
  wp (on_packet_stream ptr (mrpc_packet_stream_push_packet q) sp) (λ '(_, sp'), ∃ rs',
    received q rs rs' ∧
    sp' = with_streams sp (sp_writer_queue sp) (sp_packets_pool sp) (<[ptr := Some rs']> (sp_heap sp))).
Proof.
  intros Hptr. apply (wp_on_packet_stream _ _ _ rs); [done|]. unfold stream_view.
  unfold mrpc_packet_stream_push_packet. apply wp_on_reader_queue.
  eapply wp_mono; [apply queue_put_spec|]. intros [[] rq] Hrq. cbn [fst snd].
  eexists. split; [|unfold store_view, with_streams; cbn; done]. by split_and!.
Qed.

(** ** The books *)

Lemma books_spec sessions pending sp : sp_inv sessions pending sp →
  pool_busy (sp_packets_pool sp) = held_packets sp ∧
  sp_active_request_streams_cnt sp = total (slot_count <$> sp_active_request_streams sp) ∧
  0 <= sp_active_request_streams_cnt sp <= MAX_REQUEST_STREAMS_CNT ∧
  (∀ i ptr, sp_active_request_streams sp !! i = Some (Some ptr) →
     ∃ rs, active_at sp i ptr rs ∧ slot_of (rs_request_id rs) = i).
Proof.
  intros Hinv. pose proof (inv_registry _ _ _ Hinv) as Hreg. split; [|split; [|split]].
  - pose proof (inv_outside _ _ _ Hinv) as Hout. unfold sp_outside, outside_packets in Hout.
    unfold held_packets. destruct (queue_pending _ _ _ Hinv) as [-> _].
    rewrite (inv_queue _ _ _ Hinv) in Hout. autorewrite with zlen in Hout. lia.
  - apply (reg_cnt _ _ _ _ _ Hreg).
  - by eapply registry_cnt_range.
  - intros i ptr Hi. destruct (reg_active _ _ _ _ _ Hreg i ptr Hi) as (rs & Hrs & Hid & _).
    by exists rs.
Qed.

(** An idle processor holds no packet. *)
Lemma idle_packets sessions pending sp : sp_inv sessions pending sp → sp_reader sp = ReaderIdle →
  sp_active_request_streams_cnt sp = 0 ∧ pool_busy (sp_packets_pool sp) = 0.
Proof.
  destruct sp as [wq we rp re kp act st cnt s b h rd wr]. intros Hinv Hrd. sp_simpl_all.
  subst rd. destruct Hinv as [Hreg Hkp Hrb Hq Hpend Hidle Hout Hr Hw]. sp_simpl_all.
  destruct Hr as (Hs & -> & -> & -> & Hwe). rewrite (Hidle eq_refl) in *. split; [done|].
  unfold sp_outside, outside_packets in Hout. sp_simpl_all. rewrite Hq in Hout.
  assert (total (slot_owned h <$> act) = 0) as Hz; [|cbn in Hout; unfold zlength in Hout; cbn in Hout; lia].
  assert (slot_owned h <$> act = const 0 <$> act) as ->.
  { apply list_eq. intros j. rewrite !list_lookup_fmap. destruct (act !! j) as [slot|] eqn:Hj; [|done].
    by rewrite (registry_none _ _ _ _ _ _ Hreg Hj). }
  clear. induction act as [|x act IH]; [done|exact IH].
Qed.

Lemma delete_packets_spec (l : list mrpc_packet) : Forall packet_empty l →
  wp (delete_entries delete_packet l tt) (λ _, True).
Proof.
  induction 1 as [|p l (_ & Hpos & Hsz & _) _ IH]; [done|]. cbn [delete_entries]. wp_step.
  unfold delete_packet, mrpc_packet_delete. rewrite Hpos, Hsz. wp_steps. exact IH.
Qed.
End step_parts.
