(* ===== verification/ClientProcessor.v ===== *)
(** * The client stream processor (src/mrpc_client_stream_processor.c)

    The users of the processor create request streams, which get request ids
    from the bitmap, and use them as streams; [mrpc_client_stream_processor_process_stream]
    is the reader fiber of [StreamProcessor]. *)

From stdpp Require Import gmap.
From S2P Require Import Prelude FF FFSync Packet PacketStream Bitmap StreamProcessor.
From S2P Require Import ProcessorInvariant ProcessorRun.

Section operations.
Context {Q W K R E S B : Type}.
Context `{FFBlockingQueue Q mrpc_packet} `{FFBlockingQueue W (option mrpc_packet)}.
Context `{FFPool K mrpc_packet} `{FFPool R nat} `{FFEvent E} `{FFStream S} `{FFConnection S}.
Context `{IdAllocator B}.

(** [sp_extra] is [request_streams_bitmap]. *)
Abbreviation mrpc_client_stream_processor := (stream_processor Q W K R E S B).
#[local] Abbreviation SP := mrpc_client_stream_processor.

Definition acquire_client_packet : M SP mrpc_packet := acquire_processor_packet.
Definition release_client_packet (packet : mrpc_packet) : M SP unit :=
  release_processor_packet packet.

Definition acquire_request_id : M SP byte :=
  assert_state not_stopped;;
  bitmap ← field sp_extra;
  r ← lift (alloc_acquire bitmap);
  let request_id := r.1 in
  set_extra (r.2);;
  lift (ff_assert (bool_decide (request_id >= 0)));;
  lift (ff_assert (bool_decide (request_id < MAX_REQUEST_STREAMS_CNT)));;
  mret (byte_of_Z request_id).

Definition release_request_id (request_id : byte) : M SP unit :=
  bitmap ← field sp_extra;
  bitmap ← lift (alloc_release bitmap (Z_of_byte request_id));
  set_extra bitmap.

Definition create_request_stream : M SP nat :=
  assert_state not_stopped;;
  packet_stream ← new_packet_stream;
  request_id ← acquire_request_id;
  alloc_request_stream packet_stream request_id.

Definition delete_request_stream (ptr : nat) : M SP unit :=
  rs ← request_stream_at ptr;
  release_request_id (rs_request_id rs);;
  on_packet_stream ptr mrpc_packet_stream_delete;;
  free_request_stream ptr.

Definition acquire_request_stream : M SP nat :=
  cnt ← field sp_active_request_streams_cnt;
  lift (ff_assert (bool_decide (cnt >= 0)));;
  lift (ff_assert (bool_decide (cnt <= MAX_REQUEST_STREAMS_CNT)));;
  assert_state not_stopped;;
  ptr ← on_requests_pool (ff_pool_acquire_entry create_request_stream);
  rs ← request_stream_at ptr;
  attach_request_stream ptr (rs_request_id rs);;
  mret ptr.

Definition release_request_stream (ptr : nat) : M SP unit :=
  cnt ← field sp_active_request_streams_cnt;
  lift (ff_assert (bool_decide (cnt > 0)));;
  lift (ff_assert (bool_decide (cnt <= MAX_REQUEST_STREAMS_CNT)));;
  assert_state not_stopped;;
  detach_request_stream ptr.

Definition delete_request_stream_wrapper (ptr : nat) : M SP unit := release_request_stream ptr.

Definition create_request_stream_wrapper : M SP nat :=
  assert_state (λ state, bool_decide (state = STATE_WORKING));;
  acquire_request_stream.

Definition mrpc_client_stream_processor_stop_async : M SP unit :=
  state ← field sp_state;
  stream ← field sp_stream;
  match state with
  | STATE_WORKING =>
      lift (ff_assert (match stream with Some _ => true | None => false end));;
      set_state STATE_STOP_INITIATED;;
      on_stream ff_stream_disconnect
  | STATE_STOPPED =>
      lift (ff_assert (match stream with None => true | Some _ => false end));;
      assert_no_request_streams;;
      set_state STATE_STOP_INITIATED
  | STATE_STOP_INITIATED => mret tt
  end.

Definition mrpc_client_stream_processor_create : outcome SP :=
  bitmap ← alloc_create MAX_REQUEST_STREAMS_CNT;
  Ret (StreamProcessor (ff_blocking_queue_create MAX_PACKETS_CNT) ff_event_create
    (ff_pool_create MAX_REQUEST_STREAMS_CNT) ff_event_create (ff_pool_create MAX_PACKETS_CNT)
    (replicate (Z.to_nat MAX_REQUEST_STREAMS_CNT) None) None 0 STATE_STOPPED bitmap []
    ReaderIdle WriterIdle).

(** The context of [delete_packet] plays no role. *)
Definition mrpc_client_stream_processor_delete : M SP unit :=
  stream ← field sp_stream;
  lift (ff_assert (match stream with None => true | Some _ => false end));;
  assert_no_request_streams;;
  assert_state (λ state, bool_decide (state ≠ STATE_WORKING));;
  packets_pool ← field sp_packets_pool;
  lift (ff_pool_delete delete_packet (packets_pool, tt));;
  on_requests_pool (ff_pool_delete delete_request_stream).

(** [mrpc_client_stream_processor_process_stream] is the reader fiber: its
    beginning, up to the first packet, *)
Definition process_stream_begin (stream : S) : M SP unit :=
  old ← field sp_stream;
  lift (ff_assert (match old with None => true | Some _ => false end));;
  assert_no_request_streams;;
  assert_state (λ state, bool_decide (state ≠ STATE_WORKING));;
  state ← field sp_state;
  if bool_decide (state = STATE_STOP_INITIATED) then set_state STATE_STOPPED
  else
    lift (ff_assert (bool_decide (state = STATE_STOPPED)));;
    set_state STATE_WORKING;;
    set_stream (Some stream);;
    start_stream_writer;;
    on_requests_event ff_event_set;;
    set_reader ReaderAcquire.

(** the code which follows a [break], up to its first wait, *)
Definition process_stream_break : M SP unit :=
  mrpc_client_stream_processor_stop_async;;
  assert_state is_stop_initiated;;
  stop_all_request_streams.

(** and the way from one point where it waits to the next one. *)
Definition process_stream_continue : M SP unit :=
  reader ← field sp_reader;
  match reader with
  | ReaderIdle | ReaderStart => mret tt
  | ReaderAcquire =>
      packet ← acquire_client_packet;
      set_reader (ReaderRead packet)
  | ReaderRead packet =>
      r ← on_stream (mrpc_packet_read_from_stream packet);
      let packet := r.2 in
      match r.1 with
      | FF_FAILURE => release_client_packet packet;; process_stream_break
      | FF_SUCCESS =>
          let request_id := mrpc_packet_get_request_id packet in
          active_request_streams ← field sp_active_request_streams;
          slot ← lift (arr_get active_request_streams (Z_of_byte request_id));
          match slot with
          | None => release_client_packet packet;; process_stream_break
          | Some ptr =>
              on_packet_stream ptr (mrpc_packet_stream_push_packet packet);;
              set_reader ReaderAcquire
          end
      end
  | ReaderWaitRequests =>
      all_request_streams_stopped;;
      assert_no_request_streams;;
      stop_stream_writer
  | ReaderWaitWriter =>
      on_writer_event ff_event_wait;;
      set_stream None;;
      set_state STATE_STOPPED;;
      set_reader ReaderIdle
  end.

Definition mrpc_client_stream_processor_create_request_stream : M SP (option nat) :=
  state ← field sp_state;
  if bool_decide (state = STATE_WORKING)
  then ptr ← create_request_stream_wrapper; mret (Some ptr)
  else mret None.
End operations.

(** ** Steps of the users and of the fibers *)

Inductive client_op (S : Type) :=
  | CreateRequest
  | RequestOp (ptr : nat) (op : stream_op)
  | DeleteRequest (ptr : nat)
  | StopProcessor
  | ProcessStream (stream : S)
  | ReaderStep
  | WriterStep.
Arguments CreateRequest {S}.
Arguments RequestOp {S}.
Arguments DeleteRequest {S}.
Arguments StopProcessor {S}.
Arguments ProcessStream {S}.
Arguments ReaderStep {S}.
Arguments WriterStep {S}.

Section steps.
Context {Q W K R E S B : Type}.
Context `{FFBlockingQueue Q mrpc_packet} `{FFBlockingQueue W (option mrpc_packet)}.
Context `{FFPool K mrpc_packet} `{FFPool R nat} `{FFEvent E} `{FFStream S} `{FFConnection S}.
Context `{IdAllocator B} `{StreamView S}.
#[local] Abbreviation SP := (stream_processor Q W K R E S B).
Implicit Types (sp : SP).

Definition client_step (op : client_op S) : M SP unit :=
  match op with
  | CreateRequest => mrpc_client_stream_processor_create_request_stream;; mret tt
  | RequestOp ptr op => request_op ptr op
  | DeleteRequest ptr => delete_request_stream_wrapper ptr
  | StopProcessor => mrpc_client_stream_processor_stop_async
  | ProcessStream stream => process_stream_begin stream
  | ReaderStep => process_stream_continue
  | WriterStep => stream_writer_func mrpc_client_stream_processor_stop_async
  end.

(** The call is allowed by the header and does not have to wait: request streams
    are used by their owners until they are deleted, one connection is processed
    at a time, and [ff_pool_acquire_entry] finds one of the 256 request streams. *)
Definition client_enabled (op : client_op S) sp : Prop :=
  match op with
  | CreateRequest => sp_state sp = STATE_WORKING →
      sp_active_request_streams_cnt sp < MAX_REQUEST_STREAMS_CNT
  | RequestOp ptr op => request_allowed sp ptr op
  | DeleteRequest ptr => ∃ i, sp_active_request_streams sp !! i = Some (Some ptr)
  | StopProcessor => True
  | ProcessStream stream => sp_reader sp = ReaderIdle ∧ stream_inv stream ∧ writable stream
  | ReaderStep => reader_enabled sp
  | WriterStep => writer_enabled sp
  end.

(** The request ids in use are those of the existing request streams, which are
    the free ones and the active ones. *)
Record ids_inv (b : B) (ids : list (option byte)) (n : Z) : Prop := {
  ids_view : ∃ used, alloc_view b MAX_REQUEST_STREAMS_CNT used ∧
    ∀ z, z ∈ used ↔ ∃ id, Some id ∈ ids ∧ z = Z_of_byte id;
  ids_nodup : NoDup ids;
  ids_some : None ∉ ids;
  ids_count : Z.of_nat (length ids) = n
}.

Definition client_inv sessions pending sp : Prop :=
  sp_inv sessions pending sp ∧ sp_reader sp ≠ ReaderStart ∧
  ids_inv (sp_extra sp) (heap_ids (sp_heap sp))
    (Z.of_nat (length (pool_free (sp_request_streams_pool sp))) + sp_active_request_streams_cnt sp).

#[export] Instance client_ops : ProcessorOp (client_op S) := {
  reader_op := ReaderStep;
  writer_op := WriterStep;
  written_by ptr op :=
    match op with
    | RequestOp p op => if decide (ptr = p) then op_written op else []
    | _ => []
    end;
  is_connect op := match op with ProcessStream _ => true | _ => false end;
  releases op ptr := op = DeleteRequest ptr
}.

#[export] Instance client_system : ProcessorSystem (client_op S) Q W K R E S B := {
  system_step := client_step;
  system_enabled := client_enabled;
  system_inv := client_inv;
  stop_processor := mrpc_client_stream_processor_stop_async
}.
End steps.

(** ** Request ids *)

Section id_specs.
Context {B : Type} `{IdAllocatorSpec B}.

Lemma byte_of_Z_inj i j : 0 <= i < 256 → 0 <= j < 256 → byte_of_Z i = byte_of_Z j → i = j.
Proof.
  intros Hi Hj Heq. apply (f_equal Z_of_byte) in Heq. rewrite !Z_of_byte_of_Z in Heq.
  unfold u8 in Heq. rewrite !Z.mod_small in Heq by lia. done.
Qed.

(** All 256 request ids are taken only if there are 256 request streams. *)
Lemma ids_full (ids : list (option byte)) :
  (∀ j, 0 <= j < 256 → Some (byte_of_Z j) ∈ ids) → 256 <= Z.of_nat (length ids).
Proof.
  intros Hall. set (l := (λ j, Some (byte_of_Z j)) <$> seqZ 0 256).
  assert (NoDup l) as Hnd.
  { apply NoDup_fmap_2_strong; [|apply NoDup_seqZ]. intros i j Hi Hj Heq.
    apply elem_of_seqZ in Hi, Hj. apply byte_of_Z_inj; [lia..|]. congruence. }
  assert (l ⊆+ ids) as Hsub.
  { apply NoDup_submseteq; [done|]. intros x Hx. apply list_elem_of_fmap in Hx as (j & -> & Hj).
    apply elem_of_seqZ in Hj. apply Hall. lia. }
  apply submseteq_length in Hsub. unfold l in Hsub. rewrite length_fmap, length_seqZ in Hsub. lia.
Qed.

(** A new request stream gets an id which no other one has. *)
Lemma ids_acquire b ids n : ids_inv b ids n → n < MAX_REQUEST_STREAMS_CNT →
  wp (alloc_acquire b) (λ '(i, b'), 0 <= i < MAX_REQUEST_STREAMS_CNT ∧
    (Some (byte_of_Z i) ∉ ids) ∧ ids_inv b' (ids ++ [Some (byte_of_Z i)]) (n + 1)).
Proof.
  intros [(used & Hview & Hused) Hnd Hsome Hn] Hlt. change MAX_REQUEST_STREAMS_CNT with 256 in *.
  eapply wp_mono; [by apply alloc_acquire_spec|]. intros [i b'] [(-> & _ & Hfull)|(Hi & Hnew & Hview')].
  { assert (256 <= Z.of_nat (length ids)) as Hge; [|lia]. apply ids_full. intros j Hj.
    apply Hfull in Hj as Hju. apply Hused in Hju as (id & Hid & ->). by rewrite byte_of_Z_of_byte. }
  assert (Z_of_byte (byte_of_Z i) = i) as Hzi.
  { rewrite Z_of_byte_of_Z. apply Z.mod_small. lia. }
  assert (Some (byte_of_Z i) ∉ ids) as Hnin.
  { intros Hin. apply Hnew, Hused. by exists (byte_of_Z i). }
  split; [done|]. split; [done|]. split.
  - exists ({[i]} ∪ used). split; [done|]. intros z. rewrite elem_of_union, elem_of_singleton, Hused.
    split.
    + intros [->|(id & Hid & ->)]; [exists (byte_of_Z i)|exists id]; rewrite elem_of_app; [|by auto].
      split; [right; by left|done].
    + intros (id & Hid & ->). apply elem_of_app in Hid as [Hid|Hid]; [right; by exists id|left].
      apply list_elem_of_singleton in Hid. congruence.
  - apply NoDup_app. split; [done|]. split; [|by apply NoDup_singleton].
    intros x Hx Hx'. apply list_elem_of_singleton in Hx' as ->. done.
  - intros Hin. apply elem_of_app in Hin as [?|Hin]; [done|]. by apply list_elem_of_singleton in Hin.
  - rewrite length_app. cbn. lia.
Qed.
End id_specs.

(** ** The steps preserve the invariant *)

Section client_specs.
Context {Q W K R E S B : Type}.
Context `{FFBlockingQueueSpec Q mrpc_packet} `{FFBlockingQueueSpec W (option mrpc_packet)}.
Context `{FFPoolSpec K mrpc_packet} `{FFPoolSpec R nat} `{FFEventSpec E}.
Context `{FFStreamSpec S} `{!FFConnection S} `{!FFConnectionSpec S} `{IdAllocatorSpec B}.
#[local] Abbreviation SP := (stream_processor Q W K R E S B).
Implicit Types (sp : SP).

#[export] Instance client_stop_async :
  StopAsync (mrpc_client_stream_processor_stop_async : M SP unit).
Proof.
  intros wq we rp re kp act st cnt s ex h rd wr Hs (stream & -> & Hsi & Hsw).
  unfold mrpc_client_stream_processor_stop_async. sp_step. sp_step. sp_step. sp_step.
  destruct s; [|sp_step; exists (Some stream); split; [done|split; [by exists stream|done]]|done].
  sp_steps. eapply wp_mono; [by apply ff_stream_disconnect_spec|].
  intros [[] stream'] (Hsi' & (Hsw' & _) & Hout). exists (Some stream').
  split; [done|]. split; [|cbn; by rewrite Hout]. exists stream'. auto.
Qed.

Lemma heap_ids_app h (rs : request_stream Q) :
  heap_ids (h ++ [Some rs]) = heap_ids h ++ [Some (rs_request_id rs)].
Proof. unfold heap_ids. by rewrite fmap_app. Qed.

Lemma create_request_stream_spec wq we rp re kp act st cnt s b h rd wr n :
  s ≠ STATE_STOPPED → ids_inv b (heap_ids h) n → n < MAX_REQUEST_STREAMS_CNT →
  wp (create_request_stream (StreamProcessor wq we rp re kp act st cnt s b h rd wr : SP))
    (λ '(ptr, sp'), ∃ b' rs, ptr = length h ∧
      sp' = StreamProcessor wq we rp re kp act st cnt s b' (h ++ [Some rs]) rd wr ∧
      rs_idle rs ∧ ids_inv b' (heap_ids (h ++ [Some rs])) (n + 1) ∧
      Some (rs_request_id rs) ∉ heap_ids h).
Proof.
  intros Hs Hids Hn. unfold create_request_stream, new_packet_stream, mrpc_packet_stream_create.
  sp_steps. unfold acquire_request_id. sp_steps.
  eapply wp_mono; [by eapply ids_acquire|]. intros [i b'] (Hi & Hnew & Hids').
  sp_steps. unfold alloc_request_stream. sp_steps.
  eexists b', _. split; [done|]. split; [done|]. rewrite heap_ids_app. cbn.
  split; [|done]. split_and!; try done. apply queue_create_spec.
Qed.

(** Two request streams never have the same id. *)
Lemma same_id_same_stream b h n ptr1 ptr2 (rs1 rs2 : request_stream Q) :
  ids_inv b (heap_ids h) n → h !! ptr1 = Some (Some rs1) → h !! ptr2 = Some (Some rs2) →
  rs_request_id rs1 = rs_request_id rs2 → ptr1 = ptr2.
Proof.
  intros [_ Hnd _ _] H1' H2' Heq. apply (NoDup_lookup _ _ _ (Some (rs_request_id rs1)) Hnd);
    unfold heap_ids; rewrite list_lookup_fmap; [by rewrite H1'|rewrite H2'; cbn; by rewrite Heq].
Qed.

(** The slot of an id which no active request stream has is free. *)
Lemma slot_free b h act free cnt sessions n ptr (rs : request_stream Q) :
  registry h act free cnt sessions → ids_inv b (heap_ids h) n → detached act free ptr →
  h !! ptr = Some (Some rs) → act !! slot_of (rs_request_id rs) = Some None.
Proof.
  intros Hreg Hids [_ Hdet] Hptr.
  destruct (registry_slot _ _ _ _ _ (rs_request_id rs) Hreg) as [[ptr'|] Hslot]; [|done].
  destruct (reg_active _ _ _ _ _ Hreg _ _ Hslot) as (rs' & Hrs' & Hid & _).
  apply slot_inj in Hid. destruct (Hdet (slot_of (rs_request_id rs))).
  by rewrite (same_id_same_stream b h n ptr ptr' rs rs').
Qed.

(** The request stream [ptr] has left the pool. *)
Lemma acquired_spec sessions pending wq we rp0 rp re kp act st cnt b0 b h0 h rd wr ptr rs :
  sp_inv sessions pending (StreamProcessor wq we rp0 re kp act st cnt STATE_WORKING b0 h0 rd wr : SP) →
  registry h act (pool_free rp) cnt sessions → detached act (pool_free rp) ptr →
  total (slot_owned h <$> act) = total (slot_owned h0 <$> act) →
  pool_busy rp = cnt + 1 → h !! ptr = Some (Some rs) → rs_idle rs →
  cnt < MAX_REQUEST_STREAMS_CNT → rd ≠ ReaderIdle → rd ≠ ReaderStart → rd ≠ ReaderWaitWriter →
  ids_inv b (heap_ids h) (Z.of_nat (length (pool_free rp)) + (cnt + 1)) →
  wp ((rs ← request_stream_at ptr; attach_request_stream ptr (rs_request_id rs);; mret ptr)
        (StreamProcessor wq we rp re kp act st cnt STATE_WORKING b h rd wr : SP))
    (λ '(ptr, sp'), ∃ rp' re' kp' b' h' id,
      sp' = StreamProcessor wq we rp' re' kp' (<[slot_of id := Some ptr]> act) st (cnt + 1)
              STATE_WORKING b' h' rd wr ∧
      act !! slot_of id = Some None ∧
      client_inv (new_session sessions (slot_of id) ([], [])) pending sp').
Proof.
  intros Hinv Hreg Hdet Hown Hrb Hptr Hidle Hlt Hni Hns Hnw Hids.
  pose proof (slot_free _ _ _ _ _ _ _ _ _ Hreg Hids Hdet Hptr) as Hslot.
  sp_step. apply (wp_request_stream_at _ _ rs); [done|]. sp_simpl. sp_step.
  eapply wp_mono; [by eapply (attach_inv _ _ _ _ rp0 rp)|].
  intros [[] sp'] (re' & kp' & rs' & -> & Hid & _ & Hinv'). sp_simpl. sp_step.
  exists rp, re', kp', b, (<[ptr := Some rs']> h), (rs_request_id rs).
  split; [done|]. split; [done|]. rewrite <- Hid, with_same_request_id in Hinv'. split.
  - by rewrite <- Hid.
  - split; [done|]. sp_simpl. by rewrite (heap_ids_insert _ _ rs).
Qed.

Lemma acquire_request_stream_spec sessions pending wq we rp re kp act st cnt s b h rd wr :
  client_inv sessions pending (StreamProcessor wq we rp re kp act st cnt s b h rd wr : SP) →
  s = STATE_WORKING → cnt < MAX_REQUEST_STREAMS_CNT →
  wp (acquire_request_stream (StreamProcessor wq we rp re kp act st cnt s b h rd wr))
    (λ '(ptr, sp'), ∃ rp' re' kp' b' h' id,
      sp' = StreamProcessor wq we rp' re' kp' (<[slot_of id := Some ptr]> act) st (cnt + 1) s b' h' rd wr ∧
      act !! slot_of id = Some None ∧
      client_inv (new_session sessions (slot_of id) ([], [])) pending sp').
Proof.
  intros (Hinv & Hns & Hids) -> Hlt. pose proof (inv_registry _ _ _ Hinv) as Hreg.
  pose proof (inv_busy _ _ _ Hinv) as Hrb. pose proof (inv_reader _ _ _ Hinv) as Hr. sp_simpl_all.
  pose proof (registry_cnt_range _ _ _ _ _ Hreg) as Hcnt.
  assert (rd ≠ ReaderIdle ∧ rd ≠ ReaderWaitWriter) as (Hni & Hnw).
  { destruct rd; cbn in Hr; destruct_and?; done. }
  unfold acquire_request_stream. sp_steps. apply wp_on_requests_pool. sp_simpl.
  destruct (decide (pool_free rp = [])) as [Hnil|Hne].
  - rewrite Hnil in Hids. cbn [length] in Hids.
    eapply wp_mono.
    { apply (ff_pool_acquire_new_spec (C:=SP)); [done|].
      eapply create_request_stream_spec; [done|exact Hids|lia]. }
    intros [ptr [rp' sp']] ((b' & rs & -> & -> & Hidle & Hids' & Hnew) & Hfree & Hrb').
    unfold set_requests_pool. sp_simpl.
    destruct (registry_alloc _ _ _ _ _ rs Hreg) as (Hreg' & Hdet & Hown).
    rewrite Hnil in Hreg', Hdet. rewrite <- Hfree in Hreg', Hdet.
    assert ((h ++ [Some rs]) !! length h = Some (Some rs)) as Hptr by by apply list_lookup_middle.
    eapply acquired_spec; try done; [lia|]. rewrite Hfree. cbn [length].
    replace (0 + (cnt + 1)) with (0 + cnt + 1) by lia. done.
  - eapply wp_mono; [by apply (ff_pool_acquire_free_spec (C:=SP))|].
    intros [ptr [rp' sp']] (-> & Hperm & Hrb'). unfold set_requests_pool. sp_simpl.
    destruct (registry_take _ _ _ _ _ _ _ Hreg Hperm) as (Hreg' & Hdet & rs & Hptr & Hidle).
    eapply acquired_spec; try done; [lia|]. rewrite Hperm in Hids. cbn [length] in Hids.
    replace (Z.of_nat (length (pool_free rp')) + (cnt + 1)) with
      (Z.of_nat (Datatypes.S (length (pool_free rp'))) + cnt) by lia. done.
Qed.

Lemma create_request_step sessions pending sp :
  client_inv sessions pending sp → client_enabled CreateRequest sp →
  wp (client_step CreateRequest sp) (step_post sessions pending CreateRequest sp).
Proof.
  destruct sp as [wq we rp re kp act st cnt s b h rd wr]. intros Hinv Hen. cbn in Hen.
  cbn [client_step]. sp_step. unfold mrpc_client_stream_processor_create_request_stream.
  sp_step. sp_step. case_bool_decide as Hs.
  2:{ sp_steps. by apply effect_stays; [..|apply reader_stays|]. }
  unfold create_request_stream_wrapper. sp_steps.
  eapply wp_mono; [apply (acquire_request_stream_spec sessions pending); auto|].
  intros [ptr sp'] (rp' & re' & kp' & b' & h' & id & -> & Hslot & Hinv'). sp_steps.
  apply effect_queues with (sessions' := new_session sessions (slot_of id) ([], [])) (new := []);
    [by rewrite app_nil_r|done|done|by apply reader_stays|done|].
  intros i ptr' Hi _. sp_simpl_all. assert (i ≠ slot_of id) as Hne by congruence.
  rewrite list_lookup_insert_ne by done. unfold new_session. rewrite decide_False by done.
  split; [done|]. split; [apply grows_nil|]. cbn. by rewrite app_nil_r.
Qed.

(** A step which only changes what [same_requests] allows. *)
Lemma client_inv_same sessions pending sessions' pending' sp sp' :
  client_inv sessions pending sp → sp_inv sessions' pending' sp' → same_requests sp sp' →
  sp_reader sp' ≠ ReaderStart → client_inv sessions' pending' sp'.
Proof.
  intros (_ & _ & Hids) Hinv (Hex & Hh & Hn) Hns. split; [done|]. split; [done|].
  by rewrite Hex, Hh, Hn.
Qed.

Lemma request_op_step sessions pending ptr op sp :
  client_inv sessions pending sp → client_enabled (RequestOp ptr op) sp →
  wp (client_step (RequestOp ptr op) sp) (step_post sessions pending (RequestOp ptr op) sp).
Proof.
  intros Hcinv Hen. destruct (Hcinv) as (Hinv & Hns & _).
  eapply wp_mono; [by eapply request_op_spec|].
  intros [[] sp'] (sessions' & new & Hinv' & (Hsame & Hact & _ & Hrd & Hwr & Hout) & Hses).
  eapply effect_queues;
    [eapply client_inv_same; [exact Hcinv|exact Hinv'|done|by rewrite Hrd]|done|by rewrite Hrd|by apply reader_stays|done|].
  intros i p Hi _. rewrite Hact. by destruct (Hses i p Hi).
Qed.

Lemma delete_request_step sessions pending ptr sp :
  client_inv sessions pending sp → client_enabled (DeleteRequest ptr) sp →
  wp (client_step (DeleteRequest ptr) sp) (step_post sessions pending (DeleteRequest ptr) sp).
Proof.
  destruct sp as [wq we rp re kp act st cnt s b h rd wr].
  intros Hcinv (i & Hi). destruct (Hcinv) as (Hinv & Hns & _). sp_simpl_all.
  pose proof (inv_registry _ _ _ Hinv) as Hreg. pose proof (inv_reader _ _ _ Hinv) as Hr. sp_simpl_all.
  pose proof (registry_cnt_pos _ _ _ _ _ _ _ Hreg Hi) as Hcnt.
  pose proof (registry_cnt_range _ _ _ _ _ Hreg) as Hrange.
  destruct (active_not_closing _ _ _ _ _ _ _ Hr Hcnt) as (Hs & _).
  cbn [client_step]. unfold delete_request_stream_wrapper, release_request_stream. sp_steps.
  eapply wp_mono; [by eapply detach_inv|].
  intros [[] sp'] (rp' & re' & kp' & h' & -> & Hinv' & Hsame).
  apply effect_queues with (sessions' := sessions) (new := []); [rewrite app_nil_r|done|done|by apply reader_stays|done|].
  { by eapply client_inv_same. }
  intros j p Hj Hne. sp_simpl_all. assert (j ≠ i) as Hji by (intros ->; apply Hne; cbn; congruence).
  rewrite list_lookup_insert_ne by done. split; [done|]. split; [apply grows_nil|].
  cbn. by rewrite app_nil_r.
Qed.

Lemma stop_step sessions pending sp :
  client_inv sessions pending sp →
  wp (client_step StopProcessor sp) (step_post sessions pending StopProcessor sp).
Proof.
  destruct sp as [wq we rp re kp act st cnt s b h rd wr]. intros (Hinv & Hns & Hids).
  pose proof (inv_reader _ _ _ Hinv) as Hr. sp_simpl_all. cbn [client_step].
  destruct (decide (s = STATE_WORKING)) as [->|Hw].
  { destruct (not_idle_running _ _ _ _ _ _ _ Hr eq_refl) as [Hrd Hst].
    eapply wp_mono; [by apply stop_async_spec|]. intros [[] sp'] (st' & -> & Hst' & Hout).
    apply effect_stays; try done; [split; [by eapply stop_inv|done]| |by apply reader_stays].
    intros _ Ha. split; [exact Ha|]. by apply same_stream_out. }
  unfold mrpc_client_stream_processor_stop_async. sp_step. sp_step. sp_step. sp_step.
  destruct s; [done|sp_step; by apply effect_stays; [..|apply reader_stays|]|].
  destruct rd; try done; cbn in Hr; unfold connected in Hr; destruct_and?; try done. subst st cnt wr.
  unfold assert_no_request_streams. sp_steps. apply effect_stays; try done; [|by apply reader_stays]. split; [|done].
  destruct Hinv; sp_simpl_all. by split.
Qed.

Lemma process_stream_step sessions pending stream sp :
  client_inv sessions pending sp → client_enabled (ProcessStream stream) sp →
  wp (client_step (ProcessStream stream) sp) (step_post sessions pending (ProcessStream stream) sp).
Proof.
  destruct sp as [wq we rp re kp act st cnt s b h rd wr].
  intros (Hinv & Hns & Hids) (Hrd & Hsi & Hsw). sp_simpl_all. subst rd.
  destruct Hinv as [Hreg Hkp Hrb Hq Hpend Hidle Hout Hr Hw]. sp_simpl_all.
  destruct Hr as (Hs & -> & -> & -> & Hwe). cbn [client_step].
  unfold process_stream_begin, assert_no_request_streams, start_stream_writer. sp_steps.
  rewrite (Hidle eq_refl) in *. case_bool_decide as Hstop.
  - sp_step. apply effect_stays; try done. by apply reader_stays.
  - sp_steps; [by destruct s|]. eapply wp_mono; [apply ff_event_set_spec|].
    intros [[] re'] Hre'. sp_simpl. sp_step.
    apply effect_stays; try done. split; [|done]. split; sp_simpl; try done.
    cbn. split; [done|]. split; [by exists stream|done].
Qed.

(** The reader gives up the packet it has read and leaves its loop. *)
Lemma reader_leaves sessions pending wq we rp re kp act st cnt s b h p p' st' wr :
  client_inv sessions pending
    (StreamProcessor wq we rp re kp act st cnt s b h (ReaderRead p) wr : SP) →
  stream_ok st' → outgoing <$> st' = outgoing <$> st → zlength (pk_buf p') = MAX_PACKET_SIZE →
  wp ((release_client_packet p';; process_stream_break)
        (StreamProcessor wq we rp re kp act st' cnt s b h (ReaderRead p) wr))
    (step_post sessions pending ReaderStep
       (StreamProcessor wq we rp re kp act st cnt s b h (ReaderRead p) wr)).
Proof.
  intros Hcinv Hst' Hout Hb. destruct (Hcinv) as (Hinv & _ & _).
  eapply wp_mono.
  { by apply (reader_leaves_spec mrpc_client_stream_processor_stop_async sessions pending). }
  intros [[] sp'] (wq' & kp2 & h' & st2 & new & sessions' & -> & Hh & Hout2 & Hgrow & Hinv').
  eapply effect_queues; [by eapply client_inv_same; [exact Hcinv|exact Hinv'|split_and!|]|done|done|done| |].
  - by apply same_stream_out.
  - intros i ptr Hi _. sp_simpl_all. split; [done|]. destruct (Hgrow i) as [? ->].
    split; [done|]. cbn. by rewrite app_nil_r.
Qed.

(** The reader reads a packet and passes it on. *)
Lemma reader_read_step sessions pending wq we rp re kp act st cnt s b h p wr :
  client_inv sessions pending
    (StreamProcessor wq we rp re kp act st cnt s b h (ReaderRead p) wr : SP) →
  wp (process_stream_continue (StreamProcessor wq we rp re kp act st cnt s b h (ReaderRead p) wr))
    (step_post sessions pending ReaderStep
       (StreamProcessor wq we rp re kp act st cnt s b h (ReaderRead p) wr)).
Proof.
  intros Hcinv. destruct (Hcinv) as (Hinv & Hns & Hids).
  pose proof (inv_reader _ _ _ Hinv) as Hr. pose proof (inv_packets _ _ _ Hinv) as Hkp.
  pose proof (inv_registry _ _ _ Hinv) as Hreg. sp_simpl_all.
  unfold process_stream_continue. sp_step. sp_step. sp_step.
  eapply wp_mono; [by apply (reader_read_spec sessions pending)|].
  intros [[r p'] sp'] (st' & -> & Hst' & Hout & Hb & Hok). sp_simpl.
  destruct r; [|by apply reader_leaves]. destruct (Hok eq_refl) as [Hp' Hpos].
  unfold mrpc_packet_get_request_id. sp_steps.
  destruct (registry_slot _ _ _ _ _ (pk_request_id p') Hreg) as [slot Hslot].
  eapply slot_get; [exact Hslot|]. destruct slot as [ptr|]; [|by apply reader_leaves].
  assert (sp_inv sessions pending
    (StreamProcessor wq we rp re kp act st' cnt s b h (ReaderRead p) wr)) as Hinv'.
  { eapply reader_moves; [exact Hinv|done..|by left| |done]. intros q [= <-]. apply Hr. }
  sp_step. eapply wp_mono; [by eapply push_spec|].
  intros [[] sp'] (wq1 & kp1 & h1 & new & sessions1 & -> & Hh & Hinv1 & Hses). sp_simpl. sp_step.
  eapply effect_queues; [by eapply client_inv_same; [exact Hcinv|exact Hinv1|split_and!|]|done|done|done| |].
  - by apply same_stream_out.
  - intros i q Hi _. sp_simpl_all. split; [done|]. destruct (Hses i q Hi) as [Hg Hs]. split; [exact Hg|].
    rewrite Hs. cbn. by case_decide.
Qed.

Lemma reader_step_spec sessions pending sp :
  client_inv sessions pending sp → client_enabled ReaderStep sp →
  wp (client_step ReaderStep sp) (step_post sessions pending ReaderStep sp).
Proof.
  destruct sp as [wq we rp re kp act st cnt s b h rd wr]. intros Hcinv Hen.
  destruct (Hcinv) as (Hinv & Hns & Hids).
  pose proof (inv_reader _ _ _ Hinv) as Hr. pose proof (inv_packets _ _ _ Hinv) as Hkp.
  cbn in Hen. unfold reader_enabled in Hen. sp_simpl_all. cbn [client_step].
  destruct rd as [| | |p| |]; try done; [|by apply reader_read_step|..];
    unfold process_stream_continue; sp_step; sp_step.
  - (* the next packet *)
    destruct Hr as (Hs & Hst & _). unfold acquire_client_packet. sp_step.
    eapply wp_mono; [by apply acquire_packet_call|]. intros [p sp'] (kp' & -> & Hp & Hkp' & Hbusy).
    sp_simpl. sp_step. apply effect_moves; try done.
    eapply client_inv_same; [exact Hcinv| |by split_and!|done].
    eapply reader_moves; [exact Hinv|done..|cbn; lia|done|by left| |done]. by intros ? [= ->].
  - (* all request streams are deleted *)
    rewrite assert_no_requests_again. eapply wp_mono; [by apply (requests_stopped_spec sessions pending)|].
    intros [[] sp'] (wq' & re' & -> & -> & _ & -> & Hinv'). by apply effect_moves.
  - (* the writer has ended *)
    destruct (processor_stopped_spec _ _ _ _ _ _ _ _ _ _ _ _ _ _ Hinv Hen) as (-> & -> & Hwait).
    sp_step. eapply wp_mono; [exact Hwait|]. intros [[] sp'] (we' & -> & Hinv'). sp_simpl. sp_steps.
    apply effect_stays; try done; [|by intros _ [[=]|[_ ?]]|by right].
    by eapply client_inv_same; [exact Hcinv|by apply Hinv'|by split_and!|].
Qed.

Lemma writer_step sessions pending sp :
  client_inv sessions pending sp → client_enabled WriterStep sp →
  wp (client_step WriterStep sp) (step_post sessions pending WriterStep sp).
Proof.
  intros Hcinv Hen. destruct (Hcinv) as (Hinv & Hns & _).
  apply (effect_writer mrpc_client_stream_processor_stop_async); [done..|].
  intros pending' sp' Hinv' (Hh & Hact & Hrp & Hcnt & Hex & Hrd & _).
  eapply client_inv_same; [exact Hcinv|exact Hinv'| |by rewrite Hrd].
  unfold same_requests. by rewrite Hex, Hh, Hrp, Hcnt.
Qed.

(** The end of the reader fiber. *)
Lemma reader_end sessions pending sp :
  client_inv sessions pending sp → is_closing sp → reader_enabled sp →
  wp (client_step ReaderStep sp) (λ r,
    match sp_reader sp with
    | ReaderWaitRequests => sp_reader (r.2) = ReaderWaitWriter ∧
        writer_load (r.2) = (writer_load sp + 3)%nat
    | _ => is_stopped (r.2) ∧ writer_load (r.2) = writer_load sp
    end ∧ sp_active_request_streams_cnt (r.2) = sp_active_request_streams_cnt sp).
Proof.
  destruct sp as [wq we rp re kp act st cnt s b h rd wr]. intros (Hinv & _) Hcl Hen.
  unfold reader_enabled in Hen. unfold is_closing in Hcl. sp_simpl_all. cbn [client_step].
  unfold process_stream_continue. sp_step. sp_step. destruct rd; try done.
  - rewrite assert_no_requests_again. eapply wp_mono; [by apply (requests_stopped_spec sessions pending)|].
    intros [[] sp'] (wq' & re' & -> & -> & Hq & -> & _). unfold writer_load. sp_simpl.
    rewrite Hq, length_app. cbn. split_and!; [done|lia|done].
  - destruct (processor_stopped_spec _ _ _ _ _ _ _ _ _ _ _ _ _ _ Hinv Hen) as (-> & -> & Hwait).
    sp_step. eapply wp_mono; [exact Hwait|]. intros [[] sp'] (we' & -> & _). sp_simpl. by sp_steps.
Qed.

#[export] Instance client_system_spec : ProcessorSystemSpec (Op := client_op S) (X := B).
Proof.
  split; try done.
  - by intros sessions pending sp (Hinv & _).
  - apply client_stop_async.
  - intros sessions pending op sp Hinv Hen. destruct op.
    + by apply create_request_step.
    + by apply request_op_step.
    + by apply delete_request_step.
    + by apply stop_step.
    + by apply process_stream_step.
    + by apply reader_step_spec.
    + by apply writer_step.
  - intros sessions pending sp. apply reader_end.
Qed.

(** ** Runs *)

Lemma create_client_spec :
  wp (mrpc_client_stream_processor_create : outcome SP) (λ sp,
    client_inv (λ _, ([], [])) [] sp ∧ sp_reader sp = ReaderIdle ∧ sp_state sp = STATE_STOPPED).
Proof.
  unfold mrpc_client_stream_processor_create. rewrite wp_bind.
  eapply wp_mono; [by apply (alloc_create_spec MAX_REQUEST_STREAMS_CNT)|]. intros b Hb. cbn [wp].
  split; [|done]. destruct (ff_pool_create_spec (K:=K) (A:=mrpc_packet) MAX_PACKETS_CNT) as [Hkf Hkb].
  destruct (ff_pool_create_spec (K:=R) (A:=nat) MAX_REQUEST_STREAMS_CNT) as [Hrf Hrb].
  assert (∀ i ptr, replicate (Z.to_nat MAX_REQUEST_STREAMS_CNT) (@None nat) !! i ≠ Some (Some ptr))
    as Hnone by (intros i ptr Hi; apply lookup_replicate in Hi as [? _]; done).
  split; [|split; [done|]].
  - split; sp_simpl; rewrite ?Hkf, ?Hrf, ?Hrb; try done.
    + split; try done; try (by intros i ptr Hi; destruct (Hnone i ptr)); [|apply NoDup_nil_2].
      intros ptr Hin. by apply elem_of_nil in Hin.
    + by rewrite queue_create_spec.
    + unfold sp_outside, outside_packets. sp_simpl. rewrite Hkb, queue_create_spec. done.
    + cbn. by rewrite ff_event_create_spec.
  - sp_simpl. rewrite Hrf. split; [|apply NoDup_nil_2|apply not_elem_of_nil|done].
    exists ∅. split; [done|]. intros z. split; [by intros Hz%elem_of_empty|].
    intros (id & Hid & _). by apply elem_of_nil in Hid.
Qed.

(** ** Deletion *)

Lemma delete_requests_spec l wq we rp re kp act st cnt s b h rd wr used :
  NoDup l → alloc_view b MAX_REQUEST_STREAMS_CNT used →
  (∀ ptr, ptr ∈ l → ∃ rs, h !! ptr = Some (Some rs) ∧ rs_idle rs ∧ Z_of_byte (rs_request_id rs) ∈ used) →
  (∀ p q rs rs', h !! p = Some (Some rs) → h !! q = Some (Some rs') →
     rs_request_id rs = rs_request_id rs' → p = q) →
  wp (delete_entries delete_request_stream l
        (StreamProcessor wq we rp re kp act st cnt s b h rd wr : SP)) (λ _, True).
Proof.
  revert b h used. induction l as [|ptr l IH]; intros b h used Hnd Hview Hl Hinj; [done|].
  apply NoDup_cons in Hnd as [Hnin Hnd]. destruct (Hl ptr) as (rs & Hptr & Hidle & Hused); [by left|].
  cbn [delete_entries]. sp_step. unfold delete_request_stream, release_request_id. sp_step.
  apply (wp_request_stream_at _ _ rs); [done|]. sp_steps.
  eapply wp_mono; [by apply alloc_release_spec|]. intros b' Hb'. sp_steps.
  apply (wp_on_packet_stream _ _ _ rs); [done|]. destruct Hidle as (Hcr & Hcw & Hpid & _).
  unfold mrpc_packet_stream_delete, stream_view. rewrite Hcr, Hcw, Hpid. sp_simpl. do 3 ps_step.
  rewrite wp_lift, wp_assert. split; [done|].
  unfold store_view, free_request_stream. sp_simpl. sp_steps. rewrite list_insert_insert_eq.
  apply (IH b' _ (used ∖ {[Z_of_byte (rs_request_id rs)]})); [done|done| |].
  - intros q Hq. destruct (Hl q) as (rs' & Hq' & Hidle' & Hused'); [by right|].
    assert (q ≠ ptr) as Hne by congruence. exists rs'. rewrite list_lookup_insert_ne by done.
    split; [done|]. split; [done|]. apply elem_of_difference. split; [done|].
    rewrite elem_of_singleton. intros Heq%Z_of_byte_inj. apply Hne. by eapply Hinj.
  - intros p q rs1 rs2 Hp Hq. apply Hinj.
    + destruct (decide (p = ptr)) as [->|Hne]; [|by rewrite list_lookup_insert_ne in Hp].
      by rewrite list_lookup_insert_eq in Hp by by eapply lookup_lt_Some.
    + destruct (decide (q = ptr)) as [->|Hne]; [|by rewrite list_lookup_insert_ne in Hq].
      by rewrite list_lookup_insert_eq in Hq by by eapply lookup_lt_Some.
Qed.

Lemma client_delete_spec sessions pending sp :
  client_inv sessions pending sp → sp_reader sp = ReaderIdle →
  wp (mrpc_client_stream_processor_delete sp) (λ _, True).
Proof.
  intros (Hinv & _ & Hids) Hrd. destruct (idle_packets _ _ _ Hinv Hrd) as [Hcnt Hbusy].
  destruct sp as [wq we rp re kp act st cnt s b h rd wr]. sp_simpl_all.
  subst rd cnt. destruct Hinv as [Hreg Hkp Hrb Hq Hpend Hidle Hout Hr Hw]. sp_simpl_all.
  destruct Hr as (Hs & -> & _).
  unfold mrpc_client_stream_processor_delete, assert_no_request_streams. sp_steps.
  eapply wp_mono.
  { apply (ff_pool_delete_spec delete_packet kp tt (λ _, True)); [done|]. intros l Hl.
    eapply wp_mono; [apply delete_packets_spec; by rewrite Hl|]. by intros [[] []]. }
  intros [[] [? []]] _. sp_simpl. apply wp_on_requests_pool. sp_simpl.
  eapply wp_mono.
  { apply (ff_pool_delete_spec (C:=SP) delete_request_stream rp _ (λ _, True)); [done|]. intros l Hl.
    destruct Hids as [(used & Hview & Hused) Hnd Hsome Hn].
    eapply wp_mono; [apply (delete_requests_spec l _ _ _ _ _ _ _ _ _ _ _ _ _ used)|by intros [? ?]];
      [rewrite Hl; apply (reg_nodup _ _ _ _ _ Hreg)|done| |].
    - intros ptr Hp. rewrite Hl in Hp. destruct (reg_free _ _ _ _ _ Hreg ptr Hp) as (rs & Hrs & Hri).
      exists rs. split; [done|]. split; [done|]. apply Hused. exists (rs_request_id rs). split; [|done].
      apply list_elem_of_lookup. exists ptr. unfold heap_ids. by rewrite list_lookup_fmap, Hrs.
    - intros p q rs rs' Hp Hq' Heq. eapply (same_id_same_stream b); try done.
      split; [by exists used|done..]. }
  by intros [[] [? ?]].
Qed.

(** ** Routing *)

Lemma client_routing_spec `{!ReliableStream S} sessions pending sp p stream q rest :
  client_inv sessions pending sp → sp_reader sp = ReaderRead p → sp_stream sp = Some stream →
  packet_inv q → pk_curr_pos q = 0 → incoming stream = packet_bytes q ++ rest →
  wp (client_step ReaderStep sp) (λ '(_, sp'),
    match sp_active_request_streams sp !! slot_of (pk_request_id q) with
    | Some (Some ptr) => ∃ q' rs rs', packet_same q' q ∧ sp_heap sp !! ptr = Some (Some rs) ∧
        received q' rs rs' ∧ sp_heap sp' = <[ptr := Some rs']> (sp_heap sp) ∧
        sp_reader sp' = ReaderAcquire ∧ sp_state sp' = sp_state sp ∧
        incoming <$> sp_stream sp' = Some rest
    | _ => sp_reader sp' = ReaderWaitRequests ∧ sp_state sp' = STATE_STOP_INITIATED
    end).
Proof.
  destruct sp as [wq we rp re kp act st cnt s b h rd wr]. intros (Hinv & _) Hrd Hst Hq Hpos Hin.
  pose proof (inv_reader _ _ _ Hinv) as Hr. pose proof (inv_registry _ _ _ Hinv) as Hreg.
  pose proof (inv_packets _ _ _ Hinv) as Hkp. sp_simpl_all. subst rd st.
  destruct Hr as (Hp & Hs & (stream0 & [= <-] & Hsi & Hsw) & _).
  cbn [client_step]. unfold process_stream_continue. sp_steps.
  eapply wp_mono; [by apply packet_read_bytes|].
  intros [[r p'] stream'] (-> & Hp' & Hsame & [(Hsi' & (Hsw' & _) & _) _] & Hrest). sp_simpl.
  destruct (Hsame) as (Hid & _). unfold mrpc_packet_get_request_id. rewrite Hid.
  assert (stream_ok (Some stream')) as Hst' by (exists stream'; auto). sp_steps.
  destruct (registry_slot _ _ _ _ _ (pk_request_id q) Hreg) as [slot Hslot].
  eapply slot_get; [exact Hslot|]. rewrite Hslot. destruct slot as [ptr|].
  - destruct (reg_active _ _ _ _ _ Hreg _ _ Hslot) as (rs & Hrs & _).
    sp_step. eapply wp_mono; [by apply (push_received _ rs)|].
    intros [[] sp'] (rs' & Hrec & ->). unfold with_streams. sp_simpl. sp_step.
    exists p', rs, rs'. split_and!; try done. cbn. by rewrite Hrest.
  - unfold release_client_packet. sp_step. eapply wp_mono; [apply release_packet_call; [done|done|apply Hp']|].
    intros [[] sp'] (kp' & -> & Hkp' & Hbusy). sp_simpl.
    eapply wp_mono.
    { apply (reader_break_spec mrpc_client_stream_processor_stop_async sessions pending).
      eapply reader_moves; [exact Hinv|done..|cbn; lia|done|by left|done|done]. }
    by intros [[] sp'] (wq' & kp2 & h' & st2 & new & sessions' & -> & _).
Qed.

(** ** Properties *)

(** The states of a processor since its creation. *)
Definition client_reachable sp : Prop :=
  ∃ sp0 ops, mrpc_client_stream_processor_create = Ret sp0 ∧ run ops sp0 sp.

Lemma reachable_inv sp : client_reachable sp → ∃ sessions pending, client_inv sessions pending sp.
Proof.
  intros (sp0 & ops & Hcreate & Hrun). pose proof create_client_spec as Hinv.
  rewrite Hcreate in Hinv. destruct Hinv as (Hinv & _).
  exact (run_inv _ _ _ Hrun _ _ Hinv).
Qed.


(** The books of a client stream processor balance in every reachable state:
    the packets out of its pool are those its request streams, its writer queue
    and its two fibers hold, [active_request_streams_cnt] is the number of active
    request streams, at most 256, each of them is in the slot of its request id,
    so that no two have the same id, and nothing is active or out of the pool
    when no connection is processed. *)
Lemma client_processor_books sp : client_reachable sp →
  pool_busy (sp_packets_pool sp) = held_packets sp ∧
  sp_active_request_streams_cnt sp = total (slot_count <$> sp_active_request_streams sp) ∧
  0 <= sp_active_request_streams_cnt sp <= MAX_REQUEST_STREAMS_CNT ∧
  (∀ i ptr, sp_active_request_streams sp !! i = Some (Some ptr) →
     ∃ rs, active_at sp i ptr rs ∧ slot_of (rs_request_id rs) = i) ∧
  (sp_reader sp = ReaderIdle →
     sp_active_request_streams_cnt sp = 0 ∧ pool_busy (sp_packets_pool sp) = 0).
Proof.
  intros Hreach. destruct (reachable_inv sp Hreach) as (sessions & pending & Hinv & _).
  destruct (books_spec _ _ _ Hinv) as (? & ? & ? & ?). do 4 (split; [done|]). by eapply idle_packets.
Qed.

(** C1.  Multiplexing is transparent to a request: from the moment a request
    stream is created and as long as its owner keeps it, in any interleaving with
    the other requests and with the fibers, the packets which the processor
    queues with its request id are, once it is flushed, a message whose body is
    what was written to it; all packets go out in the order they were queued in,
    and as long as the writer has not failed, the bytes sent are theirs. *)
Theorem client_multiplexing sp ops sp' i ptr rs :
  client_reachable sp → run ops sp sp' → active_at sp i ptr rs →
  rs_current_write_packet rs = None →
  Forall (λ op, ¬ releases op ptr ∧ is_connect op = false) ops →
  ∃ new gone rs', active_at sp' i ptr rs' ∧ slot_of (rs_request_id rs') = i ∧
    sp_unsent sp ++ new = gone ++ sp_unsent sp' ∧
    (writer_alive (sp_writer sp') → stream_out sp' = stream_out sp ++ mjoin (packet_bytes <$> gone)) ∧
    (rs_phase rs' = Flushed →
       message (rs_request_id rs') (packets_for i new) (mjoin (written_by ptr <$> ops))).
Proof.
  intros Hreach. destruct (reachable_inv sp Hreach) as (sessions & pending & Hinv).
  by apply (run_multiplexing sessions pending).
Qed.

(** Packets are routed by their request id: a packet which arrives is pushed,
    unchanged, to the active request stream with its id, and nothing else in any
    request stream changes; a packet with the id of no active request stream makes
    the processor stop. *)
Lemma client_routing `{!ReliableStream S} sp p stream q rest :
  client_reachable sp → sp_reader sp = ReaderRead p → sp_stream sp = Some stream →
  packet_inv q → pk_curr_pos q = 0 → incoming stream = packet_bytes q ++ rest →
  wp (client_step ReaderStep sp) (λ '(_, sp'),
    match sp_active_request_streams sp !! slot_of (pk_request_id q) with
    | Some (Some ptr) => ∃ q' rs rs', packet_same q' q ∧ sp_heap sp !! ptr = Some (Some rs) ∧
        received q' rs rs' ∧ sp_heap sp' = <[ptr := Some rs']> (sp_heap sp) ∧
        sp_reader sp' = ReaderAcquire ∧ sp_state sp' = sp_state sp ∧
        incoming <$> sp_stream sp' = Some rest
    | _ => sp_reader sp' = ReaderWaitRequests ∧ sp_state sp' = STATE_STOP_INITIATED
    end).
Proof.
  intros Hreach. destruct (reachable_inv sp Hreach) as (sessions & pending & Hinv).
  by eapply client_routing_spec.
Qed.

(** C27.  Stopping terminates: once the reader has left its loop and the users have
    deleted their request streams, the two fibers make at most [work_left] steps,
    three per queued packet and a constant, and the only state in which neither
    can go on is the stopped one, from where the processor can be deleted or
    process the next connection. *)
Theorem client_stops sp ops sp' :
  client_reachable sp → is_closing sp → sp_active_request_streams_cnt sp = 0 →
  run ops sp sp' → Forall is_fiber_step ops →
  (length ops <= work_left sp)%nat ∧
  ((∀ op, is_fiber_step op → ¬ client_enabled op sp') → is_stopped sp' ∧
     wp (mrpc_client_stream_processor_delete sp') (λ _, True)).
Proof.
  intros Hreach Hcl Hcnt Hrun Hops. destruct (reachable_inv sp Hreach) as (sessions & pending & Hinv).
  destruct (run_closing _ _ _ Hrun _ _ Hinv (or_introl Hcl) Hops) as [Hlen Hend].
  split; [done|]. intros Hstuck. destruct (Hend Hcnt Hstuck) as [Hidle Hstate]. split; [done|].
  destruct (run_inv _ _ _ Hrun _ _ Hinv) as (sessions' & pending' & Hinv').
  by apply (client_delete_spec _ _ _ Hinv').
Qed.

(** A stop which comes before the connection is remembered: after
    [mrpc_client_stream_processor_stop_async] on an idle processor the next
    [mrpc_client_stream_processor_process_stream] returns at once, without
    touching the connection, and leaves the processor stopped, so that the one
    after it works. *)
Lemma client_stop_before_process sp stream :
  client_reachable sp → sp_reader sp = ReaderIdle →
  wp ((client_step StopProcessor;; client_step (ProcessStream stream)) sp) (λ '(_, sp'),
    is_stopped sp' ∧ sp_stream sp' = None ∧ sp_writer sp' = WriterIdle ∧
    wp (client_step (ProcessStream stream) sp') (λ '(_, sp''),
      sp_reader sp'' = ReaderAcquire ∧ sp_state sp'' = STATE_WORKING ∧ sp_stream sp'' = Some stream)).
Proof.
  intros Hreach Hidle. destruct (reachable_inv sp Hreach) as (sessions & pending & Hinv & _).
  pose proof (inv_reader _ _ _ Hinv) as Hr. rewrite Hidle in Hr.
  destruct sp as [wq we rp re kp act st cnt s b h rd wr]. cbn in Hr, Hidle. subst rd.
  destruct Hr as (Hs & -> & -> & -> & _). cbn [client_step].
  unfold mrpc_client_stream_processor_stop_async, process_stream_begin, assert_no_request_streams,
    start_stream_writer.
  assert (s = STATE_STOPPED ∨ s = STATE_STOP_INITIATED) as [-> | ->]
    by (destruct s; [done|by right|by left]);
    sp_steps; rewrite bool_decide_eq_true_2 by done; sp_steps;
    (split; [done|]); (do 2 (split; [done|])); sp_steps;
    rewrite bool_decide_eq_false_2 by done; sp_steps;
    (eapply wp_mono; [apply ff_event_set_spec|]); intros [[] re'] _; sp_simpl; by sp_step.
Qed.
End client_specs.

(** ** The properties on a concrete processor *)

#[local] Abbreviation demo_processor :=
  (stream_processor (list mrpc_packet) (list (option mrpc_packet)) (list mrpc_packet * Z)
     (list nat * Z) bool mem_stream mrpc_bitmap).

Definition demo_step (op : client_op mem_stream) (sp : demo_processor) : demo_processor :=
  match client_step op sp with Ret (_, sp') => sp' | Fault _ => sp end.

Definition demo_created : demo_processor :=
  StreamProcessor [] false ([], 0) false ([], 0) (replicate 256 None) None 0 STATE_STOPPED
    (MrpcBitmap [0; 0; 0; 0] 256 0) [] ReaderIdle WriterIdle.

(** A response to the first request. *)
Definition demo_response : mrpc_packet :=
  MrpcPacket (x61 :: replicate 4094 x00) 0 1 MRPC_PACKET_SINGLE x00.

(** The processor with a connection, and with a request stream. *)
Definition demo_connected : demo_processor :=
  demo_step (ProcessStream (MemStream (packet_bytes demo_response) [])) demo_created.
Definition demo_requested : demo_processor := demo_step CreateRequest demo_connected.
Definition demo_request : request_stream (list mrpc_packet) := RequestStream [] None None x00 x00.

Lemma demo_created_reachable : client_reachable demo_created.
Proof. exists demo_created, []. split; [reflexivity|constructor]. Qed.

Lemma demo_requested_reachable : client_reachable demo_requested.
Proof.
  exists demo_created, [ProcessStream (MemStream (packet_bytes demo_response) []); CreateRequest].
  split; [reflexivity|].
  apply (run_cons _ _ _ demo_connected); [by split|vm_compute; reflexivity|].
  apply (run_cons _ _ _ demo_requested); [|vm_compute; reflexivity|constructor].
  intros _. vm_compute. reflexivity.
Qed.

Lemma demo_request_active : active_at demo_requested 0 0 demo_request.
Proof. by split; vm_compute. Qed.


Lemma client_processor_books_witness :
  pool_busy (sp_packets_pool demo_requested) = held_packets demo_requested ∧
  sp_active_request_streams_cnt demo_requested =
    total (slot_count <$> sp_active_request_streams demo_requested) ∧
  0 <= sp_active_request_streams_cnt demo_requested <= MAX_REQUEST_STREAMS_CNT ∧
  (∀ i ptr, sp_active_request_streams demo_requested !! i = Some (Some ptr) →
     ∃ rs, active_at demo_requested i ptr rs ∧ slot_of (rs_request_id rs) = i) ∧
  (sp_reader demo_requested = ReaderIdle →
     sp_active_request_streams_cnt demo_requested = 0 ∧
     pool_busy (sp_packets_pool demo_requested) = 0).
Proof. apply (client_processor_books demo_requested). exact demo_requested_reachable. Defined.

(** A request is written and flushed, and its first packet goes out. *)
Definition demo_ops : list (client_op mem_stream) :=
  [RequestOp 0 (OpWrite [x61]); WriterStep; RequestOp 0 OpFlush; WriterStep; WriterStep].
Definition demo_flushed : demo_processor := foldl (λ sp op, demo_step op sp) demo_requested demo_ops.

Lemma demo_run : run demo_ops demo_requested demo_flushed.
Proof.
  eapply run_cons; [|vm_compute; reflexivity|].
  { split; [reflexivity|]. exists 0%nat, demo_request. split; [by split; vm_compute|].
    vm_compute. discriminate. }
  eapply run_cons; [exact I|vm_compute; reflexivity|].
  eapply run_cons; [|vm_compute; reflexivity|].
  { split; [reflexivity|]. eexists 0%nat, _. split; [split; reflexivity|]. reflexivity. }
  eapply run_cons; [intros [=]|vm_compute; reflexivity|].
  eapply run_cons; [exact I|vm_compute; reflexivity|].
  match goal with |- run [] ?sp _ => assert (demo_flushed = sp) as -> by (vm_compute; reflexivity) end.
  constructor.
Qed.

Lemma client_multiplexing_witness :
  ∃ new gone rs', active_at demo_flushed 0 0 rs' ∧ slot_of (rs_request_id rs') = 0%nat ∧
    sp_unsent demo_requested ++ new = gone ++ sp_unsent demo_flushed ∧
    (writer_alive (sp_writer demo_flushed) →
       stream_out demo_flushed = stream_out demo_requested ++ mjoin (packet_bytes <$> gone)) ∧
    (rs_phase rs' = Flushed →
       message (rs_request_id rs') (packets_for 0 new) (mjoin (written_by 0 <$> demo_ops))).
Proof.
  apply (client_multiplexing demo_requested demo_ops demo_flushed 0 0 demo_request);
    [exact demo_requested_reachable|exact demo_run|exact demo_request_active|reflexivity|].
  repeat constructor; discriminate.
Defined.

(** The reader has a packet for the response. *)
Definition demo_reading : demo_processor := demo_step ReaderStep demo_requested.

Lemma demo_reading_reachable : client_reachable demo_reading.
Proof.
  exists demo_created,
    [ProcessStream (MemStream (packet_bytes demo_response) []); CreateRequest; ReaderStep].
  split; [reflexivity|].
  apply (run_cons _ _ _ demo_connected); [by split|vm_compute; reflexivity|].
  apply (run_cons _ _ _ demo_requested); [|vm_compute; reflexivity|].
  { intros _. vm_compute. reflexivity. }
  apply (run_cons _ _ _ demo_reading); [exact I|vm_compute; reflexivity|constructor].
Qed.

Lemma demo_response_inv : packet_inv demo_response.
Proof. split; vm_compute; intuition congruence. Qed.

Lemma client_routing_witness :
  wp (client_step ReaderStep demo_reading) (λ '(_, sp'),
    match sp_active_request_streams demo_reading !! slot_of (pk_request_id demo_response) with
    | Some (Some ptr) => ∃ q' rs rs', packet_same q' demo_response ∧
        sp_heap demo_reading !! ptr = Some (Some rs) ∧
        received q' rs rs' ∧ sp_heap sp' = <[ptr := Some rs']> (sp_heap demo_reading) ∧
        sp_reader sp' = ReaderAcquire ∧ sp_state sp' = sp_state demo_reading ∧
        incoming <$> sp_stream sp' = Some []
    | _ => sp_reader sp' = ReaderWaitRequests ∧ sp_state sp' = STATE_STOP_INITIATED
    end).
Proof.
  apply (client_routing demo_reading mrpc_packet_create
           (MemStream (packet_bytes demo_response) []) demo_response []);
    [exact demo_reading_reachable|vm_compute; reflexivity|vm_compute; reflexivity|
     exact demo_response_inv|reflexivity|symmetry; apply app_nil_r].
Defined.

(** The connection breaks: the reader leaves its loop. *)
Definition demo_broken : demo_processor :=
  foldl (λ sp op, demo_step op sp) demo_created [ProcessStream (MemStream [] []); ReaderStep; ReaderStep].
Definition demo_stop : list (client_op mem_stream) := [ReaderStep; WriterStep; WriterStep; ReaderStep].
Definition demo_stopped : demo_processor := foldl (λ sp op, demo_step op sp) demo_broken demo_stop.

Lemma demo_broken_reachable : client_reachable demo_broken.
Proof.
  exists demo_created, [ProcessStream (MemStream [] []); ReaderStep; ReaderStep].
  split; [reflexivity|].
  eapply run_cons; [by split|vm_compute; reflexivity|].
  eapply run_cons; [exact I|vm_compute; reflexivity|].
  eapply run_cons; [exact I|vm_compute; reflexivity|].
  match goal with |- run [] ?sp _ => assert (demo_broken = sp) as -> by (vm_compute; reflexivity) end.
  constructor.
Qed.

Lemma demo_stop_run : run demo_stop demo_broken demo_stopped.
Proof.
  eapply run_cons; [vm_compute; reflexivity|vm_compute; reflexivity|].
  eapply run_cons; [exact I|vm_compute; reflexivity|].
  eapply run_cons; [intros [=]|vm_compute; reflexivity|].
  eapply run_cons; [reflexivity|vm_compute; reflexivity|].
  match goal with |- run [] ?sp _ => assert (demo_stopped = sp) as -> by (vm_compute; reflexivity) end.
  constructor.
Qed.

Lemma client_stops_witness :
  (length demo_stop <= work_left demo_broken)%nat ∧
  ((∀ op, is_fiber_step op → ¬ client_enabled op demo_stopped) → is_stopped demo_stopped ∧
     wp (mrpc_client_stream_processor_delete demo_stopped) (λ _, True)).
Proof.
  apply (client_stops demo_broken demo_stop demo_stopped);
    [exact demo_broken_reachable|vm_compute; exact I|vm_compute; reflexivity|exact demo_stop_run|].
  repeat (constructor; [first [by left|by right]|]). constructor.
Defined.

Lemma client_stop_before_process_witness :
  wp ((client_step StopProcessor;; client_step (ProcessStream (MemStream [] []))) demo_created) (λ '(_, sp'),
    is_stopped sp' ∧ sp_stream sp' = None ∧ sp_writer sp' = WriterIdle ∧
    wp (client_step (ProcessStream (MemStream [] [])) sp') (λ '(_, sp''),
      sp_reader sp'' = ReaderAcquire ∧ sp_state sp'' = STATE_WORKING ∧
      sp_stream sp'' = Some (MemStream [] []))).
Proof.
  apply (client_stop_before_process demo_created (MemStream [] []));
    [exact demo_created_reachable|reflexivity].
Defined.
