(* ===== verification/ServerProcessor.v ===== *)
(** * The server stream processor (src/mrpc_server_stream_processor.c)

    The reader fiber of [StreamProcessor] creates a request stream for the first
    packet of each request and runs the stream handler on it in a fiber of its
    own; the other packets go to the request stream with their request id. *)

From stdpp Require Import gmap.
From S2P Require Import Prelude FF FFSync Packet PacketStream StreamProcessor ProcessorInvariant.
From S2P Require Import ProcessorRun.

(** What the owner of a processor passes to [mrpc_server_stream_processor_create]:
    [release_func] and [release_id_func], with their context of type [O].  A
    processor is identified by its id. *)
Class ProcessorOwner (O : Type) := {
  release_func : Z → M O unit;
  release_id_func : Z → M O unit;
  owner_uses : O → Z → Prop;
  owner_idle : O → Z → Prop;
}.

(** The owner accepts the processor it uses back, and the id of an idle one. *)
Class ProcessorOwnerSpec (O : Type) `{ProcessorOwner O} : Prop := {
  release_func_spec id o : owner_uses o id →
    wp (release_func id o) (λ '(_, o'), owner_idle o' id);
  release_id_func_spec id o : owner_idle o id → wp (release_id_func id o) (λ _, True)
}.

(** What [struct mrpc_server_stream_processor] has besides the shared fields.
    [sv_workers] are the fibers which run [process_request_func], by their request
    stream: [None] before the fiber runs, then the handler and the context it has
    been called with.  Handlers of type [H] and service contexts of type [C] are
    pointers. *)
Record server_part (H C O : Type) := ServerPart {
  sv_stream_handler : option H;
  sv_service_ctx : option C;
  sv_id : Z;
  sv_owner : O;
  sv_workers : gmap nat (option (H * option C));
}.
Arguments ServerPart {H C O}.
Arguments sv_stream_handler {H C O}.
Arguments sv_service_ctx {H C O}.
Arguments sv_id {H C O}.
Arguments sv_owner {H C O}.
Arguments sv_workers {H C O}.

Section operations.
Context {Q W K R E S HD CX O : Type}.
Context `{FFBlockingQueue Q mrpc_packet} `{FFBlockingQueue W (option mrpc_packet)}.
Context `{FFPool K mrpc_packet} `{FFPool R nat} `{FFEvent E} `{FFStream S} `{FFConnection S}.
Context `{ProcessorOwner O}.

Abbreviation mrpc_server_stream_processor :=
  (stream_processor Q W K R E S (server_part HD CX O)).
#[local] Abbreviation SP := mrpc_server_stream_processor.

(** ** Access to the fields *)

Definition set_handler (handler : option HD) (service_ctx : option CX) : M SP unit :=
  sv ← field sp_extra;
  set_extra (ServerPart handler service_ctx (sv_id sv) (sv_owner sv) (sv_workers sv)).

Definition set_workers (workers : gmap nat (option (HD * option CX))) : M SP unit :=
  sv ← field sp_extra;
  set_extra (ServerPart (sv_stream_handler sv) (sv_service_ctx sv) (sv_id sv) (sv_owner sv) workers).

Definition set_owner (owner : O) : M SP unit :=
  sv ← field sp_extra;
  set_extra (ServerPart (sv_stream_handler sv) (sv_service_ctx sv) (sv_id sv) owner (sv_workers sv)).

(** A call of a callback of the owner. *)
Definition on_owner (m : Z → M O unit) : M SP unit :=
  sv ← field sp_extra;
  r ← lift (m (sv_id sv) (sv_owner sv));
  set_owner (r.2).

Definition set_request_id (ptr : nat) (request_id : byte) : M SP unit :=
  rs ← request_stream_at ptr;
  heap ← field sp_heap;
  set_heap (<[ptr := Some (RequestStream (rs_reader_queue rs) (rs_current_read_packet rs)
    (rs_current_write_packet rs) (rs_packet_stream_id rs) request_id)]> heap).

(** ** Operations *)

Definition acquire_server_packet : M SP mrpc_packet := acquire_processor_packet.
Definition release_server_packet (packet : mrpc_packet) : M SP unit :=
  release_processor_packet packet.

Definition mrpc_server_stream_processor_stop_async : M SP unit :=
  assert_state not_stopped;;
  state ← field sp_state;
  if bool_decide (state = STATE_WORKING) then
    stream ← field sp_stream;
    lift (ff_assert (match stream with Some _ => true | None => false end));;
    set_state STATE_STOP_INITIATED;;
    on_stream ff_stream_disconnect
  else lift (ff_assert (bool_decide (state = STATE_STOP_INITIATED))).

(** [stream_writer_func] and [skip_writer_queue_packets]. *)
Definition server_writer_func : M SP unit :=
  stream_writer_func mrpc_server_stream_processor_stop_async.

Definition create_request_stream : M SP nat :=
  assert_state not_stopped;;
  packet_stream ← new_packet_stream;
  alloc_request_stream packet_stream x00.

(** [delete_request_stream_wrapper], which [ff_stream_delete] calls, does nothing. *)
Definition delete_request_stream (ptr : nat) : M SP unit :=
  on_packet_stream ptr mrpc_packet_stream_delete;;
  free_request_stream ptr.

Definition acquire_request_stream (request_id : byte) : M SP nat :=
  cnt ← field sp_active_request_streams_cnt;
  lift (ff_assert (bool_decide (cnt >= 0)));;
  lift (ff_assert (bool_decide (cnt <= MAX_REQUEST_STREAMS_CNT)));;
  assert_state not_stopped;;
  ptr ← on_requests_pool (ff_pool_acquire_entry create_request_stream);
  attach_request_stream ptr request_id;;
  set_request_id ptr request_id;;
  mret ptr.

Definition release_request_stream (ptr : nat) : M SP unit :=
  assert_state not_stopped;;
  cnt ← field sp_active_request_streams_cnt;
  lift (ff_assert (bool_decide (cnt > 0)));;
  lift (ff_assert (bool_decide (cnt <= MAX_REQUEST_STREAMS_CNT)));;
  detach_request_stream ptr.

(** [ff_core_fiberpool_execute_async(process_request_func, request_stream)], *)
Definition start_process_request (ptr : nat) : M SP unit :=
  sv ← field sp_extra;
  set_workers (<[ptr := None]> (sv_workers sv)).

(** [process_request_func] up to the call of the stream handler, *)
Definition process_request_begin (ptr : nat) : M SP unit :=
  sv ← field sp_extra;
  match sv_stream_handler sv with
  | None => lift (ff_assert false)
  | Some stream_handler =>
      set_workers (<[ptr := Some (stream_handler, sv_service_ctx sv)]> (sv_workers sv))
  end.

(** and from its return. *)
Definition process_request_end (ptr : nat) (result : ff_result) : M SP unit :=
  match result with
  | FF_SUCCESS => mret tt
  | FF_FAILURE => mrpc_server_stream_processor_stop_async
  end;;
  release_request_stream ptr;;
  sv ← field sp_extra;
  set_workers (delete ptr (sv_workers sv)).

Definition handler_is_set (sv : server_part HD CX O) : bool :=
  match sv_stream_handler sv with Some _ => true | None => false end.

(** [stream_reader_func]: its beginning, up to the first packet, *)
Definition stream_reader_begin : M SP unit :=
  assert_no_request_streams;;
  sv ← field sp_extra;
  lift (ff_assert (handler_is_set sv));;
  stream ← field sp_stream;
  lift (ff_assert (match stream with Some _ => true | None => false end));;
  assert_state not_stopped;;
  start_stream_writer;;
  on_requests_event ff_event_set;;
  set_reader ReaderAcquire.

(** the code which follows a [break], up to its first wait, *)
Definition stream_reader_break : M SP unit :=
  mrpc_server_stream_processor_stop_async;;
  assert_state is_stop_initiated;;
  stop_all_request_streams.

(** and the way from one point where it waits to the next one. *)
Definition stream_reader_func : M SP unit :=
  reader ← field sp_reader;
  match reader with
  | ReaderIdle => mret tt
  | ReaderStart => stream_reader_begin
  | ReaderAcquire =>
      packet ← acquire_server_packet;
      set_reader (ReaderRead packet)
  | ReaderRead packet =>
      r ← on_stream (mrpc_packet_read_from_stream packet);
      let packet := r.2 in
      match r.1 with
      | FF_FAILURE => release_server_packet packet;; stream_reader_break
      | FF_SUCCESS =>
          let packet_type := mrpc_packet_get_type packet in
          let request_id := mrpc_packet_get_request_id packet in
          active_request_streams ← field sp_active_request_streams;
          slot ← lift (arr_get active_request_streams (Z_of_byte request_id));
          if is_first_type packet_type then
            match slot with
            | Some _ => release_server_packet packet;; stream_reader_break
            | None =>
                ptr ← acquire_request_stream request_id;
                start_process_request ptr;;
                on_packet_stream ptr (mrpc_packet_stream_push_packet packet);;
                set_reader ReaderAcquire
            end
          else
            match slot with
            | None => release_server_packet packet;; stream_reader_break
            | Some ptr =>
                on_packet_stream ptr (mrpc_packet_stream_push_packet packet);;
                set_reader ReaderAcquire
            end
      end
  | ReaderWaitRequests =>
      all_request_streams_stopped;;
      stop_stream_writer
  | ReaderWaitWriter =>
      on_writer_event ff_event_wait;;
      set_handler None None;;
      set_stream None;;
      set_state STATE_STOPPED;;
      set_reader ReaderIdle;;
      on_owner release_func
  end.

Definition mrpc_server_stream_processor_create (owner : O) (id : Z) : SP :=
  StreamProcessor (ff_blocking_queue_create MAX_PACKETS_CNT) ff_event_create
    (ff_pool_create MAX_REQUEST_STREAMS_CNT) ff_event_create (ff_pool_create MAX_PACKETS_CNT)
    (replicate (Z.to_nat MAX_REQUEST_STREAMS_CNT) None) None 0 STATE_STOPPED
    (ServerPart None None id owner ∅) [] ReaderIdle WriterIdle.

Definition is_none {A} (o : option A) : bool := match o with None => true | Some _ => false end.

(** The assertions that no connection is processed. *)
Definition assert_not_started : M SP unit :=
  sv ← field sp_extra;
  lift (ff_assert (is_none (sv_stream_handler sv)));;
  lift (ff_assert (is_none (sv_service_ctx sv)));;
  stream ← field sp_stream;
  lift (ff_assert (is_none stream)).

Definition mrpc_server_stream_processor_start (stream_handler : HD) (service_ctx : option CX)
    (stream : S) : M SP unit :=
  assert_not_started;;
  assert_state (λ state, bool_decide (state = STATE_STOPPED));;
  set_state STATE_WORKING;;
  set_handler (Some stream_handler) service_ctx;;
  set_stream (Some stream);;
  set_reader ReaderStart.

Definition mrpc_server_stream_processor_delete : M SP unit :=
  assert_not_started;;
  assert_no_request_streams;;
  assert_state (λ state, bool_decide (state = STATE_STOPPED));;
  on_owner release_id_func;;
  packets_pool ← field sp_packets_pool;
  lift (ff_pool_delete delete_packet (packets_pool, tt));;
  on_requests_pool (ff_pool_delete delete_request_stream).

Definition mrpc_server_stream_processor_get_id (sp : SP) : Z := sv_id (sp_extra sp).
End operations.

(** ** Steps of the owner, the handlers and the fibers *)

Inductive server_op (HD CX O S : Type) :=
  | StartProcessor (stream_handler : HD) (service_ctx : option CX) (stream : S)
  | OwnerMoves (owner : O)
  | HandlerBegin (ptr : nat)
  | HandlerOp (ptr : nat) (op : stream_op)
  | HandlerReturn (ptr : nat) (result : ff_result)
  | StopProcessor
  | ReaderStep
  | WriterStep.
Arguments StartProcessor {HD CX O S}.
Arguments OwnerMoves {HD CX O S}.
Arguments HandlerBegin {HD CX O S}.
Arguments HandlerOp {HD CX O S}.
Arguments HandlerReturn {HD CX O S}.
Arguments StopProcessor {HD CX O S}.
Arguments ReaderStep {HD CX O S}.
Arguments WriterStep {HD CX O S}.

Section steps.
Context {Q W K R E S HD CX O : Type}.
Context `{FFBlockingQueue Q mrpc_packet} `{FFBlockingQueue W (option mrpc_packet)}.
Context `{FFPool K mrpc_packet} `{FFPool R nat} `{FFEvent E} `{FFStream S} `{FFConnection S}.
Context `{ProcessorOwner O} `{StreamView S}.
#[local] Abbreviation SP := (stream_processor Q W K R E S (server_part HD CX O)).
#[local] Abbreviation OP := (server_op HD CX O S).
Implicit Types (sp : SP).

Definition server_step (op : OP) : M SP unit :=
  match op with
  | StartProcessor stream_handler service_ctx stream =>
      mrpc_server_stream_processor_start stream_handler service_ctx stream
  | OwnerMoves owner => set_owner owner
  | HandlerBegin ptr => process_request_begin ptr
  | HandlerOp ptr op => request_op ptr op
  | HandlerReturn ptr result => process_request_end ptr result
  | StopProcessor => mrpc_server_stream_processor_stop_async
  | ReaderStep => stream_reader_func
  | WriterStep => server_writer_func
  end.

(** The owner starts processors it uses and which are stopped, and does not stop
    them before it starts them; a handler uses its request stream while it runs. *)
Definition server_enabled (op : OP) sp : Prop :=
  let workers := sv_workers (sp_extra sp) in
  let id := mrpc_server_stream_processor_get_id sp in
  match op with
  | StartProcessor _ _ stream => sp_reader sp = ReaderIdle ∧ owner_uses (sv_owner (sp_extra sp)) id ∧
      stream_inv stream ∧ writable stream
  | OwnerMoves owner => sp_reader sp ≠ ReaderIdle → owner_uses owner id
  | HandlerBegin ptr => workers !! ptr = Some None
  | HandlerOp ptr op => (∃ call, workers !! ptr = Some (Some call)) ∧ request_allowed sp ptr op
  | HandlerReturn ptr _ => ∃ call, workers !! ptr = Some (Some call)
  | StopProcessor => sp_reader sp ≠ ReaderIdle
  | ReaderStep => reader_enabled sp
  | WriterStep => writer_enabled sp
  end.

(** There is one fiber for each active request stream, it has called the handler
    of the connection, and the owner uses the processor while it runs. *)
Record server_ok sp : Prop := {
  ok_workers ptr : is_Some (sv_workers (sp_extra sp) !! ptr) ↔
    ∃ i, sp_active_request_streams sp !! i = Some (Some ptr);
  ok_calls ptr handler ctx : sv_workers (sp_extra sp) !! ptr = Some (Some (handler, ctx)) →
    sv_stream_handler (sp_extra sp) = Some handler ∧ sv_service_ctx (sp_extra sp) = ctx;
  ok_idle : sp_reader sp = ReaderIdle → sp_state sp = STATE_STOPPED ∧
    sv_stream_handler (sp_extra sp) = None ∧ sv_service_ctx (sp_extra sp) = None;
  ok_running : sp_reader sp ≠ ReaderIdle → is_Some (sv_stream_handler (sp_extra sp)) ∧
    owner_uses (sv_owner (sp_extra sp)) (sv_id (sp_extra sp))
}.

Definition server_inv sessions pending sp : Prop := sp_inv sessions pending sp ∧ server_ok sp.

#[export] Instance server_ops : ProcessorOp OP := {
  reader_op := ReaderStep;
  writer_op := WriterStep;
  written_by ptr op :=
    match op with
    | HandlerOp p op => if decide (ptr = p) then op_written op else []
    | _ => []
    end;
  is_connect op := match op with StartProcessor _ _ _ => true | _ => false end;
  releases op ptr := ∃ result, op = HandlerReturn ptr result
}.

#[export] Instance server_system : ProcessorSystem OP Q W K R E S (server_part HD CX O) := {
  system_step := server_step;
  system_enabled := server_enabled;
  system_inv := server_inv;
  stop_processor := mrpc_server_stream_processor_stop_async
}.
End steps.

(** ** The steps preserve the invariant *)

Ltac sv_step := first
  [ progress (unfold set_handler, set_workers, set_owner) | sp_step ].

Section server_specs.
Context {Q W K R E S HD CX O : Type}.
Context `{FFBlockingQueueSpec Q mrpc_packet} `{FFBlockingQueueSpec W (option mrpc_packet)}.
Context `{FFPoolSpec K mrpc_packet} `{FFPoolSpec R nat} `{FFEventSpec E}.
Context `{FFStreamSpec S} `{!FFConnection S} `{!FFConnectionSpec S} `{ProcessorOwnerSpec O}.
#[local] Abbreviation SP := (stream_processor Q W K R E S (server_part HD CX O)).
#[local] Abbreviation OP := (server_op HD CX O S).
Implicit Types (sp : SP) (sv : server_part HD CX O).

#[export] Instance server_stop_async :
  StopAsync (mrpc_server_stream_processor_stop_async : M SP unit).
Proof.
  intros wq we rp re kp act st cnt s ex h rd wr Hs (stream & -> & Hsi & Hsw).
  unfold mrpc_server_stream_processor_stop_async. sp_steps.
  destruct s; [|sp_steps; exists (Some stream); split; [done|split; [by exists stream|done]]|done].
  rewrite bool_decide_eq_true_2 by done. sp_steps.
  eapply wp_mono; [by apply ff_stream_disconnect_spec|].
  intros [[] stream'] (Hsi' & (Hsw' & _) & Hout). exists (Some stream').
  split; [done|]. split; [|cbn; by rewrite Hout]. exists stream'. auto.
Qed.

(** ** Acquiring a request stream *)

Lemma server_create_request_stream_spec wq we rp re kp act st cnt s sv h rd wr :
  s ≠ STATE_STOPPED →
  wp (create_request_stream (StreamProcessor wq we rp re kp act st cnt s sv h rd wr : SP))
    (λ '(ptr, sp'), ∃ rs, ptr = length h ∧ rs_idle rs ∧
      sp' = StreamProcessor wq we rp re kp act st cnt s sv (h ++ [Some rs]) rd wr).
Proof.
  intros Hs. unfold create_request_stream, new_packet_stream, mrpc_packet_stream_create.
  sp_steps. unfold alloc_request_stream. sp_steps. eexists. split; [done|].
  split; [|done]. split_and!; try done. apply queue_create_spec.
Qed.

(** An entry of the pool, reused or new. *)
Lemma pool_entry_spec sessions wq we rp re kp act st cnt s sv h rd wr :
  registry h act (pool_free rp) cnt sessions → s ≠ STATE_STOPPED →
  wp (on_requests_pool (ff_pool_acquire_entry create_request_stream)
        (StreamProcessor wq we rp re kp act st cnt s sv h rd wr : SP))
    (λ '(ptr, sp'), ∃ rp' h' rs,
      sp' = StreamProcessor wq we rp' re kp act st cnt s sv h' rd wr ∧
      registry h' act (pool_free rp') cnt sessions ∧ detached act (pool_free rp') ptr ∧
      total (slot_owned h' <$> act) = total (slot_owned h <$> act) ∧
      pool_busy rp' = pool_busy rp + 1 ∧ h' !! ptr = Some (Some rs) ∧ rs_idle rs ∧
      ∀ q x, h !! q = Some x → h' !! q = Some x).
Proof.
  intros Hreg Hs. apply wp_on_requests_pool. sp_simpl.
  destruct (decide (pool_free rp = [])) as [Hnil|Hne].
  - eapply wp_mono.
    { apply (ff_pool_acquire_new_spec (C:=SP)); [done|]. by eapply server_create_request_stream_spec. }
    intros [ptr [rp' sp']] ((rs & -> & Hidle & ->) & Hfree & Hrb').
    unfold set_requests_pool. sp_simpl.
    destruct (registry_alloc _ _ _ _ _ rs Hreg) as (Hreg' & Hdet & Hown).
    rewrite Hnil in Hreg', Hdet. rewrite <- Hfree in Hreg', Hdet.
    exists rp', (h ++ [Some rs]), rs. do 5 (split; [done|]).
    split; [by apply list_lookup_middle|]. split; [done|]. intros q x Hq. by apply lookup_app_l_Some.
  - eapply wp_mono; [by apply (ff_pool_acquire_free_spec (C:=SP))|].
    intros [ptr [rp' sp']] (-> & Hperm & Hrb'). unfold set_requests_pool. sp_simpl.
    destruct (registry_take _ _ _ _ _ _ _ Hreg Hperm) as (Hreg' & Hdet & rs & Hptr & Hidle).
    by exists rp', h, rs.
Qed.

(** There is room for one more request stream if the slot of an id is free. *)
Lemma free_slot_room heap act free cnt sessions i :
  registry (Q:=Q) heap act free cnt sessions → act !! i = Some None → cnt < MAX_REQUEST_STREAMS_CNT.
Proof.
  intros [Hlen _ _ _ _ ->] Hi.
  assert (total (slot_count <$> <[i := Some 0%nat]> act) <= zlength (<[i := Some 0%nat]> act)) as Hle.
  { generalize (<[i := Some 0%nat]> act). clear. induction l as [|[n|] l IH]; cbn; [unfold zlength; cbn; lia|..];
      fold (total (slot_count <$> l)); rewrite zlength_cons; lia. }
  rewrite (total_insert _ _ _ None) in Hle by done. unfold zlength in Hle.
  rewrite length_insert, Hlen in Hle. cbn [slot_count] in Hle. change MAX_REQUEST_STREAMS_CNT with 256 in *. lia.
Qed.

Lemma server_acquire_request_stream_spec sessions pending wq we rp re kp act st cnt s sv h p wr id :
  sp_inv sessions pending (StreamProcessor wq we rp re kp act st cnt s sv h (ReaderRead p) wr : SP) →
  act !! slot_of id = Some None →
  wp (acquire_request_stream id (StreamProcessor wq we rp re kp act st cnt s sv h (ReaderRead p) wr))
    (λ '(ptr, sp'), ∃ rp' re' kp' h' rs,
      sp' = StreamProcessor wq we rp' re' kp' (<[slot_of id := Some ptr]> act) st (cnt + 1) s sv h'
              (ReaderRead p) wr ∧
      (∀ i, act !! i ≠ Some (Some ptr)) ∧ h' !! ptr = Some (Some rs) ∧ rs_request_id rs = id ∧
      rs_owned rs = 0 ∧ (∀ i q, act !! i = Some (Some q) → h' !! q = h !! q) ∧
      sp_inv (new_session sessions (slot_of id) ([], [])) pending sp').
Proof.
  intros Hinv Hslot. pose proof (inv_registry _ _ _ Hinv) as Hreg.
  pose proof (inv_busy _ _ _ Hinv) as Hrb. pose proof (inv_reader _ _ _ Hinv) as Hr. sp_simpl_all.
  destruct Hr as (_ & Hs & _). pose proof (registry_cnt_range _ _ _ _ _ Hreg) as Hcnt.
  pose proof (free_slot_room _ _ _ _ _ _ Hreg Hslot) as Hlt.
  unfold acquire_request_stream. sp_steps.
  eapply wp_mono; [by eapply pool_entry_spec|].
  intros [ptr sp'] (rp' & h' & rs & -> & Hreg' & Hdet & Hown & Hbusy & Hptr & Hidle & Hold).
  sp_steps.
  eapply wp_mono; [by eapply (attach_inv _ _ _ _ rp rp'); try done; lia|].
  intros [[] sp'] (re' & kp' & rs' & -> & Hid & Hempty & Hinv'). sp_steps. unfold set_request_id. sp_step.
  assert ((ptr < length h')%nat) as Hlen by by eapply lookup_lt_Some.
  apply (wp_request_stream_at _ _ rs'); [sp_simpl; by rewrite list_lookup_insert_eq|]. sp_steps.
  rewrite list_insert_insert_eq.
  exists rp', re', kp', (<[ptr := Some (with_request_id rs' id)]> h'), (with_request_id rs' id).
  split; [done|]. split; [apply Hdet|]. split; [by rewrite list_lookup_insert_eq|]. do 2 (split; [done|]).
  split; [|exact Hinv']. intros i q Hi.
  assert (q ≠ ptr) as Hne by (intros ->; by destruct Hdet as [_ Hd]; destruct (Hd i)).
  rewrite list_lookup_insert_ne by done.
  destruct (reg_active _ _ _ _ _ Hreg i q Hi) as (rsq & Hq & _). rewrite Hq. by apply Hold.
Qed.

(** ** The steps *)

Implicit Types (workers : gmap nat (option (HD * option CX))).

(** A step which leaves the server's part alone. *)
Lemma server_ok_same sp sp' : server_ok sp →
  sp_extra sp' = sp_extra sp → sp_active_request_streams sp' = sp_active_request_streams sp →
  (sp_reader sp' = ReaderIdle ↔ sp_reader sp = ReaderIdle) →
  (sp_reader sp = ReaderIdle → sp_state sp' = sp_state sp) → server_ok sp'.
Proof.
  intros [Hw Hc Hi Hr] Hex Hact Hrd Hs. split; rewrite Hex, ?Hact; [done|done| |].
  - intros Hidle%Hrd. rewrite Hs by done. by apply Hi.
  - intros Hrun. apply Hr. by rewrite <- Hrd.
Qed.

Lemma start_step sessions pending handler ctx stream sp :
  server_inv sessions pending sp → server_enabled (StartProcessor handler ctx stream) sp →
  wp (server_step (StartProcessor handler ctx stream) sp)
    (step_post sessions pending (StartProcessor handler ctx stream) sp).
Proof.
  destruct sp as [wq we rp re kp act st cnt s [sh sc id o ws] h rd wr].
  intros (Hinv & Hok) (Hrd & Huses & Hsi & Hsw). sp_simpl_all. subst rd.
  destruct Hok as [Hw Hc Hi Hr]. destruct (Hi eq_refl) as (Hs & Hsh & Hsc). cbn in *. subst s sh sc.
  destruct Hinv as [Hreg Hkp Hrb Hq Hpend Hidle Hout Hrd Hwr]. sp_simpl_all.
  destruct Hrd as (_ & -> & -> & -> & Hwe). unfold mrpc_server_stream_processor_start, assert_not_started.
  repeat sv_step. apply effect_stays; try done. split.
  - split; sp_simpl; try done. cbn. split_and!; try done. by exists stream.
  - split; cbn; try done.
    intros ptr handler' ctx' Hws. destruct (Hw ptr) as [Hact _].
    destruct Hact as [i Hact]; [by eexists|]. by pose proof (registry_none _ _ _ _ _ _ Hreg Hact).
Qed.

Lemma owner_step sessions pending owner sp :
  server_inv sessions pending sp → server_enabled (OwnerMoves owner) sp →
  wp (server_step (OwnerMoves owner) sp) (step_post sessions pending (OwnerMoves owner) sp).
Proof.
  destruct sp as [wq we rp re kp act st cnt s [sh sc id o ws] h rd wr].
  intros (Hinv & [Hw Hc Hi Hr]) Hen. cbn [server_step]. repeat sv_step.
  apply effect_stays; try done; [|by apply reader_stays]. split; [by destruct Hinv|].
  split; try done. cbn in *. intros Hrd. destruct (Hr Hrd) as [? _]. split; [done|]. by apply Hen.
Qed.

(** A handler is only called while a connection is processed. *)
Lemma worker_active sp ptr : server_ok sp → is_Some (sv_workers (sp_extra sp) !! ptr) →
  ∃ i, sp_active_request_streams sp !! i = Some (Some ptr).
Proof. intros [Hw _ _ _] Hptr. by apply Hw. Qed.

Lemma handler_begin_step sessions pending ptr sp :
  server_inv sessions pending sp → server_enabled (HandlerBegin ptr) sp →
  wp (server_step (HandlerBegin ptr) sp) (step_post sessions pending (HandlerBegin ptr) sp).
Proof.
  destruct sp as [wq we rp re kp act st cnt s [sh sc id o ws] h rd wr].
  intros (Hinv & Hok) Hen. destruct (worker_active _ ptr Hok) as [i Hi]; [by eexists|].
  destruct Hok as [Hw Hc Hid Hr]. cbn in Hen, Hw, Hc, Hid, Hr, Hi.
  pose proof (registry_cnt_pos _ _ _ _ _ _ _ (inv_registry _ _ _ Hinv) Hi) as Hcnt.
  destruct (active_reader _ _ _ _ _ _ _ (inv_reader _ _ _ Hinv) Hcnt) as (Hni & _). cbn in Hni.
  destruct (Hr Hni) as [[handler ->] Huses]. cbn [server_step]. unfold process_request_begin.
  repeat sv_step. apply effect_stays; try done; [|by apply reader_stays]. split; [by destruct Hinv|].
  split; cbn; try done.
  - intros q. rewrite <- Hw. destruct (decide (q = ptr)) as [->|Hne];
      [rewrite lookup_insert_eq, Hen; by split; eexists|by rewrite lookup_insert_ne].
  - intros q handler' ctx'. destruct (decide (q = ptr)) as [->|Hne].
    + rewrite lookup_insert_eq. by intros [= -> ->].
    + rewrite lookup_insert_ne by done. apply Hc.
Qed.
Lemma handler_op_step sessions pending ptr op sp :
  server_inv sessions pending sp → server_enabled (HandlerOp ptr op) sp →
  wp (server_step (HandlerOp ptr op) sp) (step_post sessions pending (HandlerOp ptr op) sp).
Proof.
  intros (Hinv & Hok) (_ & Hen). eapply wp_mono; [by eapply request_op_spec|].
  intros [[] sp'] (sessions' & new & Hinv' & ((Hex & _) & Hact & Hs & Hrd & Hwr & Hout) & Hses).
  eapply effect_queues; [split; [exact Hinv'|]|done|by rewrite Hrd|by apply reader_stays|done|].
  - eapply server_ok_same; [exact Hok|done|done|by rewrite Hrd|done].
  - intros i p Hi _. rewrite Hact. by destruct (Hses i p Hi).
Qed.

(** The handler has returned, and the processor has been told to stop if it failed. *)
Lemma release_step sessions pending wq we rp re kp act st0 st cnt s0 s sh sc id o ws h rd wr ptr result call :
  let before := StreamProcessor wq we rp re kp act st0 cnt s0 (ServerPart sh sc id o ws) h rd wr : SP in
  server_ok before → ws !! ptr = Some (Some call) → outgoing <$> st = outgoing <$> st0 →
  sp_inv sessions pending
    (StreamProcessor wq we rp re kp act st cnt s (ServerPart sh sc id o ws) h rd wr) →
  wp ((release_request_stream ptr;; sv ← field sp_extra; set_workers (delete ptr (sv_workers sv)))
        (StreamProcessor wq we rp re kp act st cnt s (ServerPart sh sc id o ws) h rd wr))
    (step_post sessions pending (HandlerReturn ptr result : OP) before).
Proof.
  intros before Hok Hws Hout Hinv.
  destruct (worker_active _ ptr Hok) as [i Hi]; [by eexists|]. cbn in Hi.
  pose proof (inv_registry _ _ _ Hinv) as Hreg. pose proof (inv_reader _ _ _ Hinv) as Hr. sp_simpl_all.
  pose proof (registry_cnt_pos _ _ _ _ _ _ _ Hreg Hi) as Hcnt.
  pose proof (registry_cnt_range _ _ _ _ _ Hreg) as Hrange.
  destruct (active_not_closing _ _ _ _ _ _ _ Hr Hcnt) as (Hs & _).
  destruct (active_reader _ _ _ _ _ _ _ Hr Hcnt) as (Hni & _).
  unfold release_request_stream. sp_steps.
  eapply wp_mono; [by eapply detach_inv|].
  intros [[] sp'] (rp' & re' & kp' & h' & -> & Hinv' & _). repeat sv_step.
  assert (∀ j q, <[i:=None]> act !! j = Some (Some q) ↔ act !! j = Some (Some q) ∧ q ≠ ptr) as Hact.
  { assert ((i < length act)%nat) as Hlt by by eapply lookup_lt_Some.
    intros j q. destruct (decide (j = i)) as [->|Hne].
    - rewrite list_lookup_insert_eq, Hi by done. split; [done|by intros [[= <-] ?]].
    - rewrite list_lookup_insert_ne by done. split; [|by intros [? _]]. intros Hj. split; [done|].
      intros ->. apply Hne. by eapply registry_unique. }
  apply effect_queues with (sessions' := sessions) (new := []);
    [rewrite app_nil_r|done|done|by apply reader_stays| |].
  - split; [by destruct Hinv'|]. destruct Hok as [Hw Hc Hid Hrun]. cbn in Hw, Hc, Hid, Hrun.
    split; cbn; [|intros q handler ctx|done|done].
    + intros q. setoid_rewrite Hact. destruct (decide (q = ptr)) as [->|Hne].
      * rewrite lookup_delete_eq. split; [by intros []|by intros (? & _ & ?)].
      * rewrite lookup_delete_ne, Hw by done. split; [intros [j ?]; by exists j|intros [j [? ?]]; by exists j].
    + rewrite lookup_delete_Some. intros [_ Hq]. by apply (Hc q).
  - by apply same_stream_out.
  - intros j q Hj Hne. sp_simpl_all. split; [|split; [apply grows_nil|cbn; by rewrite app_nil_r]].
    apply Hact. split; [done|]. intros ->. apply Hne. by exists result.
Qed.

Lemma handler_return_step sessions pending ptr result sp :
  server_inv sessions pending sp → server_enabled (HandlerReturn ptr result) sp →
  wp (server_step (HandlerReturn ptr result) sp)
    (step_post sessions pending (HandlerReturn ptr result) sp).
Proof.
  destruct sp as [wq we rp re kp act st cnt s [sh sc id o ws] h rd wr].
  intros (Hinv & Hok) [call Hen]. cbn in Hen. destruct (worker_active _ ptr Hok) as [i Hi]; [by eexists|].
  pose proof (registry_cnt_pos _ _ _ _ _ _ _ (inv_registry _ _ _ Hinv) Hi) as Hcnt.
  destruct (active_not_closing _ _ _ _ _ _ _ (inv_reader _ _ _ Hinv) Hcnt) as (Hs & Hst & _).
  destruct (active_reader _ _ _ _ _ _ _ (inv_reader _ _ _ Hinv) Hcnt) as (Hni & _). sp_simpl_all.
  cbn [server_step]. unfold process_request_end. destruct result; sp_step.
  - sp_step. by eapply release_step.
  - eapply wp_mono; [by apply stop_async_spec|]. intros [[] sp'] (st' & -> & Hst' & Hout).
    eapply release_step; [done|done|done|by eapply stop_inv].
Qed.

Lemma server_stop_step sessions pending sp :
  server_inv sessions pending sp → server_enabled StopProcessor sp →
  wp (server_step StopProcessor sp) (step_post sessions pending StopProcessor sp).
Proof.
  destruct sp as [wq we rp re kp act st cnt s sv h rd wr]. intros (Hinv & Hok) Hrd.
  pose proof (inv_reader _ _ _ Hinv) as Hr. cbn in Hrd. sp_simpl_all.
  assert (s ≠ STATE_STOPPED ∧ stream_ok st) as [Hs Hst].
  { destruct rd; try done; cbn in Hr; unfold connected in Hr; destruct_and?; by subst. }
  cbn [server_step].
  eapply wp_mono; [by apply stop_async_spec|]. intros [[] sp'] (st' & -> & Hst' & Hout).
  apply effect_stays; try done;
    [split; [by eapply stop_inv|by eapply server_ok_same]| |by apply reader_stays].
  intros _ Ha. split; [exact Ha|]. by apply same_stream_out.
Qed.

Lemma server_writer_step sessions pending sp :
  server_inv sessions pending sp → server_enabled WriterStep sp →
  wp (server_step WriterStep sp) (step_post sessions pending WriterStep sp).
Proof.
  intros (Hinv & Hok) Hen. apply (effect_writer mrpc_server_stream_processor_stop_async); [done..|].
  intros pending' sp' Hinv' (Hh & Hact & Hrp & Hcnt & Hex & Hrd & Hs). split; [done|].
  eapply server_ok_same; [exact Hok|done|done|by rewrite Hrd|]. intros Hidle.
  exfalso. pose proof (inv_reader _ _ _ Hinv) as Hr. rewrite Hidle in Hr. destruct Hr as (_ & _ & _ & Hwr & _).
  cbn in Hen. unfold writer_enabled in Hen. by rewrite Hwr in Hen.
Qed.

(** ** The reader fiber *)

(** The reader gives up the packet it has read and leaves its loop. *)
Lemma server_reader_leaves sessions pending wq we rp re kp act st cnt s sv h p p' st' wr :
  server_inv sessions pending
    (StreamProcessor wq we rp re kp act st cnt s sv h (ReaderRead p) wr : SP) →
  stream_ok st' → outgoing <$> st' = outgoing <$> st → zlength (pk_buf p') = MAX_PACKET_SIZE →
  wp ((release_server_packet p';; stream_reader_break)
        (StreamProcessor wq we rp re kp act st' cnt s sv h (ReaderRead p) wr))
    (step_post sessions pending (ReaderStep : OP)
       (StreamProcessor wq we rp re kp act st cnt s sv h (ReaderRead p) wr)).
Proof.
  intros (Hinv & Hok) Hst' Hout Hb.
  eapply wp_mono.
  { by apply (reader_leaves_spec mrpc_server_stream_processor_stop_async sessions pending). }
  intros [[] sp'] (wq' & kp2 & h' & st2 & new & sessions' & -> & Hh & Hout2 & Hgrow & Hinv').
  eapply effect_queues; [split; [exact Hinv'|by eapply server_ok_same]|done|done|done| |].
  - by apply same_stream_out.
  - intros i ptr Hi _. sp_simpl_all. split; [done|]. destruct (Hgrow i) as [? ->].
    split; [done|]. cbn. by rewrite app_nil_r.
Qed.

(** A packet for the active request stream [ptr]. *)
Lemma reader_pushes sessions0 sessions pending before wq we rp re kp act st cnt s sv h p0 p wr i ptr :
  sp_inv sessions pending (StreamProcessor wq we rp re kp act st cnt s sv h (ReaderRead p0) wr : SP) →
  server_ok (StreamProcessor wq we rp re kp act st cnt s sv h ReaderAcquire wr : SP) →
  packet_inv p → act !! i = Some (Some ptr) → sp_writer before = wr → sp_reader before ≠ ReaderStart →
  outgoing <$> st = outgoing <$> sp_stream before →
  (∀ j q, sp_active_request_streams before !! j = Some (Some q) →
     act !! j = Some (Some q) ∧ sessions j = sessions0 j) →
  wp (on_packet_stream ptr (mrpc_packet_stream_push_packet p)
        (StreamProcessor wq we rp re kp act st cnt s sv h (ReaderRead p0) wr))
    (λ r, wp (set_reader ReaderAcquire (r.2))
       (step_effect server_inv (λ _, []) false (λ _, False) sessions0 pending before)).
Proof.
  intros Hinv Hok Hp Hi Hwr Hrd Hout Hact. eapply wp_mono; [by eapply push_spec|].
  intros [[] sp'] (wq1 & kp1 & h1 & new & sessions1 & -> & Hh & Hinv1 & Hses). sp_simpl. sp_step.
  eapply effect_queues; [split; [exact Hinv1|by eapply server_ok_same]|done|done|done| |].
  - destruct before. by apply same_stream_out.
  - intros j q Hj _. sp_simpl. destruct (Hact j q Hj) as [Hj' Hs]. split; [done|].
    destruct (Hses j q Hj') as [Hg Hw]. rewrite <- Hs. split; [exact Hg|].
    rewrite Hw. by case_decide.
Qed.

(** The first packet of a request: a new request stream, and a fiber for it. *)
Lemma reader_creates sessions pending wq we rp re kp act st0 st cnt s sv h p0 p wr :
  server_inv sessions pending
    (StreamProcessor wq we rp re kp act st0 cnt s sv h (ReaderRead p0) wr : SP) →
  stream_ok st → outgoing <$> st = outgoing <$> st0 →
  packet_inv p → act !! slot_of (pk_request_id p) = Some None →
  wp ((ptr ← acquire_request_stream (pk_request_id p); start_process_request ptr;;
       on_packet_stream ptr (mrpc_packet_stream_push_packet p);; set_reader ReaderAcquire)
        (StreamProcessor wq we rp re kp act st cnt s sv h (ReaderRead p0) wr))
    (step_effect server_inv (λ _, []) false (λ _, False) sessions pending
       (StreamProcessor wq we rp re kp act st0 cnt s sv h (ReaderRead p0) wr)).
Proof.
  intros (Hinv & Hok) Hst Hout Hp Hslot.
  pose proof (inv_reader _ _ _ Hinv) as Hr. pose proof (inv_packets _ _ _ Hinv) as Hkp. sp_simpl_all.
  assert (sp_inv sessions pending
    (StreamProcessor wq we rp re kp act st cnt s sv h (ReaderRead p0) wr : SP)) as Hinv0.
  { eapply reader_moves; [exact Hinv|done..|by left| |done]. intros q [= <-]. apply Hr. }
  sp_step. eapply wp_mono; [by eapply server_acquire_request_stream_spec|].
  intros [ptr sp'] (rp' & re' & kp' & h' & rs & -> & Hnew & _ & _ & _ & _ & Hinv').
  unfold start_process_request. repeat sv_step. clear Hr.
  assert ((slot_of (pk_request_id p) < length act)%nat) as Hlt by by eapply lookup_lt_Some.
  eapply reader_pushes; [by destruct Hinv'| |done|by apply list_lookup_insert_eq|done|done|done|].
  - destruct Hok as [Hw Hc Hi Hrun]. cbn in Hw, Hc, Hi, Hrun.
    split; cbn; [| |done|intros _; by apply Hrun].
    + intros q. destruct (decide (q = ptr)) as [->|Hne].
      * rewrite lookup_insert_eq. split; [intros _|by eexists]. exists (slot_of (pk_request_id p)).
        by apply list_lookup_insert_eq.
      * rewrite lookup_insert_ne, Hw by done. split; intros [j Hj]; exists j.
        -- rewrite list_lookup_insert_ne; [done|]. intros <-. congruence.
        -- destruct (decide (j = slot_of (pk_request_id p))) as [->|Hji].
           ++ rewrite list_lookup_insert_eq in Hj by done. congruence.
           ++ by rewrite list_lookup_insert_ne in Hj by done.
    + intros q handler ctx. rewrite lookup_insert_Some. intros [[_ [=]]|[_ Hq]]. by apply (Hc q).
  - intros j q Hj. sp_simpl_all. assert (j ≠ slot_of (pk_request_id p)) as Hne by congruence.
    rewrite list_lookup_insert_ne by done. split; [done|]. unfold new_session. by rewrite decide_False.
Qed.

(** The steps of the reader write to no request stream and release none. *)
Lemma reader_effect sessions pending sp r :
  step_effect server_inv (λ _, []) false (λ _, False) sessions pending sp r →
  step_post sessions pending (ReaderStep : OP) sp r.
Proof.
  intros (sessions' & pending' & new & gone & Hinv & Hend & Hun & Hout & Hact).
  exists sessions', pending', new, gone. do 4 (split; [done|]).
  intros i ptr Hi _. apply (Hact i ptr Hi). by intros [].
Qed.

(** The reader reads a packet and passes it on. *)
Lemma server_reader_read_step sessions pending wq we rp re kp act st cnt s sv h p wr :
  server_inv sessions pending
    (StreamProcessor wq we rp re kp act st cnt s sv h (ReaderRead p) wr : SP) →
  wp (stream_reader_func (StreamProcessor wq we rp re kp act st cnt s sv h (ReaderRead p) wr))
    (step_post sessions pending (ReaderStep : OP)
       (StreamProcessor wq we rp re kp act st cnt s sv h (ReaderRead p) wr)).
Proof.
  intros Hsinv. destruct (Hsinv) as (Hinv & Hok).
  pose proof (inv_reader _ _ _ Hinv) as Hr. pose proof (inv_packets _ _ _ Hinv) as Hkp.
  pose proof (inv_registry _ _ _ Hinv) as Hreg. sp_simpl_all.
  unfold stream_reader_func. sp_step. sp_step. sp_step.
  eapply wp_mono; [by apply (reader_read_spec sessions pending)|].
  intros [[r p'] sp'] (st' & -> & Hst' & Hout & Hb & Hread). sp_simpl.
  destruct r; [|by apply server_reader_leaves]. destruct (Hread eq_refl) as [Hp' Hpos].
  unfold mrpc_packet_get_request_id, mrpc_packet_get_type. sp_steps.
  destruct (registry_slot _ _ _ _ _ (pk_request_id p') Hreg) as [slot Hslot].
  eapply slot_get; [exact Hslot|].
  destruct (is_first_type (pk_type p')), slot as [ptr|]; try by apply server_reader_leaves.
  - eapply wp_mono; [by eapply reader_creates|]. apply reader_effect.
  - eapply wp_mono; [|apply reader_effect]. sp_step.
    eapply reader_pushes; [|by eapply server_ok_same|done|exact Hslot|done|done|done|done].
    eapply reader_moves; [exact Hinv|done..|by left| |done]. intros q [= <-]. apply Hr.
Qed.

(** The reader fiber starts. *)
Lemma reader_begin_step sessions pending wq we rp re kp act st cnt s sv h wr :
  server_inv sessions pending
    (StreamProcessor wq we rp re kp act st cnt s sv h ReaderStart wr : SP) →
  wp (stream_reader_begin (StreamProcessor wq we rp re kp act st cnt s sv h ReaderStart wr))
    (step_post sessions pending (ReaderStep : OP)
       (StreamProcessor wq we rp re kp act st cnt s sv h ReaderStart wr)).
Proof.
  intros (Hinv & Hok). destruct Hinv as [Hreg Hkp Hrb Hq Hpend Hidle Hout Hr Hw]. sp_simpl_all.
  destruct Hr as (Hs & (stream & -> & Hstream) & -> & -> & Hwe).
  destruct (ok_running _ Hok) as [[handler Hh] _]; [done|]. sp_simpl_all.
  unfold stream_reader_begin, assert_no_request_streams, start_stream_writer. sp_steps.
  { unfold handler_is_set. by rewrite Hh. }
  eapply wp_mono; [apply ff_event_set_spec|]. intros [[] re'] Hre'. sp_simpl. sp_steps.
  rewrite (Hidle eq_refl) in *. apply effect_stays; try done; [|intros _ _; split; [by left|done]].
  split; [|by eapply server_ok_same]. split; sp_simpl; try done.
  cbn. split; [done|]. split; [by exists stream|done].
Qed.

(** The end of the reader fiber: the processor is handed back to its owner. *)
Lemma reader_ends_step sessions pending wq we rp re kp act st cnt s sv h wr :
  server_inv sessions pending
    (StreamProcessor wq we rp re kp act st cnt s sv h ReaderWaitWriter wr : SP) →
  event_is_set we = true →
  wp (stream_reader_func (StreamProcessor wq we rp re kp act st cnt s sv h ReaderWaitWriter wr))
    (λ r, step_post sessions pending (ReaderStep : OP)
       (StreamProcessor wq we rp re kp act st cnt s sv h ReaderWaitWriter wr) r ∧
      is_stopped (r.2) ∧ sp_active_request_streams_cnt (r.2) = cnt ∧
      sp_writer_queue (r.2) = wq ∧ sp_writer (r.2) = wr ∧ sp_stream (r.2) = None ∧
      sv_stream_handler (sp_extra (r.2)) = None ∧ sv_service_ctx (sp_extra (r.2)) = None ∧
      owner_idle (sv_owner (sp_extra (r.2))) (sv_id (sp_extra (r.2)))).
Proof.
  intros (Hinv & Hok) Hset. destruct (ok_running _ Hok) as [_ Huses]; [done|].
  destruct (processor_stopped_spec _ _ _ _ _ _ _ _ _ _ _ _ _ _ Hinv Hset) as (-> & -> & Hwait).
  pose proof (inv_registry _ _ _ Hinv) as Hreg. pose proof (inv_reader _ _ _ Hinv) as Hr. sp_simpl_all.
  destruct Hr as (_ & _ & -> & _).
  destruct Hok as [Hw Hc _ _]. destruct sv as [sh sc id o ws]. cbn in Hw, Hc, Huses.
  unfold stream_reader_func. sp_step. sp_step.
  sp_step. eapply wp_mono; [exact Hwait|]. intros [[] sp'] (we' & -> & Hinv').
  unfold on_owner. repeat sv_step. cbn [sv_id sv_owner sv_stream_handler sv_service_ctx sv_workers].
  eapply wp_mono; [by apply release_func_spec|]. intros [[] o'] Hfree. repeat sv_step.
  split; [|by split_and!]. apply effect_stays; try done; [|by intros _ [[=]|[_ ?]]|by right].
  split; [by destruct (Hinv' STATE_STOPPED)|]. split; cbn; try done.
  intros ptr handler ctx Hws. destruct (Hw ptr) as [Hact _].
  destruct Hact as [i Hact]; [by eexists|]. by pose proof (registry_none _ _ _ _ _ _ Hreg Hact).
Qed.

Lemma server_reader_step_spec sessions pending sp :
  server_inv sessions pending sp → server_enabled ReaderStep sp →
  wp (server_step ReaderStep sp) (step_post sessions pending ReaderStep sp).
Proof.
  destruct sp as [wq we rp re kp act st cnt s sv h rd wr]. intros Hsinv Hen.
  destruct (Hsinv) as (Hinv & Hok).
  pose proof (inv_reader _ _ _ Hinv) as Hr. pose proof (inv_packets _ _ _ Hinv) as Hkp.
  cbn in Hen. unfold reader_enabled in Hen. sp_simpl_all. cbn [server_step].
  destruct rd as [| | |p| |]; [done| | |by apply server_reader_read_step| |].
  - by apply reader_begin_step.
  - destruct Hr as (Hs & Hst & _). unfold stream_reader_func, acquire_server_packet. sp_step. sp_step. sp_step.
    eapply wp_mono; [by apply acquire_packet_call|]. intros [p sp'] (kp' & -> & Hp & Hkp' & Hbusy).
    sp_simpl. sp_step. apply effect_moves; try done. split; [|by eapply server_ok_same].
    eapply reader_moves; [exact Hinv|done..|cbn; lia|done|by left| |done]. by intros ? [= ->].
  - unfold stream_reader_func. sp_step. sp_step.
    eapply wp_mono; [by apply (requests_stopped_spec sessions pending)|].
    intros [[] sp'] (wq' & re' & -> & -> & _ & -> & Hinv'). apply effect_moves; try done.
    split; [done|by eapply server_ok_same].
  - eapply wp_mono; [by apply reader_ends_step|]. by intros r [? _].
Qed.

Lemma server_reader_end sessions pending sp :
  server_inv sessions pending sp → is_closing sp → reader_enabled sp →
  wp (server_step ReaderStep sp) (λ r,
    match sp_reader sp with
    | ReaderWaitRequests => sp_reader (r.2) = ReaderWaitWriter ∧
        writer_load (r.2) = (writer_load sp + 3)%nat
    | _ => is_stopped (r.2) ∧ writer_load (r.2) = writer_load sp
    end ∧ sp_active_request_streams_cnt (r.2) = sp_active_request_streams_cnt sp).
Proof.
  destruct sp as [wq we rp re kp act st cnt s sv h rd wr]. intros Hsinv Hcl Hen.
  unfold reader_enabled in Hen. unfold is_closing in Hcl. sp_simpl_all. cbn [server_step].
  destruct rd; try done.
  - destruct Hsinv as (Hinv & _). unfold stream_reader_func. sp_step. sp_step.
    eapply wp_mono; [by apply (requests_stopped_spec sessions pending)|].
    intros [[] sp'] (wq' & re' & -> & -> & Hq & -> & _). unfold writer_load. sp_simpl.
    rewrite Hq, length_app. cbn. split_and!; [done|lia|done].
  - eapply wp_mono; [by apply (reader_ends_step sessions pending)|].
    intros r (_ & Hst & Hcnt & Hq & Hwr & _). split; [|done]. split; [done|].
    unfold writer_load. by rewrite Hq, Hwr.
Qed.

#[export] Instance server_system_spec :
  ProcessorSystemSpec (Op := OP) (X := server_part HD CX O).
Proof.
  split; try done.
  - by intros sessions pending sp (Hinv & _).
  - apply server_stop_async.
  - intros sessions pending op sp Hinv Hen. destruct op.
    + by apply start_step.
    + by apply owner_step.
    + by apply handler_begin_step.
    + by apply handler_op_step.
    + by apply handler_return_step.
    + by apply server_stop_step.
    + by apply server_reader_step_spec.
    + by apply server_writer_step.
  - intros sessions pending sp. apply server_reader_end.
Qed.

(** ** Creation and deletion *)

Lemma create_server_spec owner id :
  server_inv (λ _, ([], [])) [] (mrpc_server_stream_processor_create owner id : SP).
Proof.
  destruct (ff_pool_create_spec (K:=K) (A:=mrpc_packet) MAX_PACKETS_CNT) as [Hkf Hkb].
  destruct (ff_pool_create_spec (K:=R) (A:=nat) MAX_REQUEST_STREAMS_CNT) as [Hrf Hrb].
  assert (∀ i ptr, replicate (Z.to_nat MAX_REQUEST_STREAMS_CNT) (@None nat) !! i ≠ Some (Some ptr))
    as Hnone by (intros i ptr Hi; apply lookup_replicate in Hi as [? _]; done).
  unfold mrpc_server_stream_processor_create. split.
  - split; sp_simpl; rewrite ?Hkf, ?Hrf, ?Hrb; try done.
    + split; try done; try (by intros i ptr Hi; destruct (Hnone i ptr)); [|apply NoDup_nil_2].
      intros ptr Hin. by apply elem_of_nil in Hin.
    + by rewrite queue_create_spec.
    + unfold sp_outside, outside_packets. sp_simpl. rewrite Hkb, queue_create_spec. done.
    + cbn. by rewrite ff_event_create_spec.
  - split; try done. intros ptr. split; [by intros []|]. intros [i Hi]. by destruct (Hnone i ptr).
Qed.

Lemma server_delete_requests_spec l wq we rp re kp act st cnt s sv h rd wr :
  NoDup l → (∀ ptr, ptr ∈ l → ∃ rs, h !! ptr = Some (Some rs) ∧ rs_idle rs) →
  wp (delete_entries delete_request_stream l
        (StreamProcessor wq we rp re kp act st cnt s sv h rd wr : SP)) (λ r, sp_extra (r.2) = sv).
Proof.
  revert h. induction l as [|ptr l IH]; intros h Hnd Hl; [done|].
  apply NoDup_cons in Hnd as [Hnin Hnd]. destruct (Hl ptr) as (rs & Hptr & Hidle); [by left|].
  cbn [delete_entries]. sp_step. unfold delete_request_stream. sp_step.
  apply (wp_on_packet_stream _ _ _ rs); [done|]. destruct Hidle as (Hcr & Hcw & Hpid & _).
  unfold mrpc_packet_stream_delete, stream_view. rewrite Hcr, Hcw, Hpid. sp_simpl. do 3 ps_step.
  rewrite wp_lift, wp_assert. split; [done|].
  unfold store_view, free_request_stream. sp_simpl. sp_steps. rewrite list_insert_insert_eq.
  apply IH; [done|]. intros q Hq. destruct (Hl q) as (rs' & Hq' & Hidle'); [by right|].
  exists rs'. by rewrite list_lookup_insert_ne by congruence.
Qed.

Lemma server_delete_spec sessions pending sp :
  server_inv sessions pending sp → sp_reader sp = ReaderIdle →
  owner_idle (sv_owner (sp_extra sp)) (mrpc_server_stream_processor_get_id sp) →
  wp (mrpc_server_stream_processor_delete sp) (λ r,
    release_id_func (sv_id (sp_extra sp)) (sv_owner (sp_extra sp)) =
    Ret (tt, sv_owner (sp_extra (r.2)))).
Proof.
  intros (Hinv & Hok) Hrd Huses. destruct (ok_idle _ Hok Hrd) as (Hs & Hsh & Hsc).
  destruct (idle_packets _ _ _ Hinv Hrd) as [_ Hbusy].
  destruct sp as [wq we rp re kp act st cnt s [sh sc id o ws] h rd wr]. cbn in Hs, Hsh, Hsc, Hrd, Huses.
  subst s sh sc rd. destruct Hinv as [Hreg Hkp Hrb Hq Hpend Hidle Hout Hr Hw]. sp_simpl_all.
  destruct Hr as (_ & -> & -> & -> & _). rewrite (Hidle eq_refl) in *.
  unfold mrpc_server_stream_processor_delete, assert_not_started, assert_no_request_streams, on_owner.
  repeat sv_step. cbn [sv_id sv_owner].
  destruct (wp_inv _ _ (release_id_func_spec id o Huses)) as ([[] o'] & Hrel & _).
  rewrite Hrel. repeat sv_step.
  assert (∀ l, l ≡ₚ pool_free kp → wp (delete_entries delete_packet l tt) (λ _, True)) as Hdel.
  { intros l Hl. apply delete_packets_spec. by rewrite Hl. }
  eapply wp_mono.
  { apply (ff_pool_delete_spec delete_packet kp tt (λ _, True)); [done|].
    intros l Hl. eapply wp_mono; [by apply Hdel|]. by intros [[] []]. }
  intros [[] [? []]] _. repeat sv_step. apply wp_on_requests_pool. sp_simpl.
  apply (wp_mono _ (λ '(_, (_, sp')), Ret (tt, o') = Ret (tt, sv_owner (sp_extra sp')))).
  2: { intros [[] [? []]] Hex. exact Hex. }
  apply (ff_pool_delete_spec (C:=SP) delete_request_stream rp _
    (λ sp', Ret (tt, o') = Ret (tt, sv_owner (sp_extra sp')))); [done|]. intros l Hl.
  eapply wp_mono; [apply server_delete_requests_spec|intros [[] sp'] Hex; cbn in *; by rewrite Hex].
  - rewrite Hl. apply (reg_nodup _ _ _ _ _ Hreg).
  - intros ptr Hp. rewrite Hl in Hp. by apply (reg_free _ _ _ _ _ Hreg).
Qed.

(** ** Dispatch *)

(** The reader goes on, and [rest] is still to be read. *)
Definition reader_goes_on sp sp' (rest : list byte) : Prop :=
  sp_reader sp' = ReaderAcquire ∧ sp_state sp' = sp_state sp ∧ incoming <$> sp_stream sp' = Some rest.

(** What happens to the packet [q], by its type and the slot of its request id. *)
Definition dispatched (q : mrpc_packet) (rest : list byte) sp sp' : Prop :=
  match sp_active_request_streams sp !! slot_of (pk_request_id q), is_first_type (pk_type q) with
  | Some None, true => ∃ q' ptr rs,
      packet_same q' q ∧ active_at sp' (slot_of (pk_request_id q)) ptr rs ∧
      rs_request_id rs = pk_request_id q ∧ queue_contents (rs_reader_queue rs) = [q'] ∧
      rs_current_read_packet rs = None ∧ rs_current_write_packet rs = None ∧
      sv_workers (sp_extra sp) !! ptr = None ∧
      sv_workers (sp_extra sp') = <[ptr := None]> (sv_workers (sp_extra sp)) ∧
      (∀ i p r, active_at sp i p r → active_at sp' i p r) ∧ reader_goes_on sp sp' rest
  | Some (Some ptr), false => ∃ q' rs rs',
      packet_same q' q ∧ sp_heap sp !! ptr = Some (Some rs) ∧ received q' rs rs' ∧
      sp_heap sp' = <[ptr := Some rs']> (sp_heap sp) ∧ sp_extra sp' = sp_extra sp ∧
      reader_goes_on sp sp' rest
  | _, _ => sp_reader sp' = ReaderWaitRequests ∧ sp_state sp' = STATE_STOP_INITIATED ∧
      sp_extra sp' = sp_extra sp
  end.

Lemma dispatch_creates sessions pending wq we rp re kp act stream0 stream cnt s sv h p0 p q rest wr :
  let before := StreamProcessor wq we rp re kp act stream0 cnt s sv h (ReaderRead p0) wr : SP in
  server_ok before →
  sp_inv sessions pending
    (StreamProcessor wq we rp re kp act (Some stream) cnt s sv h (ReaderRead p0) wr) →
  packet_same p q → act !! slot_of (pk_request_id q) = Some None → is_first_type (pk_type q) = true →
  incoming stream = rest →
  wp ((ptr ← acquire_request_stream (pk_request_id q); start_process_request ptr;;
       on_packet_stream ptr (mrpc_packet_stream_push_packet p);; set_reader ReaderAcquire)
        (StreamProcessor wq we rp re kp act (Some stream) cnt s sv h (ReaderRead p0) wr))
    (λ '(_, sp'), dispatched q rest before sp').
Proof.
  intros before Hok Hinv Hsame Hslot Hfirst Hrest.
  pose proof (inv_registry _ _ _ Hinv) as Hreg. sp_simpl_all.
  assert ((slot_of (pk_request_id q) < length act)%nat) as Hlt by by eapply lookup_lt_Some.
  sp_step. eapply wp_mono; [by eapply server_acquire_request_stream_spec|].
  intros [ptr sp'] (rp' & re' & kp' & h' & rs & -> & Hnew & Hptr & Hid & Hown & Hold & Hinv').
  destruct (rs_owned_none rs Hown) as (Hcr & Hcw & Hq).
  unfold start_process_request. repeat sv_step.
  eapply wp_mono; [by apply (push_received _ rs)|]. intros [[] sp'] (rs' & Hrec & ->).
  unfold with_streams. sp_simpl. sp_step. destruct Hrec as (Hq' & Hcr' & Hcw' & _ & Hid').
  assert ((ptr < length h')%nat) as Hlen by by eapply lookup_lt_Some.
  unfold dispatched, before in *. sp_simpl_all. rewrite Hslot, Hfirst. exists p, ptr, rs'.
  split; [done|]. split; [by split; sp_simpl; apply list_lookup_insert_eq|].
  split; [congruence|]. split; [by rewrite Hq', Hq|]. split; [congruence|]. split; [congruence|].
  split.
  { apply eq_None_not_Some. intros Hws. destruct (worker_active _ _ Hok Hws) as [i Hi]. by apply (Hnew i). }
  split; [done|]. split; [|split; [done|split; [done|cbn; by rewrite Hrest]]].
  intros i pt r [Hi Hr]. sp_simpl_all. assert (i ≠ slot_of (pk_request_id q)) as Hne by congruence.
  split; sp_simpl; [by rewrite list_lookup_insert_ne|].
  assert (pt ≠ ptr) as Hpt by (intros ->; by apply (Hnew i)).
  rewrite list_lookup_insert_ne by done. by rewrite (Hold i).
Qed.

Lemma dispatch_spec `{!ReliableStream S} sessions pending sp p stream q rest :
  server_inv sessions pending sp → sp_reader sp = ReaderRead p → sp_stream sp = Some stream →
  packet_inv q → pk_curr_pos q = 0 → incoming stream = packet_bytes q ++ rest →
  wp (server_step ReaderStep sp) (λ '(_, sp'), dispatched q rest sp sp').
Proof.
  destruct sp as [wq we rp re kp act st cnt s sv h rd wr]. intros (Hinv & Hok) Hrd Hst Hq Hpos Hin.
  pose proof (inv_reader _ _ _ Hinv) as Hr. pose proof (inv_registry _ _ _ Hinv) as Hreg.
  pose proof (inv_packets _ _ _ Hinv) as Hkp. sp_simpl_all.
  subst rd st. destruct Hr as (Hp & Hs & (stream0 & [= <-] & Hsi & Hsw) & _).
  cbn [server_step]. unfold stream_reader_func. sp_steps.
  eapply wp_mono; [by apply packet_read_bytes|].
  intros [[r p'] stream'] (-> & Hp' & Hsame & [(Hsi' & (Hsw' & _) & Hout) _] & Hrest). sp_simpl.
  destruct (Hsame) as (Hid & Hty & _). unfold mrpc_packet_get_request_id, mrpc_packet_get_type.
  rewrite Hid, Hty. assert (stream_ok (Some stream')) as Hst' by (exists stream'; auto). sp_steps.
  assert (outgoing <$> Some stream' = outgoing <$> Some stream) as Hout' by (cbn; by rewrite Hout).
  assert (zlength (pk_buf p') = MAX_PACKET_SIZE) as Hb by apply Hp'.
  destruct (registry_slot _ _ _ _ _ (pk_request_id q) Hreg) as [slot Hslot].
  eapply slot_get; [exact Hslot|].
  destruct (is_first_type (pk_type q)) eqn:Hfirst, slot as [ptr|];
    try (eapply wp_mono;
      [by apply (reader_leaves_spec mrpc_server_stream_processor_stop_async sessions pending)|];
      intros [[] sp'] (? & ? & ? & ? & ? & ? & -> & _); unfold dispatched; sp_simpl; by rewrite Hslot, Hfirst).
  - eapply dispatch_creates; try done.
    eapply reader_moves; [exact Hinv|done..|by left| |done]. intros q' [= <-]. exact Hp.
  - destruct (reg_active _ _ _ _ _ Hreg _ _ Hslot) as (rs & Hrs & _).
    sp_step. eapply wp_mono; [by apply (push_received _ rs)|].
    intros [[] sp'] (rs' & Hrec & ->). unfold with_streams. sp_simpl. sp_step.
    unfold dispatched. sp_simpl. rewrite Hslot, Hfirst. exists p', rs, rs'. split_and!; try done.
    unfold reader_goes_on. sp_simpl. cbn. by rewrite Hrest.
Qed.

(** ** Properties *)

(** The states of a processor since its creation. *)
Definition server_reachable sp : Prop :=
  ∃ owner id ops, run (ops : list OP) (mrpc_server_stream_processor_create owner id) sp.

Lemma server_reachable_inv sp : server_reachable sp → ∃ sessions pending, server_inv sessions pending sp.
Proof.
  intros (owner & id & ops & Hrun). exact (run_inv _ _ _ Hrun _ _ (create_server_spec owner id)).
Qed.


(** The books of a server stream processor balance in every reachable state:
    the packets out of its pool are those its request streams, its writer queue
    and its two fibers hold, the active request streams are in the slots of their
    request ids, each has exactly one fiber, every handler was called with the
    handler and the context of the connection, and a processor which is not
    running has no handler, no request stream and all its packets. *)
Lemma server_processor_books sp : server_reachable sp →
  pool_busy (sp_packets_pool sp) = held_packets sp ∧
  sp_active_request_streams_cnt sp = total (slot_count <$> sp_active_request_streams sp) ∧
  0 <= sp_active_request_streams_cnt sp <= MAX_REQUEST_STREAMS_CNT ∧
  (∀ i ptr, sp_active_request_streams sp !! i = Some (Some ptr) →
     ∃ rs, active_at sp i ptr rs ∧ slot_of (rs_request_id rs) = i) ∧
  (∀ ptr, is_Some (sv_workers (sp_extra sp) !! ptr) ↔
     ∃ i, sp_active_request_streams sp !! i = Some (Some ptr)) ∧
  (∀ ptr handler ctx, sv_workers (sp_extra sp) !! ptr = Some (Some (handler, ctx)) →
     sv_stream_handler (sp_extra sp) = Some handler ∧ sv_service_ctx (sp_extra sp) = ctx) ∧
  (sp_reader sp = ReaderIdle →
     sp_state sp = STATE_STOPPED ∧ sv_stream_handler (sp_extra sp) = None ∧
     sp_active_request_streams_cnt sp = 0 ∧ pool_busy (sp_packets_pool sp) = 0).
Proof.
  intros Hreach. destruct (server_reachable_inv sp Hreach) as (sessions & pending & Hinv & Hok).
  destruct (books_spec _ _ _ Hinv) as (? & ? & ? & ?). do 4 (split; [done|]).
  split; [apply Hok|]. split; [apply Hok|]. intros Hidle.
  destruct (idle_packets _ _ _ Hinv Hidle) as [? ?]. by destruct (ok_idle _ Hok Hidle) as (? & ? & _).
Qed.

(** C6.  Responses are multiplexed transparently: from the moment a request stream
    is created and until its handler returns, in any interleaving with the other
    handlers and with the fibers, the packets which the processor queues with its
    request id are, once it is flushed, a message whose body is what the handler
    wrote; all packets go out in the order they were queued in, and as long as
    the writer has not failed, the bytes sent are theirs. *)
Theorem server_multiplexing sp (ops : list OP) sp' i ptr rs :
  server_reachable sp → run ops sp sp' → active_at sp i ptr rs →
  rs_current_write_packet rs = None →
  Forall (λ op, ¬ releases op ptr ∧ is_connect op = false) ops →
  ∃ new gone rs', active_at sp' i ptr rs' ∧ slot_of (rs_request_id rs') = i ∧
    sp_unsent sp ++ new = gone ++ sp_unsent sp' ∧
    (writer_alive (sp_writer sp') → stream_out sp' = stream_out sp ++ mjoin (packet_bytes <$> gone)) ∧
    (rs_phase rs' = Flushed →
       message (rs_request_id rs') (packets_for i new) (mjoin (written_by ptr <$> ops))).
Proof.
  intros Hreach. destruct (server_reachable_inv sp Hreach) as (sessions & pending & Hinv).
  by apply (run_multiplexing sessions pending).
Qed.

(** C2.  Requests are dispatched by request id and packet type: a START or SINGLE
    packet with a free id creates a request stream with that id which holds just
    this packet, and one fiber for it, and leaves all other request streams alone;
    a MIDDLE or END packet is pushed, unchanged, to the active request stream with
    its id; the two other combinations make the processor stop. *)
Theorem server_dispatch `{!ReliableStream S} sp p stream q rest :
  server_reachable sp → sp_reader sp = ReaderRead p → sp_stream sp = Some stream →
  packet_inv q → pk_curr_pos q = 0 → incoming stream = packet_bytes q ++ rest →
  wp (server_step ReaderStep sp) (λ '(_, sp'), dispatched q rest sp sp').
Proof.
  intros Hreach. destruct (server_reachable_inv sp Hreach) as (sessions & pending & Hinv).
  by eapply dispatch_spec.
Qed.

(** C28.  Stopping terminates: once the reader has left its loop and the handlers
    have returned, the two fibers make at most [work_left] steps, three per queued
    packet and a constant, and the only state in which neither can go on is the
    stopped one, in which the processor has let go of the handler, the service
    context and the connection. *)
Theorem server_stops sp (ops : list OP) sp' :
  server_reachable sp → is_closing sp → sp_active_request_streams_cnt sp = 0 →
  run ops sp sp' → Forall is_fiber_step ops →
  (length ops <= work_left sp)%nat ∧
  ((∀ op : OP, is_fiber_step op → ¬ server_enabled op sp') → is_stopped sp' ∧
     sv_stream_handler (sp_extra sp') = None ∧ sv_service_ctx (sp_extra sp') = None ∧
     sp_stream sp' = None).
Proof.
  intros Hreach Hcl Hcnt Hrun Hops. destruct (server_reachable_inv sp Hreach) as (sessions & pending & Hinv).
  destruct (run_closing _ _ _ Hrun _ _ Hinv (or_introl Hcl) Hops) as [Hlen Hend].
  split; [done|]. intros Hstuck. destruct (Hend Hcnt Hstuck) as [Hidle Hstate]. split; [done|].
  destruct (run_inv _ _ _ Hrun _ _ Hinv) as (sessions' & pending' & Hinv' & Hok).
  destruct (ok_idle _ Hok Hidle) as (_ & ? & ?). split; [done|]. split; [done|].
  pose proof (inv_reader _ _ _ Hinv') as Hr. rewrite Hidle in Hr. by destruct Hr as (_ & ? & _).
Qed.

(** The last step of the reader fiber hands the processor back: it clears the
    handler, the service context, the connection and the state first, and calls
    [release_func] of the owner last, so that the owner finds a processor with
    nothing queued, nothing active and nothing out of its pool, which it can start
    again or delete. *)
Lemma server_hands_back sp :
  server_reachable sp → sp_reader sp = ReaderWaitWriter → server_enabled (ReaderStep : OP) sp →
  wp (server_step (ReaderStep : OP) sp) (λ '(_, sp'),
    is_stopped sp' ∧ sp_stream sp' = None ∧ sp_writer sp' = WriterIdle ∧
    sv_stream_handler (sp_extra sp') = None ∧ sv_service_ctx (sp_extra sp') = None ∧
    queue_contents (sp_writer_queue sp') = [] ∧ sp_active_request_streams_cnt sp' = 0 ∧
    pool_busy (sp_packets_pool sp') = 0 ∧
    owner_idle (sv_owner (sp_extra sp')) (mrpc_server_stream_processor_get_id sp') ∧
    wp (mrpc_server_stream_processor_delete sp') (λ _, True)).
Proof.
  destruct sp as [wq we rp re kp act st cnt s sv h rd wr]. intros Hreach Hrd Hen.
  destruct (server_reachable_inv _ Hreach) as (sessions & pending & Hinv). cbn in Hen, Hrd. subst rd.
  unfold reader_enabled in Hen. sp_simpl_all. cbn [server_step].
  eapply wp_mono; [by apply (reader_ends_step sessions pending)|].
  intros [[] sp'] ((sessions' & pending' & _ & _ & Hsinv' & _) & Hst & Hcnt & Hq & Hwr & Hs & Hh & Hc & Hfree).
  cbn [snd] in *. destruct (Hsinv') as (Hinv' & _).
  assert (sp_reader sp' = ReaderIdle) as Hidle by apply Hst.
  pose proof (inv_reader _ _ _ Hinv') as Hr. rewrite Hidle in Hr. destruct Hr as (_ & _ & Hz & Hwi & _).
  pose proof (inv_queue _ _ _ Hinv') as Hqueue. rewrite Hidle, (inv_idle _ _ _ Hinv' Hwi) in Hqueue.
  destruct (idle_packets _ _ _ Hinv' Hidle) as [_ Hbusy].
  do 5 (split; [done|]). split; [exact Hqueue|]. do 3 (split; [done|]).
  eapply wp_mono; [exact (server_delete_spec _ _ _ Hsinv' Hidle Hfree)|done].
Qed.

(** [mrpc_server_stream_processor_stop_async] on a processor which works
    disconnects the connection and marks it, on one which is being stopped it
    does nothing, and on one which is stopped its assertion fails. *)
Lemma server_stop_async_cases sp : server_reachable sp →
  match sp_state sp with
  | STATE_WORKING => wp (mrpc_server_stream_processor_stop_async sp) (λ '(_, sp'),
      sp_state sp' = STATE_STOP_INITIATED ∧ sp_reader sp' = sp_reader sp ∧ stream_out sp' = stream_out sp)
  | STATE_STOP_INITIATED => mrpc_server_stream_processor_stop_async sp = Ret (tt, sp)
  | STATE_STOPPED => mrpc_server_stream_processor_stop_async sp = Fault AssertionFailed
  end.
Proof.
  intros Hreach. destruct (server_reachable_inv sp Hreach) as (sessions & pending & Hinv & _).
  pose proof (inv_reader _ _ _ Hinv) as Hr.
  destruct sp as [wq we rp re kp act st cnt s sv h rd wr]. sp_simpl_all. destruct s; [|done..].
  destruct (not_idle_running _ _ _ _ _ _ _ Hr eq_refl) as [_ Hst].
  eapply wp_mono; [by apply stop_async_spec|]. intros [[] sp'] (st' & -> & Hst' & Hout).
  do 2 (split; [done|]). by apply same_stream_out.
Qed.
End server_specs.

(** ** The properties on a concrete processor *)

(** An owner of one processor, which it uses or not. *)
#[export] Instance flag_owner : ProcessorOwner bool := {
  release_func _ used := if used then Ret (tt, false) else Fault AssertionFailed;
  release_id_func _ used := if used then Fault AssertionFailed else Ret (tt, false);
  owner_uses used _ := used = true;
  owner_idle used _ := used = false
}.

#[export] Instance flag_owner_spec : ProcessorOwnerSpec bool.
Proof. split; [by intros id []|by intros id []]. Qed.

(** Handlers and service contexts are numbers. *)
#[local] Abbreviation demo_server :=
  (stream_processor (list mrpc_packet) (list (option mrpc_packet)) (list mrpc_packet * Z)
     (list nat * Z) bool mem_stream (server_part nat nat bool)).
#[local] Abbreviation demo_op := (server_op nat nat bool mem_stream).

Definition server_demo_step (sp : demo_server) (op : demo_op) : demo_server :=
  match server_step op sp with Ret (_, sp') => sp' | Fault _ => sp end.

(** A request with the id 0, in one packet. *)
Definition server_demo_request : mrpc_packet :=
  MrpcPacket (x61 :: replicate 4094 x00) 0 1 MRPC_PACKET_SINGLE x00.

Definition server_demo_created : demo_server := mrpc_server_stream_processor_create true 7.

(** The reader has a packet for the request. *)
Definition server_demo_begin : list demo_op :=
  [StartProcessor 5%nat (Some 6%nat) (MemStream (packet_bytes server_demo_request) []); ReaderStep; ReaderStep].
Definition server_demo_reading : demo_server :=
  foldl server_demo_step server_demo_created server_demo_begin.

Ltac run_demo := eapply run_cons; [|vm_compute; reflexivity|].

Lemma server_demo_reading_run : run server_demo_begin server_demo_created server_demo_reading.
Proof.
  run_demo; [by split|]. run_demo; [exact I|]. run_demo; [exact I|].
  match goal with |- run [] ?sp _ => assert (server_demo_reading = sp) as -> by (vm_compute; reflexivity) end.
  constructor.
Qed.

Lemma server_demo_reading_reachable : server_reachable server_demo_reading.
Proof. exists true, 7, server_demo_begin. exact server_demo_reading_run. Qed.


Lemma server_processor_books_witness :
  pool_busy (sp_packets_pool server_demo_reading) = held_packets server_demo_reading ∧
  sp_active_request_streams_cnt server_demo_reading =
    total (slot_count <$> sp_active_request_streams server_demo_reading) ∧
  0 <= sp_active_request_streams_cnt server_demo_reading <= MAX_REQUEST_STREAMS_CNT ∧
  (∀ i ptr, sp_active_request_streams server_demo_reading !! i = Some (Some ptr) →
     ∃ rs, active_at server_demo_reading i ptr rs ∧ slot_of (rs_request_id rs) = i) ∧
  (∀ ptr, is_Some (sv_workers (sp_extra server_demo_reading) !! ptr) ↔
     ∃ i, sp_active_request_streams server_demo_reading !! i = Some (Some ptr)) ∧
  (∀ ptr handler ctx, sv_workers (sp_extra server_demo_reading) !! ptr = Some (Some (handler, ctx)) →
     sv_stream_handler (sp_extra server_demo_reading) = Some handler ∧
     sv_service_ctx (sp_extra server_demo_reading) = ctx) ∧
  (sp_reader server_demo_reading = ReaderIdle →
     sp_state server_demo_reading = STATE_STOPPED ∧
     sv_stream_handler (sp_extra server_demo_reading) = None ∧
     sp_active_request_streams_cnt server_demo_reading = 0 ∧
     pool_busy (sp_packets_pool server_demo_reading) = 0).
Proof. apply (server_processor_books server_demo_reading). exact server_demo_reading_reachable. Defined.

Lemma server_demo_request_inv : packet_inv server_demo_request.
Proof. split; vm_compute; intuition congruence. Qed.

Lemma server_dispatch_witness :
  wp (server_step ReaderStep server_demo_reading) (λ '(_, sp'),
    dispatched server_demo_request [] server_demo_reading sp').
Proof.
  apply (server_dispatch server_demo_reading mrpc_packet_create
           (MemStream (packet_bytes server_demo_request) []));
    [exact server_demo_reading_reachable|vm_compute; reflexivity|vm_compute; reflexivity|
     exact server_demo_request_inv|reflexivity|symmetry; apply app_nil_r].
Defined.

(** The request stream of the request, then the handler answers it. *)
Definition server_demo_dispatched : demo_server := server_demo_step server_demo_reading ReaderStep.

Lemma server_demo_dispatched_reachable : server_reachable server_demo_dispatched.
Proof.
  exists true, 7, (server_demo_begin ++ [ReaderStep]).
  run_demo; [by split|]. do 3 (run_demo; [exact I|]).
  match goal with |- run [] ?sp _ => assert (server_demo_dispatched = sp) as -> by (vm_compute; reflexivity) end.
  constructor.
Qed.

Definition server_demo_stream : request_stream (list mrpc_packet) :=
  RequestStream [server_demo_request] None None x00 x00.
Definition server_demo_ops : list demo_op := [HandlerBegin 0; HandlerOp 0 (OpWrite [x62])].
Definition server_demo_answered : demo_server :=
  foldl server_demo_step server_demo_dispatched server_demo_ops.

Lemma server_demo_active : active_at server_demo_dispatched 0 0 server_demo_stream.
Proof. by split; vm_compute. Qed.

Lemma server_demo_run : run server_demo_ops server_demo_dispatched server_demo_answered.
Proof.
  run_demo; [reflexivity|]. run_demo.
  { split; [by eexists|]. split; [reflexivity|]. exists 0%nat, server_demo_stream.
    split; [by split; vm_compute|]. vm_compute. discriminate. }
  match goal with |- run [] ?sp _ => assert (server_demo_answered = sp) as -> by (vm_compute; reflexivity) end.
  constructor.
Qed.

Lemma server_multiplexing_witness :
  ∃ new gone rs', active_at server_demo_answered 0 0 rs' ∧ slot_of (rs_request_id rs') = 0%nat ∧
    sp_unsent server_demo_dispatched ++ new = gone ++ sp_unsent server_demo_answered ∧
    (writer_alive (sp_writer server_demo_answered) →
       stream_out server_demo_answered =
         stream_out server_demo_dispatched ++ mjoin (packet_bytes <$> gone)) ∧
    (rs_phase rs' = Flushed →
       message (rs_request_id rs') (packets_for 0 new) (mjoin (written_by 0 <$> server_demo_ops))).
Proof.
  apply (server_multiplexing server_demo_dispatched server_demo_ops server_demo_answered 0 0
           server_demo_stream);
    [exact server_demo_dispatched_reachable|exact server_demo_run|exact server_demo_active|reflexivity|].
  repeat (constructor; [split; [by intros [? [=]]|reflexivity]|]). constructor.
Defined.

(** The connection breaks: the reader leaves its loop, and the fibers end. *)
Definition server_demo_breaks : list demo_op :=
  [StartProcessor 5%nat None (MemStream [] []); ReaderStep; ReaderStep; ReaderStep].
Definition server_demo_broken : demo_server :=
  foldl server_demo_step server_demo_created server_demo_breaks.
Definition server_demo_stop : list demo_op := [ReaderStep; WriterStep; WriterStep].
Definition server_demo_ending : demo_server :=
  foldl server_demo_step server_demo_broken server_demo_stop.

Lemma server_demo_broken_run : run server_demo_breaks server_demo_created server_demo_broken.
Proof.
  run_demo; [by split|]. do 3 (run_demo; [exact I|]).
  match goal with |- run [] ?sp _ => assert (server_demo_broken = sp) as -> by (vm_compute; reflexivity) end.
  constructor.
Qed.

Lemma server_demo_stop_run : run server_demo_stop server_demo_broken server_demo_ending.
Proof.
  run_demo; [vm_compute; reflexivity|]. run_demo; [exact I|]. run_demo; [intros [=]|].
  match goal with |- run [] ?sp _ => assert (server_demo_ending = sp) as -> by (vm_compute; reflexivity) end.
  constructor.
Qed.

Lemma server_demo_broken_reachable : server_reachable server_demo_broken.
Proof. exists true, 7, server_demo_breaks. exact server_demo_broken_run. Qed.

Lemma server_demo_ending_reachable : server_reachable server_demo_ending.
Proof.
  exists true, 7, (server_demo_breaks ++ server_demo_stop).
  run_demo; [by split|]. do 3 (run_demo; [exact I|]).
  run_demo; [vm_compute; reflexivity|]. run_demo; [exact I|]. run_demo; [intros [=]|].
  match goal with |- run [] ?sp _ => assert (server_demo_ending = sp) as -> by (vm_compute; reflexivity) end.
  constructor.
Qed.

Lemma server_stops_witness :
  (length server_demo_stop <= work_left server_demo_broken)%nat ∧
  ((∀ op : demo_op, is_fiber_step op → ¬ server_enabled op server_demo_ending) →
     is_stopped server_demo_ending ∧
     sv_stream_handler (sp_extra server_demo_ending) = None ∧
     sv_service_ctx (sp_extra server_demo_ending) = None ∧ sp_stream server_demo_ending = None).
Proof.
  apply (server_stops server_demo_broken server_demo_stop server_demo_ending);
    [exact server_demo_broken_reachable|vm_compute; exact I|vm_compute; reflexivity|
     exact server_demo_stop_run|].
  repeat (constructor; [first [by left|by right]|]). constructor.
Defined.

Lemma server_hands_back_witness :
  wp (server_step (ReaderStep : demo_op) server_demo_ending) (λ '(_, sp'),
    is_stopped sp' ∧ sp_stream sp' = None ∧ sp_writer sp' = WriterIdle ∧
    sv_stream_handler (sp_extra sp') = None ∧ sv_service_ctx (sp_extra sp') = None ∧
    queue_contents (sp_writer_queue sp') = [] ∧ sp_active_request_streams_cnt sp' = 0 ∧
    pool_busy (sp_packets_pool sp') = 0 ∧
    owner_idle (sv_owner (sp_extra sp')) (mrpc_server_stream_processor_get_id sp') ∧
    wp (mrpc_server_stream_processor_delete sp') (λ _, True)).
Proof.
  apply (server_hands_back server_demo_ending);
    [exact server_demo_ending_reachable|vm_compute; reflexivity|vm_compute; reflexivity].
Defined.

Lemma server_stop_async_cases_witness :
  match sp_state server_demo_reading with
  | STATE_WORKING => wp (mrpc_server_stream_processor_stop_async server_demo_reading) (λ '(_, sp'),
      sp_state sp' = STATE_STOP_INITIATED ∧ sp_reader sp' = sp_reader server_demo_reading ∧
      stream_out sp' = stream_out server_demo_reading)
  | STATE_STOP_INITIATED =>
      mrpc_server_stream_processor_stop_async server_demo_reading = Ret (tt, server_demo_reading)
  | STATE_STOPPED =>
      mrpc_server_stream_processor_stop_async server_demo_reading = Fault AssertionFailed
  end.
Proof. apply (server_stop_async_cases server_demo_reading). exact server_demo_reading_reachable. Defined.
