(* ===== verification/OwnedProcessor.v ===== *)
(** * The interface between the server and its stream processors
    (src/mrpc_server.c, src/mrpc_server_stream_processor.c)

    The server sees a stream processor as an object which runs from its start
    until it calls [release_func], the callback of its owner.  [OwnedProcessor]
    is this interface; [ServerProcessor] implements it, for any owner.  The
    processor and its owner are separate objects which a call gets both. *)

From stdpp Require Import gmap.
From S2P Require Import Prelude FF FFSync Packet PacketStream StreamProcessor ProcessorInvariant.
From S2P Require Import ProcessorRun ServerProcessor.

(** Processors of type [P] with steps [Op] of their fibers and handlers, handlers
    of type [HD], service contexts of type [CX], connections of type [S] and an
    owner of type [O]. *)
Class OwnedProcessor (P Op HD CX S O : Type) := {
  processor_create : O → Z → P;
  processor_start : HD → option CX → S → M (P * O) unit;
  processor_stop_async : M (P * O) unit;
  processor_delete : M (P * O) unit;
  processor_get_id : P → Z;
  processor_step : Op → M (P * O) unit;
  processor_enabled : Op → P → Prop;
  processor_inv : P → Prop;
  processor_runs : P → bool;
  processor_stopping : P → bool;
}.

(** A processor which runs goes on running and leaves its owner alone, until the
    step which calls [release_func] with its id. *)
Class OwnedProcessorSpec (P Op HD CX S O : Type) `{OwnedProcessor P Op HD CX S O}
    `{ProcessorOwner O, StreamView S} : Prop := {
  processor_create_spec o id (p := processor_create o id : P) :
    processor_inv p ∧ processor_runs p = false ∧ processor_get_id p = id;
  processor_start_spec (handler : HD) (ctx : option CX) (stream : S) (p : P) (o : O) :
    processor_inv p → processor_runs p = false → stream_inv stream → writable stream →
    wp (processor_start handler ctx stream (p, o)) (λ '(_, (p', o')),
      processor_inv p' ∧ processor_get_id p' = processor_get_id p ∧ processor_runs p' = true ∧ o' = o);
  processor_stop_async_spec (p : P) (o : O) : processor_inv p → processor_runs p = true →
    wp (processor_stop_async (p, o)) (λ '(_, (p', o')),
      (processor_inv p' ∧ processor_get_id p' = processor_get_id p ∧ processor_runs p' = true ∧ o' = o) ∧
      processor_stopping p' = true);
  processor_enabled_runs (op : Op) (p : P) : processor_inv p → processor_enabled op p →
    processor_runs p = true;
  processor_step_spec (op : Op) (p : P) (o : O) : processor_inv p → processor_enabled op p →
    wp (release_func (processor_get_id p) o) (λ '(_, o'),
      wp (release_id_func (processor_get_id p) o') (λ _, True)) →
    wp (processor_step op (p, o)) (λ '(_, (p', o')),
      processor_inv p' ∧ processor_get_id p' = processor_get_id p ∧
      if processor_runs p' then o' = o else release_func (processor_get_id p) o = Ret (tt, o'));
  processor_delete_spec (p : P) (o : O) : processor_inv p → processor_runs p = false →
    wp (release_id_func (processor_get_id p) o) (λ _, True) →
    wp (processor_delete (p, o)) (λ '(_, (_, o')),
      release_id_func (processor_get_id p) o = Ret (tt, o'))
}.

(** ** The server stream processor implements it *)

Section steps.
Context {Q W K R E S HD CX O : Type}.
Context `{FFBlockingQueueSpec Q mrpc_packet} `{FFBlockingQueueSpec W (option mrpc_packet)}.
Context `{FFPoolSpec K mrpc_packet} `{FFPoolSpec R nat} `{FFEventSpec E}.
Context `{FFStreamSpec S} `{!FFConnection S} `{!FFConnectionSpec S}.
Context {PO : ProcessorOwner O}.
#[local] Abbreviation SP := (stream_processor Q W K R E S (server_part HD CX O)).
#[local] Abbreviation OP := (server_op HD CX O S).
Implicit Types (sp : SP).

Definition runs sp : bool := match sp_reader sp with ReaderIdle => false | _ => true end.

Lemma runs_true sp : runs sp = true ↔ sp_reader sp ≠ ReaderIdle.
Proof. unfold runs. by destruct (sp_reader sp). Qed.
Lemma runs_false sp : runs sp = false ↔ sp_reader sp = ReaderIdle.
Proof. unfold runs. by destruct (sp_reader sp). Qed.

(** The steps which are not calls of the owner. *)
Definition is_own_step (op : OP) : bool :=
  match op with StartProcessor _ _ _ | OwnerMoves _ | StopProcessor => false | _ => true end.

Lemma own_step_runs sessions pending op sp : server_inv sessions pending sp →
  server_enabled op sp → is_own_step op = true → sp_reader sp ≠ ReaderIdle ∧
    (sp_reader sp = ReaderWaitWriter → op = ReaderStep ∨ op = WriterStep).
Proof.
  intros (Hinv & Hok) Hen Hop. pose proof (inv_reader _ _ _ Hinv) as Hr.
  assert (∀ ptr, is_Some (sv_workers (sp_extra sp) !! ptr) →
    sp_reader sp ≠ ReaderIdle ∧ sp_reader sp ≠ ReaderWaitWriter) as Hworker.
  { intros ptr Hptr. destruct (worker_active sp ptr Hok Hptr) as [i Hi].
    pose proof (registry_cnt_pos _ _ _ _ _ _ _ (inv_registry _ _ _ Hinv) Hi) as Hcnt.
    destruct (sp_reader sp); try done; cbn in Hr; destruct_and?; lia. }
  destruct op; try done; cbn in Hen.
  - destruct (Hworker ptr); [by eexists|done].
  - destruct Hen as [[call Hen] _]. destruct (Hworker ptr); [by eexists|done].
  - destruct Hen as [call Hen]. destruct (Hworker ptr); [by eexists|done].
  - unfold reader_enabled in Hen. split; [|by left]. by destruct (sp_reader sp).
  - split; [|by right]. intros Hrd. rewrite Hrd in Hr. destruct Hr as (_ & _ & _ & Hwr & _).
    unfold writer_enabled in Hen. by rewrite Hwr in Hen.
Qed.

(** When a step ends the processor, the owner has got it back. *)
Lemma own_step_spec `{!ProcessorOwnerSpec O} sessions pending op sp :
  server_inv sessions pending sp → server_enabled op sp → is_own_step op = true →
  wp (server_step op sp) (λ '(_, sp'), (∃ sessions' pending', server_inv sessions' pending' sp') ∧
    (sp_reader sp' = ReaderIdle → owner_idle (sv_owner (sp_extra sp')) (sv_id (sp_extra sp')))).
Proof.
  intros Hinv Hen Hop. destruct (own_step_runs _ _ _ _ Hinv Hen Hop) as [Hni Hww].
  pose proof (system_step_spec _ _ _ _ Hinv Hen) as Hstep. cbn [system_step server_system] in Hstep.
  assert (sp_reader sp = ReaderWaitWriter → wp (server_step op sp) (λ '(_, sp'),
    sp_reader sp' = ReaderIdle → owner_idle (sv_owner (sp_extra sp')) (sv_id (sp_extra sp')))) as Hlast.
  { intros Hrd. destruct (Hww Hrd) as [-> | ->].
    - destruct sp as [wq we rp re kp act st cnt s sv h rd wr]. cbn in Hrd, Hen. subst rd.
      unfold reader_enabled in Hen. cbn in Hen.
      eapply wp_mono; [by apply (reader_ends_step sessions pending)|].
      intros [[] sp'] (_ & _ & _ & _ & _ & _ & _ & _ & Hidle) _. exact Hidle.
    - eapply wp_mono; [apply (writer_step_spec mrpc_server_stream_processor_stop_async sessions pending)|].
      + by destruct Hinv.
      + exact Hen.
      + intros [[] sp'] (? & ? & _ & (_ & _ & _ & _ & _ & Hrd' & _) & _) Hidle. cbn in Hrd'. congruence. }
  destruct (server_step op sp) as [[[] sp']|f]; [|done]. cbn in *.
  destruct Hstep as (sessions' & pending' & _ & _ & Hinv' & Hend & _). split; [by exists sessions', pending'|].
  intros Hidle. destruct (Hend Hidle) as [Hrd|Hrd]; [done|]. by apply Hlast.
Qed.
End steps.

Section implementation.
Context {Q W K R E S HD CX O : Type}.
Context `{FFBlockingQueueSpec Q mrpc_packet} `{FFBlockingQueueSpec W (option mrpc_packet)}.
Context `{FFPoolSpec K mrpc_packet} `{FFPoolSpec R nat} `{FFEventSpec E}.
Context `{FFStreamSpec S} `{!FFConnection S} `{!FFConnectionSpec S}.
Context {PO : ProcessorOwner O}.
#[local] Abbreviation SP := (stream_processor Q W K R E S (server_part HD CX O)).
#[local] Abbreviation OP := (server_op HD CX O S).
Implicit Types (sp : SP).

(** The processor is given its owner for the call. *)
Definition owned_by (o : O) sp : SP :=
  match set_owner o sp with Ret (_, sp') => sp' | Fault _ => sp end.

Definition with_owner {A} (m : M SP A) : M (SP * O) A := λ '(sp, o),
  match m (owned_by o sp) with
  | Ret (a, sp') => Ret (a, (sp', sv_owner (sp_extra sp')))
  | Fault f => Fault f
  end.

Lemma wp_with_owner {A} (m : M SP A) sp o (R' : A * (SP * O) → Prop) :
  wp (m (owned_by o sp)) (λ '(a, sp'), R' (a, (sp', sv_owner (sp_extra sp')))) →
  wp (with_owner m (sp, o)) R'.
Proof. unfold with_owner. by destruct (m (owned_by o sp)) as [[a sp']|]. Qed.

(** The callbacks of [PO], for an owner which is [o] as long as the processor
    with the number [id] runs: what the processor does to its owner then is to
    call [release_func]. *)
Definition exact_owner (o : O) (id : Z) : ProcessorOwner O := {|
  release_func := release_func;
  release_id_func := release_id_func;
  owner_uses x i := x = o ∧ i = id;
  owner_idle x i := i = id ∧ release_func id o = Ret (tt, x) ∧ wp (release_id_func id x) (λ _, True)
|}.

Lemma exact_owner_spec o id :
  wp (release_func id o) (λ '(_, o'), wp (release_id_func id o') (λ _, True)) →
  @ProcessorOwnerSpec O (exact_owner o id).
Proof.
  intros Hrel. split; cbn.
  - intros i x [-> ->]. by destruct (release_func id o) as [[[] o']|].
  - intros i x (-> & _ & Hid). exact Hid.
Qed.

(** Nobody uses the processor; its id can be released. *)
Definition idle_owner (o : O) (id : Z) : ProcessorOwner O := {|
  release_func := release_func;
  release_id_func := release_id_func;
  owner_uses _ _ := False;
  owner_idle x i := x = o ∧ i = id
|}.

Lemma idle_owner_spec o id : wp (release_id_func id o) (λ _, True) →
  @ProcessorOwnerSpec O (idle_owner o id).
Proof. intros Hrel. split; cbn; [done|]. by intros i x [-> ->]. Qed.

(** The invariant does not depend on the owner. *)
Definition owned_ok sessions pending sp : Prop :=
  ∀ o, server_inv (H6 := exact_owner o (sv_id (sp_extra sp))) sessions pending (owned_by o sp).

Definition owned_inv sp : Prop := ∃ sessions pending, owned_ok sessions pending sp.

Lemma owned_by_runs o sp : runs (owned_by o sp) = runs sp.
Proof. by destruct sp as [wq we rp re kp act st cnt s [] h rd wr]. Qed.

Lemma owned_by_id o sp : sv_id (sp_extra (owned_by o sp)) = sv_id (sp_extra sp).
Proof. by destruct sp as [wq we rp re kp act st cnt s [] h rd wr]. Qed.

(** Whatever the owner was, the processor can be given another one. *)
Lemma server_inv_owned `{I : ProcessorOwner O} sessions pending sp :
  server_inv (H6 := I) sessions pending sp → owned_ok sessions pending sp.
Proof.
  intros (Hinv & [Hw Hc Hi Hr]) o. destruct sp as [wq we rp re kp act st cnt s [sh sc id ow ws] h rd wr].
  split; [by destruct Hinv|]. split; try done. intros Hrd. by destruct (Hr Hrd).
Qed.
#[export] Instance server_owned_processor : OwnedProcessor SP OP HD CX S O := {
  processor_create := mrpc_server_stream_processor_create;
  processor_start handler ctx stream :=
    with_owner (mrpc_server_stream_processor_start handler ctx stream);
  processor_stop_async := with_owner mrpc_server_stream_processor_stop_async;
  processor_delete := with_owner mrpc_server_stream_processor_delete;
  processor_get_id := mrpc_server_stream_processor_get_id;
  processor_step op := with_owner (server_step op);
  processor_enabled op sp := server_enabled op sp ∧ is_own_step op = true;
  processor_inv := owned_inv;
  processor_runs := runs;
  processor_stopping sp := bool_decide (sp_state sp = STATE_STOP_INITIATED)
}.

Lemma own_step_enabled (I : ProcessorOwner O) op sp o : is_own_step op = true →
  server_enabled (H6 := PO) op sp → server_enabled (H6 := I) op (owned_by o sp).
Proof.
  intros Hop Hen. destruct sp as [wq we rp re kp act st cnt s [sh sc id ow ws] h rd wr].
  destruct op; (discriminate || exact Hen).
Qed.

(** Who uses the processor with the number [id] is known from the invariant. *)
Lemma exact_owner_runs o id sessions pending sp :
  server_inv (H6 := exact_owner o id) sessions pending sp → runs sp = true →
  sv_owner (sp_extra sp) = o ∧ sv_id (sp_extra sp) = id.
Proof. intros (_ & [_ _ _ Hr]) Hrun%runs_true. by destruct (Hr Hrun) as [_ [? ?]]. Qed.

Lemma owned_step_spec op sp o sessions pending :
  wp (release_func (sv_id (sp_extra sp)) o) (λ '(_, o'),
    wp (release_id_func (sv_id (sp_extra sp)) o') (λ _, True)) →
  owned_ok sessions pending sp → server_enabled op sp → is_own_step op = true →
  wp (with_owner (server_step op) (sp, o)) (λ '(_, (sp', o')),
    owned_inv sp' ∧ sv_id (sp_extra sp') = sv_id (sp_extra sp) ∧
    if runs sp' then o' = o else release_func (sv_id (sp_extra sp)) o = Ret (tt, o')).
Proof.
  intros Hrel Hok Hen Hop. pose proof (exact_owner_spec o _ Hrel) as Hspec.
  apply wp_with_owner. eapply wp_mono.
  { apply (own_step_spec (PO := exact_owner o (sv_id (sp_extra sp))) sessions pending); [done| |done].
    exact (own_step_enabled (exact_owner o _) op sp o Hop Hen). }
  intros [[] sp'] ((sessions' & pending' & Hinv') & Hidle).
  split; [by exists sessions', pending'; exact (server_inv_owned (I := exact_owner o _) _ _ _ Hinv')|].
  destruct (runs sp') eqn:Hrun.
  - by destruct (exact_owner_runs _ _ _ _ _ Hinv' Hrun) as [-> ->].
  - apply runs_false in Hrun. by destruct (Hidle Hrun) as (? & ? & _).
Qed.

(** A call of the owner which leaves the processor running. *)
Lemma owned_call_spec op sp o sessions pending :
  let I := exact_owner o (sv_id (sp_extra sp)) in
  owned_ok sessions pending sp →
  wp (server_step op (owned_by o sp))
    (step_post (ProcessorSystem0 := server_system (H6 := I)) sessions pending op (owned_by o sp)) →
  wp (server_step op (owned_by o sp)) (λ '(_, sp'), runs sp' = true) →
  wp (with_owner (server_step op) (sp, o)) (λ '(_, (sp', o')),
    owned_inv sp' ∧ sv_id (sp_extra sp') = sv_id (sp_extra sp) ∧ runs sp' = true ∧ o' = o).
Proof.
  intros I Hok Hstep Hrun. apply wp_with_owner.
  destruct (server_step op (owned_by o sp)) as [[[] sp']|f]; [|done]. cbn in *.
  destruct Hstep as (sessions' & pending' & _ & _ & Hinv' & _). cbn [snd] in Hinv'.
  split; [by exists sessions', pending'; exact (server_inv_owned (I := I) _ _ _ Hinv')|].
  by destruct (exact_owner_runs _ _ _ _ _ Hinv' Hrun) as [-> ->].
Qed.

Lemma owned_start_spec handler ctx stream sp o sessions pending :
  owned_ok sessions pending sp → runs sp = false → stream_inv stream → writable stream →
  wp (with_owner (mrpc_server_stream_processor_start handler ctx stream) (sp, o)) (λ '(_, (sp', o')),
    owned_inv sp' ∧ sv_id (sp_extra sp') = sv_id (sp_extra sp) ∧ runs sp' = true ∧ o' = o).
Proof.
  intros Hok Hrun%runs_false Hsi Hsw.
  apply (owned_call_spec (StartProcessor handler ctx stream) sp o sessions pending Hok).
  - apply (start_step (H12 := exact_owner o (sv_id (sp_extra sp)))); [by apply Hok|].
    destruct sp as [wq we rp re kp act st cnt s [] h rd wr]. by split_and!.
  - destruct (Hok o) as (Hinv & Hsok). pose proof (inv_reader _ _ _ Hinv) as Hr.
    destruct sp as [wq we rp re kp act st cnt s [sh sc id ow ws] h rd wr]. cbn in Hrun. subst rd.
    destruct (ok_idle _ Hsok eq_refl) as (Hs & Hsh & Hsc).
    assert (s = STATE_STOPPED ∧ sh = None ∧ sc = None) as (-> & -> & ->) by by split_and!.
    destruct Hr as (_ & Hst & _). assert (st = None) as -> by exact Hst. cbn [server_step]. unfold owned_by, set_owner.
    unfold mrpc_server_stream_processor_start, assert_not_started. cbn. done.
Qed.

(** The call marks the processor and leaves it running. *)
Lemma owned_stop_marks sp o sessions pending : owned_ok sessions pending sp → runs sp = true →
  wp (mrpc_server_stream_processor_stop_async (owned_by o sp)) (λ '(_, sp'),
    runs sp' = true ∧ sp_state sp' = STATE_STOP_INITIATED).
Proof.
  intros Hok Hrun. assert (sp_reader (owned_by o sp) ≠ ReaderIdle) as Hrd
    by (by apply runs_true; rewrite owned_by_runs).
  destruct (Hok o) as (Hinv & _). pose proof (inv_reader _ _ _ Hinv) as Hr.
  destruct (owned_by o sp) as [wq we rp re kp act st cnt s sv h rd wr]. sp_simpl_all.
  assert (s ≠ STATE_STOPPED ∧ stream_ok st) as [Hs Hst].
  { destruct rd; try done; cbn in Hr; unfold connected in Hr; destruct_and?; by subst. }
  eapply wp_mono; [by apply stop_async_spec|].
  intros [[] sp'] (st' & -> & _). split; [by apply runs_true|done].
Qed.

Lemma owned_stop_spec sp o sessions pending : owned_ok sessions pending sp → runs sp = true →
  wp (with_owner mrpc_server_stream_processor_stop_async (sp, o)) (λ '(_, (sp', o')),
    (owned_inv sp' ∧ sv_id (sp_extra sp') = sv_id (sp_extra sp) ∧ runs sp' = true ∧ o' = o) ∧
    bool_decide (sp_state sp' = STATE_STOP_INITIATED) = true).
Proof.
  intros Hok Hrun. pose proof (owned_stop_marks sp o _ _ Hok Hrun) as Hmark.
  assert (wp (with_owner mrpc_server_stream_processor_stop_async (sp, o)) (λ '(_, (sp', o')),
    owned_inv sp' ∧ sv_id (sp_extra sp') = sv_id (sp_extra sp) ∧ runs sp' = true ∧ o' = o)) as Hcall.
  { apply (owned_call_spec StopProcessor sp o sessions pending Hok).
    - apply (server_stop_step (H12 := exact_owner o (sv_id (sp_extra sp)))); [by apply Hok|].
      cbn. by apply runs_true; rewrite owned_by_runs.
    - eapply wp_mono; [exact Hmark|by intros [[] sp'] [? _]]. }
  unfold with_owner in *.
  destruct (mrpc_server_stream_processor_stop_async (owned_by o sp)) as [[[] sp']|]; [|done].
  split; [exact Hcall|]. apply bool_decide_eq_true_2. apply Hmark.
Qed.

Lemma owned_delete_spec sp o sessions pending : owned_ok sessions pending sp → runs sp = false →
  wp (release_id_func (sv_id (sp_extra sp)) o) (λ _, True) →
  wp (with_owner mrpc_server_stream_processor_delete (sp, o)) (λ '(_, (_, o')),
    release_id_func (sv_id (sp_extra sp)) o = Ret (tt, o')).
Proof.
  intros Hok Hrun%runs_false Hrel. apply wp_with_owner.
  pose proof (idle_owner_spec o (sv_id (sp_extra sp)) Hrel) as Hspec.
  destruct (Hok o) as (Hinv & [Hw Hc Hi Hr]).
  destruct sp as [wq we rp re kp act st cnt s [sh sc id ow ws] h rd wr]. cbn in Hrun. subst rd.
  pose proof (server_delete_spec (H12 := idle_owner o id) sessions pending
    (owned_by o (StreamProcessor wq we rp re kp act st cnt s (ServerPart sh sc id ow ws) h ReaderIdle wr)))
    as Hdel.
  eapply wp_mono; [apply Hdel; [split; [exact Hinv|by split]|done|by split]|].
  intros [[] sp'] Heq. exact Heq.
Qed.

#[export] Instance server_owned_processor_spec : OwnedProcessorSpec SP OP HD CX S O.
Proof.
  split.
  - intros o id p. split; [|done]. exists (λ _, ([], [])), [].
    exact (server_inv_owned (I := exact_owner o id) _ _ _ (create_server_spec o id)).
  - intros handler ctx stream p o (sessions & pending & Hok). by eapply owned_start_spec.
  - intros p o (sessions & pending & Hok). by eapply owned_stop_spec.
  - intros op p (sessions & pending & Hok) [Hen Hop]. pose (I := exact_owner (sv_owner (sp_extra p)) (sv_id (sp_extra p))).
    apply (own_step_enabled I op p (sv_owner (sp_extra p))) in Hen; [|done].
    destruct (own_step_runs (PO := I) _ _ _ _ (Hok _) Hen Hop) as [Hrd _].
    apply runs_true in Hrd. by rewrite owned_by_runs in Hrd.
  - intros op p o (sessions & pending & Hok) [Hen Hop] Hrel. by eapply owned_step_spec.
  - intros p o (sessions & pending & Hok). by eapply owned_delete_spec.
Qed.
End implementation.
