(* ===== verification/MrpcServer.v ===== *)
(** * The server (src/mrpc_server.c)

    The server accepts connections and runs a stream processor for each of them.
    The processors come from a pool; each has an id out of a bitmap, which is its
    index in [active_stream_processors] while it runs.  A processor is
    identified by its id: a pointer to the processor with the id [i] is [i].

    The server is a client of the interface [OwnedProcessor], and the owner its
    processors call back. *)

From stdpp Require Import gmap.
From S2P Require Import Prelude FF FFSync Bitmap Packet StreamProcessor ServerProcessor OwnedProcessor.

(** [struct ff_stream_acceptor]: [ff_stream_acceptor_accept] returns the next
    connection, and NULL once [ff_stream_acceptor_shutdown] has been called. *)
Class FFStreamAcceptor (A S : Type) := {
  ff_stream_acceptor_initialize : M A unit;
  ff_stream_acceptor_shutdown : M A unit;
  ff_stream_acceptor_accept : M A (option S);
  acceptor_open : A → bool;
}.

Class FFStreamAcceptorSpec (A S : Type) `{FFStreamAcceptor A S, StreamView S} : Prop := {
  ff_stream_acceptor_initialize_spec a :
    wp (ff_stream_acceptor_initialize a) (λ '(_, a'), acceptor_open a' = true);
  ff_stream_acceptor_shutdown_spec a :
    wp (ff_stream_acceptor_shutdown a) (λ '(_, a'), acceptor_open a' = false);
  ff_stream_acceptor_accept_spec a : wp (ff_stream_acceptor_accept a) (λ '(stream, a'),
    acceptor_open a' = acceptor_open a ∧
    match stream with
    | Some stream => acceptor_open a = true ∧ stream_inv stream ∧ writable stream
    | None => True
    end)
}.

(** [struct mrpc_server] *)
Record mrpc_server (E B K HD CX A : Type) := MrpcServer {
  ms_stop_event : E;
  ms_stream_processors_stop_event : E;
  ms_stream_processors_bitmap : B;
  ms_stream_processors_pool : K;
  ms_active_stream_processors : list (option Z);
  ms_stream_handler : option HD;
  ms_service_ctx : option CX;
  ms_stream_acceptor : option A;
  ms_max_stream_processors_cnt : Z;
  ms_active_stream_processors_cnt : Z;
}.
Arguments MrpcServer {E B K HD CX A}.
Arguments ms_stop_event {E B K HD CX A}.
Arguments ms_stream_processors_stop_event {E B K HD CX A}.
Arguments ms_stream_processors_bitmap {E B K HD CX A}.
Arguments ms_stream_processors_pool {E B K HD CX A}.
Arguments ms_active_stream_processors {E B K HD CX A}.
Arguments ms_stream_handler {E B K HD CX A}.
Arguments ms_service_ctx {E B K HD CX A}.
Arguments ms_stream_acceptor {E B K HD CX A}.
Arguments ms_max_stream_processors_cnt {E B K HD CX A}.
Arguments ms_active_stream_processors_cnt {E B K HD CX A}.

(** Where the fiber of [main_server_func] waits. *)
Inductive main_point (S : Type) :=
  | MainIdle
  | MainStart
  | MainAccept
  | MainAcquire (client_stream : S)
  | MainWaitProcessors.
Arguments MainIdle {S}.
Arguments MainStart {S}.
Arguments MainAccept {S}.
Arguments MainAcquire {S}.
Arguments MainWaitProcessors {S}.

(** The server with its processors, its fiber, and whether [mrpc_server_stop]
    waits. *)
Record server_system (E B K HD CX A P S : Type) := ServerSystem {
  ss_server : mrpc_server E B K HD CX A;
  ss_processors : gmap Z P;
  ss_main : main_point S;
  ss_stopping : bool;
}.
Arguments ServerSystem {E B K HD CX A P S}.
Arguments ss_server {E B K HD CX A P S}.
Arguments ss_processors {E B K HD CX A P S}.
Arguments ss_main {E B K HD CX A P S}.
Arguments ss_stopping {E B K HD CX A P S}.

(** ** The callbacks of the processors *)

Section callbacks.
Context {E B K HD CX A : Type}.
Context `{FFEvent E} `{IdAllocator B} `{FFPool K Z}.
#[local] Abbreviation SRV := (mrpc_server E B K HD CX A).

Definition ms_field {T} (f : SRV → T) : M SRV T := λ srv, Ret (f srv, srv).

Definition ms_on_stop_event (m : M E unit) : M SRV unit :=
  λ '(MrpcServer se pe b k act h c a max cnt),
    match m se with
    | Ret (_, se) => Ret (tt, MrpcServer se pe b k act h c a max cnt) | Fault f => Fault f
    end.
Definition ms_on_processors_event (m : M E unit) : M SRV unit :=
  λ '(MrpcServer se pe b k act h c a max cnt),
    match m pe with
    | Ret (_, pe) => Ret (tt, MrpcServer se pe b k act h c a max cnt) | Fault f => Fault f
    end.
Definition ms_set_bitmap (b : B) : M SRV unit :=
  λ '(MrpcServer se pe _ k act h c a max cnt), Ret (tt, MrpcServer se pe b k act h c a max cnt).
Definition ms_on_pool (m : M K unit) : M SRV unit :=
  λ '(MrpcServer se pe b k act h c a max cnt),
    match m k with
    | Ret (_, k) => Ret (tt, MrpcServer se pe b k act h c a max cnt) | Fault f => Fault f
    end.
Definition ms_set_active (act : list (option Z)) : M SRV unit :=
  λ '(MrpcServer se pe b k _ h c a max cnt), Ret (tt, MrpcServer se pe b k act h c a max cnt).
Definition ms_set_cnt (cnt : Z) : M SRV unit :=
  λ '(MrpcServer se pe b k act h c a max _), Ret (tt, MrpcServer se pe b k act h c a max cnt).
Definition ms_set_service (h : option HD) (c : option CX) (a : option A) : M SRV unit :=
  λ '(MrpcServer se pe b k act _ _ _ max cnt), Ret (tt, MrpcServer se pe b k act h c a max cnt).
(** The code asserts that there is an acceptor. *)
Definition ms_on_acceptor {T} (m : M A T) : M SRV T :=
  λ '(MrpcServer se pe b k act h c a max cnt),
    match a with
    | None => Fault AssertionFailed
    | Some a =>
        match m a with
        | Ret (t, a) => Ret (t, MrpcServer se pe b k act h c (Some a) max cnt)
        | Fault f => Fault f
        end
    end.

(** [ff_assert(server->active_stream_processors_cnt >= ...)] and the like. *)
Definition assert_cnt (p : Z → Z → bool) : M SRV unit :=
  cnt ← ms_field ms_active_stream_processors_cnt;
  max ← ms_field ms_max_stream_processors_cnt;
  lift (ff_assert (p cnt max)).

Definition release_stream_processor (stream_processor_id : Z) : M SRV unit :=
  assert_cnt (λ cnt _, bool_decide (cnt > 0));;
  assert_cnt (λ cnt max, bool_decide (cnt <= max));;
  active_stream_processors ← ms_field ms_active_stream_processors;
  slot ← lift (arr_get active_stream_processors stream_processor_id);
  lift (ff_assert (bool_decide (slot = Some stream_processor_id)));;
  active_stream_processors ← lift (arr_set active_stream_processors stream_processor_id None);
  ms_set_active active_stream_processors;;
  ms_on_pool (ff_pool_release_entry stream_processor_id);;
  cnt ← ms_field ms_active_stream_processors_cnt;
  ms_set_cnt (cnt - 1);;
  (if bool_decide (cnt - 1 = 0) then ms_on_processors_event ff_event_set else mret tt).

Definition acquire_stream_processor_id : M SRV Z :=
  bitmap ← ms_field ms_stream_processors_bitmap;
  r ← lift (alloc_acquire bitmap);
  ms_set_bitmap (r.2);;
  max ← ms_field ms_max_stream_processors_cnt;
  lift (ff_assert (bool_decide (r.1 >= 0)));;
  lift (ff_assert (bool_decide (r.1 < max)));;
  mret (r.1).

Definition release_stream_processor_id (stream_processor_id : Z) : M SRV unit :=
  max ← ms_field ms_max_stream_processors_cnt;
  lift (ff_assert (bool_decide (stream_processor_id >= 0)));;
  lift (ff_assert (bool_decide (stream_processor_id < max)));;
  bitmap ← ms_field ms_stream_processors_bitmap;
  bitmap ← lift (alloc_release bitmap stream_processor_id);
  ms_set_bitmap bitmap.

#[export] Instance mrpc_server_owner : ProcessorOwner SRV := {
  release_func := release_stream_processor;
  release_id_func := release_stream_processor_id;
  owner_uses srv id := ms_active_stream_processors srv !! Z.to_nat id = Some (Some id);
  owner_idle srv id := ms_active_stream_processors srv !! Z.to_nat id = Some None
}.
End callbacks.

(** ** Operations *)

Section operations.
Context {E B K HD CX A P Op S : Type}.
Context `{FFEvent E} `{IdAllocator B} `{FFPool K Z} `{FFStreamAcceptor A S}.
#[local] Abbreviation SRV := (mrpc_server E B K HD CX A).
#[local] Abbreviation SYS := (server_system E B K HD CX A P S).
Context `{!OwnedProcessor P Op HD CX S SRV}.

Definition sys_field {T} (f : SYS → T) : M SYS T := λ sys, Ret (f sys, sys).

Definition on_server {T} (m : M SRV T) : M SYS T :=
  λ '(ServerSystem srv ps mp st),
    match m srv with Ret (t, srv) => Ret (t, ServerSystem srv ps mp st) | Fault f => Fault f end.

Definition set_processors (ps : gmap Z P) : M SYS unit :=
  λ '(ServerSystem srv _ mp st), Ret (tt, ServerSystem srv ps mp st).
Definition set_main (mp : main_point S) : M SYS unit :=
  λ '(ServerSystem srv ps _ st), Ret (tt, ServerSystem srv ps mp st).
Definition set_stopping (st : bool) : M SYS unit :=
  λ '(ServerSystem srv ps mp _), Ret (tt, ServerSystem srv ps mp st).

(** A call on the processor [ptr], which can call the server back. *)
Definition on_processor {T} (ptr : Z) (m : M (P * SRV) T) : M SYS T :=
  λ '(ServerSystem srv ps mp st),
    match ps !! ptr with
    | None => Fault UseAfterFree
    | Some p =>
        match m (p, srv) with
        | Ret (t, (p, srv)) => Ret (t, ServerSystem srv (<[ptr := p]> ps) mp st)
        | Fault f => Fault f
        end
    end.

Definition processor_at (ptr : Z) : M SYS P := λ sys,
  match ss_processors sys !! ptr with Some p => Ret (p, sys) | None => Fault UseAfterFree end.

(** The callbacks of the pool do not touch the pool itself. *)
Definition on_processors_pool {T} (m : M (K * SYS) T) : M SYS T := λ sys,
  match m (ms_stream_processors_pool (ss_server sys), sys) with
  | Ret (t, (k, ServerSystem (MrpcServer se pe b _ act h c a max cnt) ps mp st)) =>
      Ret (t, ServerSystem (MrpcServer se pe b k act h c a max cnt) ps mp st)
  | Fault f => Fault f
  end.

(** [stop_all_stream_processors]: its loop, from [i] on, *)
Fixpoint stop_processors_loop (rounds : nat) (i : Z) : M SYS unit :=
  match rounds with
  | O => mret tt
  | Datatypes.S rounds =>
      active_stream_processors ← on_server (ms_field ms_active_stream_processors);
      slot ← lift (arr_get active_stream_processors i);
      match slot with
      | Some stream_processor => on_processor stream_processor processor_stop_async
      | None => mret tt
      end;;
      stop_processors_loop rounds (i + 1)
  end.

(** and the function up to its wait. *)
Definition stop_all_stream_processors : M SYS unit :=
  max ← on_server (ms_field ms_max_stream_processors_cnt);
  lift (ff_assert (bool_decide (max > 0)));;
  stop_processors_loop (Z.to_nat max) 0;;
  set_main MainWaitProcessors.

Definition create_stream_processor : M SYS Z :=
  stream_processor_id ← on_server acquire_stream_processor_id;
  server ← sys_field ss_server;
  ps ← sys_field ss_processors;
  set_processors (<[stream_processor_id := processor_create server stream_processor_id]> ps);;
  mret stream_processor_id.

Definition delete_stream_processor (stream_processor : Z) : M SYS unit :=
  on_processor stream_processor processor_delete;;
  ps ← sys_field ss_processors;
  set_processors (delete stream_processor ps).

(** [acquire_stream_processor] up to [ff_pool_acquire_entry], which may wait, *)
Definition acquire_stream_processor_begin : M SYS unit :=
  on_server (assert_cnt (λ cnt _, bool_decide (cnt >= 0)));;
  on_server (assert_cnt (λ cnt max, bool_decide (cnt <= max))).

(** and from there on. *)
Definition acquire_stream_processor : M SYS Z :=
  stream_processor ← on_processors_pool (ff_pool_acquire_entry create_stream_processor);
  p ← processor_at stream_processor;
  let stream_processor_id := processor_get_id p in
  active_stream_processors ← on_server (ms_field ms_active_stream_processors);
  slot ← lift (arr_get active_stream_processors stream_processor_id);
  lift (ff_assert (bool_decide (slot = None)));;
  active_stream_processors ← lift (arr_set active_stream_processors stream_processor_id
                                    (Some stream_processor));
  on_server (ms_set_active active_stream_processors);;
  cnt ← on_server (ms_field ms_active_stream_processors_cnt);
  on_server (ms_set_cnt (cnt + 1));;
  on_server (assert_cnt (λ cnt max, bool_decide (cnt <= max)));;
  (if bool_decide (cnt + 1 = 1) then on_server (ms_on_processors_event ff_event_reset) else mret tt);;
  mret stream_processor.

Definition is_some {T} (o : option T) : bool := match o with Some _ => true | None => false end.

(** [main_server_func]: its beginning, up to the first connection, *)
Definition main_server_begin : M SYS unit :=
  on_server (assert_cnt (λ cnt _, bool_decide (cnt = 0)));;
  stream_handler ← on_server (ms_field ms_stream_handler);
  lift (ff_assert (is_some stream_handler));;
  stream_acceptor ← on_server (ms_field ms_stream_acceptor);
  lift (ff_assert (is_some stream_acceptor));;
  on_server (ms_on_processors_event ff_event_set);;
  set_main MainAccept.

(** and the way from one point where it waits to the next one. *)
Definition main_server_func : M SYS unit :=
  point ← sys_field ss_main;
  match point with
  | MainIdle => mret tt
  | MainStart => main_server_begin
  | MainAccept =>
      client_stream ← on_server (ms_on_acceptor ff_stream_acceptor_accept);
      match client_stream with
      | None => stop_all_stream_processors
      | Some client_stream => acquire_stream_processor_begin;; set_main (MainAcquire client_stream)
      end
  | MainAcquire client_stream =>
      stream_processor ← acquire_stream_processor;
      handler ← on_server (ms_field ms_stream_handler);
      service_ctx ← on_server (ms_field ms_service_ctx);
      match handler with
      | None => lift (ff_assert false)
      | Some stream_handler =>
          on_processor stream_processor (processor_start stream_handler service_ctx client_stream)
      end;;
      set_main MainAccept
  | MainWaitProcessors =>
      on_server (ms_on_processors_event ff_event_wait);;
      on_server (assert_cnt (λ cnt _, bool_decide (cnt = 0)));;
      on_server (ms_on_stop_event ff_event_set);;
      set_main MainIdle
  end.

Definition mrpc_server_create (max_stream_processors_cnt : Z) : outcome SYS :=
  ff_assert (bool_decide (max_stream_processors_cnt > 0));;
  bitmap ← alloc_create max_stream_processors_cnt;
  Ret (ServerSystem
    (MrpcServer ff_event_create ff_event_create bitmap (ff_pool_create max_stream_processors_cnt)
       (replicate (Z.to_nat max_stream_processors_cnt) None) None None None
       max_stream_processors_cnt 0) ∅ MainIdle false).

(** The assertions that the server is not started. *)
Definition assert_server_stopped : M SRV unit :=
  handler ← ms_field ms_stream_handler;
  lift (ff_assert (negb (is_some handler)));;
  service_ctx ← ms_field ms_service_ctx;
  lift (ff_assert (negb (is_some service_ctx)));;
  acceptor ← ms_field ms_stream_acceptor;
  lift (ff_assert (negb (is_some acceptor)));;
  assert_cnt (λ cnt _, bool_decide (cnt = 0)).

Definition mrpc_server_delete : M SYS unit :=
  on_server assert_server_stopped;;
  on_processors_pool (ff_pool_delete delete_stream_processor).

Definition mrpc_server_start (stream_handler : HD) (service_ctx : option CX)
    (stream_acceptor : A) : M SYS unit :=
  on_server assert_server_stopped;;
  on_server (ms_set_service (Some stream_handler) service_ctx (Some stream_acceptor));;
  on_server (ms_on_acceptor ff_stream_acceptor_initialize);;
  set_main MainStart.

(** [mrpc_server_stop] up to its wait, *)
Definition mrpc_server_stop : M SYS unit :=
  handler ← on_server (ms_field ms_stream_handler);
  lift (ff_assert (is_some handler));;
  on_server (ms_on_acceptor ff_stream_acceptor_shutdown);;
  set_stopping true.

(** and from there on. *)
Definition mrpc_server_stop_end : M SYS unit :=
  on_server (ms_on_stop_event ff_event_wait);;
  on_server (assert_cnt (λ cnt _, bool_decide (cnt = 0)));;
  on_server (ms_set_service None None None);;
  set_stopping false.

(** ** Steps of the user, the fiber of the server and its processors *)

Inductive ms_op :=
  | ServerStart (stream_handler : HD) (service_ctx : option CX) (stream_acceptor : A)
  | ServerStop
  | ServerStopEnd
  | MainStep
  | ProcessorStep (ptr : Z) (op : Op).

Definition ms_step (op : ms_op) : M SYS unit :=
  match op with
  | ServerStart stream_handler service_ctx stream_acceptor =>
      mrpc_server_start stream_handler service_ctx stream_acceptor
  | ServerStop => mrpc_server_stop
  | ServerStopEnd => mrpc_server_stop_end
  | MainStep => main_server_func
  | ProcessorStep ptr op => on_processor ptr (processor_step op)
  end.

(** The user starts the server when it is stopped and stops it once;
    [ff_pool_acquire_entry] waits while all processors run. *)
Definition main_enabled (sys : SYS) : Prop :=
  let srv := ss_server sys in
  match ss_main sys with
  | MainIdle => False
  | MainStart | MainAccept => True
  | MainAcquire _ => pool_busy (ms_stream_processors_pool srv) < ms_max_stream_processors_cnt srv
  | MainWaitProcessors => event_is_set (ms_stream_processors_stop_event srv) = true
  end.

Definition ms_enabled (op : ms_op) (sys : SYS) : Prop :=
  let srv := ss_server sys in
  match op with
  | ServerStart _ _ _ => ms_stream_handler srv = None
  | ServerStop => is_Some (ms_stream_handler srv) ∧ ss_stopping sys = false
  | ServerStopEnd => ss_stopping sys = true ∧ event_is_set (ms_stop_event srv) = true
  | MainStep => main_enabled sys
  | ProcessorStep ptr op => ∃ p, ss_processors sys !! ptr = Some p ∧ processor_enabled op p
  end.

Inductive ms_run : list ms_op → SYS → SYS → Prop :=
  | ms_run_nil sys : ms_run [] sys sys
  | ms_run_cons op ops sys sys1 sys2 :
      ms_enabled op sys → ms_step op sys = Ret (tt, sys1) → ms_run ops sys1 sys2 →
      ms_run (op :: ops) sys sys2.

Definition ms_reachable (max_stream_processors_cnt : Z) (sys : SYS) : Prop :=
  ∃ sys0 ops, mrpc_server_create max_stream_processors_cnt = Ret sys0 ∧ ms_run ops sys0 sys.
End operations.

(** ** Calls on the parts of the system *)

Section calls.
Context {E B K HD CX A P S : Type}.
#[local] Abbreviation SRV := (mrpc_server E B K HD CX A).
#[local] Abbreviation SYS := (server_system E B K HD CX A P S).
Implicit Types (sys : SYS) (srv : SRV) (ps : gmap Z P).

Lemma wp_ms_field {T} (f : SRV → T) srv (R : T * SRV → Prop) :
  wp (ms_field f srv) R ↔ R (f srv, srv).
Proof. done. Qed.

Lemma wp_assert_cnt (p : Z → Z → bool) srv (R : unit * SRV → Prop) :
  p (ms_active_stream_processors_cnt srv) (ms_max_stream_processors_cnt srv) = true →
  R (tt, srv) → wp (assert_cnt p srv) R.
Proof. intros Hp HR. unfold assert_cnt, ms_field, mbind, M_bind, lift. by rewrite Hp. Qed.

Lemma wp_ms_on_pool m se pe b k act h c a max cnt (R : unit * SRV → Prop) :
  wp (m k) (λ r, R (tt, MrpcServer se pe b (r.2) act h c a max cnt)) →
  wp (ms_on_pool m (MrpcServer se pe b k act h c a max cnt)) R.
Proof. unfold ms_on_pool. by destruct (m k) as [[[] k']|]. Qed.

Lemma wp_ms_on_processors_event m se pe b k act h c a max cnt (R : unit * SRV → Prop) :
  wp (m pe) (λ r, R (tt, MrpcServer se (r.2) b k act h c a max cnt)) →
  wp (ms_on_processors_event m (MrpcServer se pe b k act h c a max cnt)) R.
Proof. unfold ms_on_processors_event. by destruct (m pe) as [[[] pe']|]. Qed.

Lemma wp_ms_on_stop_event m se pe b k act h c a max cnt (R : unit * SRV → Prop) :
  wp (m se) (λ r, R (tt, MrpcServer (r.2) pe b k act h c a max cnt)) →
  wp (ms_on_stop_event m (MrpcServer se pe b k act h c a max cnt)) R.
Proof. unfold ms_on_stop_event. by destruct (m se) as [[[] se']|]. Qed.

Lemma wp_ms_on_acceptor {T} (m : M A T) se pe b k act h c a max cnt (R : T * SRV → Prop) :
  wp (m a) (λ r, R (r.1, MrpcServer se pe b k act h c (Some (r.2)) max cnt)) →
  wp (ms_on_acceptor m (MrpcServer se pe b k act h c (Some a) max cnt)) R.
Proof. unfold ms_on_acceptor. by destruct (m a) as [[t a']|]. Qed.

Lemma wp_on_server {T} (m : M SRV T) srv ps mp st (R : T * SYS → Prop) :
  wp (m srv) (λ r, R (r.1, ServerSystem (r.2) ps mp st)) →
  wp (on_server m (ServerSystem srv ps mp st)) R.
Proof. unfold on_server. by destruct (m srv) as [[t srv']|]. Qed.

Lemma wp_on_processor {T} ptr (m : M (P * SRV) T) srv ps mp st p (R : T * SYS → Prop) :
  ps !! ptr = Some p →
  wp (m (p, srv)) (λ '(t, (p', srv')), R (t, ServerSystem srv' (<[ptr := p']> ps) mp st)) →
  wp (on_processor ptr m (ServerSystem srv ps mp st)) R.
Proof. intros Hp. unfold on_processor. rewrite Hp. by destruct (m (p, srv)) as [[t [p' srv']]|]. Qed.

Definition with_pool (k : K) sys : SYS :=
  match sys with
  | ServerSystem (MrpcServer se pe b _ act h c a max cnt) ps mp st =>
      ServerSystem (MrpcServer se pe b k act h c a max cnt) ps mp st
  end.

Lemma wp_on_processors_pool {T} (m : M (K * SYS) T) sys (R : T * SYS → Prop) :
  wp (m (ms_stream_processors_pool (ss_server sys), sys)) (λ '(t, (k, sys')), R (t, with_pool k sys')) →
  wp (on_processors_pool m sys) R.
Proof. unfold on_processors_pool. by destruct (m _) as [[t [k [[] ? ? ?]]]|]. Qed.

Lemma wp_processor_at ptr srv ps mp st p (R : P * SYS → Prop) :
  ps !! ptr = Some p → R (p, ServerSystem srv ps mp st) →
  wp (processor_at ptr (ServerSystem srv ps mp st)) R.
Proof. intros Hp HR. unfold processor_at. cbn. by rewrite Hp. Qed.

Lemma wp_sys_field {T} (f : SYS → T) sys (R : T * SYS → Prop) : wp (sys_field f sys) R ↔ R (f sys, sys).
Proof. done. Qed.
End calls.

Ltac ms_simpl := cbn [fst snd ms_stop_event ms_stream_processors_stop_event
  ms_stream_processors_bitmap ms_stream_processors_pool ms_active_stream_processors
  ms_stream_handler ms_service_ctx ms_stream_acceptor ms_max_stream_processors_cnt
  ms_active_stream_processors_cnt ss_server ss_processors ss_main ss_stopping] in *.

Ltac ms_step :=
  lazymatch goal with
  | |- wp (ms_field _ _) _ => rewrite wp_ms_field
  | |- wp (assert_cnt _ _) _ =>
      apply wp_assert_cnt; [try (apply bool_decide_eq_true_2; ms_simpl; (done || lia))|]
  | |- wp (ms_on_pool _ _) _ => apply wp_ms_on_pool
  | |- wp (ms_on_processors_event _ _) _ => apply wp_ms_on_processors_event
  | |- wp (ms_on_stop_event _ _) _ => apply wp_ms_on_stop_event
  | |- wp (ms_on_acceptor _ _) _ => apply wp_ms_on_acceptor
  | |- wp (ms_set_bitmap _ _) _ => cbn [wp ms_set_bitmap]
  | |- wp (ms_set_active _ _) _ => cbn [wp ms_set_active]
  | |- wp (ms_set_cnt _ _) _ => cbn [wp ms_set_cnt]
  | |- wp (ms_set_service _ _ _ _) _ => cbn [wp ms_set_service]
  | |- _ => wp_step
  end; ms_simpl.
Ltac ms_steps := repeat ms_step.

Ltac sys_step :=
  lazymatch goal with
  | |- wp (on_server _ (ServerSystem _ _ _ _)) _ => apply wp_on_server
  | |- wp (sys_field _ _) _ => rewrite wp_sys_field
  | |- wp (set_processors _ _) _ => cbn [wp set_processors]
  | |- wp (set_main _ _) _ => cbn [wp set_main]
  | |- wp (set_stopping _ _) _ => cbn [wp set_stopping]
  | |- _ => ms_step
  end; ms_simpl.
Ltac sys_steps := repeat sys_step.

(** ** The invariant *)

Section invariant.
Context {E B K HD CX A P Op S : Type}.
Context `{FFEventSpec E} `{IdAllocatorSpec B} `{FFPoolSpec K Z} `{FFStreamAcceptorSpec A S}.
#[local] Abbreviation SRV := (mrpc_server E B K HD CX A).
#[local] Abbreviation SYS := (server_system E B K HD CX A P S).
Context `{!OwnedProcessor P Op HD CX S SRV}.
Implicit Types (sys : SYS) (srv : SRV) (ps : gmap Z P).

Definition used_slots (l : list (option Z)) : Z := zlength (omap id l).

(** [srv] and its processors agree: a processor runs if and only if it is in the
    slot of its id, and otherwise it is free in the pool or it is [held] by a
    caller who has got it from the pool. *)
Record books_but (held : list Z) srv ps : Prop := {
  bk_max : 0 < ms_max_stream_processors_cnt srv;
  bk_length : zlength (ms_active_stream_processors srv) = ms_max_stream_processors_cnt srv;
  bk_cnt : ms_active_stream_processors_cnt srv = used_slots (ms_active_stream_processors srv);
  bk_busy : pool_busy (ms_stream_processors_pool srv) =
    ms_active_stream_processors_cnt srv + zlength held;
  bk_ids : alloc_view (ms_stream_processors_bitmap srv) (ms_max_stream_processors_cnt srv) (dom ps);
  bk_processor id p : ps !! id = Some p → processor_inv p ∧ processor_get_id p = id;
  bk_slot i id : ms_active_stream_processors srv !! i = Some (Some id) → id = Z.of_nat i ∧ id ∈ dom ps;
  bk_runs id p : ps !! id = Some p →
    processor_runs p = true ↔ ms_active_stream_processors srv !! Z.to_nat id = Some (Some id);
  bk_free id : id ∈ held ++ pool_free (ms_stream_processors_pool srv) ↔
    ∃ p, ps !! id = Some p ∧ processor_runs p = false;
  bk_nodup : NoDup (held ++ pool_free (ms_stream_processors_pool srv))
}.

Definition books srv ps : Prop := books_but [] srv ps.

Definition acceptor_closed srv : Prop :=
  match ms_stream_acceptor srv with Some a => acceptor_open a = false | None => True end.

(** What the point at which the server's fiber waits says about the server. *)
Definition main_ok (mp : main_point S) (stopping : bool) srv : Prop :=
  let cnt := ms_active_stream_processors_cnt srv in
  let started := is_Some (ms_stream_handler srv) ∧ is_Some (ms_stream_acceptor srv) in
  let event := event_is_set (ms_stream_processors_stop_event srv) in
  match mp with
  | MainIdle => cnt = 0 ∧
      (if event_is_set (ms_stop_event srv) then started
       else ms_stream_handler srv = None ∧ ms_service_ctx srv = None ∧ ms_stream_acceptor srv = None)
  | MainStart => cnt = 0 ∧ event_is_set (ms_stop_event srv) = false ∧ started
  | MainAcquire stream => event = bool_decide (cnt = 0) ∧ event_is_set (ms_stop_event srv) = false ∧
      started ∧ stream_inv stream ∧ writable stream
  | _ => event = bool_decide (cnt = 0) ∧ event_is_set (ms_stop_event srv) = false ∧ started
  end ∧ (stopping = true → started ∧ acceptor_closed srv).

Record sys_inv (limit : Z) sys : Prop := {
  sys_books : books (ss_server sys) (ss_processors sys);
  sys_main : main_ok (ss_main sys) (ss_stopping sys) (ss_server sys);
  sys_limit : ms_max_stream_processors_cnt (ss_server sys) = limit
}.

(** ** Lemmas on the slots *)

Lemma used_slots_insert l i (o x : option Z) : l !! i = Some o →
  used_slots (<[i := x]> l) =
  used_slots l - (if o is Some _ then 1 else 0) + (if x is Some _ then 1 else 0).
Proof.
  intros Hi. pose proof (lookup_lt_Some _ _ _ Hi) as Hlt. unfold used_slots.
  rewrite <- (take_drop_middle l i o Hi) at 2. rewrite insert_take_drop by done.
  rewrite !omap_app, !zlength_app. cbn. destruct o, x; cbn; zlen.
Qed.

Lemma used_slots_nonneg l : 0 <= used_slots l.
Proof. apply zlength_nonneg. Qed.

Lemma used_slots_le l : used_slots l <= zlength l.
Proof.
  unfold used_slots. induction l as [|[x|] l IH]; [done|..]; cbn; rewrite ?zlength_cons; lia.
Qed.

Lemma used_slots_full l : (∀ i, (i < length l)%nat → ∃ id, l !! i = Some (Some id)) →
  used_slots l = zlength l.
Proof.
  unfold used_slots. induction l as [|o l IH]; intros Hall; [done|].
  destruct (Hall 0%nat) as [id [= ->]]; [cbn; lia|]. cbn. rewrite !zlength_cons. f_equal.
  apply IH. intros i Hi. destruct (Hall (Datatypes.S i)) as [id' Hid]; [cbn; lia|]. by exists id'.
Qed.

Lemma used_slots_zero l i id : used_slots l = 0 → l !! i ≠ Some (Some id).
Proof.
  intros Hz Hi. pose proof (used_slots_insert l i (Some id) None Hi) as Hins.
  pose proof (used_slots_nonneg (<[i := None]> l)). cbn in Hins. lia.
Qed.

Lemma used_slots_pos l i id : l !! i = Some (Some id) → 0 < used_slots l.
Proof.
  intros Hi. pose proof (used_slots_insert l i (Some id) None Hi) as Hins.
  pose proof (used_slots_nonneg (<[i := None]> l)). cbn in Hins. lia.
Qed.

Lemma wp_slot_get (l : list (option Z)) id o (Q' : option Z → Prop) :
  0 <= id → l !! Z.to_nat id = Some o → Q' o → wp (arr_get l id) Q'.
Proof. intros Hid Hl HQ. by eapply wp_arr_get. Qed.

Lemma books_id held srv ps id : books_but held srv ps → id ∈ dom ps →
  0 <= id < ms_max_stream_processors_cnt srv ∧
  ∃ o, ms_active_stream_processors srv !! Z.to_nat id = Some o.
Proof.
  intros Hbk Hid. pose proof (alloc_view_range _ _ _ _ (bk_ids _ _ _ Hbk) Hid) as Hr. split; [done|].
  apply lookup_lt_is_Some_2. pose proof (bk_length _ _ _ Hbk) as Hl. unfold zlength in Hl. lia.
Qed.

(** A processor which does not run has a free slot. *)
Lemma books_idle_slot held srv ps id p : books_but held srv ps → ps !! id = Some p → processor_runs p = false →
  ms_active_stream_processors srv !! Z.to_nat id = Some None.
Proof.
  intros Hbk Hp Hrun. destruct (books_id _ srv ps id Hbk) as [Hr [[id'|] Ho]]; [by apply elem_of_dom| |done].
  destruct (bk_slot _ _ _ Hbk _ _ Ho) as [Hid' _].
  assert (id' = id) as -> by lia. apply (bk_runs _ _ _ Hbk _ _ Hp) in Ho. congruence.
Qed.

(** ** The callbacks *)

Lemma books_update srv ps id p p' : books srv ps → ps !! id = Some p →
  processor_inv p' → processor_get_id p' = id → processor_runs p' = processor_runs p →
  books srv (<[id := p']> ps).
Proof.
  intros [Hmax Hlen Hcnt Hbusy Hids Hproc Hslot Hruns Hfree Hnd] Hp Hinv' Hid' Hrun'.
  assert (dom (<[id := p']> ps) = dom ps) as Hdom.
  { rewrite dom_insert_L. apply elem_of_dom_2 in Hp. set_solver. }
  split; rewrite ?Hdom; try done.
  - intros i q. rewrite lookup_insert_Some. intros [[<- <-]|[_ Hq]]; [done|by apply Hproc].
  - intros i q. rewrite lookup_insert_Some. intros [[<- <-]|[_ Hq]]; [rewrite Hrun'|]; by apply Hruns.
  - intros i. rewrite Hfree. split.
    + intros (q & Hq & Hrun). destruct (decide (i = id)) as [->|Hne].
      * exists p'. rewrite lookup_insert_eq. split; [done|]. congruence.
      * exists q. by rewrite lookup_insert_ne.
    + intros (q & Hq & Hrun). apply lookup_insert_Some in Hq as [[<- <-]|[_ Hq]]; [|by exists q].
      exists p. split; [done|congruence].
Qed.

(** A callback changes neither the service nor the events, but for the event
    which tells that no processor runs. *)
Definition same_service srv srv' : Prop :=
  ms_stream_handler srv' = ms_stream_handler srv ∧ ms_service_ctx srv' = ms_service_ctx srv ∧
  ms_stream_acceptor srv' = ms_stream_acceptor srv ∧ ms_stop_event srv' = ms_stop_event srv ∧
  ms_max_stream_processors_cnt srv' = ms_max_stream_processors_cnt srv.

(** The processor leaves its slot. *)
Lemma books_release srv ps id p p' se pe k act cnt :
  books srv ps → ps !! id = Some p → processor_runs p = true →
  processor_inv p' → processor_get_id p' = id → processor_runs p' = false →
  act = <[Z.to_nat id := None]> (ms_active_stream_processors srv) →
  cnt = ms_active_stream_processors_cnt srv - 1 →
  pool_free k ≡ₚ id :: pool_free (ms_stream_processors_pool srv) →
  pool_busy k = pool_busy (ms_stream_processors_pool srv) - 1 →
  books (MrpcServer se pe (ms_stream_processors_bitmap srv) k act (ms_stream_handler srv)
    (ms_service_ctx srv) (ms_stream_acceptor srv) (ms_max_stream_processors_cnt srv) cnt)
    (<[id := p']> ps).
Proof.
  intros Hbk Hp Hrun Hinv' Hid' Hrun' -> -> Hk Hb.
  assert (id ∈ dom ps) as Hin by by apply elem_of_dom.
  destruct (books_id _ srv ps id Hbk Hin) as [Hr _].
  destruct Hbk as [Hmax Hlen Hcnt Hbusy Hids Hproc Hslot Hruns Hfree Hnd].
  assert (dom (<[id := p']> ps) = dom ps) as Hdom by (rewrite dom_insert_L; set_solver).
  pose proof (proj1 (Hruns _ _ Hp) Hrun) as Hact. pose proof (lookup_lt_Some _ _ _ Hact) as Hlt.
  split; cbn; rewrite ?Hdom; try done.
  - by rewrite zlength_insert.
  - rewrite (used_slots_insert _ _ _ _ Hact), Hcnt. cbn. lia.
  - lia.
  - intros i q. rewrite lookup_insert_Some. intros [[<- <-]|[_ Hq]]; [done|by apply Hproc].
  - intros i q. rewrite list_lookup_insert_Some. intros [(_ & [=] & _)|[_ Hi]]. by apply Hslot.
  - intros i q Hq. assert (i ∈ dom (<[id := p']> ps)) as Hi by by apply elem_of_dom.
    rewrite Hdom in Hi. pose proof (alloc_view_range _ _ _ _ Hids Hi) as Hir.
    apply lookup_insert_Some in Hq as [[<- <-]|[Hne Hq]].
    + rewrite list_lookup_insert_eq by done. split; [congruence|done].
    + rewrite list_lookup_insert_ne by lia. by apply Hruns.
  - intros i. rewrite Hk, elem_of_cons, Hfree. destruct (decide (i = id)) as [->|Hne].
    + rewrite lookup_insert_eq. split; [intros _; by exists p'|by left].
    + rewrite lookup_insert_ne by done. split; [by intros [?|?]|by right].
  - rewrite Hk. apply NoDup_cons. split; [|done]. rewrite Hfree. intros (q & Hq & Hqr). congruence.
Qed.

Lemma release_spec srv ps id p : books srv ps → ps !! id = Some p → processor_runs p = true →
  wp (release_stream_processor id srv) (λ '(_, srv'),
    (∀ p', processor_inv p' → processor_get_id p' = id → processor_runs p' = false →
       books srv' (<[id := p']> ps)) ∧ same_service srv srv' ∧
    ms_stream_processors_bitmap srv' = ms_stream_processors_bitmap srv ∧
    ms_active_stream_processors_cnt srv' = ms_active_stream_processors_cnt srv - 1 ∧
    event_is_set (ms_stream_processors_stop_event srv') =
      if decide (ms_active_stream_processors_cnt srv = 1) then true
      else event_is_set (ms_stream_processors_stop_event srv)).
Proof.
  intros Hbk Hp Hrun. destruct (books_id _ srv ps id Hbk) as [Hr _]; [by apply elem_of_dom|].
  pose proof (proj1 (bk_runs _ _ _ Hbk _ _ Hp) Hrun) as Hact.
  pose proof (lookup_lt_Some _ _ _ Hact) as Hlt. pose proof (used_slots_pos _ _ _ Hact) as Hpos.
  pose proof (used_slots_le (ms_active_stream_processors srv)) as Hle.
  pose proof (bk_cnt _ _ _ Hbk) as Hcnt. pose proof (bk_length _ _ _ Hbk) as Hlen.
  assert (∀ se pe k act cnt p', processor_inv p' → processor_get_id p' = id → processor_runs p' = false → _)
    as Hbooks by (intros se pe k act cnt p' H1' H2' H3';
                  exact (books_release srv ps id p p' se pe k act cnt Hbk Hp Hrun H1' H2' H3')).
  destruct srv as [se pe b k act h c a max cnt]. ms_simpl. unfold release_stream_processor. ms_steps.
  eapply wp_slot_get; [lia|exact Hact|]. ms_steps.
  apply wp_arr_set; [unfold zlength; lia|]. ms_steps.
  eapply wp_mono; [apply ff_pool_release_entry_spec|]. intros [[] k'] [Hk Hb]. ms_steps.
  assert (∀ pe' p', processor_inv p' → processor_get_id p' = id → processor_runs p' = false →
    books (MrpcServer se pe' b k' (<[Z.to_nat id := None]> act) h c a max (cnt - 1)) (<[id := p']> ps))
    as Hbk' by (intros pe' p' H1' H2' H3'; by apply (Hbooks se pe' k' _ _ p')).
  case_bool_decide as Hz; ms_steps.
  - eapply wp_mono; [apply ff_event_set_spec|]. intros [[] pe'] Hset. ms_simpl.
    rewrite decide_True by lia. split; [apply Hbk'|by split_and!].
  - rewrite decide_False by lia. split; [apply Hbk'|by split_and!].
Qed.

Lemma release_id_spec srv used id :
  alloc_view (ms_stream_processors_bitmap srv) (ms_max_stream_processors_cnt srv) used → id ∈ used →
  wp (release_stream_processor_id id srv) (λ '(_, srv'), ∃ b,
    alloc_view b (ms_max_stream_processors_cnt srv) (used ∖ {[id]}) ∧
    ms_stream_processors_bitmap srv' = b ∧
    ms_max_stream_processors_cnt srv' = ms_max_stream_processors_cnt srv).
Proof.
  intros Hview Hid. pose proof (alloc_view_range _ _ _ _ Hview Hid) as Hr.
  destruct srv as [se pe b k act h c a max cnt]. ms_simpl. unfold release_stream_processor_id. ms_steps.
  eapply wp_mono; [by apply alloc_release_spec|]. intros b' Hb'. ms_steps. by exists b'.
Qed.

End invariant.

(** ** The steps preserve the invariant *)

Section steps.
Context {E B K HD CX A P Op S : Type}.
Context `{FFEventSpec E} `{IdAllocatorSpec B} `{FFPoolSpec K Z} `{FFStreamAcceptorSpec A S}.
#[local] Abbreviation SRV := (mrpc_server E B K HD CX A).
#[local] Abbreviation SYS := (server_system E B K HD CX A P S).
Context `{!OwnedProcessor P Op HD CX S SRV} `{!OwnedProcessorSpec P Op HD CX S SRV}.
Context (limit : Z).
Implicit Types (sys : SYS) (srv : SRV) (ps : gmap Z P).
#[local] Abbreviation OP := (@ms_op HD CX A Op).

Lemma release_twice srv ps id p : books srv ps → ps !! id = Some p → processor_runs p = true →
  wp (release_func id srv) (λ '(_, srv'), wp (release_id_func id srv') (λ _, True)).
Proof.
  intros Hbk Hp Hrun. eapply wp_mono; [by eapply release_spec|].
  intros [[] srv'] (_ & (_ & _ & _ & _ & Hmax) & Hb & _). cbn [release_id_func mrpc_server_owner].
  eapply wp_mono; [apply (release_id_spec srv' (dom ps))|done].
  - rewrite Hb, Hmax. apply Hbk.
  - by apply elem_of_dom.
Qed.

Lemma running_cnt srv ps id p : books srv ps → ps !! id = Some p → processor_runs p = true →
  0 < ms_active_stream_processors_cnt srv.
Proof.
  intros Hbk Hp Hrun. rewrite (bk_cnt _ _ _ Hbk). apply (bk_runs _ _ _ Hbk _ _ Hp) in Hrun.
  by eapply used_slots_pos.
Qed.

(** The event follows the count of the processors which run. *)
Lemma main_ok_cnt mp st srv srv' : main_ok mp st srv → same_service srv srv' →
  0 < ms_active_stream_processors_cnt srv →
  event_is_set (ms_stream_processors_stop_event srv') =
    bool_decide (ms_active_stream_processors_cnt srv' = 0) →
  main_ok mp st srv'.
Proof.
  intros [Hmp Hst] (Hh & Hc & Ha & Hs & _) Hpos Hev. unfold main_ok, acceptor_closed in *.
  rewrite Hh, Hc, Ha, Hs, Hev.
  split; [|done]. destruct mp; cbn in *; destruct_and?; split_and?; (done || lia).
Qed.

Lemma main_ok_event mp st srv : main_ok mp st srv → 0 < ms_active_stream_processors_cnt srv →
  event_is_set (ms_stream_processors_stop_event srv) =
    bool_decide (ms_active_stream_processors_cnt srv = 0).
Proof. intros [Hmp _] Hpos. destruct mp; cbn in Hmp; destruct_and?; (done || lia). Qed.

(** A step of a processor: it goes on, or it leaves its slot. *)
Lemma processor_step_inv ptr op sys : sys_inv limit sys → ms_enabled (ProcessorStep ptr op : OP) sys →
  wp (ms_step (ProcessorStep ptr op : OP) sys) (λ '(_, sys'), sys_inv limit sys').
Proof.
  destruct sys as [srv ps mp st]. intros [Hbk Hmain Hlim] (p & Hp & Hen). ms_simpl.
  destruct (bk_processor _ _ _ Hbk _ _ Hp) as [Hinv Hid].
  pose proof (processor_enabled_runs op p Hinv Hen) as Hrun.
  cbn [ms_step]. eapply wp_on_processor; [exact Hp|].
  eapply wp_mono.
  { apply processor_step_spec; [done..|]. rewrite Hid. by eapply release_twice. }
  intros [[] [p' srv']] (Hinv' & Hid' & Hend). rewrite Hid in *.
  destruct (processor_runs p') eqn:Hrun'.
  - subst srv'. split; ms_simpl; [|done..]. apply (books_update srv ps ptr p); [done..|by rewrite Hrun', Hrun].
  - pose proof (release_spec srv ps ptr p Hbk Hp Hrun) as Hrel. cbn [release_func mrpc_server_owner] in Hend.
    rewrite Hend in Hrel. cbn [wp] in Hrel. destruct Hrel as (Hbk' & Hsame & _ & Hcnt & Hev).
    pose proof Hsame as (_ & _ & _ & _ & Hmax'). split; ms_simpl; [by apply Hbk'| |congruence].
    pose proof (running_cnt _ _ _ _ Hbk Hp Hrun) as Hpos.
    eapply main_ok_cnt; [done..|]. rewrite Hev, Hcnt, (main_ok_event _ _ _ Hmain Hpos).
    case_decide; repeat case_bool_decide; done || lia.
Qed.

(** ** Stopping the processors *)

Definition told_to_stop (ps : gmap Z P) (limit : Z) : Prop :=
  ∀ id p, ps !! id = Some p → processor_runs p = true → id < limit → processor_stopping p = true.

Lemma stop_processors_loop_spec rounds i srv ps mp st :
  books srv ps → 0 <= i → i + Z.of_nat rounds = ms_max_stream_processors_cnt srv → told_to_stop ps i →
  wp (stop_processors_loop rounds i (ServerSystem srv ps mp st)) (λ '(_, sys'), ∃ ps',
    sys' = ServerSystem srv ps' mp st ∧ books srv ps' ∧
    told_to_stop ps' (ms_max_stream_processors_cnt srv)).
Proof.
  revert i ps. induction rounds as [|rounds IH]; intros i ps Hbk Hi Hmax Htold.
  { exists ps. split; [done|]. split; [done|]. by replace (ms_max_stream_processors_cnt srv) with i by lia. }
  assert (∃ o, ms_active_stream_processors srv !! Z.to_nat i = Some o) as [o Ho].
  { apply lookup_lt_is_Some_2. pose proof (bk_length _ _ _ Hbk) as Hl. unfold zlength in Hl. lia. }
  cbn [stop_processors_loop]. sys_steps. eapply wp_slot_get; [lia|exact Ho|]. sys_steps.
  destruct o as [id|].
  - destruct (bk_slot _ _ _ Hbk _ _ Ho) as [Hid [p Hp]%elem_of_dom]. assert (id = i) as -> by lia.
    assert (processor_runs p = true) as Hrun by by apply (bk_runs _ _ _ Hbk _ _ Hp).
    destruct (bk_processor _ _ _ Hbk _ _ Hp) as [Hinv Hpid].
    eapply wp_on_processor; [exact Hp|].
    eapply wp_mono; [by apply processor_stop_async_spec|].
    intros [[] [p' srv']] ((Hinv' & Hpid' & Hrun' & ->) & Hstop). ms_simpl.
    apply IH; [|lia|lia|].
    + apply (books_update srv ps i p); [done..|congruence|by rewrite Hrun', Hrun].
    + intros j q Hq Hqr Hj. apply lookup_insert_Some in Hq as [[_ <-]|[Hne Hq]]; [done|].
      apply (Htold j q); [done..|lia].
  - sys_steps. apply IH; [done|lia|lia|]. intros j q Hq Hqr Hj.
    destruct (decide (j = i)) as [->|Hne]; [|apply (Htold j q); [done..|lia]].
    apply (bk_runs _ _ _ Hbk _ _ Hq) in Hqr. congruence.
Qed.

Lemma stop_all_spec srv ps mp st : books srv ps →
  wp (stop_all_stream_processors (ServerSystem srv ps mp st)) (λ '(_, sys'), ∃ ps',
    sys' = ServerSystem srv ps' MainWaitProcessors st ∧ books srv ps' ∧
    told_to_stop ps' (ms_max_stream_processors_cnt srv)).
Proof.
  intros Hbk. pose proof (bk_max _ _ _ Hbk) as Hmax. unfold stop_all_stream_processors. sys_steps.
  eapply wp_mono; [apply stop_processors_loop_spec; [done|done|lia|]|].
  - intros id p Hp _ Hid. pose proof (bk_ids _ _ _ Hbk) as Hids.
    apply (alloc_view_range _ _ _ id) in Hids; [lia|by apply elem_of_dom].
  - intros [[] sys'] (ps' & -> & Hbk' & Htold). sys_steps. by exists ps'.
Qed.

(** ** Acquiring a processor *)

(** The ids of the processors which exist are all taken only if all of them
    run. *)
Lemma free_id srv ps : books srv ps → pool_free (ms_stream_processors_pool srv) = [] →
  (∀ j, 0 <= j < ms_max_stream_processors_cnt srv → j ∈ dom ps) →
  ms_active_stream_processors_cnt srv = ms_max_stream_processors_cnt srv.
Proof.
  intros Hbk Hfree Hall. rewrite (bk_cnt _ _ _ Hbk), <- (bk_length _ _ _ Hbk). apply used_slots_full.
  intros i Hi. pose proof (bk_length _ _ _ Hbk) as Hl. unfold zlength in Hl.
  assert (Z.of_nat i ∈ dom ps) as [p Hp]%elem_of_dom by (apply Hall; lia). exists (Z.of_nat i).
  destruct (processor_runs p) eqn:Hrun.
  - apply (bk_runs _ _ _ Hbk _ _ Hp) in Hrun. by rewrite Nat2Z.id in Hrun.
  - exfalso. assert (Z.of_nat i ∈ pool_free (ms_stream_processors_pool srv)) as Hin
      by (apply (bk_free _ _ _ Hbk); by exists p). rewrite Hfree in Hin. by apply elem_of_nil in Hin.
Qed.

Lemma books_take se pe b k act h c a max cnt ps id k' :
  books (MrpcServer se pe b k act h c a max cnt) ps →
  pool_free k ≡ₚ id :: pool_free k' → pool_busy k' = pool_busy k + 1 →
  books_but [id] (MrpcServer se pe b k' act h c a max cnt) ps.
Proof.
  intros [Hmax Hlen Hcnt Hbusy Hids Hproc Hslot Hruns Hfree Hnd] Hk Hb.
  cbn in *. split; cbn; try done.
  - rewrite Hb, Hbusy. zlen.
  - intros i. rewrite <- Hfree. by rewrite Hk.
  - by rewrite <- Hk.
Qed.

Lemma books_new se pe b k act h c a max cnt ps id b' k' p :
  books (MrpcServer se pe b k act h c a max cnt) ps → pool_free k = [] → id ∉ dom ps →
  alloc_view b' max ({[id]} ∪ dom ps) → processor_inv p → processor_runs p = false →
  processor_get_id p = id → pool_free k' = [] → pool_busy k' = pool_busy k + 1 →
  books_but [id] (MrpcServer se pe b' k' act h c a max cnt) (<[id := p]> ps).
Proof.
  intros [Hmax Hlen Hcnt Hbusy Hids Hproc Hslot Hruns Hfree Hnd] Hk Hnew Hb' Hpi Hpr Hpid Hk' Hb.
  pose proof (alloc_view_range _ _ _ id Hb' ltac:(set_solver)) as Hr. cbn in *.
  assert (∀ i q, <[id := p]> ps !! i = Some q → i = id ∧ q = p ∨ i ≠ id ∧ ps !! i = Some q) as Hins.
  { intros i q. rewrite lookup_insert_Some. intros [[-> ->]|[? ?]]; [by left|right; split; congruence]. }
  assert (∀ i, act !! Z.to_nat i = Some (Some i) → i ∈ dom ps) as Hact by (intros i Hi; by eapply Hslot).
  split; cbn; rewrite ?Hk', ?dom_insert_L; try done.
  - rewrite Hb, Hbusy. zlen.
  - intros i q [[-> ->]|[_ Hq]]%Hins; [done|by apply Hproc].
  - intros i j [Hi Hj]%Hslot. split; [done|set_solver].
  - intros i q [[-> ->]|[_ Hq]]%Hins; [|by apply Hruns].
    rewrite Hpr. split; [done|]. by intros ?%Hact.
  - intros i. rewrite list_elem_of_singleton. split.
    + intros ->. exists p. by rewrite lookup_insert_eq.
    + intros (q & [[-> _]|[_ Hq]]%Hins & Hqr); [done|]. exfalso.
      assert (i ∈ pool_free k) as Hi by (apply Hfree; by exists q). rewrite Hk in Hi. by apply elem_of_nil in Hi.
  - apply NoDup_singleton.
Qed.

(** The processor which was held runs now, in its slot. *)
Lemma books_start se pe b k act h c a max cnt ps id p' pe' :
  books_but [id] (MrpcServer se pe b k act h c a max cnt) ps →
  processor_inv p' → processor_get_id p' = id → processor_runs p' = true →
  books (MrpcServer se pe' b k (<[Z.to_nat id := Some id]> act) h c a max (cnt + 1)) (<[id := p']> ps).
Proof.
  intros Hbk Hinv' Hid' Hrun'.
  assert (∃ p, ps !! id = Some p ∧ processor_runs p = false) as (p & Hp & Hrun)
    by (apply (bk_free _ _ _ Hbk); by left).
  assert (id ∈ dom ps) as Hin by by apply elem_of_dom.
  destruct (books_id _ _ _ _ Hbk Hin) as [Hr _].
  pose proof (books_idle_slot _ _ _ _ _ Hbk Hp Hrun) as Hact. pose proof (lookup_lt_Some _ _ _ Hact) as Hlt.
  destruct Hbk as [Hmax Hlen Hcnt Hbusy Hids Hproc Hslot Hruns Hfree Hnd]. cbn in *.
  assert (dom (<[id := p']> ps) = dom ps) as Hdom by (rewrite dom_insert_L; set_solver).
  apply NoDup_cons in Hnd as [Hnotin Hnd].
  split; cbn; rewrite ?Hdom; try done.
  - by rewrite zlength_insert.
  - rewrite (used_slots_insert _ _ _ _ Hact), Hcnt. cbn. lia.
  - rewrite Hbusy. zlen.
  - intros i q. rewrite lookup_insert_Some. intros [[<- <-]|[_ Hq]]; [done|by apply Hproc].
  - intros i j. rewrite list_lookup_insert_Some. intros [(<- & [= <-] & _)|[_ Hi]]; [|by apply Hslot].
    split; [lia|done].
  - intros i q Hq. assert (i ∈ dom (<[id := p']> ps)) as Hi by by apply elem_of_dom.
    rewrite Hdom in Hi. pose proof (alloc_view_range _ _ _ _ Hids Hi) as Hir.
    apply lookup_insert_Some in Hq as [[<- <-]|[Hne Hq]].
    + by rewrite list_lookup_insert_eq.
    + rewrite list_lookup_insert_ne by lia. by apply Hruns.
  - intros i. destruct (decide (i = id)) as [->|Hne].
    + rewrite lookup_insert_eq. split; [done|]. intros (q & [= <-] & Hq). congruence.
    + rewrite lookup_insert_ne by done. rewrite <- Hfree, elem_of_cons. naive_solver.
Qed.

(** A new processor gets an id which no other processor has. *)
Lemma ms_create_processor_spec se pe b k act h c a max cnt ps mp st :
  books (MrpcServer se pe b k act h c a max cnt) ps → pool_free k = [] → pool_busy k < max →
  wp (create_stream_processor (ServerSystem (MrpcServer se pe b k act h c a max cnt) ps mp st))
    (λ '(id, sys'), ∃ b' p,
      sys' = ServerSystem (MrpcServer se pe b' k act h c a max cnt) (<[id := p]> ps) mp st ∧
      id ∉ dom ps ∧ alloc_view b' max ({[id]} ∪ dom ps) ∧
      processor_inv p ∧ processor_runs p = false ∧ processor_get_id p = id).
Proof.
  intros Hbk Hk Hb. unfold create_stream_processor, acquire_stream_processor_id.
  pose proof (free_id _ _ Hbk Hk) as Hall. pose proof (bk_busy _ _ _ Hbk) as Hbusy.
  change (zlength []) with 0 in Hbusy. cbn in Hall, Hbusy.
  sys_steps. eapply wp_mono; [apply alloc_acquire_spec, (bk_ids _ _ _ Hbk)|].
  intros [id b'] [(_ & _ & Hfull)|(Hr & Hnew & Hb')]; ms_simpl.
  - specialize (Hall Hfull). lia.
  - sys_steps. pose proof (processor_create_spec (MrpcServer se pe b' k act h c a max cnt) id) as (? & ? & ?).
    by do 2 eexists.
Qed.

Lemma pool_acquire_spec se pe b k act h c a max cnt ps mp st :
  books (MrpcServer se pe b k act h c a max cnt) ps → pool_busy k < max →
  wp (on_processors_pool (ff_pool_acquire_entry create_stream_processor)
       (ServerSystem (MrpcServer se pe b k act h c a max cnt) ps mp st))
    (λ '(id, sys'), ∃ b' k' ps',
      sys' = ServerSystem (MrpcServer se pe b' k' act h c a max cnt) ps' mp st ∧
      books_but [id] (MrpcServer se pe b' k' act h c a max cnt) ps').
Proof.
  intros Hbk Hb. apply wp_on_processors_pool. ms_simpl.
  destruct (decide (pool_free k = [])) as [Hk|Hk].
  - eapply wp_mono; [apply ff_pool_acquire_new_spec; [done|by eapply ms_create_processor_spec]|].
    intros [id [k' sys']] ((b' & p & -> & Hnew & Hb' & Hpi & Hpr & Hpid) & Hk' & Hbusy').
    exists b', k', (<[id := p]> ps). split; [done|]. by eapply books_new.
  - eapply wp_mono; [by apply ff_pool_acquire_free_spec|].
    intros [id [k' sys']] (-> & Hk' & Hbusy'). exists b, k', ps. split; [done|]. by eapply books_take.
Qed.

(** The event is reset when the first processor starts. *)
Lemma acquire_spec se pe b k act h c a max cnt ps mp st :
  books (MrpcServer se pe b k act h c a max cnt) ps → pool_busy k < max →
  event_is_set pe = bool_decide (cnt = 0) →
  wp (acquire_stream_processor (ServerSystem (MrpcServer se pe b k act h c a max cnt) ps mp st))
    (λ '(id, sys'), ∃ pe' b' k' ps' p,
      sys' = ServerSystem (MrpcServer se pe' b' k' (<[Z.to_nat id := Some id]> act) h c a max (cnt + 1))
               ps' mp st ∧
      books_but [id] (MrpcServer se pe b' k' act h c a max cnt) ps' ∧
      ps' !! id = Some p ∧ processor_inv p ∧ processor_runs p = false ∧ processor_get_id p = id ∧
      event_is_set pe' = false).
Proof.
  intros Hbk Hb Hev. unfold acquire_stream_processor. sys_steps.
  eapply wp_mono; [by apply pool_acquire_spec|].
  intros [id sys'] (b' & k' & ps' & -> & Hbk'). ms_simpl.
  assert (∃ p, ps' !! id = Some p ∧ processor_runs p = false) as (p & Hp & Hrun)
    by (apply (bk_free _ _ _ Hbk'); by left).
  destruct (bk_processor _ _ _ Hbk' _ _ Hp) as [Hpi Hpid].
  pose proof (books_id _ _ _ id Hbk' ltac:(by apply elem_of_dom)) as [Hr _].
  pose proof (books_idle_slot _ _ _ _ _ Hbk' Hp Hrun) as Hact. pose proof (lookup_lt_Some _ _ _ Hact) as Hlt.
  pose proof (bk_cnt _ _ _ Hbk') as Hcnt. pose proof (bk_length _ _ _ Hbk') as Hlen.
  pose proof (used_slots_insert _ _ _ (Some id) Hact) as Hins.
  pose proof (used_slots_le (<[Z.to_nat id := Some id]> act)) as Hle. rewrite zlength_insert in Hle.
  pose proof (used_slots_nonneg act) as Hnn. cbn in Hins, Hcnt, Hlen, Hr, Hact, Hlt.
  sys_steps. eapply wp_processor_at; [done|]. ms_simpl. rewrite Hpid. sys_steps.
  eapply wp_slot_get; [lia|exact Hact|]. sys_steps. apply wp_arr_set; [unfold zlength; lia|]. sys_steps.
  destruct (decide (cnt + 1 = 1)) as [Hz|Hz];
    [rewrite bool_decide_eq_true_2 by done|rewrite (bool_decide_eq_false_2 (cnt + 1 = 1)) by done]; sys_steps.
  - eapply wp_mono; [apply ff_event_reset_spec|]. intros [[] pe'] Hset. sys_steps.
    by do 5 eexists.
  - do 5 eexists. split_and!; try done. rewrite Hev. apply bool_decide_eq_false_2. lia.
Qed.

(** ** The steps of the fiber of the server *)

Lemma main_start_inv srv ps st : sys_inv limit (ServerSystem srv ps MainStart st) →
  wp (main_server_begin (ServerSystem srv ps MainStart st)) (λ '(_, sys'),
    sys_inv limit sys' ∧ ss_main sys' = MainAccept ∧ ss_stopping sys' = st ∧
    ms_active_stream_processors_cnt (ss_server sys') = 0).
Proof.
  intros [Hbk ((Hcnt & Hse & [hd Hh] & [a Ha]) & Hst) Hlim]. destruct srv as [se pe b k act h c a' max cnt].
  ms_simpl. subst h a'. unfold main_server_begin. sys_steps.
  eapply wp_mono; [apply ff_event_set_spec|]. intros [[] pe'] Hset. sys_steps.
  split_and!; [|done..]. split; ms_simpl; [by destruct Hbk| |done].
  - split; [|done]. cbn. rewrite Hset, bool_decide_eq_true_2 by done. by split_and!.
Qed.

Lemma main_accept_inv srv ps st : sys_inv limit (ServerSystem srv ps MainAccept st) →
  wp (main_server_func (ServerSystem srv ps MainAccept st)) (λ '(_, sys'),
    sys_inv limit sys' ∧ ss_stopping sys' = st ∧ ms_active_stream_processors_cnt (ss_server sys') =
      ms_active_stream_processors_cnt srv ∧
    ((∃ stream, ss_main sys' = MainAcquire stream) ∧ ¬ acceptor_closed srv ∨
     ss_main sys' = MainWaitProcessors ∧
     told_to_stop (ss_processors sys') (ms_max_stream_processors_cnt srv))).
Proof.
  intros [Hbk ((Hev & Hse & [hd Hh] & [a Ha]) & Hst) Hlim]. destruct srv as [se pe b k act h c a' max cnt].
  ms_simpl. subst h a'. unfold main_server_func. sys_steps.
  eapply wp_mono; [apply ff_stream_acceptor_accept_spec|]. intros [[stream|] a'] [Hopen Hs]; ms_simpl.
  - destruct Hs as (Hop & Hsi & Hsw). pose proof (bk_cnt _ _ _ Hbk) as Hcnt.
    pose proof (used_slots_le act) as Hle. pose proof (used_slots_nonneg act) as Hnn.
    pose proof (bk_length _ _ _ Hbk) as Hlen. cbn in Hcnt, Hlen.
    unfold acquire_stream_processor_begin. sys_steps. split_and!; [|done..|].
    + split; ms_simpl; [by destruct Hbk| |done]. split; [by split_and!|].
      intros [_ Hcl]%Hst. cbn in Hcl. congruence.
    + left. split; [by eexists|]. cbn. congruence.
  - eapply wp_mono; [apply stop_all_spec; by destruct Hbk|].
    intros [[] sys'] (ps' & -> & Hbk' & Htold). ms_simpl. split_and!; [|done..|by right].
    split; ms_simpl; [done| |done]. split; [by split_and!|]. intros [Hs1 Hs2]%Hst. split; [by split_and!|].
    cbn in *. congruence.
Qed.

Lemma main_acquire_inv srv ps st stream : sys_inv limit (ServerSystem srv ps (MainAcquire stream) st) →
  pool_busy (ms_stream_processors_pool srv) < ms_max_stream_processors_cnt srv →
  wp (main_server_func (ServerSystem srv ps (MainAcquire stream) st)) (λ '(_, sys'),
    sys_inv limit sys' ∧ ss_main sys' = MainAccept ∧ ss_stopping sys' = st ∧
    ms_active_stream_processors_cnt (ss_server sys') = ms_active_stream_processors_cnt srv + 1).
Proof.
  intros [Hbk ((Hev & Hse & ([hd Hh] & [a Ha]) & Hsi & Hsw) & Hst) Hlim] Hbusy.
  destruct srv as [se pe b k act h c a' max cnt]. ms_simpl. subst h a'.
  pose proof (bk_cnt _ _ _ Hbk) as Hcnt. pose proof (used_slots_nonneg act) as Hnn. cbn in Hcnt.
  unfold main_server_func. sys_steps. eapply wp_mono; [by apply acquire_spec|].
  intros [id sys'] (pe' & b' & k' & ps' & p & -> & Hbk' & Hp & Hpi & Hpr & Hpid & Hpe').
  sys_steps. eapply wp_on_processor; [done|].
  eapply wp_mono; [by apply processor_start_spec|].
  intros [[] [p' srv']] (Hpi' & Hpid' & Hrun' & ->). sys_steps. split_and!; [|done..].
  split; ms_simpl.
  - eapply books_start; [done..|congruence|done].
  - split; [|done]. cbn. rewrite Hpe', bool_decide_eq_false_2 by lia. by split_and!.
  - done.
Qed.

Lemma main_wait_inv srv ps st : sys_inv limit (ServerSystem srv ps MainWaitProcessors st) →
  event_is_set (ms_stream_processors_stop_event srv) = true →
  wp (main_server_func (ServerSystem srv ps MainWaitProcessors st)) (λ '(_, sys'),
    sys_inv limit sys' ∧ ss_main sys' = MainIdle ∧ ss_stopping sys' = st ∧
    event_is_set (ms_stop_event (ss_server sys')) = true).
Proof.
  intros [Hbk ((Hev & Hse & ([hd Hh] & [a Ha])) & Hst) Hlim] Hset.
  destruct srv as [se pe b k act h c a' max cnt]. ms_simpl. subst h a'.
  rewrite Hset in Hev. symmetry in Hev. apply bool_decide_eq_true_1 in Hev.
  unfold main_server_func. sys_steps.
  eapply wp_mono; [by apply ff_event_wait_spec|]. intros [[] pe'] Hpe'. sys_steps.
  eapply wp_mono; [by apply ff_event_set_spec|]. intros [[] se'] Hse'. sys_steps.
  split_and!; [|done..]. split; ms_simpl; [by destruct Hbk| |done].
  split; [|done]. cbn. rewrite Hse'. by split_and!.
Qed.

Lemma main_step_inv sys : sys_inv limit sys → main_enabled sys →
  wp (main_server_func sys) (λ '(_, sys'), sys_inv limit sys' ∧ ss_stopping sys' = ss_stopping sys).
Proof.
  destruct sys as [srv ps mp st]. intros Hinv Hen. destruct mp; ms_simpl; try done.
  - eapply wp_mono; [by apply main_start_inv|]. intros [[] sys'] ?. by destruct_and?.
  - eapply wp_mono; [by apply main_accept_inv|]. intros [[] sys'] ?. by destruct_and?.
  - eapply wp_mono; [by apply main_acquire_inv|]. intros [[] sys'] ?. by destruct_and?.
  - eapply wp_mono; [by apply main_wait_inv|]. intros [[] sys'] ?. by destruct_and?.
Qed.

(** ** The calls of the user *)

Lemma stopped_spec srv : ms_stream_handler srv = None → ms_service_ctx srv = None →
  ms_stream_acceptor srv = None → ms_active_stream_processors_cnt srv = 0 →
  wp (assert_server_stopped srv) (λ '(_, srv'), srv' = srv).
Proof. intros Hh Hc Ha Hcnt. unfold assert_server_stopped. ms_steps; by rewrite ?Hh, ?Hc, ?Ha. Qed.

Lemma stopped_inv sys : sys_inv limit sys → ms_stream_handler (ss_server sys) = None →
  ss_main sys = MainIdle ∧ ss_stopping sys = false ∧ ms_service_ctx (ss_server sys) = None ∧
  ms_stream_acceptor (ss_server sys) = None ∧ ms_active_stream_processors_cnt (ss_server sys) = 0 ∧
  event_is_set (ms_stop_event (ss_server sys)) = false.
Proof.
  destruct sys as [srv ps mp st]. intros [_ [Hmp Hst] _] Hh. ms_simpl. rewrite Hh in *.
  assert (¬ is_Some (@None HD)) as Hno by by intros [].
  assert (st = false) as -> by (destruct st; [|done]; destruct Hst as [[Hs _] _]; done).
  destruct mp; cbn in Hmp; destruct_and?; try done.
  destruct (event_is_set (ms_stop_event srv)); destruct_and?; by split_and!.
Qed.

Lemma create_inv max : 0 < max → wp (mrpc_server_create max : outcome SYS) (λ sys, sys_inv max sys).
Proof.
  intros Hmax. unfold mrpc_server_create. wp_steps.
  eapply wp_mono; [by apply alloc_create_spec|]. intros b Hb. wp_steps.
  destruct (ff_pool_create_spec (K := K) (A := Z) max) as [Hfree Hbusy].
  assert (∀ i id, replicate (Z.to_nat max) (@None Z) !! i ≠ Some (Some id)) as Hno.
  { intros i id. by intros [[=] _]%lookup_replicate. }
  split; cbn.
  - split; cbn; rewrite ?Hfree, ?dom_empty_L; try done.
    + unfold zlength. rewrite length_replicate. lia.
    + unfold used_slots. clear. by induction (Z.to_nat max).
    + by intros i id ?%Hno.
    + intros i. rewrite elem_of_nil. split; [done|]. by intros (p & Hp & _).
    + apply NoDup_nil. done.
  - split; cbn; [|done]. rewrite ff_event_create_spec. by split_and!.
  - done.
Qed.

Lemma start_inv hd ctx a sys : sys_inv limit sys → ms_stream_handler (ss_server sys) = None →
  wp (mrpc_server_start hd ctx a sys) (λ '(_, sys'), sys_inv limit sys').
Proof.
  intros Hinv Hh. destruct (stopped_inv _ Hinv Hh) as (Hm & Hst & Hc & Ha & Hcnt & Hse).
  destruct Hinv as [Hbk _ Hlim]. destruct sys as [srv ps mp st]. ms_simpl. subst mp st.
  unfold mrpc_server_start. sys_steps. eapply wp_mono; [by apply stopped_spec|].
  intros [[] srv'] ->. destruct srv as [se pe b k act h c a' max cnt]. ms_simpl. sys_steps.
  eapply wp_mono; [apply ff_stream_acceptor_initialize_spec|]. intros [[] a''] _. sys_steps.
  split; ms_simpl; [by destruct Hbk| |done]. split; [|done]. cbn. by split_and!.
Qed.

Lemma ms_stop_inv sys : sys_inv limit sys → is_Some (ms_stream_handler (ss_server sys)) →
  wp (mrpc_server_stop sys) (λ '(_, sys'), sys_inv limit sys' ∧ ss_stopping sys' = true ∧
    ss_main sys' = ss_main sys ∧ ss_processors sys' = ss_processors sys ∧
    ms_stream_processors_pool (ss_server sys') = ms_stream_processors_pool (ss_server sys) ∧
    ms_max_stream_processors_cnt (ss_server sys') = ms_max_stream_processors_cnt (ss_server sys) ∧
    ms_stop_event (ss_server sys') = ms_stop_event (ss_server sys)).
Proof.
  intros [Hbk [Hmp Hst] Hlim] [hd Hh]. destruct sys as [[se pe b k act h c a' max cnt] ps mp st].
  ms_simpl. subst h.
  assert (is_Some a') as [a ->].
  { destruct mp; cbn in Hmp; destruct_and?; try done.
    destruct (event_is_set se); by destruct_and?. }
  unfold mrpc_server_stop. sys_steps.
  eapply wp_mono; [apply ff_stream_acceptor_shutdown_spec|]. intros [[] a'] Hcl. sys_steps.
  split_and!; [|done..]. split; ms_simpl; [by destruct Hbk| |done].
  split; [|intros _; by split_and!].
  destruct mp; cbn in *; try (by destruct_and?; split_and!).
  destruct (event_is_set se); destruct_and?; by split_and!.
Qed.

Lemma stop_end_inv sys : sys_inv limit sys → ss_stopping sys = true →
  event_is_set (ms_stop_event (ss_server sys)) = true →
  wp (mrpc_server_stop_end sys) (λ '(_, sys'), sys_inv limit sys' ∧ ss_main sys = MainIdle ∧
    ms_stream_handler (ss_server sys') = None).
Proof.
  intros [Hbk [Hmp Hst] Hlim] Hstop Hset. destruct sys as [[se pe b k act h c a max cnt] ps mp st]. ms_simpl.
  assert (mp = MainIdle ∧ cnt = 0) as [-> ->].
  { destruct mp; cbn in Hmp; destruct_and?; congruence || done. }
  unfold mrpc_server_stop_end. sys_steps.
  eapply wp_mono; [by apply ff_event_wait_spec|]. intros [[] se'] Hse'. sys_steps.
  split_and!; [|done..]. split; ms_simpl; [by destruct Hbk| |done]. split; [|done]. cbn. rewrite Hse'. by split_and!.
Qed.

Lemma step_inv op sys : sys_inv limit sys → ms_enabled op sys →
  wp (ms_step (op : OP) sys) (λ '(_, sys'), sys_inv limit sys').
Proof.
  intros Hinv Hen. destruct op as [hd ctx a| | | |ptr op].
  - by apply start_inv.
  - destruct Hen as [Hh _]. eapply wp_mono; [by apply ms_stop_inv|]. by intros [[] sys'] [? _].
  - destruct Hen as [Hst Hev]. eapply wp_mono; [by apply stop_end_inv|]. by intros [[] sys'] [? _].
  - eapply wp_mono; [by apply main_step_inv|]. by intros [[] sys'] [? _].
  - by apply processor_step_inv.
Qed.

Lemma ms_run_inv ops sys sys' : @ms_run _ _ _ _ _ _ _ Op _ _ _ _ _ _ ops sys sys' → sys_inv limit sys → sys_inv limit sys'.
Proof.
  induction 1 as [|op ops sys sys1 sys2 Hen Hstep _ IH]; [done|]. intros Hinv. apply IH.
  pose proof (step_inv op sys Hinv Hen) as Hs. by rewrite Hstep in Hs.
Qed.

Lemma ms_reachable_inv sys : 0 < limit → ms_reachable limit sys → sys_inv limit sys.
Proof.
  intros Hmax (sys0 & ops & Hcreate & Hrun). eapply ms_run_inv; [done|].
  pose proof (create_inv limit Hmax) as Hc. by rewrite Hcreate in Hc.
Qed.

(** ** Deleting the server *)

(** The processors of [l] are idle. *)
Definition idle_processors (l : list Z) srv ps : Prop :=
  alloc_view (ms_stream_processors_bitmap srv) (ms_max_stream_processors_cnt srv) (dom ps) ∧
  ∀ id, id ∈ l → ∃ p, ps !! id = Some p ∧ processor_inv p ∧ processor_get_id p = id ∧
    processor_runs p = false.

Lemma delete_processor_spec id l srv ps mp st : idle_processors (id :: l) srv ps → id ∉ l →
  wp (delete_stream_processor id (ServerSystem srv ps mp st)) (λ '(_, sys'), ∃ srv',
    sys' = ServerSystem srv' (delete id ps) mp st ∧ idle_processors l srv' (delete id ps) ∧
    ms_max_stream_processors_cnt srv' = ms_max_stream_processors_cnt srv).
Proof.
  intros [Hview Hall] Hnot. destruct (Hall id) as (p & Hp & Hpi & Hpid & Hrun); [by left|].
  pose proof (release_id_spec srv (dom ps) id Hview ltac:(by apply elem_of_dom)) as Hrel.
  unfold delete_stream_processor. sys_steps. eapply wp_on_processor; [done|].
  eapply wp_mono.
  { apply processor_delete_spec; [done..|]. rewrite Hpid. by eapply wp_mono; [exact Hrel|]. }
  intros [[] [p' srv']] Heq. rewrite Hpid in Heq. cbn [release_id_func mrpc_server_owner] in Heq.
  rewrite Heq in Hrel. destruct Hrel as (b & Hb & Hb' & Hmax). sys_steps.
  rewrite delete_insert_eq. exists srv'. split_and!; [done| |done]. split.
  - by rewrite Hb', Hmax, dom_delete_L.
  - intros j Hj. rewrite lookup_delete_ne by (intros ->; done). apply Hall. by right.
Qed.

Lemma delete_processors_spec l srv ps mp st : idle_processors l srv ps → NoDup l →
  wp (delete_entries delete_stream_processor l (ServerSystem srv ps mp st)) (λ '(_, sys'),
    alloc_view (ms_stream_processors_bitmap (ss_server sys')) (ms_max_stream_processors_cnt srv)
      (dom (ss_processors sys')) ∧
    ∀ id, ss_processors sys' !! id = if decide (id ∈ l) then None else ps !! id).
Proof.
  revert srv ps. induction l as [|id l IH]; intros srv ps Hidle Hnd; cbn [delete_entries].
  - sys_steps. split; [apply Hidle|]. intros id. rewrite decide_False; [done|]. apply not_elem_of_nil.
  - apply NoDup_cons in Hnd as [Hnot Hnd]. sys_steps.
    eapply wp_mono; [by apply (delete_processor_spec id l)|]. intros [[] sys'] (srv' & -> & Hidle' & Hmax). ms_simpl.
    eapply wp_mono; [by apply IH|]. intros [[] sys'] [Hview Hget]. split; [by rewrite <- Hmax|].
    intros j. rewrite Hget. destruct (decide (j = id)) as [->|Hne].
    + rewrite (decide_True (P := id ∈ id :: l)) by (by left). rewrite lookup_delete_eq. by destruct (decide _).
    + rewrite lookup_delete_ne by done. repeat destruct (decide _); set_solver.
Qed.

Lemma delete_spec sys : sys_inv limit sys → ms_stream_handler (ss_server sys) = None →
  wp (mrpc_server_delete sys) (λ '(_, sys'), ss_processors sys' = ∅ ∧
    alloc_view (ms_stream_processors_bitmap (ss_server sys'))
      (ms_max_stream_processors_cnt (ss_server sys)) ∅).
Proof.
  intros Hinv Hh. destruct (stopped_inv _ Hinv Hh) as (_ & _ & Hc & Ha & Hcnt & _).
  destruct Hinv as [Hbk _ Hlim]. destruct sys as [srv ps mp st]. ms_simpl.
  unfold mrpc_server_delete. sys_steps. eapply wp_mono; [by apply stopped_spec|].
  intros [[] srv'] ->. ms_simpl. apply wp_on_processors_pool. ms_simpl.
  pose proof (bk_busy _ _ _ Hbk) as Hbusy. change (zlength []) with 0 in Hbusy.
  assert (∀ id p, ps !! id = Some p → processor_runs p = false) as Hidle.
  { intros id p Hp. apply not_true_iff_false. intros Hrun. pose proof (running_cnt _ _ _ _ Hbk Hp Hrun). lia. }
  eapply wp_mono; [apply (ff_pool_delete_spec _ _ _ (λ sys', ss_processors sys' = ∅ ∧
    alloc_view (ms_stream_processors_bitmap (ss_server sys')) (ms_max_stream_processors_cnt srv) ∅))|].
  - lia.
  - intros l Hl. eapply wp_mono; [apply delete_processors_spec|].
    + split; [apply Hbk|]. intros id Hid. rewrite Hl in Hid.
      apply (bk_free _ _ _ Hbk) in Hid as (p & Hp & Hrun). exists p.
      by destruct (bk_processor _ _ _ Hbk _ _ Hp).
    + rewrite Hl. apply (bk_nodup _ _ _ Hbk).
    + intros [[] sys'] [Hview Hget]. assert (ss_processors sys' = ∅) as Hnone.
      { apply map_empty. intros id. rewrite Hget. destruct (decide (id ∈ l)) as [|Hno]; [done|].
        destruct (ps !! id) as [p|] eqn:Hp; [|done]. destruct Hno. rewrite Hl.
        apply (bk_free _ _ _ Hbk). by exists p; split; [|eapply Hidle]. }
      split; [done|]. by rewrite Hnone, dom_empty_L in Hview.
  - intros [[] [k' [[] ps' mp' st']]] [Hp' Hv]. by split.
Qed.

(** ** The processors which run are counted *)

Lemma slot_ids_spec l off : (∀ i id, l !! i = Some (Some id) → id = Z.of_nat (off + i)) →
  NoDup (omap (A := option Z) id l) ∧
  ∀ id, id ∈ omap (A := option Z) (λ o, o) l ↔ ∃ i, l !! i = Some (Some id).
Proof.
  intros Hl. split.
  - revert off Hl. induction l as [|o l IH]; intros off Hl; cbn; [apply NoDup_nil; done|].
    assert (NoDup (omap (A := option Z) id l)) as Hnd.
    { apply (IH (Datatypes.S off)). intros i id Hi. rewrite (Hl (Datatypes.S i) id Hi). lia. }
    destruct o as [id|]; cbn; [|done]. apply NoDup_cons. split; [|done].
    intros (o & Ho & Hoid)%list_elem_of_omap. cbn in Hoid. subst o.
    apply list_elem_of_lookup_1 in Ho as [i Hi].
    pose proof (Hl 0%nat id eq_refl). pose proof (Hl (Datatypes.S i) id Hi). lia.
  - intros id. rewrite list_elem_of_omap. split.
    + intros (o & [i Hi]%list_elem_of_lookup_1 & ->). by exists i.
    + intros [i Hi]. exists (Some id). split; [by eapply list_elem_of_lookup_2|done].
Qed.

Definition running ps : gmap Z P := filter (λ '(_, p), processor_runs p = true) ps.

Lemma running_size srv ps : books srv ps →
  ms_active_stream_processors_cnt srv = Z.of_nat (size (running ps)).
Proof.
  intros Hbk. rewrite (bk_cnt _ _ _ Hbk). unfold used_slots, zlength. f_equal.
  destruct (slot_ids_spec (ms_active_stream_processors srv) 0) as [Hnd Hin].
  { intros i id Hi. by destruct (bk_slot _ _ _ Hbk _ _ Hi). }
  rewrite <- size_dom, <- (size_list_to_set (C := gset Z) _ Hnd). f_equal. apply set_eq. intros id.
  rewrite elem_of_list_to_set, Hin, elem_of_dom. split.
  - intros [i Hi]. destruct (bk_slot _ _ _ Hbk _ _ Hi) as [Hid [p Hp]%elem_of_dom].
    exists p. apply map_lookup_filter_Some. split; [done|]. apply (bk_runs _ _ _ Hbk _ _ Hp).
    by rewrite Hid, Nat2Z.id, <- Hid.
  - intros [p [Hp Hrun]%map_lookup_filter_Some]. apply (bk_runs _ _ _ Hbk _ _ Hp) in Hrun. by eexists.
Qed.

(** ** The server is stopped *)

(** How many steps the server's fiber has left once the acceptor is closed. *)
Definition main_left (mp : main_point S) : nat :=
  match mp with
  | MainIdle => 0 | MainWaitProcessors => 1 | MainAccept => 2 | MainStart | MainAcquire _ => 3
  end.

Definition is_main_acquire (mp : main_point S) : bool :=
  match mp with MainAcquire _ => true | _ => false end.

(** Without a processor which runs, each step of the fiber brings it nearer to
    its end. *)
Lemma main_ends_step sys : sys_inv limit sys → ss_stopping sys = true →
  ms_active_stream_processors_cnt (ss_server sys) = 0 → is_main_acquire (ss_main sys) = false →
  ss_main sys ≠ MainIdle →
  main_enabled sys ∧ wp (main_server_func sys) (λ '(_, sys'), sys_inv limit sys' ∧
    ss_stopping sys' = true ∧ ms_active_stream_processors_cnt (ss_server sys') = 0 ∧
    is_main_acquire (ss_main sys') = false ∧ (main_left (ss_main sys') < main_left (ss_main sys))%nat).
Proof.
  destruct sys as [srv ps mp st]. intros Hinv Hst Hcnt Hacq Hni. ms_simpl. subst st.
  pose proof (sys_main _ _ Hinv) as [Hmp Hcl]. specialize (Hcl eq_refl) as [[_ [a Ha]] Hcl].
  destruct mp; try done; ms_simpl.
  - split; [done|]. eapply wp_mono; [by apply main_start_inv|].
    intros [[] sys'] (Hinv' & Hm & Hst' & Hcnt'). rewrite Hm. split_and!; try done. cbn; lia.
  - split; [done|]. eapply wp_mono; [by apply main_accept_inv|].
    intros [[] sys'] (Hinv' & Hst' & Hcnt' & [[_ Hno]|[Hm _]]); [done|]. rewrite Hm.
    split_and!; try done; [congruence|cbn; lia].
  - destruct Hmp as (Hev & _). rewrite Hcnt in Hev. split; [done|].
    eapply wp_mono; [by apply main_wait_inv|]. intros [[] sys'] (Hinv' & Hm & Hst' & _).
    rewrite Hm. split_and!; try done; [|cbn; lia].
    pose proof (sys_main _ _ Hinv') as [Hmp' _]. rewrite Hm in Hmp'. apply Hmp'.
Qed.

#[local] Abbreviation RUN := (@ms_run _ _ _ _ _ _ _ Op _ _ _ _ _ _).

Lemma main_ends sys : sys_inv limit sys → ss_stopping sys = true →
  ms_active_stream_processors_cnt (ss_server sys) = 0 → is_main_acquire (ss_main sys) = false →
  ∃ n sys', (n <= main_left (ss_main sys))%nat ∧ RUN (replicate n MainStep) sys sys' ∧
    sys_inv limit sys' ∧ ss_stopping sys' = true ∧ ss_main sys' = MainIdle.
Proof.
  remember (main_left (ss_main sys)) as left eqn:Hleft. revert sys Hleft.
  induction left as [left IH] using lt_wf_ind. intros sys Hleft Hinv Hst Hcnt Hacq.
  destruct (decide (left = 0%nat)) as [Hz|Hnz].
  { exists 0%nat, sys. split_and!; try done; [lia|constructor|].
    destruct (ss_main sys); cbn in Hleft; (done || lia). }
  assert (ss_main sys ≠ MainIdle) as Hni by (intros Hm; by rewrite Hm in Hleft).
  destruct (main_ends_step sys Hinv Hst Hcnt Hacq Hni) as [Hen Hstep].
  destruct (main_server_func sys) as [[[] sys1]|] eqn:Heq; [|done].
  destruct Hstep as (Hinv1 & Hst1 & Hcnt1 & Hacq1 & Hless).
  destruct (IH (main_left (ss_main sys1)) ltac:(lia) sys1 eq_refl Hinv1 Hst1 Hcnt1 Hacq1)
    as (n & sys2 & Hn & Hrun & Hinv2 & Hst2 & Hm2).
  exists (Datatypes.S n), sys2. split_and!; try done; [lia|]. by econstructor.
Qed.

Lemma run_snoc ops op sys sys1 sys2 : RUN ops sys sys1 → ms_enabled op sys1 →
  ms_step op sys1 = Ret (tt, sys2) → RUN (ops ++ [op]) sys sys2.
Proof.
  induction 1 as [|o ops sys sysa sysb Hen Hstep _ IH]; intros Hen2 Hstep2.
  - econstructor; [done..|constructor].
  - cbn. econstructor; [done..|]. by apply IH.
Qed.

Lemma stop_end_enabled sys : sys_inv limit sys → ss_stopping sys = true → ss_main sys = MainIdle →
  event_is_set (ms_stop_event (ss_server sys)) = true.
Proof.
  intros Hinv Hst Hm. pose proof (sys_main _ _ Hinv) as [Hmp Hcl]. rewrite Hst, Hm in *.
  destruct (Hcl eq_refl) as [[[hd Hh] _] _]. cbn in Hmp. destruct Hmp as [_ Hmp].
  destruct (event_is_set _); [done|]. destruct Hmp as [Hno _]. congruence.
Qed.

(** ** Theorems *)

(** C12. Whatever the order of the calls of [mrpc_server_start] and
    [mrpc_server_stop], the steps of the server's fiber and the steps of its
    processors is, no assertion fails and no processor is used which does not
    exist; a server which is not started can be deleted, which deletes every
    processor of its pool and gives every id back. *)
Theorem mrpc_server_safe (sys : SYS) : 0 < limit → ms_reachable (Op := Op) limit sys →
  (∀ op : OP, ms_enabled op sys → wp (ms_step op sys) (λ _, True)) ∧
  (ms_stream_handler (ss_server sys) = None →
     wp (mrpc_server_delete sys) (λ '(_, sys'), ss_processors sys' = ∅ ∧
       alloc_view (ms_stream_processors_bitmap (ss_server sys')) limit ∅)).
Proof.
  intros Hmax Hreach. pose proof (ms_reachable_inv sys Hmax Hreach) as Hinv. split.
  - intros op Hen. eapply wp_mono; [by apply step_inv|done].
  - intros Hh. rewrite <- (sys_limit _ _ Hinv). by apply delete_spec.
Qed.

(** C13. The counter is the number of processors which run, and at most the limit;
    a processor has an id below the limit, and runs if and only if it is in the
    slot of its id; the pool has all others; nothing runs while the server is
    stopped. *)
Theorem mrpc_server_books (sys : SYS) : 0 < limit → ms_reachable (Op := Op) limit sys →
  let srv := ss_server sys in let ps := ss_processors sys in
  ms_active_stream_processors_cnt srv = Z.of_nat (size (running ps)) ∧
  ms_active_stream_processors_cnt srv <= limit ∧
  pool_busy (ms_stream_processors_pool srv) = ms_active_stream_processors_cnt srv ∧
  (∀ id p, ps !! id = Some p → 0 <= id < limit ∧ processor_get_id p = id ∧
     (processor_runs p = true ↔ ms_active_stream_processors srv !! Z.to_nat id = Some (Some id)) ∧
     (processor_runs p = false ↔ id ∈ pool_free (ms_stream_processors_pool srv))) ∧
  (ms_stream_handler srv = None → running ps = ∅).
Proof.
  intros Hmax Hreach. pose proof (ms_reachable_inv sys Hmax Hreach) as Hinv.
  pose proof Hinv as [Hbk _ Hlim]. cbn zeta. pose proof (running_size _ _ Hbk) as Hsize.
  pose proof (bk_busy _ _ _ Hbk) as Hbusy. change (zlength []) with 0 in Hbusy. split_and!; [done| |lia| |].
  - pose proof (used_slots_le (ms_active_stream_processors (ss_server sys))).
    rewrite (bk_cnt _ _ _ Hbk), <- Hlim, <- (bk_length _ _ _ Hbk). done.
  - intros id p Hp. rewrite <- Hlim. split_and!.
    1,2: by apply (books_id _ _ _ id Hbk), elem_of_dom.
    + by destruct (bk_processor _ _ _ Hbk _ _ Hp).
    + by apply (bk_runs _ _ _ Hbk).
    + rewrite (bk_free _ _ _ Hbk id : id ∈ pool_free _ ↔ _). split; [by exists p|].
      intros (q & Hq & Hqr). congruence.
  - intros Hh. destruct (stopped_inv _ Hinv Hh) as (_ & _ & _ & _ & Hcnt & _).
    apply map_size_empty_iff. lia.
Qed.

(** When the acceptor has no more connections, the server's fiber tells every
    processor which runs to stop, and then it waits for them; it does so as soon
    as it calls the acceptor after [mrpc_server_stop]. *)
Lemma mrpc_server_tells_processors (sys : SYS) : 0 < limit → ms_reachable (Op := Op) limit sys →
  ss_main sys = MainAccept →
  wp (ms_step (MainStep : OP) sys) (λ '(_, sys'),
    (ss_stopping sys = true → ss_main sys' = MainWaitProcessors) ∧
    (ss_main sys' = MainWaitProcessors → ∀ id p, ss_processors sys' !! id = Some p →
       processor_runs p = true → processor_stopping p = true)).
Proof.
  intros Hmax Hreach Hm. pose proof (ms_reachable_inv sys Hmax Hreach) as Hinv.
  destruct sys as [srv ps mp st]. ms_simpl. subst mp. cbn [ms_step].
  pose proof (sys_main _ _ Hinv) as [_ Hcl]. ms_simpl.
  eapply wp_mono; [by apply main_accept_inv|].
  intros [[] sys'] (Hinv' & _ & _ & [[[stream Hm] Hno]|[Hm Htold]]); rewrite Hm.
  - split; [|done]. intros Hst. by destruct Hno, (Hcl Hst).
  - split; [done|]. intros _ id p Hp Hrun. apply (Htold id p Hp Hrun).
    pose proof (books_id [] _ _ id (sys_books _ _ Hinv') ltac:(by apply elem_of_dom)) as [Hid _].
    rewrite (sys_limit _ _ Hinv') in Hid. pose proof (sys_limit _ _ Hinv) as Hl. ms_simpl. lia.
Qed.


(** C15. While every processor serves a client and the fiber waits for one to
    become free, [mrpc_server_stop] tells none of them to stop, and it waits, as
    the fiber does, until one of the clients goes away. *)
Theorem mrpc_server_stop_blocked (sys : SYS) stream : 0 < limit → ms_reachable (Op := Op) limit sys →
  ms_enabled (ServerStop : OP) sys → ss_main sys = MainAcquire stream →
  ms_active_stream_processors_cnt (ss_server sys) = limit →
  wp (ms_step (ServerStop : OP) sys) (λ '(_, sys'), ss_processors sys' = ss_processors sys ∧
    ¬ ms_enabled (MainStep : OP) sys' ∧ ¬ ms_enabled (ServerStopEnd : OP) sys').
Proof.
  intros Hmax Hreach [Hh Hst] Hm Hfull. pose proof (ms_reachable_inv sys Hmax Hreach) as Hinv.
  pose proof Hinv as [Hbk [Hmp _] Hlim]. rewrite Hm in Hmp. destruct Hmp as (_ & Hse & _).
  pose proof (bk_busy _ _ _ Hbk) as Hbusy. change (zlength []) with 0 in Hbusy. cbn [ms_step].
  eapply wp_mono; [by apply ms_stop_inv|].
  intros [[] sys'] (_ & _ & Hm' & Hps & Hk & Hmax' & Hse'). split_and!; [done|..].
  - cbn [ms_enabled]. unfold main_enabled. rewrite Hm', Hm, Hk, Hmax'. lia.
  - intros [_ Hset]. congruence.
Qed.

End steps.

(** ** A server with one processor *)

(** The connections which arrive, and whether the acceptor is open. *)
#[export] Instance list_acceptor {S} : FFStreamAcceptor (list S * bool) S := {
  ff_stream_acceptor_initialize a := Ret (tt, (a.1, true));
  ff_stream_acceptor_shutdown a := Ret (tt, (a.1, false));
  ff_stream_acceptor_accept a :=
    match a with
    | (stream :: l, true) => Ret (Some stream, (l, true))
    | _ => Ret (None, a)
    end;
  acceptor_open a := a.2
}.

#[export] Instance list_acceptor_spec : FFStreamAcceptorSpec (list mem_stream * bool) mem_stream.
Proof. split; try done. by intros [[|stream l] []]. Qed.

#[local] Abbreviation demo_srv :=
  (mrpc_server bool mrpc_bitmap (list Z * Z) nat nat (list mem_stream * bool)).
#[local] Abbreviation demo_processor :=
  (stream_processor (list mrpc_packet) (list (option mrpc_packet)) (list mrpc_packet * Z)
     (list nat * Z) bool mem_stream (server_part nat nat demo_srv)).
#[local] Abbreviation demo_sys :=
  (server_system bool mrpc_bitmap (list Z * Z) nat nat (list mem_stream * bool) demo_processor mem_stream).
#[local] Abbreviation demo_proc_op := (server_op nat nat demo_srv mem_stream).
#[local] Abbreviation demo_op := (@ms_op nat nat (list mem_stream * bool) demo_proc_op).

Definition demo_ms_step (sys : demo_sys) (op : demo_op) : demo_sys :=
  match ms_step op sys with Ret (_, sys') => sys' | Fault _ => sys end.

(** The processor serves the first of two clients; the second one waits. *)
Definition demo_ms_start : demo_op :=
  ServerStart 5%nat (Some 6%nat) ([MemStream [] []; MemStream [] []], false).
Definition demo_ms_busy_ops : list demo_op := [demo_ms_start; MainStep; MainStep; MainStep; MainStep].

Definition demo_ms_created : demo_sys :=
  match mrpc_server_create 1 with Ret sys => sys | Fault _ => ServerSystem
    (MrpcServer false false (MrpcBitmap [] 0 0) ([], 0) [] None None None 0 0) ∅ MainIdle false end.
Definition demo_ms_busy : demo_sys := foldl demo_ms_step demo_ms_created demo_ms_busy_ops.

(** The server is stopped at once. *)
Definition demo_ms_stopping_ops : list demo_op := [demo_ms_start; MainStep; ServerStop].
Definition demo_ms_stopping : demo_sys := foldl demo_ms_step demo_ms_created demo_ms_stopping_ops.

Ltac run_ms := eapply ms_run_cons; [|vm_compute; reflexivity|].

Lemma demo_ms_busy_reachable : ms_reachable (Op := demo_proc_op) 1 demo_ms_busy.
Proof.
  exists demo_ms_created, demo_ms_busy_ops. split; [vm_compute; reflexivity|].
  run_ms; [vm_compute; reflexivity|]. run_ms; [exact I|]. run_ms; [exact I|].
  run_ms; [vm_compute; reflexivity|]. run_ms; [exact I|].
  match goal with |- ms_run [] ?sys _ => assert (demo_ms_busy = sys) as -> by (vm_compute; reflexivity) end.
  constructor.
Qed.

Lemma demo_ms_stopping_reachable : ms_reachable (Op := demo_proc_op) 1 demo_ms_stopping.
Proof.
  exists demo_ms_created, demo_ms_stopping_ops. split; [vm_compute; reflexivity|].
  run_ms; [vm_compute; reflexivity|]. run_ms; [exact I|].
  run_ms; [vm_compute; split; [by eexists|done]|].
  match goal with |- ms_run [] ?sys _ => assert (demo_ms_stopping = sys) as -> by (vm_compute; reflexivity) end.
  constructor.
Qed.

Lemma mrpc_server_safe_witness :
  (∀ op : demo_op, ms_enabled op demo_ms_busy → wp (ms_step op demo_ms_busy) (λ _, True)) ∧
  (ms_stream_handler (ss_server demo_ms_busy) = None →
     wp (mrpc_server_delete demo_ms_busy) (λ '(_, sys'), ss_processors sys' = ∅ ∧
       alloc_view (ms_stream_processors_bitmap (ss_server sys')) 1 ∅)).
Proof. apply (mrpc_server_safe 1 demo_ms_busy); [done|exact demo_ms_busy_reachable]. Defined.

Lemma mrpc_server_books_witness :
  let srv := ss_server demo_ms_busy in let ps := ss_processors demo_ms_busy in
  ms_active_stream_processors_cnt srv = Z.of_nat (size (running ps)) ∧
  ms_active_stream_processors_cnt srv <= 1 ∧
  pool_busy (ms_stream_processors_pool srv) = ms_active_stream_processors_cnt srv ∧
  (∀ id p, ps !! id = Some p → 0 <= id < 1 ∧ processor_get_id p = id ∧
     (processor_runs p = true ↔ ms_active_stream_processors srv !! Z.to_nat id = Some (Some id)) ∧
     (processor_runs p = false ↔ id ∈ pool_free (ms_stream_processors_pool srv))) ∧
  (ms_stream_handler srv = None → running ps = ∅).
Proof. apply (mrpc_server_books 1 demo_ms_busy); [done|exact demo_ms_busy_reachable]. Defined.

Lemma mrpc_server_tells_processors_witness :
  wp (ms_step (MainStep : demo_op) demo_ms_stopping) (λ '(_, sys'),
    (ss_stopping demo_ms_stopping = true → ss_main sys' = MainWaitProcessors) ∧
    (ss_main sys' = MainWaitProcessors → ∀ id p, ss_processors sys' !! id = Some p →
       processor_runs p = true → processor_stopping p = true)).
Proof.
  apply (mrpc_server_tells_processors 1 demo_ms_stopping);
    [done|exact demo_ms_stopping_reachable|vm_compute; reflexivity].
Defined.


Lemma mrpc_server_stop_blocked_witness :
  wp (ms_step (ServerStop : demo_op) demo_ms_busy) (λ '(_, sys'),
    ss_processors sys' = ss_processors demo_ms_busy ∧
    ¬ ms_enabled (MainStep : demo_op) sys' ∧ ¬ ms_enabled (ServerStopEnd : demo_op) sys').
Proof.
  apply (mrpc_server_stop_blocked 1 demo_ms_busy (MemStream [] []));
    [done|exact demo_ms_busy_reachable|split; [by eexists|vm_compute; reflexivity]|
     vm_compute; reflexivity|vm_compute; reflexivity].
Defined.
