(* ===== verification/MrpcClient.v ===== *)
(** * The client (src/mrpc_client.c)

    The client keeps one connection to the server: its fiber connects, lets the
    stream processor process the connection until it ends, and connects again,
    until the connector is shut down.  The requests of its users go to the stream
    processor.

    The client is a client of [ClientProcessor]: the fiber of the client is the
    reader fiber of the processor while it processes a connection. *)

From S2P Require Import Prelude FF FFSync Packet PacketStream Bitmap StreamProcessor.
From S2P Require Import ProcessorInvariant ProcessorRun ClientProcessor.

(** [struct ff_stream_connector]: [ff_stream_connector_connect] returns a new
    connection, and NULL once [ff_stream_connector_shutdown] has been called. *)
Class FFStreamConnector (C S : Type) := {
  ff_stream_connector_initialize : M C unit;
  ff_stream_connector_shutdown : M C unit;
  ff_stream_connector_connect : M C (option S);
  connector_open : C → bool;
}.

Class FFStreamConnectorSpec (C S : Type) `{FFStreamConnector C S, StreamView S} : Prop := {
  ff_stream_connector_initialize_spec c :
    wp (ff_stream_connector_initialize c) (λ '(_, c'), connector_open c' = true);
  ff_stream_connector_shutdown_spec c :
    wp (ff_stream_connector_shutdown c) (λ '(_, c'), connector_open c' = false);
  ff_stream_connector_connect_spec c : wp (ff_stream_connector_connect c) (λ '(stream, c'),
    connector_open c' = connector_open c ∧
    match stream with
    | Some stream => connector_open c = true ∧ stream_inv stream ∧ writable stream
    | None => True
    end)
}.

Definition MAX_CREATE_REQUEST_STREAM_TRIES_CNT : Z := 3.

(** [struct mrpc_client] *)
Record mrpc_client (E P C : Type) := MrpcClient {
  mc_stop_event : E;
  mc_stream_processor : P;
  mc_stream_connector : option C;
}.
Arguments MrpcClient {E P C}.
Arguments mc_stop_event {E P C}.
Arguments mc_stream_processor {E P C}.
Arguments mc_stream_connector {E P C}.

(** Where the fiber of [main_client_func] is: it waits to be started, for a
    connection, or where the reader of the stream processor waits. *)
Inductive client_point := ClientIdle | ClientBegin | ClientConnect | ClientProcess.

(** The client, its fiber, whether [mrpc_client_stop] waits, how many of the
    connections it has got are not yet deleted, and the tries left to each of the
    callers which sleep in [mrpc_client_create_request_stream]. *)
Record client_fibers (E P C : Type) := ClientFibers {
  cf_client : mrpc_client E P C;
  cf_main : client_point;
  cf_stopping : bool;
  cf_connections : Z;
  cf_callers : list Z;
}.
Arguments ClientFibers {E P C}.
Arguments cf_client {E P C}.
Arguments cf_main {E P C}.
Arguments cf_stopping {E P C}.
Arguments cf_connections {E P C}.
Arguments cf_callers {E P C}.

(** ** Operations *)

Section operations.
Context {Q W K R E S B C : Type}.
Context `{FFBlockingQueue Q mrpc_packet} `{FFBlockingQueue W (option mrpc_packet)}.
Context `{FFPool K mrpc_packet} `{FFPool R nat} `{FFEvent E} `{FFStream S} `{FFConnection S}.
Context `{IdAllocator B} `{StreamView S} `{FFStreamConnector C S}.
#[local] Abbreviation SP := (stream_processor Q W K R E S B).
#[local] Abbreviation SYS := (client_fibers E SP C).

Definition cf_field {T} (f : SYS → T) : M SYS T := λ sys, Ret (f sys, sys).

Definition set_client_main (mp : client_point) : M SYS unit :=
  λ '(ClientFibers c _ st n l), Ret (tt, ClientFibers c mp st n l).
Definition set_client_stopping (st : bool) : M SYS unit :=
  λ '(ClientFibers c mp _ n l), Ret (tt, ClientFibers c mp st n l).
Definition set_connections (n : Z) : M SYS unit :=
  λ '(ClientFibers c mp st _ l), Ret (tt, ClientFibers c mp st n l).
Definition set_callers (l : list Z) : M SYS unit :=
  λ '(ClientFibers c mp st n _), Ret (tt, ClientFibers c mp st n l).
Definition set_connector (conn : option C) : M SYS unit :=
  λ '(ClientFibers (MrpcClient e sp _) mp st n l),
    Ret (tt, ClientFibers (MrpcClient e sp conn) mp st n l).

Definition on_client_event (m : M E unit) : M SYS unit :=
  λ '(ClientFibers (MrpcClient e sp conn) mp st n l),
    match m e with
    | Ret (_, e) => Ret (tt, ClientFibers (MrpcClient e sp conn) mp st n l)
    | Fault f => Fault f
    end.
Definition on_client_processor {T} (m : M SP T) : M SYS T :=
  λ '(ClientFibers (MrpcClient e sp conn) mp st n l),
    match m sp with
    | Ret (t, sp) => Ret (t, ClientFibers (MrpcClient e sp conn) mp st n l)
    | Fault f => Fault f
    end.

(** Each use of the connector follows an assertion that there is one. *)
Definition on_connector {T} (m : M C T) : M SYS T :=
  λ '(ClientFibers (MrpcClient e sp conn) mp st n l),
    match conn with
    | None => Fault AssertionFailed
    | Some c =>
        match m c with
        | Ret (t, c) => Ret (t, ClientFibers (MrpcClient e sp (Some c)) mp st n l)
        | Fault f => Fault f
        end
    end.

Definition has_connector (sys : SYS) : bool :=
  match mc_stream_connector (cf_client sys) with Some _ => true | None => false end.

(** [ff_stream_delete(stream)], of a connection. *)
Definition delete_connection : M SYS unit :=
  n ← cf_field cf_connections;
  if bool_decide (n > 0) then set_connections (n - 1) else λ _, Fault UseAfterFree.

(** [mrpc_client_stream_processor_process_stream] has returned, or its reader
    waits. *)
Definition main_client_processed : M SYS unit :=
  sp ← cf_field (λ sys, mc_stream_processor (cf_client sys));
  match sp_reader sp with
  | ReaderIdle => delete_connection;; set_client_main ClientConnect
  | _ => set_client_main ClientProcess
  end.

(** The way from one point where the fiber waits to the next one. *)
Definition main_client_func : M SYS unit :=
  point ← cf_field cf_main;
  match point with
  | ClientIdle => mret tt
  | ClientBegin =>
      set ← cf_field has_connector;
      lift (ff_assert set);;
      set_client_main ClientConnect
  | ClientConnect =>
      stream ← on_connector ff_stream_connector_connect;
      match stream with
      | None => on_client_event ff_event_set;; set_client_main ClientIdle
      | Some stream =>
          n ← cf_field cf_connections;
          set_connections (n + 1);;
          on_client_processor (process_stream_begin stream);;
          main_client_processed
      end
  | ClientProcess =>
      on_client_processor process_stream_continue;;
      main_client_processed
  end.

Definition mrpc_client_create : outcome SYS :=
  stream_processor ← mrpc_client_stream_processor_create;
  Ret (ClientFibers (MrpcClient ff_event_create stream_processor None) ClientIdle false 0 []).

Definition mrpc_client_delete : M SYS unit :=
  set ← cf_field has_connector;
  lift (ff_assert (negb set));;
  on_client_processor mrpc_client_stream_processor_delete.

Definition mrpc_client_start (stream_connector : C) : M SYS unit :=
  set ← cf_field has_connector;
  lift (ff_assert (negb set));;
  set_connector (Some stream_connector);;
  on_connector ff_stream_connector_initialize;;
  set_client_main ClientBegin.

(** [mrpc_client_stop] up to its wait, *)
Definition mrpc_client_stop : M SYS unit :=
  on_connector ff_stream_connector_shutdown;;
  on_client_processor mrpc_client_stream_processor_stop_async;;
  set_client_stopping true.

(** and from there on. *)
Definition mrpc_client_stop_end : M SYS unit :=
  on_client_event ff_event_wait;;
  set_connector None;;
  set_client_stopping false.

(** One round of the loop of [mrpc_client_create_request_stream]: its result, or
    the tries which are left while the caller sleeps. *)
Definition mrpc_client_create_request_stream (tries_cnt : Z) : M SYS (option nat + Z) :=
  stream ← on_client_processor mrpc_client_stream_processor_create_request_stream;
  match stream with
  | Some ptr => mret (inl (Some ptr))
  | None =>
      let tries_cnt := tries_cnt - 1 in
      mret (if bool_decide (tries_cnt = 0) then inl None else inr tries_cnt)
  end.

Definition mrpc_client_reset_connection : M SYS unit :=
  on_client_processor mrpc_client_stream_processor_stop_async.

(** ** Steps of the users and the fibers *)

Inductive mc_op :=
  | ClientStart (stream_connector : C)
  | ClientStop
  | ClientStopEnd
  | ResetConnection
  | CallCreate
  | CallerWakes (caller : nat)
  | UseRequest (ptr : nat) (op : stream_op)
  | ReleaseRequest (ptr : nat)
  | ClientMainStep
  | ClientWriterStep.

Definition mc_step (op : mc_op) : M SYS unit :=
  match op with
  | ClientStart stream_connector => mrpc_client_start stream_connector
  | ClientStop => mrpc_client_stop
  | ClientStopEnd => mrpc_client_stop_end
  | ResetConnection => mrpc_client_reset_connection
  | CallCreate =>
      r ← mrpc_client_create_request_stream MAX_CREATE_REQUEST_STREAM_TRIES_CNT;
      callers ← cf_field cf_callers;
      match r with inl _ => mret tt | inr tries_cnt => set_callers (callers ++ [tries_cnt]) end
  | CallerWakes caller =>
      callers ← cf_field cf_callers;
      match callers !! caller with
      | None => mret tt
      | Some tries_cnt =>
          r ← mrpc_client_create_request_stream tries_cnt;
          match r with
          | inl _ => set_callers (delete caller callers)
          | inr tries_cnt => set_callers (<[caller := tries_cnt]> callers)
          end
      end
  | UseRequest ptr op => on_client_processor (client_step (RequestOp ptr op))
  | ReleaseRequest ptr => on_client_processor (client_step (DeleteRequest ptr))
  | ClientMainStep => main_client_func
  | ClientWriterStep => on_client_processor (client_step WriterStep)
  end.

Definition sys_processor (sys : SYS) : SP := mc_stream_processor (cf_client sys).

(** The call is allowed by the headers and does not have to wait: the user starts
    a client which is stopped and stops it once; request streams are used as
    [client_enabled] says. *)
Definition mc_enabled (op : mc_op) (sys : SYS) : Prop :=
  let sp := sys_processor sys in
  match op with
  | ClientStart _ => has_connector sys = false
  | ClientStop => has_connector sys = true ∧ cf_stopping sys = false
  | ClientStopEnd => cf_stopping sys = true ∧ event_is_set (mc_stop_event (cf_client sys)) = true
  | ResetConnection => True
  | CallCreate => client_enabled CreateRequest sp
  | CallerWakes caller => (caller < length (cf_callers sys))%nat ∧ client_enabled CreateRequest sp
  | UseRequest ptr op => client_enabled (RequestOp ptr op) sp
  | ReleaseRequest ptr => client_enabled (DeleteRequest ptr) sp
  | ClientMainStep =>
      match cf_main sys with
      | ClientIdle => False
      | ClientBegin | ClientConnect => True
      | ClientProcess => reader_enabled sp
      end
  | ClientWriterStep => writer_enabled sp
  end.

Inductive mc_run : list mc_op → SYS → SYS → Prop :=
  | mc_run_nil sys : mc_run [] sys sys
  | mc_run_cons op ops sys sys1 sys2 :
      mc_enabled op sys → mc_step op sys = Ret (tt, sys1) → mc_run ops sys1 sys2 →
      mc_run (op :: ops) sys sys2.

Definition mc_reachable (sys : SYS) : Prop :=
  ∃ sys0 ops, mrpc_client_create = Ret sys0 ∧ mc_run ops sys0 sys.
End operations.
Arguments mc_op : clear implicits.

(** ** Calls on the parts of the client *)

Section processor_calls.
Context {Q W K R E S B C : Type}.
#[local] Abbreviation SP := (stream_processor Q W K R E S B).
#[local] Abbreviation SYS := (client_fibers E SP C).

Lemma wp_cf_field {T} (f : SYS → T) sys (R' : T * SYS → Prop) :
  wp (cf_field f sys) R' ↔ R' (f sys, sys).
Proof. done. Qed.

Lemma wp_on_client_processor {T} (m : M SP T) e sp conn mp st n l (R' : T * SYS → Prop) :
  wp (m sp) (λ r, R' (r.1, ClientFibers (MrpcClient e (r.2) conn) mp st n l)) →
  wp (on_client_processor m (ClientFibers (MrpcClient e sp conn) mp st n l)) R'.
Proof. unfold on_client_processor. by destruct (m sp) as [[t sp']|]. Qed.

Lemma wp_on_client_event m e (sp : SP) (conn : option C) mp st n l (R' : unit * SYS → Prop) :
  wp (m e) (λ r, R' (tt, ClientFibers (MrpcClient (r.2) sp conn) mp st n l)) →
  wp (on_client_event m (ClientFibers (MrpcClient e sp conn) mp st n l)) R'.
Proof. unfold on_client_event. by destruct (m e) as [[[] e']|]. Qed.

Lemma wp_on_connector {T} (m : M C T) e (sp : SP) c mp st n l (R' : T * SYS → Prop) :
  wp (m c) (λ r, R' (r.1, ClientFibers (MrpcClient e sp (Some (r.2))) mp st n l)) →
  wp (on_connector m (ClientFibers (MrpcClient e sp (Some c)) mp st n l)) R'.
Proof. unfold on_connector. by destruct (m c) as [[t c']|]. Qed.
End processor_calls.

Ltac mc_simpl := cbn [fst snd mc_stop_event mc_stream_processor mc_stream_connector cf_client
  cf_main cf_stopping cf_connections cf_callers has_connector sys_processor] in *.

Ltac mc_step1 :=
  lazymatch goal with
  | |- wp (cf_field _ _) _ => rewrite wp_cf_field
  | |- wp (on_client_processor _ (ClientFibers (MrpcClient _ _ _) _ _ _ _)) _ =>
      apply wp_on_client_processor
  | |- wp (on_client_event _ _) _ => apply wp_on_client_event
  | |- wp (on_connector _ (ClientFibers (MrpcClient _ _ (Some _)) _ _ _ _)) _ => apply wp_on_connector
  | |- wp (set_client_main _ _) _ => cbn [wp set_client_main]
  | |- wp (set_client_stopping _ _) _ => cbn [wp set_client_stopping]
  | |- wp (set_connections _ _) _ => cbn [wp set_connections]
  | |- wp (set_callers _ _) _ => cbn [wp set_callers]
  | |- wp (set_connector _ _) _ => cbn [wp set_connector]
  | |- _ => wp_step
  end; mc_simpl.
Ltac mc_steps := repeat mc_step1.

(** ** The invariant *)

Section invariant.
Context {Q W K R E S B C : Type}.
Context `{FFBlockingQueueSpec Q mrpc_packet} `{FFBlockingQueueSpec W (option mrpc_packet)}.
Context `{FFPoolSpec K mrpc_packet} `{FFPoolSpec R nat} `{FFEventSpec E}.
Context `{FFStreamSpec S} `{!FFConnection S} `{!FFConnectionSpec S}.
Context `{IdAllocatorSpec B} `{FFStreamConnector C S} `{!FFStreamConnectorSpec C S}.
#[local] Abbreviation SP := (stream_processor Q W K R E S B).
#[local] Abbreviation SYS := (client_fibers E SP C).
Implicit Types (sp : SP) (sys : SYS).

Definition processor_ok sp : Prop := ∃ sessions pending, client_inv sessions pending sp.

Definition is_idle sp : bool := match sp_reader sp with ReaderIdle => true | _ => false end.

(** What the point at which the client's fiber waits says about the client. *)
Definition client_main_ok (mp : client_point) (set : bool) (conn : option C) (idle : bool) (n : Z) : Prop :=
  match mp with
  | ClientIdle => idle = true ∧ n = 0 ∧ (if set then is_Some conn else conn = None)
  | ClientBegin | ClientConnect => idle = true ∧ n = 0 ∧ set = false ∧ is_Some conn
  | ClientProcess => idle = false ∧ n = 1 ∧ set = false ∧ is_Some conn
  end.

Record mc_inv sys : Prop := {
  mc_processor : processor_ok (sys_processor sys);
  mc_main : client_main_ok (cf_main sys) (event_is_set (mc_stop_event (cf_client sys)))
    (mc_stream_connector (cf_client sys)) (is_idle (sys_processor sys)) (cf_connections sys);
  mc_stops : cf_stopping sys = true →
    ∃ c, mc_stream_connector (cf_client sys) = Some c ∧ connector_open c = false;
  mc_callers : Forall (λ tries, 1 <= tries < MAX_CREATE_REQUEST_STREAM_TRIES_CNT) (cf_callers sys)
}.

(** ** Steps of the processor *)

Lemma is_idle_true sp : is_idle sp = true ↔ sp_reader sp = ReaderIdle.
Proof. unfold is_idle. by destruct (sp_reader sp). Qed.

Lemma processor_step_ok op sp : processor_ok sp → client_enabled op sp →
  wp (client_step op sp) (λ '(_, sp'), processor_ok sp' ∧ reader_ends sp sp').
Proof.
  intros (sessions & pending & Hinv) Hen.
  eapply wp_mono; [exact (system_step_spec _ _ _ _ Hinv Hen)|].
  intros [[] sp'] (sessions' & pending' & new & gone & Hinv' & Hend & _).
  split; [by exists sessions', pending'|exact Hend].
Qed.

(** A step which is not one of the reader fiber. *)
Definition is_user_step (op : client_op S) : bool :=
  match op with ProcessStream _ | ReaderStep => false | _ => true end.

(** A processor without active request streams which does not work. *)
Lemma quiet_user_step op sp : processor_ok sp → client_enabled op sp → is_user_step op = true →
  sp_reader sp = ReaderIdle ∨ sp_reader sp = ReaderWaitWriter →
  wp (client_step op sp) (λ '(_, sp'), sp_reader sp' = sp_reader sp).
Proof.
  intros (sessions & pending & Hinv & Hns & Hids) Hen Hop Hrd.
  pose proof (inv_reader _ _ _ Hinv) as Hr.
  assert (sp_active_request_streams_cnt sp = 0 ∧ sp_state sp ≠ STATE_WORKING) as [Hcnt Hst].
  { destruct Hrd as [Hrd|Hrd]; rewrite Hrd in Hr; cbn in Hr; destruct_and?; (split; [done|congruence || done]). }
  assert (∀ i ptr, sp_active_request_streams sp !! i ≠ Some (Some ptr)) as Hno.
  { intros i ptr Hi. pose proof (registry_cnt_pos _ _ _ _ _ _ _ (inv_registry _ _ _ Hinv) Hi). lia. }
  destruct op as [|ptr op|ptr| | | |]; try done; cbn [client_step].
  - destruct sp. unfold mrpc_client_stream_processor_create_request_stream. cbn in Hst. sp_steps.
    rewrite bool_decide_eq_false_2 by done. by sp_steps.
  - destruct Hen as (_ & i & rs & [Hi _] & _). by destruct (Hno i ptr).
  - destruct Hen as [i Hi]. by destruct (Hno i ptr).
  - destruct Hrd as [Hrd|Hrd]; rewrite Hrd in Hr; destruct sp as [wq we rp re kp act st cnt s b h rd wr];
      cbn in *; destruct_and?; simplify_eq; unfold mrpc_client_stream_processor_stop_async,
      assert_no_request_streams; sp_steps; [destruct s; [done|by sp_steps|by sp_steps]|done].
  - eapply wp_mono; [by apply (writer_step_spec mrpc_client_stream_processor_stop_async sessions pending)|].
    by intros [[] sp'] (? & ? & _ & (_ & _ & _ & _ & _ & Hrd' & _) & _).
Qed.
Lemma user_step_ok op sp : processor_ok sp → client_enabled op sp → is_user_step op = true →
  wp (client_step op sp) (λ '(_, sp'), processor_ok sp' ∧ is_idle sp' = is_idle sp).
Proof.
  intros Hok Hen Hop. pose proof (processor_step_ok op sp Hok Hen) as Hstep.
  assert ((sp_reader sp = ReaderIdle ∨ sp_reader sp = ReaderWaitWriter) ∨
    (sp_reader sp ≠ ReaderIdle ∧ sp_reader sp ≠ ReaderWaitWriter)) as [Hq|[Hni Hnw]]
    by (destruct (sp_reader sp); first [by left; auto|by right]).
  { pose proof (quiet_user_step op sp Hok Hen Hop Hq) as Hrd.
    destruct (client_step op sp) as [[[] sp']|]; [|done]. destruct Hstep as [Hok' _].
    split; [done|]. unfold is_idle. by rewrite Hrd. }
  eapply wp_mono; [exact Hstep|]. intros [[] sp'] [Hok' Hend]. split; [done|].
  destruct (is_idle sp') eqn:Hi'.
  - apply is_idle_true in Hi'. by destruct (Hend Hi').
  - symmetry. apply not_true_iff_false. by rewrite is_idle_true.
Qed.

Lemma mc_user_inv (m : M SP unit) op sys : mc_inv sys → client_enabled op (sys_processor sys) →
  is_user_step op = true → (∀ R', wp (client_step op (sys_processor sys)) R' →
    wp (m (sys_processor sys)) R') →
  wp (on_client_processor m sys) (λ '(_, sys'), mc_inv sys').
Proof.
  destruct sys as [[e sp conn] mp st n l]. intros [Hok Hmain Hst Hl] Hen Hop Hm. mc_simpl.
  mc_steps. apply Hm. eapply wp_mono; [by apply user_step_ok|]. intros [[] sp'] [Hok' Hidle].
  mc_simpl. split; mc_simpl; try done. by rewrite Hidle.
Qed.

(** ** The fiber of the client *)

(** The reader has made a step; [idle] tells whether it has returned. *)
Lemma processed_inv e sp conn mp st l : processor_ok sp → event_is_set e = false → is_Some conn →
  (st = true → ∃ c, conn = Some c ∧ connector_open c = false) →
  Forall (λ tries, 1 <= tries < MAX_CREATE_REQUEST_STREAM_TRIES_CNT) l →
  wp (main_client_processed (ClientFibers (MrpcClient e sp conn) mp st 1 l)) (λ '(_, sys'),
    mc_inv sys' ∧ sys_processor sys' = sp ∧ cf_stopping sys' = st ∧
    cf_main sys' = (if is_idle sp then ClientConnect else ClientProcess) ∧
    cf_connections sys' = (if is_idle sp then 0 else 1) ∧ mc_stream_connector (cf_client sys') = conn).
Proof.
  intros Hok He Hc Hst Hl. unfold main_client_processed, delete_connection. mc_steps.
  destruct (sp_reader sp) eqn:Hrd;
    (assert (is_idle sp = match sp_reader sp with ReaderIdle => true | _ => false end) as Hidle by done;
     rewrite Hrd in Hidle; rewrite Hidle; mc_steps; (split; [|done]); split; mc_simpl; try done;
     cbn; by rewrite He, Hidle).
Qed.

Definition main_enabled sys : Prop :=
  match cf_main sys with
  | ClientIdle => False
  | ClientBegin | ClientConnect => True
  | ClientProcess => reader_enabled (sys_processor sys)
  end.

Lemma connect_inv e sp c st n l :
  mc_inv (ClientFibers (MrpcClient e sp (Some c)) ClientConnect st n l) →
  wp (main_client_func (ClientFibers (MrpcClient e sp (Some c)) ClientConnect st n l)) (λ '(_, sys'),
    mc_inv sys' ∧ cf_stopping sys' = st ∧ (connector_open c = false → cf_main sys' = ClientIdle ∧
      sys_processor sys' = sp)).
Proof.
  intros [Hok Hmain Hst Hl]. mc_simpl. destruct Hmain as (Hidle & -> & He & Hc).
  unfold main_client_func. mc_steps.
  eapply wp_mono; [apply ff_stream_connector_connect_spec|].
  intros [[stream|] c'] [Hopen Hs]; mc_simpl; mc_steps.
  - destruct Hs as (Ho & Hsi & Hsw). apply is_idle_true in Hidle.
    eapply wp_mono; [apply (processor_step_ok (ProcessStream stream)); [done|by split]|].
    intros [[] sp'] [Hok' _]. mc_steps. eapply wp_mono; [apply processed_inv; try done|].
    + intros Hs. destruct (Hst Hs) as (? & [= <-] & ?). congruence.
    + intros [[] sys'] (Hinv & _ & Hst' & _). split_and!; [done..|congruence].
  - eapply wp_mono; [apply ff_event_set_spec|]. intros [[] e'] He'. mc_steps.
    split_and!; [|done..]. split; mc_simpl; try done.
    + cbn. by rewrite He'.
    + intros Hs'. destruct (Hst Hs') as (? & [= <-] & ?). exists c'. split; [done|congruence].
Qed.

Lemma process_inv sys : mc_inv sys → cf_main sys = ClientProcess → reader_enabled (sys_processor sys) →
  wp (main_client_func sys) (λ '(_, sys'), mc_inv sys' ∧ cf_stopping sys' = cf_stopping sys ∧
    client_step ReaderStep (sys_processor sys) = Ret (tt, sys_processor sys') ∧
    cf_main sys' = (if is_idle (sys_processor sys') then ClientConnect else ClientProcess)).
Proof.
  destruct sys as [[e sp conn] mp st n l]. intros [Hok Hmain Hst Hl] Hmp Hen. mc_simpl. subst mp.
  destruct Hmain as (Hidle & -> & He & Hc). unfold main_client_func. mc_steps.
  pose proof (processor_step_ok ReaderStep sp Hok Hen) as Hstep. cbn [client_step] in *.
  destruct (process_stream_continue sp) as [[[] sp']|] eqn:Heq; [|done]. destruct Hstep as [Hok' _].
  cbn [wp]. mc_simpl. eapply wp_mono; [by apply processed_inv|].
  intros [[] sys'] (Hinv & Hsp & Hst' & Hm & _). subst sp'. by split_and!.
Qed.

Lemma mc_main_inv sys : mc_inv sys → main_enabled sys →
  wp (main_client_func sys) (λ '(_, sys'), mc_inv sys' ∧ cf_stopping sys' = cf_stopping sys).
Proof.
  intros Hinv Hen. unfold main_enabled in Hen. destruct (cf_main sys) eqn:Hm; [done|..].
  - destruct sys as [[e sp conn] mp st n l]. destruct Hinv as [Hok Hmain Hst Hl]. mc_simpl. subst mp.
    destruct Hmain as (Hidle & -> & He & [c ->]). unfold main_client_func. mc_steps.
    split; [|done]. by split.
  - destruct sys as [[e sp conn] mp st n l]. pose proof (mc_main _ Hinv) as Hmain. mc_simpl. subst mp.
    destruct Hmain as (_ & _ & _ & [c ->]). eapply wp_mono; [by apply connect_inv|]. intros [[] sys'] ?. by destruct_and?.
  - eapply wp_mono; [by apply process_inv|]. intros [[] sys'] ?. by destruct_and?.
Qed.

(** ** The calls of the users *)

Lemma begin_has_connector sys : mc_inv sys → cf_main sys = ClientBegin → has_connector sys = true.
Proof.
  intros [_ Hmain _ _] Hm. rewrite Hm in Hmain. destruct Hmain as (_ & _ & _ & [c Hc]).
  unfold has_connector. by rewrite Hc.
Qed.

Lemma stopping_has_connector sys : mc_inv sys → cf_stopping sys = true → has_connector sys = true.
Proof. intros [_ _ Hst _] Hs. destruct (Hst Hs) as (c & Hc & _). unfold has_connector. by rewrite Hc. Qed.

Lemma create_client_inv :
  wp (mrpc_client_create : outcome SYS) (λ sys, mc_inv sys ∧ has_connector sys = false).
Proof.
  unfold mrpc_client_create. wp_steps. eapply wp_mono; [apply create_client_spec|].
  intros sp (Hinv & Hrd & _). wp_steps. split; [|done]. split; mc_simpl; try done.
  - by eexists _, _.
  - rewrite ff_event_create_spec. cbn. by rewrite (proj2 (is_idle_true sp) Hrd).
Qed.

Lemma client_start_inv c sys : mc_inv sys → has_connector sys = false →
  wp (mrpc_client_start c sys) (λ '(_, sys'), mc_inv sys' ∧ cf_main sys' = ClientBegin ∧
    sys_processor sys' = sys_processor sys ∧ cf_stopping sys' = false).
Proof.
  destruct sys as [[e sp conn] mp st n l]. intros [Hok Hmain Hst Hl] Hc. mc_simpl.
  destruct conn as [c0|]; [done|]. assert (st = false) as -> by (destruct st; [by destruct (Hst eq_refl) as (? & [=] & _)|done]).
  unfold mrpc_client_start. mc_steps.
  eapply wp_mono; [apply ff_stream_connector_initialize_spec|]. intros [[] c'] _. mc_steps.
  split; [|done]. split; mc_simpl; try done.
  destruct mp; cbn in Hmain; destruct_and?; try by match goal with H : is_Some None |- _ => destruct H end.
  destruct (event_is_set e); [by match goal with H : is_Some None |- _ => destruct H end|]. by split_and!.
Qed.

Lemma client_stop_inv sys : mc_inv sys → has_connector sys = true →
  wp (mrpc_client_stop sys) (λ '(_, sys'), mc_inv sys' ∧ cf_stopping sys' = true ∧
    cf_main sys' = cf_main sys ∧
    client_step StopProcessor (sys_processor sys) = Ret (tt, sys_processor sys')).
Proof.
  destruct sys as [[e sp conn] mp st n l]. intros [Hok Hmain Hst Hl] Hc. mc_simpl.
  destruct conn as [c|]; [|done]. unfold mrpc_client_stop. mc_steps.
  eapply wp_mono; [apply ff_stream_connector_shutdown_spec|]. intros [[] c'] Hcl. mc_steps.
  pose proof (user_step_ok StopProcessor sp Hok I eq_refl) as Hstep. cbn [client_step] in *.
  destruct (mrpc_client_stream_processor_stop_async sp) as [[[] sp']|]; [|done].
  destruct Hstep as [Hok' Hidle]. cbn [wp]. mc_steps. split; [|done]. split; mc_simpl; try done.
  - rewrite Hidle. destruct mp; cbn in *; destruct_and?; split_and?; try done. by destruct (event_is_set e).
  - intros _. by exists c'.
Qed.

Lemma client_stop_end_inv sys : mc_inv sys → cf_stopping sys = true →
  event_is_set (mc_stop_event (cf_client sys)) = true →
  wp (mrpc_client_stop_end sys) (λ '(_, sys'), mc_inv sys' ∧ cf_main sys = ClientIdle ∧
    has_connector sys' = false ∧ sys_processor sys' = sys_processor sys ∧ cf_stopping sys' = false).
Proof.
  destruct sys as [[e sp conn] mp st n l]. intros [Hok Hmain Hst Hl] Hs Hset. mc_simpl.
  rewrite Hset in Hmain. assert (mp = ClientIdle) as -> by (destruct mp; cbn in Hmain; destruct_and?; done).
  unfold mrpc_client_stop_end. mc_steps. eapply wp_mono; [by apply ff_event_wait_spec|].
  intros [[] e'] He'. mc_steps. split; [|done]. split; mc_simpl; try done.
  destruct Hmain as (Hidle & -> & _). cbn. by rewrite He'.
Qed.

Lemma idle_of_stopped sys : mc_inv sys → has_connector sys = false →
  cf_main sys = ClientIdle ∧ is_idle (sys_processor sys) = true ∧ cf_connections sys = 0 ∧
  cf_stopping sys = false.
Proof.
  destruct sys as [[e sp conn] mp st n l]. intros [Hok Hmain Hst Hl] Hc. mc_simpl.
  destruct conn as [c0|]; [done|]. assert (st = false) as -> by (destruct st; [by destruct (Hst eq_refl) as (? & [=] & _)|done]).
  destruct mp; cbn in Hmain; destruct_and?; try (by match goal with H : is_Some None |- _ => destruct H end).
  by split_and!.
Qed.

Lemma client_delete_inv sys : mc_inv sys → has_connector sys = false →
  wp (mrpc_client_delete sys) (λ _, True).
Proof.
  intros Hinv Hc. destruct (idle_of_stopped sys Hinv Hc) as (_ & Hidle%is_idle_true & _).
  pose proof (mc_processor _ Hinv) as (sessions & pending & Hcinv).
  destruct sys as [[e sp conn] mp st n l]. mc_simpl. unfold mrpc_client_delete. mc_steps; [by rewrite Hc|].
  eapply wp_mono; [by eapply client_delete_spec|done].
Qed.

(** The result of one try: a request stream, if and only if the processor works. *)
Lemma create_try_spec tries sys : mc_inv sys → 1 <= tries <= MAX_CREATE_REQUEST_STREAM_TRIES_CNT →
  client_enabled CreateRequest (sys_processor sys) →
  wp (mrpc_client_create_request_stream tries sys) (λ '(r, sys'), mc_inv sys' ∧
    cf_callers sys' = cf_callers sys ∧ cf_main sys' = cf_main sys ∧
    match r with
    | inl (Some ptr) => sp_state (sys_processor sys) = STATE_WORKING ∧
        ∃ i, sp_active_request_streams (sys_processor sys) !! i = Some None ∧
          sp_active_request_streams (sys_processor sys') =
            <[i := Some ptr]> (sp_active_request_streams (sys_processor sys))
    | inl None => sp_state (sys_processor sys) ≠ STATE_WORKING ∧ tries = 1 ∧ sys' = sys
    | inr rest => sp_state (sys_processor sys) ≠ STATE_WORKING ∧ rest = tries - 1 ∧ 1 <= rest ∧ sys' = sys
    end).
Proof.
  destruct sys as [[e sp conn] mp st n l]. intros Hinv Htries Hen. pose proof Hinv as [Hok Hmain Hst Hl]. mc_simpl.
  unfold mrpc_client_create_request_stream. mc_steps. destruct (Hok) as (sessions & pending & Hcinv).
  destruct sp as [wq we rp re kp act s' cnt s b h rd wr]. cbn in Hen. sp_simpl_all.
  unfold mrpc_client_stream_processor_create_request_stream. sp_step. sp_step.
  destruct (decide (s = STATE_WORKING)) as [->|Hs].
  - rewrite bool_decide_eq_true_2 by done. unfold create_request_stream_wrapper. sp_steps.
    eapply wp_mono; [apply (acquire_request_stream_spec sessions pending); auto|].
    intros [ptr sp'] (rp' & re' & kp' & b' & h' & id & -> & Hslot & Hinv'). sp_steps. mc_steps.
    split_and!; try done; [|by exists (slot_of id)]. split; mc_simpl; try done. by eexists _, _.
  - rewrite bool_decide_eq_false_2 by done. sp_step. mc_steps.
    case_bool_decide as Ht; cbn; split_and!; try done; lia.
Qed.
(** ** Runs *)

#[local] Abbreviation OP := (mc_op C).

Lemma callers_ok sys l : mc_inv sys → Forall (λ tries, 1 <= tries < MAX_CREATE_REQUEST_STREAM_TRIES_CNT) l →
  wp (set_callers l sys) (λ '(_, sys'), mc_inv sys').
Proof. destruct sys as [[e sp conn] mp st n l0]. intros [Hok Hmain Hst Hl] Hl'. mc_steps. by split. Qed.

Lemma call_create_inv sys : mc_inv sys → client_enabled CreateRequest (sys_processor sys) →
  wp (mc_step (CallCreate : OP) sys) (λ '(_, sys'), mc_inv sys').
Proof.
  intros Hinv Hen. cbn [mc_step]. wp_step. eapply wp_mono; [by apply create_try_spec|].
  intros [r sys'] (Hinv' & Hl & _ & Hr). cbn [fst snd]. mc_step1. mc_step1.
  destruct r as [[ptr|]|rest]; [by mc_steps..|]. apply callers_ok; [done|].
  destruct Hr as (_ & -> & ? & _). apply Forall_app. split; [apply Hinv'|]. by repeat constructor.
Qed.

Lemma caller_wakes_inv caller sys : mc_inv sys → (caller < length (cf_callers sys))%nat →
  client_enabled CreateRequest (sys_processor sys) →
  wp (mc_step (CallerWakes caller : OP) sys) (λ '(_, sys'), mc_inv sys').
Proof.
  intros Hinv Hlt Hen. cbn [mc_step]. mc_step1. mc_step1.
  destruct (cf_callers sys !! caller) as [tries|] eqn:Ht; [|by mc_steps].
  pose proof (mc_callers _ Hinv) as Hall. rewrite Forall_lookup in Hall. pose proof (Hall _ _ Ht) as Htries.
  cbn in Htries. wp_step. eapply wp_mono; [apply create_try_spec; [done|lia|done]|].
  intros [r sys'] (Hinv' & Hl & _ & Hr). cbn [fst snd]. pose proof (mc_callers _ Hinv') as Hall'.
  rewrite Hl in Hall'. destruct r as [r|rest]; (apply callers_ok; [done|]).
  - rewrite delete_take_drop. apply Forall_app. split; [by apply Forall_take|by apply Forall_drop].
  - destruct Hr as (_ & -> & ? & _). by apply Forall_insert; [|lia].
Qed.

Lemma mc_step_inv op sys : mc_inv sys → mc_enabled op sys →
  wp (mc_step (op : OP) sys) (λ '(_, sys'), mc_inv sys').
Proof.
  intros Hinv Hen. destruct op as [c| | | | |caller|ptr op|ptr| |].
  - eapply wp_mono; [by apply client_start_inv|]. by intros [[] sys'] [? _].
  - destruct Hen as [Hc _]. eapply wp_mono; [by apply client_stop_inv|]. by intros [[] sys'] [? _].
  - destruct Hen as [Hst Hset]. eapply wp_mono; [by apply client_stop_end_inv|]. by intros [[] sys'] [? _].
  - by apply (mc_user_inv _ StopProcessor).
  - by apply call_create_inv.
  - destruct Hen. by apply caller_wakes_inv.
  - by apply (mc_user_inv _ (RequestOp ptr op)).
  - by apply (mc_user_inv _ (DeleteRequest ptr)).
  - eapply wp_mono; [by apply mc_main_inv|]. by intros [[] sys'] [? _].
  - by apply (mc_user_inv _ WriterStep).
Qed.

Lemma mc_run_inv ops sys sys' : mc_run ops sys sys' → mc_inv sys → mc_inv sys'.
Proof.
  induction 1 as [|op ops sys sys1 sys2 Hen Hstep _ IH]; [done|]. intros Hinv. apply IH.
  pose proof (mc_step_inv op sys Hinv Hen) as Hs. by rewrite Hstep in Hs.
Qed.

Lemma mc_reachable_inv sys : mc_reachable sys → mc_inv sys.
Proof.
  intros (sys0 & ops & Hcreate & Hrun). eapply mc_run_inv; [done|].
  pose proof create_client_inv as Hc. rewrite Hcreate in Hc. apply Hc.
Qed.

(** ** The end of the client *)

Definition is_client_fiber (op : OP) : Prop := op = ClientMainStep ∨ op = ClientWriterStep.

(** The fiber does not wait for packets of the server any more. *)
Definition client_ending sys : Prop :=
  match cf_main sys with ClientProcess => is_closing (sys_processor sys) | _ => True end.

Definition client_work_left sys : nat :=
  match cf_main sys with
  | ClientIdle => 0
  | ClientConnect => 1
  | ClientBegin => 2
  | ClientProcess => Datatypes.S (work_left (sys_processor sys))
  end.

Lemma idle_no_writer sp : processor_ok sp → is_idle sp = true → ¬ writer_enabled sp.
Proof.
  intros (sessions & pending & Hinv) Hidle%is_idle_true Hen.
  by apply (stopped_no_fiber_step (ProcessorSystem0 := client_system) sessions pending WriterStep sp
    Hinv Hidle); [right|].
Qed.

Definition ending sys : Prop :=
  mc_inv sys ∧ cf_stopping sys = true ∧ client_ending sys ∧
  sp_active_request_streams_cnt (sys_processor sys) = 0.

(** The fibers while the processor closes. *)
Lemma closing_step op sys : ending sys → cf_main sys = ClientProcess →
  is_client_fiber op → mc_enabled op sys →
  wp (mc_step op sys) (λ '(_, sys'), ending sys' ∧ (client_work_left sys' < client_work_left sys)%nat).
Proof.
  intros (Hinv & Hst & Hcl & Hcnt) Hm Hop Hen. unfold client_ending in Hcl. rewrite Hm in Hcl.
  destruct (mc_processor _ Hinv) as (sessions & pending & Hcinv).
  unfold client_work_left at 2. rewrite Hm. destruct Hop as [-> | ->].
  - cbn [mc_enabled] in Hen. rewrite Hm in Hen. cbn [mc_step].
    pose proof (fiber_step_work (ProcessorSystem0 := client_system) sessions pending ReaderStep _ Hcinv Hcl
      ltac:(by left) Hen) as Hwork.
    cbn [system_step client_system] in Hwork.
    eapply wp_mono; [by apply process_inv|]. intros [[] sys'] (Hinv' & Hst' & Heq & Hm').
    rewrite Heq in Hwork. destruct Hwork as (Hlt & Hcnt' & Hend). cbn [snd] in *.
    unfold ending, client_ending, client_work_left. rewrite Hm', Hst', Hcnt'.
    destruct (is_idle (sys_processor sys')) eqn:Hi; (split; [split_and!; try done|lia]).
    destruct Hend as [Hend|[Hend _]]; [done|]. by apply is_idle_true in Hend; rewrite Hi in Hend.
  - pose proof (mc_step_inv _ _ Hinv Hen) as Hinv'. cbn [mc_step mc_enabled] in *.
    pose proof (fiber_step_work (ProcessorSystem0 := client_system) sessions pending WriterStep _ Hcinv Hcl
      ltac:(by right) Hen) as Hwork.
    pose proof (user_step_ok WriterStep _ (mc_processor _ Hinv) Hen eq_refl) as Hidle.
    cbn [system_step client_system] in Hwork.
    destruct sys as [[e sp conn] mp st n l]. mc_simpl. unfold on_client_processor in *.
    destruct (client_step WriterStep sp) as [[[] sp']|]; [|done]. cbn [wp snd] in *.
    destruct Hwork as (Hlt & Hcnt' & Hend), Hidle as [_ Hidle].
    unfold ending, client_ending, client_work_left. mc_simpl. subst mp.
    split; [split_and!; try done; [|congruence]|lia].
    destruct Hend as [Hend|[Hend _]]; [done|]. apply is_idle_true in Hend.
    pose proof (mc_main _ Hinv) as (Hi & _). mc_simpl. congruence.
Qed.

(** The fiber while no connection is processed. *)
Lemma connecting_step sys : ending sys → cf_main sys ≠ ClientProcess → mc_enabled (ClientMainStep : OP) sys →
  wp (main_client_func sys) (λ '(_, sys'), ending sys' ∧ (client_work_left sys' < client_work_left sys)%nat).
Proof.
  intros (Hinv & Hst & Hcl & Hcnt) Hm Hen. cbn [mc_enabled] in Hen.
  destruct sys as [[e sp conn] mp st n l]. mc_simpl. subst st. unfold client_work_left at 2. cbn [cf_main].
  pose proof (mc_stops _ Hinv eq_refl) as (c & Hc & Hopen). mc_simpl. subst conn. destruct mp; try done.
  - pose proof (mc_main_inv _ Hinv I) as Hstep. unfold main_client_func in *. mc_steps.
    rewrite wp_M_bind in Hstep. cbn in Hstep. destruct Hstep as [Hinv' _].
    split; [by split_and!|unfold client_work_left; cbn; lia].
  - eapply wp_mono; [by apply connect_inv|]. intros [[] sys'] (Hinv' & Hst' & Hm').
    destruct (Hm' Hopen) as [Hm1 Hsp]. unfold ending, client_ending, client_work_left. rewrite Hm1, Hsp.
    split; [by split_and!|lia].
Qed.

Lemma ending_step op sys : ending sys → is_client_fiber op → mc_enabled op sys →
  wp (mc_step op sys) (λ '(_, sys'), ending sys' ∧ (client_work_left sys' < client_work_left sys)%nat).
Proof.
  intros Hend Hop Hen. assert (cf_main sys = ClientProcess ∨ cf_main sys ≠ ClientProcess) as [Hm|Hm]
    by (destruct (cf_main sys); auto); [by apply closing_step|].
  destruct Hop as [-> | ->]; [by apply connecting_step|]. destruct Hend as [[Hok Hmain _ _] _].
  destruct (idle_no_writer (sys_processor sys)); [done| |exact Hen].
  destruct (cf_main sys); [by destruct Hmain..|done].
Qed.

(** As long as the fiber has not ended, one of the fibers can go on. *)
Lemma ending_not_stuck sys : ending sys → cf_main sys ≠ ClientIdle →
  mc_enabled (ClientMainStep : OP) sys ∨ mc_enabled (ClientWriterStep : OP) sys.
Proof.
  intros (Hinv & Hst & Hcl & Hcnt) Hm. cbn [mc_enabled]. unfold client_ending in Hcl.
  destruct (mc_processor _ Hinv) as (sessions & pending & Hcinv).
  destruct (cf_main sys); [done|by left..|].
  exact (closing_not_stuck (ProcessorSystem0 := client_system) sessions pending _ Hcinv Hcl Hcnt).
Qed.

Lemma run_ending ops sys sys' : mc_run ops sys sys' → ending sys → Forall is_client_fiber ops →
  ending sys' ∧ (length ops + client_work_left sys' <= client_work_left sys)%nat.
Proof.
  induction 1 as [|op ops sys sys1 sys2 Hen Hstep _ IH]; intros Hend Hops; [by split; [|cbn; lia]|].
  apply Forall_cons in Hops as [Hop Hops]. pose proof (ending_step op sys Hend Hop Hen) as Hs.
  rewrite Hstep in Hs. destruct Hs as [Hend1 Hlt]. destruct (IH Hend1 Hops) as [Hend2 Hle].
  split; [done|cbn [length]; lia].
Qed.

(** ** Stopping a client which has no connection *)

Lemma stop_idle sp : processor_ok sp → is_idle sp = true →
  wp (client_step StopProcessor sp) (λ '(_, sp'), sp_state sp' = STATE_STOP_INITIATED).
Proof.
  intros (sessions & pending & Hinv & _) Hidle%is_idle_true. pose proof (inv_reader _ _ _ Hinv) as Hr.
  destruct sp as [wq we rp re kp act st cnt s b h rd wr]. sp_simpl_all. subst rd.
  destruct Hr as (Hs & -> & -> & _). cbn [client_step].
  unfold mrpc_client_stream_processor_stop_async, assert_no_request_streams. sp_steps.
  destruct s; [done|by sp_steps|by sp_steps].
Qed.

Lemma begin_stopped stream sp : processor_ok sp → is_idle sp = true →
  sp_state sp = STATE_STOP_INITIATED →
  wp (process_stream_begin stream sp) (λ '(_, sp'), is_stopped sp').
Proof.
  intros (sessions & pending & Hinv & _) Hidle%is_idle_true Hs. pose proof (inv_reader _ _ _ Hinv) as Hr.
  destruct sp as [wq we rp re kp act st cnt s b h rd wr]. sp_simpl_all. subst rd s.
  destruct Hr as (_ & -> & -> & _). unfold process_stream_begin, assert_no_request_streams. sp_steps.
  rewrite bool_decide_eq_true_2 by done. by sp_steps.
Qed.

Lemma stop_connecting sys : mc_inv sys → cf_main sys = ClientConnect →
  wp (mc_step (ClientStop : OP) sys) (λ '(_, sys'), mc_inv sys' ∧ cf_stopping sys' = true ∧
    cf_main sys' = ClientConnect ∧ sp_state (sys_processor sys') = STATE_STOP_INITIATED).
Proof.
  intros Hinv Hm. pose proof (mc_main _ Hinv) as Hmain. rewrite Hm in Hmain.
  destruct Hmain as (Hidle & _ & _ & [c Hc]). pose proof (stop_idle _ (mc_processor _ Hinv) Hidle) as Hstop.
  cbn [mc_step]. eapply wp_mono; [apply client_stop_inv; [done|unfold has_connector; by rewrite Hc]|].
  intros [[] sys'] (Hinv' & Hst' & Hm' & Heq). rewrite Heq in Hstop. split_and!; [done..|congruence|exact Hstop].
Qed.

Lemma stopping_connects sys : mc_inv sys → cf_stopping sys = true → cf_main sys = ClientConnect →
  sp_state (sys_processor sys) = STATE_STOP_INITIATED →
  wp (mc_step (ClientMainStep : OP) sys) (λ '(_, sys'), mc_inv sys' ∧ cf_stopping sys' = true ∧
    event_is_set (mc_stop_event (cf_client sys')) = true ∧
    sp_state (sys_processor sys') = STATE_STOP_INITIATED).
Proof.
  intros Hinv Hst Hm Hs. destruct sys as [[e sp conn] mp st n l]. mc_simpl. subst mp st. cbn [mc_step].
  pose proof (mc_stops _ Hinv eq_refl) as (c & Hc & Hopen). mc_simpl. subst conn.
  eapply wp_mono; [by apply connect_inv|]. intros [[] sys'] (Hinv' & Hst' & Hm').
  destruct (Hm' Hopen) as [Hm1 Hsp]. rewrite Hsp. split_and!; try done.
  pose proof (mc_main _ Hinv') as Hmain. rewrite Hm1 in Hmain. destruct Hmain as (_ & _ & Hset).
  destruct (mc_stops _ Hinv' Hst') as (c' & Hc' & _). destruct (event_is_set _); [done|congruence].
Qed.

Lemma restarted_drops sys : mc_inv sys → cf_main sys = ClientBegin →
  sp_state (sys_processor sys) = STATE_STOP_INITIATED →
  wp ((mc_step (ClientMainStep : OP);; mc_step (ClientMainStep : OP)) sys) (λ '(_, sys'),
    cf_connections sys' = 0 ∧
    (cf_main sys' = ClientConnect ∧ is_stopped (sys_processor sys') ∨ cf_main sys' = ClientIdle)).
Proof.
  destruct sys as [[e sp conn] mp st n l]. intros [Hok Hmain Hst Hl] Hm Hs. mc_simpl. subst mp.
  destruct Hmain as (Hidle & -> & He & [c ->]). cbn [mc_step]. unfold main_client_func. mc_steps.
  eapply wp_mono; [apply ff_stream_connector_connect_spec|].
  intros [[stream|] c'] [Hopen Hstream]; mc_simpl; mc_steps.
  - eapply wp_mono; [by apply begin_stopped|]. intros [[] sp'] [Hrd Hs']. mc_simpl.
    unfold main_client_processed, delete_connection. mc_steps. rewrite Hrd. mc_steps.
    split; [done|]. by left.
  - eapply wp_mono; [apply ff_event_set_spec|]. intros [[] e'] _. mc_steps. split; [done|by right].
Qed.

(** ** Theorems *)


(** A client has at most one connection, which is the one its stream
    processor processes: between two connections and in a stopped client there is
    none, no request stream is active, and the processor does not work. *)
Lemma mrpc_client_one_connection sys : mc_reachable sys →
  cf_connections sys = (if is_idle (sys_processor sys) then 0 else 1) ∧
  (has_connector sys = false → is_idle (sys_processor sys) = true) ∧
  (is_idle (sys_processor sys) = true →
     sp_stream (sys_processor sys) = None ∧ sp_state (sys_processor sys) ≠ STATE_WORKING ∧
     sp_active_request_streams_cnt (sys_processor sys) = 0).
Proof.
  intros Hinv%mc_reachable_inv. pose proof (mc_main _ Hinv) as Hmain. split_and!.
  - destruct (cf_main sys); cbn in Hmain; destruct Hmain as (-> & -> & _); done.
  - intros Hc. by destruct (idle_of_stopped sys Hinv Hc) as (_ & ? & _).
  - intros Hidle%is_idle_true. destruct (mc_processor _ Hinv) as (sessions & pending & Hcinv & _).
    pose proof (inv_reader _ _ _ Hcinv) as Hr. rewrite Hidle in Hr. cbn in Hr. by destruct_and?.
Qed.

(** A try of [mrpc_client_create_request_stream] gives a request stream, which
    gets a free slot of the processor, if and only if the processor works; the
    call gives up after three tries in which it did not, and a try which fails
    changes nothing. *)
Lemma mrpc_client_create_tries sys : mc_reachable sys →
  Forall (λ tries, 1 <= tries < MAX_CREATE_REQUEST_STREAM_TRIES_CNT) (cf_callers sys) ∧
  ∀ tries, 1 <= tries <= MAX_CREATE_REQUEST_STREAM_TRIES_CNT →
  client_enabled CreateRequest (sys_processor sys) →
  wp (mrpc_client_create_request_stream tries sys) (λ '(r, sys'),
    match r with
    | inl (Some ptr) => sp_state (sys_processor sys) = STATE_WORKING ∧
        ∃ i, sp_active_request_streams (sys_processor sys) !! i = Some None ∧
          sp_active_request_streams (sys_processor sys') =
            <[i := Some ptr]> (sp_active_request_streams (sys_processor sys))
    | inl None => sp_state (sys_processor sys) ≠ STATE_WORKING ∧ tries = 1 ∧ sys' = sys
    | inr rest => sp_state (sys_processor sys) ≠ STATE_WORKING ∧ rest = tries - 1 ∧ 1 <= rest ∧ sys' = sys
    end).
Proof.
  intros Hinv%mc_reachable_inv. split; [apply Hinv|]. intros tries Htries Hen.
  eapply wp_mono; [by apply create_try_spec|]. by intros [r sys'] (_ & _ & _ & Hr).
Qed.

(** C17. [mrpc_client_stop] returns: when it waits, the reader of a connection has
    left its loop and the request streams are deleted, the fibers make at most
    [client_work_left] more steps, whatever their order is; the only state in which
    neither of them can go on is the one in which the call returns, and then the
    client can be deleted. *)
Theorem mrpc_client_stops sys ops sys' : mc_reachable sys → cf_stopping sys = true →
  client_ending sys → sp_active_request_streams_cnt (sys_processor sys) = 0 →
  mc_run ops sys sys' → Forall is_client_fiber ops →
  (length ops <= client_work_left sys)%nat ∧
  ((∀ op : OP, is_client_fiber op → ¬ mc_enabled op sys') →
     mc_enabled (ClientStopEnd : OP) sys' ∧
     wp (mc_step (ClientStopEnd : OP) sys') (λ '(_, sys''),
       has_connector sys'' = false ∧ cf_stopping sys'' = false ∧ cf_connections sys'' = 0 ∧
       wp (mrpc_client_delete sys'') (λ _, True))).
Proof.
  intros Hinv%mc_reachable_inv Hst Hcl Hcnt Hrun Hops.
  destruct (run_ending _ _ _ Hrun) as [Hend Hlen]; [by split_and!|done|]. split; [lia|]. intros Hstuck.
  assert (cf_main sys' = ClientIdle) as Hm.
  { destruct (cf_main sys') eqn:Hm; [done|..];
      (destruct (ending_not_stuck sys' Hend) as [Hen|Hen]; [by rewrite Hm|..];
       exfalso; (eapply Hstuck; [|exact Hen]); [by left|by right]). }
  destruct Hend as (Hinv' & Hst' & _ & _).
  assert (event_is_set (mc_stop_event (cf_client sys')) = true) as Hset.
  { pose proof (mc_main _ Hinv') as Hmain. rewrite Hm in Hmain. destruct Hmain as (_ & _ & Hset).
    destruct (mc_stops _ Hinv' Hst') as (c & Hc & _). destruct (event_is_set _); [done|congruence]. }
  split; [by split|]. eapply wp_mono; [by apply client_stop_end_inv|].
  intros [[] sys''] (Hinv'' & _ & Hc & _ & Hs). split_and!; [done|done| |by apply client_delete_inv].
  by destruct (idle_of_stopped _ Hinv'' Hc) as (_ & _ & ? & _).
Qed.

(** C18. A client which is stopped while it has no connection drops the first
    connection after it has been started again: the stop is remembered by the
    stream processor, which gives the connection back at once; the client deletes
    it and connects again. *)
Theorem mrpc_client_restart sys c : mc_reachable sys → cf_main sys = ClientConnect →
  cf_stopping sys = false →
  wp ((mc_step (ClientStop : OP);; mc_step (ClientMainStep : OP);; mc_step (ClientStopEnd : OP);;
       mc_step (ClientStart c : OP);; mc_step (ClientMainStep : OP);; mc_step (ClientMainStep : OP)) sys)
    (λ '(_, sys'), cf_connections sys' = 0 ∧
      (cf_main sys' = ClientConnect ∧ is_stopped (sys_processor sys') ∨ cf_main sys' = ClientIdle)).
Proof.
  intros Hinv%mc_reachable_inv Hm Hst. wp_step.
  eapply wp_mono; [by apply stop_connecting|]. intros [[] sys1] (Hinv1 & Hst1 & Hm1 & Hs1). cbn [snd]. wp_step.
  eapply wp_mono; [by apply stopping_connects|]. intros [[] sys2] (Hinv2 & Hst2 & Hset & Hs2). cbn [snd]. wp_step.
  eapply wp_mono; [by apply client_stop_end_inv|]. intros [[] sys3] (Hinv3 & _ & Hc3 & Hp3 & Hst3). cbn [snd]. wp_step.
  eapply wp_mono; [by apply client_start_inv|]. intros [[] sys4] (Hinv4 & Hm4 & Hp4 & Hst4). cbn [snd].
  apply restarted_drops; [done|done|congruence].
Qed.
End invariant.

(** ** A client and its connections *)

(** The connections which can be established, and whether the connector is open. *)
#[export] Instance list_connector {S} : FFStreamConnector (list S * bool) S := {
  ff_stream_connector_initialize c := Ret (tt, (c.1, true));
  ff_stream_connector_shutdown c := Ret (tt, (c.1, false));
  ff_stream_connector_connect c :=
    match c with
    | (stream :: l, true) => Ret (Some stream, (l, true))
    | _ => Ret (None, c)
    end;
  connector_open c := c.2
}.

#[export] Instance list_connector_spec : FFStreamConnectorSpec (list mem_stream * bool) mem_stream.
Proof. split; try done. by intros [[|stream l] []]. Qed.

#[local] Abbreviation demo_client_processor :=
  (stream_processor (list mrpc_packet) (list (option mrpc_packet)) (list mrpc_packet * Z)
     (list nat * Z) bool mem_stream mrpc_bitmap).
#[local] Abbreviation demo_client := (client_fibers bool demo_client_processor (list mem_stream * bool)).
#[local] Abbreviation demo_client_op := (mc_op (list mem_stream * bool)).

Definition demo_mc_step (sys : demo_client) (op : demo_client_op) : demo_client :=
  match mc_step op sys with Ret (_, sys') => sys' | Fault _ => sys end.
Definition demo_mc_run (ops : list demo_client_op) (sys : demo_client) : demo_client :=
  foldl demo_mc_step sys ops.

Definition demo_mc_created : demo_client :=
  ClientFibers (MrpcClient false demo_created None) ClientIdle false 0 [].

(** The client has a connection, and a caller has got a request stream. *)
Definition demo_mc_start : demo_client_op := ClientStart ([MemStream [] []; MemStream [] []], false).
Definition demo_mc_working_ops : list demo_client_op := [demo_mc_start; ClientMainStep; ClientMainStep; CallCreate].
Definition demo_mc_working : demo_client := demo_mc_run demo_mc_working_ops demo_mc_created.

(** It is started and does not yet have a connection. *)
Definition demo_mc_connecting_ops : list demo_client_op := [demo_mc_start; ClientMainStep].
Definition demo_mc_connecting : demo_client := demo_mc_run demo_mc_connecting_ops demo_mc_created.

(** It is stopped while it has a connection; its reader has left its loop. *)
Definition demo_mc_ending_ops : list demo_client_op :=
  [demo_mc_start; ClientMainStep; ClientMainStep; ClientMainStep; ClientStop; ClientMainStep].
Definition demo_mc_ending : demo_client := demo_mc_run demo_mc_ending_ops demo_mc_created.
Definition demo_mc_end_ops : list demo_client_op :=
  [ClientMainStep; ClientWriterStep; ClientWriterStep; ClientMainStep; ClientMainStep].
Definition demo_mc_ended : demo_client := demo_mc_run demo_mc_end_ops demo_mc_ending.

Ltac run_mc := eapply mc_run_cons; [|vm_compute; reflexivity|].
Ltac end_mc :=
  match goal with |- mc_run [] ?sys ?sys' => assert (sys' = sys) as -> by (vm_compute; reflexivity) end;
  constructor.

Lemma demo_mc_working_reachable : mc_reachable demo_mc_working.
Proof.
  exists demo_mc_created, demo_mc_working_ops. split; [reflexivity|].
  run_mc; [reflexivity|]. run_mc; [exact I|]. run_mc; [exact I|]. run_mc; [intros _; vm_compute; reflexivity|].
  end_mc.
Qed.

Lemma demo_mc_connecting_reachable : mc_reachable demo_mc_connecting.
Proof.
  exists demo_mc_created, demo_mc_connecting_ops. split; [reflexivity|].
  run_mc; [reflexivity|]. run_mc; [exact I|]. end_mc.
Qed.

Lemma demo_mc_ending_reachable : mc_reachable demo_mc_ending.
Proof.
  exists demo_mc_created, demo_mc_ending_ops. split; [reflexivity|].
  run_mc; [reflexivity|]. do 3 (run_mc; [exact I|]). run_mc; [by split|]. run_mc; [exact I|]. end_mc.
Qed.

Lemma demo_mc_end_run : mc_run demo_mc_end_ops demo_mc_ending demo_mc_ended.
Proof.
  run_mc; [vm_compute; reflexivity|]. run_mc; [exact I|]. run_mc; [intros [=]|].
  run_mc; [vm_compute; reflexivity|]. run_mc; [exact I|]. end_mc.
Qed.


Lemma mrpc_client_one_connection_witness :
  cf_connections demo_mc_working = (if is_idle (sys_processor demo_mc_working) then 0 else 1) ∧
  (has_connector demo_mc_working = false → is_idle (sys_processor demo_mc_working) = true) ∧
  (is_idle (sys_processor demo_mc_working) = true →
     sp_stream (sys_processor demo_mc_working) = None ∧
     sp_state (sys_processor demo_mc_working) ≠ STATE_WORKING ∧
     sp_active_request_streams_cnt (sys_processor demo_mc_working) = 0).
Proof. apply (mrpc_client_one_connection demo_mc_working). exact demo_mc_working_reachable. Defined.

Lemma mrpc_client_create_tries_witness :
  Forall (λ tries, 1 <= tries < MAX_CREATE_REQUEST_STREAM_TRIES_CNT) (cf_callers demo_mc_connecting) ∧
  ∀ tries, 1 <= tries <= MAX_CREATE_REQUEST_STREAM_TRIES_CNT →
  client_enabled CreateRequest (sys_processor demo_mc_connecting) →
  wp (mrpc_client_create_request_stream tries demo_mc_connecting) (λ '(r, sys'),
    match r with
    | inl (Some ptr) => sp_state (sys_processor demo_mc_connecting) = STATE_WORKING ∧
        ∃ i, sp_active_request_streams (sys_processor demo_mc_connecting) !! i = Some None ∧
          sp_active_request_streams (sys_processor sys') =
            <[i := Some ptr]> (sp_active_request_streams (sys_processor demo_mc_connecting))
    | inl None => sp_state (sys_processor demo_mc_connecting) ≠ STATE_WORKING ∧ tries = 1 ∧
        sys' = demo_mc_connecting
    | inr rest => sp_state (sys_processor demo_mc_connecting) ≠ STATE_WORKING ∧ rest = tries - 1 ∧
        1 <= rest ∧ sys' = demo_mc_connecting
    end).
Proof. apply (mrpc_client_create_tries demo_mc_connecting). exact demo_mc_connecting_reachable. Defined.

Lemma mrpc_client_stops_witness :
  (length demo_mc_end_ops <= client_work_left demo_mc_ending)%nat ∧
  ((∀ op : demo_client_op, is_client_fiber op → ¬ mc_enabled op demo_mc_ended) →
     mc_enabled (ClientStopEnd : demo_client_op) demo_mc_ended ∧
     wp (mc_step (ClientStopEnd : demo_client_op) demo_mc_ended) (λ '(_, sys''),
       has_connector sys'' = false ∧ cf_stopping sys'' = false ∧ cf_connections sys'' = 0 ∧
       wp (mrpc_client_delete sys'') (λ _, True))).
Proof.
  apply (mrpc_client_stops demo_mc_ending demo_mc_end_ops demo_mc_ended);
    [exact demo_mc_ending_reachable|vm_compute; reflexivity|vm_compute; exact I|vm_compute; reflexivity|
     exact demo_mc_end_run|].
  repeat (constructor; [first [by left|by right]|]). constructor.
Defined.

Lemma mrpc_client_restart_witness :
  wp ((mc_step (ClientStop : demo_client_op);; mc_step (ClientMainStep : demo_client_op);;
       mc_step (ClientStopEnd : demo_client_op);; mc_step demo_mc_start;;
       mc_step (ClientMainStep : demo_client_op);; mc_step (ClientMainStep : demo_client_op))
      demo_mc_connecting)
    (λ '(_, sys'), cf_connections sys' = 0 ∧
      (cf_main sys' = ClientConnect ∧ is_stopped (sys_processor sys') ∨ cf_main sys' = ClientIdle)).
Proof.
  apply (mrpc_client_restart demo_mc_connecting ([MemStream [] []; MemStream [] []], false));
    [exact demo_mc_connecting_reachable|vm_compute; reflexivity|vm_compute; reflexivity].
Defined.
