(* ===== verification/ConsistentHash.v ===== *)
(** * The consistent hash (src/mrpc_consistent_hash.c)

    A ring of [uint32_t] points, each with the value of the entry it belongs
    to, kept as an array of sorted buckets indexed by the high bits of the
    point.  [ring] is the abstract view, one list of points in ascending order,
    on which the operations act as [ring_insert], [ring_remove] and
    [successor]. *)

From stdpp Require Import sorting.
From S2P Require Import Prelude FF.

(** [struct consistent_hash_entry]; a bucket is the list behind [next]. *)
Record consistent_hash_entry (V : Type) := Entry { en_key : Z; en_value : V }.
Arguments Entry {V}.
Arguments en_key {V}.
Arguments en_value {V}.

Record mrpc_consistent_hash (V : Type) := ConsistentHash {
  ch_buckets : list (list (consistent_hash_entry V));
  ch_order : Z;
  ch_uniform_factor : Z;
  ch_entries_cnt : Z
}.
Arguments ConsistentHash {V}.
Arguments ch_buckets {V}.
Arguments ch_order {V}.
Arguments ch_uniform_factor {V}.
Arguments ch_entries_cnt {V}.

Section operations.
Context {V : Type} `{FFHash}.
#[local] Abbreviation CH := (mrpc_consistent_hash V).
#[local] Abbreviation entry := (consistent_hash_entry V).

Definition get_bucket_num (ch : CH) (key : Z) : outcome Z :=
  shift_right_u32 key (32 - ch_order ch).

(** The walk of [add_entry_with_key] along a bucket, and the new entry. *)
Fixpoint insert_into_bucket (key : Z) (value : V) (entries : list entry) : list entry :=
  match entries with
  | [] => [Entry key value]
  | e :: es => if bool_decide (en_key e < key) then e :: insert_into_bucket key value es
               else Entry key value :: e :: es
  end.

Definition add_entry_with_key (ch : CH) (key : Z) (value : V) : outcome CH :=
  bucket_num ← get_bucket_num ch key;
  bucket ← arr_get (ch_buckets ch) bucket_num;
  buckets ← arr_set (ch_buckets ch) bucket_num (insert_into_bucket key value bucket);
  entries_cnt ← checked_int (ch_entries_cnt ch + 1);
  ff_assert (bool_decide (entries_cnt > 0));;
  Ret (ConsistentHash buckets (ch_order ch) (ch_uniform_factor ch) entries_cnt).

(** The walk of [remove_entry_with_key]; its assertion fails at the end of the
    bucket. *)
Fixpoint remove_from_bucket (key : Z) (entries : list entry) : outcome (list entry) :=
  match entries with
  | [] => Fault AssertionFailed
  | e :: es => if bool_decide (en_key e ≠ key)
               then rest ← remove_from_bucket key es; Ret (e :: rest)
               else Ret es
  end.

Definition remove_entry_with_key (ch : CH) (key : Z) : outcome CH :=
  bucket_num ← get_bucket_num ch key;
  bucket ← arr_get (ch_buckets ch) bucket_num;
  bucket ← remove_from_bucket key bucket;
  buckets ← arr_set (ch_buckets ch) bucket_num bucket;
  entries_cnt ← checked_int (ch_entries_cnt ch - 1);
  ff_assert (bool_decide (entries_cnt >= 0));;
  Ret (ConsistentHash buckets (ch_order ch) (ch_uniform_factor ch) entries_cnt).

Definition mrpc_consistent_hash_create (order uniform_factor : Z) : outcome CH :=
  ff_assert (bool_decide (order >= 0));;
  ff_assert (bool_decide (order <= 20));;
  ff_assert (bool_decide (uniform_factor > 0));;
  ff_assert (bool_decide (uniform_factor < 0x100));;
  let buckets_cnt := Z.shiftl 1 order in
  Ret (ConsistentHash (replicate (Z.to_nat buckets_cnt) []) order uniform_factor 0).

Definition mrpc_consistent_hash_delete (ch : CH) : outcome unit :=
  ff_assert (bool_decide (ch_entries_cnt ch = 0)).

(** The loop over the buckets: empties them and counts [entries_cnt] down. *)
Fixpoint remove_all_loop (rounds : nat) (i : Z) (buckets : list (list entry)) (entries_cnt : Z) :
    outcome (list (list entry) * Z) :=
  match rounds with
  | O => Ret (buckets, entries_cnt)
  | S rounds =>
      bucket ← arr_get buckets i;
      entries_cnt ← checked_int (entries_cnt - zlength bucket);
      buckets ← arr_set buckets i [];
      remove_all_loop rounds (i + 1) buckets entries_cnt
  end.

Definition mrpc_consistent_hash_remove_all_entries (ch : CH) : outcome CH :=
  let buckets_cnt := Z.shiftl 1 (ch_order ch) in
  r ← remove_all_loop (Z.to_nat buckets_cnt) 0 (ch_buckets ch) (ch_entries_cnt ch);
  ff_assert (bool_decide (r.2 = 0));;
  Ret (ConsistentHash (r.1) (ch_order ch) (ch_uniform_factor ch) 0).

(** The points of a key: [ff_hash_uint32(i, &key, 1)] for each [i]. *)
Definition point (key : Z) (i : nat) : Z := ff_hash_uint32 (Z.of_nat i) [key].

(** [n] rounds are left, starting with [i]. *)
Fixpoint add_points (n i : nat) (ch : CH) (key : Z) (value : V) : outcome CH :=
  match n with
  | O => Ret ch
  | S n => ch ← add_entry_with_key ch (point key i) value; add_points n (S i) ch key value
  end.

Definition mrpc_consistent_hash_add_entry (ch : CH) (key : Z) (value : V) : outcome CH :=
  add_points (Z.to_nat (ch_uniform_factor ch)) 0 ch key value.

Fixpoint remove_points (n i : nat) (ch : CH) (key : Z) : outcome CH :=
  match n with
  | O => Ret ch
  | S n => ch ← remove_entry_with_key ch (point key i); remove_points n (S i) ch key
  end.

Definition mrpc_consistent_hash_remove_entry (ch : CH) (key : Z) : outcome CH :=
  ff_assert (bool_decide (ch_entries_cnt ch > 0));;
  remove_points (Z.to_nat (ch_uniform_factor ch)) 0 ch key.

(** The walk of [mrpc_consistent_hash_get_entry] along a bucket. *)
Fixpoint find_in_bucket (key : Z) (entries : list entry) : option V :=
  match entries with
  | [] => None
  | e :: es => if bool_decide (en_key e >= key) then Some (en_value e)
               else find_in_bucket key es
  end.

Fixpoint get_entry_loop (rounds : nat) (buckets : list (list entry)) (buckets_cnt : Z)
    (bucket_num key : Z) : outcome V :=
  match rounds with
  | O => Fault AssertionFailed
  | S rounds =>
      bucket ← arr_get buckets bucket_num;
      match find_in_bucket key bucket with
      | Some value => Ret value
      | None =>
          let bucket_num := u32 (bucket_num + 1) in
          if bool_decide (bucket_num = buckets_cnt)
          then get_entry_loop rounds buckets buckets_cnt 0 0
          else get_entry_loop rounds buckets buckets_cnt bucket_num key
      end
  end.

Definition mrpc_consistent_hash_get_entry (ch : CH) (key : Z) : outcome V :=
  ff_assert (bool_decide (ch_entries_cnt ch > 0));;
  let key := ff_hash_uint32 0 [key] in
  let buckets_cnt := Z.shiftl 1 (ch_order ch) in
  bucket_num ← get_bucket_num ch key;
  get_entry_loop (Z.to_nat buckets_cnt) (ch_buckets ch) buckets_cnt bucket_num key.

Definition mrpc_consistent_hash_is_empty (ch : CH) : bool :=
  bool_decide (ch_entries_cnt ch = 0).
End operations.

(** ** The abstract ring *)

Section ring.
Context {V : Type}.
#[local] Abbreviation entry := (consistent_hash_entry V).
Implicit Types (l r : list entry) (k h : Z) (v : V).

Definition ring (ch : mrpc_consistent_hash V) : list entry := mjoin (ch_buckets ch).

(** Insertion in front of the first point which is not smaller. *)
Fixpoint ring_insert k v l : list entry :=
  match l with
  | [] => [Entry k v]
  | e :: es => if bool_decide (en_key e < k) then e :: ring_insert k v es
               else Entry k v :: e :: es
  end.

(** Removal of the first point with the key. *)
Fixpoint ring_remove k l : list entry :=
  match l with
  | [] => []
  | e :: es => if bool_decide (en_key e = k) then es else e :: ring_remove k es
  end.

(** The first point which is not smaller than [h]. *)
Fixpoint above h l : option entry :=
  match l with
  | [] => None
  | e :: es => if bool_decide (h <= en_key e) then Some e else above h es
  end.

(** The next point clockwise from [h]. *)
Definition successor h l : option entry :=
  match above h l with Some e => Some e | None => head l end.

Definition ring_sorted l : Prop := StronglySorted (λ e f, en_key e <= en_key f) l.

(** The way from [h] to [k] in clockwise direction. *)
Definition distance h k : Z := (k - h) mod 2 ^ 32.

Lemma ring_insert_below k v l r :
  Forall (λ e, en_key e < k) l → ring_insert k v (l ++ r) = l ++ ring_insert k v r.
Proof.
  induction 1 as [|e l He _ IH]; cbn; [done|]. by rewrite bool_decide_eq_true_2, IH.
Qed.

Lemma ring_insert_above k v l r :
  Forall (λ e, k <= en_key e) r → ring_insert k v (l ++ r) = ring_insert k v l ++ r.
Proof.
  intros Hr. induction l as [|e l IH]; cbn.
  - destruct Hr as [|e r He Hr]; cbn; [done|]. by rewrite bool_decide_eq_false_2 by lia.
  - case_bool_decide; cbn; [by rewrite IH|done].
Qed.

Lemma ring_insert_perm k v l : ring_insert k v l ≡ₚ Entry k v :: l.
Proof.
  induction l as [|e l IH]; cbn; [done|]. case_bool_decide; [|done].
  rewrite IH. by rewrite Permutation_swap.
Qed.

Lemma ring_insert_sorted k v l : ring_sorted l → ring_sorted (ring_insert k v l).
Proof.
  induction 1 as [|e l Hl IH He]; cbn; [by repeat constructor|].
  case_bool_decide.
  - constructor; [done|]. rewrite ring_insert_perm. constructor; [cbn; lia|done].
  - constructor; [by constructor|]. constructor; [cbn; lia|].
    eapply Forall_impl; [exact He|]. cbn. intros f Hf. lia.
Qed.

Lemma ring_remove_below k l r :
  Forall (λ e, en_key e ≠ k) l → ring_remove k (l ++ r) = l ++ ring_remove k r.
Proof.
  induction 1 as [|e l He _ IH]; cbn; [done|]. by rewrite bool_decide_eq_false_2, IH.
Qed.

Lemma ring_remove_app k l r :
  k ∈ (en_key <$> l) → ring_remove k (l ++ r) = ring_remove k l ++ r.
Proof.
  induction l as [|e l IH]; cbn; [by intros ?%not_elem_of_nil|].
  intros [->|Hk]%elem_of_cons; [by rewrite bool_decide_eq_true_2|].
  case_bool_decide; [done|]. cbn. by rewrite IH.
Qed.

Lemma ring_remove_forall (R : entry → Prop) k l : Forall R l → Forall R (ring_remove k l).
Proof. induction 1; cbn; [done|]. case_bool_decide; [done|by constructor]. Qed.

Lemma ring_remove_sorted k l : ring_sorted l → ring_sorted (ring_remove k l).
Proof.
  induction 1 as [|e l Hl IH He]; cbn; [constructor|]. case_bool_decide; [done|].
  constructor; [done|]. by apply ring_remove_forall.
Qed.

(** Removal takes out the point which was inserted last. *)
Lemma ring_remove_insert k v l : ring_remove k (ring_insert k v l) = l.
Proof.
  induction l as [|e l IH]; cbn; [by rewrite bool_decide_eq_true_2|].
  case_bool_decide; cbn.
  - by rewrite bool_decide_eq_false_2, IH by lia.
  - by rewrite bool_decide_eq_true_2.
Qed.

(** Points of the same value can be inserted in any order. *)
Lemma ring_insert_comm k k' v l :
  ring_insert k v (ring_insert k' v l) = ring_insert k' v (ring_insert k v l).
Proof.
  induction l as [|e l IH]; cbn.
  - repeat case_bool_decide; try done; try lia. by replace k' with k by lia.
  - repeat (case_bool_decide; cbn); try done; try lia; [by rewrite IH|].
    by replace k' with k by lia.
Qed.

Lemma above_app h l r :
  above h (l ++ r) = match above h l with Some e => Some e | None => above h r end.
Proof. induction l as [|e l IH]; cbn; [done|]. by case_bool_decide. Qed.

Lemma above_none h l : above h l = None ↔ Forall (λ e, en_key e < h) l.
Proof.
  induction l as [|e l IH]; cbn; [done|]. rewrite Forall_cons, <- IH.
  case_bool_decide; split; [done|intros [? _]; lia|intros; split; [lia|done]|by intros [_ ?]].
Qed.

Lemma above_some h l e : ring_sorted l → above h l = Some e →
  e ∈ l ∧ h <= en_key e ∧ ∀ f, f ∈ l → h <= en_key f → en_key e <= en_key f.
Proof.
  induction 1 as [|e' l Hl IH He']; cbn; [done|]. case_bool_decide.
  - intros [= ->]. split; [by left|]. split; [done|].
    intros f [->|Hf]%elem_of_cons _; [lia|]. by eapply Forall_forall in He'.
  - intros Hsome. destruct (IH Hsome) as (Hin & Hh & Hmin). split; [by right|].
    split; [done|]. intros f [->|Hf]%elem_of_cons Hfh; [lia|auto].
Qed.

(** The point found is the nearest one clockwise. *)
Lemma successor_nearest h l e :
  is_u32 h → ring_sorted l → Forall (λ f, is_u32 (en_key f)) l → successor h l = Some e →
  e ∈ l ∧ ∀ f, f ∈ l → distance h (en_key e) <= distance h (en_key f).
Proof.
  unfold successor, distance. intros Hh Hs Hu Hsucc.
  assert (∀ f, f ∈ l → 0 <= en_key f < 2 ^ 32) as Hr.
  { intros f Hf. by apply (proj1 (Forall_forall _ _) Hu). }
  unfold is_u32 in Hh.
  assert (∀ f, f ∈ l → h <= en_key f → (en_key f - h) mod 2 ^ 32 = en_key f - h) as Hup.
  { intros f Hf Hle. specialize (Hr f Hf). apply Z.mod_small. lia. }
  assert (∀ f, f ∈ l → en_key f < h → (en_key f - h) mod 2 ^ 32 = en_key f - h + 2 ^ 32) as Hdown.
  { intros f Hf Hlt. specialize (Hr f Hf). rewrite <- (Z.mod_add _ 1) by lia.
    rewrite Z.mod_small; lia. }
  destruct (above h l) as [e'|] eqn:Ha.
  - injection Hsucc as ->. destruct (above_some _ _ _ Hs Ha) as (Hin & Hle & Hmin).
    split; [done|]. intros f Hf. rewrite Hup by done. pose proof (Hr _ Hin) as Hre.
    destruct (Z_le_gt_dec h (en_key f)) as [Hc|Hc].
    + specialize (Hmin f Hf Hc). rewrite Hup by done. lia.
    + pose proof (Hr f Hf) as Hrf. rewrite Hdown by (done || lia). lia.
  - apply above_none in Ha. destruct l as [|e' l]; [done|]. injection Hsucc as ->.
    split; [by left|]. intros f Hf. apply StronglySorted_inv in Hs as [_ He].
    pose proof (proj1 (Forall_forall _ _) Ha f Hf) as Hfh. apply Forall_cons in Ha as [Heh _].
    assert (en_key e <= en_key f).
    { apply elem_of_cons in Hf as [->|Hf]; [lia|]. by apply (proj1 (Forall_forall _ _) He). }
    rewrite !Hdown; (done || lia || by left).
Qed.

(** Inserting a point moves keys to that point only. *)
Lemma successor_insert h k v l e :
  successor h l = Some e →
  successor h (ring_insert k v l) = Some e ∨ successor h (ring_insert k v l) = Some (Entry k v).
Proof.
  unfold successor. destruct l as [|a l]; [done|].
  assert (above h (ring_insert k v (a :: l)) = above h (a :: l) ∨
    above h (ring_insert k v (a :: l)) = Some (Entry k v)) as [->| ->].
  { induction (a :: l) as [|f l' IH]; cbn.
    - case_bool_decide; auto.
    - case_bool_decide; cbn; [case_bool_decide; auto|].
      case_bool_decide; auto. }
  - destruct (above h (a :: l)); [auto|]. cbn. intros [= ->]. case_bool_decide; auto.
  - auto.
Qed.

(** Removing a point moves the keys of that point only. *)
Lemma successor_remove h k l e :
  successor h l = Some e → en_key e ≠ k → successor h (ring_remove k l) = Some e.
Proof.
  unfold successor. intros Hsucc Hk. destruct (above h l) as [e'|] eqn:Ha.
  - injection Hsucc as ->. assert (above h (ring_remove k l) = Some e) as ->; [|done].
    induction l as [|f l IH]; cbn in *; [done|]. case_bool_decide as Hc.
    + injection Ha as ->. rewrite bool_decide_eq_false_2 by done. cbn.
      by rewrite bool_decide_eq_true_2.
    + case_bool_decide; [done|]. cbn. rewrite bool_decide_eq_false_2 by done. auto.
  - destruct l as [|f l]; [done|]. injection Hsucc as ->. apply above_none in Ha.
    assert (above h (ring_remove k (e :: l)) = None) as ->.
    { apply above_none. by apply ring_remove_forall. }
    cbn. by rewrite bool_decide_eq_false_2.
Qed.
End ring.

(** ** The buckets implement the ring *)

Section refinement.
Context {V : Type}.
#[local] Abbreviation entry := (consistent_hash_entry V).
Implicit Types (ch : mrpc_consistent_hash V) (k h : Z) (v : V) (b : list entry).

(** The number of the bucket of a point. *)
Definition bucket_of ch k : Z := Z.shiftr k (32 - ch_order ch).

(** Buckets hold points of their own interval. *)
Definition placed (shift : Z) (buckets : list (list entry)) : Prop :=
  ∀ i b, buckets !! i = Some b →
    Forall (λ e, is_u32 (en_key e) ∧ Z.shiftr (en_key e) shift = Z.of_nat i) b.

Record ch_inv ch : Prop := {
  ch_order_range : 1 <= ch_order ch <= 20;
  ch_factor_range : 0 < ch_uniform_factor ch < 256;
  ch_buckets_cnt : zlength (ch_buckets ch) = 2 ^ ch_order ch;
  ch_placed : placed (32 - ch_order ch) (ch_buckets ch);
  ch_sorted : ring_sorted (ring ch);
  ch_count : ch_entries_cnt ch = zlength (ring ch)
}.

(** Operations leave the parameters alone. *)
Definition same_shape ch ch' : Prop :=
  ch_order ch' = ch_order ch ∧ ch_uniform_factor ch' = ch_uniform_factor ch.

Lemma shiftr_lt x y s : 0 <= s → Z.shiftr x s < Z.shiftr y s → x < y.
Proof.
  intros Hs Hlt. destruct (Z_lt_ge_dec x y) as [|Hge]; [done|].
  rewrite !Z.shiftr_div_pow2 in Hlt by done.
  pose proof (Z.div_le_mono y x (2 ^ s) ltac:(lia) ltac:(lia)). lia.
Qed.

Lemma bucket_of_range ch k : 1 <= ch_order ch <= 20 → is_u32 k →
  0 <= bucket_of ch k < 2 ^ ch_order ch.
Proof.
  unfold bucket_of, is_u32. intros Ho Hk. rewrite Z.shiftr_div_pow2 by lia.
  split; [apply Z.div_pos; lia|]. apply Z.div_lt_upper_bound; [lia|].
  rewrite <- Z.pow_add_r by lia. replace (32 - ch_order ch + ch_order ch) with 32 by lia. lia.
Qed.

Lemma mjoin_cons {A} (l : list A) ls : mjoin (l :: ls) = l ++ mjoin ls.
Proof. done. Qed.

Lemma in_mjoin {A} (ls : list (list A)) x : x ∈ mjoin ls → ∃ i l, ls !! i = Some l ∧ x ∈ l.
Proof. intros (l & Hx & Hl)%list_elem_of_join. apply list_elem_of_lookup in Hl as [i Hi]. eauto. Qed.

(** Points of lower buckets are smaller, those of higher ones greater. *)
Lemma placed_below s buckets k n : 0 <= s → placed s buckets → Z.of_nat n <= Z.shiftr k s →
  Forall (λ e, en_key e < k) (mjoin (take n buckets)).
Proof.
  intros Hs Hp Hn. apply Forall_forall. intros e (i & b & Hi & He)%in_mjoin.
  apply lookup_take_Some in Hi as [Hi Hlt]. specialize (Hp i b Hi).
  destruct (proj1 (Forall_forall _ _) Hp e He) as [_ Heq]. apply (shiftr_lt _ _ s); lia.
Qed.

Lemma placed_above s buckets k n : 0 <= s → placed s buckets → Z.shiftr k s < Z.of_nat n →
  Forall (λ e, k < en_key e) (mjoin (drop n buckets)).
Proof.
  intros Hs Hp Hn. apply Forall_forall. intros e (i & b & Hi & He)%in_mjoin.
  rewrite lookup_drop in Hi. specialize (Hp _ b Hi).
  destruct (proj1 (Forall_forall _ _) Hp e He) as [_ Heq]. apply (shiftr_lt _ _ s); lia.
Qed.

(** The bucket of a point, and the ring around it. *)
Lemma bucket_split ch k : ch_inv ch → is_u32 k →
  ∃ n b, bucket_of ch k = Z.of_nat n ∧ ch_buckets ch !! n = Some b ∧
    (n < length (ch_buckets ch))%nat ∧
    ring ch = mjoin (take n (ch_buckets ch)) ++ b ++ mjoin (drop (S n) (ch_buckets ch)) ∧
    Forall (λ e, en_key e < k) (mjoin (take n (ch_buckets ch))) ∧
    Forall (λ e, k < en_key e) (mjoin (drop (S n) (ch_buckets ch))).
Proof.
  intros [Ho _ Hcnt Hp _ _] Hk. pose proof (bucket_of_range ch k Ho Hk) as Hb.
  unfold zlength in Hcnt. exists (Z.to_nat (bucket_of ch k)).
  destruct (lookup_lt_is_Some_2 (ch_buckets ch) (Z.to_nat (bucket_of ch k))) as [b Hl]; [lia|].
  exists b. split; [lia|]. split; [done|]. split; [lia|]. split.
  { unfold ring. rewrite <- (take_drop_middle _ _ _ Hl) at 1.
    by rewrite join_app. }
  split; [apply (placed_below (32 - ch_order ch)) | apply (placed_above (32 - ch_order ch))];
    try done; unfold bucket_of in *; lia.
Qed.

Lemma insert_into_bucket_ring k v b : insert_into_bucket k v b = ring_insert k v b.
Proof. induction b as [|e b IH]; cbn; [done|]. by rewrite IH. Qed.

Lemma remove_from_bucket_ring k b :
  remove_from_bucket k b =
  if decide (k ∈ (en_key <$> b)) then Ret (ring_remove k b) else Fault AssertionFailed.
Proof.
  induction b as [|e b IH]; cbn [remove_from_bucket ring_remove].
  - by rewrite decide_False by (cbn; apply not_elem_of_nil).
  - rewrite IH. case_bool_decide as Hc.
    + rewrite (bool_decide_eq_false_2 (en_key e = k)) by done.
      destruct (decide (k ∈ (en_key <$> b))).
      * rewrite decide_True by (cbn; by right). done.
      * rewrite decide_False; [done|]. cbn. by intros [->|?]%elem_of_cons.
    + rewrite bool_decide_eq_true_2 by (destruct (decide (en_key e = k)); tauto).
      rewrite decide_True; [done|]. cbn. apply elem_of_cons. left.
      destruct (decide (en_key e = k)); [done|tauto].
Qed.

Lemma find_in_bucket_above k b : find_in_bucket k b = en_value <$> above k b.
Proof.
  induction b as [|e b IH]; cbn; [done|]. rewrite IH.
  repeat case_bool_decide; (done || lia).
Qed.

Lemma join_insert (buckets : list (list entry)) n b : (n < length buckets)%nat →
  mjoin (<[n := b]> buckets) = mjoin (take n buckets) ++ b ++ mjoin (drop (S n) buckets).
Proof. intros Hn. rewrite insert_take_drop by done. by rewrite join_app. Qed.

(** Storing a new bucket whose points belong there. *)
Lemma placed_insert s buckets n b :
  placed s buckets → Forall (λ e, is_u32 (en_key e) ∧ Z.shiftr (en_key e) s = Z.of_nat n) b →
  placed s (<[n := b]> buckets).
Proof.
  intros Hp Hb i b' Hi. apply list_lookup_insert_Some in Hi as [(-> & -> & _)|[_ Hi]]; [done|].
  by apply Hp.
Qed.

Lemma get_bucket_num_eq ch k : ch_inv ch → get_bucket_num ch k = Ret (bucket_of ch k).
Proof.
  intros [Ho _ _ _ _ _]. unfold get_bucket_num, shift_right_u32.
  by rewrite bool_decide_eq_true_2 by lia.
Qed.

Lemma add_entry_with_key_spec ch k v : ch_inv ch → is_u32 k → zlength (ring ch) < 2 ^ 31 - 1 →
  wp (add_entry_with_key ch k v) (λ ch',
    ch_inv ch' ∧ same_shape ch ch' ∧ ring ch' = ring_insert k v (ring ch)).
Proof.
  intros Hch Hk Hsz. destruct (bucket_split ch k Hch Hk) as (n & b & Hn & Hb & Hlt & Hring & Hlow & Hhigh).
  unfold add_entry_with_key. rewrite get_bucket_num_eq, Hn by done. cbn [mbind outcome_bind].
  destruct Hch as [Ho Hf Hcnt Hp Hs Hc]. pose proof (zlength_nonneg (ring ch)).
  rewrite wp_bind. eapply wp_arr_get; [lia|by rewrite Nat2Z.id|].
  rewrite wp_bind. apply wp_arr_set; [unfold zlength; lia|]. rewrite Nat2Z.id.
  rewrite wp_bind. apply wp_checked_int; [unfold is_s32; lia|].
  wp_step. cbn [wp].
  set (b' := insert_into_bucket k v b).
  assert (ring (ConsistentHash (<[n:=b']> (ch_buckets ch)) (ch_order ch) (ch_uniform_factor ch)
    (ch_entries_cnt ch + 1)) = ring_insert k v (ring ch)) as Hr.
  { unfold ring at 1. cbn [ch_buckets]. rewrite join_insert, Hring by done.
    rewrite ring_insert_below by done. f_equal. unfold b'.
    rewrite insert_into_bucket_ring, ring_insert_above; [done|].
    eapply Forall_impl; [exact Hhigh|]. cbn. intros. lia. }
  split; [|by split]. split; cbn [ch_order ch_uniform_factor ch_buckets ch_entries_cnt]; try done.
  - by rewrite zlength_insert.
  - apply placed_insert; [done|]. unfold b'. rewrite insert_into_bucket_ring, ring_insert_perm.
    constructor; [|by apply Hp]. by split.
  - rewrite Hr. by apply ring_insert_sorted.
  - rewrite Hr, Hc. unfold zlength. rewrite ring_insert_perm. cbn [length]. lia.
Qed.

Lemma ring_remove_length k (l : list entry) : k ∈ (en_key <$> l) →
  zlength (ring_remove k l) = zlength l - 1.
Proof.
  induction l as [|e l IH]; cbn [ring_remove fmap list_fmap]; [by intros ?%not_elem_of_nil|].
  intros Hk. rewrite zlength_cons. case_bool_decide; [lia|]. rewrite zlength_cons, IH; [lia|].
  by apply elem_of_cons in Hk as [->|?].
Qed.

Lemma remove_entry_with_key_spec ch k :
  ch_inv ch → is_u32 k → k ∈ (en_key <$> ring ch) → zlength (ring ch) < 2 ^ 31 →
  wp (remove_entry_with_key ch k) (λ ch',
    ch_inv ch' ∧ same_shape ch ch' ∧ ring ch' = ring_remove k (ring ch)).
Proof.
  intros Hch Hk Hin Hsz. destruct (bucket_split ch k Hch Hk) as (n & b & Hn & Hb & Hlt & Hring & Hlow & Hhigh).
  assert (k ∈ (en_key <$> b)) as Hkb.
  { rewrite Hring, !fmap_app, !elem_of_app in Hin.
    destruct Hin as [(e & -> & He)%list_elem_of_fmap|[?|(e & -> & He)%list_elem_of_fmap]]; [|done|].
    - pose proof (proj1 (Forall_forall _ _) Hlow e He). cbn in *. lia.
    - pose proof (proj1 (Forall_forall _ _) Hhigh e He). cbn in *. lia. }
  unfold remove_entry_with_key. rewrite get_bucket_num_eq, Hn by done. cbn [mbind outcome_bind].
  destruct Hch as [Ho Hf Hcnt Hp Hs Hc].
  pose proof (ring_remove_length k (ring ch) Hin) as Hlen.
  pose proof (zlength_nonneg (ring_remove k (ring ch))).
  rewrite wp_bind. eapply wp_arr_get; [lia|by rewrite Nat2Z.id|].
  rewrite remove_from_bucket_ring, decide_True by done. cbn [mbind outcome_bind].
  rewrite wp_bind. apply wp_arr_set; [unfold zlength; lia|]. rewrite Nat2Z.id.
  rewrite wp_bind. apply wp_checked_int; [unfold is_s32; lia|].
  wp_step. cbn [wp].
  assert (ring (ConsistentHash (<[n:=ring_remove k b]> (ch_buckets ch)) (ch_order ch)
    (ch_uniform_factor ch) (ch_entries_cnt ch - 1)) = ring_remove k (ring ch)) as Hr.
  { unfold ring at 1. cbn [ch_buckets]. rewrite join_insert, Hring by done.
    rewrite ring_remove_below; [f_equal; by rewrite ring_remove_app|].
    eapply Forall_impl; [exact Hlow|]. cbn. intros. lia. }
  split; [|by split]. split; cbn [ch_order ch_uniform_factor ch_buckets ch_entries_cnt]; try done.
  - by rewrite zlength_insert.
  - apply placed_insert; [done|]. apply ring_remove_forall. by apply Hp.
  - rewrite Hr. by apply ring_remove_sorted.
  - rewrite Hr, Hc. lia.
Qed.
End refinement.

(** ** Entries: several points with the same value *)

Section entries.
Context {V : Type} `{FFHashSpec}.
#[local] Abbreviation entry := (consistent_hash_entry V).
Implicit Types (ch : mrpc_consistent_hash V) (l r b : list entry) (k h key : Z) (v : V)
  (buckets : list (list entry)).

Definition points (n i : nat) key : list Z := point key <$> seq i n.

Definition ring_add (ks : list Z) v l : list entry := foldl (λ l k, ring_insert k v l) l ks.
Definition ring_take (ks : list Z) l : list entry := foldl (λ l k, ring_remove k l) l ks.

(** The points of [key] in a ring with the given uniform factor. *)
Definition entry_points ch key : list Z := points (Z.to_nat (ch_uniform_factor ch)) 0 key.

Lemma point_u32 key i : is_u32 (point key i).
Proof. apply ff_hash_uint32_range. Qed.

Lemma ring_add_insert ks k v l : ring_add ks v (ring_insert k v l) = ring_insert k v (ring_add ks v l).
Proof.
  revert l. induction ks as [|k' ks IH]; intros l; [done|].
  change (ring_add ks v (ring_insert k' v (ring_insert k v l)) =
          ring_insert k v (ring_add ks v (ring_insert k' v l))).
  by rewrite ring_insert_comm, IH.
Qed.

Lemma ring_add_perm ks v l : ring_add ks v l ≡ₚ ((λ k, Entry k v) <$> ks) ++ l.
Proof.
  revert l. induction ks as [|k ks IH]; intros l; [done|].
  change (ring_add (k :: ks) v l) with (ring_add ks v (ring_insert k v l)).
  by rewrite ring_add_insert, ring_insert_perm, IH.
Qed.

Lemma ring_take_add ks v l : ring_take ks (ring_add ks v l) = l.
Proof.
  revert l. induction ks as [|k ks IH]; intros l; [done|].
  change (ring_take ks (ring_remove k (ring_add ks v (ring_insert k v l))) = l).
  by rewrite ring_add_insert, ring_remove_insert.
Qed.

(** The point removed has the right key, and is the right one when all points
    with this key are equal. *)
Lemma ring_remove_perm k l : k ∈ (en_key <$> l) →
  ∃ e, en_key e = k ∧ l ≡ₚ e :: ring_remove k l.
Proof.
  induction l as [|e l IH]; cbn [ring_remove fmap list_fmap]; [by intros ?%not_elem_of_nil|].
  intros Hk. case_bool_decide as Hc; [by exists e|].
  apply elem_of_cons in Hk as [->|Hk]; [done|]. destruct (IH Hk) as (f & Hf & Hl).
  exists f. split; [done|]. by rewrite Permutation_swap, <- Hl.
Qed.

Lemma ring_take_perm ks v l r :
  l ≡ₚ ((λ k, Entry k v) <$> ks) ++ r → Forall (λ e, en_key e ∉ ks) r →
  ring_take ks l ≡ₚ r.
Proof.
  revert l. induction ks as [|k ks IH]; intros l Hl Hr; cbn in *; [done|].
  assert (k ∈ (en_key <$> l)) as Hk by (rewrite Hl; cbn; by left).
  apply IH.
  - destruct (ring_remove_perm k l Hk) as (e & He & Hle).
    assert (e = Entry k v) as ->.
    { assert (e ∈ l) as Hin by (rewrite Hle; by left). rewrite Hl in Hin.
      rewrite elem_of_cons, elem_of_app in Hin.
      destruct Hin as [?|[(k' & -> & ?)%list_elem_of_fmap|Hin]]; [done|by cbn in He; subst|].
      pose proof (proj1 (Forall_forall _ _) Hr e Hin) as Hn. cbn in Hn.
      rewrite He in Hn. by destruct Hn; left. }
    apply (Permutation_cons_inv (a := Entry k v)). by rewrite <- Hle, Hl.
  - eapply Forall_impl; [exact Hr|]. cbn. intros e He Hin. apply He. by right.
Qed.

Lemma add_points_spec n i ch key v :
  ch_inv ch → zlength (ring ch) + Z.of_nat n < 2 ^ 31 →
  wp (add_points n i ch key v) (λ ch',
    ch_inv ch' ∧ same_shape ch ch' ∧ ring ch' = ring_add (points n i key) v (ring ch)).
Proof.
  revert i ch. induction n as [|n IH]; intros i ch Hch Hsz; cbn [add_points]; [by cbn|].
  rewrite wp_bind. eapply wp_mono.
  { apply add_entry_with_key_spec; [done|apply point_u32|lia]. }
  intros ch1 (Hch1 & [Ho1 Hf1] & Hr1). eapply wp_mono.
  { apply IH; [done|]. rewrite Hr1. unfold zlength in *. rewrite ring_insert_perm. cbn [length]. lia. }
  intros ch2 (Hch2 & [Ho2 Hf2] & Hr2). split; [done|]. split; [by split; congruence|].
  by rewrite Hr2, Hr1.
Qed.

Lemma ring_remove_keys k l ks : en_key <$> l ≡ₚ k :: ks → en_key <$> ring_remove k l ≡ₚ ks.
Proof.
  intros Hl. destruct (ring_remove_perm k l) as (e & He & Hle); [rewrite Hl; by left|].
  apply (Permutation_cons_inv (a := k)). rewrite <- Hl.
  trans (en_key <$> (e :: ring_remove k l)); [cbn; by rewrite He|].
  apply fmap_Permutation. by symmetry.
Qed.

Lemma remove_points_spec n i ch key ks :
  ch_inv ch → zlength (ring ch) < 2 ^ 31 → en_key <$> ring ch ≡ₚ points n i key ++ ks →
  wp (remove_points n i ch key) (λ ch',
    ch_inv ch' ∧ same_shape ch ch' ∧ ring ch' = ring_take (points n i key) (ring ch)).
Proof.
  revert i ch. induction n as [|n IH]; intros i ch Hch Hsz Hks; cbn [remove_points]; [by cbn|].
  assert (point key i ∈ (en_key <$> ring ch)) as Hin by (rewrite Hks; cbn; by left).
  rewrite wp_bind. eapply wp_mono.
  { apply remove_entry_with_key_spec; [done|apply point_u32|done|done]. }
  intros ch1 (Hch1 & [Ho1 Hf1] & Hr1). eapply wp_mono.
  { apply IH; [done| |].
    - rewrite Hr1, ring_remove_length by done. lia.
    - rewrite Hr1. apply ring_remove_keys. by rewrite Hks. }
  intros ch2 (Hch2 & [Ho2 Hf2] & Hr2). split; [done|]. split; [by split; congruence|].
  by rewrite Hr2, Hr1.
Qed.

(** ** Lookup *)

Lemma above_all_bucket s buckets i b h : placed s buckets → buckets !! i = Some b →
  h <= 0 → above h b = head b.
Proof.
  intros Hp Hi Hh. specialize (Hp i b Hi). destruct Hp as [|e b' [He _] _]; [done|].
  cbn. unfold is_u32 in He. by rewrite bool_decide_eq_true_2 by lia.
Qed.

Lemma head_app l r : head (l ++ r) = match head l with Some e => Some e | None => head r end.
Proof. by destruct l. Qed.

(** From bucket 0 to bucket [n] after the wrap-around. *)
Lemma get_entry_low s buckets cnt n i : placed s buckets → (i + n < length buckets)%nat →
  cnt = zlength buckets → cnt < 2 ^ 32 →
  get_entry_loop n buckets cnt (Z.of_nat i) 0 =
  match head (mjoin (take n (drop i buckets))) with
  | Some e => Ret (en_value e)
  | None => Fault AssertionFailed
  end.
Proof.
  intros Hp Hn -> Hcnt. revert i Hn. induction n as [|n IH]; intros i Hn; [done|].
  destruct (lookup_lt_is_Some_2 buckets i ltac:(lia)) as [b Hb].
  cbn [get_entry_loop]. unfold arr_get.
  rewrite (bool_decide_eq_true_2 (0 <= Z.of_nat i)) by lia.
  rewrite Nat2Z.id, Hb. cbn [mbind outcome_bind].
  rewrite find_in_bucket_above, (above_all_bucket s buckets i b) by done.
  rewrite (drop_S buckets b i Hb). cbn [take mjoin list_join]. rewrite head_app.
  destruct (head b) as [e|]; [done|]. cbn [fmap option_fmap option_map].
  unfold zlength in *. rewrite u32_id by (unfold is_u32; lia).
  rewrite bool_decide_eq_false_2 by lia.
  replace (Z.of_nat i + 1) with (Z.of_nat (S i)) by lia. apply IH. lia.
Qed.

(** From the bucket of the hash to the last one, then from bucket 0. *)
Lemma get_entry_high s buckets cnt n m i h : placed s buckets →
  (i + n = length buckets)%nat → (0 < n)%nat → (m < length buckets)%nat →
  cnt = zlength buckets → cnt < 2 ^ 32 →
  get_entry_loop (n + m) buckets cnt (Z.of_nat i) h =
  match above h (mjoin (drop i buckets)) with
  | Some e => Ret (en_value e)
  | None => match head (mjoin (take m buckets)) with
            | Some e => Ret (en_value e)
            | None => Fault AssertionFailed
            end
  end.
Proof.
  intros Hp Hn Hpos Hm -> Hcnt. revert i Hn. induction n as [|n IH]; [lia|]. intros i Hn.
  destruct (lookup_lt_is_Some_2 buckets i ltac:(lia)) as [b Hb].
  cbn [get_entry_loop Nat.add]. unfold arr_get.
  rewrite (bool_decide_eq_true_2 (0 <= Z.of_nat i)) by lia.
  rewrite Nat2Z.id, Hb. cbn [mbind outcome_bind].
  rewrite find_in_bucket_above, (drop_S buckets b i Hb). cbn [mjoin list_join]. rewrite above_app.
  destruct (above h b) as [e|]; [done|]. cbn [fmap option_fmap option_map].
  unfold zlength in *. rewrite u32_id by (unfold is_u32; lia).
  destruct n as [|n].
  - rewrite bool_decide_eq_true_2 by lia. rewrite (drop_ge buckets (S i)) by lia.
    cbn [mjoin list_join above Nat.add]. change 0 with (Z.of_nat 0) at 1.
    by rewrite (get_entry_low s).
  - rewrite bool_decide_eq_false_2 by lia.
    replace (Z.of_nat i + 1) with (Z.of_nat (S i)) by lia. apply IH; lia.
Qed.

(** Lookup finds the successor on the ring, except that it does not come back to
    the bucket it starts with. *)
Definition lookup_result ch h : outcome V :=
  match above h (ring ch), head (ring ch) with
  | Some e, _ => Ret (en_value e)
  | None, Some e => if bool_decide (bucket_of ch (en_key e) = bucket_of ch h)
                    then Fault AssertionFailed else Ret (en_value e)
  | None, None => Fault AssertionFailed
  end.

Lemma above_below h l r : Forall (λ e, en_key e < h) l → above h (l ++ r) = above h r.
Proof. intros Hl%above_none. by rewrite above_app, Hl. Qed.

Lemma get_entry_eq ch key : ch_inv ch → ring ch ≠ [] →
  mrpc_consistent_hash_get_entry ch key = lookup_result ch (ff_hash_uint32 0 [key]).
Proof.
  intros Hch Hne. set (h := ff_hash_uint32 0 [key]).
  assert (is_u32 h) as Hh by apply ff_hash_uint32_range.
  destruct (bucket_split ch h Hch Hh) as (n & b & Hn & Hb & Hlt & Hring & Hlow & Hhigh).
  unfold mrpc_consistent_hash_get_entry. fold h. rewrite get_bucket_num_eq, Hn by done.
  cbn [mbind outcome_bind]. destruct Hch as [Ho Hf Hcnt Hp Hs Hc].
  rewrite bool_decide_eq_true_2.
  2:{ rewrite Hc. destruct (ring ch); [done|]. rewrite zlength_cons.
      match goal with |- context [zlength ?x] => pose proof (zlength_nonneg x) end. lia. }
  cbn [ff_assert mbind outcome_bind]. rewrite Z.shiftl_mul_pow2, Z.mul_1_l, <- Hcnt by lia.
  assert (2 ^ ch_order ch < 2 ^ 32) by (apply Z.pow_lt_mono_r; lia).
  unfold zlength at 1. rewrite Nat2Z.id.
  replace (length (ch_buckets ch)) with ((length (ch_buckets ch) - n) + n)%nat at 1 by lia.
  rewrite (get_entry_high (32 - ch_order ch)); try done; try lia.
  unfold lookup_result. rewrite Hring at 1. rewrite above_below by done.
  rewrite (drop_S _ b n) by done. cbn [mjoin list_join].
  destruct (above h (b ++ _)) as [e|] eqn:Ha; [done|].
  rewrite Hring. destruct (mjoin (take n (ch_buckets ch))) as [|e l] eqn:Hl; cbn [head app].
  - (* all points are in the bucket of the hash *)
    rewrite head_app. apply above_none in Ha. apply Forall_app in Ha as [_ Ha].
    destruct b as [|e b']; cbn [head].
    + destruct (mjoin (drop (S n) (ch_buckets ch))) as [|e l']; [done|]. cbn.
      apply Forall_cons in Ha as [? _]. apply Forall_cons in Hhigh as [? _]. lia.
    + rewrite bool_decide_eq_true_2; [done|]. rewrite Hn.
      specialize (Hp n _ Hb). apply Forall_cons in Hp as [[_ Hp] _]. exact Hp.
  - (* the first point is in an earlier bucket *)
    rewrite bool_decide_eq_false_2; [done|]. rewrite Hn.
    assert (e ∈ mjoin (take n (ch_buckets ch))) as He by (rewrite Hl; by left).
    apply in_mjoin in He as (i & b' & Hi & He). apply lookup_take_Some in Hi as [Hi Hin].
    specialize (Hp i b' Hi). destruct (proj1 (Forall_forall _ _) Hp e He) as [_ Heq].
    unfold bucket_of. lia.
Qed.

(** When the first point of the ring is in the bucket of [h] and all points are
    below [h], all of them are in this bucket. *)
Lemma ring_ends ch h : ch_inv ch →
  match ring ch with
  | [] => True
  | e :: l => Forall (λ f, en_key f < h) (e :: l) → bucket_of ch (en_key e) = bucket_of ch h →
      Forall (λ f, bucket_of ch (en_key f) = bucket_of ch h ∧ en_key f < h) (e :: l)
  end.
Proof.
  intros [Ho _ _ _ Hs _]. destruct (ring ch) as [|e l]; [done|]. intros Hall He.
  apply Forall_forall. intros f Hf. pose proof (proj1 (Forall_forall _ _) Hall f Hf) as Hfh.
  cbn in Hfh. split; [|done]. apply StronglySorted_inv in Hs as [_ Hs].
  assert (en_key e <= en_key f) as Hef.
  { apply elem_of_cons in Hf as [->|Hf]; [lia|]. by apply (proj1 (Forall_forall _ _) Hs). }
  unfold bucket_of in *. rewrite !Z.shiftr_div_pow2 in * by lia.
  pose proof (Z.div_le_mono (en_key e) (en_key f) (2 ^ (32 - ch_order ch)) ltac:(lia) Hef).
  pose proof (Z.div_le_mono (en_key f) h (2 ^ (32 - ch_order ch)) ltac:(lia) ltac:(lia)). lia.
Qed.

(** ** Removing everything *)

Lemma remove_all_loop_spec n i buckets cnt :
  (i + n = length buckets)%nat → is_s32 cnt →
  zlength (mjoin (drop i buckets)) <= cnt →
  wp (remove_all_loop n (Z.of_nat i) buckets cnt) (λ '(buckets', cnt'),
    buckets' = take i buckets ++ replicate n [] ∧
    cnt' = cnt - zlength (mjoin (drop i buckets))).
Proof.
  revert i buckets cnt. induction n as [|n IH]; intros i buckets cnt Hi Hcnt Hsz; cbn [remove_all_loop].
  - cbn. rewrite drop_ge, take_ge, app_nil_r by lia. split; [done|]. symmetry. apply Z.sub_0_r.
  - destruct (lookup_lt_is_Some_2 buckets i ltac:(lia)) as [b Hb].
    rewrite (drop_S buckets b i Hb), mjoin_cons, zlength_app in *.
    pose proof (zlength_nonneg b). pose proof (zlength_nonneg (mjoin (drop (S i) buckets))).
    rewrite wp_bind. eapply wp_arr_get; [lia|by rewrite Nat2Z.id|].
    rewrite wp_bind. apply wp_checked_int; [unfold is_s32 in *; lia|].
    rewrite wp_bind. apply wp_arr_set; [unfold zlength; lia|]. rewrite Nat2Z.id.
    replace (Z.of_nat i + 1) with (Z.of_nat (S i)) by lia. eapply wp_mono.
    { apply IH; [rewrite length_insert; lia|unfold is_s32 in *; lia|].
      rewrite drop_insert_lt by lia. lia. }
    intros [buckets' cnt'] [-> ->]. rewrite drop_insert_lt by lia. split; [|lia].
    rewrite (take_S_r _ _ []) by (apply list_lookup_insert_eq; lia).
    rewrite take_insert_ge by lia. by rewrite <- app_assoc.
Qed.
End entries.

Section entry_specs.
Context {V : Type} `{FFHashSpec}.
Implicit Types (ch : mrpc_consistent_hash V) (key : Z) (v : V).

Lemma join_replicate_nil n : mjoin (replicate n []) = ([] : list (consistent_hash_entry V)).
Proof. induction n; cbn; done. Qed.

Lemma empty_inv order uniform_factor : 1 <= order <= 20 → 0 < uniform_factor < 256 →
  ch_inv (V := V) (ConsistentHash (replicate (Z.to_nat (Z.shiftl 1 order)) []) order
                     uniform_factor 0).
Proof.
  intros Ho Hu. split; cbn [ch_order ch_uniform_factor ch_buckets ch_entries_cnt]; try done.
  - rewrite zlength_replicate, Z.shiftl_mul_pow2 by lia. lia.
  - intros i b [-> _]%lookup_replicate. constructor.
  - unfold ring. cbn [ch_buckets]. rewrite join_replicate_nil. constructor.
  - unfold ring. cbn [ch_buckets]. by rewrite join_replicate_nil.
Qed.

Lemma ch_create_spec order uniform_factor :
  1 <= order <= 20 → 0 < uniform_factor < 256 →
  wp (mrpc_consistent_hash_create order uniform_factor) (λ ch,
    ch_inv ch ∧ ring ch = [] ∧ ch_order ch = order ∧ ch_uniform_factor ch = uniform_factor).
Proof.
  intros Ho Hu. unfold mrpc_consistent_hash_create. do 4 wp_step. cbn [wp].
  split; [by apply empty_inv|]. split; [apply join_replicate_nil|done].
Qed.

Lemma add_entry_spec ch key v :
  ch_inv ch → zlength (ring ch) + 256 <= 2 ^ 31 →
  wp (mrpc_consistent_hash_add_entry ch key v) (λ ch',
    ch_inv ch' ∧ same_shape ch ch' ∧ ring ch' = ring_add (entry_points ch key) v (ring ch)).
Proof.
  intros Hch Hsz. apply add_points_spec; [done|]. destruct (ch_factor_range _ Hch). lia.
Qed.

Lemma remove_entry_spec ch key ks :
  ch_inv ch → zlength (ring ch) < 2 ^ 31 → en_key <$> ring ch ≡ₚ entry_points ch key ++ ks →
  wp (mrpc_consistent_hash_remove_entry ch key) (λ ch',
    ch_inv ch' ∧ same_shape ch ch' ∧ ring ch' = ring_take (entry_points ch key) (ring ch)).
Proof.
  intros Hch Hsz Hks. unfold mrpc_consistent_hash_remove_entry. wp_step.
  - apply bool_decide_eq_true_2. rewrite (ch_count _ Hch).
    destruct (ch_factor_range _ Hch) as [Hf _]. apply Permutation_length in Hks.
    rewrite length_fmap, length_app in Hks. unfold entry_points, points in Hks.
    rewrite length_fmap, length_seq in Hks. unfold zlength. lia.
  - by eapply remove_points_spec.
Qed.

Lemma remove_all_spec ch : ch_inv ch → zlength (ring ch) < 2 ^ 31 →
  wp (mrpc_consistent_hash_remove_all_entries ch) (λ ch',
    ch_inv ch' ∧ same_shape ch ch' ∧ ring ch' = []).
Proof.
  intros Hch Hsz. pose proof (empty_inv _ _ (ch_order_range _ Hch) (ch_factor_range _ Hch)) as Hempty.
  pose proof (zlength_nonneg (ring ch)). destruct Hch as [Ho Hf Hcnt Hp Hs Hc].
  unfold mrpc_consistent_hash_remove_all_entries. rewrite wp_bind. eapply wp_mono.
  { apply (remove_all_loop_spec _ 0); [|unfold is_s32; rewrite Hc; lia|rewrite Hc; apply Z.le_refl].
    rewrite Z.shiftl_mul_pow2, Z.mul_1_l, <- Hcnt by lia. unfold zlength. lia. }
  intros [buckets cnt] [-> ->]. cbn [fst snd]. wp_step.
  { apply bool_decide_eq_true_2. rewrite Hc. apply Z.sub_diag. }
  cbn [wp]. split; [done|]. split; [done|]. apply join_replicate_nil.
Qed.
End entry_specs.

(** ** Histories *)

Inductive ch_op (V : Type) :=
  | ChAdd (key : Z) (value : V)
  | ChRemove (key : Z)
  | ChRemoveAll.
Arguments ChAdd {V}.
Arguments ChRemove {V}.
Arguments ChRemoveAll {V}.

Section histories.
Context {V : Type} `{FFHash}.

Definition ch_step (op : ch_op V) (ch : mrpc_consistent_hash V) : outcome (mrpc_consistent_hash V) :=
  match op with
  | ChAdd key value => mrpc_consistent_hash_add_entry ch key value
  | ChRemove key => mrpc_consistent_hash_remove_entry ch key
  | ChRemoveAll => mrpc_consistent_hash_remove_all_entries ch
  end.

Fixpoint ch_run (ops : list (ch_op V)) (ch : mrpc_consistent_hash V) :
    outcome (mrpc_consistent_hash V) :=
  match ops with
  | [] => Ret ch
  | op :: ops => ch ← ch_step op ch; ch_run ops ch
  end.

(** The entries present after an operation. *)
Definition registered_after (op : ch_op V) (reg : list (Z * V)) : list (Z * V) :=
  match op with
  | ChAdd key value => (key, value) :: reg
  | ChRemove key => filter (λ kv, kv.1 ≠ key) reg
  | ChRemoveAll => []
  end.

(** An entry is added once at a time, removed when it is present ("It is
    assumed that the entry already exists"), and points of different entries do
    not collide. *)
Definition ch_op_allowed (n : nat) (op : ch_op V) (reg : list (Z * V)) : Prop :=
  match op with
  | ChAdd key _ => zlength reg < 2 ^ 16 ∧
      Forall (λ kv, kv.1 ≠ key ∧ Forall (λ p, p ∉ points n 0 key) (points n 0 kv.1)) reg
  | ChRemove key => key ∈ reg.*1
  | ChRemoveAll => True
  end.

Fixpoint ch_history (n : nat) (ops : list (ch_op V)) (reg : list (Z * V)) : Prop :=
  match ops with
  | [] => True
  | op :: ops => ch_op_allowed n op reg ∧ ch_history n ops (registered_after op reg)
  end.

Definition registered (ops : list (ch_op V)) (reg : list (Z * V)) : list (Z * V) :=
  foldl (λ reg op, registered_after op reg) reg ops.

(** The points of all registered entries. *)
Definition all_points (n : nat) (reg : list (Z * V)) : list (consistent_hash_entry V) :=
  reg ≫= λ kv, (λ k, Entry k kv.2) <$> points n 0 kv.1.
End histories.

Section history_specs.
Context {V : Type} `{FFHashSpec}.
Implicit Types (ch : mrpc_consistent_hash V) (reg : list (Z * V)).

Lemma points_length n i key : length (points n i key) = n.
Proof. unfold points. by rewrite length_fmap, length_seq. Qed.

Lemma all_points_length n reg : zlength (all_points n reg) = Z.of_nat n * zlength reg.
Proof.
  unfold zlength, all_points. induction reg as [|kv reg IH]; cbn [mbind list_bind length]; [lia|].
  rewrite length_app, length_fmap, points_length. lia.
Qed.

(** Entries which are all different, with points of their own. *)
Fixpoint apart (n : nat) reg : Prop :=
  match reg with
  | [] => True
  | kv :: reg => Forall (λ kv', kv'.1 ≠ kv.1 ∧
      Forall (λ p, p ∉ points n 0 kv.1) (points n 0 kv'.1)) reg ∧ apart n reg
  end.

Lemma apart_filter n reg (R : Z * V → Prop) `{∀ kv, Decision (R kv)} :
  apart n reg → apart n (filter R reg).
Proof.
  induction reg as [|kv reg IH]; [done|]. intros [Hkv Hreg]. rewrite filter_cons.
  case_decide; [|auto]. split; [|auto]. apply Forall_forall. intros kv' [_ Hin]%list_elem_of_filter.
  by apply (proj1 (Forall_forall _ _) Hkv).
Qed.

Lemma filter_others reg key : Forall (λ kv, kv.1 ≠ key) reg → filter (λ kv, kv.1 ≠ key) reg = reg.
Proof.
  induction 1 as [|kv reg Hkv _ IH]; [done|]. rewrite filter_cons, decide_True by done. by rewrite IH.
Qed.

(** Taking the entry with [key] out of the registered ones. *)
Lemma registered_split n reg key : apart n reg → key ∈ reg.*1 →
  ∃ value, reg ≡ₚ (key, value) :: filter (λ kv, kv.1 ≠ key) reg ∧
    Forall (λ e, en_key e ∉ points n 0 key) (all_points n (filter (λ kv, kv.1 ≠ key) reg)).
Proof.
  induction reg as [|[k v] reg IH]; cbn [fmap list_fmap fst]; [by intros _ ?%not_elem_of_nil|].
  intros [Hkv Hreg] Hin. rewrite filter_cons. cbn [fst] in *. destruct (decide (k = key)) as [->|Hne].
  - rewrite decide_False by tauto. exists v.
    rewrite filter_others by (eapply Forall_impl; [exact Hkv|]; cbn; tauto).
    split; [done|]. apply Forall_forall. intros e (kv & He & Hkv')%list_elem_of_bind.
    apply list_elem_of_fmap in He as (p & -> & Hp). cbn.
    destruct (proj1 (Forall_forall _ _) Hkv kv Hkv') as [_ Hd].
    by apply (proj1 (Forall_forall _ _) Hd).
  - rewrite decide_True by done. apply elem_of_cons in Hin as [->|Hin]; [done|].
    destruct (IH Hreg Hin) as (value & Hp & Hd). exists value. split.
    + rewrite Permutation_swap. by rewrite <- Hp.
    + cbn [all_points mbind list_bind]. apply Forall_app. split; [|done].
      apply Forall_forall. intros e (p & -> & Hp')%list_elem_of_fmap. cbn in *.
      apply list_elem_of_fmap in Hin as ([k' v'] & -> & Hin').
      destruct (proj1 (Forall_forall _ _) Hkv _ Hin') as [_ Hd']. cbn in Hd'.
      intros Hin. by apply (proj1 (Forall_forall _ _) Hd' p Hin).
Qed.

Lemma ch_step_spec n op ch reg :
  ch_inv ch → n = Z.to_nat (ch_uniform_factor ch) → ring ch ≡ₚ all_points n reg →
  apart n reg → zlength reg <= 2 ^ 16 → ch_op_allowed n op reg →
  wp (ch_step op ch) (λ ch',
    ch_inv ch' ∧ same_shape ch ch' ∧ ring ch' ≡ₚ all_points n (registered_after op reg)) ∧
  apart n (registered_after op reg) ∧ zlength (registered_after op reg) <= 2 ^ 16.
Proof.
  intros Hch -> Hring Hap Hlen Hop. destruct (ch_factor_range _ Hch) as [Hf1 Hf2].
  assert (zlength (ring ch) <= 255 * 2 ^ 16) as Hsz.
  { unfold zlength. rewrite Hring. fold (zlength (all_points (Z.to_nat (ch_uniform_factor ch)) reg)).
    rewrite all_points_length. pose proof (zlength_nonneg reg). nia. }
  destruct op as [key value|key|]; cbn [ch_op_allowed registered_after ch_step] in *.
  - destruct Hop as [Hl Hkv]. split; [|by split; [|rewrite zlength_cons; lia]].
    eapply wp_mono; [apply add_entry_spec; [done|lia]|]. intros ch' (Hch' & Hsh & Hr).
    do 2 (split; [done|]). rewrite Hr, ring_add_perm, Hring. done.
  - destruct (registered_split _ reg key Hap Hop) as (value & Hp & Hd).
    split; [|split; [by apply apart_filter|]].
    2:{ pose proof (length_filter (λ kv, kv.1 ≠ key) reg). unfold zlength in *. lia. }
    assert (ring ch ≡ₚ ((λ k, Entry k value) <$> entry_points ch key) ++
      all_points (Z.to_nat (ch_uniform_factor ch)) (filter (λ kv, kv.1 ≠ key) reg)) as Hr.
    { rewrite Hring. unfold all_points. by rewrite Hp at 1. }
    eapply wp_mono.
    { eapply remove_entry_spec; [done|lia|]. rewrite Hr, fmap_app, <- list_fmap_compose.
      rewrite list_fmap_id. reflexivity. }
    intros ch' (Hch' & Hsh & ->). do 2 (split; [done|]). by eapply ring_take_perm.
  - split; [|by split; [|change (0 <= 2 ^ 16); lia]].
    eapply wp_mono; [apply remove_all_spec; [done|lia]|].
    intros ch' (Hch' & Hsh & ->). by do 2 (split; [done|]).
Qed.

Lemma ch_run_spec n ops ch reg :
  ch_inv ch → n = Z.to_nat (ch_uniform_factor ch) → ring ch ≡ₚ all_points n reg →
  apart n reg → zlength reg <= 2 ^ 16 → ch_history n ops reg →
  wp (ch_run ops ch) (λ ch',
    ch_inv ch' ∧ same_shape ch ch' ∧ ring ch' ≡ₚ all_points n (registered ops reg)).
Proof.
  revert ch reg. induction ops as [|op ops IH]; intros ch reg Hch Hn Hring Hap Hlen Hops;
    cbn [ch_run]; [by cbn|]. destruct Hops as [Hop Hops].
  destruct (ch_step_spec n op ch reg) as (Hstep & Hap' & Hlen'); try done.
  rewrite wp_bind. eapply wp_mono; [exact Hstep|]. intros ch1 (Hch1 & [Ho1 Hf1] & Hr1).
  eapply wp_mono; [apply (IH ch1 (registered_after op reg)); try done; by rewrite Hf1|].
  intros ch2 (Hch2 & [Ho2 Hf2] & Hr2). split; [done|]. split; [by split; congruence|done].
Qed.
End history_specs.

(** ** Changes of the ring seen by lookups *)

Section locality.
Context {V : Type} `{FFHashSpec}.
Implicit Types (ch : mrpc_consistent_hash V) (key : Z) (v : V).

Lemma get_entry_successor ch key a : ch_inv ch →
  mrpc_consistent_hash_get_entry ch key = Ret a →
  ∃ e, successor (ff_hash_uint32 0 [key]) (ring ch) = Some e ∧ en_value e = a.
Proof.
  intros Hch Hget. assert (ring ch ≠ []) as Hne.
  { intros Hnil. unfold mrpc_consistent_hash_get_entry in Hget.
    by rewrite (ch_count _ Hch), Hnil in Hget. }
  rewrite get_entry_eq in Hget by done. unfold lookup_result, successor in *.
  destruct (above _ (ring ch)) as [e|]; [by simplify_eq; eauto|].
  destruct (ring ch) as [|e l]; [done|]. cbn in *. case_bool_decide; [done|].
  simplify_eq. eauto.
Qed.

Lemma successor_add h ks v (l : list (consistent_hash_entry V)) e :
  successor h l = Some e → ∃ e', successor h (ring_add ks v l) = Some e' ∧
    (e' = e ∨ en_value e' = v).
Proof.
  revert l e. induction ks as [|k ks IH]; intros l e Hl; [by exists e; auto|].
  change (ring_add (k :: ks) v l) with (ring_add ks v (ring_insert k v l)).
  destruct (successor_insert h k v l e Hl) as [He|He];
    destruct (IH _ _ He) as (e' & He' & Hor); exists e'; (split; [done|]); [done|].
  right. by destruct Hor as [->|?].
Qed.

Lemma successor_take h ks (l : list (consistent_hash_entry V)) e :
  successor h l = Some e → en_key e ∉ ks → successor h (ring_take ks l) = Some e.
Proof.
  revert l. induction ks as [|k ks IH]; intros l Hl Hks; [done|].
  apply not_elem_of_cons in Hks as [Hk Hks].
  change (ring_take (k :: ks) l) with (ring_take ks (ring_remove k l)).
  apply IH; [|done]. by apply successor_remove.
Qed.
End locality.

(** Lookup goes clockwise, and does not come back to the bucket of the hash. *)
Lemma lookup_nearest {V : Type} (ch : mrpc_consistent_hash V) (h : Z) :
  ch_inv ch → ring ch ≠ [] → is_u32 h →
  if decide (Forall (λ e, bucket_of ch (en_key e) = bucket_of ch h ∧ en_key e < h) (ring ch))
  then lookup_result ch h = Fault AssertionFailed
  else ∃ e, lookup_result ch h = Ret (en_value e) ∧ e ∈ ring ch ∧
    ∀ f, f ∈ ring ch → distance h (en_key e) <= distance h (en_key f).
Proof.
  intros Hch Hne Hh. unfold lookup_result.
  assert (Forall (λ f, is_u32 (en_key f)) (ring ch)) as Hu.
  { apply Forall_forall. intros e (i & b & Hi & He)%in_mjoin.
    by apply (proj1 (Forall_forall _ _) (ch_placed _ Hch i b Hi)). }
  pose proof (λ e, successor_nearest h (ring ch) e Hh (ch_sorted _ Hch) Hu) as Hnear.
  unfold successor in Hnear. destruct (above h (ring ch)) as [e|] eqn:Ha.
  - destruct (above_some _ _ _ (ch_sorted _ Hch) Ha) as (Hin & Hle & _).
    rewrite decide_False.
    + exists e. by split; [|apply Hnear].
    + intros Hall. destruct (proj1 (Forall_forall _ _) Hall e Hin). lia.
  - apply above_none in Ha. pose proof (ring_ends ch h Hch) as Hends.
    destruct (ring ch) as [|e l] eqn:Hr; [done|]. cbn [head] in *.
    case_bool_decide as Hb.
    + rewrite decide_True; [done|]. by apply Hends.
    + rewrite decide_False; [by exists e; split; [|apply Hnear]|].
      intros Hall. apply Forall_cons in Hall as [[? _] _]. done.
Qed.

(** ** Properties *)

(** C38.  Lookup returns the value of the point which is nearest to the hash of
    the key in clockwise direction, over all points on the ring; it fails its
    last assertion exactly when all points lie in the bucket of the hash, below
    the hash, since the loop visits every bucket once and does not come back to
    the first one. *)
Theorem get_entry_nearest {V : Type} `{FFHashSpec} (ch : mrpc_consistent_hash V) (key : Z) :
  ch_inv ch → ring ch ≠ [] →
  let h := ff_hash_uint32 0 [key] in
  if decide (Forall (λ e, bucket_of ch (en_key e) = bucket_of ch h ∧ en_key e < h) (ring ch))
  then mrpc_consistent_hash_get_entry ch key = Fault AssertionFailed
  else ∃ e, mrpc_consistent_hash_get_entry ch key = Ret (en_value e) ∧ e ∈ ring ch ∧
    ∀ f, f ∈ ring ch → distance h (en_key e) <= distance h (en_key f).
Proof.
  intros Hch Hne h. rewrite get_entry_eq by done.
  apply lookup_nearest; [done|done|apply ff_hash_uint32_range].
Qed.

Definition sample_ring : mrpc_consistent_hash bool :=
  ConsistentHash [[Entry 5 true]; [Entry (2 ^ 31 + 7) false]] 1 1 2.

Lemma sample_ring_inv : ch_inv sample_ring.
Proof.
  split; cbn; try lia; try done.
  - intros [|[|i]] b; cbn; [intros [= <-]|intros [= <-]|done];
      (constructor; [vm_compute; intuition congruence|constructor]).
  - constructor; [by repeat constructor|]. constructor; [cbn; lia|constructor].
Qed.

Lemma get_entry_nearest_witness :
  let h := @ff_hash_uint32 mix_hash 0 [77] in
  if decide (Forall (λ e, bucket_of sample_ring (en_key e) = bucket_of sample_ring h ∧
                          en_key e < h) (ring sample_ring))
  then @mrpc_consistent_hash_get_entry bool mix_hash sample_ring 77 = Fault AssertionFailed
  else ∃ e, @mrpc_consistent_hash_get_entry bool mix_hash sample_ring 77 = Ret (en_value e) ∧
    e ∈ ring sample_ring ∧
    ∀ f, f ∈ ring sample_ring → distance h (en_key e) <= distance h (en_key f).
Proof.
  apply (@get_entry_nearest bool mix_hash mix_hash_spec sample_ring 77);
    [exact sample_ring_inv | discriminate].
Defined.



(** Consistency: adding an entry changes the result of a lookup only to the
    value of the new entry; keys never move between old entries. *)
Lemma add_entry_consistent {V : Type} `{FFHashSpec} (ch : mrpc_consistent_hash V)
    (key request : Z) (v : V) :
  ch_inv ch → zlength (ring ch) + 256 <= 2 ^ 31 →
  wp (mrpc_consistent_hash_add_entry ch key v) (λ ch',
    ∀ a b, mrpc_consistent_hash_get_entry ch request = Ret a →
      mrpc_consistent_hash_get_entry ch' request = Ret b → b = a ∨ b = v).
Proof.
  intros Hch Hsz. eapply wp_mono; [by apply add_entry_spec|].
  intros ch' (Hch' & _ & Hring) a b Ha Hb.
  destruct (get_entry_successor _ _ _ Hch Ha) as (e & He & <-).
  destruct (get_entry_successor _ _ _ Hch' Hb) as (e' & He' & <-).
  destruct (successor_add _ (entry_points ch key) v _ _ He) as (f & Hf & Hor).
  rewrite Hring, Hf in He'. injection He' as ->. destruct Hor as [->|?]; auto.
Qed.

Lemma add_entry_consistent_witness :
  wp (@mrpc_consistent_hash_add_entry bool mix_hash sample_ring 9 true) (λ ch',
    ∀ a b, @mrpc_consistent_hash_get_entry bool mix_hash sample_ring 77 = Ret a →
      @mrpc_consistent_hash_get_entry bool mix_hash ch' 77 = Ret b → b = a ∨ b = true).
Proof.
  apply (@add_entry_consistent bool mix_hash mix_hash_spec sample_ring 9 77 true);
    [exact sample_ring_inv | vm_compute; discriminate].
Defined.

(** Removing an entry right after it was added restores the ring, whatever
    other entries there are and even if points collide; and removing any entry
    whose points are on the ring leaves the lookups alone which did not lead to
    one of its points. *)
Lemma remove_entry_undoes_add {V : Type} `{FFHashSpec} (ch : mrpc_consistent_hash V)
    (key : Z) (v : V) :
  ch_inv ch → zlength (ring ch) + 512 <= 2 ^ 31 →
  wp (ch' ← mrpc_consistent_hash_add_entry ch key v; mrpc_consistent_hash_remove_entry ch' key)
    (λ ch', ch_inv ch' ∧ ring ch' = ring ch) ∧
  ∀ request ks, en_key <$> ring ch ≡ₚ entry_points ch key ++ ks →
    wp (mrpc_consistent_hash_remove_entry ch key) (λ ch',
      ∀ e b, successor (ff_hash_uint32 0 [request]) (ring ch) = Some e →
        en_key e ∉ entry_points ch key →
        mrpc_consistent_hash_get_entry ch' request = Ret b → b = en_value e).
Proof.
  intros Hch Hsz. split.
  - rewrite wp_bind. eapply wp_mono; [apply add_entry_spec; [done|lia]|].
    intros ch1 (Hch1 & [Ho Hf] & Hr).
    assert (entry_points ch1 key = entry_points ch key) as Hp by (unfold entry_points; by rewrite Hf).
    eapply wp_mono.
    + apply (remove_entry_spec ch1 key (en_key <$> ring ch)); [done| |].
      * rewrite Hr. unfold zlength in *. rewrite ring_add_perm, length_app, length_fmap.
        unfold entry_points. rewrite points_length. destruct (ch_factor_range _ Hch). lia.
      * rewrite Hr, ring_add_perm, fmap_app, <- list_fmap_compose, list_fmap_id. by rewrite Hp.
    + intros ch2 (Hch2 & _ & ->). split; [done|]. by rewrite Hp, Hr, ring_take_add.
  - intros request ks Hks. eapply wp_mono; [eapply remove_entry_spec; [done|lia|done]|].
    intros ch' (Hch' & _ & Hr) e b He Hnot Hb.
    destruct (get_entry_successor _ _ _ Hch' Hb) as (e' & He' & <-).
    rewrite Hr, (successor_take _ _ _ e) in He' by done. by injection He' as ->.
Qed.

Lemma remove_entry_undoes_add_witness :
  wp (ch' ← @mrpc_consistent_hash_add_entry bool mix_hash sample_ring 9 true;
      @mrpc_consistent_hash_remove_entry bool mix_hash ch' 9)
    (λ ch', ch_inv ch' ∧ ring ch' = ring sample_ring) ∧
  ∀ request ks, en_key <$> ring sample_ring ≡ₚ @entry_points bool mix_hash sample_ring 9 ++ ks →
    wp (@mrpc_consistent_hash_remove_entry bool mix_hash sample_ring 9) (λ ch',
      ∀ e b, successor (@ff_hash_uint32 mix_hash 0 [request]) (ring sample_ring) = Some e →
        en_key e ∉ @entry_points bool mix_hash sample_ring 9 →
        @mrpc_consistent_hash_get_entry bool mix_hash ch' request = Ret b → b = en_value e).
Proof.
  apply (@remove_entry_undoes_add bool mix_hash mix_hash_spec sample_ring 9 true);
    [exact sample_ring_inv | vm_compute; discriminate].
Defined.

(** When a point of two entries collides, removing the older entry takes
    out the point of the newer one: [remove_entry_with_key] compares keys only,
    so the ring keeps the value of the entry which was removed. *)
Lemma remove_entry_collision {V : Type} `{FFHashSpec} (order key1 key2 : Z) (v1 v2 : V) :
  1 <= order <= 20 → point key1 0 = point key2 0 →
  wp (ch ← mrpc_consistent_hash_create order 1;
      ch ← mrpc_consistent_hash_add_entry ch key1 v1;
      ch ← mrpc_consistent_hash_add_entry ch key2 v2;
      mrpc_consistent_hash_remove_entry ch key1)
    (λ ch, ring ch = [Entry (point key1 0) v1]).
Proof.
  intros Ho Hcol. rewrite wp_bind. eapply wp_mono; [apply ch_create_spec; [done|lia]|].
  intros ch (Hch & Hnil & _ & Hf). rewrite wp_bind.
  eapply wp_mono; [apply add_entry_spec; [done|rewrite Hnil; vm_compute; discriminate]|].
  intros ch1 (Hch1 & [_ Hf1] & Hr1). unfold entry_points in Hr1. rewrite Hnil, Hf in Hr1.
  change (ring ch1 = [Entry (point key1 0) v1]) in Hr1. rewrite wp_bind.
  eapply wp_mono; [apply add_entry_spec; [done|rewrite Hr1; vm_compute; discriminate]|].
  intros ch2 (Hch2 & [_ Hf2] & Hr2). unfold entry_points in Hr2. rewrite Hr1, Hf1, Hf in Hr2.
  change (ring ch2 = ring_insert (point key2 0) v2 [Entry (point key1 0) v1]) in Hr2.
  cbn [ring_insert en_key] in Hr2. rewrite bool_decide_eq_false_2 in Hr2 by lia.
  eapply wp_mono.
  - apply (remove_entry_spec ch2 key1 [point key1 0]); [done|rewrite Hr2; vm_compute; done|].
    unfold entry_points. rewrite Hr2, Hf2, Hf1, Hf.
    change (points (Z.to_nat 1) 0 key1) with [point key1 0]. cbn. by rewrite Hcol.
  - intros ch3 (_ & _ & Hr3). unfold entry_points in Hr3. rewrite Hr2, Hf2, Hf1, Hf in Hr3.
    change (ring ch3 = ring_remove (point key1 0)
      [Entry (point key2 0) v2; Entry (point key1 0) v1]) in Hr3.
    rewrite Hr3. cbn [ring_remove en_key]. by rewrite bool_decide_eq_true_2.
Qed.

Definition zero_hash : FFHash := {|
  ff_hash_uint32 _ _ := 0; ff_hash_uint16 _ _ := 0; ff_hash_uint8 _ _ := 0 |}.

Lemma remove_entry_collision_witness :
  wp (ch ← @mrpc_consistent_hash_create bool 1 1;
      ch ← @mrpc_consistent_hash_add_entry bool zero_hash ch 3 true;
      ch ← @mrpc_consistent_hash_add_entry bool zero_hash ch 4 false;
      @mrpc_consistent_hash_remove_entry bool zero_hash ch 3)
    (λ ch, ring ch = [Entry (@point zero_hash 3 0) true]).
Proof.
  apply (@remove_entry_collision bool zero_hash);
    [split; intros; vm_compute; intuition discriminate | lia | reflexivity].
Defined.

(** Order 0, which the header and the assertions of
    [mrpc_consistent_hash_create] permit, cannot be used: the first addition
    shifts a [uint32_t] by 32 bits. *)
Lemma order_zero_undefined {V : Type} `{FFHash} (uniform_factor key : Z) (v : V) :
  0 < uniform_factor < 256 →
  (ch ← mrpc_consistent_hash_create 0 uniform_factor;
   mrpc_consistent_hash_add_entry ch key v) = Fault ShiftTooFar.
Proof.
  intros Hu. unfold mrpc_consistent_hash_create.
  rewrite (bool_decide_eq_true_2 (uniform_factor > 0)), (bool_decide_eq_true_2 (_ < 0x100)) by lia.
  rewrite (bool_decide_eq_true_2 (0 >= 0)), (bool_decide_eq_true_2 (0 <= 20)) by lia.
  cbn [ff_assert mbind outcome_bind]. unfold mrpc_consistent_hash_add_entry.
  cbn [ch_uniform_factor]. by destruct (Z.to_nat uniform_factor) eqn:E; [lia|].
Qed.

Lemma order_zero_undefined_witness :
  (ch ← @mrpc_consistent_hash_create bool 0 64;
   @mrpc_consistent_hash_add_entry bool mix_hash ch 3 true) = Fault ShiftTooFar.
Proof. apply (@order_zero_undefined bool mix_hash 64 3 true); lia. Defined.
