(* ===== verification/ClientWrapper.v ===== *)
(** * The clients of the distributed client
    (src/mrpc_distributed_client_wrapper.c)

    The distributed client counts the users of each of its clients, and stops a
    client when nobody uses it.  [RpcClient] is what it knows of a client, which
    [MrpcClient] implements; the wrapper of a client is this file. *)

From S2P Require Import Prelude FF FFSync Packet PacketStream Bitmap StreamProcessor.
From S2P Require Import ProcessorInvariant ProcessorRun ClientProcessor MrpcClient RefCount.

(** Clients of type [CL], with steps [Op] of their fibers and users, and
    connectors of type [CN]. *)
Class RpcClient (CL Op CN : Type) := {
  client_create : outcome CL;
  client_start : CN → M CL unit;
  (** [mrpc_client_stop] up to its wait, and from there on. *)
  client_stop : M CL unit;
  client_stop_end : M CL unit;
  client_delete : M CL unit;
  client_own_step : Op → M CL unit;
  client_own_enabled : Op → CL → Prop;
  client_ok : CL → Prop;
  client_started : CL → bool;
  client_stopping : CL → bool;
  client_stop_returns : CL → bool;
}.

(** A client is started, stopped and started again; nothing else changes whether
    it runs. *)
Class RpcClientSpec (CL Op CN : Type) `{RpcClient CL Op CN} : Prop := {
  client_create_spec : wp client_create (λ c, client_ok c ∧ client_started c = false);
  client_start_spec conn c : client_ok c → client_started c = false →
    wp (client_start conn c) (λ '(_, c'),
      client_ok c' ∧ client_started c' = true ∧ client_stopping c' = false);
  client_stop_spec c : client_ok c → client_started c = true → client_stopping c = false →
    wp (client_stop c) (λ '(_, c'),
      client_ok c' ∧ client_started c' = true ∧ client_stopping c' = true);
  client_stop_end_spec c : client_ok c → client_stopping c = true → client_stop_returns c = true →
    wp (client_stop_end c) (λ '(_, c'), client_ok c' ∧ client_started c' = false);
  client_own_step_spec op c : client_ok c → client_own_enabled op c →
    wp (client_own_step op c) (λ '(_, c'), client_ok c' ∧
      client_started c' = client_started c ∧ client_stopping c' = client_stopping c);
  client_delete_ok c : client_ok c → client_started c = false → wp (client_delete c) (λ _, True);
}.

(** ** [MrpcClient] implements it *)

Section implementation.
Context {Q W K R E S B C : Type}.
Context `{FFBlockingQueueSpec Q mrpc_packet} `{FFBlockingQueueSpec W (option mrpc_packet)}.
Context `{FFPoolSpec K mrpc_packet} `{FFPoolSpec R nat} `{FFEventSpec E}.
Context `{FFStreamSpec S} `{!FFConnection S} `{!FFConnectionSpec S}.
Context `{IdAllocatorSpec B} `{FFStreamConnector C S} `{!FFStreamConnectorSpec C S}.
#[local] Abbreviation SP := (stream_processor Q W K R E S B).
#[local] Abbreviation SYS := (client_fibers E SP C).
Implicit Types (sys : SYS).

(** The steps which are not calls of the owner. *)
Definition is_own_client_op (op : mc_op C) : bool :=
  match op with ClientStart _ | ClientStop | ClientStopEnd => false | _ => true end.

#[export] Instance mrpc_rpc_client : RpcClient SYS (mc_op C) C := {
  client_create := mrpc_client_create;
  client_start := mrpc_client_start;
  client_stop := mrpc_client_stop;
  client_stop_end := mrpc_client_stop_end;
  client_delete := mrpc_client_delete;
  client_own_step := mc_step;
  client_own_enabled op sys := mc_enabled op sys ∧ is_own_client_op op = true;
  client_ok := mc_inv;
  client_started := has_connector;
  client_stopping := cf_stopping;
  client_stop_returns sys := event_is_set (mc_stop_event (cf_client sys))
}.

(** Whether the client runs, and stops. *)
#[local] Abbreviation life := (λ sys, (has_connector sys, cf_stopping sys)).

Lemma keeps_processor {A} (m : M SP A) : preserves life (on_client_processor m).
Proof.
  intros [[e sp conn] mp st n l] a sys'. unfold on_client_processor.
  destruct (m sp) as [[a' sp']|]; [by intros [= _ <-]|done].
Qed.

Lemma keeps_connector {A} (m : M C A) : preserves life (on_connector m).
Proof.
  intros [[e sp [c|]] mp st n l] a sys'; [|done]. unfold on_connector.
  destruct (m c) as [[a' c']|]; [by intros [= _ <-]|done].
Qed.

Lemma keeps_event m : preserves life (on_client_event m).
Proof.
  intros [[e sp conn] mp st n l] a sys'. unfold on_client_event.
  destruct (m e) as [[[] e']|]; [by intros [= _ <-]|done].
Qed.

Lemma keeps_connections n : preserves life (set_connections n : M SYS unit).
Proof. by intros [[e sp conn] mp st n' l] a sys' [= _ <-]. Qed.
Lemma keeps_main_point mp : preserves life (set_client_main mp : M SYS unit).
Proof. by intros [[e sp conn] mp' st n l] a sys' [= _ <-]. Qed.
Lemma keeps_callers l : preserves life (set_callers l : M SYS unit).
Proof. by intros [[e sp conn] mp' st n l'] a sys' [= _ <-]. Qed.
Lemma keeps_field {A} (f : SYS → A) : preserves life (cf_field f).
Proof. by intros sys a sys' [= _ <-]. Qed.

#[local] Hint Resolve keeps_processor keeps_connector keeps_event keeps_connections keeps_main_point
  keeps_callers keeps_field : preserves.

Lemma keeps_delete_connection : preserves life delete_connection.
Proof. unfold delete_connection. preserve. by intros ???. Qed.
#[local] Hint Resolve keeps_delete_connection : preserves.

Lemma keeps_processed : preserves life main_client_processed.
Proof. unfold main_client_processed. preserve. Qed.

Lemma own_step_keeps op : is_own_client_op op = true → preserves life (mc_step op).
Proof.
  pose proof keeps_processed. intros Hop. destruct op; try done; cbn [mc_step];
    unfold mrpc_client_reset_connection, mrpc_client_create_request_stream, main_client_func; preserve.
Qed.

#[export] Instance mrpc_rpc_client_spec : RpcClientSpec SYS (mc_op C) C.
Proof.
  split; cbn [client_create client_start client_stop client_stop_end client_delete client_own_step
    client_own_enabled client_ok client_started client_stopping client_stop_returns mrpc_rpc_client].
  - apply create_client_inv.
  - intros conn sys Hinv Hc. eapply wp_mono; [by apply client_start_inv|].
    intros [[] sys'] (Hinv' & Hm & _ & Hst). split_and!; [done|by apply begin_has_connector|done].
  - intros sys Hinv Hc _. eapply wp_mono; [by apply client_stop_inv|].
    intros [[] sys'] (Hinv' & Hst & _). split_and!; [done|by apply stopping_has_connector|done].
  - intros sys Hinv Hst Hev. eapply wp_mono; [by apply client_stop_end_inv|].
    by intros [[] sys'] (Hinv' & _ & Hc & _).
  - intros op sys Hinv [Hen Hop].
    pose proof (preserves_wp _ _ _ _ (own_step_keeps op Hop) (mc_step_inv op sys Hinv Hen)) as Hstep.
    eapply wp_mono; [exact Hstep|].
    intros [[] sys'] [Hinv' [= Hc Hst]]. by split_and!.
  - apply client_delete_inv.
Qed.
End implementation.

(** ** The wrapper *)

(** [struct mrpc_distributed_client_wrapper]; of the connector, which the client
    uses, only whether the field is NULL. *)
Record mrpc_distributed_client_wrapper (CL E : Type) := ClientWrapper {
  cw_client : CL;
  cw_stop_event : E;
  cw_has_connector : bool;
  cw_ref_cnt : Z;
}.
Arguments ClientWrapper {CL E}.
Arguments cw_client {CL E}.
Arguments cw_stop_event {CL E}.
Arguments cw_has_connector {CL E}.
Arguments cw_ref_cnt {CL E}.

Section wrapper.
Context {CL Op CN E : Type} `{FFManualEvent E} `{!RpcClient CL Op CN}.
#[local] Abbreviation CW := (mrpc_distributed_client_wrapper CL E).

Definition cw_field {T} (f : CW → T) : M CW T := λ w, Ret (f w, w).
Definition on_cw_client {T} (m : M CL T) : M CW T :=
  λ '(ClientWrapper c e h n),
    match m c with Ret (t, c) => Ret (t, ClientWrapper c e h n) | Fault f => Fault f end.
Definition on_cw_event (m : M E unit) : M CW unit :=
  λ '(ClientWrapper c e h n),
    match m e with Ret (_, e) => Ret (tt, ClientWrapper c e h n) | Fault f => Fault f end.
Definition set_cw_connector (h : bool) : M CW unit :=
  λ '(ClientWrapper c e _ n), Ret (tt, ClientWrapper c e h n).
(** The counter is an [int]. *)
Definition set_cw_ref_cnt (n : Z) : M CW unit :=
  λ '(ClientWrapper c e h _),
    if bool_decide (is_s32 n) then Ret (tt, ClientWrapper c e h n) else Fault SignedOverflow.

Definition mrpc_distributed_client_wrapper_create : outcome CW :=
  client ← client_create;
  Ret (ClientWrapper client manual_event_create false 0).

Definition assert_wrapper_idle : M CW unit :=
  h ← cw_field cw_has_connector;
  lift (ff_assert (negb h));;
  ref_cnt ← cw_field cw_ref_cnt;
  lift (ff_assert (bool_decide (ref_cnt = 0))).

Definition mrpc_distributed_client_wrapper_delete : M CW unit :=
  assert_wrapper_idle;;
  on_cw_client client_delete.

Definition mrpc_distributed_client_wrapper_start (stream_connector : CN) : M CW unit :=
  assert_wrapper_idle;;
  set_cw_connector true;;
  on_cw_event manual_event_set;;
  on_cw_client (client_start stream_connector).

(** [mrpc_distributed_client_wrapper_stop] up to the wait in [mrpc_client_stop], *)
Definition mrpc_distributed_client_wrapper_stop : M CW unit :=
  h ← cw_field cw_has_connector;
  lift (ff_assert h);;
  on_cw_client client_stop.

(** from there to the wait for the users, *)
Definition wrapper_stop_client : M CW unit := on_cw_client client_stop_end.

(** and from there on; [ff_stream_connector_delete] is up to the caller. *)
Definition wrapper_stop_end : M CW unit :=
  on_cw_event manual_event_wait;;
  ref_cnt ← cw_field cw_ref_cnt;
  lift (ff_assert (bool_decide (ref_cnt = 0)));;
  set_cw_connector false.

Definition mrpc_distributed_client_wrapper_acquire_client : M CW unit :=
  h ← cw_field cw_has_connector;
  lift (ff_assert h);;
  ref_cnt ← cw_field cw_ref_cnt;
  lift (ff_assert (bool_decide (ref_cnt >= 0)));;
  set_cw_ref_cnt (ref_cnt + 1);;
  (if bool_decide (ref_cnt + 1 = 1) then on_cw_event manual_event_reset else mret tt).

(** [same] tells whether the client given back is the one of the wrapper. *)
Definition mrpc_distributed_client_wrapper_release_client (same : bool) : M CW unit :=
  h ← cw_field cw_has_connector;
  lift (ff_assert h);;
  ref_cnt ← cw_field cw_ref_cnt;
  lift (ff_assert (bool_decide (ref_cnt > 0)));;
  lift (ff_assert same);;
  set_cw_ref_cnt (ref_cnt - 1);;
  (if bool_decide (ref_cnt - 1 = 0) then on_cw_event manual_event_set else mret tt).

(** *** What a wrapper promises *)

(** Not in use, in use, and the two waits of a stop. *)
Inductive wrapper_phase := WrapperIdle | WrapperRuns | WrapperStops | WrapperWaits.

#[export] Instance wrapper_phase_eq_dec : EqDecision wrapper_phase.
Proof. solve_decision. Defined.

(** [n] users have the client of the wrapper. *)
Definition wrapper_inv (ph : wrapper_phase) (n : Z) (w : CW) : Prop :=
  client_ok (cw_client w) ∧ cw_ref_cnt w = n ∧ 0 <= n ∧
  client_started (cw_client w) = (match ph with WrapperRuns | WrapperStops => true | _ => false end) ∧
  (ph = WrapperRuns → client_stopping (cw_client w) = false) ∧
  (ph = WrapperStops → client_stopping (cw_client w) = true) ∧
  cw_has_connector w = bool_decide (ph ≠ WrapperIdle) ∧
  (if decide (ph = WrapperIdle) then n = 0 else manual_is_set (cw_stop_event w) = bool_decide (n = 0)).
End wrapper.

Section wrapper_specs.
Context {CL Op CN E : Type} `{FFManualEventSpec E} `{!RpcClient CL Op CN} `{!RpcClientSpec CL Op CN}.
#[local] Abbreviation CW := (mrpc_distributed_client_wrapper CL E).
Implicit Types (w : CW).

Lemma wp_cw_field {T} (f : CW → T) w (R : T * CW → Prop) : wp (cw_field f w) R ↔ R (f w, w).
Proof. done. Qed.
Lemma wp_on_cw_client {T} (m : M CL T) c (e : E) h n (R : T * CW → Prop) :
  wp (m c) (λ r, R (r.1, ClientWrapper (r.2) e h n)) → wp (on_cw_client m (ClientWrapper c e h n)) R.
Proof. unfold on_cw_client. by destruct (m c) as [[t c']|]. Qed.
Lemma wp_on_cw_event m (c : CL) (e : E) h n (R : unit * CW → Prop) :
  wp (m e) (λ r, R (tt, ClientWrapper c (r.2) h n)) → wp (on_cw_event m (ClientWrapper c e h n)) R.
Proof. unfold on_cw_event. by destruct (m e) as [[[] e']|]. Qed.
Lemma wp_set_cw_ref_cnt k (c : CL) (e : E) h n (R : unit * CW → Prop) : is_s32 k →
  R (tt, ClientWrapper c e h k) → wp (set_cw_ref_cnt k (ClientWrapper c e h n)) R.
Proof. intros Hk HR. unfold set_cw_ref_cnt. by rewrite bool_decide_eq_true_2. Qed.

Ltac cw_simpl := cbn [fst snd cw_client cw_stop_event cw_has_connector cw_ref_cnt] in *.
Ltac cw_step :=
  lazymatch goal with
  | |- wp (cw_field _ _) _ => rewrite wp_cw_field
  | |- wp (on_cw_client _ (ClientWrapper _ _ _ _)) _ => apply wp_on_cw_client
  | |- wp (on_cw_event _ _) _ => apply wp_on_cw_event
  | |- wp (set_cw_connector _ _) _ => cbn [wp set_cw_connector]
  | |- wp (set_cw_ref_cnt _ _) _ => apply wp_set_cw_ref_cnt; [unfold is_s32; try lia|]
  | |- _ => wp_step
  end; cw_simpl.
Ltac cw_steps := repeat cw_step.
Ltac cw_open w := destruct w as [c e h r]; intros (Hok & Hrc & Hn & Hs & Hr & Hst & Hh & Hev); cw_simpl; subst.

Lemma wrapper_create_spec :
  wp (mrpc_distributed_client_wrapper_create : outcome CW) (wrapper_inv WrapperIdle 0).
Proof.
  unfold mrpc_distributed_client_wrapper_create. wp_steps.
  eapply wp_mono; [apply client_create_spec|]. intros c [Hok Hs]. wp_steps. by split_and!.
Qed.

Lemma wrapper_start_spec conn w : wrapper_inv WrapperIdle 0 w →
  wp (mrpc_distributed_client_wrapper_start conn w) (λ '(_, w'), wrapper_inv WrapperRuns 0 w').
Proof.
  cw_open w.
  unfold mrpc_distributed_client_wrapper_start, assert_wrapper_idle. cw_steps.
  eapply wp_mono; [apply manual_event_set_spec|]. intros [[] e'] He'. cw_steps.
  eapply wp_mono; [by apply client_start_spec|]. intros [[] c'] (Hok' & Hs' & Hst'). by split_and!.
Qed.

Lemma wrapper_stop_spec n w : wrapper_inv WrapperRuns n w →
  wp (mrpc_distributed_client_wrapper_stop w) (λ '(_, w'), wrapper_inv WrapperStops n w').
Proof.
  cw_open w. unfold mrpc_distributed_client_wrapper_stop. cw_steps.
  eapply wp_mono; [by apply client_stop_spec; [| |apply Hr]|]. intros [[] c'] (Hok' & Hs' & Hst'). by split_and!.
Qed.

Lemma wrapper_stop_client_spec n w : wrapper_inv WrapperStops n w →
  client_stop_returns (cw_client w) = true →
  wp (wrapper_stop_client w) (λ '(_, w'), wrapper_inv WrapperWaits n w').
Proof.
  cw_open w. intros Hret. unfold wrapper_stop_client. cw_steps.
  eapply wp_mono; [by apply client_stop_end_spec; [|apply Hst|]|]. intros [[] c'] (Hok' & Hs'). by split_and!.
Qed.

Lemma wrapper_stop_end_spec n w : wrapper_inv WrapperWaits n w → manual_is_set (cw_stop_event w) = true →
  n = 0 ∧ wp (wrapper_stop_end w) (λ '(_, w'), wrapper_inv WrapperIdle 0 w').
Proof.
  cw_open w. intros Hset. rewrite decide_False, Hset in Hev by done. symmetry in Hev.
  apply bool_decide_eq_true_1 in Hev as ->. split; [done|]. unfold wrapper_stop_end. cw_steps.
  eapply wp_mono; [by apply manual_event_wait_spec|]. intros [[] e'] He'. cw_steps. by split_and!.
Qed.

Lemma wrapper_acquire_spec n w : wrapper_inv WrapperRuns n w → n < MAX_REFS →
  wp (mrpc_distributed_client_wrapper_acquire_client w) (λ '(_, w'), wrapper_inv WrapperRuns (n + 1) w').
Proof.
  cw_open w. unfold MAX_REFS. intros Hlt. unfold mrpc_distributed_client_wrapper_acquire_client. cw_steps.
  destruct (decide (n + 1 = 1)) as [Hz|Hz].
  - rewrite bool_decide_eq_true_2 by done. cw_steps.
    eapply wp_mono; [apply manual_event_reset_spec|]. intros [[] e'] He'. cw_simpl.
    split_and!; try done; cw_simpl; [lia|]. rewrite decide_False, He', bool_decide_eq_false_2 by (done || lia). done.
  - rewrite bool_decide_eq_false_2 by done. cw_steps. split_and!; try done; cw_simpl; [lia|].
    rewrite decide_False in * by done. rewrite Hev, !bool_decide_eq_false_2 by lia. done.
Qed.

Lemma wrapper_release_spec ph n w : wrapper_inv ph n w → 0 < n → n <= MAX_REFS →
  wp (mrpc_distributed_client_wrapper_release_client true w) (λ '(_, w'), wrapper_inv ph (n - 1) w').
Proof.
  cw_open w. unfold MAX_REFS. intros Hpos Hmax. unfold mrpc_distributed_client_wrapper_release_client.
  destruct (decide (ph = WrapperIdle)) as [|Hph]; [lia|].
  rewrite bool_decide_eq_true_2 by done. cw_steps.
  destruct (decide (n - 1 = 0)) as [Hz|Hz].
  - rewrite bool_decide_eq_true_2 by done. cw_steps.
    eapply wp_mono; [apply manual_event_set_spec|]. intros [[] e'] He'. cw_simpl.
    split_and!; try done; cw_simpl; [lia|by rewrite bool_decide_eq_true_2|].
    rewrite decide_False, He', bool_decide_eq_true_2 by done. done.
  - rewrite bool_decide_eq_false_2 by done. cw_steps.
    split_and!; try done; cw_simpl; [lia|by rewrite bool_decide_eq_true_2|].
    rewrite decide_False, Hev, !bool_decide_eq_false_2 by (done || lia). done.
Qed.

Lemma wrapper_delete_spec w : wrapper_inv WrapperIdle 0 w →
  wp (mrpc_distributed_client_wrapper_delete w) (λ _, True).
Proof.
  cw_open w.
  unfold mrpc_distributed_client_wrapper_delete, assert_wrapper_idle. cw_steps.
  eapply wp_mono; [by apply client_delete_ok|done].
Qed.

Lemma wrapper_own_step_spec ph n op w : wrapper_inv ph n w → client_own_enabled op (cw_client w) →
  wp (on_cw_client (client_own_step op) w) (λ '(_, w'), wrapper_inv ph n w').
Proof.
  cw_open w. intros Hen. cw_steps. eapply wp_mono; [by apply client_own_step_spec|].
  intros [[] c'] (Hok' & Hs' & Hst'). split_and!; cw_simpl; try done; [congruence|..]; rewrite Hst'; auto.
Qed.
End wrapper_specs.
