(* ===== verification/DistributedClient.v ===== *)
(** * The distributed client (src/mrpc_distributed_client.c,
    src/mrpc_distributed_client_controller.c)

    A distributed client has one client for each server which its controller has
    announced; a request goes to the client whose points on the consistent hash
    are nearest to the hash of the request.  The fiber of the distributed client
    gets the messages of the controller, one after the other: it adds and removes
    clients, and waits until the users of a client which is removed have given it
    back.

    A [struct mrpc_distributed_client_wrapper *], and the client of this wrapper,
    is an index into [ds_wrappers]. *)

From stdpp Require Import gmap.
From S2P Require Import Prelude FF FFSync RefCount ConsistentHash ClientWrapper.

Definition CONSISTENT_HASH_UNIFORM_FACTOR_ORDER : Z := 7.
Definition CONSISTENT_HASH_UNIFORM_FACTOR : Z := Z.shiftl 1 CONSISTENT_HASH_UNIFORM_FACTOR_ORDER.
Definition ACQUIRE_CLIENT_MAX_TRIES_CNT : Z := 3.
Definition U64_HASH_START_VALUE : Z := 0.

(** ** Controllers *)

(** [enum mrpc_distributed_client_controller_message_type] with its data. *)
Inductive controller_message (CN : Type) :=
  | MRPC_DISTRIBUTED_CLIENT_ADD_CLIENT (stream_connector : CN) (key : Z)
  | MRPC_DISTRIBUTED_CLIENT_REMOVE_CLIENT (key : Z)
  | MRPC_DISTRIBUTED_CLIENT_REMOVE_ALL_CLIENTS
  | MRPC_DISTRIBUTED_CLIENT_STOP.
Arguments MRPC_DISTRIBUTED_CLIENT_ADD_CLIENT {CN}.
Arguments MRPC_DISTRIBUTED_CLIENT_REMOVE_CLIENT {CN}.
Arguments MRPC_DISTRIBUTED_CLIENT_REMOVE_ALL_CLIENTS {CN}.
Arguments MRPC_DISTRIBUTED_CLIENT_STOP {CN}.

(** [struct mrpc_distributed_client_controller_vtable], for contexts of type [CT]. *)
Class ControllerVtable (CT CN : Type) := {
  vtable_initialize : M CT unit;
  vtable_shutdown : M CT unit;
  vtable_get_next_message : M CT (controller_message CN);
  controller_open : CT → bool;
}.

Definition mrpc_distributed_client_controller_initialize {CT CN} `{ControllerVtable CT CN} : M CT unit :=
  vtable_initialize.
Definition mrpc_distributed_client_controller_shutdown {CT CN} `{ControllerVtable CT CN} : M CT unit :=
  vtable_shutdown.
Definition mrpc_distributed_client_controller_get_next_message {CT CN} `{ControllerVtable CT CN} :
    M CT (controller_message CN) := vtable_get_next_message.

(** The header: a controller which has been shut down returns
    [MRPC_DISTRIBUTED_CLIENT_STOP].  [keys] are the keys it gives to clients. *)
Class ControllerSpec (CT CN : Type) (keys : Z → Prop) `{ControllerVtable CT CN} : Prop := {
  vtable_initialize_spec ct : wp (vtable_initialize ct) (λ '(_, ct'), controller_open ct' = true);
  vtable_shutdown_spec ct : wp (vtable_shutdown ct) (λ '(_, ct'), controller_open ct' = false);
  vtable_get_next_message_spec ct : wp (vtable_get_next_message ct) (λ '(message, ct'),
    controller_open ct' = controller_open ct ∧
    (message ≠ MRPC_DISTRIBUTED_CLIENT_STOP → controller_open ct = true) ∧
    match message with MRPC_DISTRIBUTED_CLIENT_ADD_CLIENT _ key => keys key | _ => True end)
}.

(** ** State *)

(** [struct mrpc_distributed_client] *)
Record mrpc_distributed_client (D K E CT : Type) := DistributedClient {
  dc_clients_map : D;
  dc_consistent_hash : mrpc_consistent_hash nat;
  dc_client_wrappers_pool : K;
  dc_stop_event : E;
  dc_controller : option CT;
  dc_max_clients_cnt : Z;
  dc_current_clients_cnt : Z;
}.
Arguments DistributedClient {D K E CT}.
Arguments dc_clients_map {D K E CT}.
Arguments dc_consistent_hash {D K E CT}.
Arguments dc_client_wrappers_pool {D K E CT}.
Arguments dc_stop_event {D K E CT}.
Arguments dc_controller {D K E CT}.
Arguments dc_max_clients_cnt {D K E CT}.
Arguments dc_current_clients_cnt {D K E CT}.

(** Who has called [mrpc_distributed_client_wrapper_stop]: [add_client],
    [remove_client], or the callback of [remove_all_clients], which has still the
    wrappers [rest] to stop and is called at the end of the fiber or not. *)
Inductive stop_caller :=
  | InAddClient
  | InRemoveClient
  | InRemoveAllClients (rest : list nat) (at_end : bool).

(** Where the fiber of [distributed_client_main_func] waits. *)
Inductive dc_point :=
  | DcIdle
  | DcStart
  | DcMessage
  | DcStopClient (client_wrapper : nat) (caller : stop_caller)
  | DcStopUsers (client_wrapper : nat) (caller : stop_caller).

(** The distributed client with its wrappers and its fiber; whether
    [mrpc_distributed_client_stop] waits; how many connectors it owns; the tries
    left to the callers which sleep in [mrpc_distributed_client_acquire_client],
    with the hash of their request; and the clients which have been acquired and
    not yet released. *)
Record dc_system (D K E CT CW : Type) := DcSystem {
  ds_client : mrpc_distributed_client D K E CT;
  ds_wrappers : list CW;
  ds_main : dc_point;
  ds_stopping : bool;
  ds_connectors : Z;
  ds_callers : list (Z * Z);
  ds_holders : list nat;
}.
Arguments DcSystem {D K E CT CW}.
Arguments ds_client {D K E CT CW}.
Arguments ds_wrappers {D K E CT CW}.
Arguments ds_main {D K E CT CW}.
Arguments ds_stopping {D K E CT CW}.
Arguments ds_connectors {D K E CT CW}.
Arguments ds_callers {D K E CT CW}.
Arguments ds_holders {D K E CT CW}.

(** ** Operations *)

Section operations.
Context {CL Op CN ME D K E CT : Type}.
Context `{FFManualEvent ME} `{FFEvent E} `{FFDictionary D} `{FFPool K nat} `{FFHash}.
Context `{!RpcClient CL Op CN} `{!ControllerVtable CT CN}.
#[local] Abbreviation CW := (mrpc_distributed_client_wrapper CL ME).
#[local] Abbreviation DC := (mrpc_distributed_client D K E CT).
#[local] Abbreviation SYS := (dc_system D K E CT CW).

Definition get_u64_hash (key : Z) : Z :=
  ff_hash_uint32 U64_HASH_START_VALUE [u32 key; u32 (Z.shiftr key 32)].

(** The callbacks of the map. *)
Definition get_client_wrapper_key_hash (key : Z) : Z := get_u64_hash key.
Definition is_client_wrapper_equal_keys (key1 key2 : Z) : bool := bool_decide (key1 = key2).

Definition ds_field {T} (f : SYS → T) : M SYS T := λ sys, Ret (f sys, sys).
Definition dc_field {T} (f : DC → T) : M SYS T := λ sys, Ret (f (ds_client sys), sys).

Definition set_dc_main (mp : dc_point) : M SYS unit :=
  λ '(DcSystem c ws _ st n l h), Ret (tt, DcSystem c ws mp st n l h).
Definition set_dc_stopping (st : bool) : M SYS unit :=
  λ '(DcSystem c ws mp _ n l h), Ret (tt, DcSystem c ws mp st n l h).
Definition set_connectors (n : Z) : M SYS unit :=
  λ '(DcSystem c ws mp st _ l h), Ret (tt, DcSystem c ws mp st n l h).
Definition set_dc_callers (l : list (Z * Z)) : M SYS unit :=
  λ '(DcSystem c ws mp st n _ h), Ret (tt, DcSystem c ws mp st n l h).
Definition set_holders (h : list nat) : M SYS unit :=
  λ '(DcSystem c ws mp st n l _), Ret (tt, DcSystem c ws mp st n l h).
Definition set_controller (ct : option CT) : M SYS unit :=
  λ '(DcSystem (DistributedClient d ch k e _ max cnt) ws mp st n l h),
    Ret (tt, DcSystem (DistributedClient d ch k e ct max cnt) ws mp st n l h).
Definition set_clients_cnt (cnt : Z) : M SYS unit :=
  λ '(DcSystem (DistributedClient d ch k e ct max _) ws mp st n l h),
    Ret (tt, DcSystem (DistributedClient d ch k e ct max cnt) ws mp st n l h).

Definition on_map {T} (m : M D T) : M SYS T :=
  λ '(DcSystem (DistributedClient d ch k e ct max cnt) ws mp st n l h),
    match m d with
    | Ret (t, d) => Ret (t, DcSystem (DistributedClient d ch k e ct max cnt) ws mp st n l h)
    | Fault f => Fault f
    end.
Definition on_hash (m : mrpc_consistent_hash nat → outcome (mrpc_consistent_hash nat)) : M SYS unit :=
  λ '(DcSystem (DistributedClient d ch k e ct max cnt) ws mp st n l h),
    match m ch with
    | Ret ch => Ret (tt, DcSystem (DistributedClient d ch k e ct max cnt) ws mp st n l h)
    | Fault f => Fault f
    end.
Definition on_dc_event (m : M E unit) : M SYS unit :=
  λ '(DcSystem (DistributedClient d ch k e ct max cnt) ws mp st n l h),
    match m e with
    | Ret (_, e) => Ret (tt, DcSystem (DistributedClient d ch k e ct max cnt) ws mp st n l h)
    | Fault f => Fault f
    end.
(** The callbacks of the pool create and delete wrappers. *)
Definition on_wrappers_pool {T} (m : M (K * list CW) T) : M SYS T :=
  λ '(DcSystem (DistributedClient d ch k e ct max cnt) ws mp st n l h),
    match m (k, ws) with
    | Ret (t, (k, ws)) => Ret (t, DcSystem (DistributedClient d ch k e ct max cnt) ws mp st n l h)
    | Fault f => Fault f
    end.
(** Each use of the controller follows an assertion that there is one. *)
Definition on_controller {T} (m : M CT T) : M SYS T :=
  λ '(DcSystem (DistributedClient d ch k e ct max cnt) ws mp st n l h),
    match ct with
    | None => Fault AssertionFailed
    | Some ct =>
        match m ct with
        | Ret (t, ct) => Ret (t, DcSystem (DistributedClient d ch k e (Some ct) max cnt) ws mp st n l h)
        | Fault f => Fault f
        end
    end.
Definition on_wrapper {T} (client_wrapper : nat) (m : M CW T) : M SYS T :=
  λ '(DcSystem c ws mp st n l h),
    match ws !! client_wrapper with
    | None => Fault UseAfterFree
    | Some w =>
        match m w with
        | Ret (t, w) => Ret (t, DcSystem c (<[client_wrapper := w]> ws) mp st n l h)
        | Fault f => Fault f
        end
    end.

Definition has_controller (sys : SYS) : bool :=
  match dc_controller (ds_client sys) with Some _ => true | None => false end.

Definition assert_controller (is_set : bool) : M SYS unit :=
  set ← ds_field has_controller;
  lift (ff_assert (Bool.eqb set is_set)).
Definition assert_clients_cnt (p : Z → Z → bool) : M SYS unit :=
  cnt ← dc_field dc_current_clients_cnt;
  max ← dc_field dc_max_clients_cnt;
  lift (ff_assert (p cnt max)).

(** [ff_stream_connector_delete], of a connector the controller has given. *)
Definition delete_connector : M SYS unit :=
  n ← ds_field ds_connectors;
  if bool_decide (n > 0) then set_connectors (n - 1) else λ _, Fault UseAfterFree.

Definition create_client_wrapper : M (list CW) nat := λ ws,
  match mrpc_distributed_client_wrapper_create with
  | Ret w => Ret (length ws, ws ++ [w])
  | Fault f => Fault f
  end.

Definition delete_client_wrapper (client_wrapper : nat) : M (list CW) unit := λ ws,
  match ws !! client_wrapper with
  | None => Fault UseAfterFree
  | Some w =>
      match mrpc_distributed_client_wrapper_delete w with
      | Ret (_, w) => Ret (tt, <[client_wrapper := w]> ws)
      | Fault f => Fault f
      end
  end.

Definition acquire_client_wrapper : M SYS nat :=
  on_wrappers_pool (ff_pool_acquire_entry create_client_wrapper).

Definition release_client_wrapper (client_wrapper : nat) : M SYS unit :=
  on_wrappers_pool (on_fst (ff_pool_release_entry client_wrapper)).

(** A call of [mrpc_distributed_client_wrapper_stop], up to its first wait. *)
Definition stop_wrapper (client_wrapper : nat) (caller : stop_caller) : M SYS unit :=
  on_wrapper client_wrapper mrpc_distributed_client_wrapper_stop;;
  set_dc_main (DcStopClient client_wrapper caller).

(** [ff_dictionary_remove_all_entries] with [remove_client_wrapper_entry], from
    the wrappers which are left on, and what follows it. *)
Definition remove_client_wrapper_entries (rest : list nat) (at_end : bool) : M SYS unit :=
  match rest with
  | client_wrapper :: rest =>
      assert_clients_cnt (λ cnt _, bool_decide (cnt > 0));;
      assert_clients_cnt (λ cnt max, bool_decide (cnt <= max));;
      stop_wrapper client_wrapper (InRemoveAllClients rest at_end)
  | [] =>
      assert_clients_cnt (λ cnt _, bool_decide (cnt = 0));;
      if at_end then on_dc_event ff_event_set;; set_dc_main DcIdle else set_dc_main DcMessage
  end.

(** What follows the return of [mrpc_distributed_client_wrapper_stop]. *)
Definition wrapper_stopped (client_wrapper : nat) (caller : stop_caller) : M SYS unit :=
  release_client_wrapper client_wrapper;;
  match caller with
  | InAddClient => set_dc_main DcMessage
  | InRemoveClient =>
      cnt ← dc_field dc_current_clients_cnt;
      set_clients_cnt (cnt - 1);;
      set_dc_main DcMessage
  | InRemoveAllClients rest at_end =>
      cnt ← dc_field dc_current_clients_cnt;
      set_clients_cnt (cnt - 1);;
      remove_client_wrapper_entries rest at_end
  end.

Definition remove_all_clients (at_end : bool) : M SYS unit :=
  assert_controller true;;
  on_hash mrpc_consistent_hash_remove_all_entries;;
  entries ← on_map dict_remove_all;
  remove_client_wrapper_entries (entries.*2) at_end.

Definition add_client (stream_connector : CN) (key : Z) : M SYS unit :=
  assert_controller true;;
  assert_clients_cnt (λ cnt _, bool_decide (cnt >= 0));;
  assert_clients_cnt (λ cnt max, bool_decide (cnt <= max));;
  cnt ← dc_field dc_current_clients_cnt;
  max ← dc_field dc_max_clients_cnt;
  if bool_decide (cnt = max) then delete_connector;; set_dc_main DcMessage
  else
    client_wrapper ← acquire_client_wrapper;
    on_wrapper client_wrapper (mrpc_distributed_client_wrapper_start stream_connector);;
    result ← on_map (ff_dictionary_add_entry key client_wrapper);
    match result with
    | FF_SUCCESS =>
        on_hash (λ ch, mrpc_consistent_hash_add_entry ch (get_u64_hash key) client_wrapper);;
        set_clients_cnt (cnt + 1);;
        set_dc_main DcMessage
    | FF_FAILURE => stop_wrapper client_wrapper InAddClient
    end.

Definition remove_client (key : Z) : M SYS unit :=
  assert_controller true;;
  entry ← on_map (ff_dictionary_remove_entry key);
  match entry with
  | Some client_wrapper =>
      assert_clients_cnt (λ cnt _, bool_decide (cnt > 0));;
      assert_clients_cnt (λ cnt max, bool_decide (cnt <= max));;
      on_hash (λ ch, mrpc_consistent_hash_remove_entry ch (get_u64_hash key));;
      stop_wrapper client_wrapper InRemoveClient
  | None => set_dc_main DcMessage
  end.

(** The way from one point where the fiber waits to the next one. *)
Definition distributed_client_main_func : M SYS unit :=
  point ← ds_field ds_main;
  match point with
  | DcIdle => mret tt
  | DcStart => assert_controller true;; set_dc_main DcMessage
  | DcMessage =>
      message ← on_controller mrpc_distributed_client_controller_get_next_message;
      match message with
      | MRPC_DISTRIBUTED_CLIENT_ADD_CLIENT stream_connector key =>
          n ← ds_field ds_connectors;
          set_connectors (n + 1);;
          add_client stream_connector key
      | MRPC_DISTRIBUTED_CLIENT_REMOVE_CLIENT key => remove_client key
      | MRPC_DISTRIBUTED_CLIENT_REMOVE_ALL_CLIENTS => remove_all_clients false
      | MRPC_DISTRIBUTED_CLIENT_STOP => remove_all_clients true
      end
  | DcStopClient client_wrapper caller =>
      on_wrapper client_wrapper wrapper_stop_client;;
      set_dc_main (DcStopUsers client_wrapper caller)
  | DcStopUsers client_wrapper caller =>
      on_wrapper client_wrapper wrapper_stop_end;;
      delete_connector;;
      wrapper_stopped client_wrapper caller
  end.
Definition mrpc_distributed_client_create (expected_clients_order : Z) : outcome SYS :=
  ff_assert (bool_decide (expected_clients_order >= 0));;
  let consistent_hash_order := expected_clients_order + CONSISTENT_HASH_UNIFORM_FACTOR_ORDER in
  ff_assert (bool_decide (consistent_hash_order <= 20));;
  let max_clients_cnt := Z.shiftl 1 (1 + expected_clients_order) in
  consistent_hash ← mrpc_consistent_hash_create consistent_hash_order CONSISTENT_HASH_UNIFORM_FACTOR;
  Ret (DcSystem
    (DistributedClient
       (ff_dictionary_create expected_clients_order get_client_wrapper_key_hash
          is_client_wrapper_equal_keys)
       consistent_hash (ff_pool_create max_clients_cnt) ff_event_create None max_clients_cnt 0)
    [] DcIdle false 0 [] []).

Definition mrpc_distributed_client_delete : M SYS unit :=
  assert_controller false;;
  assert_clients_cnt (λ cnt _, bool_decide (cnt = 0));;
  on_wrappers_pool (ff_pool_delete delete_client_wrapper);;
  ch ← dc_field dc_consistent_hash;
  lift (mrpc_consistent_hash_delete ch).

Definition mrpc_distributed_client_start (controller : CT) : M SYS unit :=
  assert_controller false;;
  assert_clients_cnt (λ cnt _, bool_decide (cnt = 0));;
  set_controller (Some controller);;
  on_controller mrpc_distributed_client_controller_initialize;;
  set_dc_main DcStart.

(** [mrpc_distributed_client_stop] up to its wait, *)
Definition mrpc_distributed_client_stop : M SYS unit :=
  on_controller mrpc_distributed_client_controller_shutdown;;
  set_dc_stopping true.

(** and from there on. *)
Definition mrpc_distributed_client_stop_end : M SYS unit :=
  on_dc_event ff_event_wait;;
  assert_clients_cnt (λ cnt _, bool_decide (cnt = 0));;
  set_controller None;;
  set_dc_stopping false.

(** One round of the loop of [mrpc_distributed_client_acquire_client]: its result,
    which is the cookie as well, or the tries which are left while the caller
    sleeps. *)
Definition acquire_client_try (tries_cnt request_hash_value : Z) : M SYS (option nat + Z) :=
  consistent_hash ← dc_field dc_consistent_hash;
  if mrpc_consistent_hash_is_empty consistent_hash then
    let tries_cnt := tries_cnt - 1 in
    mret (if bool_decide (tries_cnt = 0) then inl None else inr tries_cnt)
  else
    client_wrapper ← lift (mrpc_consistent_hash_get_entry consistent_hash request_hash_value);
    on_wrapper client_wrapper mrpc_distributed_client_wrapper_acquire_client;;
    mret (inl (Some client_wrapper)).

Definition mrpc_distributed_client_acquire_client (request_hash_value : Z) : M SYS (option nat + Z) :=
  assert_controller true;;
  acquire_client_try ACQUIRE_CLIENT_MAX_TRIES_CNT request_hash_value.

(** [client] is the client of the wrapper with the same number. *)
Definition mrpc_distributed_client_release_client (client cookie : nat) : M SYS unit :=
  on_wrapper cookie (mrpc_distributed_client_wrapper_release_client (bool_decide (client = cookie))).

(** ** Steps of the users, the fiber and the clients *)

Inductive dc_op :=
  | DcStartCall (controller : CT)
  | DcStop
  | DcStopEnd
  | DcAcquire (request_hash_value : Z)
  | DcCallerWakes (caller : nat)
  | DcRelease (holder : nat)
  | DcMainStep
  | DcClientStep (client_wrapper : nat) (op : Op).

(** A caller who has got a client holds it. *)
Definition acquired (r : option nat + Z) : M SYS unit :=
  holders ← ds_field ds_holders;
  match r with inl (Some client_wrapper) => set_holders (client_wrapper :: holders) | _ => mret tt end.

Definition dc_step (op : dc_op) : M SYS unit :=
  match op with
  | DcStartCall controller => mrpc_distributed_client_start controller
  | DcStop => mrpc_distributed_client_stop
  | DcStopEnd => mrpc_distributed_client_stop_end
  | DcAcquire request_hash_value =>
      r ← mrpc_distributed_client_acquire_client request_hash_value;
      callers ← ds_field ds_callers;
      match r with
      | inl _ => mret tt
      | inr tries_cnt => set_dc_callers (callers ++ [(tries_cnt, request_hash_value)])
      end;;
      acquired r
  | DcCallerWakes caller =>
      callers ← ds_field ds_callers;
      match callers !! caller with
      | None => mret tt
      | Some (tries_cnt, request_hash_value) =>
          r ← acquire_client_try tries_cnt request_hash_value;
          match r with
          | inl _ => set_dc_callers (delete caller callers)
          | inr tries_cnt => set_dc_callers (<[caller := (tries_cnt, request_hash_value)]> callers)
          end;;
          acquired r
      end
  | DcRelease holder =>
      holders ← ds_field ds_holders;
      match holders !! holder with
      | None => mret tt
      | Some client_wrapper =>
          mrpc_distributed_client_release_client client_wrapper client_wrapper;;
          set_holders (delete holder holders)
      end
  | DcMainStep => distributed_client_main_func
  | DcClientStep client_wrapper op => on_wrapper client_wrapper (on_cw_client (client_own_step op))
  end.

(** The call is allowed and does not have to wait: the user starts a distributed
    client which is stopped, stops it once, and acquires clients while it is
    started; who has acquired a client releases it once. *)
Definition dc_enabled (op : dc_op) (sys : SYS) : Prop :=
  match op with
  | DcStartCall _ => has_controller sys = false
  | DcStop => has_controller sys = true ∧ ds_stopping sys = false
  | DcStopEnd => ds_stopping sys = true ∧ event_is_set (dc_stop_event (ds_client sys)) = true
  | DcAcquire _ => has_controller sys = true ∧ zlength (ds_holders sys) < MAX_REFS
  | DcCallerWakes caller => (caller < length (ds_callers sys))%nat ∧ zlength (ds_holders sys) < MAX_REFS
  | DcRelease holder => (holder < length (ds_holders sys))%nat
  | DcMainStep =>
      match ds_main sys with
      | DcIdle => False
      | DcStart | DcMessage => True
      | DcStopClient client_wrapper _ => ∃ w, ds_wrappers sys !! client_wrapper = Some w ∧
          client_stop_returns (cw_client w) = true
      | DcStopUsers client_wrapper _ => ∃ w, ds_wrappers sys !! client_wrapper = Some w ∧
          manual_is_set (cw_stop_event w) = true
      end
  | DcClientStep client_wrapper op => ∃ w, ds_wrappers sys !! client_wrapper = Some w ∧
      client_own_enabled op (cw_client w)
  end.

Inductive dc_run : list dc_op → SYS → SYS → Prop :=
  | dc_run_nil sys : dc_run [] sys sys
  | dc_run_cons op ops sys sys1 sys2 :
      dc_enabled op sys → dc_step op sys = Ret (tt, sys1) → dc_run ops sys1 sys2 →
      dc_run (op :: ops) sys sys2.

Definition dc_reachable (expected_clients_order : Z) (sys : SYS) : Prop :=
  ∃ sys0 ops, mrpc_distributed_client_create expected_clients_order = Ret sys0 ∧ dc_run ops sys0 sys.
End operations.
Arguments dc_op : clear implicits.

(** ** The wrappers *)

Section fleet.
Context {CL Op CN ME : Type} `{FFManualEventSpec ME} `{!RpcClient CL Op CN} `{!RpcClientSpec CL Op CN}.
#[local] Abbreviation CW := (mrpc_distributed_client_wrapper CL ME).
Implicit Types (ws : list CW) (ps : list (nat * wrapper_phase)) (hs : list nat).

(** How many users hold the client of the wrapper [ptr]. *)
Definition users hs (ptr : nat) : Z := zlength (filter (λ p, p = ptr) hs).

(** The wrappers [ws] are in the phases [ps], and [hs] are held. *)
Record fleet ps hs ws : Prop := {
  fl_all : ps.*1 ≡ₚ seq 0 (length ws);
  fl_wrapper ptr ph : (ptr, ph) ∈ ps → ∃ w, ws !! ptr = Some w ∧ wrapper_inv ph (users hs ptr) w;
  fl_holders : Forall (λ ptr, (ptr < length ws)%nat) hs
}.

Lemma users_cons hs p ptr : users (p :: hs) ptr = users hs ptr + (if decide (p = ptr) then 1 else 0).
Proof. unfold users. rewrite filter_cons. case_decide; zlen. Qed.

Lemma users_nonneg hs ptr : 0 <= users hs ptr.
Proof. apply zlength_nonneg. Qed.

Lemma users_le hs ptr : users hs ptr <= zlength hs.
Proof. unfold users. pose proof (length_filter (λ p, p = ptr) hs). unfold zlength. lia. Qed.

Lemma users_delete hs i p ptr : hs !! i = Some p →
  users (delete i hs) ptr = users hs ptr - (if decide (p = ptr) then 1 else 0).
Proof.
  intros Hi. assert (users hs ptr = users (p :: delete i hs) ptr) as ->.
  { unfold users, zlength. f_equal. apply Permutation_length, filter_Permutation.
    by apply delete_Permutation. }
  rewrite users_cons. lia.
Qed.

Lemma fleet_perm ps ps' hs ws : ps ≡ₚ ps' → fleet ps hs ws → fleet ps' hs ws.
Proof.
  intros Hp [Hall Hw Hh]. split; [by rewrite <- Hp| |done].
  intros ptr ph Hin. apply Hw. by rewrite Hp.
Qed.

Lemma fleet_nodup ps hs ws : fleet ps hs ws → NoDup (ps.*1).
Proof. intros [Hall _ _]. rewrite Hall. apply NoDup_seq. Qed.

Lemma fleet_valid ps hs ws ptr ph : fleet ps hs ws → (ptr, ph) ∈ ps → (ptr < length ws)%nat.
Proof.
  intros [_ Hw _] Hin. destruct (Hw _ _ Hin) as (w & Hl & _). by eapply lookup_lt_Some.
Qed.

Lemma fleet_phase ps hs ws ptr : fleet ps hs ws → (ptr < length ws)%nat → ∃ ph, (ptr, ph) ∈ ps.
Proof.
  intros [Hall _ _] Hlt. assert (ptr ∈ ps.*1) as Hin by (rewrite Hall; apply elem_of_seq; lia).
  apply list_elem_of_fmap in Hin as ([p ph] & -> & Hin). by exists ph.
Qed.

(** The others do not notice what happens to one of them. *)
Lemma fleet_update ps hs hs' ws ptr ph ph' w' : fleet ((ptr, ph) :: ps) hs ws →
  (∀ q, q ≠ ptr → users hs' q = users hs q) → Forall (λ q, (q < length ws)%nat) hs' →
  wrapper_inv ph' (users hs' ptr) w' → fleet ((ptr, ph') :: ps) hs' (<[ptr := w']> ws).
Proof.
  intros Hfl Hu Hh Hw'. pose proof (fleet_valid _ _ _ ptr ph Hfl ltac:(by left)) as Hlt.
  pose proof (fleet_nodup _ _ _ Hfl) as Hnd. cbn [fmap list_fmap fst] in Hnd.
  apply NoDup_cons in Hnd as [Hnotin _]. destruct Hfl as [Hall Hw _].
  split; rewrite ?length_insert; [done| |done]. intros q qh [[= -> ->]|Hin]%elem_of_cons.
  - exists w'. by rewrite list_lookup_insert_eq.
  - assert (q ≠ ptr) as Hne by (intros ->; apply Hnotin, list_elem_of_fmap; by exists (ptr, qh)).
    rewrite list_lookup_insert_ne, Hu by done. apply Hw. by right.
Qed.

Lemma fleet_new ps hs ws w : fleet ps hs ws → wrapper_inv WrapperIdle 0 w →
  fleet ((length ws, WrapperIdle) :: ps) hs (ws ++ [w]).
Proof.
  intros [Hall Hw Hh] Hw'. assert (users hs (length ws) = 0) as Hu.
  { clear - Hh. induction Hh as [|p hs Hp Hh IH]; [done|]. rewrite users_cons, IH, decide_False; lia. }
  split.
  - rewrite length_app. cbn [fmap list_fmap fst length]. rewrite Nat.add_1_r, seq_S, Hall.
    by rewrite Permutation_cons_append.
  - intros q qh [[= -> ->]|Hin]%elem_of_cons.
    + exists w. rewrite list_lookup_middle by done. by rewrite Hu.
    + destruct (Hw _ _ Hin) as (wq & Hq & Hwq). exists wq. split; [by apply lookup_app_l_Some|done].
  - eapply Forall_impl; [exact Hh|]. intros q Hq. rewrite length_app. cbn in *. lia.
Qed.

(** Idle wrappers have no users. *)
Lemma idle_no_users ps hs ws ptr : fleet ps hs ws → (ptr, WrapperIdle) ∈ ps → users hs ptr = 0.
Proof. intros [_ Hw _] Hin. by destruct (Hw _ _ Hin) as (w & _ & _ & _ & _ & _ & _ & _ & _ & Hz). Qed.

End fleet.

(** ** The ring of the registered clients *)

(** The hash spreads the points of the keys which are used: those of different
    keys are different, and those of one key are not all in one of the 128 largest
    sections of the ring. *)
Class KeysSpread `{FFHash} (keys : Z → Prop) : Prop := {
  keys_apart k1 k2 : keys k1 → keys k2 → k1 ≠ k2 → get_u64_hash k1 ≠ get_u64_hash k2 ∧
    Forall (λ p, p ∉ points 128 0 (get_u64_hash k2)) (points 128 0 (get_u64_hash k1));
  keys_spread k : keys k → ∃ p q, p ∈ points 128 0 (get_u64_hash k) ∧
    q ∈ points 128 0 (get_u64_hash k) ∧ Z.shiftr p 25 ≠ Z.shiftr q 25
}.

Section ring_map.
Context `{FFHashSpec} {keys : Z → Prop} `{!KeysSpread keys}.
Implicit Types (ch : mrpc_consistent_hash nat) (m : gmap Z nat).

(** The entries of the ring for the clients in [m]. *)
Definition ring_entries m : list (Z * nat) := (λ kv, (get_u64_hash kv.1, kv.2)) <$> map_to_list m.

Record ring_ok ch m : Prop := {
  ro_inv : ch_inv ch;
  ro_factor : ch_uniform_factor ch = 128;
  ro_order : 7 <= ch_order ch;
  ro_ring : ring ch ≡ₚ all_points 128 (ring_entries m);
  ro_keys k : k ∈ dom m → keys k
}.

Lemma all_points_perm n (reg reg' : list (Z * nat)) : reg ≡ₚ reg' → all_points n reg ≡ₚ all_points n reg'.
Proof. intros Hp. unfold all_points. by rewrite Hp. Qed.

Lemma entries_apart l : NoDup (l.*1) → Forall (λ kv : Z * nat, keys kv.1) l →
  apart 128 ((λ kv, (get_u64_hash kv.1, kv.2)) <$> l).
Proof.
  induction l as [|[k v] l IH]; intros Hnd Hk; [done|]. cbn [fmap list_fmap fst] in *.
  apply NoDup_cons in Hnd as [Hnotin Hnd]. apply Forall_cons in Hk as [Hkey Hk]. split; [|by apply IH].
  apply Forall_fmap, Forall_forall. intros [k' v'] Hin. cbn.
  assert (k' ≠ k) as Hne by (intros ->; apply Hnotin, list_elem_of_fmap; by exists (k, v')).
  apply keys_apart; [|done..]. by apply (proj1 (Forall_forall _ _) Hk (k', v')).
Qed.

Lemma map_keys m : (∀ k, k ∈ dom m → keys k) → Forall (λ kv : Z * nat, keys kv.1) (map_to_list m).
Proof.
  intros Hk. apply Forall_forall. intros [k v] Hin%elem_of_map_to_list. by apply Hk, elem_of_dom.
Qed.

Lemma map_apart m : (∀ k, k ∈ dom m → keys k) → apart 128 (ring_entries m).
Proof. intros Hk. apply entries_apart; [apply NoDup_fst_map_to_list|by apply map_keys]. Qed.

Lemma entries_length m : zlength (ring_entries m) = Z.of_nat (size m).
Proof. unfold zlength, ring_entries. by rewrite length_fmap, length_map_to_list. Qed.

Lemma ring_step op ch m m' : ring_ok ch m → ch_op_allowed 128 op (ring_entries m) →
  Z.of_nat (size m) <= 2 ^ 16 → registered_after op (ring_entries m) ≡ₚ ring_entries m' →
  (∀ k, k ∈ dom m' → keys k) → wp (ch_step op ch) (λ ch', ring_ok ch' m').
Proof.
  intros [Hinv Hf Ho Hring Hk] Hop Hsize Hreg Hk'.
  destruct (ch_step_spec 128 op ch (ring_entries m)) as [Hstep _]; try done.
  - by rewrite Hf.
  - by apply map_apart.
  - by rewrite entries_length.
  - eapply wp_mono; [exact Hstep|]. intros ch' (Hinv' & [Ho' Hf'] & Hr').
    split; [done|congruence|lia| |done]. rewrite Hr'. by apply all_points_perm.
Qed.

Lemma map_ring_add k v ch m : ring_ok ch m → m !! k = None → keys k → Z.of_nat (size m) < 2 ^ 16 →
  wp (mrpc_consistent_hash_add_entry ch (get_u64_hash k) v) (λ ch', ring_ok ch' (<[k := v]> m)).
Proof.
  intros Hok Hm Hkey Hsize. apply (ring_step (ChAdd (get_u64_hash k) v) ch m); [done| |lia| |].
  - split; [by rewrite entries_length|]. apply Forall_fmap, Forall_forall. intros [k' v'] Hin. cbn.
    apply elem_of_map_to_list in Hin. apply keys_apart; [|done|congruence].
    by apply (ro_keys _ _ Hok), elem_of_dom.
  - unfold ring_entries. by rewrite map_to_list_insert.
  - intros k'. rewrite dom_insert_L. intros [->%elem_of_singleton|Hin]%elem_of_union; [done|by apply Hok].
Qed.

Lemma map_ring_remove k v ch m : ring_ok ch m → m !! k = Some v → Z.of_nat (size m) <= 2 ^ 16 →
  wp (mrpc_consistent_hash_remove_entry ch (get_u64_hash k)) (λ ch', ring_ok ch' (delete k m)).
Proof.
  intros Hok Hm Hsize. pose proof (map_to_list_delete _ _ _ Hm) as Hp.
  assert (ring_entries m ≡ₚ (get_u64_hash k, v) :: ring_entries (delete k m)) as Hreg.
  { unfold ring_entries. by rewrite <- Hp. }
  apply (ring_step (ChRemove (get_u64_hash k)) ch m); [done| |done| |].
  - cbn. rewrite Hreg. by left.
  - cbn [registered_after]. rewrite Hreg, filter_cons, decide_False by (cbn; tauto).
    rewrite filter_others; [done|]. apply Forall_fmap, Forall_forall. intros [k' v'] Hin. cbn.
    apply elem_of_map_to_list, lookup_delete_Some in Hin as [Hne Hin]. apply keys_apart; [..|done].
    + by apply (ro_keys _ _ Hok), elem_of_dom.
    + apply (ro_keys _ _ Hok), elem_of_dom. by exists v.
  - intros k'. rewrite dom_delete_L. intros [Hin _]%elem_of_difference. by apply Hok.
Qed.

Lemma map_ring_clear ch m : ring_ok ch m → Z.of_nat (size m) <= 2 ^ 16 →
  wp (mrpc_consistent_hash_remove_all_entries ch) (λ ch', ring_ok ch' ∅).
Proof.
  intros Hok Hsize. apply (ring_step ChRemoveAll ch m); [done..| |].
  - unfold ring_entries. by rewrite map_to_list_empty.
  - intros k. rewrite dom_empty_L. by intros ?%not_elem_of_empty.
Qed.

Lemma map_ring_is_empty ch m : ring_ok ch m → mrpc_consistent_hash_is_empty ch = bool_decide (m = ∅).
Proof.
  intros [Hinv _ _ Hring _]. unfold mrpc_consistent_hash_is_empty. apply bool_decide_ext.
  rewrite (ch_count _ Hinv). unfold zlength at 1. rewrite Hring.
  fold (zlength (all_points 128 (ring_entries m))). rewrite all_points_length, entries_length.
  rewrite <- map_size_empty_iff. lia.
Qed.
Lemma shiftr_finer p q s : 0 <= s <= 25 → Z.shiftr p 25 ≠ Z.shiftr q 25 → Z.shiftr p s ≠ Z.shiftr q s.
Proof.
  intros Hs Hne Heq. apply Hne. replace 25 with (s + (25 - s)) by lia.
  by rewrite <- !Z.shiftr_shiftr, Heq by lia.
Qed.

Lemma all_points_elem n (reg : list (Z * nat)) e : e ∈ all_points n reg ↔
  ∃ kv, kv ∈ reg ∧ en_value e = kv.2 ∧ en_key e ∈ points n 0 kv.1.
Proof.
  unfold all_points. rewrite list_elem_of_bind. split.
  - intros (kv & He & Hkv). apply list_elem_of_fmap in He as (p & -> & Hp). by exists kv.
  - intros (kv & Hkv & Hv & Hp). exists kv. split; [|done]. apply list_elem_of_fmap.
    exists (en_key e). split; [|done]. rewrite <- Hv. by destruct e.
Qed.

Lemma registered_point ch m k p : ring_ok ch m → k ∈ dom m → p ∈ points 128 0 (get_u64_hash k) →
  ∃ v, Entry p v ∈ ring ch.
Proof.
  intros [_ _ _ Hring _] [v Hk]%elem_of_dom Hp. exists v. rewrite Hring. apply all_points_elem.
  exists (get_u64_hash k, v). split; [|done]. apply list_elem_of_fmap. exists (k, v).
  split; [done|by apply elem_of_map_to_list].
Qed.

(** The client [ptr] has the point which follows the hash [h] on the ring, or is
    the hash itself. *)
Definition nearest_client m (h : Z) (ptr : nat) : Prop :=
  ∃ key pt, m !! key = Some ptr ∧ pt ∈ points 128 0 (get_u64_hash key) ∧
    ∀ key' pt', key' ∈ dom m → pt' ∈ points 128 0 (get_u64_hash key') → distance h pt <= distance h pt'.

(** A lookup finds a registered client, the one with the nearest point. *)
Lemma map_ring_get key ch m : ring_ok ch m → m ≠ ∅ →
  wp (mrpc_consistent_hash_get_entry ch key) (nearest_client m (ff_hash_uint32 0 [key])).
Proof.
  intros Hok Hne. apply map_choose in Hne as (k0 & v0 & Hk0). pose proof Hok as [Hinv Hf Ho Hring Hk].
  assert (k0 ∈ dom m) as Hdom by (apply elem_of_dom; by exists v0).
  destruct (keys_spread k0) as (p & q & Hp & Hq & Hpq); [by apply Hk|].
  destruct (registered_point _ _ _ _ Hok Hdom Hp) as [vp Hinp].
  destruct (registered_point _ _ _ _ Hok Hdom Hq) as [vq Hinq].
  assert (ring ch ≠ []) as Hnn by (intros Hnil; rewrite Hnil in Hinp; by apply elem_of_nil in Hinp).
  rewrite get_entry_eq by done.
  pose proof (lookup_nearest ch (ff_hash_uint32 0 [key]) Hinv Hnn ltac:(apply ff_hash_uint32_range)) as Hl.
  destruct (decide _) as [Hall|_] in Hl.
  - exfalso. rewrite Forall_forall in Hall. destruct (Hall _ Hinp) as [Hbp _].
    destruct (Hall _ Hinq) as [Hbq _]. cbn in Hbp, Hbq. unfold bucket_of in *.
    apply (shiftr_finer p q (32 - ch_order ch)); [|done|congruence]. pose proof (ch_order_range _ Hinv). lia.
  - destruct Hl as (e & -> & He & Hnear). rewrite Hring in He.
    apply all_points_elem in He as (kv & Hkv & Hv & Hpt).
    apply list_elem_of_fmap in Hkv as ([k v] & -> & Hkv). cbn in Hv, Hpt.
    apply elem_of_map_to_list in Hkv. rewrite <- Hv in Hkv. exists k, (en_key e). split_and!; [done..|].
    intros key' pt' Hdom' Hpt'. destruct (registered_point _ _ _ _ Hok Hdom' Hpt') as [v' Hin'].
    by apply (Hnear (Entry pt' v')).
Qed.

Lemma points_range n i key p : p ∈ points n i key → is_u32 p.
Proof. unfold points. intros (j & -> & _)%list_elem_of_fmap. apply ff_hash_uint32_range. Qed.

Lemma distance_inj h p q : is_u32 p → is_u32 q → distance h p = distance h q → p = q.
Proof. unfold distance, is_u32. intros Hp Hq Heq. pose proof (Z.mod_eq (p - h) (2 ^ 32)). pose proof (Z.mod_eq (q - h) (2 ^ 32)). nia. Qed.

(** The nearest client stays the nearest one as long as it is registered. *)
Lemma nearest_fewer m m' h ptr ptr' key : m' ⊆ m → (∀ k, k ∈ dom m → keys k) → m' !! key = Some ptr →
  (∀ key', m !! key' = Some ptr → key' = key) →
  nearest_client m h ptr → nearest_client m' h ptr' → ptr' = ptr.
Proof.
  intros Hsub Hkeys Hkey Huniq (k1 & p1 & H1' & Hp1 & Hn1) (k2 & p2 & H2' & Hp2 & Hn2).
  assert (k1 = key) as -> by by apply Huniq.
  assert (m !! k2 = Some ptr') as H3' by by eapply lookup_weaken.
  assert (distance h p1 = distance h p2) as Heq.
  { apply Z.le_antisymm; [apply (Hn1 k2)|apply (Hn2 key)]; try done; apply elem_of_dom; by eexists. }
  apply distance_inj in Heq as <-; [|by eapply points_range..].
  destruct (decide (k2 = key)) as [->|Hne]; [congruence|]. exfalso.
  destruct (keys_apart key k2) as [_ Hap]; [by apply Hkeys, elem_of_dom..|done|].
  by apply (proj1 (Forall_forall _ _) Hap p1).
Qed.
End ring_map.
