(* ===== verification/DistributedRun.v ===== *)
(** * Runs of the distributed client

    The invariant of the distributed client of [DistributedClient], in any
    interleaving of its users, its fiber and its clients: each wrapper is either
    in the pool, or runs the client of one registered key, or is being stopped.
    From it follow the properties: no assertion fails, requests go to the nearest
    registered client, [mrpc_distributed_client_stop] comes to its end. *)

From stdpp Require Import gmap.
From S2P Require Import Prelude FF FFSync RefCount Packet PacketStream Bitmap StreamProcessor.
From S2P Require Import ClientProcessor MrpcClient ConsistentHash ClientWrapper DistributedClient.

(** ** Calls on the parts of the distributed client *)

Section calls.
Context {CL Op CN ME D K E CT : Type}.
#[local] Abbreviation CW := (mrpc_distributed_client_wrapper CL ME).
#[local] Abbreviation SYS := (dc_system D K E CT CW).

Lemma wp_ds_field {T} (f : SYS → T) sys (R : T * SYS → Prop) : wp (ds_field f sys) R ↔ R (f sys, sys).
Proof. done. Qed.
Lemma wp_dc_field {T} f c (ws : list CW) mp st n l h (R : T * SYS → Prop) :
  wp (dc_field f (DcSystem c ws mp st n l h)) R ↔ R (f c, DcSystem c ws mp st n l h).
Proof. done. Qed.
Lemma wp_on_map {T} (m : M D T) d ch k e ct max cnt (ws : list CW) mp st n l h (R : T * SYS → Prop) :
  wp (m d) (λ r, R (r.1, DcSystem (DistributedClient (r.2) ch k e ct max cnt) ws mp st n l h)) →
  wp (on_map m (DcSystem (DistributedClient d ch k e ct max cnt) ws mp st n l h)) R.
Proof. unfold on_map. by destruct (m d) as [[t d']|]. Qed.
Lemma wp_on_hash m d ch k e ct max cnt (ws : list CW) mp st n l h (R : unit * SYS → Prop) :
  wp (m ch) (λ ch, R (tt, DcSystem (DistributedClient d ch k e ct max cnt) ws mp st n l h)) →
  wp (on_hash m (DcSystem (DistributedClient d ch k e ct max cnt) ws mp st n l h)) R.
Proof. unfold on_hash. by destruct (m ch) as [ch'|]. Qed.
Lemma wp_on_dc_event m d ch k e ct max cnt (ws : list CW) mp st n l h (R : unit * SYS → Prop) :
  wp (m e) (λ r, R (tt, DcSystem (DistributedClient d ch k (r.2) ct max cnt) ws mp st n l h)) →
  wp (on_dc_event m (DcSystem (DistributedClient d ch k e ct max cnt) ws mp st n l h)) R.
Proof. unfold on_dc_event. by destruct (m e) as [[[] e']|]. Qed.
Lemma wp_on_wrappers_pool {T} (m : M (K * list CW) T) d ch k e ct max cnt ws mp st n l h
    (R : T * SYS → Prop) :
  wp (m (k, ws)) (λ '(t, (k, ws)), R (t, DcSystem (DistributedClient d ch k e ct max cnt) ws mp st n l h)) →
  wp (on_wrappers_pool m (DcSystem (DistributedClient d ch k e ct max cnt) ws mp st n l h)) R.
Proof. unfold on_wrappers_pool. by destruct (m (k, ws)) as [[t [k' ws']]|]. Qed.
Lemma wp_on_controller {T} (m : M CT T) d ch k e ct max cnt (ws : list CW) mp st n l h
    (R : T * SYS → Prop) :
  wp (m ct) (λ r, R (r.1, DcSystem (DistributedClient d ch k e (Some (r.2)) max cnt) ws mp st n l h)) →
  wp (on_controller m (DcSystem (DistributedClient d ch k e (Some ct) max cnt) ws mp st n l h)) R.
Proof. unfold on_controller. by destruct (m ct) as [[t ct']|]. Qed.
Lemma wp_assert_controller b d ch k e ct max cnt (ws : list CW) mp st n l h (R : unit * SYS → Prop) :
  (match ct with Some _ => true | None => false end) = b →
  R (tt, DcSystem (DistributedClient d ch k e ct max cnt) ws mp st n l h) →
  wp (assert_controller b (DcSystem (DistributedClient d ch k e ct max cnt) ws mp st n l h)) R.
Proof.
  intros Hb HR. unfold assert_controller, ds_field, mbind, M_bind, lift, has_controller. cbn.
  rewrite Hb. by destruct b.
Qed.
Lemma wp_assert_clients_cnt (p : Z → Z → bool) d ch k e ct max cnt (ws : list CW) mp st n l h
    (R : unit * SYS → Prop) :
  p cnt max = true → R (tt, DcSystem (DistributedClient d ch k e ct max cnt) ws mp st n l h) →
  wp (assert_clients_cnt p (DcSystem (DistributedClient d ch k e ct max cnt) ws mp st n l h)) R.
Proof.
  intros Hb HR. unfold assert_clients_cnt, dc_field, mbind, M_bind, lift. cbn. by rewrite Hb.
Qed.
Lemma wp_delete_connector c (ws : list CW) mp st n l h (R : unit * SYS → Prop) : n > 0 →
  R (tt, DcSystem c ws mp st (n - 1) l h) → wp (delete_connector (DcSystem c ws mp st n l h)) R.
Proof.
  intros Hn HR. unfold delete_connector, ds_field, mbind, M_bind. cbn. by rewrite bool_decide_eq_true_2.
Qed.
End calls.

Ltac dc_simpl := cbn [fst snd dc_clients_map dc_consistent_hash dc_client_wrappers_pool dc_stop_event
  dc_controller dc_max_clients_cnt dc_current_clients_cnt ds_client ds_wrappers ds_main ds_stopping
  ds_connectors ds_callers ds_holders] in *.
Ltac dc_solve := try (apply bool_decide_eq_true_2; (done || lia)).
Ltac dc_step1 :=
  lazymatch goal with
  | |- wp (ds_field _ _) _ => rewrite wp_ds_field
  | |- wp (dc_field _ _) _ => rewrite wp_dc_field
  | |- wp (on_map _ (DcSystem _ _ _ _ _ _ _)) _ => apply wp_on_map
  | |- wp (on_hash _ (DcSystem _ _ _ _ _ _ _)) _ => apply wp_on_hash
  | |- wp (on_dc_event _ (DcSystem _ _ _ _ _ _ _)) _ => apply wp_on_dc_event
  | |- wp (on_wrappers_pool _ (DcSystem _ _ _ _ _ _ _)) _ => apply wp_on_wrappers_pool
  | |- wp (on_controller _ (DcSystem (DistributedClient _ _ _ _ (Some _) _ _) _ _ _ _ _ _)) _ =>
      apply wp_on_controller
  | |- wp (assert_controller _ _) _ => apply wp_assert_controller; [try done|]
  | |- wp (assert_clients_cnt _ _) _ => apply wp_assert_clients_cnt; [dc_solve|]
  | |- wp (delete_connector _) _ => apply wp_delete_connector; [try lia|]
  | |- wp (set_dc_main _ _) _ => cbn [wp set_dc_main]
  | |- wp (set_dc_stopping _ _) _ => cbn [wp set_dc_stopping]
  | |- wp (set_connectors _ _) _ => cbn [wp set_connectors]
  | |- wp (set_dc_callers _ _) _ => cbn [wp set_dc_callers]
  | |- wp (set_holders _ _) _ => cbn [wp set_holders]
  | |- wp (set_controller _ _) _ => cbn [wp set_controller]
  | |- wp (set_clients_cnt _ _) _ => cbn [wp set_clients_cnt]
  | |- _ => wp_step
  end; dc_simpl.
Ltac dc_steps := repeat dc_step1.

(** ** The invariant *)

Section invariant.
Context {CL Op CN ME D K E CT : Type} {keys : Z → Prop}.
Context `{FFManualEventSpec ME} `{FFEventSpec E} `{FFDictionarySpec D} `{FFPoolSpec K nat}.
Context `{FFHashSpec} `{!KeysSpread keys}.
Context `{!RpcClient CL Op CN} `{!RpcClientSpec CL Op CN}.
Context `{!ControllerVtable CT CN} `{!ControllerSpec CT CN keys}.
#[local] Abbreviation CW := (mrpc_distributed_client_wrapper CL ME).
#[local] Abbreviation DC := (mrpc_distributed_client D K E CT).
#[local] Abbreviation SYS := (dc_system D K E CT CW).
Implicit Types (sys : SYS) (ws : list CW).

Definition rest_of (caller : stop_caller) : list nat :=
  match caller with InRemoveAllClients rest _ => rest | _ => [] end.

(** The wrappers which the fiber is about to stop, or stops. *)
Definition main_phases (mp : dc_point) : list (nat * wrapper_phase) :=
  match mp with
  | DcStopClient ptr caller => (ptr, WrapperStops) :: ((., WrapperRuns) <$> rest_of caller)
  | DcStopUsers ptr caller => (ptr, WrapperWaits) :: ((., WrapperRuns) <$> rest_of caller)
  | _ => []
  end.

(** Those of them which are still counted. *)
Definition main_counted (mp : dc_point) : Z :=
  match mp with
  | DcStopClient _ InAddClient | DcStopUsers _ InAddClient => 0
  | _ => zlength (main_phases mp)
  end.
(** The phases of all wrappers: those of the registered clients run, those of the
    pool do not. *)
Definition all_phases (m : gmap Z nat) (mp : dc_point) (free : list nat) : list (nat * wrapper_phase) :=
  main_phases mp ++ ((., WrapperRuns) <$> (map_to_list m).*2) ++ ((., WrapperIdle) <$> free).

Definition controller_closed (ct : option CT) : Prop :=
  match ct with Some ct => controller_open ct = false | None => False end.

(** What the point at which the fiber waits says about the rest. *)
Definition dc_main_ok (mp : dc_point) (m : gmap Z nat) (set : bool) (ct : option CT) : Prop :=
  match mp with
  | DcIdle => m = ∅ ∧ (if set then is_Some ct else ct = None)
  | DcStart => m = ∅ ∧ set = false ∧ is_Some ct
  | DcStopClient _ (InRemoveAllClients _ _) | DcStopUsers _ (InRemoveAllClients _ _) =>
      m = ∅ ∧ set = false ∧ is_Some ct
  | _ => set = false ∧ is_Some ct
  end.

Record dc_inv (limit : Z) sys : Prop := {
  di_ring : ring_ok (keys := keys) (dc_consistent_hash (ds_client sys)) (dict_map (dc_clients_map (ds_client sys)));
  di_fleet : fleet (all_phases (dict_map (dc_clients_map (ds_client sys))) (ds_main sys)
    (pool_free (dc_client_wrappers_pool (ds_client sys)))) (ds_holders sys) (ds_wrappers sys);
  di_cnt : dc_current_clients_cnt (ds_client sys) =
    Z.of_nat (size (dict_map (dc_clients_map (ds_client sys)))) + main_counted (ds_main sys);
  di_max : dc_max_clients_cnt (ds_client sys) = limit ∧ dc_current_clients_cnt (ds_client sys) <= limit ∧
    limit <= 2 ^ 15;
  di_busy : pool_busy (dc_client_wrappers_pool (ds_client sys)) =
    Z.of_nat (size (dict_map (dc_clients_map (ds_client sys)))) + zlength (main_phases (ds_main sys));
  di_connectors : ds_connectors sys =
    Z.of_nat (size (dict_map (dc_clients_map (ds_client sys)))) + zlength (main_phases (ds_main sys));
  di_main : dc_main_ok (ds_main sys) (dict_map (dc_clients_map (ds_client sys)))
    (event_is_set (dc_stop_event (ds_client sys))) (dc_controller (ds_client sys));
  di_stops : ds_stopping sys = true → controller_closed (dc_controller (ds_client sys));
  di_callers : Forall (λ c, 1 <= c.1 < ACQUIRE_CLIENT_MAX_TRIES_CNT) (ds_callers sys);
  di_holders : zlength (ds_holders sys) <= MAX_REFS
}.

(** The steps which the fiber has still to make when its next message is
    [MRPC_DISTRIBUTED_CLIENT_STOP]. *)
Definition work_after (caller : stop_caller) (m : gmap Z nat) : nat :=
  match caller with
  | InRemoveAllClients rest at_end => 2 * length rest + (if at_end then 0 else 1)
  | _ => 1 + 2 * size m
  end.
Definition stop_work_left sys : nat :=
  let m := dict_map (dc_clients_map (ds_client sys)) in
  match ds_main sys with
  | DcIdle => 0
  | DcStart => 2 + 2 * size m
  | DcMessage => 1 + 2 * size m
  | DcStopClient _ caller => 2 + work_after caller m
  | DcStopUsers _ caller => 1 + work_after caller m
  end.

(** ** Calls on a wrapper *)

Lemma wrapper_call {T} (m : M CW T) ptr ph ps c ws mp st n l h (R : T → wrapper_phase → Prop)
    (Q : T * SYS → Prop) :
  fleet ((ptr, ph) :: ps) h ws →
  (∀ w, ws !! ptr = Some w → wrapper_inv ph (users h ptr) w →
    wp (m w) (λ '(t, w'), ∃ ph', R t ph' ∧ wrapper_inv ph' (users h ptr) w')) →
  (∀ t ph' ws', R t ph' → fleet ((ptr, ph') :: ps) h ws' → Q (t, DcSystem c ws' mp st n l h)) →
  wp (on_wrapper ptr m (DcSystem c ws mp st n l h)) Q.
Proof.
  intros Hfl Hm HQ. destruct (fl_wrapper _ _ _ Hfl ptr ph) as (w & Hl & Hw); [by left|].
  unfold on_wrapper. rewrite Hl. specialize (Hm w Hl Hw). destruct (m w) as [[t w']|]; [|done].
  destruct Hm as (ph' & HR & Hw'). apply (HQ t ph'); [done|].
  eapply fleet_update; [done|done|apply Hfl|done].
Qed.

Lemma stop_wrapper_spec ptr caller ps c ws mp st n l h (Q : unit * SYS → Prop) :
  fleet ((ptr, WrapperRuns) :: ps) h ws →
  (∀ ws', fleet ((ptr, WrapperStops) :: ps) h ws' →
    Q (tt, DcSystem c ws' (DcStopClient ptr caller) st n l h)) →
  wp (stop_wrapper ptr caller (DcSystem c ws mp st n l h)) Q.
Proof.
  intros Hfl HQ. unfold stop_wrapper. dc_steps.
  eapply (wrapper_call _ _ _ _ _ _ _ _ _ _ _ (λ _ ph, ph = WrapperStops)); [exact Hfl| |].
  - intros w _ Hw. eapply wp_mono; [by apply wrapper_stop_spec|]. intros [[] w'] Hw'. by exists WrapperStops.
  - intros [] ph' ws' -> Hfl'. dc_simpl. dc_steps. by apply HQ.
Qed.

(** ** Removing all clients *)

Lemma phases_empty mp free : all_phases ∅ mp free = main_phases mp ++ ((., WrapperIdle) <$> free).
Proof. unfold all_phases. by rewrite map_to_list_empty. Qed.

(** The wrappers [rest] are left, and the map is empty. *)
Lemma remove_entries_inv limit rest at_end d ch k e c max cnt ws mp st l h :
  ring_ok (keys := keys) ch ∅ → dict_map d = ∅ →
  fleet (((., WrapperRuns) <$> rest) ++ ((., WrapperIdle) <$> pool_free k)) h ws →
  cnt = zlength rest → max = limit → cnt <= limit → limit <= 2 ^ 15 → pool_busy k = zlength rest →
  event_is_set e = false → (st = true → controller_open c = false) →
  Forall (λ c, 1 <= c.1 < ACQUIRE_CLIENT_MAX_TRIES_CNT) l → zlength h <= MAX_REFS →
  wp (remove_client_wrapper_entries rest at_end
       (DcSystem (DistributedClient d ch k e (Some c) max cnt) ws mp st (zlength rest) l h))
    (λ '(_, sys'), dc_inv limit sys' ∧ ds_stopping sys' = st ∧
      stop_work_left sys' = 2 * length rest + (if at_end then 0 else 1))%nat.
Proof.
  intros Hring Hd Hfl -> -> Hmax Hlim Hbusy He Hst Hl Hhs. destruct rest as [|ptr rest];
    cbn [remove_client_wrapper_entries].
  - change (zlength []) with 0 in *. dc_steps. destruct at_end; dc_steps.
    + eapply wp_mono; [apply ff_event_set_spec|]. intros [[] e'] He'. dc_steps. split; [|done].
      split; dc_simpl; rewrite ?Hd, ?phases_empty; try done. cbn. by rewrite He'.
    + split; [|by split; [|unfold stop_work_left; cbn; rewrite Hd]]. split; dc_simpl; rewrite ?Hd, ?phases_empty; done.
  - pose proof (zlength_nonneg rest). rewrite zlength_cons in *. dc_steps.
    eapply stop_wrapper_spec; [exact Hfl|]. intros ws' Hfl'.
    split; [|split; [done|unfold stop_work_left; cbn; lia]].
    split; dc_simpl; rewrite ?Hd, ?phases_empty; try done; cbn [main_counted main_phases rest_of];
      rewrite ?zlength_cons, ?zlength_fmap, ?map_size_empty; lia.
Qed.
Lemma remove_all_inv limit at_end sys : dc_inv limit sys → ds_main sys = DcMessage →
  wp (remove_all_clients at_end sys) (λ '(_, sys'), dc_inv limit sys' ∧ ds_stopping sys' = ds_stopping sys ∧
    (at_end = true → Datatypes.S (stop_work_left sys') = stop_work_left sys)).
Proof.
  destruct sys as [[d ch k e ct max cnt] ws mp st n l h].
  intros [Hring Hfl Hcnt (Hmax & Hle & Hlim) Hbusy Hconn Hmain Hst Hl Hhs] Hmp. dc_simpl. subst mp.
  cbn [main_counted main_phases] in *. change (zlength []) with 0 in *.
  destruct Hmain as (He & [c ->]). unfold remove_all_clients. dc_steps.
  eapply wp_mono; [by eapply map_ring_clear; [exact Hring|lia]|]. intros ch' Hring'. dc_steps.
  eapply wp_mono; [apply dict_remove_all_spec|]. intros [entries d'] [Hp Hd']. dc_simpl.
  assert (zlength (entries.*2) = Z.of_nat (size (dict_map d))) as Hlen.
  { rewrite zlength_fmap. unfold zlength. by rewrite Hp, length_map_to_list. }
  replace n with (zlength (entries.*2)) by lia.
  eapply wp_mono; [apply (remove_entries_inv limit (entries.*2) at_end); try done; try lia|].
  2: { intros [[] sys'] (Hinv & Hst' & Hw). split_and!; [done..|]. intros ->. rewrite Hw.
    unfold stop_work_left. cbn. unfold zlength in Hlen. lia. }
  eapply fleet_perm; [|exact Hfl]. unfold all_phases. cbn [main_phases app]. by rewrite Hp.
Qed.

(** An entry of the pool, reused or new. *)
Lemma acquire_wrapper_spec ps k h ws : fleet (ps ++ ((., WrapperIdle) <$> pool_free k)) h ws →
  wp (ff_pool_acquire_entry create_client_wrapper (k, ws)) (λ '(ptr, (k', ws')),
    fleet ((ptr, WrapperIdle) :: ps ++ ((., WrapperIdle) <$> pool_free k')) h ws' ∧
    pool_busy k' = pool_busy k + 1).
Proof.
  intros Hfl. destruct (decide (pool_free k = [])) as [Hk|Hk].
  - rewrite Hk, app_nil_r in Hfl. eapply wp_mono.
    { apply (ff_pool_acquire_new_spec _ k ws (λ '(ptr, ws'), fleet ((ptr, WrapperIdle) :: ps) h ws')); [done|].
      unfold create_client_wrapper. pose proof (wrapper_create_spec (CL := CL) (E := ME)) as Hw.
      destruct mrpc_distributed_client_wrapper_create as [w|]; [|done]. by apply fleet_new. }
    intros [ptr [k' ws']] (Hfl' & Hk' & Hb). rewrite Hk'. cbn. by rewrite app_nil_r.
  - eapply wp_mono; [by apply ff_pool_acquire_free_spec|].
    intros [ptr [k' ws']] (-> & Hp & Hb). split; [|done].
    eapply fleet_perm; [|exact Hfl]. rewrite Hp. cbn. by rewrite Permutation_middle.
Qed.

(** A registered client is in the map under its key. *)
Lemma phases_insert m key ptr mp free : m !! key = None →
  all_phases (<[key := ptr]> m) mp free ≡ₚ (ptr, WrapperRuns) :: all_phases m mp free.
Proof.
  intros Hm. unfold all_phases. rewrite (map_to_list_insert _ _ _ Hm). cbn.
  by rewrite <- Permutation_middle.
Qed.

Lemma phases_delete m key ptr mp free : m !! key = Some ptr →
  all_phases m mp free ≡ₚ (ptr, WrapperRuns) :: all_phases (delete key m) mp free.
Proof.
  intros Hm. unfold all_phases. rewrite <- (map_to_list_delete _ _ _ Hm). cbn.
  by rewrite <- Permutation_middle.
Qed.

Lemma phases_stop m ptr caller free : rest_of caller = [] →
  all_phases m (DcStopClient ptr caller) free = (ptr, WrapperStops) :: all_phases m DcMessage free.
Proof. intros Hr. unfold all_phases. cbn. by rewrite Hr. Qed.

Lemma add_client_inv limit conn key d ch k e ct max cnt ws st n l h :
  dc_inv limit (DcSystem (DistributedClient d ch k e ct max cnt) ws DcMessage st n l h) → keys key →
  wp (add_client conn key (DcSystem (DistributedClient d ch k e ct max cnt) ws DcMessage st (n + 1) l h))
    (λ '(_, sys'), dc_inv limit sys' ∧ ds_stopping sys' = st).
Proof.
  intros [Hring Hfl Hcnt (Hmax & Hle & Hlim) Hbusy Hconn Hmain Hst Hl Hhs] Hkey. dc_simpl.
  cbn [main_counted main_phases] in *. change (zlength []) with 0 in *.
  destruct Hmain as (He & [c ->]). unfold add_client. dc_steps. case_bool_decide as Hfull.
  { dc_steps. split; [|done]. split; dc_simpl; try done. cbn [main_phases]. change (zlength []) with 0. lia. }
  unfold acquire_client_wrapper. dc_steps. unfold all_phases in Hfl. cbn [main_phases app] in Hfl.
  eapply wp_mono; [by apply acquire_wrapper_spec|]. intros [ptr [k' ws']] [Hfl' Hb']. dc_steps.
  eapply (wrapper_call _ _ _ _ _ _ _ _ _ _ _ (λ _ ph, ph = WrapperRuns)); [exact Hfl'| |].
  { intros w _ Hw. rewrite (idle_no_users _ _ _ ptr Hfl' ltac:(by left)) in *.
    eapply wp_mono; [by apply wrapper_start_spec|]. intros [[] w'] Hw'. by exists WrapperRuns. }
  intros [] ph ws1 -> Hfl1. dc_steps. eapply wp_mono; [apply ff_dictionary_add_entry_spec|].
  intros [r d'] Hadd. dc_simpl. destruct (dict_map d !! key) as [old|] eqn:Hold; destruct Hadd as [-> Hd'].
  - eapply stop_wrapper_spec; [exact Hfl1|]. intros ws2 Hfl2. split; [|done].
    split; dc_simpl; rewrite ?Hd', ?phases_stop by done; try done; cbn [main_counted main_phases rest_of];
      try (cbn [fmap list_fmap]; zlen; lia).
  - dc_steps. eapply wp_mono; [eapply map_ring_add; [exact Hring|done|done|lia]|]. intros ch' Hring'. dc_steps.
    split; [|done]. split; dc_simpl; rewrite ?Hd', ?map_size_insert_None by done; try done;
      cbn [main_counted main_phases]; try (change (zlength []) with 0; lia).
    eapply fleet_perm; [symmetry; by apply phases_insert|]. exact Hfl1.
Qed.

Lemma remove_client_inv limit key sys : dc_inv limit sys → ds_main sys = DcMessage →
  wp (remove_client key sys) (λ '(_, sys'), dc_inv limit sys' ∧ ds_stopping sys' = ds_stopping sys).
Proof.
  destruct sys as [[d ch k e ct max cnt] ws mp st n l h].
  intros [Hring Hfl Hcnt (Hmax & Hle & Hlim) Hbusy Hconn Hmain Hst Hl Hhs] Hmp. dc_simpl. subst mp.
  cbn [main_counted main_phases] in *. change (zlength []) with 0 in *.
  destruct Hmain as (He & [c ->]). unfold remove_client. dc_steps.
  eapply wp_mono; [apply ff_dictionary_remove_entry_spec|]. intros [r d'] [-> Hd']. dc_simpl.
  destruct (dict_map d !! key) as [ptr|] eqn:Hold.
  - assert (size (delete key (dict_map d)) = pred (size (dict_map d))) as Hsize
      by (apply map_size_delete_Some; by eexists).
    assert (size (dict_map d) ≠ 0%nat) as Hpos
      by (intros Hz%map_size_empty_iff; rewrite Hz in Hold; done).
    dc_steps. eapply wp_mono; [eapply map_ring_remove; [exact Hring|done|lia]|]. intros ch' Hring'. dc_steps.
    eapply stop_wrapper_spec; [eapply fleet_perm; [by apply phases_delete|exact Hfl]|].
    intros ws' Hfl'. split; [|done].
    split; dc_simpl; rewrite ?Hd', ?phases_stop, ?Hsize by done; try done;
      cbn [main_counted main_phases rest_of]; try (cbn [fmap list_fmap]; zlen; lia).
  - dc_steps. rewrite delete_id in Hd' by done. split; [|done]. split; dc_simpl; rewrite ?Hd'; try done.
Qed.
Lemma stop_client_inv limit ptr caller sys : dc_inv limit sys → ds_main sys = DcStopClient ptr caller →
  (∃ w, ds_wrappers sys !! ptr = Some w ∧ client_stop_returns (cw_client w) = true) →
  wp (distributed_client_main_func sys) (λ '(_, sys'), dc_inv limit sys' ∧
    ds_stopping sys' = ds_stopping sys ∧ Datatypes.S (stop_work_left sys') = stop_work_left sys).
Proof.
  destruct sys as [[d ch k e ct max cnt] ws mp st n l h].
  intros [Hring Hfl Hcnt Hmax Hbusy Hconn Hmain Hst Hl Hhs] Hmp (w0 & Hw0 & Hret). dc_simpl. subst mp.
  unfold distributed_client_main_func. dc_steps. unfold all_phases in Hfl. cbn [main_phases app] in Hfl.
  eapply (wrapper_call _ _ _ _ _ _ _ _ _ _ _ (λ _ ph, ph = WrapperWaits)); [exact Hfl| |].
  - intros w Hl' Hw. assert (w = w0) as -> by congruence.
    eapply wp_mono; [by apply wrapper_stop_client_spec|]. intros [[] w'] Hw'. by exists WrapperWaits.
  - intros [] ph ws' -> Hfl'. dc_steps. split; [|done]. by split; dc_simpl.
Qed.

(** The wrapper goes back to the pool. *)
Lemma released_phases (ptr : nat) (ps m free free' : list nat) : free' ≡ₚ ptr :: free →
  (ptr, WrapperIdle) :: ((., WrapperRuns) <$> ps) ++ ((., WrapperRuns) <$> m) ++ ((., WrapperIdle) <$> free) ≡ₚ
  ((., WrapperRuns) <$> ps) ++ ((., WrapperRuns) <$> m) ++ ((., WrapperIdle) <$> free').
Proof. intros ->. cbn. by rewrite !Permutation_middle. Qed.

Lemma stop_users_inv limit ptr caller sys : dc_inv limit sys → ds_main sys = DcStopUsers ptr caller →
  (∃ w, ds_wrappers sys !! ptr = Some w ∧ manual_is_set (cw_stop_event w) = true) →
  wp (distributed_client_main_func sys) (λ '(_, sys'), dc_inv limit sys' ∧
    ds_stopping sys' = ds_stopping sys ∧ Datatypes.S (stop_work_left sys') = stop_work_left sys).
Proof.
  destruct sys as [[d ch k e ct max cnt] ws mp st n l h].
  intros [Hring Hfl Hcnt (Hmax & Hle & Hlim) Hbusy Hconn Hmain Hst Hl Hhs] Hmp (w0 & Hw0 & Hset). dc_simpl. subst mp.
  unfold distributed_client_main_func, wrapper_stopped, release_client_wrapper. dc_steps.
  unfold all_phases in Hfl. cbn [main_phases app] in Hfl, Hbusy, Hconn. rewrite zlength_cons, zlength_fmap in *.
  eapply (wrapper_call _ _ _ _ _ _ _ _ _ _ _ (λ _ ph, ph = WrapperIdle)); [exact Hfl| |].
  { intros w Hl' Hw. assert (w = w0) as -> by congruence.
    destruct (wrapper_stop_end_spec _ _ Hw Hset) as [Hz Hend].
    eapply wp_mono; [exact Hend|]. intros [[] w'] Hw'. exists WrapperIdle. by rewrite Hz. }
  intros [] ph ws' -> Hfl'. pose proof (zlength_nonneg (rest_of caller)). dc_steps.
  eapply wp_mono; [apply ff_pool_release_entry_spec|]. intros [[] k'] [Hk' Hb']. dc_steps.
  eapply fleet_perm in Hfl'; [|by apply (released_phases _ _ ((map_to_list (dict_map d)).*2) _ (pool_free k'))].
  destruct caller as [| |rest at_end]; cbn [rest_of main_counted main_phases fmap list_fmap dc_main_ok] in *;
    rewrite ?zlength_cons, ?zlength_fmap in *; change (zlength []) with 0 in *.
  - destruct Hmain as (He & [c ->]). dc_steps. split; [|done].
    split; dc_simpl; try done; cbn [main_counted main_phases]; change (zlength []) with 0; lia.
  - destruct Hmain as (He & [c ->]). change (zlength (@nil (nat * wrapper_phase))) with 0 in *.
    dc_steps. split; [|done].
    split; dc_simpl; try done; cbn [main_counted main_phases]; change (zlength []) with 0; lia.
  - destruct Hmain as (Hd & He & [c ->]). rewrite Hd in *. rewrite map_size_empty in *. dc_steps.
    replace (n - 1) with (zlength rest) by lia.
    eapply wp_mono; [apply remove_entries_inv; try done; lia|].
    intros [[] sys'] (Hinv & Hst' & Hw). by rewrite Hw.
Qed.

Lemma dc_main_inv limit sys : dc_inv limit sys → dc_enabled (DcMainStep : dc_op Op CT) sys →
  wp (distributed_client_main_func sys) (λ '(_, sys'), dc_inv limit sys' ∧ ds_stopping sys' = ds_stopping sys ∧
    (ds_stopping sys = true → Datatypes.S (stop_work_left sys') = stop_work_left sys)).
Proof.
  intros Hinv Hen. cbn [dc_enabled] in Hen. destruct (ds_main sys) as [| | |ptr caller|ptr caller] eqn:Hmp; [done|..].
  - destruct sys as [[d ch k e ct max cnt] ws mp st n l h]. destruct Hinv as [Hring Hfl Hcnt Hmax Hbusy Hconn Hmain Hst Hl Hhs].
    dc_simpl. subst mp. destruct Hmain as (Hd & He & [c ->]). unfold distributed_client_main_func. dc_steps.
    split; [|done]. by split; dc_simpl.
  - destruct sys as [[d ch k e ct max cnt] ws mp st n l h]. dc_simpl. subst mp.
    pose proof (di_main _ _ Hinv) as Hmain. dc_simpl. destruct Hmain as (He & [c ->]).
    unfold distributed_client_main_func. dc_steps.
    eapply wp_mono; [apply vtable_get_next_message_spec|]. intros [message c'] (Hopen & Hmsg & Hkey). dc_simpl.
    pose proof (di_stops _ _ Hinv) as Hcl. dc_simpl. cbn [controller_closed] in Hcl.
    assert (dc_inv limit (DcSystem (DistributedClient d ch k e (Some c') max cnt) ws DcMessage st n l h)) as Hinv'.
    { destruct Hinv as [Hring Hfl Hcnt Hmax Hbusy Hconn Hmain Hst Hl Hhs]. dc_simpl. split; dc_simpl; try done.
      intros Hs. cbn. rewrite Hopen. by apply Hst. }
    destruct message as [conn key|key| |]; dc_steps.
    4: { eapply wp_mono; [by apply (remove_all_inv limit true _ Hinv')|].
      intros [[] sys'] (? & ? & Hw). split_and!; [done..|]. intros _. by apply Hw. }
    all: assert (st = true → False) as Hno by (intros Hs; rewrite Hmsg in Hcl by done; by specialize (Hcl Hs)).
    + eapply wp_mono; [by apply add_client_inv|]. intros [[] sys'] [??]. by split_and!.
    + eapply wp_mono; [by apply (remove_client_inv limit key _ Hinv')|]. intros [[] sys'] [??]. by split_and!.
    + eapply wp_mono; [by apply (remove_all_inv limit false _ Hinv')|]. intros [[] sys'] (?&?&_). by split_and!.
  - eapply wp_mono; [by eapply stop_client_inv|]. by intros [[] sys'] (? & ? & ?).
  - eapply wp_mono; [by eapply stop_users_inv|]. by intros [[] sys'] (? & ? & ?).
Qed.
(** ** The calls of the users *)

#[local] Abbreviation OP := (dc_op Op CT).
#[local] Abbreviation tries_ok := (λ c : Z * Z, 1 <= c.1 < ACQUIRE_CLIENT_MAX_TRIES_CNT).

Lemma registered_phase m key ptr mp free : m !! key = Some ptr → (ptr, WrapperRuns) ∈ all_phases m mp free.
Proof. intros Hm. rewrite phases_delete by done. by left. Qed.

(** A call on a wrapper which keeps its phase, and changes who holds it. *)
Lemma wrapper_kept {T} (m : M CW T) ptr ph ps c ws mp st n l h h' (Q : T * SYS → Prop) :
  fleet ps h ws → (ptr, ph) ∈ ps → (∀ q, q ≠ ptr → users h' q = users h q) →
  Forall (λ q, (q < length ws)%nat) h' →
  (∀ w, ws !! ptr = Some w → wrapper_inv ph (users h ptr) w →
    wp (m w) (λ '(_, w'), wrapper_inv ph (users h' ptr) w')) →
  (∀ t ws', fleet ps h' ws' → Q (t, DcSystem c ws' mp st n l h)) →
  wp (on_wrapper ptr m (DcSystem c ws mp st n l h)) Q.
Proof.
  intros Hfl Hin Hu Hh Hm HQ. pose proof Hin as Hin'. apply elem_of_Permutation in Hin' as [ps' Hp].
  destruct (fl_wrapper _ _ _ Hfl ptr ph Hin) as (w & Hl & Hw).
  unfold on_wrapper. rewrite Hl. specialize (Hm w Hl Hw). destruct (m w) as [[t w']|]; [|done].
  apply HQ. apply (fleet_perm ((ptr, ph) :: ps')); [by symmetry|].
  eapply fleet_update; [by apply (fleet_perm ps)|done..].
Qed.

Lemma acquire_try_inv limit tries hash d ch k e ct max cnt ws mp st n l h :
  dc_inv limit (DcSystem (DistributedClient d ch k e ct max cnt) ws mp st n l h) →
  1 <= tries <= ACQUIRE_CLIENT_MAX_TRIES_CNT → zlength h < MAX_REFS →
  wp (acquire_client_try tries hash (DcSystem (DistributedClient d ch k e ct max cnt) ws mp st n l h))
    (λ '(r, sys'), match r with
    | inl (Some ptr) => ∃ ws', sys' = DcSystem (DistributedClient d ch k e ct max cnt) ws' mp st n l h ∧
        nearest_client (dict_map d) (ff_hash_uint32 0 [hash]) ptr ∧
        ∀ l', Forall tries_ok l' →
          dc_inv limit (DcSystem (DistributedClient d ch k e ct max cnt) ws' mp st n l' (ptr :: h))
    | inl None => dict_map d = ∅ ∧ tries = 1 ∧
        sys' = DcSystem (DistributedClient d ch k e ct max cnt) ws mp st n l h
    | inr rest => dict_map d = ∅ ∧ rest = tries - 1 ∧ 1 <= rest ∧
        sys' = DcSystem (DistributedClient d ch k e ct max cnt) ws mp st n l h
    end).
Proof.
  intros [Hring Hfl Hcnt Hmax Hbusy Hconn Hmain Hst Hl Hhs] Htries Hh. dc_simpl.
  unfold acquire_client_try. dc_steps. rewrite (map_ring_is_empty _ _ Hring).
  destruct (decide (dict_map d = ∅)) as [Hd|Hd].
  - rewrite bool_decide_eq_true_2 by done. dc_steps. case_bool_decide as Ht; split_and!; try done; lia.
  - rewrite bool_decide_eq_false_2 by done.
    dc_steps. eapply wp_mono; [by apply (map_ring_get hash _ _ Hring)|]. intros ptr Hnear.
    pose proof Hnear as (key & pt & Hkey & _). dc_steps.
    pose proof (registered_phase _ _ _ mp (pool_free k) Hkey) as Hph.
    pose proof (fleet_valid _ _ _ _ _ Hfl Hph) as Hlt.
    assert (Forall (λ q, (q < length ws)%nat) (ptr :: h)) as Hvalid by (constructor; [done|apply Hfl]).
    eapply (wrapper_kept _ _ _ _ _ _ _ _ _ _ _ (ptr :: h)); [exact Hfl|exact Hph| |exact Hvalid| |].
    + intros q Hq. rewrite users_cons, decide_False by done. lia.
    + intros w _ Hw. pose proof (users_le h ptr). eapply wp_mono; [apply wrapper_acquire_spec; [done|lia]|].
      intros [[] w'] Hw'. by rewrite users_cons, decide_True.
    + intros [] ws' Hfl'. dc_steps. exists ws'. split; [done|]. split; [done|].
      intros l' Hl'. split; dc_simpl; try done. rewrite zlength_cons. lia.
Qed.

Lemma dc_start_inv limit ct sys : dc_inv limit sys → has_controller sys = false →
  wp (mrpc_distributed_client_start ct sys) (λ '(_, sys'), dc_inv limit sys').
Proof.
  destruct sys as [[d ch k e ct0 max cnt] ws mp st n l h].
  intros [Hring Hfl Hcnt Hmax Hbusy Hconn Hmain Hst Hl Hhs] Hct. dc_simpl.
  destruct ct0 as [ct0|]; [done|]. assert (st = false) as -> by (destruct st; [by destruct Hst|done]).
  assert (∀ P : Prop, is_Some (@None CT) → P) as Hno by (intros P [x [=]]).
  assert (mp = DcIdle) as ->.
  { destruct mp as [| | |ptr [| |rest b]|ptr [| |rest b]]; cbn in Hmain; destruct_and?; try done; by eapply Hno. }
  destruct Hmain as (Hd & He). rewrite Hd in *. cbn [main_counted main_phases] in *.
  change (zlength (@nil (nat * wrapper_phase))) with 0 in *. rewrite map_size_empty in *.
  unfold mrpc_distributed_client_start. dc_steps. eapply wp_mono; [apply vtable_initialize_spec|].
  intros [[] ct'] _. dc_steps. split; dc_simpl; rewrite ?Hd, ?map_size_empty; try done.
  cbn. destruct (event_is_set e); [by eapply Hno|]. by split_and!.
Qed.

Lemma dc_stop_inv limit sys : dc_inv limit sys → has_controller sys = true →
  wp (mrpc_distributed_client_stop sys) (λ '(_, sys'), dc_inv limit sys' ∧ ds_stopping sys' = true).
Proof.
  destruct sys as [[d ch k e ct max cnt] ws mp st n l h].
  intros [Hring Hfl Hcnt Hmax Hbusy Hconn Hmain Hst Hl Hhs] Hct. dc_simpl. destruct ct as [ct|]; [|done].
  unfold mrpc_distributed_client_stop. dc_steps. eapply wp_mono; [apply vtable_shutdown_spec|].
  intros [[] ct'] Hcl. dc_steps. split; [|done]. split; dc_simpl; try done.
  destruct mp as [| | |ptr [| |rest b]|ptr [| |rest b]]; cbn in *; destruct_and?; split_and?; try done.
  by destruct (event_is_set e).
Qed.

Lemma dc_stop_end_inv limit sys : dc_inv limit sys → ds_stopping sys = true →
  event_is_set (dc_stop_event (ds_client sys)) = true →
  wp (mrpc_distributed_client_stop_end sys) (λ '(_, sys'), dc_inv limit sys' ∧
    ds_main sys = DcIdle ∧ has_controller sys' = false ∧ ds_stopping sys' = false).
Proof.
  destruct sys as [[d ch k e ct max cnt] ws mp st n l h].
  intros [Hring Hfl Hcnt Hmax Hbusy Hconn Hmain Hst Hl Hhs] Hs Hset. dc_simpl. rewrite Hset in Hmain.
  assert (mp = DcIdle) as ->.
  { destruct mp as [| | |ptr [| |rest b]|ptr [| |rest b]]; cbn in Hmain; destruct_and?; done. }
  destruct Hmain as (Hd & Hc). rewrite Hd in *. cbn [main_counted main_phases] in *.
  change (zlength (@nil (nat * wrapper_phase))) with 0 in *. rewrite map_size_empty in *.
  unfold mrpc_distributed_client_stop_end. dc_steps. eapply wp_mono; [by apply ff_event_wait_spec|].
  intros [[] e'] He'. dc_steps. split; [|done]. split; dc_simpl; rewrite ?Hd, ?map_size_empty; try done.
  cbn. by rewrite He'.
Qed.
Lemma dc_acquire_inv limit hash sys : dc_inv limit sys → dc_enabled (DcAcquire hash : OP) sys →
  wp (dc_step (DcAcquire hash : OP) sys) (λ '(_, sys'), dc_inv limit sys').
Proof.
  destruct sys as [[d ch k e ct max cnt] ws mp st n l h]. intros Hinv [Hc Hh]. dc_simpl.
  cbn [dc_step]. unfold mrpc_distributed_client_acquire_client. dc_steps.
  eapply wp_mono; [by apply (acquire_try_inv limit)|]. intros [[[ptr|]|rest] sys'] Hr; dc_simpl.
  - destruct Hr as (ws' & -> & _ & Hr). unfold acquired. dc_steps. apply Hr, (di_callers _ _ Hinv).
  - destruct Hr as (_ & _ & ->). unfold acquired. by dc_steps.
  - destruct Hr as (_ & -> & Hpos & ->). unfold acquired. dc_steps.
    destruct Hinv as [Hring Hfl Hcnt Hmax Hbusy Hconn Hmain Hst Hl Hhs]. dc_simpl. split; dc_simpl; try done.
    apply Forall_app. split; [done|]. by repeat constructor.
Qed.

Lemma dc_wakes_inv limit caller sys : dc_inv limit sys → dc_enabled (DcCallerWakes caller : OP) sys →
  wp (dc_step (DcCallerWakes caller : OP) sys) (λ '(_, sys'), dc_inv limit sys').
Proof.
  destruct sys as [[d ch k e ct max cnt] ws mp st n l h]. intros Hinv [Hc Hh]. dc_simpl.
  cbn [dc_step]. dc_steps. apply lookup_lt_is_Some_2 in Hc as [[tries hash] Ht]. rewrite Ht.
  pose proof (di_callers _ _ Hinv) as Hl. dc_simpl. pose proof Hl as Hall. rewrite Forall_lookup in Hall.
  pose proof (Hall _ _ Ht) as Htries. cbn in Htries. dc_steps.
  assert (Forall tries_ok (delete caller l)) as Hdel.
  { rewrite delete_take_drop. apply Forall_app. split; [by apply Forall_take|by apply Forall_drop]. }
  eapply wp_mono; [apply (acquire_try_inv limit); [done|lia|done]|].
  intros [[[ptr|]|rest] sys'] Hr; dc_simpl; unfold acquired.
  - destruct Hr as (ws' & -> & _ & Hr). dc_steps. by apply Hr.
  - destruct Hr as (_ & _ & ->). dc_steps.
    destruct Hinv as [Hring Hfl Hcnt Hmax Hbusy Hconn Hmain Hst _ Hhs]. dc_simpl. by split; dc_simpl.
  - destruct Hr as (_ & -> & Hpos & ->). dc_steps.
    destruct Hinv as [Hring Hfl Hcnt Hmax Hbusy Hconn Hmain Hst _ Hhs]. dc_simpl. split; dc_simpl; try done.
    apply Forall_insert; [done|]. cbn. lia.
Qed.

Lemma dc_release_inv limit holder sys : dc_inv limit sys → dc_enabled (DcRelease holder : OP) sys →
  wp (dc_step (DcRelease holder : OP) sys) (λ '(_, sys'), dc_inv limit sys').
Proof.
  destruct sys as [[d ch k e ct max cnt] ws mp st n l h].
  intros [Hring Hfl Hcnt Hmax Hbusy Hconn Hmain Hst Hl Hhs] Hlt. dc_simpl.
  cbn [dc_step dc_enabled] in *. dc_simpl. dc_steps. apply lookup_lt_is_Some_2 in Hlt as [ptr Hp]. rewrite Hp.
  unfold mrpc_distributed_client_release_client. rewrite bool_decide_eq_true_2 by done. dc_steps.
  assert ((ptr < length ws)%nat) as Hvalid by (by eapply Forall_lookup_1 in Hp; [|apply Hfl]).
  destruct (fleet_phase _ _ _ _ Hfl Hvalid) as [ph Hph].
  eapply (wrapper_kept _ _ _ _ _ _ _ _ _ _ _ (delete holder h)); [exact Hfl|exact Hph|..].
  - intros q Hq. rewrite (users_delete _ _ _ _ Hp), decide_False by done. lia.
  - rewrite delete_take_drop. apply Forall_app. split; [apply Forall_take|apply Forall_drop]; apply Hfl.
  - intros w _ Hw. pose proof (users_le h ptr). pose proof (users_nonneg (delete holder h) ptr) as Hnn.
    rewrite (users_delete _ _ _ _ Hp), decide_True in Hnn |- * by done.
    eapply wp_mono; [apply wrapper_release_spec; [done|lia|lia]|]. by intros [[] w'].
  - intros [] ws' Hfl'. dc_steps. split; dc_simpl; try done.
    pose proof (length_delete h holder ltac:(by eexists)). unfold zlength in *. lia.
Qed.

Lemma dc_client_inv limit ptr op sys : dc_inv limit sys → dc_enabled (DcClientStep ptr op : OP) sys →
  wp (dc_step (DcClientStep ptr op : OP) sys) (λ '(_, sys'), dc_inv limit sys').
Proof.
  destruct sys as [[d ch k e ct max cnt] ws mp st n l h].
  intros [Hring Hfl Hcnt Hmax Hbusy Hconn Hmain Hst Hl Hhs] (w0 & Hw0 & Hen). dc_simpl. cbn [dc_step].
  destruct (fleet_phase _ _ _ ptr Hfl) as [ph Hph]; [by eapply lookup_lt_Some|].
  eapply (wrapper_kept _ _ _ _ _ _ _ _ _ _ _ h); [exact Hfl|exact Hph|done|apply Hfl|..].
  - intros w Hl' Hw. assert (w = w0) as -> by congruence.
    eapply wp_mono; [by apply wrapper_own_step_spec|]. by intros [[] w'].
  - intros [] ws' Hfl'. by split; dc_simpl.
Qed.

Lemma dc_create_inv order : 0 <= order <= 13 →
  wp (mrpc_distributed_client_create order : outcome SYS) (dc_inv (Z.shiftl 1 (1 + order))).
Proof.
  intros Ho. unfold mrpc_distributed_client_create, CONSISTENT_HASH_UNIFORM_FACTOR_ORDER. wp_steps.
  change CONSISTENT_HASH_UNIFORM_FACTOR with 128.
  eapply wp_mono; [apply ch_create_spec; lia|]. intros ch (Hinv & Hring & Hord & Hfac). wp_steps.
  assert (dict_map (ff_dictionary_create (D := D) order get_client_wrapper_key_hash
    is_client_wrapper_equal_keys) = ∅) as Hd by by apply ff_dictionary_create_spec.
  destruct (ff_pool_create_spec (K := K) (A := nat) (Z.shiftl 1 (1 + order))) as [Hfree Hbusy].
  assert (Z.shiftl 1 (1 + order) <= 2 ^ 15) as Hmax.
  { rewrite Z.shiftl_mul_pow2, Z.mul_1_l by lia. apply Z.pow_le_mono_r; lia. }
  split; dc_simpl; rewrite ?Hd, ?Hfree, ?map_size_empty; try done.
  - assert (∀ k : Z, k ∈ dom (∅ : gmap Z nat) → keys k) as Hkeys.
    { intros k. rewrite dom_empty_L. by intros ?%not_elem_of_empty. }
    split; [done|done|lia| |done]. unfold ring_entries. by rewrite Hring, map_to_list_empty.
  - rewrite phases_empty. split; [done| |constructor]. by intros ptr ph ?%elem_of_nil.
  - split_and!; try done. rewrite Z.shiftl_mul_pow2, Z.mul_1_l by lia. apply Z.pow_nonneg. lia.
  - cbn. by rewrite ff_event_create_spec.
Qed.

(** A distributed client which is not started has no clients. *)
Lemma dc_stopped limit sys : dc_inv limit sys → has_controller sys = false →
  ds_main sys = DcIdle ∧ dict_map (dc_clients_map (ds_client sys)) = ∅ ∧ ds_stopping sys = false.
Proof.
  destruct sys as [[d ch k e ct max cnt] ws mp st n l h].
  intros [_ _ _ _ _ _ Hmain Hst _ _] Hct. dc_simpl. destruct ct as [ct|]; [done|].
  assert (st = false) as -> by (destruct st; [by destruct Hst|done]).
  assert (∀ P : Prop, is_Some (@None CT) → P) as Hno by (intros P [x [=]]).
  destruct mp as [| | |ptr [| |rest b]|ptr [| |rest b]]; cbn in Hmain; destruct_and?; try done; by eapply Hno.
Qed.

Lemma delete_wrappers l ws : NoDup l →
  (∀ ptr, ptr ∈ l → ∃ w, ws !! ptr = Some w ∧ wrapper_inv WrapperIdle 0 w) →
  wp (delete_entries delete_client_wrapper l ws) (λ _, True).
Proof.
  revert ws. induction l as [|ptr l IH]; intros ws Hnd Hall; cbn [delete_entries]; [done|].
  apply NoDup_cons in Hnd as [Hnotin Hnd]. destruct (Hall ptr) as (w & Hl & Hw); [by left|].
  wp_step. unfold delete_client_wrapper at 1. rewrite Hl.
  pose proof (wrapper_delete_spec w Hw) as Hdel.
  destruct (mrpc_distributed_client_wrapper_delete w) as [[[] w']|]; [|done]. cbn [wp fst snd].
  apply IH; [done|]. intros q Hq. destruct (Hall q) as (wq & Hlq & Hwq); [by right|].
  exists wq. rewrite list_lookup_insert_ne by (intros ->; done). done.
Qed.

Lemma dc_delete_inv limit sys : dc_inv limit sys → has_controller sys = false →
  wp (mrpc_distributed_client_delete sys) (λ _, True).
Proof.
  intros Hinv Hct. destruct (dc_stopped _ _ Hinv Hct) as (Hmp & Hd & _).
  destruct sys as [[d ch k e ct max cnt] ws mp st n l h].
  destruct Hinv as [Hring Hfl Hcnt Hmax Hbusy Hconn Hmain Hst Hl Hhs]. dc_simpl. subst mp.
  rewrite Hd, ?map_size_empty in *. rewrite phases_empty in Hfl. cbn [main_phases main_counted app] in *.
  change (zlength (@nil (nat * wrapper_phase))) with 0 in *.
  unfold mrpc_distributed_client_delete. dc_steps.
  eapply wp_mono.
  { apply (ff_pool_delete_spec delete_client_wrapper k ws (λ _, True)); [lia|]. intros fl Hp.
    eapply wp_mono; [apply delete_wrappers|by intros [[] ?]].
    - rewrite Hp. pose proof (fleet_nodup _ _ _ Hfl) as Hnd. rewrite <- list_fmap_compose in Hnd.
      unfold compose in Hnd. cbn in Hnd. by rewrite list_fmap_id in Hnd.
    - intros ptr Hin. rewrite Hp in Hin.
      assert ((ptr, WrapperIdle) ∈ (., WrapperIdle) <$> pool_free k) as Hph by (apply list_elem_of_fmap; by exists ptr).
      destruct (fl_wrapper _ _ _ Hfl _ _ Hph) as (w & Hw & Hi). exists w. split; [done|].
      by rewrite (idle_no_users _ _ _ _ Hfl Hph) in Hi. }
  intros [[] [k' ws']] _. dc_steps. unfold mrpc_consistent_hash_delete.
  pose proof (ro_ring _ _ Hring) as Hr. unfold ring_entries in Hr. rewrite map_to_list_empty in Hr.
  apply Permutation_nil_r in Hr. rewrite (ch_count _ (ro_inv _ _ Hring)), Hr.
  change (zlength []) with 0. by rewrite bool_decide_eq_true_2.
Qed.

(** ** Runs *)

Lemma dc_step_inv limit op sys : dc_inv limit sys → dc_enabled (op : OP) sys →
  wp (dc_step op sys) (λ '(_, sys'), dc_inv limit sys').
Proof.
  intros Hinv Hen. destruct op as [ct| | |hash|caller|holder| |ptr op].
  - by apply dc_start_inv.
  - destruct Hen. eapply wp_mono; [by apply dc_stop_inv|]. by intros [[] sys'] [? _].
  - destruct Hen. eapply wp_mono; [by apply dc_stop_end_inv|]. by intros [[] sys'] [? _].
  - by apply dc_acquire_inv.
  - by apply dc_wakes_inv.
  - by apply dc_release_inv.
  - eapply wp_mono; [by apply dc_main_inv|]. by intros [[] sys'] [? _].
  - by apply dc_client_inv.
Qed.

Lemma dc_run_inv limit ops sys sys' : dc_run (ops : list OP) sys sys' → dc_inv limit sys → dc_inv limit sys'.
Proof.
  induction 1 as [|op ops sys sys1 sys2 Hen Hstep _ IH]; [done|]. intros Hinv. apply IH.
  pose proof (dc_step_inv limit op sys Hinv Hen) as Hs. by rewrite Hstep in Hs.
Qed.

Lemma dc_reachable_inv order sys : 0 <= order <= 13 → dc_reachable (Op := Op) order sys →
  dc_inv (Z.shiftl 1 (1 + order)) sys.
Proof.
  intros Ho (sys0 & ops & Hcreate & Hrun). eapply dc_run_inv; [done|].
  pose proof (dc_create_inv order Ho) as Hc. by rewrite Hcreate in Hc.
Qed.

(** ** What the others leave alone *)

#[local] Abbreviation fiber_state := (λ sys,
  (ds_main sys, dict_map (dc_clients_map (ds_client sys)), ds_stopping sys)).

Lemma keeps_on_wrapper {T} ptr (m : M CW T) : preserves fiber_state (on_wrapper ptr m : M SYS T).
Proof.
  intros [c ws mp st n l h] t sys'. unfold on_wrapper. destruct (ws !! ptr) as [w|]; [|done].
  destruct (m w) as [[t' w']|]; [by intros [= _ <-]|done].
Qed.
Lemma keeps_ds_field {T} (f : SYS → T) : preserves fiber_state (ds_field f).
Proof. by intros sys t sys' [= _ <-]. Qed.
Lemma keeps_dc_field {T} (f : DC → T) : preserves fiber_state (dc_field f : M SYS T).
Proof. by intros sys t sys' [= _ <-]. Qed.
Lemma keeps_dc_callers l : preserves fiber_state (set_dc_callers l : M SYS unit).
Proof. by intros [c ws mp st n l' h] t sys' [= _ <-]. Qed.
Lemma keeps_holders h : preserves fiber_state (set_holders h : M SYS unit).
Proof. by intros [c ws mp st n l h'] t sys' [= _ <-]. Qed.
#[local] Hint Resolve keeps_on_wrapper keeps_ds_field keeps_dc_field keeps_dc_callers keeps_holders : preserves.

Definition is_fiber_step (op : OP) : bool := match op with DcMainStep => true | _ => false end.
Definition is_owner_call (op : OP) : bool :=
  match op with DcStartCall _ | DcStop | DcStopEnd => true | _ => false end.

Lemma others_keep (op : OP) : is_fiber_step op = false → is_owner_call op = false →
  preserves fiber_state (dc_step op : M SYS unit).
Proof.
  intros Hf Ho. destruct op; try done; cbn [dc_step]; unfold mrpc_distributed_client_acquire_client,
    assert_controller, acquire_client_try, acquired, mrpc_distributed_client_release_client; preserve.
Qed.

(** A step while [mrpc_distributed_client_stop] waits. *)
Lemma stopping_step limit (op : OP) sys : dc_inv limit sys → ds_stopping sys = true → dc_enabled op sys →
  op ≠ DcStopEnd → wp (dc_step op sys) (λ '(_, sys'), dc_inv limit sys' ∧ ds_stopping sys' = true ∧
    (stop_work_left sys = stop_work_left sys' + (if is_fiber_step op then 1 else 0))%nat).
Proof.
  intros Hinv Hst Hen Hne. pose proof (dc_step_inv limit op sys Hinv Hen) as Hstep.
  destruct (is_fiber_step op) eqn:Hf.
  - destruct op; try done. eapply wp_mono; [by apply (dc_main_inv limit)|].
    intros [[] sys'] (Hinv' & Hst' & Hw). specialize (Hw Hst). split_and!; [done|congruence|lia].
  - destruct (is_owner_call op) eqn:Ho.
    + exfalso. pose proof (di_stops _ _ Hinv Hst) as Hcl. destruct op; try done; cbn [dc_enabled] in Hen.
      * unfold has_controller in Hen. by destruct (dc_controller (ds_client sys)).
      * destruct Hen. congruence.
    + pose proof (preserves_wp _ _ _ _ (others_keep op Hf Ho) Hstep) as Hkeep.
      eapply wp_mono; [exact Hkeep|]. intros [[] sys'] [Hinv' [= Hm Hd Hst']].
      split_and!; [done|congruence|]. unfold stop_work_left. cbn [snd] in *. rewrite Hm, Hd. lia.
Qed.

Lemma no_users hs ptr : ptr ∉ hs → users hs ptr = 0.
Proof.
  intros Hnot. induction hs as [|p hs IH]; [done|]. apply not_elem_of_cons in Hnot as [Hne Hnot].
  rewrite users_cons, IH, decide_False by done. done.
Qed.

Lemma used hs ptr : ptr ∈ hs → 0 < users hs ptr.
Proof.
  intros [i Hi]%list_elem_of_lookup_1. pose proof (users_delete _ _ _ ptr Hi) as Hu.
  rewrite decide_True in Hu by done. pose proof (users_nonneg (delete i hs) ptr). lia.
Qed.

Lemma phase_unique ps hs ws ptr ph ph' : fleet ps hs ws → (ptr, ph) ∈ ps → (ptr, ph') ∈ ps → ph = ph'.
Proof.
  intros Hfl H1' H2'. pose proof (fleet_nodup _ _ _ Hfl) as Hnd.
  apply elem_of_Permutation in H1' as [ps' Hp]. rewrite Hp in Hnd, H2'. cbn in Hnd.
  apply NoDup_cons in Hnd as [Hnot _]. apply elem_of_cons in H2' as [[= <-]|Hin]; [done|].
  exfalso. apply Hnot, list_elem_of_fmap. by exists (ptr, ph').
Qed.

(** The wrapper which the fiber stops. *)
Lemma stopped_wrapper limit ptr ph sys : dc_inv limit sys →
  head (main_phases (ds_main sys)) = Some (ptr, ph) →
  ∃ w, ds_wrappers sys !! ptr = Some w ∧ wrapper_inv ph (users (ds_holders sys) ptr) w.
Proof.
  intros Hinv Hhead. apply (fl_wrapper _ _ _ (di_fleet _ _ Hinv)). apply elem_of_app. left.
  destruct (main_phases (ds_main sys)) as [|x l]; [done|]. cbn in Hhead. injection Hhead as ->. by left.
Qed.

(** One key has one client. *)
Lemma registered_once limit key key' ptr sys : dc_inv limit sys →
  dict_map (dc_clients_map (ds_client sys)) !! key = Some ptr →
  dict_map (dc_clients_map (ds_client sys)) !! key' = Some ptr → key' = key.
Proof.
  intros Hinv H1' H2'. destruct (decide (key' = key)) as [|Hne]; [done|]. exfalso.
  pose proof (fleet_nodup _ _ _ (di_fleet _ _ Hinv)) as Hnd.
  rewrite (phases_delete _ key ptr) in Hnd by done.
  rewrite (phases_delete _ key' ptr) in Hnd by (by rewrite lookup_delete_ne).
  cbn in Hnd. apply NoDup_cons in Hnd as [Hnot _]. apply Hnot. by left.
Qed.

(** ** Properties *)





Lemma run_stopping limit ops sys sys' : dc_run (ops : list OP) sys sys' → dc_inv limit sys →
  ds_stopping sys = true → Forall (λ op, op ≠ DcStopEnd) ops →
  dc_inv limit sys' ∧ ds_stopping sys' = true ∧
  stop_work_left sys = (length (filter is_fiber_step ops) + stop_work_left sys')%nat.
Proof.
  induction 1 as [|op ops sys sys1 sys2 Hen Hstep _ IH]; [done|].
  intros Hinv Hst [Hop Hops]%Forall_cons.
  pose proof (stopping_step limit op sys Hinv Hst Hen Hop) as Hs. rewrite Hstep in Hs.
  destruct Hs as (Hinv1 & Hst1 & Hw). destruct (IH Hinv1 Hst1 Hops) as (Hinv2 & Hst2 & Hw2).
  split_and!; [done|done|]. rewrite filter_cons. destruct (is_fiber_step op); cbn [Is_true];
    [rewrite decide_True by done|rewrite decide_False by naive_solver]; cbn [length]; lia.
Qed.

End invariant.

(** ** A distributed client of two servers *)

#[local] Existing Instance mix_hash.
#[local] Existing Instance mix_hash_spec.

(** A controller which reports what happens to two servers with the keys 1 and 2;
    [false] is a controller which has been shut down. *)
Inductive server_event (CN : Type) :=
  | ServerUp (first : bool) (stream_connector : CN)
  | ServerDown (first : bool)
  | AllDown.
Arguments ServerUp {CN}.
Arguments ServerDown {CN}.
Arguments AllDown {CN}.

Definition server_key (first : bool) : Z := if first then 1 else 2.
Definition server_keys (key : Z) : Prop := key = 1 ∨ key = 2.

Definition event_message {CN} (event : server_event CN) : controller_message CN :=
  match event with
  | ServerUp first stream_connector => MRPC_DISTRIBUTED_CLIENT_ADD_CLIENT stream_connector (server_key first)
  | ServerDown first => MRPC_DISTRIBUTED_CLIENT_REMOVE_CLIENT (server_key first)
  | AllDown => MRPC_DISTRIBUTED_CLIENT_REMOVE_ALL_CLIENTS
  end.

#[export] Instance list_controller {CN} : ControllerVtable (list (server_event CN) * bool) CN := {
  vtable_initialize c := Ret (tt, (c.1, true));
  vtable_shutdown c := Ret (tt, (c.1, false));
  vtable_get_next_message c :=
    match c with
    | (event :: l, true) => Ret (event_message event, (l, true))
    | _ => Ret (MRPC_DISTRIBUTED_CLIENT_STOP, c)
    end;
  controller_open c := c.2
}.

#[export] Instance list_controller_spec {CN} :
  ControllerSpec (list (server_event CN) * bool) CN server_keys.
Proof.
  split; try done. intros [[|event l] [|]]; try done. cbn. split_and!; [done..|].
  by destruct event as [[|]| |]; [left|right|..].
Qed.

(** The keys are spread by [mix_hash]. *)
Lemma server_keys_apart : Forall (λ p, p ∉ points 128 0 (get_u64_hash 2)) (points 128 0 (get_u64_hash 1)).
Proof. apply (bool_decide_unpack _). by vm_compute. Qed.
Lemma server_keys_apart' : Forall (λ p, p ∉ points 128 0 (get_u64_hash 1)) (points 128 0 (get_u64_hash 2)).
Proof.
  pose proof server_keys_apart as Hap. rewrite Forall_forall in Hap.
  apply Forall_forall. intros q Hq Hin. exact (Hap q Hin Hq).
Qed.

#[export] Instance server_keys_spread : KeysSpread server_keys.
Proof.
  split.
  - intros k1 k2 [-> | ->] [-> | ->] Hne; try done; (split; [vm_compute; discriminate|]).
    + apply server_keys_apart.
    + apply server_keys_apart'.
  - intros k Hk. exists (point (get_u64_hash k) 0), (point (get_u64_hash k) 1).
    destruct Hk as [-> | ->]; (split_and!; [apply list_elem_of_fmap; eexists; split; [done|apply elem_of_seq; lia]..|]);
      by vm_compute.
Qed.

#[local] Abbreviation demo_connector := (list mem_stream * bool)%type.
#[local] Abbreviation demo_rpc_client := (client_fibers bool
  (stream_processor (list mrpc_packet) (list (option mrpc_packet)) (list mrpc_packet * Z)
     (list nat * Z) bool mem_stream mrpc_bitmap) demo_connector).
#[local] Abbreviation demo_controller := (list (server_event demo_connector) * bool)%type.
#[local] Abbreviation demo_dc := (dc_system (gmap Z nat) (list nat * Z) bool demo_controller
  (mrpc_distributed_client_wrapper demo_rpc_client bool)).
#[local] Abbreviation demo_dc_op := (dc_op (mc_op demo_connector) demo_controller).

Definition demo_dc_created : option demo_dc :=
  match mrpc_distributed_client_create 0 with Ret sys => Some sys | Fault _ => None end.

(** The steps are allowed, and do not fail. *)
Fixpoint demo_dc_run (ops : list demo_dc_op) (sys : demo_dc) : option demo_dc :=
  match ops with
  | [] => Some sys
  | op :: ops => match dc_step op sys with Ret (_, sys) => demo_dc_run ops sys | Fault _ => None end
  end.
Fixpoint demo_dc_allowed (ops : list demo_dc_op) (sys : demo_dc) : Prop :=
  match ops with
  | [] => True
  | op :: ops => dc_enabled op sys ∧
      match dc_step op sys with Ret (_, sys) => demo_dc_allowed ops sys | Fault _ => False end
  end.

Lemma demo_dc_run_ok ops sys : demo_dc_allowed ops sys →
  ∃ sys', demo_dc_run ops sys = Some sys' ∧ dc_run ops sys sys'.
Proof.
  revert sys. induction ops as [|op ops IH]; intros sys; cbn [demo_dc_allowed demo_dc_run].
  - exists sys. split; [done|constructor].
  - intros [Hen Hok]. destruct (dc_step op sys) as [[[] sys1]|] eqn:Hstep; [|done].
    destruct (IH sys1 Hok) as (sys' & Hrun & Hrel). exists sys'. split; [done|by econstructor].
Qed.

Definition demo_dc_after (ops : list demo_dc_op) : demo_dc :=
  match demo_dc_created with
  | Some sys => default sys (demo_dc_run ops sys)
  | None => DcSystem (DistributedClient ∅ (ConsistentHash [] 0 0 0) ([], 0) false None 0 0) [] DcIdle false 0 [] []
  end.

Lemma demo_dc_after_reachable ops : (∀ sys, demo_dc_created = Some sys → demo_dc_allowed ops sys) →
  dc_reachable (Op := mc_op demo_connector) 0 (demo_dc_after ops).
Proof.
  unfold demo_dc_after, dc_reachable, demo_dc_created. intros Hok.
  destruct (mrpc_distributed_client_create 0) as [sys|] eqn:Hc; [|by vm_compute in Hc].
  destruct (demo_dc_run_ok ops sys (Hok sys eq_refl)) as (sys' & Hrun & Hrel).
  exists sys, ops. by rewrite Hrun.
Qed.

Definition demo_link : demo_connector := ([MemStream [] []], false).
(** One server is up, and both are; a request has been sent to one of them; the
    distributed client is told to stop. *)
Definition demo_dc_one_ops : list demo_dc_op :=
  [DcStartCall ([ServerUp true demo_link], false); DcMainStep; DcMainStep].
Definition demo_dc_two_ops : list demo_dc_op :=
  [DcStartCall ([ServerUp true demo_link; ServerUp false demo_link], false);
   DcMainStep; DcMainStep; DcMainStep; DcAcquire 5].
Definition demo_dc_stopping_ops : list demo_dc_op := demo_dc_two_ops ++ [DcStop].

Ltac run_dc := apply demo_dc_after_reachable; intros sys Hsys; vm_compute in Hsys;
  injection Hsys as <-; vm_compute; by split_and!.

#[local] Abbreviation demo_reachable := (dc_reachable (Op := mc_op demo_connector) 0).

Lemma demo_dc_one_reachable : demo_reachable (demo_dc_after demo_dc_one_ops).
Proof. run_dc. Qed.
Lemma demo_dc_two_reachable : demo_reachable (demo_dc_after demo_dc_two_ops).
Proof. run_dc. Qed.
Lemma demo_dc_stopping_reachable : demo_reachable (demo_dc_after demo_dc_stopping_ops).
Proof. run_dc. Qed.

Lemma demo_order : 0 <= 0 <= 13.
Proof. lia. Qed.




(** The first server is up in both. *)
Lemma demo_dc_fewer : dict_map (dc_clients_map (ds_client (demo_dc_after demo_dc_one_ops))) ⊆
  dict_map (dc_clients_map (ds_client (demo_dc_after demo_dc_two_ops))).
Proof.
  assert (dict_map (dc_clients_map (ds_client (demo_dc_after demo_dc_one_ops))) =
    ({[1 := 0%nat]} : gmap Z nat)) as -> by (vm_compute; reflexivity).
  assert (dict_map (dc_clients_map (ds_client (demo_dc_after demo_dc_two_ops))) =
    (<[2 := 1%nat]> {[1 := 0%nat]} : gmap Z nat)) as -> by (vm_compute; reflexivity).
  by apply insert_subseteq.
Qed.

Definition state_after {A} (m : M demo_dc A) (sys : demo_dc) : demo_dc :=
  match m sys with Ret (_, sys') => sys' | Fault _ => sys end.
Definition demo_dc_acquired : demo_dc :=
  state_after (acquire_client_try 3 77) (demo_dc_after demo_dc_two_ops).


Definition demo_dc_stopped : demo_dc :=
  default (demo_dc_after demo_dc_two_ops) (demo_dc_run [DcMainStep] (demo_dc_after demo_dc_stopping_ops)).

Lemma demo_dc_stopped_run : dc_run [DcMainStep : demo_dc_op] (demo_dc_after demo_dc_stopping_ops) demo_dc_stopped.
Proof.
  destruct (demo_dc_run_ok [DcMainStep] (demo_dc_after demo_dc_stopping_ops)) as (sys' & Hrun & Hrel);
    [by vm_compute|]. unfold demo_dc_stopped. by rewrite Hrun.
Qed.

