(* ===== verification/CharArray.v ===== *)
(** * Char arrays (src/mrpc_char_array.c)

    Reference-counted strings of bytes, sent as their length and their
    contents. *)

From S2P Require Import Prelude FF Wire MrpcInt RefCount.

Definition MAX_CHAR_ARRAY_LENGTH : Z := Z.shiftl 1 14 - 1.

(** [struct mrpc_char_array]; [ca_value] is the buffer behind the pointer. *)
Record mrpc_char_array := CharArray {
  ca_value : list byte;
  ca_len : Z;
  ca_ref_cnt : Z
}.

Definition create_char_array (value : list byte) (len : Z) : outcome mrpc_char_array :=
  ff_assert (bool_decide (len >= 0));;
  ff_assert (bool_decide (len <= MAX_CHAR_ARRAY_LENGTH));;
  Ret (CharArray value len 1).

Definition delete_char_array : M (option mrpc_char_array) unit :=
  a ← deref;
  lift (ff_assert (bool_decide (ca_ref_cnt a = 0)));;
  ff_free.

Definition mrpc_char_array_create (value : list byte) (len : Z) : outcome mrpc_char_array :=
  ff_assert (bool_decide (len >= 0));;
  ff_assert (bool_decide (len <= MAX_CHAR_ARRAY_LENGTH));;
  create_char_array value len.

Definition mrpc_char_array_inc_ref : M (option mrpc_char_array) unit :=
  a ← deref;
  ref_cnt ← lift (checked_int (ca_ref_cnt a + 1));
  assign (CharArray (ca_value a) (ca_len a) ref_cnt);;
  lift (ff_assert (bool_decide (ref_cnt > 1))).

Definition mrpc_char_array_dec_ref : M (option mrpc_char_array) unit :=
  a ← deref;
  lift (ff_assert (bool_decide (ca_ref_cnt a > 0)));;
  let ref_cnt := ca_ref_cnt a - 1 in
  assign (CharArray (ca_value a) (ca_len a) ref_cnt);;
  if bool_decide (ref_cnt = 0) then delete_char_array else mret tt.

Definition mrpc_char_array_get_value : M (option mrpc_char_array) (list byte) :=
  a ← deref;
  lift (ff_assert (bool_decide (ca_ref_cnt a > 0)));;
  mret (ca_value a).

Definition mrpc_char_array_get_len : M (option mrpc_char_array) Z :=
  a ← deref;
  lift (ff_assert (bool_decide (ca_ref_cnt a > 0)));;
  lift (ff_assert (bool_decide (ca_len a >= 0)));;
  lift (ff_assert (bool_decide (ca_len a <= MAX_CHAR_ARRAY_LENGTH)));;
  mret (ca_len a).

Definition mrpc_char_array_get_hash `{FFHash} (start_value : Z) : M (option mrpc_char_array) Z :=
  a ← deref;
  lift (ff_assert (bool_decide (ca_ref_cnt a > 0)));;
  value ← mrpc_char_array_get_value;
  len ← mrpc_char_array_get_len;
  array ← lift (buf_read value 0 len);
  mret (ff_hash_uint8 start_value array).

Section serialization.
Context {S : Type} `{FFStream S}.

(** Works on the array and on the stream. *)
Definition mrpc_char_array_serialize : M (option mrpc_char_array * S) ff_result :=
  on_fst mrpc_char_array_inc_ref;;
  len ← on_fst mrpc_char_array_get_len;
  result ← on_snd (mrpc_uint32_serialize (u32 len));
  result ← match result with
           | FF_FAILURE => mret FF_FAILURE
           | FF_SUCCESS =>
               value ← on_fst mrpc_char_array_get_value;
               contents ← lift (buf_read value 0 len);
               on_snd (ff_stream_write contents)
           end;
  on_fst mrpc_char_array_dec_ref;;
  mret result.

(** [ff_stream_read] fills the buffer of [u_len] characters. *)
Definition mrpc_char_array_unserialize : M S (ff_result * option mrpc_char_array) :=
  r ← mrpc_uint32_unserialize;
  match r with
  | (FF_SUCCESS, Some u_len) =>
      if bool_decide (u_len > MAX_CHAR_ARRAY_LENGTH) then mret (FF_FAILURE, None)
      else
        r ← ff_stream_read u_len;
        match r with
        | (FF_SUCCESS, value) =>
            char_array ← lift (mrpc_char_array_create value u_len);
            mret (FF_SUCCESS, Some char_array)
        | (FF_FAILURE, _) => mret (FF_FAILURE, None)
        end
  | _ => mret (FF_FAILURE, None)
  end.
End serialization.

Definition mrpc_char_array_get_max_len : Z := MAX_CHAR_ARRAY_LENGTH.

(** ** Specification *)

(** A live array with contents [l] and [n] references. *)
Definition char_array_holds (l : list byte) (n : Z) (o : option mrpc_char_array) : Prop :=
  o = Some (CharArray l (zlength l) n) ∧ zlength l <= MAX_CHAR_ARRAY_LENGTH.

Definition char_array_bytes (l : list byte) : list byte := varint (zlength l) ++ l.

#[export] Instance char_array_refs : RefCounted (option mrpc_char_array) (list byte) := {
  inc_ref := mrpc_char_array_inc_ref;
  dec_ref := mrpc_char_array_dec_ref;
  holds := char_array_holds;
  freed o := o = None
}.

(** The contents as a value which can be sent: a new array is created,
    serialized and released. *)
#[export] Instance char_array_wire : Wire (list byte) := {
  wire_valid l := zlength l <= MAX_CHAR_ARRAY_LENGTH;
  wire_bytes := char_array_bytes;
  wire_serialize S _ l := λ s,
    match mrpc_char_array_create l (zlength l) with
    | Ret a => match mrpc_char_array_serialize (Some a, s) with
               | Ret (r, (_, s')) => Ret (r, s')
               | Fault f => Fault f
               end
    | Fault f => Fault f
    end;
  wire_unserialize S _ :=
    r ← mrpc_char_array_unserialize; mret (r.1, ca_value <$> r.2)
}.

Lemma max_char_array_length : MAX_CHAR_ARRAY_LENGTH = 2 ^ 14 - 1.
Proof. done. Qed.

Lemma char_array_inc_ref_spec l n o : char_array_holds l n o → 0 < n < MAX_REFS →
  wp (mrpc_char_array_inc_ref o) (λ '(_, o'), char_array_holds l (n + 1) o').
Proof.
  unfold MAX_REFS. intros [-> Hl] Hn. unfold mrpc_char_array_inc_ref.
  do 4 wp_step. cbn [ca_ref_cnt ca_value ca_len]. apply wp_checked_int; [unfold is_s32; lia|].
  repeat wp_step. by split.
Qed.

Lemma char_array_dec_ref_spec l n o : char_array_holds l n o → 0 < n →
  wp (mrpc_char_array_dec_ref o) (λ '(_, o'),
    if bool_decide (n = 1) then o' = None else char_array_holds l (n - 1) o').
Proof.
  intros [-> Hl] Hn. unfold mrpc_char_array_dec_ref. do 4 wp_step.
  cbn [ca_ref_cnt ca_value ca_len]. do 2 wp_step.
  case_bool_decide as Hz.
  - rewrite bool_decide_eq_true_2 by lia. unfold delete_char_array. by repeat wp_step.
  - rewrite bool_decide_eq_false_2 by lia. by wp_step.
Qed.

#[export] Instance char_array_refs_spec : RefCountedSpec (option mrpc_char_array) (list byte).
Proof.
  split; [apply char_array_inc_ref_spec|apply char_array_dec_ref_spec].
Qed.

Lemma char_array_get_len_spec l n o : char_array_holds l n o → 0 < n →
  wp (mrpc_char_array_get_len o) (λ '(len, o'), len = zlength l ∧ o' = o).
Proof.
  intros [-> Hl] Hn. pose proof (zlength_nonneg l). unfold mrpc_char_array_get_len.
  by repeat wp_step.
Qed.

Lemma char_array_get_value_spec l n o : char_array_holds l n o → 0 < n →
  wp (mrpc_char_array_get_value o) (λ '(value, o'), value = l ∧ o' = o).
Proof. intros [-> Hl] Hn. unfold mrpc_char_array_get_value. by repeat wp_step. Qed.

Lemma char_array_get_hash_spec `{FFHash} l n o start : char_array_holds l n o → 0 < n →
  wp (mrpc_char_array_get_hash start o) (λ '(h, o'), h = ff_hash_uint8 start l ∧ o' = o).
Proof.
  intros Ho Hn. pose proof Ho as [Heq _]. unfold mrpc_char_array_get_hash. rewrite wp_M_bind.
  rewrite Heq at 1. cbn [wp deref fst snd]. rewrite <- Heq. wp_steps.
  eapply wp_mono; [by eapply char_array_get_value_spec|]. intros [value o1] [-> ->]. cbn [fst snd].
  wp_steps. eapply wp_mono; [by eapply char_array_get_len_spec|]. intros [len o1] [-> ->].
  pose proof (zlength_nonneg l). cbn [fst snd]. wp_steps. apply wp_buf_read; [lia|lia|lia|].
  cbn. unfold zlength. by rewrite Nat2Z.id, drop_0, firstn_all.
Qed.

Lemma read_whole {A} (l : list A) (Q : list A → Prop) : Q l → wp (buf_read l 0 (zlength l)) Q.
Proof.
  intros HQ. pose proof (zlength_nonneg l). apply wp_buf_read; [lia|lia|lia|].
  unfold zlength. by rewrite Nat2Z.id, drop_0, firstn_all.
Qed.

Section serialization_specs.
Context {S : Type} `{FFStreamSpec S}.
Implicit Types (s : S) (l : list byte).

(** Serialization sends the array and gives back the reference it takes. *)
Lemma char_array_serialize_spec l n o s :
  char_array_holds l n o → 0 < n < MAX_REFS → stream_inv s → writable s →
  wp (mrpc_char_array_serialize (o, s)) (λ '(r, (o', s')),
    char_array_holds l n o' ∧ wrote (char_array_bytes l) s r s' ∧
    (ReliableStream S → r = FF_SUCCESS)).
Proof.
  intros Ho Hn Hs Hw. unfold mrpc_char_array_serialize. do 2 wp_step.
  eapply wp_mono; [by apply char_array_inc_ref_spec|]. intros [[] o1] Ho1. cbn [fst snd].
  do 2 wp_step. eapply wp_mono; [eapply char_array_get_len_spec; [done|lia]|].
  intros [len o2] [-> ->]. cbn [fst snd]. do 2 wp_step.
  pose proof (zlength_nonneg l). pose proof Ho as [_ Hl]. rewrite max_char_array_length in Hl.
  rewrite u32_id by (unfold is_u32; lia).
  eapply wp_mono; [apply uint32_sends; [unfold is_u32; lia|done|done]|].
  intros [r s1] [Hw1 Hr1]. cbn [fst snd].
  assert (∀ r s2, wrote (char_array_bytes l) s r s2 → (ReliableStream S → r = FF_SUCCESS) →
    wp ((on_fst mrpc_char_array_dec_ref;; mret r) (o1, s2)) (λ '(r, (o', s')),
      char_array_holds l n o' ∧ wrote (char_array_bytes l) s r s' ∧
      (ReliableStream S → r = FF_SUCCESS))) as Hend.
  { intros r2 s2 Hw2 Hr2. do 2 wp_step.
    eapply wp_mono; [eapply char_array_dec_ref_spec; [done|lia]|]. intros [[] o3] Ho3.
    rewrite bool_decide_eq_false_2 in Ho3 by lia. cbn [fst snd]. wp_step.
    by replace (n + 1 - 1) with n in Ho3 by lia. }
  rewrite wp_M_bind. destruct r.
  - do 2 wp_step. eapply wp_mono; [eapply char_array_get_value_spec; [done|lia]|].
    intros [value o3] [-> ->]. cbn [fst snd]. do 2 wp_step. apply read_whole. wp_step.
    destruct Hw1 as (Hs1 & Hw1' & Hi1 & Ho1').
    eapply wp_mono; [by apply write_sends|]. intros [r s2] [Hw2 Hr2]. cbn [fst snd].
    apply Hend; [|done]. by eapply wrote_app.
  - wp_step. apply Hend; [|done]. by apply wrote_fail.
Qed.

(** Any input gives a failure or a live array of permitted length. *)
Lemma char_array_unserialize_spec s : stream_inv s →
  wp (mrpc_char_array_unserialize s) (λ '(r, o, s'),
    match r with
    | FF_SUCCESS => (∃ bs, consumed bs s s') ∧ ∃ l, char_array_holds l 1 o
    | FF_FAILURE => undisturbed s s' ∧ o = None
    end).
Proof.
  intros Hs. unfold mrpc_char_array_unserialize. rewrite wp_M_bind.
  eapply wp_mono; [by apply uint32_receives|]. intros [[[|] o] s1] Hr1; cbn [fst snd].
  2:{ destruct Hr1 as [Hu ->]. by wp_step. }
  destruct Hr1 as ((bs1 & Hc1) & z & -> & Hz). unfold is_u32 in Hz.
  case_bool_decide as Hbig; [wp_step; by split; [eauto with mrpc|]|].
  rewrite wp_M_bind. eapply wp_mono; [apply ff_stream_read_spec; [eauto with mrpc|lia]|].
  intros [[[|] value] s2] Hr2; cbn [fst snd]; 
    [|destruct Hr2 as [Hu _]; wp_step; by split; [eauto with mrpc|]].
  destruct Hr2 as [Hc2 <-]. rewrite wp_M_bind, wp_lift.
  unfold mrpc_char_array_create, create_char_array. do 4 wp_step. do 2 wp_step.
  split; [eauto with mrpc|]. exists value. split; [done|]. lia.
Qed.

Lemma char_array_unserialize_bytes `{!ReliableStream S} l s rest :
  zlength l <= MAX_CHAR_ARRAY_LENGTH → stream_inv s → incoming s = char_array_bytes l ++ rest →
  wp (mrpc_char_array_unserialize s) (λ '(r, o, s'),
    r = FF_SUCCESS ∧ char_array_holds l 1 o ∧ consumed (char_array_bytes l) s s' ∧
    incoming s' = rest).
Proof.
  intros Hl Hs Hin. unfold char_array_bytes in *. rewrite <- app_assoc in Hin.
  pose proof (zlength_nonneg l). pose proof max_char_array_length.
  unfold mrpc_char_array_unserialize. rewrite wp_M_bind.
  eapply wp_mono; [apply (uint32_receives_bytes (zlength l)); [unfold is_u32; lia|done|done]|].
  intros [[r o] s1] (-> & -> & Hc1 & Hin1). cbn [fst snd]. rewrite bool_decide_eq_false_2 by lia.
  rewrite wp_M_bind. eapply wp_mono; [by apply (read_front s1 l); [eauto with mrpc|]|].
  intros [[r got] s2] (-> & -> & Hc2 & Hin2). cbn [fst snd]. rewrite wp_M_bind, wp_lift.
  unfold mrpc_char_array_create, create_char_array. do 4 wp_step. do 2 wp_step.
  split; [done|]. split; [by split|]. split; [eauto with mrpc|done].
Qed.
End serialization_specs.

#[export] Instance char_array_wire_spec : WireSpec (list byte).
Proof.
  assert (∀ S `{FFStreamSpec S} l (s : S), zlength l <= MAX_CHAR_ARRAY_LENGTH →
    stream_inv s → writable s → wp (wire_serialize l s) (λ '(r, s'),
      wrote (char_array_bytes l) s r s' ∧ (ReliableStream S → r = FF_SUCCESS))) as Hser.
  { intros S ? ? ? l s Hl Hs Hw. cbn [wire_serialize char_array_wire]. pose proof (zlength_nonneg l).
    assert (mrpc_char_array_create l (zlength l) = Ret (CharArray l (zlength l) 1)) as ->.
    { unfold mrpc_char_array_create, create_char_array. by rewrite !bool_decide_eq_true_2 by lia. }
    destruct (wp_inv _ _ (char_array_serialize_spec l 1 (Some (CharArray l (zlength l) 1)) s
      (conj eq_refl Hl) ltac:(unfold MAX_REFS; lia) Hs Hw)) as ([r [o s']] & -> & _ & Hr). exact Hr. }
  split; [intros l _ [Hl _]%app_eq_nil; by apply varint_nonempty in Hl|..]; intros S ? ? ?.
  - intros l s Hl Hs Hw. eapply wp_mono; [by apply Hser|]. by intros [r s'] [? _].
  - intros ? l s Hl Hs Hw. eapply wp_mono; [by apply Hser|]. intros [r s'] [_ Hr]. by apply Hr.
  - intros s Hs. cbn [wire_unserialize char_array_wire]. rewrite wp_M_bind.
    eapply wp_mono; [by apply char_array_unserialize_spec|].
    intros [[[|] o] s1]; cbn [fst snd wp mret M_ret].
    + intros (Hc & l & -> & Hl). split; [done|]. by exists l.
    + by intros [? ->].
  - intros ? l s rest Hl Hs Hin. cbn [wire_unserialize char_array_wire]. rewrite wp_M_bind.
    eapply wp_mono; [by apply (char_array_unserialize_bytes l s rest)|].
    by intros [[r o] s1] (-> & [-> _] & Hc & Hin').
Qed.

(** ** Properties *)

(** Char arrays survive the wire: an array on which references are held is
    sent as its length in at most two octets and its contents, serialization
    gives back the reference it takes, and the receiver obtains a new array with
    the same contents and one reference, and reads nothing else. *)
Lemma char_array_roundtrip {W R : Type} `{FFStreamSpec W} `{!ReliableStream W}
    `{FFStreamSpec R} `{!ReliableStream R} (l : list byte) (n : Z)
    (o : option mrpc_char_array) (w : W) :
  char_array_holds l n o → 0 < n < MAX_REFS → stream_inv w → writable w →
  wp (mrpc_char_array_serialize (o, w)) (λ '(res, (o', w')),
    res = FF_SUCCESS ∧ char_array_holds l n o' ∧
    ∃ sent, outgoing w' = outgoing w ++ sent ∧ zlength sent <= 2 + zlength l ∧
    ∀ (r : R) rest, stream_inv r → incoming r = sent ++ rest →
      wp (mrpc_char_array_unserialize r) (λ '(res, o, r'),
        res = FF_SUCCESS ∧ char_array_holds l 1 o ∧ incoming r' = rest)).
Proof.
  intros Ho Hn Hw Hwr. eapply wp_mono; [by apply char_array_serialize_spec|].
  intros [res [o' w']] (Ho' & (_ & _ & _ & Hout) & Hok). specialize (Hok _). subst res.
  split; [done|]. split; [done|]. exists (char_array_bytes l). split; [done|].
  destruct Ho as [_ Hl]. pose proof (zlength_nonneg l). split.
  { unfold char_array_bytes. rewrite zlength_app. rewrite max_char_array_length in Hl.
    pose proof (varint_short (zlength l)). lia. }
  intros r rest Hr Hin. eapply wp_mono; [by apply (char_array_unserialize_bytes l r rest)|].
  by intros [[? ?] ?] (? & ? & ? & ?).
Qed.

Lemma char_array_roundtrip_witness :
  wp (mrpc_char_array_serialize (Some (CharArray [x61; x62] (zlength [x61; x62]) 3), MemStream [] []))
    (λ '(res, (o', w')),
    res = FF_SUCCESS ∧ char_array_holds [x61; x62] 3 o' ∧
    ∃ sent, outgoing w' = outgoing (MemStream [] []) ++ sent ∧
      zlength sent <= 2 + zlength [x61; x62] ∧
    ∀ (r : mem_stream) rest, stream_inv r → incoming r = sent ++ rest →
      wp (mrpc_char_array_unserialize r) (λ '(res, o, r'),
        res = FF_SUCCESS ∧ char_array_holds [x61; x62] 1 o ∧ incoming r' = rest)).
Proof.
  apply (char_array_roundtrip [x61; x62] 3 _ (MemStream [] []));
    [split; [reflexivity | vm_compute; discriminate] | unfold MAX_REFS; lia | exact I | exact I].
Defined.

(** Whatever the peer sends, unserialization of a char array ends without a
    failed assertion, with a live array of at most [MAX_CHAR_ARRAY_LENGTH] bytes
    and one reference, or with a failure and no array; a length above the
    maximum is rejected before any memory is reserved or contents are read. *)
Lemma char_array_any_input {S : Type} `{FFStreamSpec S} (s : S) :
  stream_inv s →
  wp (mrpc_char_array_unserialize s) (λ '(r, o, s'),
    match r with
    | FF_SUCCESS => ∃ l bs, char_array_holds l 1 o ∧ incoming s = bs ++ incoming s'
    | FF_FAILURE => o = None ∧ outgoing s' = outgoing s
    end) ∧
  (ReliableStream S → ∀ len rest, MAX_CHAR_ARRAY_LENGTH < len → is_u32 len →
    incoming s = varint len ++ rest →
    wp (mrpc_char_array_unserialize s) (λ '(r, o, s'), r = FF_FAILURE ∧ incoming s' = rest)).
Proof.
  intros Hs. split.
  - eapply wp_mono; [by apply char_array_unserialize_spec|]. intros [[[|] o] s'].
    + intros ((bs & _ & Hin) & l & Hl). by exists l, bs.
    + by intros [(_ & _ & ?) ->].
  - intros Hrel len rest Hbig Hlen Hin. unfold mrpc_char_array_unserialize. rewrite wp_M_bind.
    eapply wp_mono; [by apply (uint32_receives_bytes len s rest)|].
    intros [[r o] s1] (-> & -> & _ & Hin1). cbn [fst snd].
    rewrite bool_decide_eq_true_2 by lia. by wp_step.
Qed.

Lemma char_array_any_input_witness :
  wp (mrpc_char_array_unserialize (MemStream [x05; x61] [])) (λ '(r, o, s'),
    match r with
    | FF_SUCCESS => ∃ l bs, char_array_holds l 1 o ∧
        incoming (MemStream [x05; x61] []) = bs ++ incoming s'
    | FF_FAILURE => o = None ∧ outgoing s' = outgoing (MemStream [x05; x61] [])
    end) ∧
  (ReliableStream mem_stream → ∀ len rest, MAX_CHAR_ARRAY_LENGTH < len → is_u32 len →
    incoming (MemStream [x05; x61] []) = varint len ++ rest →
    wp (mrpc_char_array_unserialize (MemStream [x05; x61] []))
      (λ '(r, o, s'), r = FF_FAILURE ∧ incoming s' = rest)).
Proof. apply (char_array_any_input (MemStream [x05; x61] [])). exact I. Defined.

(** A char array lives exactly as long as somebody holds a reference: in
    every history in which references are only used by their holders, no freed
    array is accessed and no assertion fails, and the array is freed precisely
    when the last reference is given up. *)
Lemma char_array_lifetime (value : list byte) (ops : list ref_op) (m : Z) :
  zlength value <= MAX_CHAR_ARRAY_LENGTH → holders 1 ops = Some m →
  wp (a ← mrpc_char_array_create value (zlength value); ref_run ops (Some a)) (λ '(_, o),
    if bool_decide (m = 0) then o = None else char_array_holds value m o).
Proof.
  intros Hl Hops. unfold mrpc_char_array_create, create_char_array.
  pose proof (zlength_nonneg value). rewrite !bool_decide_eq_true_2 by lia.
  cbn [ff_assert mbind outcome_bind].
  eapply wp_mono; [apply (ref_run_spec ops value (Some (CharArray value (zlength value) 1)) 1 m)|];
    [by split|lia|done|done].
Qed.

Lemma char_array_lifetime_witness :
  wp (a ← mrpc_char_array_create [x61] (zlength [x61]);
      ref_run [IncRef; DecRef; IncRef; DecRef; DecRef] (Some a)) (λ '(_, o),
    if bool_decide (0 = 0) then o = None else char_array_holds [x61] 0 o).
Proof.
  apply (char_array_lifetime [x61] [IncRef; DecRef; IncRef; DecRef; DecRef] 0);
    [vm_compute; discriminate | reflexivity].
Defined.
