(* ===== verification/WcharArray.v ===== *)
(** * Wide char arrays (src/mrpc_wchar_array.c)

    Reference-counted strings of [wchar_t], sent as their length and one number
    per character.  Only characters below 0x10000 travel. *)

From S2P Require Import Prelude FF Wire MrpcInt RefCount.

Definition MAX_WCHAR_ARRAY_LENGTH : Z := Z.shiftl 1 14 - 1.

(** [struct mrpc_wchar_array]; [wa_value] is the buffer
    behind the pointer, [wchar_t] a signed 32-bit integer. *)
Record mrpc_wchar_array := WcharArray {
  wa_value : list Z;
  wa_len : Z;
  wa_ref_cnt : Z
}.

Definition create_wchar_array (value : list Z) (len : Z) : outcome mrpc_wchar_array :=
  ff_assert (bool_decide (len >= 0));;
  ff_assert (bool_decide (len <= MAX_WCHAR_ARRAY_LENGTH));;
  Ret (WcharArray value len 1).

Definition delete_wchar_array : M (option mrpc_wchar_array) unit :=
  a ← deref;
  lift (ff_assert (bool_decide (wa_ref_cnt a = 0)));;
  ff_free.

Definition mrpc_wchar_array_create (value : list Z) (len : Z) : outcome mrpc_wchar_array :=
  ff_assert (bool_decide (len >= 0));;
  ff_assert (bool_decide (len <= MAX_WCHAR_ARRAY_LENGTH));;
  create_wchar_array value len.

Definition mrpc_wchar_array_inc_ref : M (option mrpc_wchar_array) unit :=
  a ← deref;
  ref_cnt ← lift (checked_int (wa_ref_cnt a + 1));
  assign (WcharArray (wa_value a) (wa_len a) ref_cnt);;
  lift (ff_assert (bool_decide (ref_cnt > 1))).

Definition mrpc_wchar_array_dec_ref : M (option mrpc_wchar_array) unit :=
  a ← deref;
  lift (ff_assert (bool_decide (wa_ref_cnt a > 0)));;
  let ref_cnt := wa_ref_cnt a - 1 in
  assign (WcharArray (wa_value a) (wa_len a) ref_cnt);;
  if bool_decide (ref_cnt = 0) then delete_wchar_array else mret tt.

Definition mrpc_wchar_array_get_value : M (option mrpc_wchar_array) (list Z) :=
  a ← deref;
  lift (ff_assert (bool_decide (wa_ref_cnt a > 0)));;
  mret (wa_value a).

Definition mrpc_wchar_array_get_len : M (option mrpc_wchar_array) Z :=
  a ← deref;
  lift (ff_assert (bool_decide (wa_ref_cnt a > 0)));;
  lift (ff_assert (bool_decide (wa_len a >= 0)));;
  lift (ff_assert (bool_decide (wa_len a <= MAX_WCHAR_ARRAY_LENGTH)));;
  mret (wa_len a).

(** The copy of the characters into an array of [uint16_t]: [n] rounds are left,
    starting with [i]. *)
Fixpoint wchars_to_uint16 (n : nat) (i : Z) (value : list Z) (buf : list Z) : outcome (list Z) :=
  match n with
  | O => Ret buf
  | S n =>
      ch ← arr_get value i;
      ff_assert (bool_decide (ch < 0x10000));;
      wchars_to_uint16 n (i + 1) value (buf ++ [ch mod 0x10000])
  end.

(** The case [sizeof(wchar_t) == 4]. *)
Definition mrpc_wchar_array_get_hash `{FFHash} (start_value : Z) : M (option mrpc_wchar_array) Z :=
  a ← deref;
  lift (ff_assert (bool_decide (wa_ref_cnt a > 0)));;
  value ← mrpc_wchar_array_get_value;
  len ← mrpc_wchar_array_get_len;
  buf ← lift (wchars_to_uint16 (Z.to_nat len) 0 value []);
  mret (ff_hash_uint16 start_value buf).

Section serialization.
Context {S : Type} `{FFStream S}.

(** [n] characters are left, starting with [i]. *)
Fixpoint serialize_wchars (n : nat) (i : Z) (value : list Z) : M S ff_result :=
  match n with
  | O => mret FF_SUCCESS
  | Datatypes.S n =>
      c ← lift (arr_get value i);
      let ch := u32 c in
      lift (ff_assert (bool_decide (ch < 0x10000)));;
      result ← mrpc_uint32_serialize ch;
      match result with
      | FF_FAILURE => mret FF_FAILURE
      | FF_SUCCESS => serialize_wchars n (i + 1) value
      end
  end.

(** Works on the array and on the stream. *)
Definition mrpc_wchar_array_serialize : M (option mrpc_wchar_array * S) ff_result :=
  on_fst mrpc_wchar_array_inc_ref;;
  len ← on_fst mrpc_wchar_array_get_len;
  result ← on_snd (mrpc_uint32_serialize (u32 len));
  result ← match result with
           | FF_FAILURE => mret FF_FAILURE
           | FF_SUCCESS =>
               value ← on_fst mrpc_wchar_array_get_value;
               on_snd (serialize_wchars (Z.to_nat len) 0 value)
           end;
  on_fst mrpc_wchar_array_dec_ref;;
  mret result.

(** [n] characters are left; [value] are the ones stored so far. *)
Fixpoint unserialize_wchars (n : nat) (value : list Z) : M S (ff_result * list Z) :=
  match n with
  | O => mret (FF_SUCCESS, value)
  | Datatypes.S n =>
      r ← mrpc_uint32_unserialize;
      match r with
      | (FF_SUCCESS, Some ch) =>
          if bool_decide (ch >= 0x10000) then mret (FF_FAILURE, value)
          else unserialize_wchars n (value ++ [ch])
      | _ => mret (FF_FAILURE, value)
      end
  end.

Definition mrpc_wchar_array_unserialize : M S (ff_result * option mrpc_wchar_array) :=
  r ← mrpc_uint32_unserialize;
  match r with
  | (FF_SUCCESS, Some u_len) =>
      if bool_decide (u_len > MAX_WCHAR_ARRAY_LENGTH) then mret (FF_FAILURE, None)
      else
        r ← unserialize_wchars (Z.to_nat u_len) [];
        match r with
        | (FF_SUCCESS, value) =>
            wchar_array ← lift (mrpc_wchar_array_create value u_len);
            mret (FF_SUCCESS, Some wchar_array)
        | (FF_FAILURE, _) => mret (FF_FAILURE, None)
        end
  | _ => mret (FF_FAILURE, None)
  end.
End serialization.

Definition mrpc_wchar_array_get_max_len : Z := MAX_WCHAR_ARRAY_LENGTH.

(** ** Specification *)

Definition wchar_ok (c : Z) : Prop := 0 <= c < 0x10000.

(** A live array with contents [l] and [n] references. *)
Definition wchar_array_holds (l : list Z) (n : Z) (o : option mrpc_wchar_array) : Prop :=
  o = Some (WcharArray l (zlength l) n) ∧ zlength l <= MAX_WCHAR_ARRAY_LENGTH.

Definition wchar_array_bytes (l : list Z) : list byte := varint (zlength l) ++ (l ≫= varint).

#[export] Instance wchar_array_refs : RefCounted (option mrpc_wchar_array) (list Z) := {
  inc_ref := mrpc_wchar_array_inc_ref;
  dec_ref := mrpc_wchar_array_dec_ref;
  holds := wchar_array_holds;
  freed o := o = None
}.

(** The characters as a value which can be sent, like those of a char array. *)
#[export] Instance wchar_array_wire : Wire (list Z) := {
  wire_valid l := zlength l <= MAX_WCHAR_ARRAY_LENGTH ∧ Forall wchar_ok l;
  wire_bytes := wchar_array_bytes;
  wire_serialize S _ l := λ s,
    match mrpc_wchar_array_create l (zlength l) with
    | Ret a => match mrpc_wchar_array_serialize (Some a, s) with
               | Ret (r, (_, s')) => Ret (r, s')
               | Fault f => Fault f
               end
    | Fault f => Fault f
    end;
  wire_unserialize S _ :=
    r ← mrpc_wchar_array_unserialize; mret (r.1, wa_value <$> r.2)
}.

Lemma max_wchar_array_length : MAX_WCHAR_ARRAY_LENGTH = 2 ^ 14 - 1.
Proof. done. Qed.

Lemma wchar_array_inc_ref_spec l n o : wchar_array_holds l n o → 0 < n < MAX_REFS →
  wp (mrpc_wchar_array_inc_ref o) (λ '(_, o'), wchar_array_holds l (n + 1) o').
Proof.
  unfold MAX_REFS. intros [-> Hl] Hn. unfold mrpc_wchar_array_inc_ref.
  do 4 wp_step. cbn [wa_ref_cnt wa_value wa_len]. apply wp_checked_int; [unfold is_s32; lia|].
  repeat wp_step. by split.
Qed.

Lemma wchar_array_dec_ref_spec l n o : wchar_array_holds l n o → 0 < n →
  wp (mrpc_wchar_array_dec_ref o) (λ '(_, o'),
    if bool_decide (n = 1) then o' = None else wchar_array_holds l (n - 1) o').
Proof.
  intros [-> Hl] Hn. unfold mrpc_wchar_array_dec_ref. do 4 wp_step.
  cbn [wa_ref_cnt wa_value wa_len]. do 2 wp_step.
  case_bool_decide as Hz.
  - rewrite bool_decide_eq_true_2 by lia. unfold delete_wchar_array. by repeat wp_step.
  - rewrite bool_decide_eq_false_2 by lia. by wp_step.
Qed.

#[export] Instance wchar_array_refs_spec : RefCountedSpec (option mrpc_wchar_array) (list Z).
Proof.
  split; [apply wchar_array_inc_ref_spec|apply wchar_array_dec_ref_spec].
Qed.

Lemma wchar_array_get_len_spec l n o : wchar_array_holds l n o → 0 < n →
  wp (mrpc_wchar_array_get_len o) (λ '(len, o'), len = zlength l ∧ o' = o).
Proof.
  intros [-> Hl] Hn. pose proof (zlength_nonneg l). unfold mrpc_wchar_array_get_len.
  by repeat wp_step.
Qed.

Lemma wchar_array_get_value_spec l n o : wchar_array_holds l n o → 0 < n →
  wp (mrpc_wchar_array_get_value o) (λ '(value, o'), value = l ∧ o' = o).
Proof. intros [-> Hl] Hn. unfold mrpc_wchar_array_get_value. by repeat wp_step. Qed.

Lemma arr_get_nat {A} (l : list A) i x : l !! i = Some x → arr_get l (Z.of_nat i) = Ret x.
Proof. intros Hi. unfold arr_get. rewrite bool_decide_eq_true_2 by lia. by rewrite Nat2Z.id, Hi. Qed.

Lemma wchars_to_uint16_spec n i value buf :
  (i + n = length value)%nat → Forall wchar_ok value →
  wchars_to_uint16 n (Z.of_nat i) value buf = Ret (buf ++ drop i value).
Proof.
  intros Hn Hok. revert i buf Hn. induction n as [|n IH]; intros i buf Hn; cbn [wchars_to_uint16].
  - by rewrite drop_ge, app_nil_r by lia.
  - destruct (lookup_lt_is_Some_2 value i ltac:(lia)) as [c Hc].
    rewrite (arr_get_nat _ _ c) by done. cbn [mbind outcome_bind].
    pose proof (proj1 (Forall_lookup _ _) Hok i c Hc) as Hw. unfold wchar_ok in Hw.
    rewrite bool_decide_eq_true_2 by lia. cbn [ff_assert mbind outcome_bind].
    replace (Z.of_nat i + 1) with (Z.of_nat (S i)) by lia. rewrite IH by lia.
    rewrite (drop_S value c i Hc), Z.mod_small, <- app_assoc by lia. done.
Qed.

Lemma wchar_array_get_hash_spec `{FFHash} l n o start :
  wchar_array_holds l n o → 0 < n → Forall wchar_ok l →
  wp (mrpc_wchar_array_get_hash start o) (λ '(h, o'), h = ff_hash_uint16 start l ∧ o' = o).
Proof.
  intros Ho Hn Hok. pose proof Ho as [Heq _]. unfold mrpc_wchar_array_get_hash. rewrite wp_M_bind.
  rewrite Heq at 1. cbn [wp deref fst snd]. rewrite <- Heq. wp_steps.
  eapply wp_mono; [by eapply wchar_array_get_value_spec|]. intros [value o1] [-> ->]. cbn [fst snd].
  wp_steps. eapply wp_mono; [by eapply wchar_array_get_len_spec|]. intros [len o1] [-> ->].
  cbn [fst snd]. wp_steps. unfold zlength. rewrite Nat2Z.id.
  assert (wchars_to_uint16 (length l) 0 l [] = Ret l) as -> by (by apply (wchars_to_uint16_spec _ 0)).
  done.
Qed.

Section serialization_specs.
Context {S : Type} `{FFStreamSpec S}.
Implicit Types (s : S) (l : list Z).

Lemma serialize_wchars_spec n i value s :
  (i + n = length value)%nat → Forall wchar_ok value → stream_inv s → writable s →
  wp (serialize_wchars n (Z.of_nat i) value s) (λ '(r, s'),
    wrote (drop i value ≫= varint) s r s' ∧ (ReliableStream S → r = FF_SUCCESS)).
Proof.
  intros Hn Hok. revert i s Hn. induction n as [|n IH]; intros i s Hn Hs Hw; cbn [serialize_wchars].
  - rewrite drop_ge by lia. cbn. split; [by apply wrote_nil|done].
  - destruct (lookup_lt_is_Some_2 value i ltac:(lia)) as [c Hc].
    rewrite wp_M_bind, wp_lift, (arr_get_nat _ _ c) by done. cbn [wp fst snd].
    pose proof (proj1 (Forall_lookup _ _) Hok i c Hc) as Hwc. unfold wchar_ok in Hwc.
    rewrite u32_id by (unfold is_u32; lia). do 3 wp_step.
    eapply wp_mono; [apply uint32_sends; [unfold is_u32; lia|done|done]|].
    intros [r s1] [Hw1 Hr1]. cbn [fst snd]. rewrite (drop_S value c i Hc). cbn [mbind list_bind].
    destruct r; [|wp_step; by split; [apply wrote_fail|]].
    pose proof Hw1 as (Hs1 & Hwr1 & _).
    replace (Z.of_nat i + 1) with (Z.of_nat (Datatypes.S i)) by lia.
    eapply wp_mono; [apply IH; (done || lia)|]. intros [r s2] [Hw2 Hr2].
    split; [by eapply wrote_app|done].
Qed.

(** Serialization sends the array and gives back the reference it takes. *)
Lemma wchar_array_serialize_spec l n o s :
  wchar_array_holds l n o → Forall wchar_ok l → 0 < n < MAX_REFS → stream_inv s → writable s →
  wp (mrpc_wchar_array_serialize (o, s)) (λ '(r, (o', s')),
    wchar_array_holds l n o' ∧ wrote (wchar_array_bytes l) s r s' ∧
    (ReliableStream S → r = FF_SUCCESS)).
Proof.
  intros Ho Hok Hn Hs Hw. unfold mrpc_wchar_array_serialize. do 2 wp_step.
  eapply wp_mono; [by apply wchar_array_inc_ref_spec|]. intros [[] o1] Ho1. cbn [fst snd].
  do 2 wp_step. eapply wp_mono; [eapply wchar_array_get_len_spec; [done|lia]|].
  intros [len o2] [-> ->]. cbn [fst snd]. do 2 wp_step.
  pose proof (zlength_nonneg l). pose proof Ho as [_ Hl]. rewrite max_wchar_array_length in Hl.
  rewrite u32_id by (unfold is_u32; lia).
  eapply wp_mono; [apply uint32_sends; [unfold is_u32; lia|done|done]|].
  intros [r s1] [Hw1 Hr1]. cbn [fst snd].
  assert (∀ r s2, wrote (wchar_array_bytes l) s r s2 → (ReliableStream S → r = FF_SUCCESS) →
    wp ((on_fst mrpc_wchar_array_dec_ref;; mret r) (o1, s2)) (λ '(r, (o', s')),
      wchar_array_holds l n o' ∧ wrote (wchar_array_bytes l) s r s' ∧
      (ReliableStream S → r = FF_SUCCESS))) as Hend.
  { intros r2 s2 Hw2 Hr2. do 2 wp_step.
    eapply wp_mono; [eapply wchar_array_dec_ref_spec; [done|lia]|]. intros [[] o3] Ho3.
    rewrite bool_decide_eq_false_2 in Ho3 by lia. cbn [fst snd]. wp_step.
    by replace (n + 1 - 1) with n in Ho3 by lia. }
  rewrite wp_M_bind. destruct r.
  - do 2 wp_step. eapply wp_mono; [eapply wchar_array_get_value_spec; [done|lia]|].
    intros [value o3] [-> ->]. cbn [fst snd]. wp_step.
    destruct Hw1 as (Hs1 & Hw1' & Hi1 & Ho1'). unfold zlength. rewrite Nat2Z.id.
    eapply wp_mono; [by apply (serialize_wchars_spec (length l) 0)|].
    intros [r s2] [Hw2 Hr2]. cbn [fst snd]. apply Hend; [|done]. by eapply wrote_app.
  - wp_step. apply Hend; [|done]. by apply wrote_fail.
Qed.

Lemma unserialize_wchars_spec n value s : stream_inv s → Forall wchar_ok value →
  wp (unserialize_wchars n value s) (λ '(r, value', s'),
    match r with
    | FF_SUCCESS => (∃ bs, consumed bs s s') ∧ Forall wchar_ok value' ∧
        length value' = (length value + n)%nat
    | FF_FAILURE => undisturbed s s'
    end).
Proof.
  revert value s. induction n as [|n IH]; intros value s Hs Hok; cbn [unserialize_wchars].
  - wp_step. split; [|split; [done|lia]]. exists []. unfold consumed, undisturbed. done.
  - rewrite wp_M_bind. eapply wp_mono; [by apply uint32_receives|].
    intros [[[|] o] s1] Hr; cbn [fst snd]; [|wp_step; by destruct Hr].
    destruct Hr as ((bs1 & Hc1) & ch & -> & Hch). unfold is_u32 in Hch.
    case_bool_decide as Hbig; [wp_step; eauto with mrpc|].
    eapply wp_mono; [apply (IH (value ++ [ch])); [eauto with mrpc|]|].
    { apply Forall_app; split; [done|]. constructor; [unfold wchar_ok; lia|constructor]. }
    intros [[[|] value'] s2]; [|eauto with mrpc].
    intros ((bs2 & Hc2) & Hok' & Hlen). split; [eauto with mrpc|]. split; [done|].
    rewrite Hlen, length_app. cbn [length]. lia.
Qed.

(** Any input gives a failure or a live array of permitted length whose
    characters are below 0x10000. *)
Lemma wchar_array_unserialize_spec s : stream_inv s →
  wp (mrpc_wchar_array_unserialize s) (λ '(r, o, s'),
    match r with
    | FF_SUCCESS => (∃ bs, consumed bs s s') ∧ ∃ l, wchar_array_holds l 1 o ∧ Forall wchar_ok l
    | FF_FAILURE => undisturbed s s' ∧ o = None
    end).
Proof.
  intros Hs. unfold mrpc_wchar_array_unserialize. rewrite wp_M_bind.
  eapply wp_mono; [by apply uint32_receives|]. intros [[[|] o] s1] Hr1; cbn [fst snd].
  2:{ destruct Hr1 as [Hu ->]. by wp_step. }
  destruct Hr1 as ((bs1 & Hc1) & z & -> & Hz). unfold is_u32 in Hz.
  case_bool_decide as Hbig; [wp_step; by split; [eauto with mrpc|]|].
  rewrite wp_M_bind.
  eapply wp_mono; [apply (unserialize_wchars_spec _ []); [eauto with mrpc|constructor]|].
  intros [[[|] value] s2] Hr2; cbn [fst snd]; [|wp_step; by split; [eauto with mrpc|]].
  destruct Hr2 as ((bs2 & Hc2) & Hok & Hlen). rewrite wp_M_bind, wp_lift.
  assert (zlength value = z) as <- by (unfold zlength; cbn [length] in Hlen; lia).
  unfold mrpc_wchar_array_create, create_wchar_array. do 4 wp_step. do 2 wp_step.
  split; [eauto with mrpc|]. exists value. split; [|done]. split; [done|]. lia.
Qed.

Lemma unserialize_wchars_bytes `{!ReliableStream S} l value s rest :
  Forall wchar_ok l → stream_inv s → incoming s = (l ≫= varint) ++ rest →
  wp (unserialize_wchars (length l) value s) (λ '(r, value', s'),
    r = FF_SUCCESS ∧ value' = value ++ l ∧ consumed (l ≫= varint) s s' ∧ incoming s' = rest).
Proof.
  intros Hok. revert value s. induction Hok as [|c l Hc Hok IH]; intros value s Hs Hin;
    cbn [unserialize_wchars length].
  - wp_step. rewrite app_nil_r. split; [done|]. split; [done|]. cbn in Hin |- *.
    unfold consumed, undisturbed. done.
  - cbn [mbind list_bind] in *. rewrite <- app_assoc in Hin. unfold wchar_ok in Hc. rewrite wp_M_bind.
    eapply wp_mono; [apply (uint32_receives_bytes c); [unfold is_u32; lia|done|done]|].
    intros [[r o] s1] (-> & -> & Hc1 & Hin1). cbn [fst snd]. rewrite bool_decide_eq_false_2 by lia.
    eapply wp_mono; [apply IH; [eauto with mrpc|done]|].
    intros [[r value'] s2] (-> & -> & Hc2 & Hin2). split; [done|].
    split; [by rewrite <- app_assoc|]. split; [eauto with mrpc|done].
Qed.

Lemma wchar_array_unserialize_bytes `{!ReliableStream S} l s rest :
  zlength l <= MAX_WCHAR_ARRAY_LENGTH → Forall wchar_ok l → stream_inv s →
  incoming s = wchar_array_bytes l ++ rest →
  wp (mrpc_wchar_array_unserialize s) (λ '(r, o, s'),
    r = FF_SUCCESS ∧ wchar_array_holds l 1 o ∧ consumed (wchar_array_bytes l) s s' ∧
    incoming s' = rest).
Proof.
  intros Hl Hok Hs Hin. unfold wchar_array_bytes in *. rewrite <- app_assoc in Hin.
  pose proof (zlength_nonneg l). pose proof max_wchar_array_length.
  unfold mrpc_wchar_array_unserialize. rewrite wp_M_bind.
  eapply wp_mono; [apply (uint32_receives_bytes (zlength l)); [unfold is_u32; lia|done|done]|].
  intros [[r o] s1] (-> & -> & Hc1 & Hin1). cbn [fst snd]. rewrite bool_decide_eq_false_2 by lia.
  rewrite wp_M_bind. unfold zlength at 1. rewrite Nat2Z.id.
  eapply wp_mono; [apply (unserialize_wchars_bytes l []); [done|eauto with mrpc|done]|].
  intros [[r got] s2] (-> & -> & Hc2 & Hin2). cbn [fst snd app]. rewrite wp_M_bind, wp_lift.
  unfold mrpc_wchar_array_create, create_wchar_array. do 4 wp_step. do 2 wp_step.
  split; [done|]. split; [by split|]. split; [eauto with mrpc|done].
Qed.
End serialization_specs.

#[export] Instance wchar_array_wire_spec : WireSpec (list Z).
Proof.
  assert (∀ S `{FFStreamSpec S} l (s : S), zlength l <= MAX_WCHAR_ARRAY_LENGTH → Forall wchar_ok l →
    stream_inv s → writable s → wp (wire_serialize l s) (λ '(r, s'),
      wrote (wchar_array_bytes l) s r s' ∧ (ReliableStream S → r = FF_SUCCESS))) as Hser.
  { intros S ? ? ? l s Hl Hok Hs Hw. cbn [wire_serialize wchar_array_wire]. pose proof (zlength_nonneg l).
    assert (mrpc_wchar_array_create l (zlength l) = Ret (WcharArray l (zlength l) 1)) as ->.
    { unfold mrpc_wchar_array_create, create_wchar_array. by rewrite !bool_decide_eq_true_2 by lia. }
    destruct (wp_inv _ _ (wchar_array_serialize_spec l 1 (Some (WcharArray l (zlength l) 1)) s
      (conj eq_refl Hl) Hok ltac:(unfold MAX_REFS; lia) Hs Hw)) as ([r [o s']] & -> & _ & Hr). exact Hr. }
  split; [intros l _ [Hl _]%app_eq_nil; by apply varint_nonempty in Hl|..]; intros S ? ? ?.
  - intros l s [Hl Hok] Hs Hw. eapply wp_mono; [by apply Hser|]. by intros [r s'] [? _].
  - intros ? l s [Hl Hok] Hs Hw. eapply wp_mono; [by apply Hser|]. intros [r s'] [_ Hr]. by apply Hr.
  - intros s Hs. cbn [wire_unserialize wchar_array_wire]. rewrite wp_M_bind.
    eapply wp_mono; [by apply wchar_array_unserialize_spec|].
    intros [[[|] o] s1]; cbn [fst snd wp mret M_ret].
    + intros (Hc & l & [-> Hl] & Hok). split; [done|]. by exists l.
    + by intros [? ->].
  - intros ? l s rest [Hl Hok] Hs Hin. cbn [wire_unserialize wchar_array_wire]. rewrite wp_M_bind.
    eapply wp_mono; [by apply (wchar_array_unserialize_bytes l s rest)|].
    by intros [[r o] s1] (-> & [-> _] & Hc & Hin').
Qed.

Lemma wchars_octets l : Forall wchar_ok l → zlength (l ≫= varint) <= 3 * zlength l.
Proof.
  induction 1 as [|c l Hc _ IH]; [done|]. cbn [mbind list_bind]. rewrite zlength_app, zlength_cons.
  unfold wchar_ok in Hc. assert (length (varint c) <= 3)%nat as Hl.
  { apply base128_length_le; [lia|lia|]. change (128 ^ Z.of_nat 3) with (2 ^ 21). lia. }
  change (zlength (varint c) + zlength (l ≫= varint) <= 3 * (1 + zlength l)).
  unfold zlength at 1. lia.
Qed.

(** ** Properties *)

(** Wide char arrays survive the wire: an array whose characters are below
    0x10000 is sent as its length and one to three octets per character,
    serialization gives back the reference it takes, and the receiver obtains a
    new array with the same characters, and reads nothing else. *)
Lemma wchar_array_roundtrip {W R : Type} `{FFStreamSpec W} `{!ReliableStream W}
    `{FFStreamSpec R} `{!ReliableStream R} (l : list Z) (n : Z)
    (o : option mrpc_wchar_array) (w : W) :
  wchar_array_holds l n o → Forall wchar_ok l → 0 < n < MAX_REFS → stream_inv w → writable w →
  wp (mrpc_wchar_array_serialize (o, w)) (λ '(res, (o', w')),
    res = FF_SUCCESS ∧ wchar_array_holds l n o' ∧
    ∃ sent, outgoing w' = outgoing w ++ sent ∧ zlength sent <= 2 + 3 * zlength l ∧
    ∀ (r : R) rest, stream_inv r → incoming r = sent ++ rest →
      wp (mrpc_wchar_array_unserialize r) (λ '(res, o, r'),
        res = FF_SUCCESS ∧ wchar_array_holds l 1 o ∧ incoming r' = rest)).
Proof.
  intros Ho Hok Hn Hw Hwr. eapply wp_mono; [by apply wchar_array_serialize_spec|].
  intros [res [o' w']] (Ho' & (_ & _ & _ & Hout) & Hsent). specialize (Hsent _). subst res.
  split; [done|]. split; [done|]. exists (wchar_array_bytes l). split; [done|].
  destruct Ho as [_ Hl]. pose proof (zlength_nonneg l). split.
  { unfold wchar_array_bytes. rewrite zlength_app. rewrite max_wchar_array_length in Hl.
    pose proof (varint_short (zlength l)). pose proof (wchars_octets l Hok). lia. }
  intros r rest Hr Hin. eapply wp_mono; [by apply (wchar_array_unserialize_bytes l r rest)|].
  by intros [[? ?] ?] (? & ? & ? & ?).
Qed.

Lemma wchar_array_roundtrip_witness :
  wp (mrpc_wchar_array_serialize
        (Some (WcharArray [97; 1078] (zlength [97; 1078]) 3), MemStream [] []))
    (λ '(res, (o', w')),
    res = FF_SUCCESS ∧ wchar_array_holds [97; 1078] 3 o' ∧
    ∃ sent, outgoing w' = outgoing (MemStream [] []) ++ sent ∧
      zlength sent <= 2 + 3 * zlength [97; 1078] ∧
    ∀ (r : mem_stream) rest, stream_inv r → incoming r = sent ++ rest →
      wp (mrpc_wchar_array_unserialize r) (λ '(res, o, r'),
        res = FF_SUCCESS ∧ wchar_array_holds [97; 1078] 1 o ∧ incoming r' = rest)).
Proof.
  apply (wchar_array_roundtrip [97; 1078] 3 _ (MemStream [] []));
    [split; [reflexivity | vm_compute; discriminate]
    | repeat constructor; vm_compute; congruence | unfold MAX_REFS; lia | exact I | exact I].
Defined.

(** Whatever the peer sends, unserialization of a wide char array ends
    without a failed assertion, with a live array of at most
    [MAX_WCHAR_ARRAY_LENGTH] characters, or with a failure and no array; all
    characters of the array are below 0x10000, so that it can be hashed and sent
    again without a failed assertion, and its hash is the hash of its characters
    as 16-bit numbers. *)
Lemma wchar_array_any_input {S : Type} `{FFStreamSpec S} `{FFHash} (s : S) (start : Z) :
  stream_inv s →
  wp (mrpc_wchar_array_unserialize s) (λ '(r, o, s'),
    match r with
    | FF_SUCCESS => ∃ l bs, wchar_array_holds l 1 o ∧ Forall wchar_ok l ∧
        incoming s = bs ++ incoming s' ∧
        wp (mrpc_wchar_array_get_hash start o) (λ '(h, o'),
          h = ff_hash_uint16 start l ∧ o' = o) ∧
        (writable s' → wp (mrpc_wchar_array_serialize (o, s')) (λ _, True))
    | FF_FAILURE => o = None ∧ outgoing s' = outgoing s
    end).
Proof.
  intros Hs. eapply wp_mono; [by apply wchar_array_unserialize_spec|]. intros [[[|] o] s'].
  - intros ((bs & Hc) & l & Hl & Hok). exists l, bs. split; [done|]. split; [done|].
    split; [apply Hc|]. split; [by eapply wchar_array_get_hash_spec|].
    intros Hw. eapply wp_mono; [apply (wchar_array_serialize_spec l 1); try done|done].
    by eapply consumed_inv.
  - by intros [(_ & _ & ?) ->].
Qed.

Lemma wchar_array_any_input_witness :
  wp (mrpc_wchar_array_unserialize (MemStream [x01; x61] [])) (λ '(r, o, s'),
    match r with
    | FF_SUCCESS => ∃ l bs, wchar_array_holds l 1 o ∧ Forall wchar_ok l ∧
        incoming (MemStream [x01; x61] []) = bs ++ incoming s' ∧
        wp (@mrpc_wchar_array_get_hash mix_hash 5 o) (λ '(h, o'),
          h = @ff_hash_uint16 mix_hash 5 l ∧ o' = o) ∧
        (writable s' → wp (mrpc_wchar_array_serialize (o, s')) (λ _, True))
    | FF_FAILURE => o = None ∧ outgoing s' = outgoing (MemStream [x01; x61] [])
    end).
Proof.
  apply (@wchar_array_any_input _ _ _ mem_stream_spec mix_hash (MemStream [x01; x61] []) 5).
  exact I.
Defined.
