(* ===== verification/Blob.v ===== *)
(** * Blobs (src/mrpc_blob.c)

    A blob is a reference-counted value of arbitrary size kept in a file.  It is
    written once through a stream, after which it can be read any number of
    times; the file is erased with the last reference.  Files belong to the
    fiber-framework and are an interface here. *)

From S2P Require Import Prelude FF Wire MrpcInt RefCount.

(** ** The interface of files *)

(** A path is a wide string. *)
Abbreviation path := (list Z).

Inductive ff_file_access_mode := FF_FILE_READ | FF_FILE_WRITE.

(** [F] is the file system with the generator of temporary names, [H] an open
    [struct ff_file].  [files] are the contents of the existing files. *)
Class FFFile (F H : Type) := {
  ff_file_open : path → ff_file_access_mode → M F (option H);
  ff_file_read : Z → M (H * F) (ff_result * list byte);
  ff_file_write : list byte → M (H * F) ff_result;
  ff_file_flush : M (H * F) ff_result;
  ff_file_close : H → M F unit;
  ff_file_erase : path → M F ff_result;
  ff_file_move : path → path → M F ff_result;
  ff_arch_misc_get_tmp_dir_path : F → path;
  ff_arch_misc_create_unique_file_path : path → path → M F path;
  files : F → path → option (list byte);
  file_path_of : H → path;
  file_mode_of : H → ff_file_access_mode;
  file_pos : H → Z;
}.

(** Nothing but the file [p] may differ. *)
Definition files_but `{FFFile F H} (p : path) (f f' : F) : Prop :=
  ∀ q, q ≠ p → files f' q = files f q.

Definition files_same `{FFFile F H} (f f' : F) : Prop := ∀ q, files f' q = files f q.

(** The handle stays on its file. *)
Definition same_file `{FFFile F H} (h h' : H) : Prop :=
  file_path_of h' = file_path_of h ∧ file_mode_of h' = file_mode_of h.

Class FFFileSpec (F H : Type) `{FFFile F H} : Prop := {
  file_open_read_spec p f :
    wp (ff_file_open p FF_FILE_READ f) (λ '(r, f'), files_same f f' ∧
      match r with
      | Some h => (∃ d, files f p = Some d) ∧ file_path_of h = p ∧
          file_mode_of h = FF_FILE_READ ∧ file_pos h = 0
      | None => True
      end);
  file_open_write_spec p f :
    wp (ff_file_open p FF_FILE_WRITE f) (λ '(r, f'),
      match r with
      | Some h => files_but p f f' ∧ files f' p = Some [] ∧ file_path_of h = p ∧
          file_mode_of h = FF_FILE_WRITE ∧ file_pos h = 0
      | None => files_same f f'
      end);
  file_read_spec n h f d :
    file_mode_of h = FF_FILE_READ → files f (file_path_of h) = Some d → 0 <= n →
    0 <= file_pos h <= zlength d →
    wp (ff_file_read n (h, f)) (λ '(r, bs, (h', f')), files_same f f' ∧ same_file h h' ∧
      match r with
      | FF_SUCCESS => zlength bs = n ∧ bs = take (Z.to_nat n) (drop (Z.to_nat (file_pos h)) d) ∧
          file_pos h' = file_pos h + n
      | FF_FAILURE => zlength bs <= n
      end);
  file_write_spec bs h f d :
    file_mode_of h = FF_FILE_WRITE → files f (file_path_of h) = Some d →
    file_pos h = zlength d →
    wp (ff_file_write bs (h, f)) (λ '(r, (h', f')),
      files_but (file_path_of h) f f' ∧ same_file h h' ∧
      match r with
      | FF_SUCCESS => files f' (file_path_of h) = Some (d ++ bs) ∧
          file_pos h' = file_pos h + zlength bs
      | FF_FAILURE => ∃ d', files f' (file_path_of h) = Some d'
      end);
  file_flush_spec h f :
    wp (ff_file_flush (h, f)) (λ '(r, (h', f')), files_same f f' ∧ same_file h h' ∧
      file_pos h' = file_pos h);
  file_close_spec h f : wp (ff_file_close h f) (λ '(_, f'), files_same f f');
  file_erase_spec p f :
    wp (ff_file_erase p f) (λ '(r, f'), files_but p f f' ∧
      match r with FF_SUCCESS => files f' p = None | FF_FAILURE => files f' p = files f p end);
  file_move_spec p q f : p ≠ q →
    wp (ff_file_move p q f) (λ '(r, f'),
      match r with
      | FF_SUCCESS => files f' q = files f p ∧ files f' p = None ∧
          ∀ q', q' ≠ p → q' ≠ q → files f' q' = files f q'
      | FF_FAILURE => files_same f f'
      end);
  tmp_dir_path_spec f : ∃ dir c, ff_arch_misc_get_tmp_dir_path f = dir ++ [c] ∧ (c = 47 ∨ c = 92);
  unique_file_path_spec dir prefix f :
    wp (ff_arch_misc_create_unique_file_path dir prefix f) (λ '(p, f'),
      files_same f f' ∧ files f p = None)
}.

(** Files which do not fail: existing files can be opened, read within their
    length and erased, new ones written. *)
Class ReliableFiles (F H : Type) `{FFFile F H} : Prop := {
  reliable_open_read p f d : files f p = Some d →
    wp (ff_file_open p FF_FILE_READ f) (λ '(r, _), r ≠ None);
  reliable_open_write p f : wp (ff_file_open p FF_FILE_WRITE f) (λ '(r, _), r ≠ None);
  reliable_file_read n h f d :
    file_mode_of h = FF_FILE_READ → files f (file_path_of h) = Some d → 0 <= n →
    0 <= file_pos h → file_pos h + n <= zlength d →
    wp (ff_file_read n (h, f)) (λ '(r, _, _), r = FF_SUCCESS);
  reliable_file_write bs h f d :
    file_mode_of h = FF_FILE_WRITE → files f (file_path_of h) = Some d →
    file_pos h = zlength d →
    wp (ff_file_write bs (h, f)) (λ '(r, _), r = FF_SUCCESS);
  reliable_file_flush h f : wp (ff_file_flush (h, f)) (λ '(r, _), r = FF_SUCCESS);
  reliable_erase p f : wp (ff_file_erase p f) (λ '(r, _), r = FF_SUCCESS)
}.

(** ** Data *)

Definition BLOB_FILENAME_PREFIX : path := [109; 114; 112; 99; 95; 98; 108; 111; 98; 46].

Inductive blob_state := BLOB_EMPTY | BLOB_INCOMPLETE | BLOB_COMPLETE.

#[export] Instance blob_state_eq_dec : EqDecision blob_state.
Proof. solve_decision. Defined.

Inductive mrpc_blob_open_stream_mode := MRPC_BLOB_READ | MRPC_BLOB_WRITE.

#[export] Instance open_stream_mode_eq_dec : EqDecision mrpc_blob_open_stream_mode.
Proof. solve_decision. Defined.

Record mrpc_blob := MrpcBlob {
  bl_file_path : path;
  bl_len : Z;
  bl_state : blob_state;
  bl_ref_cnt : Z
}.

Definition set_ref_cnt (b : mrpc_blob) (n : Z) : mrpc_blob :=
  MrpcBlob (bl_file_path b) (bl_len b) (bl_state b) n.
Definition set_state (b : mrpc_blob) (st : blob_state) : mrpc_blob :=
  MrpcBlob (bl_file_path b) (bl_len b) st (bl_ref_cnt b).

(** [struct blob_stream_data]; the blob it points to is part of the state the
    stream functions work on. *)
Record blob_stream_data (H : Type) := BlobStreamData {
  bd_file : H;
  bd_mode : mrpc_blob_open_stream_mode;
  bd_curr_pos : Z
}.
Arguments BlobStreamData {H}.
Arguments bd_file {H}.
Arguments bd_mode {H}.
Arguments bd_curr_pos {H}.

Section operations.
Context {F H : Type} `{FFFile F H}.

(** A blob on the heap and the files. *)
#[local] Abbreviation B := (option mrpc_blob * F)%type.
(** An open blob stream with its blob and the files. *)
#[local] Abbreviation BS := (blob_stream_data H * B)%type.

Definition create_temporary_file_path : M F path := λ f,
  let tmp_dir_path := ff_arch_misc_get_tmp_dir_path f in
  (last_char ← arr_get tmp_dir_path (zlength tmp_dir_path - 1);
   ff_assert (bool_decide (last_char = 47) || bool_decide (last_char = 92));;
   ff_arch_misc_create_unique_file_path tmp_dir_path BLOB_FILENAME_PREFIX f).

Definition create_blob (len : Z) : M F mrpc_blob :=
  lift (ff_assert (bool_decide (len >= 0)));;
  file_path ← create_temporary_file_path;
  mret (MrpcBlob file_path len BLOB_EMPTY 1).

Definition delete_blob : M B unit :=
  blob ← on_fst deref;
  lift (ff_assert (bool_decide (bl_ref_cnt blob = 0)));;
  (if bool_decide (bl_state blob ≠ BLOB_EMPTY)
   then on_snd (ff_file_erase (bl_file_path blob));; mret tt
   else mret tt);;
  on_fst ff_free.

Definition mrpc_blob_create (len : Z) : M F mrpc_blob :=
  lift (ff_assert (bool_decide (len >= 0)));;
  create_blob len.

Definition mrpc_blob_inc_ref : M B unit :=
  blob ← on_fst deref;
  ref_cnt ← lift (checked_int (bl_ref_cnt blob + 1));
  on_fst (assign (set_ref_cnt blob ref_cnt));;
  lift (ff_assert (bool_decide (ref_cnt > 1))).

Definition mrpc_blob_dec_ref : M B unit :=
  blob ← on_fst deref;
  lift (ff_assert (bool_decide (bl_ref_cnt blob > 0)));;
  let ref_cnt := bl_ref_cnt blob - 1 in
  on_fst (assign (set_ref_cnt blob ref_cnt));;
  if bool_decide (ref_cnt = 0) then delete_blob else mret tt.

Definition mrpc_blob_get_len : M B Z :=
  blob ← on_fst deref;
  lift (ff_assert (bool_decide (bl_ref_cnt blob > 0)));;
  lift (ff_assert (bool_decide (bl_len blob >= 0)));;
  mret (bl_len blob).

(** *** The functions of [blob_stream_vtable] *)

(** File operations on the open file of a stream. *)
Definition on_file {A} (m : M (H * F) A) : M BS A := λ st,
  match m (bd_file st.1, st.2.2) with
  | Ret (a, (h, f)) =>
      Ret (a, (BlobStreamData h (bd_mode st.1) (bd_curr_pos st.1), (st.2.1, f)))
  | Fault e => Fault e
  end.

Definition set_mode (mode : mrpc_blob_open_stream_mode) : M BS unit := λ st,
  Ret (tt, (BlobStreamData (bd_file st.1) mode (bd_curr_pos st.1), st.2)).

Definition advance (len : Z) : M BS unit := λ st,
  Ret (tt, (BlobStreamData (bd_file st.1) (bd_mode st.1) (bd_curr_pos st.1 + len), st.2)).

Definition stream_data : M BS (blob_stream_data H) := λ st, Ret (st.1, st).

Definition stream_blob : M BS mrpc_blob := on_snd (on_fst deref).

(** Also consumes the stream. *)
Definition delete_blob_stream (data : blob_stream_data H) : M B unit :=
  on_snd (ff_file_close (bd_file data));;
  mrpc_blob_dec_ref.

Definition read_from_blob_stream (len : Z) : M BS (ff_result * list byte) :=
  lift (ff_assert (bool_decide (len >= 0)));;
  data ← stream_data;
  blob ← stream_blob;
  lift (ff_assert (bool_decide (bd_mode data = MRPC_BLOB_READ)));;
  lift (ff_assert (bool_decide (bl_state blob = BLOB_COMPLETE)));;
  lift (ff_assert (bool_decide (bd_curr_pos data >= 0)));;
  lift (ff_assert (bool_decide (bd_curr_pos data <= bl_len blob)));;
  let bytes_left := bl_len blob - bd_curr_pos data in
  if bool_decide (len <= bytes_left) then
    r ← on_file (ff_file_read len);
    match r.1 with
    | FF_SUCCESS => advance len;; mret r
    | FF_FAILURE => mret r
    end
  else mret (FF_FAILURE, []).

(** The first assertion of the C function assigns the mode. *)
Definition write_to_blob_stream (buf : list byte) : M BS ff_result :=
  let len := zlength buf in
  lift (ff_assert (bool_decide (len >= 0)));;
  set_mode MRPC_BLOB_WRITE;;
  data ← stream_data;
  blob ← stream_blob;
  lift (ff_assert (bool_decide (bl_state blob ≠ BLOB_EMPTY)));;
  lift (ff_assert (bool_decide (bd_curr_pos data >= 0)));;
  lift (ff_assert (bool_decide (bd_curr_pos data <= bl_len blob)));;
  let bytes_left := bl_len blob - bd_curr_pos data in
  if bool_decide (len <= bytes_left) then
    result ← on_file (ff_file_write buf);
    match result with
    | FF_SUCCESS => advance len;; mret FF_SUCCESS
    | FF_FAILURE => mret FF_FAILURE
    end
  else mret FF_FAILURE.

Definition flush_blob_stream : M BS ff_result :=
  data ← stream_data;
  blob ← stream_blob;
  lift (ff_assert (bool_decide (bd_mode data = MRPC_BLOB_WRITE)));;
  lift (ff_assert (bool_decide (bl_state blob ≠ BLOB_EMPTY)));;
  result ← on_file ff_file_flush;
  match result with
  | FF_SUCCESS =>
      (if bool_decide (bd_curr_pos data = bl_len blob)
       then on_snd (on_fst (assign (set_state blob BLOB_COMPLETE)))
       else mret tt);;
      mret FF_SUCCESS
  | FF_FAILURE => mret FF_FAILURE
  end.

Definition disconnect_blob_stream : M BS unit := lift (ff_assert false).

#[export] Instance blob_stream_ops : FFStream BS := {
  ff_stream_read := read_from_blob_stream;
  ff_stream_write := write_to_blob_stream
}.

Definition mrpc_blob_open_stream (mode : mrpc_blob_open_stream_mode) :
    M B (option (blob_stream_data H)) :=
  blob ← on_fst deref;
  lift (ff_assert (bool_decide (bl_ref_cnt blob > 0)));;
  match mode with
  | MRPC_BLOB_READ =>
      lift (ff_assert (bool_decide (bl_state blob = BLOB_COMPLETE)));;
      mrpc_blob_inc_ref;;
      file ← on_snd (ff_file_open (bl_file_path blob) FF_FILE_READ);
      match file with
      | None => mrpc_blob_dec_ref;; mret None
      | Some file => mret (Some (BlobStreamData file mode 0))
      end
  | MRPC_BLOB_WRITE =>
      lift (ff_assert (bool_decide (bl_ref_cnt blob = 1)));;
      lift (ff_assert (bool_decide (bl_state blob = BLOB_EMPTY)));;
      mrpc_blob_inc_ref;;
      file ← on_snd (ff_file_open (bl_file_path blob) FF_FILE_WRITE);
      match file with
      | None => mrpc_blob_dec_ref;; mret None
      | Some file =>
          blob ← on_fst deref;
          on_fst (assign (set_state blob BLOB_INCOMPLETE));;
          mret (Some (BlobStreamData file mode 0))
      end
  end.

Definition mrpc_blob_move (new_file_path : path) : M B ff_result :=
  blob ← on_fst deref;
  lift (ff_assert (bool_decide (bl_state blob = BLOB_COMPLETE)));;
  lift (ff_assert (bool_decide (bl_ref_cnt blob = 1)));;
  mrpc_blob_inc_ref;;
  result ← on_snd (ff_file_move (bl_file_path blob) new_file_path);
  (match result with
   | FF_SUCCESS =>
       blob ← on_fst deref;
       on_fst (assign (MrpcBlob new_file_path (bl_len blob) (bl_state blob) (bl_ref_cnt blob)))
   | FF_FAILURE => mret tt
   end);;
  mrpc_blob_dec_ref;;
  mret result.
End operations.

(** ** Hashing and serialization *)

Section serialization.
Context {F H S : Type} `{FFFile F H} `{FFStream S} `{FFStreamUtil}.
#[local] Abbreviation B := (option mrpc_blob * F)%type.
#[local] Abbreviation BS := (blob_stream_data H * B)%type.

(** Runs an operation of a blob stream; returns the stream as well. *)
Definition with_stream {A} (data : blob_stream_data H) (m : M BS A) :
    M B (A * blob_stream_data H) := λ b,
  match m (data, b) with
  | Ret (a, (data, b)) => Ret ((a, data), b)
  | Fault e => Fault e
  end.

Definition mrpc_blob_get_hash (start_value : Z) : M B (ff_result * option Z) :=
  blob ← on_fst deref;
  lift (ff_assert (bool_decide (bl_state blob = BLOB_COMPLETE)));;
  lift (ff_assert (bool_decide (bl_ref_cnt blob > 0)));;
  stream ← mrpc_blob_open_stream (H := H) MRPC_BLOB_READ;
  match stream with
  | Some stream =>
      len ← mrpc_blob_get_len;
      r ← with_stream stream (ff_stream_get_hash len start_value);
      delete_blob_stream r.2;;
      mret r.1
  | None => mret (FF_FAILURE, None)
  end.

(** [ff_stream_copy(blob_stream, stream, len)] *)
Definition copy_from_blob (data : blob_stream_data H) (len : Z) :
    M (B * S) (ff_result * blob_stream_data H) := λ st,
  match ff_stream_copy (S := BS) len ((data, st.1), st.2) with
  | Ret (r, ((data, b), s)) => Ret ((r, data), (b, s))
  | Fault e => Fault e
  end.

(** Works on the blob with its files and on the stream. *)
Definition mrpc_blob_serialize : M (B * S) ff_result :=
  blob_stream ← on_fst (mrpc_blob_open_stream (H := H) MRPC_BLOB_READ);
  match blob_stream with
  | None => mret FF_FAILURE
  | Some blob_stream =>
      len ← on_fst mrpc_blob_get_len;
      lift (ff_assert (bool_decide (len >= 0)));;
      result ← on_snd (mrpc_uint32_serialize (u32 len));
      match result with
      | FF_FAILURE =>
          on_fst (delete_blob_stream blob_stream);;
          mret FF_FAILURE
      | FF_SUCCESS =>
          r ← copy_from_blob blob_stream len;
          on_fst (delete_blob_stream r.2);;
          mret r.1
      end
  end.

(** [ff_stream_copy(stream, blob_stream, len)] *)
Definition copy_to_blob (data : blob_stream_data H) (len : Z) :
    M (S * B) (ff_result * blob_stream_data H) := λ st,
  match ff_stream_copy (T := BS) len (st.1, (data, st.2)) with
  | Ret (r, (s, (data, b))) => Ret ((r, data), (s, b))
  | Fault e => Fault e
  end.

(** The part of [mrpc_blob_unserialize] which fills [new_blob]. *)
Definition fill_new_blob (len : Z) : M (S * B) ff_result :=
  blob_stream ← on_snd (mrpc_blob_open_stream (H := H) MRPC_BLOB_WRITE);
  match blob_stream with
  | None =>
      on_snd mrpc_blob_dec_ref;;
      mret FF_FAILURE
  | Some blob_stream =>
      r ← copy_to_blob blob_stream len;
      match r.1 with
      | FF_FAILURE =>
          on_snd (delete_blob_stream r.2);;
          on_snd mrpc_blob_dec_ref;;
          mret FF_FAILURE
      | FF_SUCCESS =>
          r ← on_snd (with_stream r.2 flush_blob_stream);
          match r.1 with
          | FF_FAILURE =>
              on_snd (delete_blob_stream r.2);;
              on_snd mrpc_blob_dec_ref;;
              mret FF_FAILURE
          | FF_SUCCESS =>
              on_snd (delete_blob_stream r.2);;
              mret FF_SUCCESS
          end
      end
  end.

(** Runs [m] with a blob in a heap cell of its own; returns the cell. *)
Definition with_new_blob {A} (blob : mrpc_blob) (m : M (S * B) A) :
    M (S * F) (A * option mrpc_blob) := λ st,
  match m (st.1, (Some blob, st.2)) with
  | Ret (a, (s, (cell, f))) => Ret ((a, cell), (s, f))
  | Fault e => Fault e
  end.

(** The second component of the result is what [*blob] points to; [None] when
    the output parameter was not assigned. *)
Definition mrpc_blob_unserialize : M (S * F) (ff_result * option (option mrpc_blob)) :=
  r ← on_fst mrpc_uint32_unserialize;
  match r with
  | (FF_SUCCESS, Some u_len) =>
      let len := s32 u_len in
      (* goto end: the result is still that of mrpc_uint32_unserialize *)
      if bool_decide (len < 0) then mret (FF_SUCCESS, None)
      else
        new_blob ← on_snd (mrpc_blob_create len);
        r ← with_new_blob new_blob (fill_new_blob len);
        match r.1 with
        | FF_FAILURE => mret (FF_FAILURE, None)
        | FF_SUCCESS => mret (FF_SUCCESS, Some r.2)
        end
  | _ => mret (FF_FAILURE, None)
  end.
End serialization.

(** ** Specification *)

Section views.
Context {F H : Type} `{FFFile F H}.
#[local] Abbreviation B := (option mrpc_blob * F)%type.
#[local] Abbreviation BS := (blob_stream_data H * B)%type.

(** A blob in state [state] at the path [p] with [n] references, whose file has
    the contents [d]. *)
Definition blob_at (p : path) (len : Z) (state : blob_state) (d : list byte) (n : Z) (b : B) : Prop :=
  b.1 = Some (MrpcBlob p len state n) ∧ files b.2 p = Some d ∧ 0 <= len < 2 ^ 31.

(** A complete blob with its contents. *)
Definition blob_holds (c : path * list byte) (n : Z) (b : B) : Prop :=
  blob_at c.1 (zlength c.2) BLOB_COMPLETE c.2 n b.

(** An open stream on this file. *)
Definition on_blob_file (p : path) (mode : ff_file_access_mode) (data : blob_stream_data H) : Prop :=
  file_path_of (bd_file data) = p ∧ file_mode_of (bd_file data) = mode.

(** A stream which has delivered the first [k] bytes of [c]. *)
Definition blob_reading (p : path) (c : list byte) (n k : Z) (st : BS) : Prop :=
  blob_holds (p, c) n st.2 ∧ on_blob_file p FF_FILE_READ st.1 ∧ bd_mode st.1 = MRPC_BLOB_READ ∧
  bd_curr_pos st.1 = k ∧ file_pos (bd_file st.1) = k ∧ 0 <= k <= zlength c.

(** A stream which has written [d] of a blob of [len] bytes. *)
Definition blob_writing (p : path) (len : Z) (d : list byte) (n : Z) (st : BS) : Prop :=
  blob_at p len BLOB_INCOMPLETE d n st.2 ∧ on_blob_file p FF_FILE_WRITE st.1 ∧
  bd_mode st.1 = MRPC_BLOB_WRITE ∧ bd_curr_pos st.1 = zlength d ∧
  file_pos (bd_file st.1) = zlength d ∧ zlength d <= len.
End views.

#[export] Instance blob_refs {F H} `{FFFile F H} :
    RefCounted (option mrpc_blob * F) (path * list byte) := {
  inc_ref := mrpc_blob_inc_ref;
  dec_ref := mrpc_blob_dec_ref;
  holds := blob_holds;
  freed b := b.1 = None
}.

(** ** References and streams *)

Section blob_specs.
Context {F H : Type} `{FFFileSpec F H}.
#[local] Abbreviation B := (option mrpc_blob * F)%type.
#[local] Abbreviation BS := (blob_stream_data H * B)%type.
Implicit Types (b : B) (st : BS) (f : F) (p : path) (d c : list byte).

Lemma files_same_refl f : files_same f f.
Proof. done. Qed.

Lemma files_same_trans f f1 f2 : files_same f f1 → files_same f1 f2 → files_same f f2.
Proof. unfold files_same. intros H1' H2' q. by rewrite H2', H1'. Qed.

Lemma files_but_trans p f f1 f2 : files_but p f f1 → files_but p f1 f2 → files_but p f f2.
Proof. unfold files_but. intros H1' H2' q Hq. by rewrite H2', H1'. Qed.

Lemma files_same_but p f f' : files_same f f' → files_but p f f'.
Proof. intros Hf q _. apply Hf. Qed.

(** References do not touch files while one is left. *)
Lemma blob_inc_ref_spec p len state d n b : blob_at p len state d n b → 0 < n < MAX_REFS →
  wp (mrpc_blob_inc_ref b) (λ '(_, b'), blob_at p len state d (n + 1) b' ∧ b'.2 = b.2).
Proof.
  destruct b as [o f]. unfold blob_at, MAX_REFS. cbn. intros (-> & Hf & Hlen) Hn.
  unfold mrpc_blob_inc_ref. wp_steps. cbn [bl_ref_cnt].
  apply wp_checked_int; [unfold is_s32; lia|]. by wp_steps.
Qed.

Lemma blob_dec_ref_spec p len state d n b : blob_at p len state d n b → 1 < n →
  wp (mrpc_blob_dec_ref b) (λ '(_, b'), blob_at p len state d (n - 1) b' ∧ b'.2 = b.2).
Proof.
  destruct b as [o f]. unfold blob_at. cbn. intros (-> & Hf & Hlen) Hn.
  unfold mrpc_blob_dec_ref. wp_steps. rewrite bool_decide_eq_false_2 by (cbn; lia).
  by wp_steps.
Qed.

(** The last reference destroys the blob; a blob which was opened for writing
    has a file, which is erased. *)
Lemma blob_dec_ref_last p len state d b : blob_at p len state d 1 b →
  wp (mrpc_blob_dec_ref b) (λ '(_, b'), b'.1 = None ∧ files_but p b.2 b'.2 ∧
    (state = BLOB_EMPTY → b'.2 = b.2) ∧
    (state ≠ BLOB_EMPTY → ReliableFiles F H → files b'.2 p = None)).
Proof.
  destruct b as [o f]. unfold blob_at. cbn. intros (-> & Hf & Hlen).
  unfold mrpc_blob_dec_ref. wp_steps. rewrite bool_decide_eq_true_2 by done.
  unfold delete_blob. wp_steps. cbn [bl_state set_ref_cnt bl_file_path].
  case_bool_decide as Hst.
  - wp_steps. pose proof (file_erase_spec p f) as Her.
    pose proof (λ R : ReliableFiles F H, reliable_erase p f) as Hrel.
    destruct (ff_file_erase p f) as [[r f1]|]; [|done]. cbn in Her, Hrel |- *.
    destruct Her as [Hf1 Hr]. wp_steps. split; [done|]. split; [done|].
    split; [done|]. destruct r; [done|]. intros _ Hrf. discriminate (Hrel Hrf).
  - wp_steps. split; [done|]. split; [done|]. split; [done|]. by intros ?; destruct Hst.
Qed.

Lemma blob_get_len_spec p len state d n b : blob_at p len state d n b → 0 < n →
  wp (mrpc_blob_get_len b) (λ '(r, b'), r = len ∧ b' = b).
Proof.
  destruct b as [o f]. unfold blob_at. cbn. intros (-> & Hf & Hlen) Hn.
  unfold mrpc_blob_get_len. by wp_steps.
Qed.

Lemma blob_create_spec len f : 0 <= len < 2 ^ 31 →
  wp (mrpc_blob_create len f) (λ '(blob, f'), files_same f f' ∧
    ∃ p, blob = MrpcBlob p len BLOB_EMPTY 1 ∧ files f p = None).
Proof.
  intros Hlen. unfold mrpc_blob_create, create_blob. wp_steps.
  unfold create_temporary_file_path. destruct (tmp_dir_path_spec f) as (dir & last & -> & Hl).
  rewrite wp_bind. eapply wp_arr_get; [zlen| |].
  { replace (Z.to_nat (zlength (dir ++ [last]) - 1)) with (length dir).
    - apply list_lookup_middle. done.
    - unfold zlength. rewrite length_app. cbn [length]. lia. }
  rewrite wp_bind, wp_assert. split; [by destruct Hl as [-> | ->]|].
  eapply wp_mono; [apply unique_file_path_spec|]. intros [p f'] [Hf Hp]. cbn. eauto.
Qed.

(** Opening and closing *)
Lemma open_read_spec p c n b : blob_holds (p, c) n b → 0 < n < MAX_REFS →
  wp (mrpc_blob_open_stream (H := H) MRPC_BLOB_READ b) (λ '(r, b'), files_same b.2 b'.2 ∧
    match r with
    | Some data => blob_reading p c (n + 1) 0 (data, b')
    | None => blob_holds (p, c) n b' ∧ ¬ ReliableFiles F H
    end).
Proof.
  intros Hb Hn. destruct b as [o f]. pose proof Hb as (Heq & Hf & Hlen). cbn in Heq, Hf, Hlen.
  subst o. unfold mrpc_blob_open_stream. wp_steps.
  eapply wp_mono; [by apply blob_inc_ref_spec|].
  intros [[] [o1 f1]] [Hb1 Hf1]. cbn in Hf1. subst f1. cbn [fst snd]. wp_steps.
  cbn [bl_file_path].
  assert (wp (ff_file_open p FF_FILE_READ f) (λ '(r, f'), (files_same f f' ∧
      match r with
      | Some h => (∃ d, files f p = Some d) ∧ file_path_of h = p ∧
          file_mode_of h = FF_FILE_READ ∧ file_pos h = 0
      | None => True
      end) ∧ (ReliableFiles F H → r ≠ None))) as Hopen.
  { pose proof (file_open_read_spec p f) as Ho.
    destruct (ff_file_open p FF_FILE_READ f) as [[r f']|] eqn:E; cbn in *; [|done].
    split; [done|]. intros Hrel. pose proof (reliable_open_read p f c Hf) as Hr. by rewrite E in Hr. }
  eapply wp_mono; [exact Hopen|]. intros [r f1] [[Hf1 Hr] Hrel]. cbn [fst snd].
  destruct Hb1 as (Ho1 & _ & _). cbn in Ho1. subst o1.
  assert (files f1 p = Some c) as Hfc by (rewrite Hf1; done).
  destruct r as [h|].
  - wp_step. destruct Hr as (_ & Hp & Hm & Hpos). cbn. split; [done|].
    pose proof (zlength_nonneg c). by repeat (split; [done || lia|]).
  - rewrite wp_M_bind. eapply wp_mono.
    { apply (blob_dec_ref_spec p (zlength c) BLOB_COMPLETE c (n + 1)); [by repeat (split; [done|])|lia]. }
    intros [[] b2] [Hb2 Hf2]. cbn [fst snd] in *. wp_step. cbn in Hf2. rewrite Hf2. split; [done|].
    replace (n + 1 - 1) with n in Hb2 by lia. split; [done|]. intros Hr'. by apply Hrel in Hr'.
Qed.

Lemma open_write_spec p len d b :
  b.1 = Some (MrpcBlob p len BLOB_EMPTY 1) → 0 <= len < 2 ^ 31 →
  wp (mrpc_blob_open_stream (H := H) MRPC_BLOB_WRITE b) (λ '(r, b'),
    match r with
    | Some data => files_but p b.2 b'.2 ∧ blob_writing p len [] 2 (data, b')
    | None => files_same b.2 b'.2 ∧ b'.1 = Some (MrpcBlob p len BLOB_EMPTY 1) ∧
        ¬ ReliableFiles F H
    end).
Proof.
  clear d. destruct b as [o f]. cbn. intros -> Hlen. unfold mrpc_blob_open_stream.
  wp_steps. unfold mrpc_blob_inc_ref at 1. wp_steps. cbn [bl_ref_cnt].
  apply wp_checked_int; [unfold is_s32; lia|]. wp_steps. cbn [bl_file_path].
  assert (wp (ff_file_open p FF_FILE_WRITE f) (λ '(r, f'),
      (match r with
       | Some h => files_but p f f' ∧ files f' p = Some [] ∧ file_path_of h = p ∧
           file_mode_of h = FF_FILE_WRITE ∧ file_pos h = 0
       | None => files_same f f'
       end) ∧ (ReliableFiles F H → r ≠ None))) as Hopen.
  { pose proof (file_open_write_spec p f) as Ho.
    destruct (ff_file_open p FF_FILE_WRITE f) as [[r f']|] eqn:E; cbn in *; [|done].
    split; [done|]. intros Hrel. pose proof (reliable_open_write p f) as Hr. by rewrite E in Hr. }
  eapply wp_mono; [exact Hopen|]. intros [r f1] [Hr Hrel]. cbn [fst snd]. destruct r as [h|].
  - destruct Hr as (Hf1 & Hfp & Hp & Hm & Hpos). wp_steps. split; [done|].
    unfold blob_writing, blob_at, on_blob_file. cbn. split_and!; (done || exact (proj1 Hlen) || lia).
  - unfold mrpc_blob_dec_ref. wp_steps. split; [done|]. split; [done|].
    intros Hr'. by apply Hrel in Hr'.
Qed.
End blob_specs.

(** ** Reading and writing through blob streams *)

Section stream_specs.
Context {F H : Type} `{FFFileSpec F H}.
#[local] Abbreviation B := (option mrpc_blob * F)%type.
#[local] Abbreviation BS := (blob_stream_data H * B)%type.
Implicit Types (b : B) (st : BS) (f : F) (p : path) (d c : list byte).

(** After a failed read the position of the file is not known any more. *)
Lemma blob_read_spec p c n k len st : blob_reading p c n k st → 0 <= len →
  wp (read_from_blob_stream len st) (λ '(r, bs, st'),
    files_same st.2.2 st'.2.2 ∧ blob_holds (p, c) n st'.2 ∧ 
    match r with
    | FF_SUCCESS => zlength bs = len ∧ k + len <= zlength c ∧
        bs = take (Z.to_nat len) (drop (Z.to_nat k) c) ∧ blob_reading p c n (k + len) st'
    | FF_FAILURE => k + len <= zlength c → ¬ ReliableFiles F H
    end).
Proof.
  destruct st as [[h m pos] [o f]]. intros ((Ho & Hf & Hlen) & [Hp Hfm] & Hm & Hpos & Hfpos & Hk) Hl.
  cbn in *. subst o m pos. unfold read_from_blob_stream. wp_steps. cbn [wp stream_data fst snd].
  wp_steps. unfold stream_blob. wp_steps. cbn [bl_len bd_curr_pos].
  case_bool_decide as Hfit; [|wp_step; cbn; split_and!; (done || lia)].
  wp_steps. unfold on_file. cbn [fst snd bd_file].
  assert (wp (ff_file_read len (h, f)) (λ '(r, bs, (h', f')), (files_same f f' ∧ same_file h h' ∧
    match r with
    | FF_SUCCESS => zlength bs = len ∧ bs = take (Z.to_nat len) (drop (Z.to_nat (file_pos h)) c) ∧
        file_pos h' = file_pos h + len
    | FF_FAILURE => zlength bs <= len
    end) ∧ (ReliableFiles F H → r = FF_SUCCESS))) as Hread.
  { rewrite <- Hp in Hf. pose proof (file_read_spec len h f c Hfm Hf Hl ltac:(lia)) as Hr.
    destruct (ff_file_read len (h, f)) as [[[r bs] [h' f']]|] eqn:E; cbn in *; [|done].
    split; [done|]. intros Hrel.
    pose proof (reliable_file_read len h f c Hfm Hf Hl ltac:(lia) ltac:(lia)) as Hr'. by rewrite E in Hr'. }
  destruct (ff_file_read len (h, f)) as [[[r bs] [h' f']]|]; [|done]. cbn in Hread |- *.
  destruct Hread as [(Hsame & [Hp' Hm'] & Hr) Hrel].
  assert (files f' p = Some c) as Hfc by (rewrite Hsame; done).
  destruct r; cbn.
  - destruct Hr as (Hbs & -> & Hpos'). split; [done|]. rewrite Hfpos.
    unfold blob_reading, blob_holds, blob_at, on_blob_file. cbn. rewrite Hpos', Hp', Hm'.
    rewrite Hfpos in Hbs. split_and!; (done || lia).
  - unfold blob_holds, blob_at. cbn. split_and!; try (done || lia). intros _ Hr'. by apply Hrel in Hr'.
Qed.

Lemma blob_write_spec p len d n bs st : blob_writing p len d n st →
  wp (write_to_blob_stream bs st) (λ '(r, st'),
    files_but p st.2.2 st'.2.2 ∧
    match r with
    | FF_SUCCESS => zlength d + zlength bs <= len ∧ blob_writing p len (d ++ bs) n st'
    | FF_FAILURE => (∃ d', blob_at p len BLOB_INCOMPLETE d' n st'.2) ∧
        on_blob_file p FF_FILE_WRITE st'.1 ∧
        (zlength d + zlength bs <= len → ¬ ReliableFiles F H)
    end).
Proof.
  destruct st as [[h m pos] [o f]]. intros ((Ho & Hf & Hlen) & [Hp Hfm] & Hm & Hpos & Hfpos & Hk).
  cbn in *. subst o m pos. pose proof (zlength_nonneg bs). pose proof (zlength_nonneg d).
  unfold write_to_blob_stream. wp_steps.
  cbn [wp stream_data set_mode fst snd bd_file bd_mode bd_curr_pos].
  wp_steps. cbn [wp stream_data fst snd]. wp_steps. unfold stream_blob. wp_steps.
  cbn [bl_len bd_curr_pos].
  case_bool_decide as Hfit.
  2:{ wp_step. cbn. split; [done|]. split; [by exists d|]. split_and!; (done || lia). }
  wp_steps. unfold on_file. cbn [fst snd bd_file].
  assert (wp (ff_file_write bs (h, f)) (λ '(r, (h', f')), (files_but (file_path_of h) f f' ∧
      same_file h h' ∧
      match r with
      | FF_SUCCESS => files f' (file_path_of h) = Some (d ++ bs) ∧
          file_pos h' = file_pos h + zlength bs
      | FF_FAILURE => ∃ d', files f' (file_path_of h) = Some d'
      end) ∧ (ReliableFiles F H → r = FF_SUCCESS))) as Hwrite.
  { rewrite <- Hp in Hf. pose proof (file_write_spec bs h f d Hfm Hf Hfpos) as Hr.
    destruct (ff_file_write bs (h, f)) as [[r [h' f']]|] eqn:E; cbn in *; [|done].
    split; [done|]. intros Hrel.
    pose proof (reliable_file_write bs h f d Hfm Hf Hfpos) as Hr'. by rewrite E in Hr'. }
  destruct (ff_file_write bs (h, f)) as [[r [h' f']]|]; [|done]. cbn in Hwrite |- *.
  destruct Hwrite as [(Hbut & [Hp' Hm'] & Hr) Hrel]. rewrite Hp in *.
  destruct r; cbn; (split; [done|]).
  - destruct Hr as [Hd Hpos']. unfold blob_writing, blob_at, on_blob_file. cbn.
    rewrite Hpos', zlength_app, Hp', Hm'. split_and!; (done || lia).
  - destruct Hr as [d' Hd']. unfold on_blob_file. cbn. split; [by exists d'|].
    split_and!; try congruence. intros _ Hr'. by apply Hrel in Hr'.
Qed.

(** Flushing completes a blob all of whose bytes were written, and no other. *)
Lemma blob_flush_spec p len d n st : blob_writing p len d n st →
  wp (flush_blob_stream st) (λ '(r, st'),
    files_same st.2.2 st'.2.2 ∧ on_blob_file p FF_FILE_WRITE st'.1 ∧
    blob_at p len (if bool_decide (r = FF_SUCCESS ∧ zlength d = len) then BLOB_COMPLETE
                   else BLOB_INCOMPLETE) d n st'.2 ∧
    (ReliableFiles F H → r = FF_SUCCESS)).
Proof.
  destruct st as [[h m pos] [o f]]. intros ((Ho & Hf & Hlen) & [Hp Hfm] & Hm & Hpos & Hfpos & Hk).
  cbn in *. subst o m pos. unfold flush_blob_stream. wp_steps. cbn [wp stream_data fst snd].
  wp_steps. unfold stream_blob. wp_steps. unfold on_file. cbn [fst snd bd_file bd_curr_pos bl_len].
  pose proof (file_flush_spec h f) as Hfl. pose proof (λ R : ReliableFiles F H, reliable_file_flush h f) as Hrel.
  destruct (ff_file_flush (h, f)) as [[r [h' f']]|]; [|done]. cbn in Hfl, Hrel |- *.
  destruct Hfl as (Hsame & [Hp' Hm'] & _).
  assert (files f' p = Some d) as Hfd by (rewrite Hsame; done).
  destruct r; cbn.
  - rewrite wp_M_bind. unfold on_blob_file, blob_at. case_bool_decide as Hfull.
    + wp_steps. cbn. rewrite (bool_decide_eq_true_2 (_ ∧ _)) by done. split_and!; (done || congruence || lia).
    + wp_steps. cbn. rewrite (bool_decide_eq_false_2 (_ ∧ _)) by tauto. split_and!; (done || congruence || lia).
  - unfold on_blob_file, blob_at. cbn. rewrite bool_decide_eq_false_2 by (by intros [? _]).
    split_and!; (done || congruence || lia).
Qed.

(** Closing a stream gives its reference back. *)
Lemma delete_stream_spec p len state d n data b : blob_at p len state d n b → 1 < n →
  wp (delete_blob_stream data b) (λ '(_, b'), files_same b.2 b'.2 ∧ blob_at p len state d (n - 1) b').
Proof.
  destruct b as [o f]. intros (Ho & Hf & Hlen) Hn. cbn in *. unfold delete_blob_stream. wp_steps.
  eapply wp_mono; [apply file_close_spec|]. intros [[] f1] Hf1. cbn [fst snd].
  eapply wp_mono.
  { apply (blob_dec_ref_spec p len state d n); [|done]. by split; [|split; [rewrite Hf1|]]. }
  intros [[] [o2 f2]] [Hb2 Heq]. cbn in Heq. by subst f2.
Qed.
End stream_specs.

(** ** Copying *)

Section copying.
Context {F H S : Type} `{FFFileSpec F H} `{FFStreamSpec S}.
#[local] Abbreviation B := (option mrpc_blob * F)%type.
#[local] Abbreviation BS := (blob_stream_data H * B)%type.
Implicit Types (st : BS) (s : S) (p : path) (d c : list byte).

Lemma copy_from_blob_spec sizes p c n k st s :
  blob_reading p c n k st → stream_inv s → writable s →
  Forall (λ n, 0 <= n) sizes → k + total sizes = zlength c →
  wp (copy_chunks sizes (st, s)) (λ '(r, (st', s')),
    files_same st.2.2 st'.2.2 ∧ blob_holds (p, c) n st'.2 ∧
    wrote (drop (Z.to_nat k) c) s r s' ∧
    (ReliableFiles F H → ReliableStream S → r = FF_SUCCESS)).
Proof.
  revert k st s. induction sizes as [|m sizes IH]; intros k st s Hst Hs Hw Hsz Htot; cbn [copy_chunks].
  - cbn in Htot |- *. pose proof Hst as (Hb & _). split; [done|]. split; [done|]. split; [|done].
    rewrite drop_ge; [by apply wrote_nil|]. unfold zlength in Htot. lia.
  - apply Forall_cons in Hsz as [Hm Hsz]. pose proof (total_nonneg _ Hsz).
    change (total (m :: sizes)) with (m + total sizes) in Htot.
    pose proof Hst as (_ & _ & _ & _ & _ & Hk). wp_steps. cbn [ff_stream_read blob_stream_ops].
    eapply wp_mono; [by apply (blob_read_spec p c n k)|].
    intros [[r bs] st1] (Hf1 & Hb1 & Hr). cbn [fst snd]. destruct r; cbn [fst snd].
    2:{ wp_step. split; [done|]. split; [done|]. split.
        - split; [done|]. split; [done|]. split; [done|]. exists []. split; [apply prefix_nil|].
          by rewrite app_nil_r.
        - intros Hrel. destruct Hr; [lia|done]. }
    destruct Hr as (Hbs & Hle & -> & Hst1). wp_steps.
    eapply wp_mono; [by apply write_sends|]. intros [r s1] [Hw1 Hrel1]. cbn [fst snd].
    assert (drop (Z.to_nat k) c = take (Z.to_nat m) (drop (Z.to_nat k) c) ++
      drop (Z.to_nat (k + m)) c) as Hsplit.
    { rewrite Z2Nat.inj_add by lia. by rewrite <- drop_drop, take_drop. }
    destruct r; cbn [fst snd].
    + destruct Hw1 as (Hs1 & Hwr1 & Hi1 & Ho1).
      eapply wp_mono; [apply (IH (k + m)); [done|done|done|done|lia]|].
      intros [r [st2 s2]] (Hf2 & Hb2 & Hw2 & Hrel2).
      split; [by eapply files_same_trans|]. split; [done|]. split; [|done].
      rewrite Hsplit. by eapply wrote_app.
    + wp_step. split; [done|]. split; [done|]. split; [|auto].
      rewrite Hsplit. by apply wrote_fail.
Qed.

Lemma copy_to_blob_spec sizes p len d n st s :
  blob_writing p len d n st → stream_inv s → Forall (λ n, 0 <= n) sizes →
  zlength d + total sizes = len →
  wp (copy_chunks sizes (s, st)) (λ '(r, (s', st')),
    files_but p st.2.2 st'.2.2 ∧ on_blob_file p FF_FILE_WRITE st'.1 ∧
    match r with
    | FF_SUCCESS => ∃ bs, consumed bs s s' ∧ zlength bs = total sizes ∧
        blob_writing p len (d ++ bs) n st'
    | FF_FAILURE => undisturbed s s' ∧ ∃ d', blob_at p len BLOB_INCOMPLETE d' n st'.2
    end ∧
    (ReliableFiles F H → ReliableStream S → total sizes <= zlength (incoming s) → r = FF_SUCCESS)).
Proof.
  revert d st s. induction sizes as [|m sizes IH]; intros d st s Hst Hs Hsz Htot; cbn [copy_chunks].
  - cbn in Htot |- *. split; [done|]. pose proof Hst as (_ & Hon & _). split; [done|].
    split; [|done]. exists []. rewrite app_nil_r. split; [|done]. by unfold consumed, undisturbed.
  - apply Forall_cons in Hsz as [Hm Hsz]. pose proof (total_nonneg _ Hsz).
    change (total (m :: sizes)) with (m + total sizes) in *.
    pose proof Hst as (_ & Hon & _). wp_steps.
    pose proof (ff_stream_read_spec s m Hs Hm) as Hspec.
    pose proof (λ R : ReliableStream S, reliable_read s m Hs) as Hrel.
    destruct (ff_stream_read m s) as [[[r bs] s1]|] eqn:E; [|done]. cbn in Hspec, Hrel |- *.
    destruct r; cbn.
    2:{ destruct Hspec as [Hu _]. split; [done|]. split; [done|].
        split; [split; [done|by exists d; apply Hst]|].
        intros _ Hr Hle. apply (Hrel Hr). lia. }
    destruct Hspec as [Hc1 Hbs]. wp_steps. cbn [ff_stream_write blob_stream_ops].
    eapply wp_mono; [by apply (blob_write_spec p len d n)|].
    intros [r st1] [Hf1 Hr]. cbn [fst snd]. destruct r; cbn [fst snd].
    + destruct Hr as [Hle Hst1].
      eapply wp_mono.
      { apply (IH (d ++ bs)); [done|eauto with mrpc|done|rewrite zlength_app; lia]. }
      intros [r [s2 st2]] (Hf2 & Hon2 & Hr2 & Hrel2).
      split; [by eapply files_but_trans|]. split; [done|]. split.
      * destruct r.
        -- destruct Hr2 as (bs2 & Hc2 & Hl2 & Hst2). exists (bs ++ bs2). split; [eauto with mrpc|].
           split; [rewrite zlength_app; lia|]. by rewrite app_assoc.
        -- destruct Hr2 as [Hu2 Ho2]. split; [eauto with mrpc|done].
      * intros Hrf Hrs Hin. apply Hrel2; try done. destruct Hc1 as [_ Hc1].
        rewrite Hc1, zlength_app in Hin. lia.
    + wp_step. destruct Hr as (Ho & Hon1 & Hno). split; [done|]. split; [done|].
      split; [split; [eauto with mrpc|done]|]. intros Hrf. destruct Hno; [lia|done].
Qed.
End copying.

(** ** Serialization *)

Section serialization_specs.
Context {F H S : Type} `{FFFileSpec F H} `{FFStreamSpec S} `{FFStreamUtilSpec}.
#[local] Abbreviation B := (option mrpc_blob * F)%type.
Implicit Types (b : B) (s : S) (f : F) (p : path) (d c : list byte).

Definition blob_bytes (c : list byte) : list byte := varint (zlength c) ++ c.

(** The reads and writes of [delete_blob_stream] for a reader. *)
Lemma close_reader p c n data b : blob_holds (p, c) (n + 1) b → 0 < n →
  wp (delete_blob_stream (H := H) data b) (λ '(_, b'),
    files_same b.2 b'.2 ∧ blob_holds (p, c) n b').
Proof.
  intros Hb Hn. eapply wp_mono; [apply (delete_stream_spec p (zlength c) BLOB_COMPLETE c (n + 1)); [done|lia]|].
  intros [[] b'] [Hf Hb']. by replace (n + 1 - 1) with n in Hb' by lia.
Qed.

Lemma blob_serialize_spec p c n b s :
  blob_holds (p, c) n b → 0 < n < MAX_REFS → stream_inv s → writable s →
  wp (mrpc_blob_serialize (H := H) (b, s)) (λ '(r, (b', s')),
    blob_holds (p, c) n b' ∧ files_same b.2 b'.2 ∧ wrote (blob_bytes c) s r s' ∧
    (ReliableFiles F H → ReliableStream S → r = FF_SUCCESS)).
Proof.
  intros Hb Hn Hs Hw. unfold mrpc_blob_serialize. wp_steps.
  eapply wp_mono; [by apply (open_read_spec p c n)|]. intros [[data|] b1] [Hf1 Hb1]; cbn [fst snd].
  2:{ destruct Hb1 as [Hb1 Hno]. wp_step. do 2 (split; [done|]). split; [|by intros ?; destruct Hno].
      rewrite <- (app_nil_l (blob_bytes c)). split; [done|]. split; [done|]. split; [done|].
      exists []. split; [apply prefix_nil|by rewrite app_nil_r]. }
  pose proof Hb1 as (Hh1 & _). pose proof Hb as (_ & _ & Hlen). wp_steps.
  eapply wp_mono; [eapply (blob_get_len_spec p); [exact Hh1|cbn; lia]|].
  intros [len b2] [-> ->]. cbn [fst snd] in *. wp_steps. rewrite u32_id by (unfold is_u32; lia).
  eapply wp_mono; [apply uint32_sends; [unfold is_u32; lia|done|done]|].
  intros [r s1] [Hw1 Hr1]. cbn [fst snd]. destruct r.
  - destruct Hw1 as (Hs1 & Hwr1 & Hi1 & Ho1). wp_steps. unfold copy_from_blob, ff_stream_copy. cbn [fst snd].
    pose proof (copy_from_blob_spec (chunk_sizes (zlength c)) p c (n + 1) 0 (data, b1) s1 Hb1 Hs1 Hwr1
      (chunk_sizes_nonneg _ (proj1 Hlen)) ltac:(rewrite chunk_sizes_total by apply Hlen; done)) as Hcopy.
    destruct (copy_chunks _ _) as [[r [[data' b2] s2]]|]; [|done].
    cbn in Hcopy |- *. destruct Hcopy as (Hf2 & Hb2 & Hw2 & Hr2). wp_steps.
    eapply wp_mono; [by apply (close_reader p c n); [|lia]|]. intros [[] b3] [Hf3 Hb3]. cbn [fst snd].
    wp_step. split; [done|]. split; [by do 2 (eapply files_same_trans; [done|])|].
    split; [by eapply wrote_app|done].
  - wp_steps. eapply wp_mono; [by apply (close_reader p c n); [|lia]|].
    intros [[] b3] [Hf3 Hb3]. cbn [fst snd]. wp_step. split; [done|].
    split; [by eapply files_same_trans|]. split; [by apply wrote_fail|auto].
Qed.

(** Filling a new blob: it is complete, or destroyed without a trace. *)
Lemma fill_new_blob_spec p len s f :
  0 <= len < 2 ^ 31 → stream_inv s → files f p = None →
  wp (fill_new_blob (H := H) len (s, (Some (MrpcBlob p len BLOB_EMPTY 1), f))) (λ '(r, (s', b')),
    files_but p f b'.2 ∧
    match r with
    | FF_SUCCESS => ∃ c, consumed c s s' ∧ zlength c = len ∧ blob_holds (p, c) 1 b'
    | FF_FAILURE => undisturbed s s' ∧ b'.1 = None ∧ (ReliableFiles F H → files b'.2 p = None)
    end ∧
    (ReliableFiles F H → ReliableStream S → len <= zlength (incoming s) → r = FF_SUCCESS)).
Proof.
  intros Hlen Hs Hfresh. unfold fill_new_blob. wp_steps.
  eapply wp_mono; [by apply (open_write_spec p len [])|]. intros [[data|] b1] Hopen; cbn [fst snd].
  2:{ destruct Hopen as (Hf1 & Hb1 & Hno). destruct b1 as [o1 f1]. cbn in Hf1, Hb1. subst o1.
      unfold mrpc_blob_dec_ref, delete_blob. wp_steps. cbn.
      split; [by apply files_same_but|]. split; [split; [done|]|by intros ?; destruct Hno].
      split; [done|]. intros _. by rewrite Hf1. }
  destruct Hopen as [Hf1 Hw1]. cbn in Hf1.
  (* both references are given up when something fails *)
  assert (∀ data state d b s', state ≠ BLOB_EMPTY → blob_at p len state d 2 b → files_but p f b.2 →
    undisturbed s s' →
    (ReliableFiles F H → ReliableStream S → ¬ len <= zlength (incoming s)) →
    wp ((on_snd (delete_blob_stream (H := H) data);; on_snd mrpc_blob_dec_ref;; mret FF_FAILURE) (s', b))
      (λ '(r, (s', b')), files_but p f b'.2 ∧
        match r with
        | FF_SUCCESS => ∃ c, consumed c s s' ∧ zlength c = len ∧ blob_holds (p, c) 1 b'
        | FF_FAILURE => undisturbed s s' ∧ b'.1 = None ∧ (ReliableFiles F H → files b'.2 p = None)
        end ∧
        (ReliableFiles F H → ReliableStream S → len <= zlength (incoming s) → r = FF_SUCCESS))) as Hfail.
  { intros data' state d b s' Hne Hb Hfb Hu Hno. wp_steps.
    eapply wp_mono; [apply (delete_stream_spec p len state d 2); [done|lia]|].
    intros [[] b2] [Hf2 Hb2]. cbn [fst snd]. wp_steps.
    eapply wp_mono; [by apply (blob_dec_ref_last p len state d)|].
    intros [[] b3] (Hnone & Hf3 & _ & Herase). cbn [fst snd]. wp_step.
    split; [eapply files_but_trans; [done|]; eapply files_but_trans; [by apply files_same_but|done]|].
    split; [split; [done|split; [done|auto]]|]. intros R1 R2 Hin. by destruct (Hno R1 R2). }
  wp_steps. unfold copy_to_blob, ff_stream_copy. cbn [fst snd].
  pose proof (copy_to_blob_spec (chunk_sizes len) p len [] 2 (data, b1) s Hw1 Hs
    (chunk_sizes_nonneg _ (proj1 Hlen)) ltac:(rewrite chunk_sizes_total by apply Hlen; done)) as Hcopy.
  rewrite chunk_sizes_total in Hcopy by apply Hlen.
  destruct (copy_chunks _ _) as [[r [s2 [data2 b2]]]|]; [|done].
  cbn in Hcopy |- *. destruct Hcopy as (Hf2 & Hon2 & Hr & Hrel).
  assert (files_but p f b2.2) as Hf2' by (by eapply files_but_trans).
  destruct r.
  - destruct Hr as (c & Hc & Hcl & Hw2). wp_steps. unfold with_stream.
    pose proof (blob_flush_spec p len c 2 (data2, b2) Hw2) as Hflush.
    destruct (flush_blob_stream (data2, b2)) as [[r [data3 b3]]|]; [|done].
    cbn in Hflush |- *. destruct Hflush as (Hf3 & _ & Hb3 & Hrel3).
    assert (files_but p f b3.2) as Hf3' by (eapply files_but_trans; [done|by apply files_same_but]).
    destruct r.
    + rewrite bool_decide_eq_true_2 in Hb3 by done. wp_steps.
      eapply wp_mono; [apply (delete_stream_spec p len BLOB_COMPLETE c 2); [done|lia]|].
      intros [[] b4] [Hf4 Hb4]. cbn [fst snd]. wp_step.
      split; [eapply files_but_trans; [done|by apply files_same_but]|]. split; [|done].
      exists c. split; [done|]. split; [done|]. unfold blob_holds. cbn [fst snd]. by rewrite Hcl.
    + rewrite bool_decide_eq_false_2 in Hb3 by (by intros [? _]).
      eapply Hfail; [|exact Hb3|done|eauto with mrpc|]; [done|].
      intros R1 _ _. by specialize (Hrel3 R1).
  - destruct Hr as [Hu [d' Hb2]]. eapply Hfail; [|exact Hb2|done|done|]; [done|].
    intros R1 R2 Hin. by specialize (Hrel R1 R2 Hin).
Qed.

Lemma blob_unserialize_spec s f : stream_inv s →
  wp (mrpc_blob_unserialize (H := H) (s, f)) (λ '(r, o, (s', f')),
    match r, o with
    | FF_SUCCESS, Some cell => ∃ p c bs, blob_holds (p, c) 1 (cell, f') ∧ files f p = None ∧
        files_but p f f' ∧ consumed (bs ++ c) s s'
    | FF_SUCCESS, None => files_same f f' ∧ ∃ bs, consumed bs s s'
    | FF_FAILURE, _ => o = None ∧ undisturbed s s' ∧ (ReliableFiles F H → files_same f f')
    end).
Proof.
  intros Hs. unfold mrpc_blob_unserialize. wp_steps.
  eapply wp_mono; [by apply uint32_receives|]. intros [[[|] o] s1] Hr; cbn [fst snd].
  2:{ destruct Hr as [Hu ->]. by wp_step. }
  destruct Hr as ((bs1 & Hc1) & z & -> & Hz). case_bool_decide as Hneg; [wp_step; split; [done|eauto]|].
  pose proof (s32_range z). wp_steps. eapply wp_mono; [by apply blob_create_spec; unfold is_s32 in *; lia|].
  intros [blob f1] (Hf1 & p & -> & Hfresh). cbn [fst snd].
  assert (files f1 p = None) as Hfresh1 by (rewrite Hf1; done).
  assert (stream_inv s1) as Hs1 by eauto with mrpc. wp_steps. unfold with_new_blob. cbn [fst snd].
  pose proof (fill_new_blob_spec p (s32 z) s1 f1 ltac:(unfold is_s32 in *; lia) Hs1 Hfresh1) as Hfill.
  destruct (fill_new_blob _ _) as [[r [s2 [cell f2]]]|]; [|done]. cbn in Hfill |- *.
  destruct Hfill as (Hf2 & Hr & _). destruct r.
  - destruct Hr as (c & Hc & _ & Hb). cbn. exists p, c, bs1. split; [done|]. split; [done|].
    split; [eapply files_but_trans; [by apply files_same_but|done]|]. eauto with mrpc.
  - destruct Hr as (Hu & _ & Herase). cbn. split; [done|]. split; [eauto with mrpc|].
    intros Hrel q. destruct (decide (q = p)) as [->|Hq].
    + by rewrite (Herase Hrel).
    + by rewrite Hf2, Hf1.
Qed.

Lemma blob_unserialize_bytes `{!ReliableFiles F H} `{!ReliableStream S} c rest s f :
  zlength c < 2 ^ 31 → stream_inv s → incoming s = blob_bytes c ++ rest →
  wp (mrpc_blob_unserialize (H := H) (s, f)) (λ '(r, o, (s', f')),
    r = FF_SUCCESS ∧ ∃ cell p, o = Some cell ∧ blob_holds (p, c) 1 (cell, f') ∧
    files f p = None ∧ files_but p f f' ∧ incoming s' = rest).
Proof.
  intros Hc Hs Hin. unfold blob_bytes in Hin. rewrite <- app_assoc in Hin.
  pose proof (zlength_nonneg c). unfold mrpc_blob_unserialize. wp_steps.
  eapply wp_mono; [apply (uint32_receives_bytes (zlength c)); [unfold is_u32; lia|done|done]|].
  intros [[r o] s1] (-> & -> & Hc1 & Hin1). cbn [fst snd].
  rewrite s32_id by (unfold is_s32; lia). rewrite bool_decide_eq_false_2 by lia. wp_steps.
  eapply wp_mono; [by apply blob_create_spec; lia|].
  intros [blob f1] (Hf1 & p & -> & Hfresh). cbn [fst snd].
  assert (files f1 p = None) as Hfresh1 by (rewrite Hf1; done).
  assert (stream_inv s1) as Hs1 by eauto with mrpc. wp_steps. unfold with_new_blob. cbn [fst snd].
  pose proof (fill_new_blob_spec p (zlength c) s1 f1 ltac:(lia) Hs1 Hfresh1) as Hfill.
  destruct (fill_new_blob _ _) as [[r [s2 [cell f2]]]|]; [|done]. cbn in Hfill |- *.
  destruct Hfill as (Hf2 & Hr & Hrel).
  rewrite Hin1, zlength_app in Hrel. pose proof (zlength_nonneg rest).
  rewrite Hrel in * by (done || lia). destruct Hr as (c' & Hc' & Hl & Hb).
  destruct (consumed_take c rest c' s1 s2 Hin1 Hc') as [-> Hrest]; [unfold zlength in Hl; lia|].
  cbn. split; [done|]. exists cell, p. split; [done|]. split; [done|]. split; [done|].
  split; [eapply files_but_trans; [by apply files_same_but|done]|done].
Qed.
End serialization_specs.

#[export] Instance blob_refs_spec {F H} `{FFFileSpec F H} :
  RefCountedSpec (option mrpc_blob * F) (path * list byte).
Proof.
  split.
  - intros [p c] n b Hb Hn. eapply wp_mono; [by apply (blob_inc_ref_spec p (zlength c) BLOB_COMPLETE c n)|].
    by intros [[] b'] [Hb' _].
  - intros [p c] n b Hb Hn. case_bool_decide as Hone.
    + subst n. eapply wp_mono; [by apply (blob_dec_ref_last p (zlength c) BLOB_COMPLETE c)|].
      by intros [[] b'] [Hb' _].
    + eapply wp_mono; [apply (blob_dec_ref_spec p (zlength c) BLOB_COMPLETE c n); [done|lia]|].
      by intros [[] b'] [Hb' _].
Qed.

(** ** Files in memory *)

Record mem_file := MemFile { mf_path : path; mf_mode : ff_file_access_mode; mf_pos : Z }.

(** The file system keeps the contents in an association list; the newest entry
    of a path counts. *)
Fixpoint mem_lookup (p : path) (f : list (path * option (list byte))) : option (list byte) :=
  match f with
  | [] => None
  | (q, d) :: f => if decide (q = p) then d else mem_lookup p f
  end.

(** A path which is longer than all others. *)
Definition mem_fresh (dir : path) (f : list (path * option (list byte))) : path :=
  dir ++ replicate (S (foldr (λ e n, length e.1 + n)%nat 0%nat f)) 48.

#[export] Instance mem_files : FFFile (list (path * option (list byte))) mem_file := {
  ff_file_open p mode f :=
    match mode, mem_lookup p f with
    | FF_FILE_READ, None => Ret (None, f)
    | FF_FILE_READ, Some _ => Ret (Some (MemFile p mode 0), f)
    | FF_FILE_WRITE, _ => Ret (Some (MemFile p mode 0), (p, Some []) :: f)
    end;
  ff_file_read n '(h, f) :=
    let d := default [] (mem_lookup (mf_path h) f) in
    if bool_decide (mf_pos h + n <= zlength d)
    then Ret (FF_SUCCESS, take (Z.to_nat n) (drop (Z.to_nat (mf_pos h)) d),
              (MemFile (mf_path h) (mf_mode h) (mf_pos h + n), f))
    else Ret (FF_FAILURE, [], (h, f));
  ff_file_write bs '(h, f) :=
    let d := default [] (mem_lookup (mf_path h) f) in
    Ret (FF_SUCCESS, (MemFile (mf_path h) (mf_mode h) (mf_pos h + zlength bs),
      (mf_path h, Some (take (Z.to_nat (mf_pos h)) d ++ bs)) :: f));
  ff_file_flush '(h, f) := Ret (FF_SUCCESS, (h, f));
  ff_file_close _ f := Ret (tt, f);
  ff_file_erase p f := Ret (FF_SUCCESS, (p, None) :: f);
  ff_file_move p q f := Ret (FF_SUCCESS, (p, None) :: (q, mem_lookup p f) :: f);
  ff_arch_misc_get_tmp_dir_path _ := [47; 116; 109; 112; 47];
  ff_arch_misc_create_unique_file_path dir prefix f := Ret (mem_fresh (dir ++ prefix) f, f);
  files f p := mem_lookup p f;
  file_path_of := mf_path;
  file_mode_of := mf_mode;
  file_pos := mf_pos
}.

Lemma mem_lookup_short p f : (foldr (λ e n, length e.1 + n) 0 f < length p)%nat →
  mem_lookup p f = None.
Proof.
  induction f as [|[q d] f IH]; cbn; [done|]. intros Hl.
  rewrite decide_False by (intros ->; lia). apply IH. lia.
Qed.

#[export] Instance mem_files_spec : FFFileSpec (list (path * option (list byte))) mem_file.
Proof.
  split.
  - intros p f. cbn. unfold files_same. destruct (mem_lookup p f) eqn:E; cbn; split_and!; eauto.
  - intros p f. cbn. unfold files_but. cbn. split; [intros q Hq; by rewrite decide_False|].
    by rewrite decide_True.
  - intros n h f d Hm Hf Hn Hpos. cbn in *. rewrite Hf. cbn. unfold files_same, same_file.
    case_bool_decide as Hc; cbn; split_and!; try done. autorewrite with zlen.
    rewrite !Z2Nat.id by lia. lia.
  - intros bs h f d Hm Hf Hpos. cbn in *. rewrite Hf. cbn. unfold files_but, same_file. cbn.
    split; [intros q Hq; by rewrite decide_False|]. split; [done|]. rewrite decide_True by done.
    split; [|done]. rewrite take_ge; [done|]. rewrite Hpos. unfold zlength. lia.
  - intros h f. by cbn.
  - intros h f. by cbn.
  - intros p f. cbn. unfold files_but. cbn. split; [intros q Hq; by rewrite decide_False|].
    by rewrite decide_True.
  - intros p q f Hpq. cbn. rewrite (decide_False (P := p = q)), !decide_True by done.
    split_and!; [done..|]. intros q' H1' H2'. by rewrite !decide_False.
  - intros f. exists [47; 116; 109; 112], 47. split; [done|by left].
  - intros dir prefix f. cbn. split; [done|]. apply mem_lookup_short.
    unfold mem_fresh. rewrite length_app, length_replicate. lia.
Qed.

#[export] Instance mem_files_reliable : ReliableFiles (list (path * option (list byte))) mem_file.
Proof.
  split.
  - intros p f d Hf. cbn in *. by rewrite Hf.
  - by intros p f.
  - intros n h f d Hm Hf Hn Hpos Hle. cbn in *. rewrite Hf. cbn. by rewrite bool_decide_eq_true_2.
  - by intros bs h f d.
  - by intros h f.
  - by intros p f.
Qed.

(** ** Properties *)

(** C40.  Blobs survive the wire: a complete blob is sent as its length and its
    contents and keeps its references and its file; the receiver obtains a new
    complete blob with one reference and the same contents, in a file of its own
    which did not exist before, reads nothing else, and touches no other file. *)
Theorem blob_roundtrip {F H F' H' W R : Type} `{FFFileSpec F H} `{!ReliableFiles F H}
    `{FFFileSpec F' H'} `{!ReliableFiles F' H'} `{FFStreamSpec W} `{!ReliableStream W}
    `{FFStreamSpec R} `{!ReliableStream R} `{FFStreamUtilSpec}
    (p : path) (c : list byte) (n : Z) (b : option mrpc_blob * F) (w : W) :
  blob_holds (p, c) n b → 0 < n < MAX_REFS → stream_inv w → writable w →
  wp (mrpc_blob_serialize (H := H) (b, w)) (λ '(res, (b', w')),
    res = FF_SUCCESS ∧ blob_holds (p, c) n b' ∧ files_same b.2 b'.2 ∧
    ∃ sent, outgoing w' = outgoing w ++ sent ∧
    ∀ (f : F') (r : R) rest, stream_inv r → incoming r = sent ++ rest →
      wp (mrpc_blob_unserialize (H := H') (r, f)) (λ '(res, o, (r', f')),
        res = FF_SUCCESS ∧ incoming r' = rest ∧
        ∃ cell q, o = Some cell ∧ blob_holds (q, c) 1 (cell, f') ∧
          files f q = None ∧ files_but q f f')).
Proof.
  intros Hb Hn Hw Hwr. eapply wp_mono; [by apply (blob_serialize_spec p c n)|].
  intros [res [b' w']] (Hb' & Hf & (_ & _ & _ & Hout) & Hok). rewrite Hok in * by done.
  split; [done|]. split; [done|]. split; [done|]. exists (blob_bytes c). split; [done|].
  intros f r rest Hr Hin. destruct Hb as (_ & _ & Hlen).
  eapply wp_mono; [by apply (blob_unserialize_bytes c rest); [apply Hlen| |]|].
  intros [[res2 o] [r' f']] (-> & cell & q & -> & Hq & Hfresh & Hbut & Hrest). eauto 10.
Qed.

Definition sample_files : list (path * option (list byte)) := [([98], Some [x68; x69])].
Definition sample_blob : option mrpc_blob * list (path * option (list byte)) :=
  (Some (MrpcBlob [98] 2 BLOB_COMPLETE 1), sample_files).

Lemma blob_roundtrip_witness :
  wp (@mrpc_blob_serialize _ mem_file _ _ _ one_chunk (sample_blob, MemStream [] []))
    (λ '(res, (b', w')),
    res = FF_SUCCESS ∧ blob_holds ([98], [x68; x69]) 1 b' ∧ files_same sample_blob.2 b'.2 ∧
    ∃ sent, outgoing w' = outgoing (MemStream [] []) ++ sent ∧
    ∀ (f : list (path * option (list byte))) (r : mem_stream) rest,
      stream_inv r → incoming r = sent ++ rest →
      wp (@mrpc_blob_unserialize _ mem_file _ _ _ one_chunk (r, f)) (λ '(res, o, (r', f')),
        res = FF_SUCCESS ∧ incoming r' = rest ∧
        ∃ cell q, o = Some cell ∧ blob_holds (q, [x68; x69]) 1 (cell, f') ∧
          files f q = None ∧ files_but q f f')).
Proof.
  apply (@blob_roundtrip _ mem_file _ mem_file _ _ _ mem_files_spec mem_files_reliable
    _ mem_files_spec mem_files_reliable _ _ mem_stream_spec mem_stream_reliable
    _ _ mem_stream_spec mem_stream_reliable one_chunk one_chunk_spec
    [98] [x68; x69] 1 sample_blob (MemStream [] []));
    [split; [reflexivity | split; [reflexivity | vm_compute; intuition congruence]]
    | unfold MAX_REFS; lia | exact I | exact I].
Defined.

(** Whatever the peer sends, unserialization of a blob ends without a
    failed assertion.  When it assigns a blob, the blob is complete, has one
    reference, and its file, which did not exist before, holds the bytes which
    were read; when it fails, no blob is assigned, and on a file system which
    does not fail all files are as before; it can also succeed without assigning
    a blob (see [blob_negative_length]). *)
Lemma blob_any_input {F H S : Type} `{FFFileSpec F H} `{FFStreamSpec S} `{FFStreamUtilSpec}
    (s : S) (f : F) :
  stream_inv s →
  wp (mrpc_blob_unserialize (H := H) (s, f)) (λ '(r, o, (s', f')),
    match r, o with
    | FF_SUCCESS, Some cell => ∃ p c bs, blob_holds (p, c) 1 (cell, f') ∧ files f p = None ∧
        files_but p f f' ∧ incoming s = bs ++ c ++ incoming s'
    | FF_SUCCESS, None => files_same f f'
    | FF_FAILURE, _ => o = None ∧ outgoing s' = outgoing s ∧
        (ReliableFiles F H → files_same f f')
    end).
Proof.
  intros Hs. eapply wp_mono; [by apply blob_unserialize_spec|].
  intros [[[|] [cell|]] [s' f']].
  - intros (p & c & bs & Hb & Hfresh & Hbut & [_ Hin]). exists p, c, bs.
    by rewrite <- app_assoc in Hin.
  - by intros [? _].
  - by intros [? _].
  - by intros (_ & (_ & _ & ?) & ?).
Qed.

Lemma blob_any_input_witness :
  wp (@mrpc_blob_unserialize _ mem_file _ _ _ one_chunk (MemStream [x02; x61; x62] [], sample_files))
    (λ '(r, o, (s', f')),
    match r, o with
    | FF_SUCCESS, Some cell => ∃ p c bs, blob_holds (p, c) 1 (cell, f') ∧
        files sample_files p = None ∧ files_but p sample_files f' ∧
        incoming (MemStream [x02; x61; x62] []) = bs ++ c ++ incoming s'
    | FF_SUCCESS, None => files_same sample_files f'
    | FF_FAILURE, _ => o = None ∧ outgoing s' = outgoing (MemStream [x02; x61; x62] []) ∧
        (ReliableFiles (list (path * option (list byte))) mem_file → files_same sample_files f')
    end).
Proof.
  apply (@blob_any_input _ mem_file mem_stream _ mem_files_spec _ _ mem_stream_spec
    one_chunk one_chunk_spec (MemStream [x02; x61; x62] []) sample_files). exact I.
Defined.

(** A peer which sends a blob length of 2^31 or more makes the
    unserializer return [FF_SUCCESS] without assigning [*blob]: the error path
    for [len < 0] leaves the successful result of the length in place. *)
Lemma blob_negative_length {F H S : Type} `{FFFileSpec F H} `{FFStreamSpec S}
    `{!ReliableStream S} `{FFStreamUtilSpec} (len : Z) (rest : list byte) (s : S) (f : F) :
  2 ^ 31 <= len < 2 ^ 32 → stream_inv s → incoming s = varint len ++ rest →
  wp (mrpc_blob_unserialize (H := H) (s, f)) (λ '(r, o, (s', f')),
    r = FF_SUCCESS ∧ o = None ∧ incoming s' = rest ∧ f' = f).
Proof.
  intros Hlen Hs Hin. unfold mrpc_blob_unserialize. wp_steps.
  eapply wp_mono; [apply (uint32_receives_bytes len s rest); [unfold is_u32; lia|done|done]|].
  intros [[r o] s1] (-> & -> & Hc1 & Hin1). cbn [fst snd].
  assert (s32 len = len - 2 ^ 32) as ->.
  { unfold s32. rewrite <- (Z.mod_add _ (-1)), Z.mod_small by lia. lia. }
  rewrite bool_decide_eq_true_2 by lia. by wp_step.
Qed.

Lemma blob_negative_length_witness :
  wp (@mrpc_blob_unserialize _ mem_file _ _ _ one_chunk
        (MemStream (varint (2 ^ 31) ++ []) [], sample_files))
    (λ '(r, o, (s', f')), r = FF_SUCCESS ∧ o = None ∧ incoming s' = [] ∧ f' = sample_files).
Proof.
  apply (@blob_negative_length _ mem_file mem_stream _ mem_files_spec _ _ mem_stream_spec
    mem_stream_reliable one_chunk one_chunk_spec (2 ^ 31) []
    (MemStream (varint (2 ^ 31) ++ []) []) sample_files); [lia | exact I | reflexivity].
Defined.

(** The states of a blob: a new blob opens for writing; writes are accepted
    up to its length, in which case the file holds what was written, and
    rejected beyond it without a change; a flush makes the blob complete exactly
    when all its bytes have been written; a complete blob opens for reading. *)
Lemma blob_write_states {F H : Type} `{FFFileSpec F H} `{!ReliableFiles F H}
    (p : path) (len : Z) (bs : list byte) (f : F) :
  0 <= len < 2 ^ 31 →
  wp (mrpc_blob_open_stream (H := H) MRPC_BLOB_WRITE (Some (MrpcBlob p len BLOB_EMPTY 1), f))
    (λ '(o, b), ∃ data, o = Some data ∧
      wp (write_to_blob_stream bs (data, b)) (λ '(r, st),
        if decide (len < zlength bs) then r = FF_FAILURE
        else r = FF_SUCCESS ∧ files st.2.2 p = Some bs ∧
          wp (flush_blob_stream st) (λ '(r, st'), r = FF_SUCCESS ∧
            wp (delete_blob_stream st'.1 st'.2) (λ '(_, b'),
              if decide (zlength bs = len)
              then blob_holds (p, bs) 1 b' ∧
                wp (mrpc_blob_open_stream (H := H) MRPC_BLOB_READ b') (λ '(o', _), o' ≠ None)
              else blob_at p len BLOB_INCOMPLETE bs 1 b')))).
Proof.
  intros Hlen. eapply wp_mono; [by apply (open_write_spec p len [])|].
  intros [[data|] b]; [|intros (_ & _ & []); apply _]. intros [_ Hw]. exists data.
  split; [done|]. eapply wp_mono; [by apply (blob_write_spec p len [] 2)|].
  intros [r st] [_ Hr]. change (zlength (@nil byte)) with 0 in Hr. cbn [app] in Hr.
  case_decide as Hbig.
  { destruct r; [|done]. destruct Hr as [Hle _]. lia. }
  destruct r; [|destruct Hr as (_ & _ & []); [lia|apply _]]. destruct Hr as [_ Hst].
  split; [done|]. split; [apply Hst|].
  eapply wp_mono; [by apply (blob_flush_spec p len bs 2)|].
  intros [r [data' b']] (_ & _ & Hb' & Hok). rewrite Hok in * by done. split; [done|]. cbn [fst snd] in *.
  eapply wp_mono; [eapply delete_stream_spec; [exact Hb'|lia]|]. intros [[] b2] [_ Hb2].
  destruct (decide (zlength bs = len)) as [Hfull|Hfull].
  - rewrite bool_decide_eq_true_2 in Hb2 by done. subst len.
    assert (blob_holds (p, bs) 1 b2) as Hh by exact Hb2. split; [done|].
    eapply wp_mono; [apply (open_read_spec p bs 1); [done|unfold MAX_REFS; lia]|].
    intros [[data2|] b3]; [done|]. intros (_ & _ & []). apply _.
  - by rewrite bool_decide_eq_false_2 in Hb2 by tauto.
Qed.

Lemma blob_write_states_witness :
  wp (mrpc_blob_open_stream (H := mem_file) MRPC_BLOB_WRITE
        (Some (MrpcBlob [99] 2 BLOB_EMPTY 1), sample_files))
    (λ '(o, b), ∃ data, o = Some data ∧
      wp (write_to_blob_stream [x61; x62] (data, b)) (λ '(r, st),
        if decide (2 < zlength [x61; x62]) then r = FF_FAILURE
        else r = FF_SUCCESS ∧ files st.2.2 [99] = Some [x61; x62] ∧
          wp (flush_blob_stream st) (λ '(r, st'), r = FF_SUCCESS ∧
            wp (delete_blob_stream st'.1 st'.2) (λ '(_, b'),
              if decide (zlength [x61; x62] = 2)
              then blob_holds ([99], [x61; x62]) 1 b' ∧
                wp (mrpc_blob_open_stream (H := mem_file) MRPC_BLOB_READ b') (λ '(o', _), o' ≠ None)
              else blob_at [99] 2 BLOB_INCOMPLETE [x61; x62] 1 b')))).
Proof. apply (blob_write_states (H := mem_file) [99] 2 [x61; x62] sample_files). lia. Defined.

(** A blob keeps its contents as long as somebody holds a reference: in
    every history in which references are only used by their holders no freed
    blob is accessed and no assertion fails, and the blob is destroyed precisely
    with the last reference. *)
Lemma blob_lifetime {F H : Type} `{FFFileSpec F H} (p : path) (c : list byte) (n m : Z)
    (ops : list ref_op) (b : option mrpc_blob * F) :
  blob_holds (p, c) n b → 0 < n → holders n ops = Some m →
  wp (ref_run ops b) (λ '(_, b'), if bool_decide (m = 0) then b'.1 = None else blob_holds (p, c) m b').
Proof.
  intros Hb Hn Hops. eapply wp_mono; [by apply (ref_run_spec ops (p, c) b n m)|done].
Qed.

Lemma blob_lifetime_witness :
  wp (ref_run [IncRef; DecRef; DecRef] sample_blob) (λ '(_, b'),
    if bool_decide (0 = 0) then b'.1 = None else blob_holds ([98], [x68; x69]) 0 b').
Proof.
  apply (blob_lifetime (H := mem_file) [98] [x68; x69] 1 0 [IncRef; DecRef; DecRef] sample_blob);
    [split; [reflexivity | split; [reflexivity | vm_compute; intuition congruence]]
    | lia | reflexivity].
Defined.

(** Writing to a stream which was opened for reading is not caught: the
    first assertion of [write_to_blob_stream] assigns the mode instead of
    comparing it, so the call goes on and turns the stream into one in write
    mode, whose reads fail their assertion from then on. *)
Lemma blob_write_to_reader {F H : Type} `{FFFileSpec F H} (p : path) (c : list byte)
    (n len : Z) (st : blob_stream_data H * (option mrpc_blob * F)) :
  blob_reading p c n (zlength c) st → 0 <= len →
  wp (write_to_blob_stream [x00] st) (λ '(r, st'), r = FF_FAILURE ∧
    bd_mode st'.1 = MRPC_BLOB_WRITE ∧
    read_from_blob_stream len st' = Fault AssertionFailed).
Proof.
  destruct st as [[h m pos] [o f]]. intros ((Ho & Hf & Hlen) & [Hp Hfm] & Hm & Hpos & _ & _) Hl.
  cbn in *. subst o m pos. unfold write_to_blob_stream. wp_steps.
  cbn [wp stream_data set_mode fst snd bd_file bd_mode bd_curr_pos].
  wp_steps. cbn [wp stream_data fst snd]. wp_steps. unfold stream_blob. wp_steps.
  cbn [bl_len bd_curr_pos]. rewrite bool_decide_eq_false_2.
  2:{ change (zlength [x00]) with 1. lia. }
  wp_step. split; [done|]. split; [done|]. unfold read_from_blob_stream.
  by rewrite bool_decide_eq_true_2 by lia.
Qed.

Lemma blob_write_to_reader_witness :
  wp (write_to_blob_stream [x00]
        (BlobStreamData (MemFile [98] FF_FILE_READ 2) MRPC_BLOB_READ 2, sample_blob))
    (λ '(r, st'), r = FF_FAILURE ∧ bd_mode st'.1 = MRPC_BLOB_WRITE ∧
      read_from_blob_stream 1 st' = Fault AssertionFailed).
Proof.
  apply (blob_write_to_reader [98] [x68; x69] 1 1
    (BlobStreamData (MemFile [98] FF_FILE_READ 2) MRPC_BLOB_READ 2, sample_blob)); [|lia].
  split; [split; [reflexivity | split; [reflexivity | vm_compute; intuition congruence]]|].
  repeat split; vm_compute; congruence.
Defined.
