(* ===== verification/InterfaceLexer.v ===== *)
(** * The lexer of the interface compiler (interface-compiler/src/parser.c)

    The compiler reads the definition of an interface character by character
    out of a file: [parser_data] is the static [parser_ctx], [die] ends the
    program with a message.  The specification is the relation [spells]
    between the contents of a file and its tokens, and [remaining]: the tokens
    which the parser still has to match, the current lexeme first. *)

From Stdlib Require Import Strings.String.
From S2P Require Import Prelude.

Open Scope Z_scope.
Open Scope list_scope.

Definition MAX_LEXEME_SIZE : Z := 100.

Inductive lexeme_type :=
  | LEXEME_START
  | LEXEME_STOP
  | LEXEME_ID
  | LEXEME_OPEN_BRACE
  | LEXEME_CLOSE_BRACE.

#[export] Instance lexeme_type_eq_dec : EqDecision lexeme_type.
Proof. solve_decision. Defined.

Inductive lexer_state :=
  | STATE_START
  | STATE_IN_COMMENT
  | STATE_IN_ID.

(** [struct parser_data]; [pd_file] is what is still to be read of the file. *)
Record parser_data := ParserData {
  pd_lexeme_type : lexeme_type;
  pd_lexeme : list byte;
  pd_lexeme_len : Z;
  pd_line : Z;
  pd_pos : Z;
  pd_filename : list byte;
  pd_file : list byte
}.

(** The messages [die] ends the program with. *)
Inductive parse_error :=
  | CannotOpen (filename : list byte)
  | UnexpectedLexeme (lexeme filename : list byte) (line pos : Z) (expected : list byte)
  | TooLongLexeme (lexeme filename : list byte) (line pos : Z)
  | UnexpectedCharacter (ch : byte) (filename : list byte) (line pos : Z) (expected : list byte).

(** ** Code which works on [parser_ctx] and may [die] *)

Definition P (A : Type) : Type := parser_data → outcome (parse_error + A * parser_data).

#[export] Instance P_ret : MRet P := λ A a st, Ret (inr (a, st)).
#[export] Instance P_bind : MBind P := λ A B k m st,
  match m st with
  | Ret (inr (a, st')) => k a st'
  | Ret (inl e) => Ret (inl e)
  | Fault f => Fault f
  end.

Definition die {A} (e : parse_error) : P A := λ _, Ret (inl e).
Definition get_ctx : P parser_data := λ st, Ret (inr (st, st)).
Definition set_ctx (st : parser_data) : P unit := λ _, Ret (inr (tt, st)).
Definition eval {A} (o : outcome A) : P A := λ st,
  match o with Ret a => Ret (inr (a, st)) | Fault f => Fault f end.

(** ** The C library

    [<ctype.h>] in the "C" locale: the argument must be [EOF] or the value of
    an [unsigned char].  A plain [char] is signed. *)

Definition EOF : Z := -1.

Definition chars (s : string) : list byte := list_byte_of_string s.

Definition int_of_char (ch : byte) : Z := (Z_of_byte ch + 128) mod 256 - 128.

Definition ctype (class : Z → bool) (ch : Z) : outcome bool :=
  if bool_decide (EOF <= ch <= 255) then Ret (class ch) else Fault OutOfBounds.

Definition space_class (ch : Z) : bool := bool_decide (9 <= ch <= 13 ∨ ch = 32).
Definition alpha_class (ch : Z) : bool := bool_decide (65 <= ch <= 90 ∨ 97 <= ch <= 122).
Definition alnum_class (ch : Z) : bool := alpha_class ch || bool_decide (48 <= ch <= 57).

Definition isspace (ch : Z) : outcome bool := ctype space_class ch.
Definition isalpha (ch : Z) : outcome bool := ctype alpha_class ch.
Definition isalnum (ch : Z) : outcome bool := ctype alnum_class ch.

(** [strcmp(s, t) == 0] and [strdup], on buffers with a terminating zero. *)
Fixpoint str_equal (s t : list byte) : outcome bool :=
  match s, t with
  | a :: s', b :: t' =>
      if decide (a = b) then
        if decide (a = x00) then Ret true else str_equal s' t'
      else Ret false
  | _, _ => Fault OutOfBounds
  end.

Fixpoint strdup (s : list byte) : outcome (list byte) :=
  match s with
  | a :: s' => if decide (a = x00) then Ret [] else t ← strdup s'; Ret (a :: t)
  | [] => Fault OutOfBounds
  end.

(** A string literal. *)
Definition literal (s : string) : list byte := chars s ++ [x00].

(** ** Reading the file *)

Definition quote : list byte := [x22].

Definition lexeme_type_to_string (lexeme_type : lexeme_type) : list byte :=
  match lexeme_type with
  | LEXEME_START => chars "begin of file"
  | LEXEME_STOP => chars "end of file"
  | LEXEME_OPEN_BRACE => chars "open curly brace " ++ quote ++ chars "{" ++ quote
  | LEXEME_CLOSE_BRACE => chars "close curly brace " ++ quote ++ chars "{" ++ quote
  | LEXEME_ID => chars "identifier like [a-z][a-z0-9_]*"
  end.

Definition fail {A} (expected_str : list byte) : P A :=
  ctx ← get_ctx;
  lexeme ← eval (strdup (pd_lexeme ctx));
  die (UnexpectedLexeme lexeme (pd_filename ctx) (pd_line ctx) (pd_pos ctx) expected_str).

(** [parser_ctx.pos = pos], [parser_ctx.file] after the characters read. *)
Definition set_reader (line pos : Z) (file : list byte) : P unit :=
  ctx ← get_ctx;
  set_ctx (ParserData (pd_lexeme_type ctx) (pd_lexeme ctx) (pd_lexeme_len ctx) line pos
             (pd_filename ctx) file).

Definition read_next_char : P Z :=
  ctx ← get_ctx;
  pos ← eval (checked_int (pd_pos ctx + 1));
  match pd_file ctx with
  | [] => set_reader (pd_line ctx) pos [];; mret EOF
  | ch :: file => set_reader (pd_line ctx) pos file;; mret (Z_of_byte ch)
  end.

Definition unread_char (ch : byte) : P unit :=
  ctx ← get_ctx;
  eval (ff_assert (bool_decide (Z_of_byte ch = int_of_char ch)));;
  pos ← eval (checked_int (pd_pos ctx - 1));
  set_reader (pd_line ctx) pos (ch :: pd_file ctx).

Definition copy_current_lexeme : P (list byte) :=
  ctx ← get_ctx;
  eval (strdup (pd_lexeme ctx)).

Definition set_lexeme (lexeme_type : lexeme_type) (lexeme : list byte) (lexeme_len : Z) : P unit :=
  ctx ← get_ctx;
  set_ctx (ParserData lexeme_type lexeme lexeme_len (pd_line ctx) (pd_pos ctx)
             (pd_filename ctx) (pd_file ctx)).

Definition clear_lexeme : P unit :=
  ctx ← get_ctx;
  lexeme ← eval (arr_set (pd_lexeme ctx) 0 x00);
  set_lexeme (pd_lexeme_type ctx) lexeme 0.

Definition finalize_lexeme (lexeme_type : lexeme_type) : P unit :=
  ctx ← get_ctx;
  lexeme ← eval (arr_set (pd_lexeme ctx) (pd_lexeme_len ctx) x00);
  set_lexeme lexeme_type lexeme (pd_lexeme_len ctx).

Definition append_to_lexeme (ch : byte) : P unit :=
  ctx ← get_ctx;
  if decide (pd_lexeme_len ctx + 1 = MAX_LEXEME_SIZE) then
    finalize_lexeme LEXEME_ID;;
    ctx ← get_ctx;
    lexeme ← eval (strdup (pd_lexeme ctx));
    die (TooLongLexeme lexeme (pd_filename ctx) (pd_line ctx) (pd_pos ctx))
  else
    lexeme ← eval (arr_set (pd_lexeme ctx) (pd_lexeme_len ctx) ch);
    set_lexeme (pd_lexeme_type ctx) lexeme (pd_lexeme_len ctx + 1).

Definition inc_line_count : P unit :=
  ctx ← get_ctx;
  line ← eval (checked_int (pd_line ctx + 1));
  set_reader line 0 (pd_file ctx).

Definition init_lexer : P unit :=
  ctx ← get_ctx;
  lexeme ← eval (arr_set (pd_lexeme ctx) 0 x00);
  set_lexeme LEXEME_START lexeme 0;;
  set_reader 1 0 (pd_file ctx).

Definition is_whitespace (ch : byte) : outcome bool := isspace (int_of_char ch).

Definition is_id_first_char (ch : byte) : outcome bool := isalpha (int_of_char ch).

Definition is_id_char (ch : byte) : outcome bool :=
  is_success ← isalnum (int_of_char ch);
  Ret (is_success || bool_decide (ch = "_"%byte)).

Definition unexpected_character {A} (ch : byte) (expected : list byte) : P A :=
  ctx ← get_ctx;
  die (UnexpectedCharacter ch (pd_filename ctx) (pd_line ctx) (pd_pos ctx) expected).

(** One round of the loop of [read_next_lexeme]: the next state, or [None]
    when the function returns. *)
Definition lexer_eof (state : lexer_state) : P (option lexer_state) :=
  match state with
  | STATE_START => finalize_lexeme LEXEME_STOP;; mret None
  | STATE_IN_COMMENT => finalize_lexeme LEXEME_STOP;; mret None
  | STATE_IN_ID => finalize_lexeme LEXEME_ID;; mret None
  end.

Definition lexer_char (state : lexer_state) (ch : byte) : P (option lexer_state) :=
  if decide (ch = "#"%byte) then
    match state with
    | STATE_START => mret (Some STATE_IN_COMMENT)
    | STATE_IN_COMMENT => mret (Some state)
    | STATE_IN_ID => unread_char ch;; finalize_lexeme LEXEME_ID;; mret None
    end
  else if decide (ch = x0a) then
    inc_line_count;;
    match state with
    | STATE_START => mret (Some state)
    | STATE_IN_COMMENT => mret (Some STATE_START)
    | STATE_IN_ID => finalize_lexeme LEXEME_ID;; mret None
    end
  else if decide (ch = "{"%byte) then
    match state with
    | STATE_START =>
        append_to_lexeme "{"%byte;; finalize_lexeme LEXEME_OPEN_BRACE;; mret None
    | STATE_IN_COMMENT => mret (Some state)
    | STATE_IN_ID => unread_char ch;; finalize_lexeme LEXEME_ID;; mret None
    end
  else if decide (ch = "}"%byte) then
    match state with
    | STATE_START =>
        append_to_lexeme "}"%byte;; finalize_lexeme LEXEME_CLOSE_BRACE;; mret None
    | STATE_IN_COMMENT => mret (Some state)
    | STATE_IN_ID => unread_char ch;; finalize_lexeme LEXEME_ID;; mret None
    end
  else
    match state with
    | STATE_START =>
        whitespace ← eval (is_whitespace ch);
        if whitespace : bool then mret (Some state) else
        first_char ← eval (is_id_first_char ch);
        if first_char : bool then append_to_lexeme ch;; mret (Some STATE_IN_ID) else
        unexpected_character ch (chars "[{}\na-z]")
    | STATE_IN_COMMENT => mret (Some state)
    | STATE_IN_ID =>
        whitespace ← eval (is_whitespace ch);
        if whitespace : bool then finalize_lexeme LEXEME_ID;; mret None else
        id_char ← eval (is_id_char ch);
        if id_char : bool then append_to_lexeme ch;; mret (Some state) else
        unexpected_character ch (chars "[{}\na-z0-9_]")
    end.

Definition lexer_step (state : lexer_state) : P (option lexer_state) :=
  ch_int ← read_next_char;
  if decide (ch_int = EOF) then lexer_eof state
  else lexer_char state (byte_of_Z ch_int).

Fixpoint lexer_loop (fuel : nat) (state : lexer_state) : P unit :=
  match fuel with
  | O => eval (Fault OutOfFuel)
  | S fuel =>
      next ← lexer_step state;
      match next with
      | Some state => lexer_loop fuel state
      | None => mret tt
      end
  end.

(** Every round but the last one reads a character. *)
Definition read_next_lexeme : P unit :=
  clear_lexeme;;
  ctx ← get_ctx;
  lexer_loop (S (Datatypes.length (pd_file ctx))) STATE_START.

Definition test (lexeme_type : lexeme_type) : P bool :=
  ctx ← get_ctx;
  mret (bool_decide (pd_lexeme_type ctx = lexeme_type)).

Definition test_id (s : string) : P bool :=
  is_id ← test LEXEME_ID;
  if is_id : bool then ctx ← get_ctx; eval (str_equal (literal s) (pd_lexeme ctx))
  else mret false.

(** [match] in the source. *)
Definition match_lexeme (lexeme_type : lexeme_type) : P unit :=
  ok ← test lexeme_type;
  if ok : bool then read_next_lexeme else fail (lexeme_type_to_string lexeme_type).

Definition match_id (s : string) : P unit :=
  ok ← test_id s;
  if ok : bool then match_lexeme LEXEME_ID else fail (chars s).

(** ** Specification: the tokens which a file spells *)

Inductive token :=
  | TId (w : list byte)
  | TOpen
  | TClose.

#[export] Instance token_eq_dec : EqDecision token.
Proof. solve_decision. Defined.

Definition is_space (b : byte) : bool := space_class (int_of_char b).
Definition is_alpha (b : byte) : bool := alpha_class (int_of_char b).
Definition is_word (b : byte) : bool := alnum_class (int_of_char b) || bool_decide (b = "_"%byte).

(** A letter, then letters, digits and underscores; [MAX_LEXEME_SIZE] counts
    the terminating zero. *)
Definition identifier (w : list byte) : Prop :=
  match w with
  | c :: w' => is_alpha c ∧ Forall is_word w' ∧ zlength w < MAX_LEXEME_SIZE
  | [] => False
  end.

#[export] Instance identifier_dec w : Decision (identifier w).
Proof. destruct w; apply _. Defined.

(** An identifier goes on until a space, a brace, a comment or the end. *)
Definition ends_word (f : list byte) : Prop :=
  match f with
  | [] => True
  | b :: _ => is_space b ∨ b = "#"%byte ∨ b = "{"%byte ∨ b = "}"%byte
  end.

(** A comment goes on until the end of its line. *)
Definition ends_line (f : list byte) : Prop :=
  match f with [] => True | b :: _ => b = x0a end.

Inductive spells : list byte → list token → Prop :=
  | spells_nil : spells [] []
  | spells_space b f ts : is_space b → spells f ts → spells (b :: f) ts
  | spells_comment body f ts : x0a ∉ body → ends_line f → spells f ts →
      spells ("#"%byte :: body ++ f) ts
  | spells_open f ts : spells f ts → spells ("{"%byte :: f) (TOpen :: ts)
  | spells_close f ts : spells f ts → spells ("}"%byte :: f) (TClose :: ts)
  | spells_id w f ts : identifier w → ends_word f → spells f ts →
      spells (w ++ f) (TId w :: ts).

(** What precedes the terminating zero of a buffer. *)
Fixpoint cstring (l : list byte) : list byte :=
  match l with
  | [] => []
  | b :: l => if decide (b = x00) then [] else b :: cstring l
  end.

(** The lexeme which has been read, and what the parser has still to match. *)
Definition current (st : parser_data) : list token :=
  match pd_lexeme_type st with
  | LEXEME_START | LEXEME_STOP => []
  | LEXEME_ID => [TId (cstring (pd_lexeme st))]
  | LEXEME_OPEN_BRACE => [TOpen]
  | LEXEME_CLOSE_BRACE => [TClose]
  end.

Definition remaining (st : parser_data) (ts : list token) : Prop :=
  ∃ ts', ts = current st ++ ts' ∧ spells (pd_file st) ts'.

(** [isspace] and [isalpha] are only defined on [EOF] and on the characters
    from 0 to 127: the others may only be in comments. *)
Definition plain (b : byte) : Prop := EOF <= int_of_char b.

#[export] Instance plain_dec b : Decision (plain b).
Proof. unfold plain. apply _. Defined.

Definition next_comment (comment : bool) (b : byte) : bool :=
  if decide (b = x0a) then false else if decide (b = "#"%byte) then true else comment.

Fixpoint readable (comment : bool) (f : list byte) : bool :=
  match f with
  | [] => true
  | b :: f =>
      (comment || bool_decide (plain b)) &&
      readable (next_comment comment b) f
  end.

Record lexer_ok (st : parser_data) : Prop := {
  ok_size : zlength (pd_lexeme st) = MAX_LEXEME_SIZE;
  ok_zero : x00 ∈ pd_lexeme st;
  ok_pos : 0 <= pd_pos st;
  ok_line : 1 <= pd_line st;
  ok_file : readable false (pd_file st);
  ok_id : pd_lexeme_type st = LEXEME_ID → identifier (cstring (pd_lexeme st));
  ok_stop : pd_lexeme_type st = LEXEME_STOP → pd_file st = []
}.

(** The lexemes still to be read, at most; and a bound of [line] and [pos]. *)
Definition unread (st : parser_data) : Z :=
  match pd_lexeme_type st with LEXEME_STOP => 0 | _ => 1 end.
Definition measure (st : parser_data) : Z := zlength (pd_file st) + unread st.
Definition reach (st : parser_data) : Z :=
  pd_pos st + pd_line st + 2 * zlength (pd_file st) + 2 * unread st.

(** ** Lemmas on the characters and the strings *)

Lemma plain_ctype class b : plain b → ctype class (int_of_char b) = Ret (class (int_of_char b)).
Proof.
  intros Hb. unfold ctype. rewrite bool_decide_eq_true_2; [done|]. split; [done|].
  unfold int_of_char. pose proof (Z.mod_pos_bound (Z_of_byte b + 128) 256). lia.
Qed.

Lemma cstring_prefix l : x00 ∈ l → ∃ k, l = cstring l ++ x00 :: k.
Proof.
  induction l as [|b l IH]; cbn; [by intros ?%not_elem_of_nil|].
  intros Hin. destruct (decide (b = x00)) as [->|Hb]; [by exists l|].
  apply elem_of_cons in Hin as [<-|Hin]; [done|]. destruct (IH Hin) as [k Hk].
  exists k. by rewrite Hk at 1.
Qed.

Lemma cstring_app w k : x00 ∉ w → cstring (w ++ x00 :: k) = w.
Proof.
  induction w as [|b w IH]; cbn; [done|]. intros [Hb Hw]%not_elem_of_cons.
  rewrite decide_False by done. by rewrite IH.
Qed.

Lemma strdup_spec l : x00 ∈ l → strdup l = Ret (cstring l).
Proof.
  induction l as [|b l IH]; cbn; [by intros ?%not_elem_of_nil|]. intros Hin.
  destruct (decide (b = x00)) as [->|Hb]; [done|].
  apply elem_of_cons in Hin as [<-|Hin]; [done|]. by rewrite IH.
Qed.

Lemma str_equal_spec s l : x00 ∉ s → x00 ∈ l →
  str_equal (s ++ [x00]) l = Ret (bool_decide (cstring l = s)).
Proof.
  revert l. induction s as [|a s IH]; intros [|b l] Hs Hl; try by apply not_elem_of_nil in Hl.
  - cbn. repeat case_decide; congruence || (f_equal; symmetry; by apply bool_decide_eq_false_2).
  - apply not_elem_of_cons in Hs as [Ha Hs]. cbn. destruct (decide (a = b)) as [<-|Hab].
    + rewrite !decide_False by done. apply elem_of_cons in Hl as [<-|Hl]; [done|].
      rewrite IH by done. f_equal. apply bool_decide_ext. split; [by intros ->|by intros [= ->]].
    + case_decide; f_equal; symmetry; apply bool_decide_eq_false_2; congruence.
Qed.

Lemma identifier_no_zero w : identifier w → x00 ∉ w.
Proof.
  destruct w as [|c w]; [done|]. intros (Hc & Hw & _) [<-|Hin]%elem_of_cons; [done|].
  rewrite Forall_forall in Hw. exact (Hw _ Hin).
Qed.

(** A fact about each of the 256 characters. *)
Ltac by_bytes b :=
  destruct b; first [by intros []|intros _; repeat split; first [discriminate|by intros []]].

Lemma is_space_facts b : is_space b →
  b ≠ "#"%byte ∧ b ≠ "{"%byte ∧ b ≠ "}"%byte ∧ ¬ is_word b ∧ ¬ is_alpha b.
Proof. by_bytes b. Qed.

Lemma is_word_facts b : is_word b → b ≠ "#"%byte ∧ b ≠ "{"%byte ∧ b ≠ "}"%byte ∧ b ≠ x0a.
Proof. by_bytes b. Qed.

Lemma is_alpha_word b : is_alpha b → is_word b.
Proof. unfold is_alpha, is_word, alnum_class. by destruct (alpha_class _). Qed.

(** ** Lemmas on [spells] *)

Definition not_word (f : list byte) : Prop :=
  match f with [] => True | b :: _ => ¬ is_word b end.

Lemma ends_word_not_word f : ends_word f → not_word f.
Proof.
  destruct f as [|b f]; [done|]. cbn. intros Hb Hw.
  destruct Hb as [Hb|[Hb|[Hb|Hb]]]; [|by subst..].
  by apply is_space_facts in Hb as (_ & _ & _ & Hb & _).
Qed.

Lemma identifier_word w : identifier w → Forall is_word w.
Proof. destruct w; [done|]. intros (Hc & Hw & _). constructor; [by apply is_alpha_word|done]. Qed.

Lemma identifier_length w : identifier w → 1 <= zlength w < MAX_LEXEME_SIZE.
Proof. destruct w; [done|]. intros (_ & _ & Hl). split; [zlen|done]. Qed.

(** The longest prefix of word characters is the only one which is followed
    by something else. *)
Lemma word_prefix w f v g : Forall is_word w → w ++ f = v ++ g → not_word g →
  ∃ k, v = w ++ k ∧ f = k ++ g.
Proof.
  intros Hw Heq Hg. apply app_eq_inv in Heq as [(k & -> & ->)|(k & -> & ->)].
  - destruct k as [|b k]; [exists []; by rewrite !app_nil_r|].
    apply Forall_app in Hw as [_ Hw]. by inversion Hw.
  - by exists k.
Qed.

Lemma word_split w f v g : Forall is_word w → Forall is_word v → w ++ f = v ++ g →
  not_word f → not_word g → v = w ∧ g = f.
Proof.
  intros Hw Hv Heq Hf Hg. destruct (word_prefix w f v g) as (k & -> & ->); [done..|].
  destruct k as [|b k]; [by rewrite app_nil_r|].
  apply Forall_app in Hv as [_ Hv]. by inversion Hv.
Qed.

Lemma spells_nil_iff ts : spells [] ts ↔ ts = [].
Proof.
  split; [|intros ->; constructor]. intros H. inversion H as [| | | | |w f' ts' Hw _ _ Heq]; [done|].
  apply app_eq_nil in Heq as [-> _]. done.
Qed.

Lemma spells_cons_inv b f ts : spells (b :: f) ts →
  (is_space b ∧ spells f ts) ∨
  (b = "#"%byte ∧ ∃ body g, f = body ++ g ∧ (x0a ∉ body) ∧ ends_line g ∧ spells g ts) ∨
  (b = "{"%byte ∧ ∃ ts', ts = TOpen :: ts' ∧ spells f ts') ∨
  (b = "}"%byte ∧ ∃ ts', ts = TClose :: ts' ∧ spells f ts') ∨
  (is_alpha b ∧ ∃ w g ts', f = w ++ g ∧ identifier (b :: w) ∧ ends_word g ∧
     ts = TId (b :: w) :: ts' ∧ spells g ts').
Proof.
  intros H. inversion H as [|b' f' ts' Hb Hf|body g ts' Hbody Hg Hs|f' ts' Hf|f' ts' Hf
    |w g ts' Hw Hg Hs Heq]; subst.
  - by left.
  - right; left. eauto 10.
  - do 2 right; left. eauto.
  - do 3 right; left. eauto.
  - destruct w as [|c w]; [done|]. cbn in Heq. injection Heq as <- <-.
    do 4 right. split; [apply Hw|]. eauto 10.
Qed.

Lemma spells_space_iff b f ts : is_space b → spells (b :: f) ts ↔ spells f ts.
Proof.
  intros Hb. pose proof (is_space_facts b Hb) as (H1' & H2' & H3' & _ & H4').
  split; [|by constructor]. intros H.
  apply spells_cons_inv in H as [[_ H]|[[? _]|[[? _]|[[? _]|[? _]]]]]; done.
Qed.

Lemma spells_open_iff f ts :
  spells ("{"%byte :: f) ts ↔ ∃ ts', ts = TOpen :: ts' ∧ spells f ts'.
Proof.
  split; [|intros (ts' & -> & H); by constructor]. intros H. apply spells_cons_inv in H.
  destruct H as [[[] _]|[[? _]|[[_ H]|[[? _]|[[] _]]]]]; done.
Qed.

Lemma spells_close_iff f ts :
  spells ("}"%byte :: f) ts ↔ ∃ ts', ts = TClose :: ts' ∧ spells f ts'.
Proof.
  split; [|intros (ts' & -> & H); by constructor]. intros H. apply spells_cons_inv in H.
  destruct H as [[[] _]|[[? _]|[[? _]|[[_ H]|[[] _]]]]]; done.
Qed.

Lemma spells_comment_iff f ts : spells ("#"%byte :: f) ts ↔
  ∃ body g, f = body ++ g ∧ (x0a ∉ body) ∧ ends_line g ∧ spells g ts.
Proof.
  split; [|intros (body & g & -> & ? & ? & ?); by constructor]. intros H.
  apply spells_cons_inv in H.
  destruct H as [[[] _]|[[_ H]|[[? _]|[[? _]|[[] _]]]]]; done.
Qed.

Lemma spells_comment_end ts : spells ["#"%byte] ts ↔ ts = [].
Proof.
  rewrite spells_comment_iff. split.
  - intros (body & g & Heq & _ & _ & Hs). symmetry in Heq.
    apply app_eq_nil in Heq as [_ ->]. by apply spells_nil_iff.
  - intros ->. exists [], []. repeat split; [by apply not_elem_of_nil|constructor].
Qed.

Lemma spells_comment_newline f ts : spells ("#"%byte :: x0a :: f) ts ↔ spells f ts.
Proof.
  rewrite spells_comment_iff. split.
  - intros (body & g & Heq & Hbody & _ & Hs). destruct body as [|b body].
    + cbn in Heq. subst g. by apply spells_space_iff in Hs.
    + injection Heq as <- _. exfalso. apply Hbody. constructor.
  - intros Hs. exists [], (x0a :: f). repeat split; [by apply not_elem_of_nil|].
    by apply spells_space.
Qed.

Lemma spells_comment_skip b f ts : b ≠ x0a →
  spells ("#"%byte :: b :: f) ts ↔ spells ("#"%byte :: f) ts.
Proof.
  intros Hb. rewrite !spells_comment_iff. split; intros (body & g & Heq & Hbody & Hg & Hs).
  - destruct body as [|c body].
    + cbn in Heq. by subst g.
    + injection Heq as <- ->. apply not_elem_of_cons in Hbody as [_ Hbody]. eauto 10.
  - exists (b :: body), g. subst f. repeat split; [|done..]. by apply not_elem_of_cons.
Qed.

Lemma spells_word_inv w f ts : w ≠ [] → Forall is_word w → spells (w ++ f) ts →
  ∃ k g ts', f = k ++ g ∧ identifier (w ++ k) ∧ ends_word g ∧ ts = TId (w ++ k) :: ts' ∧
    spells g ts'.
Proof.
  destruct w as [|b w]; [done|]. intros _ Hw H. cbn in H.
  assert (is_word b) as Hb by by inversion Hw.
  pose proof (is_word_facts b Hb) as (H1' & H2' & H3' & H4').
  apply spells_cons_inv in H as [[Hs _]|[[? _]|[[? _]|[[? _]|(_ & v & g & ts' & Heq & Hv & Hg & -> & Hs)]]]];
    [|done..|].
  - by apply is_space_facts in Hs as (_ & _ & _ & Hs & _).
  - destruct (word_prefix (b :: w) f (b :: v) g) as (k & Hk & ->);
      [done|by cbn; f_equal|by apply ends_word_not_word|].
    injection Hk as ->. exists k, g, ts'. by split_and!.
Qed.

Lemma spells_id_iff w f ts : identifier w → ends_word f →
  spells (w ++ f) ts ↔ ∃ ts', ts = TId w :: ts' ∧ spells f ts'.
Proof.
  intros Hw Hf. split; [|intros (ts' & -> & H); by constructor]. intros H.
  pose proof (identifier_word w Hw) as Hww.
  apply spells_word_inv in H as (k & g & ts' & -> & Hk & Hg & -> & Hs);
    [|by intros ->|done].
  apply identifier_word, Forall_app in Hk as [_ Hk].
  apply ends_word_not_word in Hf. destruct k as [|b k].
  - rewrite app_nil_r. eauto.
  - by inversion Hk.
Qed.

Lemma spells_bad_word w b f ts : identifier w → ¬ ends_word (b :: f) → ¬ is_word b →
  ¬ spells (w ++ b :: f) ts.
Proof.
  intros Hw Hf Hb H.
  apply spells_word_inv in H as (k & g & ts' & Heq & Hk & Hg & -> & Hs);
    [|by intros ->|by apply identifier_word].
  destruct k as [|c k]; [by cbn in Heq; subst g|]. injection Heq as <- ->.
  apply identifier_word, Forall_app in Hk as [_ Hk]. by inversion Hk.
Qed.

Lemma spells_long_word w b f ts : identifier w → is_word b → zlength w + 1 = MAX_LEXEME_SIZE →
  ¬ spells (w ++ b :: f) ts.
Proof.
  intros Hw Hb Hl H.
  apply spells_word_inv in H as (k & g & ts' & Heq & Hk & Hg & -> & Hs);
    [|by intros ->|by apply identifier_word].
  destruct k as [|c k].
  - cbn in Heq. subst g. by apply ends_word_not_word in Hg.
  - apply identifier_length in Hk. zlen.
Qed.

Lemma spells_bad_char b f ts : ¬ is_space b → ¬ is_alpha b →
  b ≠ "#"%byte → b ≠ "{"%byte → b ≠ "}"%byte → ¬ spells (b :: f) ts.
Proof. 
  intros ????? H. by apply spells_cons_inv in H as [[? _]|[[? _]|[[? _]|[[? _]|[? _]]]]].
Qed.

(** ** The calculus of [P] *)

Definition wpp {A} (m : P A) (st : parser_data) (E : Prop) (Q : A → parser_data → Prop) : Prop :=
  wp (m st) (λ r, match r with inl _ => E | inr (a, st') => Q a st' end).

Section wpp.
Context {A B : Type}.
Implicit Types (m : P A) (st : parser_data) (E : Prop) (Q : A → parser_data → Prop).

Lemma wpp_bind m (k : A → P B) st E (R : B → parser_data → Prop) :
  wpp (m ≫= k) st E R ↔ wpp m st E (λ a st', wpp (k a) st' E R).
Proof. unfold wpp, mbind, P_bind. by destruct (m st) as [[|[a st']]|]. Qed.

Lemma wpp_ret a st E Q : wpp (mret a) st E Q ↔ Q a st.
Proof. done. Qed.

Lemma wpp_die e st E Q : wpp (die e) st E Q ↔ E.
Proof. done. Qed.

Lemma wpp_eval (o : outcome A) st E Q : wpp (eval o) st E Q ↔ wp o (λ a, Q a st).
Proof. by destruct o. Qed.

Lemma wpp_mono m st E E' Q Q' : wpp m st E Q → (E → E') → (∀ a st', Q a st' → Q' a st') →
  wpp m st E' Q'.
Proof. unfold wpp. destruct (m st) as [[|[a st']]|]; cbn; auto. Qed.
End wpp.

Lemma wpp_assoc {A B C} (m : P A) (k : A → P B) (h : B → P C) st E Q :
  wpp ((m ≫= k) ≫= h) st E Q ↔ wpp (m ≫= λ a, k a ≫= h) st E Q.
Proof. unfold wpp, mbind, P_bind. by destruct (m st) as [[|[a st']]|]. Qed.

Lemma wpp_get st E (Q : parser_data → parser_data → Prop) : wpp get_ctx st E Q ↔ Q st st.
Proof. done. Qed.

Lemma wpp_set st st' E (Q : unit → parser_data → Prop) : wpp (set_ctx st') st E Q ↔ Q tt st'.
Proof. done. Qed.

Ltac pp_step :=
  match goal with
  | |- wpp (_ ≫= _) _ _ _ => rewrite wpp_bind
  | |- wpp (mret _) _ _ _ => rewrite wpp_ret
  | |- wpp (die _) _ _ _ => rewrite wpp_die
  | |- wpp get_ctx _ _ _ => rewrite wpp_get
  | |- wpp (set_ctx _) _ _ _ => rewrite wpp_set
  | |- wpp (eval _) _ _ _ => rewrite wpp_eval
  end;
  cbn [pd_lexeme_type pd_lexeme pd_lexeme_len pd_line pd_pos pd_filename pd_file].
Ltac pp_steps := repeat pp_step.

(** ** The lexer *)

(** The lexer in the middle of a lexeme: [w] are the characters of the
    identifier so far. *)
Record lexing (s : lexer_state) (w : list byte) (st : parser_data) : Prop := {
  lx_size : zlength (pd_lexeme st) = MAX_LEXEME_SIZE;
  lx_len : pd_lexeme_len st = zlength w;
  lx_word : take (length w) (pd_lexeme st) = w;
  lx_pos : 0 <= pd_pos st;
  lx_line : 1 <= pd_line st;
  lx_file : readable (if s is STATE_IN_COMMENT then true else false) (pd_file st);
  lx_state : match s with STATE_IN_ID => identifier w | _ => w = [] end
}.

(** What is left of the file, with the part of it which the state stands for. *)
Definition text (s : lexer_state) (w : list byte) (f : list byte) : list byte :=
  match s with
  | STATE_START => f
  | STATE_IN_COMMENT => "#"%byte :: f
  | STATE_IN_ID => w ++ f
  end.

Definition in_word (s : lexer_state) : Z := match s with STATE_IN_ID => 1 | _ => 0 end.

(** The bounds which a state promises, see [measure] and [reach]. *)
Record within (s : lexer_state) (n r : Z) (st : parser_data) : Prop := {
  wi_length : zlength (pd_file st) + in_word s <= n;
  wi_reach : pd_pos st + pd_line st + 2 * zlength (pd_file st) + in_word s <= r;
  wi_bound : r < 2 ^ 31 - 1
}.

(** What [read_next_lexeme] leaves, when [f] is still to be read. *)
Record lexed (f : list byte) (n r : Z) (st : parser_data) : Prop := {
  ld_ok : lexer_ok st;
  ld_type : pd_lexeme_type st ≠ LEXEME_START;
  ld_spells ts : spells f ts ↔ remaining st ts;
  ld_measure : measure st <= n;
  ld_reach : reach st <= r + 1 + unread st
}.

Lemma lexer_ok_reader t l n line pos line' pos' fn f f' :
  lexer_ok (ParserData t l n line pos fn f) →
  0 <= pos' → 1 <= line' → readable false f' → (t = LEXEME_STOP → f' = []) →
  lexer_ok (ParserData t l n line' pos' fn f').
Proof. intros []; by split. Qed.

Lemma remaining_no_token t l n line pos fn f ts :
  t = LEXEME_STOP ∨ t = LEXEME_START →
  remaining (ParserData t l n line pos fn f) ts ↔ spells f ts.
Proof.
  intros Ht. unfold remaining, current; cbn.
  split; [intros (ts' & -> & H)|intros H; exists ts]; by destruct Ht as [-> | ->].
Qed.

Lemma zero_after w l : zlength w < zlength l → take (length w) l = w → x00 ∉ w →
  x00 ∈ <[length w := x00]> l ∧ cstring (<[length w := x00]> l) = w.
Proof.
  intros Hl Hw H0'. assert (length w < length l)%nat as Hl' by (unfold zlength in *; lia).
  rewrite insert_take_drop by done. rewrite Hw. split.
  - apply elem_of_app. right. constructor.
  - by apply cstring_app.
Qed.

Lemma insert_zero n (l : list byte) : (n < length l)%nat → x00 ∈ <[n := x00]> l.
Proof.
  intros Hn. rewrite insert_take_drop by done. apply elem_of_app. right. constructor.
Qed.

Lemma read_next_char_spec st E (Q : Z → parser_data → Prop) :
  0 <= pd_pos st < 2 ^ 31 - 1 →
  Q (match pd_file st with [] => EOF | ch :: _ => Z_of_byte ch end)
    (ParserData (pd_lexeme_type st) (pd_lexeme st) (pd_lexeme_len st) (pd_line st)
       (pd_pos st + 1) (pd_filename st) (tail (pd_file st))) →
  wpp read_next_char st E Q.
Proof.
  intros Hpos HQ. unfold read_next_char. pp_steps. apply wp_checked_int; [unfold is_s32; lia|].
  unfold set_reader. destruct (pd_file st) as [|ch f]; by pp_steps.
Qed.

Lemma unread_char_spec ch t l n line pos fn f E (Q : unit → parser_data → Prop) :
  Z_of_byte ch = int_of_char ch → 0 <= pos < 2 ^ 31 - 1 →
  Q tt (ParserData t l n line pos fn (ch :: f)) →
  wpp (unread_char ch) (ParserData t l n line (pos + 1) fn f) E Q.
Proof.
  intros Hch Hpos HQ. unfold unread_char. pp_steps. apply wp_assert.
  rewrite bool_decide_eq_true. split; [done|]. pp_steps.
  replace (pos + 1 - 1) with pos by lia.
  apply wp_checked_int; [unfold is_s32; lia|]. unfold set_reader. by pp_steps.
Qed.

Lemma append_spec w ch st E (Q : unit → parser_data → Prop) :
  zlength (pd_lexeme st) = MAX_LEXEME_SIZE → pd_lexeme_len st = zlength w →
  take (length w) (pd_lexeme st) = w → zlength w < MAX_LEXEME_SIZE →
  (zlength w + 1 = MAX_LEXEME_SIZE → E) →
  (∀ l, zlength w + 1 < MAX_LEXEME_SIZE → zlength l = MAX_LEXEME_SIZE →
     take (length (w ++ [ch])) l = w ++ [ch] →
     Q tt (ParserData (pd_lexeme_type st) l (zlength (w ++ [ch])) (pd_line st) (pd_pos st)
             (pd_filename st) (pd_file st))) →
  wpp (append_to_lexeme ch) st E Q.
Proof.
  intros Hs Hl Hw Hlt HE HQ. pose proof (zlength_nonneg w) as Hw0.
  assert (length w < length (pd_lexeme st))%nat as Hw1 by (unfold zlength in *; lia).
  assert (Z.to_nat (zlength w) = length w) as Hn by (unfold zlength; lia).
  unfold append_to_lexeme, finalize_lexeme, set_lexeme. pp_step. pp_step. rewrite Hl.
  case_decide as Hmax.
  - pp_steps. apply wp_arr_set; [lia|]. pp_steps. rewrite strdup_spec; [by apply HE|].
    rewrite Hl, Hn. by apply insert_zero.
  - pp_steps. apply wp_arr_set; [lia|]. pp_steps. rewrite Hn.
    replace (zlength w + 1) with (zlength (w ++ [ch])) by zlen.
    apply HQ; [lia|by rewrite zlength_insert|].
    rewrite length_app, Nat.add_1_r. rewrite (take_S_r _ _ ch); [|by apply list_lookup_insert_eq].
    by rewrite take_insert_ge, Hw by lia.
Qed.

(** The loop returns at the end of the file, at a brace and at the end of an
    identifier. *)
Lemma finalize_stop_spec s t l line pos fn n r E : lexing s [] (ParserData t l 0 line pos fn []) →
  s ≠ STATE_IN_ID → 0 <= n → pos + line <= r + 1 →
  wpp (finalize_lexeme LEXEME_STOP) (ParserData t l 0 line pos fn []) E
    (λ _ st', lexed (text s [] []) n r st').
Proof.
  intros [Hs _ _ Hpos Hline _ _] Hid Hn Hr. cbn in Hs, Hpos, Hline.
  unfold finalize_lexeme, set_lexeme. pp_steps. apply wp_arr_set; [cbn; rewrite Hs; done|]. pp_steps.
  split.
  - split; cbn; try done; [by rewrite zlength_insert|]. apply insert_zero.
    unfold zlength, MAX_LEXEME_SIZE in Hs. lia.
  - done.
  - intros ts. rewrite remaining_no_token by by left. rewrite spells_nil_iff.
    destruct s; cbn; [apply spells_nil_iff|apply spells_comment_end|done].
  - done.
  - unfold reach, unread, zlength. cbn. lia.
Qed.

Lemma finalize_id_spec w st f n r E : lexing STATE_IN_ID w st → ends_word f →
  (∀ ts, spells f ts ↔ spells (pd_file st) ts) → zlength (pd_file st) + 1 <= n →
  pd_pos st + pd_line st + 2 * zlength (pd_file st) <= r →
  wpp (finalize_lexeme LEXEME_ID) st E (λ _ st', lexed (w ++ f) n r st').
Proof.
  intros [Hs Hl Hw Hpos Hline Hf Hid] Hend Hsp Hn Hr.
  pose proof (identifier_length w Hid) as Hlen.
  destruct (zero_after w (pd_lexeme st)) as [Hz Hc]; [lia|done|by apply identifier_no_zero|].
  unfold finalize_lexeme, set_lexeme. pp_steps. apply wp_arr_set; [lia|]. pp_steps. rewrite Hl.
  replace (Z.to_nat (zlength w)) with (length w) by (unfold zlength; lia).
  split.
  - split; cbn; try done; [by rewrite zlength_insert|by rewrite Hc].
  - done.
  - intros ts. rewrite spells_id_iff by done. unfold remaining, current; cbn. rewrite Hc.
    split; intros (ts' & -> & H); exists ts'; by split; [|apply Hsp].
  - unfold measure, unread. cbn. lia.
  - unfold reach, unread. cbn. lia.
Qed.

Lemma text_identifier s w ch : match s with STATE_IN_ID => identifier w | _ => w = [] end →
  s ≠ STATE_IN_COMMENT → (s = STATE_START → is_alpha ch) → is_word ch →
  zlength w + 1 < MAX_LEXEME_SIZE → identifier (w ++ [ch]).
Proof.
  intros Hw Hs Ha Hch Hl. destruct s; [|done|].
  - subst w. split; [by apply Ha|]. by split.
  - destruct w as [|c w]; [done|]. destruct Hw as (Hc & Hw & _). split; [done|].
    split; [apply Forall_app; split; [done|by constructor]|]. rewrite <- app_comm_cons in *. zlen.
Qed.

Lemma byte_of_Z_not_EOF ch : Z_of_byte ch ≠ EOF.
Proof. pose proof (Z_of_byte_range ch). unfold EOF. lia. Qed.

(** What one round of the loop leaves. *)
Definition stepped (s : lexer_state) (w f : list byte) (n r : Z) (next : option lexer_state)
    (st' : parser_data) : Prop :=
  match next with
  | Some s' => ∃ w', lexing s' w' st' ∧ within s' n r st' ∧
      zlength (pd_file st') < zlength f ∧
      ∀ ts, spells (text s w f) ts ↔ spells (text s' w' (pd_file st')) ts
  | None => lexed (text s w f) n r st'
  end.

Definition no_tokens (f : list byte) : Prop := ∀ ts, ¬ spells f ts.

Lemma lexer_step_EOF s w st n r : lexing s w st → within s n r st → pd_file st = [] →
  wpp (lexer_step s) st (no_tokens (text s w [])) (stepped s w [] n r).
Proof.
  intros Hlx Hwi Hf. pose proof Hlx as [Hs Hl Hw Hpos Hline _ Hid]. destruct Hwi as [H1' H2' H3'].
  unfold lexer_step. pp_step. pose proof (zlength_nonneg (pd_file st)).
  assert (0 <= in_word s) by by destruct s. rewrite Hf in *.
  apply read_next_char_spec; [lia|]. rewrite Hf. rewrite decide_True by done. cbn [tail].
  unfold lexer_eof.
  destruct st as [t l len line pos fn f]; cbn in *; subst f.
  destruct s; pp_step; cbn in Hid, H1', H2'; change (zlength []) with 0 in *.
  - subst w. cbn in Hl; subst len.
    eapply wpp_mono; [apply (finalize_stop_spec STATE_START _ _ _ _ _ n r)|done|done];
      [split; cbn; (done || lia)|done|lia..].
  - subst w. cbn in Hl; subst len.
    eapply wpp_mono; [apply (finalize_stop_spec STATE_IN_COMMENT _ _ _ _ _ n r)|done|done];
      [split; cbn; (done || lia)|done|lia..].
  - eapply wpp_mono; [apply (finalize_id_spec w _ [] n r)|done|done];
      [split; cbn; (done || lia)|done..|unfold zlength; cbn; lia|unfold zlength; cbn; lia].
Qed.

Lemma inc_line_count_spec st E (Q : unit → parser_data → Prop) :
  1 <= pd_line st < 2 ^ 31 - 1 →
  Q tt (ParserData (pd_lexeme_type st) (pd_lexeme st) (pd_lexeme_len st) (pd_line st + 1) 0
         (pd_filename st) (pd_file st)) →
  wpp inc_line_count st E Q.
Proof.
  intros Hl HQ. unfold inc_line_count, set_reader. pp_steps.
  apply wp_checked_int; [unfold is_s32; lia|]. by pp_steps.
Qed.

(** The state after the character [ch] has been read, and goes on in [s']. *)
Lemma stepped_some s w ch t l n line pos fn f line' pos' l' n' s' w' N R :
  lexing s w (ParserData t l n line pos fn (ch :: f)) →
  within s N R (ParserData t l n line pos fn (ch :: f)) →
  line' + pos' <= line + pos + 1 → 0 <= pos' → 1 <= line' →
  zlength l' = MAX_LEXEME_SIZE → n' = zlength w' → take (length w') l' = w' →
  readable (if s' is STATE_IN_COMMENT then true else false) f →
  match s' with STATE_IN_ID => identifier w' | _ => w' = [] end →
  (∀ ts, spells (text s w (ch :: f)) ts ↔ spells (text s' w' f) ts) →
  stepped s w (ch :: f) N R (Some s') (ParserData t l' n' line' pos' fn f).
Proof.
  intros _ [Hn Hr Hb] H1' H2' H3' Hl' Hn' Hw' Hf Hs' Hts. cbn in *.
  exists w'. rewrite zlength_cons in *. assert (0 <= in_word s) by by destruct s.
  assert (in_word s' <= 1) by by destruct s'.
  split_and!; [by split|split; cbn; lia|cbn; lia|done].
Qed.

Lemma lexer_char_comment w ch t l n line pos fn f N R :
  lexing STATE_IN_COMMENT w (ParserData t l n line pos fn (ch :: f)) →
  within STATE_IN_COMMENT N R (ParserData t l n line pos fn (ch :: f)) →
  wpp (lexer_char STATE_IN_COMMENT ch) (ParserData t l n line (pos + 1) fn f)
    (no_tokens (text STATE_IN_COMMENT w (ch :: f))) (stepped STATE_IN_COMMENT w (ch :: f) N R).
Proof.
  intros Hlx Hwi. pose proof Hlx as [Hs Hl Hw Hpos Hline Hf Hid]. cbn in *.
  pose proof Hwi as [_ Hr Hb]; cbn in Hr. pose proof (zlength_nonneg (ch :: f)).
  unfold next_comment in Hf.
  assert (ch ≠ x0a → wpp (mret (Some STATE_IN_COMMENT)) (ParserData t l n line (pos + 1) fn f)
    (no_tokens ("#"%byte :: ch :: f)) (stepped STATE_IN_COMMENT w (ch :: f) N R)) as Hskip.
  { intros Hch. apply wpp_ret. rewrite decide_False in Hf by done.
    eapply stepped_some; try done; try lia; [by case_decide|].
    intros ts. by apply spells_comment_skip. }
  unfold lexer_char. destruct (decide (ch = x0a)) as [->|Hch].
  - rewrite decide_False by done. cbv iota. pp_step. apply inc_line_count_spec; [cbn; zlen|].
    pp_step. eapply stepped_some; try done; try lia. intros ts. apply spells_comment_newline.
  - repeat case_decide; by apply Hskip.
Qed.

Lemma plain_whitespace ch : plain ch → is_whitespace ch = Ret (is_space ch).
Proof. apply plain_ctype. Qed.

Lemma plain_first_char ch : plain ch → is_id_first_char ch = Ret (is_alpha ch).
Proof. apply plain_ctype. Qed.

Lemma plain_id_char ch : plain ch → is_id_char ch = Ret (is_word ch).
Proof. intros Hch. unfold is_id_char, isalnum. by rewrite plain_ctype. Qed.

(** A brace is a lexeme of its own. *)
Lemma lexer_brace ch lt tok t l line pos fn f N R E :
  lexing STATE_START [] (ParserData t l 0 line pos fn (ch :: f)) →
  within STATE_START N R (ParserData t l 0 line pos fn (ch :: f)) →
  lt = LEXEME_OPEN_BRACE ∧ tok = TOpen ∨ lt = LEXEME_CLOSE_BRACE ∧ tok = TClose →
  readable false f →
  (∀ ts, spells (ch :: f) ts ↔ ∃ ts', ts = tok :: ts' ∧ spells f ts') →
  wpp (append_to_lexeme ch;; finalize_lexeme lt;; mret (@None lexer_state))
    (ParserData t l 0 line (pos + 1) fn f) E (stepped STATE_START [] (ch :: f) N R).
Proof.
  intros [Hs _ _ Hpos Hline _ _] [Hn Hr Hb] Hlt Hf Hts. cbn in Hs, Hpos, Hline, Hn, Hr.
  pp_step. apply (append_spec []); [done..| |].
  - by intros ?.
  - intros l' _ Hl' Hw. pp_step. unfold finalize_lexeme, set_lexeme. pp_steps.
    apply wp_arr_set; [cbn; rewrite Hl'; done|]. pp_steps.
    rewrite zlength_cons in *. split.
    + split; cbn; try done; try lia; [by rewrite zlength_insert|
        |by destruct Hlt as [[-> _]|[-> _]]..].
      apply insert_zero. unfold zlength, MAX_LEXEME_SIZE in *. cbn [length Z.of_nat Z.to_nat]. lia.
    + by destruct Hlt as [[-> _]|[-> _]].
    + intros ts. cbn. rewrite Hts. unfold remaining, current.
      by destruct Hlt as [[-> ->]|[-> ->]].
    + unfold measure, unread. cbn. destruct lt; lia.
    + unfold reach, unread. cbn. destruct lt; lia.
Qed.

Lemma lexer_append s w ch t l n line pos fn f N R :
  lexing s w (ParserData t l n line pos fn (ch :: f)) →
  within s N R (ParserData t l n line pos fn (ch :: f)) →
  s ≠ STATE_IN_COMMENT → is_word ch → (s = STATE_START → is_alpha ch) →
  readable false f →
  wpp (append_to_lexeme ch;; mret (Some STATE_IN_ID)) (ParserData t l n line (pos + 1) fn f)
    (no_tokens (text s w (ch :: f))) (stepped s w (ch :: f) N R).
Proof.
  intros Hlx Hwi Hsc Hch Halpha Hf. pose proof Hlx as [Hs Hl Hw Hpos Hline _ Hid]; cbn in *.
  assert (zlength w < MAX_LEXEME_SIZE) as Hlen.
  { destruct s; [by subst w|done|by apply identifier_length in Hid as [_ ?]]. }
  pp_step. apply (append_spec w); try done.
  - intros Hmax ts. destruct s; [by subst w|done|]. by apply spells_long_word.
  - intros l' Hlt Hl' Hw'. pp_step. eapply stepped_some; try done; try lia.
    + by eapply text_identifier.
    + intros ts. destruct s; [by subst w|done|]. cbn. by rewrite <- app_assoc.
Qed.

Lemma lexer_char_start w ch t l n line pos fn f N R :
  lexing STATE_START w (ParserData t l n line pos fn (ch :: f)) →
  within STATE_START N R (ParserData t l n line pos fn (ch :: f)) →
  wpp (lexer_char STATE_START ch) (ParserData t l n line (pos + 1) fn f)
    (no_tokens (text STATE_START w (ch :: f))) (stepped STATE_START w (ch :: f) N R).
Proof.
  intros Hlx Hwi. pose proof Hlx as [Hs Hl Hw Hpos Hline Hf Hid]. cbn in *. subst w.
  cbn in Hl. subst n. pose proof Hwi as [_ Hr Hb]; cbn in Hr. pose proof (zlength_nonneg (ch :: f)).
  unfold next_comment in Hf. apply andb_True in Hf as [Hplain Hf].
  apply bool_decide_unpack in Hplain.
  unfold lexer_char. destruct (decide (ch = "#"%byte)) as [->|H1'].
  { pp_step. eapply stepped_some; try done; lia. }
  destruct (decide (ch = x0a)) as [->|H2'].
  { pp_step. apply inc_line_count_spec; [cbn; zlen|]. pp_step.
    eapply stepped_some; try done; try lia. intros ts. by apply spells_space_iff. }
  destruct (decide (ch = "{"%byte)) as [->|H3'].
  { eapply lexer_brace; try done; [by left|]. intros ts. apply spells_open_iff. }
  destruct (decide (ch = "}"%byte)) as [->|H4'].
  { eapply lexer_brace; try done; [by right|]. intros ts. apply spells_close_iff. }
  rewrite plain_whitespace, plain_first_char by done. pp_steps. cbn [wp].
  destruct (is_space ch) eqn:Hsp; pp_steps.
  { eapply stepped_some; try done; try lia. intros ts. apply spells_space_iff. by rewrite Hsp. }
  cbn [wp]. destruct (is_alpha ch) eqn:Hal.
  - eapply (lexer_append STATE_START []); try done; [apply is_alpha_word|]; by rewrite Hal.
  - unfold unexpected_character. pp_steps. intros ts.
    apply spells_bad_char; try done; rewrite ?Hsp, ?Hal; by intros [].
Qed.

Lemma lexer_char_id w ch t l n line pos fn f N R :
  lexing STATE_IN_ID w (ParserData t l n line pos fn (ch :: f)) →
  within STATE_IN_ID N R (ParserData t l n line pos fn (ch :: f)) →
  wpp (lexer_char STATE_IN_ID ch) (ParserData t l n line (pos + 1) fn f)
    (no_tokens (text STATE_IN_ID w (ch :: f))) (stepped STATE_IN_ID w (ch :: f) N R).
Proof.
  intros Hlx Hwi. pose proof Hlx as [Hs Hl Hw Hpos Hline Hf Hid]; cbn in Hs, Hl, Hw, Hpos, Hline.
  pose proof Hwi as [Hn Hr Hb]; cbn in Hr, Hn. pose proof (zlength_nonneg (ch :: f)).
  cbn in Hf. pose proof Hf as Hcf. unfold next_comment in Hf.
  apply andb_True in Hf as [Hplain Hf]. apply bool_decide_unpack in Hplain.
  assert (ends_word (ch :: f) → Z_of_byte ch = int_of_char ch →
    wpp (unread_char ch;; finalize_lexeme LEXEME_ID;; mret (@None lexer_state))
      (ParserData t l n line (pos + 1) fn f)
      (no_tokens (w ++ ch :: f)) (stepped STATE_IN_ID w (ch :: f) N R)) as Hunread.
  { intros Hend Hch. pp_step. apply unread_char_spec; [done|zlen|]. pp_step.
    eapply wpp_mono; [apply (finalize_id_spec w _ (ch :: f) N R)|done|done]; try done; cbn; lia. }
  assert (∀ line' pos', is_space ch → readable false f → line' + pos' <= line + pos + 1 →
    0 <= pos' → 1 <= line' →
    wpp (finalize_lexeme LEXEME_ID;; mret (@None lexer_state)) (ParserData t l n line' pos' fn f)
      (no_tokens (w ++ ch :: f)) (stepped STATE_IN_ID w (ch :: f) N R)) as Hspace.
  { intros line' pos' Hsp Hf' H1' H2' H3'. rewrite zlength_cons in *. pp_step.
    eapply wpp_mono; [apply (finalize_id_spec w _ (ch :: f) N R)|done|done];
      try done; cbn; try lia; [by left|]. intros ts. by apply spells_space_iff. }
  unfold lexer_char. destruct (decide (ch = "#"%byte)) as [->|H1'].
  { apply Hunread; [|done]. cbn. tauto. }
  destruct (decide (ch = x0a)) as [->|H2'].
  { pp_step. apply inc_line_count_spec; [cbn; zlen|]. cbn. apply Hspace; try done; lia. }
  destruct (decide (ch = "{"%byte)) as [->|H3'].
  { apply Hunread; [|done]. cbn. tauto. }
  destruct (decide (ch = "}"%byte)) as [->|H4'].
  { apply Hunread; [|done]. cbn. tauto. }
  rewrite plain_whitespace by done. pp_steps. cbn [wp].
  destruct (is_space ch) eqn:Hsp; [apply Hspace; done || lia|].
  rewrite plain_id_char by done. pp_steps. cbn [wp]. destruct (is_word ch) eqn:Hword.
  - eapply lexer_append; try done. by rewrite Hword.
  - unfold unexpected_character. pp_steps. intros ts.
    apply spells_bad_word; [done| |rewrite Hword; by intros []]. cbn. rewrite Hsp. intros [[]|?]; tauto.
Qed.

Lemma lexer_step_spec s w st N R : lexing s w st → within s N R st →
  wpp (lexer_step s) st (no_tokens (text s w (pd_file st))) (stepped s w (pd_file st) N R).
Proof.
  intros Hlx Hwi. destruct (pd_file st) as [|ch f] eqn:Hf; [by apply lexer_step_EOF|].
  destruct st as [t l n line pos fn f']; cbn in Hf; subst f'.
  pose proof Hlx as [_ _ _ Hpos Hline _ _]. pose proof Hwi as [_ Hr Hb]. cbn in Hpos, Hline, Hr.
  assert (0 <= in_word s) by by destruct s. pose proof (zlength_nonneg (ch :: f)).
  unfold lexer_step. pp_step. apply read_next_char_spec; [cbn; lia|]. cbn [pd_file tail].
  rewrite decide_False, byte_of_Z_of_byte by apply byte_of_Z_not_EOF. destruct s.
  - by apply lexer_char_start.
  - by apply lexer_char_comment.
  - by apply lexer_char_id.
Qed.

Lemma lexer_loop_spec fuel s w st N R : lexing s w st → within s N R st →
  (length (pd_file st) < fuel)%nat →
  wpp (lexer_loop fuel s) st (no_tokens (text s w (pd_file st))) (λ _, lexed (text s w (pd_file st)) N R).
Proof.
  revert s w st. induction fuel as [|fuel IH]; intros s w st Hlx Hwi Hfuel; [lia|].
  cbn [lexer_loop]. pp_step. eapply wpp_mono; [by apply (lexer_step_spec s w st N R)|done|].
  intros [s'|] st'; [|by intros H]. intros (w' & Hlx' & Hwi' & Hlt & Hts).
  eapply wpp_mono; [apply (IH s' w'); [done..|unfold zlength in Hlt; lia]|..].
  - intros Hno ts Hts'. by apply (Hno ts), Hts.
  - intros _ st2 [H1' H2' H3' H4' H5']. split; [done..| |done|done]. intros ts. by rewrite Hts.
Qed.

(** ** The operations of the parser on lexemes *)

(** Neither the end of a file nor its text is far away: [line] and [pos] stay
    in the range of [int]. *)
Definition MAX_REACH : Z := 2 ^ 31 - 3.

Lemma unread_bound st : 0 <= unread st <= 1.
Proof. unfold unread. destruct (pd_lexeme_type st); lia. Qed.

Lemma read_next_lexeme_spec st : lexer_ok st → reach st <= MAX_REACH →
  wpp read_next_lexeme st (no_tokens (pd_file st)) (λ _ st',
    lexer_ok st' ∧ pd_lexeme_type st' ≠ LEXEME_START ∧
    (∀ ts, spells (pd_file st) ts ↔ remaining st' ts) ∧
    measure st' <= measure st - unread st ∧ reach st' <= reach st + 1 - unread st).
Proof.
  intros [Hs Hz Hpos Hline Hf Hid Hstop] Hreach. unfold reach, MAX_REACH in Hreach.
  unfold read_next_lexeme, clear_lexeme, set_lexeme. pp_steps.
  apply wp_arr_set; [by rewrite Hs|]. pp_steps.
  assert (unread st = 1 ∨ unread st = 0 ∧ zlength (pd_file st) = 0) as Hu.
  { unfold unread. destruct (pd_lexeme_type st); try by left. right. by rewrite Hstop. }
  pose proof (zlength_nonneg (pd_file st)).
  eapply wpp_mono; [eapply (lexer_loop_spec _ STATE_START [] _ (zlength (pd_file st))
    (pd_pos st + pd_line st + 2 * zlength (pd_file st)))|done|].
  - split; cbn; try done. by rewrite zlength_insert.
  - split; cbn; lia.
  - cbn. lia.
  - cbn. intros _ st' [Hok Ht Hsp Hm Hr]. do 3 (split; [done|]).
    pose proof (unread_bound st') as Hu'. pose proof (zlength_nonneg (pd_file st')).
    unfold measure, reach in *. lia.
Qed.

(** From [st] to [st'] the parser has matched [toks]. *)
Record advance (st : parser_data) (toks : list token) (st' : parser_data) : Prop := {
  adv_ok : lexer_ok st';
  adv_type : pd_lexeme_type st' ≠ LEXEME_START;
  adv_remaining ts : remaining st ts ↔ ∃ ts', ts = toks ++ ts' ∧ remaining st' ts';
  adv_measure : measure st' + zlength toks <= measure st;
  adv_reach : reach st' <= reach st
}.

Lemma advance_refl st : lexer_ok st → pd_lexeme_type st ≠ LEXEME_START → advance st [] st.
Proof.
  intros Hok Ht. split; [done|done| |zlen|lia]. intros ts. split; [eauto|]. by intros (ts' & -> & H).
Qed.

Lemma advance_trans st a st1 b st2 :
  advance st a st1 → advance st1 b st2 → advance st (a ++ b) st2.
Proof.
  intros [Hok1 _ Hrem1 Hm1 Hr1] [Hok2 Ht2 Hrem2 Hm2 Hr2]. split; [done|done| |zlen|lia].
  intros ts. rewrite Hrem1. setoid_rewrite Hrem2. split.
  - intros (ts1 & -> & ts2 & -> & H). exists ts2. by rewrite <- app_assoc.
  - intros (ts2 & -> & H). exists (b ++ ts2). rewrite <- app_assoc. eauto.
Qed.

(** A state the parser can go on from. *)
Record ready (st : parser_data) : Prop := {
  ready_ok : lexer_ok st;
  ready_reach : reach st <= MAX_REACH;
  ready_type : pd_lexeme_type st ≠ LEXEME_START
}.

Lemma advance_ready st toks st' : ready st → advance st toks st' → ready st'.
Proof. intros [_ Hr _] [Hok Ht _ _ Hr']. split; [done|lia|done]. Qed.

Lemma fail_spec {A} s st (E : Prop) (Q : A → parser_data → Prop) :
  lexer_ok st → E → wpp (fail s) st E Q.
Proof. intros Hok HE. unfold fail. pp_steps. by rewrite strdup_spec by apply Hok. Qed.

Lemma copy_current_lexeme_spec st E (Q : list byte → parser_data → Prop) :
  lexer_ok st → Q (cstring (pd_lexeme st)) st → wpp copy_current_lexeme st E Q.
Proof. intros Hok HQ. unfold copy_current_lexeme. pp_steps. by rewrite strdup_spec by apply Hok. Qed.

Lemma test_spec lt st E (Q : bool → parser_data → Prop) :
  Q (bool_decide (pd_lexeme_type st = lt)) st → wpp (test lt) st E Q.
Proof. done. Qed.

Lemma test_id_spec s st E (Q : bool → parser_data → Prop) : lexer_ok st → x00 ∉ chars s →
  Q (bool_decide (current st = [TId (chars s)])) st → wpp (test_id s) st E Q.
Proof.
  intros Hok Hs HQ. unfold test_id. pp_step. apply test_spec.
  destruct (decide (pd_lexeme_type st = LEXEME_ID)) as [Ht|Ht].
  - rewrite bool_decide_eq_true_2 by done. pp_steps. unfold literal.
    rewrite str_equal_spec by (done || apply Hok). cbn. unfold current in HQ. rewrite Ht in HQ.
    by rewrite (bool_decide_ext _ ([TId (cstring (pd_lexeme st))] = [TId (chars s)]))
      by (split; [by intros ->|by intros [= ->]]).
  - rewrite bool_decide_eq_false_2 by done. pp_step. rewrite bool_decide_eq_false_2 in HQ; [done|].
    unfold current. by destruct (pd_lexeme_type st).
Qed.

(** [match] of a lexeme which is not the end of the file. *)
Lemma match_spec lt st : lexer_ok st → reach st <= MAX_REACH → lt ≠ LEXEME_STOP →
  wpp (match_lexeme lt) st (pd_lexeme_type st = lt → ∀ ts, ¬ remaining st ts)
    (λ _ st', pd_lexeme_type st = lt ∧ advance st (current st) st').
Proof.
  intros Hok Hr Hlt. unfold match_lexeme. pp_step. apply test_spec. case_bool_decide as Ht.
  - eapply wpp_mono; [by apply read_next_lexeme_spec|..].
    + intros Hno _ ts (ts' & -> & Hts). by apply (Hno ts').
    + intros _ st' (Hok' & Ht' & Hts & Hm & Hr'). split; [done|].
      assert (unread st = 1) as Hu. { unfold unread. subst lt. by destruct (pd_lexeme_type st). }
      split; [done|done| | |lia].
      * intros ts. unfold remaining at 1. by setoid_rewrite Hts.
      * assert (zlength (current st) <= 1); [|lia]. unfold current.
        by destruct (pd_lexeme_type st).
  - by apply fail_spec.
Qed.

Lemma match_stop_spec st : ready st → wpp (match_lexeme LEXEME_STOP) st
  (pd_lexeme_type st ≠ LEXEME_STOP) (λ _ st', pd_lexeme_type st = LEXEME_STOP).
Proof.
  intros [Hok Hr _]. unfold match_lexeme. pp_step. apply test_spec. case_bool_decide as Ht.
  - eapply wpp_mono; [by apply read_next_lexeme_spec|..]; [|done].
    intros Hno. exfalso. apply (Hno []). rewrite (ok_stop _ Hok Ht). constructor.
  - by apply fail_spec.
Qed.

Lemma remaining_cons st t ts : pd_lexeme_type st ≠ LEXEME_START → lexer_ok st →
  remaining st (t :: ts) → current st = [t].
Proof.
  intros Ht Hok (ts' & Heq & H). unfold current in *. destruct (pd_lexeme_type st) eqn:E; try done.
  - rewrite (ok_stop _ Hok E) in H. apply spells_nil_iff in H. by subst.
  - by injection Heq as -> _.
  - by injection Heq as -> _.
  - by injection Heq as -> _.
Qed.
