(* ===== verification/InterfaceParser.v ===== *)
(** * The parser of the interface compiler (interface-compiler/src/parser.c)

    The recursive descent which turns the lexemes of a file into the
    [interface] of types.h.  The specification is a [grammar]: the tokens of
    every construct, with the proof that they determine it.  [parses] relates
    a function of the parser to the grammar of what it returns. *)

From Stdlib Require Import Strings.String.
From S2P Require Import Prelude InterfaceLexer.

Open Scope Z_scope.
Open Scope list_scope.

Inductive param_type :=
  | PARAM_UINT32
  | PARAM_INT32
  | PARAM_UINT64
  | PARAM_INT64
  | PARAM_CHAR_ARRAY
  | PARAM_WCHAR_ARRAY
  | PARAM_BLOB.

#[export] Instance param_type_eq_dec : EqDecision param_type.
Proof. solve_decision. Defined.

(** The linked lists of types.h are lists. *)
Record param := Param {
  p_type : param_type;
  p_is_key : Z;
  p_name : list byte
}.

Record method := Method {
  m_request_params : list param;
  m_response_params : list param;
  m_name : list byte
}.

Record interface := Interface {
  i_methods : list method;
  i_name : list byte
}.

Inductive params_type :=
  | REQUEST_PARAMS
  | RESPONSE_PARAMS.

#[export] Instance params_type_eq_dec : EqDecision params_type.
Proof. solve_decision. Defined.

(** The chain of [test_id] of [match_param]. *)
Fixpoint test_types (types : list (string * param_type)) : P param_type :=
  match types with
  | [] => fail (chars "parameter type")
  | (s, t) :: types =>
      found ← test_id s;
      if found : bool then mret t else test_types types
  end.

Definition param_types : list (string * param_type) :=
  [("uint32"%string, PARAM_UINT32); ("int32"%string, PARAM_INT32);
   ("uint64"%string, PARAM_UINT64); ("int64"%string, PARAM_INT64);
   ("char_array"%string, PARAM_CHAR_ARRAY); ("wchar_array"%string, PARAM_WCHAR_ARRAY);
   ("blob"%string, PARAM_BLOB)].

Definition match_param (params_type : params_type) : P param :=
  is_key ← match params_type with
           | REQUEST_PARAMS =>
               key ← test_id "key";
               if key : bool then match_lexeme LEXEME_ID;; mret 1 else mret 0
           | RESPONSE_PARAMS => mret 0
           end;
  type ← test_types param_types;
  match_lexeme LEXEME_ID;;
  name ← copy_current_lexeme;
  match_lexeme LEXEME_ID;;
  mret (Param type is_key name).

(** The loop of [match_params]; [entries] is the list from [first_entry] to
    [last_entry]. *)
Fixpoint match_params_loop (fuel : nat) (params_type : params_type) (entries : list param) :
    P (list param) :=
  match fuel with
  | O => eval (Fault OutOfFuel)
  | S fuel =>
      closed ← test LEXEME_CLOSE_BRACE;
      if closed : bool then mret entries
      else
        param ← match_param params_type;
        match_params_loop fuel params_type (entries ++ [param])
  end.

(** Every parameter takes lexemes, which are not more than the characters of
    the file and the current one. *)
Definition file_fuel : P nat :=
  ctx ← get_ctx;
  mret (S (S (Datatypes.length (pd_file ctx)))).

Definition match_params (params_type : params_type) : P (list param) :=
  match params_type with
  | REQUEST_PARAMS => match_id "request"
  | RESPONSE_PARAMS => match_id "response"
  end;;
  match_lexeme LEXEME_OPEN_BRACE;;
  fuel ← file_fuel;
  entries ← match_params_loop fuel params_type [];
  match_lexeme LEXEME_CLOSE_BRACE;;
  mret entries.

Definition match_method : P method :=
  match_id "method";;
  name ← copy_current_lexeme;
  match_lexeme LEXEME_ID;;
  match_lexeme LEXEME_OPEN_BRACE;;
  request_params ← match_params REQUEST_PARAMS;
  response_params ← match_params RESPONSE_PARAMS;
  match_lexeme LEXEME_CLOSE_BRACE;;
  mret (Method request_params response_params name).

Fixpoint match_methods_loop (fuel : nat) (entries : list method) : P (list method) :=
  match fuel with
  | O => eval (Fault OutOfFuel)
  | S fuel =>
      more ← test_id "method";
      if more : bool then
        method ← match_method;
        match_methods_loop fuel (entries ++ [method])
      else mret entries
  end.

Definition match_methods : P (list method) :=
  method ← match_method;
  fuel ← file_fuel;
  match_methods_loop fuel [method].

Definition match_interface : P interface :=
  match_lexeme LEXEME_START;;
  match_id "interface";;
  name ← copy_current_lexeme;
  match_lexeme LEXEME_ID;;
  match_lexeme LEXEME_OPEN_BRACE;;
  methods ← match_methods;
  match_lexeme LEXEME_CLOSE_BRACE;;
  match_lexeme LEXEME_STOP;;
  mret (Interface methods name).

(** [file] is the contents of the file, [None] when it cannot be opened. *)
Definition parse_interface (filename : list byte) (file : option (list byte)) : P interface :=
  ctx ← get_ctx;
  match file with
  | None => die (CannotOpen filename)
  | Some contents =>
      set_ctx (ParserData (pd_lexeme_type ctx) (pd_lexeme ctx) (pd_lexeme_len ctx) (pd_line ctx)
                 (pd_pos ctx) filename contents);;
      init_lexer;;
      match_interface
  end.

(** The static [parser_ctx] before the first call. *)
Definition parser_ctx : parser_data :=
  ParserData LEXEME_START (replicate 100 x00) 0 0 0 [] [].

(** ** Specification: grammars

    The tokens of the constructs, a proof that no construct's tokens begin
    another's. *)

Record grammar (A : Type) := Grammar {
  tokens : A → list token;
  valid : A → Prop;
  unambiguous a b ts us : valid a → valid b → tokens a ++ ts = tokens b ++ us → a = b ∧ ts = us
}.
Arguments tokens {A} g a : rename.
Arguments valid {A} g a : rename.
Arguments unambiguous {A} g a b ts us : rename.

Definition word (s : string) : token := TId (chars s).

Definition type_word (t : param_type) : token :=
  match t with
  | PARAM_UINT32 => word "uint32"
  | PARAM_INT32 => word "int32"
  | PARAM_UINT64 => word "uint64"
  | PARAM_INT64 => word "int64"
  | PARAM_CHAR_ARRAY => word "char_array"
  | PARAM_WCHAR_ARRAY => word "wchar_array"
  | PARAM_BLOB => word "blob"
  end.

Definition param_tokens (p : param) : list token :=
  (if decide (p_is_key p = 1) then [word "key"] else []) ++
  [type_word (p_type p); TId (p_name p)].

Definition param_valid (pt : params_type) (p : param) : Prop :=
  (p_is_key p = 0 ∨ p_is_key p = 1 ∧ pt = REQUEST_PARAMS) ∧ identifier (p_name p).

Definition params_word (pt : params_type) : token :=
  match pt with REQUEST_PARAMS => word "request" | RESPONSE_PARAMS => word "response" end.

Definition params_tokens (pt : params_type) (ps : list param) : list token :=
  [params_word pt; TOpen] ++ concat (param_tokens <$> ps) ++ [TClose].

Definition method_tokens (m : method) : list token :=
  [word "method"; TId (m_name m); TOpen] ++
  params_tokens REQUEST_PARAMS (m_request_params m) ++
  params_tokens RESPONSE_PARAMS (m_response_params m) ++ [TClose].

Definition method_valid (m : method) : Prop :=
  identifier (m_name m) ∧ Forall (param_valid REQUEST_PARAMS) (m_request_params m) ∧
  Forall (param_valid RESPONSE_PARAMS) (m_response_params m).

Definition interface_tokens (i : interface) : list token :=
  [word "interface"; TId (i_name i); TOpen] ++ concat (method_tokens <$> i_methods i) ++ [TClose].

Definition interface_valid (i : interface) : Prop :=
  identifier (i_name i) ∧ Forall method_valid (i_methods i) ∧ i_methods i ≠ [].

#[export] Instance param_valid_dec pt p : Decision (param_valid pt p).
Proof. unfold param_valid. apply _. Defined.
#[export] Instance method_valid_dec m : Decision (method_valid m).
Proof. unfold method_valid. apply _. Defined.
#[export] Instance interface_valid_dec i : Decision (interface_valid i).
Proof. unfold interface_valid. apply _. Defined.

(** ** The constructs are determined by their tokens *)

Definition token_grammar (t : token) : grammar unit.
Proof. refine (Grammar unit (λ _, [t]) (λ _, True) _). by intros [] [] ts us _ _ [= ->]. Defined.

Lemma type_word_inj t u : type_word t = type_word u → t = u.
Proof. by destruct t, u. Qed.

Lemma type_word_not_key t : type_word t ≠ word "key".
Proof. by destruct t. Qed.

Lemma param_unambiguous pt p q ts us : param_valid pt p → param_valid pt q →
  param_tokens p ++ ts = param_tokens q ++ us → p = q ∧ ts = us.
Proof.
  destruct p as [t k w], q as [t' k' w']. unfold param_valid, param_tokens; cbn.
  intros [Hk _] [Hk' _]. repeat case_decide; cbn [app]; intros [= Heq].
  - subst. split; [|done]. f_equal. by apply type_word_inj.
  - by destruct t'.
  - by destruct t.
  - subst. assert (k = k') as -> by lia. split; [|done]. f_equal. by apply type_word_inj.
Qed.

Definition param_grammar (pt : params_type) : grammar param :=
  Grammar param param_tokens (param_valid pt) (param_unambiguous pt).

(** A list of constructs which all begin with an identifier, up to the closing
    brace. *)
Section block.
Context {A : Type} (g : grammar A).
Hypothesis starts : ∀ a, ∃ w ts, tokens g a = TId w :: ts.

Definition block_tokens (l : list A) : list token := concat (tokens g <$> l) ++ [TClose].

Lemma block_cons a l : block_tokens (a :: l) = tokens g a ++ block_tokens l.
Proof. unfold block_tokens. cbn. by rewrite <- app_assoc. Qed.

Lemma block_unambiguous l k ts us : Forall (valid g) l → Forall (valid g) k →
  block_tokens l ++ ts = block_tokens k ++ us → l = k ∧ ts = us.
Proof.
  intros Hl. revert k. induction Hl as [|a l Ha Hl IH]; intros k Hk Heq.
  - destruct k as [|b k]; [by injection Heq as ->|].
    rewrite block_cons in Heq. destruct (starts b) as (w & x & Hb). by rewrite Hb in Heq.
  - rewrite block_cons in Heq. destruct Hk as [|b k Hb Hk].
    + destruct (starts a) as (w & x & Ha'). by rewrite Ha' in Heq.
    + rewrite block_cons, <- !app_assoc in Heq.
      apply (unambiguous g) in Heq as [-> Heq]; [|done..].
      by apply IH in Heq as [-> ->].
Qed.

(** The constructs read so far are the first ones of the block. *)
Lemma block_prefix ms l ts us : Forall (valid g) ms → Forall (valid g) l →
  concat (tokens g <$> ms) ++ ts = block_tokens l ++ us →
  ∃ k, l = ms ++ k ∧ ts = block_tokens k ++ us.
Proof.
  intros Hms. revert l. induction Hms as [|a ms Ha Hms IH]; intros l Hl Heq; [by exists l|].
  cbn in Heq. rewrite <- app_assoc in Heq. destruct Hl as [|b l Hb Hl].
  - destruct (starts a) as (w & x & Ha'). by rewrite Ha' in Heq.
  - rewrite block_cons, <- app_assoc in Heq. apply (unambiguous g) in Heq as [<- Heq]; [|done..].
    apply IH in Heq as (k & -> & ->); [|done]. by exists k.
Qed.

Definition begins_block (ts : list token) : Prop :=
  ∃ l us, Forall (valid g) l ∧ ts = block_tokens l ++ us.

Lemma begins_block_cases ts : begins_block ts → (∃ us, ts = TClose :: us) ∨
  ∃ a us, valid g a ∧ ts = tokens g a ++ us ∧ begins_block us.
Proof.
  intros ([|a l] & us & Hl & ->); [left; by exists us|right].
  inversion Hl; subst. exists a, (block_tokens l ++ us). rewrite block_cons, <- app_assoc.
  split_and!; [done..|]. by exists l, us.
Qed.

Lemma begins_block_tail a ts : valid g a → begins_block (tokens g a ++ ts) → begins_block ts.
Proof.
  intros Ha [[us Heq]|(b & us & Hb & Heq & Hus)]%begins_block_cases.
  - destruct (starts a) as (w & x & Ha'). by rewrite Ha' in Heq.
  - by apply (unambiguous g) in Heq as [_ ->].
Qed.
End block.

Lemma param_starts pt p : ∃ w ts, tokens (param_grammar pt) p = TId w :: ts.
Proof.
  cbn. unfold param_tokens. case_decide; [eauto|]. destruct (p_type p); cbn; unfold word; eauto.
Qed.

Lemma params_unambiguous pt ps qs ts us :
  Forall (param_valid pt) ps → Forall (param_valid pt) qs →
  params_tokens pt ps ++ ts = params_tokens pt qs ++ us → ps = qs ∧ ts = us.
Proof.
  intros Hp Hq Heq. injection Heq as Heq.
  eapply (block_unambiguous (param_grammar pt) (param_starts pt)); [done..|].
  unfold block_tokens. cbn [tokens param_grammar]. by rewrite <- !app_assoc in *.
Qed.

Definition params_grammar (pt : params_type) : grammar (list param) :=
  Grammar (list param) (params_tokens pt) (Forall (param_valid pt)) (params_unambiguous pt).

Lemma header_unambiguous a b w w' ts us :
  [a; TId w; b] ++ ts = [a; TId w'; b] ++ us → w = w' ∧ ts = us.
Proof. by intros [= -> ->]. Qed.

Lemma method_unambiguous m m' ts us : method_valid m → method_valid m' →
  method_tokens m ++ ts = method_tokens m' ++ us → m = m' ∧ ts = us.
Proof.
  destruct m as [req resp w], m' as [req' resp' w'].
  intros (_ & Hq & Hp) (_ & Hq' & Hp'); cbn in Hq, Hp, Hq', Hp'.
  unfold method_tokens; cbn [m_request_params m_response_params m_name].
  rewrite <- !app_assoc. intros [-> Heq]%header_unambiguous.
  apply params_unambiguous in Heq as [-> Heq]; [|done..].
  apply params_unambiguous in Heq as [-> Heq]; [|done..]. by injection Heq as ->.
Qed.

Definition method_grammar : grammar method :=
  Grammar method method_tokens method_valid method_unambiguous.

Lemma method_starts m : ∃ w ts, tokens method_grammar m = TId w :: ts.
Proof. cbn. unfold word. eauto. Qed.

Lemma interface_unambiguous i j ts us : interface_valid i → interface_valid j →
  interface_tokens i ++ ts = interface_tokens j ++ us → i = j ∧ ts = us.
Proof.
  destruct i as [ms w], j as [ms' w']. intros (_ & Hm & _) (_ & Hm' & _). cbn in Hm, Hm'.
  unfold interface_tokens; cbn [i_methods i_name].
  rewrite <- !app_assoc. intros [-> Heq]%header_unambiguous.
  destruct (block_unambiguous method_grammar method_starts ms ms' ts us) as [-> ->]; try done.
  unfold block_tokens. by rewrite <- !app_assoc.
Qed.

Definition interface_grammar : grammar interface :=
  Grammar interface interface_tokens interface_valid interface_unambiguous.

(** ** Parsing: the rules

    [refuted st L]: the tokens which the parser still has to match are not in
    [L].  A function fails only in states which refute all it may match. *)

Definition refuted (st : parser_data) (L : list token → Prop) : Prop :=
  ∀ ts, L ts → ¬ remaining st ts.

Definition begins {A} (g : grammar A) (ts : list token) : Prop :=
  ∃ a ts', valid g a ∧ ts = tokens g a ++ ts'.

Definition parses {A} (g : grammar A) (m : P A) (st : parser_data) : Prop :=
  wpp m st (refuted st (begins g)) (λ a st', valid g a ∧ advance st (tokens g a) st').

Lemma refuted_mono st (L L' : list token → Prop) : (∀ ts, L' ts → L ts) →
  refuted st L → refuted st L'.
Proof. intros HL H ts Hts. by apply H, HL. Qed.

(** One function after the other. *)
Lemma advance_bind {A B} (toks : A → list token) (R : A → parser_data → Prop)
    (m : P A) (k : A → P B) st L Q :
  wpp m st (refuted st L) (λ a st', R a st' ∧ advance st (toks a) st') →
  (∀ a st', R a st' → advance st (toks a) st' →
     wpp (k a) st' (refuted st' (λ ts, L (toks a ++ ts))) Q) →
  wpp (m ≫= k) st (refuted st L) Q.
Proof.
  intros Hm Hk. rewrite wpp_bind. eapply wpp_mono; [exact Hm|done|].
  intros a st' [Ha Hadv]. eapply wpp_mono; [by apply Hk| |done].
  intros H ts Hts Hrem. apply Hadv in Hrem as (ts' & -> & Hrem). by apply (H ts').
Qed.

Lemma parse_bind {A B} (g : grammar A) (m : P A) (k : A → P B) st L Q :
  parses g m st → (∀ ts, L ts → remaining st ts → begins g ts) →
  (∀ a st', valid g a → advance st (tokens g a) st' →
     wpp (k a) st' (refuted st' (λ ts, L (tokens g a ++ ts))) Q) →
  wpp (m ≫= k) st (refuted st L) Q.
Proof.
  intros Hm HL Hk. eapply (advance_bind (tokens g) (λ a _, valid g a)); [|done].
  eapply wpp_mono; [exact Hm| |done]. intros H ts Hts Hrem. by eapply H; [apply HL|].
Qed.

(** A lexeme of a fixed spelling. *)
Lemma parse_lexeme lt t st : ready st → lt ≠ LEXEME_STOP →
  (pd_lexeme_type st = lt ↔ current st = [t]) →
  parses (token_grammar t) (match_lexeme lt) st.
Proof.
  intros [Hok Hr Ht] Hlt Hcur. eapply wpp_mono; [by apply match_spec|..].
  - intros Hno ts (a & ts' & _ & ->) Hrem. pose proof (remaining_cons _ _ _ Ht Hok Hrem) as Hc.
    by apply (Hno (proj2 Hcur Hc) _ Hrem).
  - intros [] st' [Hl Ha]. split; [done|]. apply Hcur in Hl. by rewrite Hl in Ha.
Qed.

Lemma current_open st : pd_lexeme_type st = LEXEME_OPEN_BRACE ↔ current st = [TOpen].
Proof. unfold current. by destruct (pd_lexeme_type st). Qed.

Lemma current_close st : pd_lexeme_type st = LEXEME_CLOSE_BRACE ↔ current st = [TClose].
Proof. unfold current. by destruct (pd_lexeme_type st). Qed.

Lemma parse_open st : ready st → parses (token_grammar TOpen) (match_lexeme LEXEME_OPEN_BRACE) st.
Proof. intros Hst. apply parse_lexeme; [done..|apply current_open]. Qed.

Lemma parse_close st : ready st →
  parses (token_grammar TClose) (match_lexeme LEXEME_CLOSE_BRACE) st.
Proof. intros Hst. apply parse_lexeme; [done..|apply current_close]. Qed.

Lemma current_id st w : current st = [TId w] →
  pd_lexeme_type st = LEXEME_ID ∧ cstring (pd_lexeme st) = w.
Proof. unfold current. by destruct (pd_lexeme_type st); intros [= ->]. Qed.

(** The current lexeme once it is known to be the identifier [w]. *)
Lemma parse_current w st : ready st → current st = [TId w] →
  parses (token_grammar (TId w)) (match_lexeme LEXEME_ID) st.
Proof. intros Hst Hw. apply parse_lexeme; [done..|]. apply current_id in Hw as H'. tauto. Qed.

Lemma parse_word s st : ready st → x00 ∉ chars s →
  parses (token_grammar (word s)) (match_id s) st.
Proof.
  intros Hst Hs. pose proof Hst as [Hok _ Ht]. unfold parses, match_id. rewrite wpp_bind.
  apply test_id_spec; [done..|]. case_bool_decide as Hc; [by apply parse_current|].
  apply fail_spec; [done|]. intros ts (a & ts' & _ & ->) Hrem. by apply Hc, (remaining_cons _ _ ts').
Qed.

(** The name of a construct is the lexeme before it is matched. *)
Lemma parse_name {B} (k : list byte → P B) st L Q : ready st →
  (∀ ts, L ts → ∃ w ts', ts = TId w :: ts') →
  (∀ w st', identifier w → advance st [TId w] st' →
     wpp (k w) st' (refuted st' (λ ts, L (TId w :: ts))) Q) →
  wpp (name ← copy_current_lexeme; match_lexeme LEXEME_ID;; k name) st (refuted st L) Q.
Proof.
  intros Hst HL Hk. pose proof Hst as [Hok Hr Ht]. rewrite wpp_bind.
  apply copy_current_lexeme_spec; [done|]. rewrite wpp_bind.
  eapply wpp_mono; [by apply match_spec|..].
  - intros Hno ts Hts Hrem. destruct (HL ts Hts) as (w & ts' & ->).
    pose proof (remaining_cons _ _ _ Ht Hok Hrem) as [Hid _]%current_id. by apply (Hno Hid _ Hrem).
  - intros _ st' [Hid Ha]. unfold current in Ha. rewrite Hid in Ha.
    eapply wpp_mono; [apply Hk; [by apply ok_id|done]| |done].
    intros H ts Hts Hrem. apply Ha in Hrem as (ts' & -> & Hrem). by apply (H ts').
Qed.

(** ** The functions of the parser parse their grammars *)

Lemma test_types_spec types st : ready st → Forall (λ st, x00 ∉ chars st.1) types →
  wpp (test_types types) st (∀ s t ts, (s, t) ∈ types → ¬ remaining st (word s :: ts))
    (λ t st', st' = st ∧ ∃ s, (s, t) ∈ types ∧ current st = [word s]).
Proof.
  intros Hst. pose proof Hst as [Hok _ Ht].
  induction types as [|[s t] types IH]; intros Htypes; cbn [test_types].
  - apply fail_spec; [done|]. by intros s t ts ?%not_elem_of_nil.
  - inversion Htypes as [|? ? Hs Hrest]; subst. rewrite wpp_bind.
    apply test_id_spec; [done..|]. case_bool_decide as Hc.
    + split; [done|]. exists s. split; [constructor|done].
    + eapply wpp_mono; [by apply IH|..].
      * intros Hno s' t' ts [[= -> ->]|Hin]%elem_of_cons Hrem; [|by eapply Hno].
        by apply Hc, (remaining_cons _ _ ts).
      * intros t' st' [-> (s' & Hin & Hs')]. split; [done|]. exists s'. split; [by constructor|done].
Qed.

Lemma param_types_no_zero : Forall (λ st, x00 ∉ chars st.1) param_types.
Proof. apply (bool_decide_unpack _). by vm_compute. Qed.

Lemma param_types_word s t : (s, t) ∈ param_types → word s = type_word t.
Proof.
  assert (Forall (λ st, word st.1 = type_word st.2) param_types) as H by (by repeat constructor).
  rewrite Forall_forall in H. exact (H (s, t)).
Qed.

Lemma param_types_all t : ∃ s, (s, t) ∈ param_types ∧ word s = type_word t.
Proof.
  assert (∃ s, (s, t) ∈ param_types) as [s Hs]; [|exists s; by eauto using param_types_word].
  destruct t; eexists; unfold param_types; repeat (apply elem_of_cons; first [by left|right]).
Qed.

(** A parameter after its [key], if any. *)
Definition typed (ts : list token) : Prop :=
  ∃ t w ts', identifier w ∧ ts = type_word t :: TId w :: ts'.

Lemma match_param_type st k L : ready st → (∀ ts, L ts → typed ts) →
  wpp (type ← test_types param_types;
       match_lexeme LEXEME_ID;;
       name ← copy_current_lexeme;
       match_lexeme LEXEME_ID;;
       mret (Param type k name)) st (refuted st L)
    (λ p st', ∃ t w, p = Param t k w ∧ identifier w ∧ advance st [type_word t; TId w] st').
Proof.
  intros Hst HL. rewrite wpp_bind.
  eapply wpp_mono; [apply test_types_spec; [done|apply param_types_no_zero]|..].
  - intros Hno ts Hts. destruct (HL ts Hts) as (t & w & ts' & _ & ->).
    destruct (param_types_all t) as (s & Hs & <-). by eapply Hno.
  - intros t st' [-> (s & Hs & Hc)]. apply param_types_word in Hs. rewrite Hs in Hc.
    apply (parse_bind (token_grammar (type_word t))).
    + destruct t; by apply parse_current.
    + intros ts (u & w & ts' & _ & ->)%HL Hrem.
      apply remaining_cons in Hrem; [|apply Hst..]. rewrite Hc in Hrem. injection Hrem as ->.
      by exists tt, (TId w :: ts').
    + intros [] st1 _ Ha. apply parse_name; [by eapply advance_ready|..].
      * intros ts (u & w & ts' & _ & [= _ ->])%HL. eauto.
      * intros w st2 Hw Ha'. exists t, w. split_and!; [done..|].
        by apply (advance_trans _ [_] _ [_] _ Ha Ha').
Qed.

Lemma begins_param pt ts : begins (param_grammar pt) ts →
  (pt = REQUEST_PARAMS ∧ ∃ ts', ts = word "key" :: ts' ∧ typed ts') ∨ typed ts.
Proof.
  intros (p & ts' & [Hk Hn] & ->). cbn. unfold param_tokens, typed.
  destruct Hk as [Hk|[Hk ->]]; rewrite Hk; cbn; [right|left; split; [done|]]; eauto 10.
Qed.

Lemma typed_not_key ts : ¬ typed (word "key" :: ts).
Proof. intros (t & w & ts' & _ & [= Heq _]). by destruct (type_word_not_key t). Qed.

(** A parameter which is no key. *)
Lemma match_param_plain pt st : ready st → (pt = REQUEST_PARAMS → current st ≠ [word "key"]) →
  wpp (type ← test_types param_types; match_lexeme LEXEME_ID;;
    name ← copy_current_lexeme; match_lexeme LEXEME_ID;; mret (Param type 0 name)) st
  (refuted st (begins (param_grammar pt)))
  (λ p st', param_valid pt p ∧ advance st (param_tokens p) st').
Proof.
  intros Hst Hkey. eapply wpp_mono; [by apply (match_param_type st 0 typed)|..].
  - intros H ts [[Hpt (us & -> & _)]|Hty]%begins_param Hrem; [|by apply (H _ Hty)].
    apply remaining_cons in Hrem; [|apply Hst..]. by apply Hkey.
  - intros p st' (t & w & -> & Hw & Ha). split; [|done]. split; [by left|done].
Qed.

(** A parameter whose current lexeme is [key]. *)
Lemma match_param_key st : ready st → current st = [word "key"] →
  wpp (match_lexeme LEXEME_ID;; type ← test_types param_types; match_lexeme LEXEME_ID;;
    name ← copy_current_lexeme; match_lexeme LEXEME_ID;; mret (Param type 1 name)) st
  (refuted st (begins (param_grammar REQUEST_PARAMS)))
  (λ p st', param_valid REQUEST_PARAMS p ∧ advance st (param_tokens p) st').
Proof.
  intros Hst Hc. apply (parse_bind (token_grammar (word "key"))); [by apply parse_current|..].
  - intros ts [[_ (us & -> & _)]|(t & w & us & Hw & ->)]%begins_param Hrem; [by exists tt, us|].
    apply remaining_cons in Hrem; [|apply Hst..]. rewrite Hc in Hrem. injection Hrem as Hrem.
    by destruct (type_word_not_key t).
  - intros [] st1 _ Ha. eapply wpp_mono; [apply (match_param_type st1 1)|done|].
    + by eapply advance_ready.
    + by intros ts [[_ (us & [= ->] & Hty)]|[]%typed_not_key]%begins_param.
    + intros p st2 (t & w & -> & Hw & Ha'). split; [split; [by right|done]|].
      by apply (advance_trans _ [_] _ _ _ Ha Ha').
Qed.

Lemma match_param_spec pt st : ready st → parses (param_grammar pt) (match_param pt) st.
Proof.
  intros Hst. pose proof Hst as [Hok _ Ht]. unfold parses, match_param.
  rewrite wpp_bind. destruct pt; [|by apply match_param_plain].
  rewrite wpp_bind. apply test_id_spec; [done|by apply (bool_decide_unpack _); vm_compute|].
  case_bool_decide as Hc; [|by apply match_param_plain; [|intros _]].
  rewrite <- wpp_bind, wpp_assoc. by apply match_param_key.
Qed.

Lemma ready_test_close st E (Q : bool → parser_data → Prop) :
  Q (bool_decide (current st = [TClose])) st → wpp (test LEXEME_CLOSE_BRACE) st E Q.
Proof.
  intros HQ. apply test_spec. by rewrite (bool_decide_ext _ _ (current_close st)).
Qed.

Lemma param_tokens_length p : 1 <= zlength (param_tokens p).
Proof. unfold param_tokens. zlen. Qed.

Lemma match_params_loop_spec fuel pt entries st : ready st → measure st < Z.of_nat fuel →
  wpp (match_params_loop fuel pt entries) st (refuted st (begins_block (param_grammar pt)))
    (λ es st', ∃ ps, es = entries ++ ps ∧ Forall (param_valid pt) ps ∧ current st' = [TClose] ∧
       advance st (concat (param_tokens <$> ps)) st').
Proof.
  revert entries st. induction fuel as [|fuel IH]; intros entries st Hst Hfuel.
  { pose proof (unread_bound st). unfold measure in Hfuel. zlen. }
  cbn [match_params_loop]. rewrite wpp_bind. apply ready_test_close. case_bool_decide as Hc.
  - apply wpp_ret. exists []. rewrite app_nil_r. split_and!; [done..|].
    apply advance_refl; apply Hst.
  - apply (parse_bind (param_grammar pt)); [by apply match_param_spec|..].
    + intros ts [[us ->]|(p & us & Hp & -> & _)]%begins_block_cases Hrem; [|by exists p, us].
      by apply remaining_cons in Hrem; [|apply Hst..].
    + intros p st1 Hp Ha. pose proof (param_tokens_length p). pose proof (adv_measure _ _ _ Ha) as Hm.
      cbn [tokens param_grammar] in Hm. eapply wpp_mono; [apply IH; [by eapply advance_ready|lia]|..].
      * apply refuted_mono. intros ts. by apply begins_block_tail, Hp; apply param_starts.
      * intros es st2 (ps & -> & Hps & Hcl & Ha'). exists (p :: ps). rewrite <- app_assoc.
        split_and!; [done|by constructor|done|]. by apply (advance_trans _ _ _ _ _ Ha Ha').
Qed.

Lemma file_fuel_spec st E (Q : nat → parser_data → Prop) :
  (∀ fuel, measure st < Z.of_nat fuel → Q fuel st) → wpp file_fuel st E Q.
Proof.
  intros HQ. apply HQ. pose proof (unread_bound st). unfold measure, zlength. lia.
Qed.

Lemma params_word_spec pt st : ready st →
  parses (token_grammar (params_word pt))
    (match pt with REQUEST_PARAMS => match_id "request" | RESPONSE_PARAMS => match_id "response" end) st.
Proof. intros Hst. destruct pt; (apply parse_word; [done|by apply (bool_decide_unpack _); vm_compute]). Qed.

Lemma match_params_spec pt st : ready st → parses (params_grammar pt) (match_params pt) st.
Proof.
  intros Hst. apply (parse_bind (token_grammar (params_word pt))); [by apply params_word_spec|..].
  { intros ts (ps & us & Hps & ->) _. by eexists tt, _. }
  intros [] st1 _ Ha1. assert (ready st1) as Hst1 by by eapply advance_ready.
  apply (parse_bind (token_grammar TOpen)); [by apply parse_open|..].
  { intros ts (ps & us & Hps & [= ->]) _. by eexists tt, _. }
  intros [] st2 _ Ha2. assert (ready st2) as Hst2 by by eapply advance_ready.
  assert (∀ ts, begins (params_grammar pt) ([params_word pt] ++ [TOpen] ++ ts) →
    begins_block (param_grammar pt) ts) as HL.
  { intros ts (ps & us & Hps & [= ->]). by exists ps, us. }
  rewrite wpp_bind. apply file_fuel_spec. intros fuel Hfuel.
  eapply (advance_bind (λ ps, concat (param_tokens <$> ps))
    (λ ps st', Forall (param_valid pt) ps ∧ current st' = [TClose])).
  { eapply wpp_mono; [by apply match_params_loop_spec|by apply refuted_mono|].
    intros es st3 (ps & -> & Hps & Hc & Ha). done. }
  intros ps st3 [Hps Hc] Ha3. assert (ready st3) as Hst3 by by eapply advance_ready.
  apply (parse_bind (token_grammar TClose)); [by apply parse_close|..].
  { intros ts _ (us & -> & _). rewrite Hc. by exists tt, us. }
  intros [] st4 _ Ha4. apply wpp_ret. split; [done|].
  by apply (advance_trans _ [_] _ _ _ Ha1), (advance_trans _ [_] _ _ _ Ha2),
    (advance_trans _ _ _ [_] _ Ha3).
Qed.

(** What is between the braces of a method. *)
Definition begins_body (ts : list token) : Prop := ∃ q p us,
  Forall (param_valid REQUEST_PARAMS) q ∧ Forall (param_valid RESPONSE_PARAMS) p ∧
  ts = params_tokens REQUEST_PARAMS q ++ params_tokens RESPONSE_PARAMS p ++ [TClose] ++ us.

Lemma match_method_body name st : ready st →
  wpp (request_params ← match_params REQUEST_PARAMS;
       response_params ← match_params RESPONSE_PARAMS;
       match_lexeme LEXEME_CLOSE_BRACE;;
       mret (Method request_params response_params name)) st (refuted st begins_body)
    (λ m st', ∃ q p, m = Method q p name ∧ Forall (param_valid REQUEST_PARAMS) q ∧
       Forall (param_valid RESPONSE_PARAMS) p ∧
       advance st (params_tokens REQUEST_PARAMS q ++ params_tokens RESPONSE_PARAMS p ++ [TClose]) st').
Proof.
  intros Hst. apply (parse_bind (params_grammar REQUEST_PARAMS)); [by apply match_params_spec|..].
  { intros ts (q & p & us & Hq & _ & ->) _. by eexists q, _. }
  intros q st1 Hq Ha1. assert (ready st1) as Hst1 by by eapply advance_ready.
  assert (∀ ts, begins_body (tokens (params_grammar REQUEST_PARAMS) q ++ ts) →
    ∃ p us, Forall (param_valid RESPONSE_PARAMS) p ∧
      ts = params_tokens RESPONSE_PARAMS p ++ [TClose] ++ us) as HL.
  { intros ts (q' & p & us & Hq' & Hp & Heq). exists p, us. split; [done|].
    by apply params_unambiguous in Heq as [_ ->]. }
  apply (parse_bind (params_grammar RESPONSE_PARAMS)); [by apply match_params_spec|..].
  { intros ts (p & us & Hp & ->)%HL _. by eexists p, _. }
  intros p st2 Hp Ha2. assert (ready st2) as Hst2 by by eapply advance_ready.
  apply (parse_bind (token_grammar TClose)); [by apply parse_close|..].
  { intros ts (p' & us & Hp' & Heq)%HL _. apply params_unambiguous in Heq as [_ ->]; [|done..].
    by exists tt, us. }
  intros [] st3 _ Ha3. apply wpp_ret. exists q, p. split_and!; [done..|].
  by apply (advance_trans _ _ _ _ _ Ha1), (advance_trans _ _ _ [_] _ Ha2).
Qed.

Lemma begins_method ts : begins method_grammar ts → ∃ w us, identifier w ∧
  ts = [word "method"; TId w; TOpen] ++ us ∧ begins_body us.
Proof.
  intros ([q p w] & us & (Hw & Hq & Hp) & ->). cbn in Hw, Hq, Hp.
  exists w, (params_tokens REQUEST_PARAMS q ++ params_tokens RESPONSE_PARAMS p ++ [TClose] ++ us).
  split_and!; [done| |by exists q, p, us]. cbn [tokens method_grammar].
  unfold method_tokens. by rewrite <- !app_assoc.
Qed.

Lemma match_method_spec st : ready st → parses method_grammar match_method st.
Proof.
  intros Hst. apply (parse_bind (token_grammar (word "method"))).
  { apply parse_word; [done|]. by apply (bool_decide_unpack _); vm_compute. }
  { intros ts (w & us & _ & -> & _)%begins_method _. by eexists tt, _. }
  intros [] st1 _ Ha1. apply parse_name; [by eapply advance_ready|..].
  { intros ts (w & us & _ & [= ->] & _)%begins_method. eauto. }
  intros w st2 Hw Ha2. assert (ready st2) as Hst2 by (do 2 (eapply advance_ready; [|done]); done).
  apply (parse_bind (token_grammar TOpen)); [by apply parse_open|..].
  { intros ts (w' & us & _ & [= _ ->] & _)%begins_method _. by eexists tt, _. }
  intros [] st3 _ Ha3. eapply wpp_mono; [apply match_method_body; by eapply advance_ready|..].
  - apply refuted_mono. by intros ts (w' & us & _ & [= _ ->] & Hus)%begins_method.
  - intros m st4 (q & p & -> & Hq & Hp & Ha4). split; [by split|].
    by apply (advance_trans _ [_] _ _ _ Ha1), (advance_trans _ [_] _ _ _ Ha2),
      (advance_trans _ [_] _ _ _ Ha3).
Qed.

Lemma match_methods_loop_spec fuel entries st : ready st → measure st < Z.of_nat fuel →
  wpp (match_methods_loop fuel entries) st (refuted st (begins_block method_grammar))
    (λ es st', ∃ ms, es = entries ++ ms ∧ Forall method_valid ms ∧ current st' ≠ [word "method"] ∧
       advance st (concat (method_tokens <$> ms)) st').
Proof.
  revert entries st. induction fuel as [|fuel IH]; intros entries st Hst Hfuel.
  { pose proof (unread_bound st). unfold measure in Hfuel. zlen. }
  cbn [match_methods_loop]. rewrite wpp_bind.
  apply test_id_spec; [apply Hst|by apply (bool_decide_unpack _); vm_compute|].
  case_bool_decide as Hc.
  - apply (parse_bind method_grammar); [by apply match_method_spec|..].
    + intros ts [[us ->]|(m & us & Hm & -> & _)]%begins_block_cases Hrem; [|by exists m, us].
      apply remaining_cons in Hrem; [|apply Hst..]. by rewrite Hc in Hrem.
    + intros m st1 Hm Ha. pose proof (adv_measure _ _ _ Ha) as Hmeas.
      cbn [tokens method_grammar] in Hmeas. unfold method_tokens in Hmeas.
      assert (measure st1 < Z.of_nat fuel) as Hfuel1 by zlen.
      eapply wpp_mono; [apply IH; [by eapply advance_ready|done]|..].
      * apply refuted_mono. intros ts. by apply begins_block_tail, Hm; apply method_starts.
      * intros es st2 (ms & -> & Hms & Hcl & Ha'). exists (m :: ms). rewrite <- app_assoc.
        split_and!; [done|by constructor|done|]. by apply (advance_trans _ _ _ _ _ Ha Ha').
  - apply wpp_ret. exists []. rewrite app_nil_r. split_and!; [done..|].
    apply advance_refl; apply Hst.
Qed.

Definition begins_methods (ts : list token) : Prop :=
  ∃ l us, l ≠ [] ∧ Forall method_valid l ∧ ts = block_tokens method_grammar l ++ us.

Lemma match_methods_spec st : ready st →
  wpp match_methods st (refuted st begins_methods)
    (λ ms st', (ms ≠ [] ∧ Forall method_valid ms ∧ current st' ≠ [word "method"]) ∧
       advance st (concat (method_tokens <$> ms)) st').
Proof.
  intros Hst. apply (parse_bind method_grammar); [by apply match_method_spec|..].
  { intros ts ([|m l] & us & Hne & Hl & ->) _; [done|]. inversion Hl; subst.
    exists m, (block_tokens method_grammar l ++ us). by rewrite block_cons, <- app_assoc. }
  intros m st1 Hm Ha1. assert (ready st1) as Hst1 by by eapply advance_ready.
  rewrite wpp_bind. apply file_fuel_spec. intros fuel Hfuel.
  eapply wpp_mono; [by apply match_methods_loop_spec|..].
  - apply refuted_mono. intros ts (l & us & _ & Hl & Heq).
    apply (begins_block_tail _ method_starts m); [done|]. by exists l, us.
  - intros es st2 (ms & -> & Hms & Hc & Ha2). split; [split_and!; [done|by constructor|done]|].
    by apply (advance_trans _ _ _ _ _ Ha1 Ha2).
Qed.

(** The methods are followed by the brace which closes the interface. *)
Lemma match_interface_body name st : ready st →
  wpp (methods ← match_methods; match_lexeme LEXEME_CLOSE_BRACE;; match_lexeme LEXEME_STOP;;
       mret (Interface methods name)) st
    (refuted st (λ ts, ∃ l, l ≠ [] ∧ Forall method_valid l ∧ ts = block_tokens method_grammar l))
    (λ i _, ∃ ms, i = Interface ms name ∧ ms ≠ [] ∧ Forall method_valid ms ∧
       ∀ ts, remaining st ts ↔ ts = block_tokens method_grammar ms).
Proof.
  intros Hst. eapply advance_bind.
  { eapply wpp_mono; [by apply match_methods_spec| |intros ms st1 H; exact H].
    apply refuted_mono. intros ts (l & Hne & Hl & ->). exists l, [].
    split_and!; [done..|]. by rewrite app_nil_r. }
  intros ms st1 (Hne & Hms & Hc) Ha1. assert (ready st1) as Hst1 by by eapply advance_ready.
  apply (parse_bind (token_grammar TClose)); [by apply parse_close|..].
  { intros ts (l & _ & Hl & Heq) Hrem. rewrite <- (app_nil_r (block_tokens _ l)) in Heq.
    apply (block_prefix method_grammar method_starts) in Heq as ([|m k] & -> & ->); [| |done..].
    - by exists tt, [].
    - rewrite block_cons in Hrem. apply remaining_cons in Hrem; [by destruct (Hc Hrem)|apply Hst1..]. }
  intros [] st2 _ Ha2. assert (ready st2) as Hst2 by by eapply advance_ready.
  rewrite wpp_bind. eapply wpp_mono; [by apply match_stop_spec|..].
  - intros Hstop ts (l & _ & Hl & Heq) (ts' & -> & _).
    rewrite <- (app_nil_r (block_tokens _ l)) in Heq.
    apply (block_prefix method_grammar method_starts) in Heq as ([|m k] & -> & Heq); [| |done..].
    + injection Heq as Heq. pose proof (ready_type _ Hst2). unfold current in Heq.
      by destruct (pd_lexeme_type st2).
    + rewrite block_cons in Heq. by destruct (method_starts m) as (w & x & Hm); rewrite Hm in Heq.
  - intros [] st3 Hstop. apply wpp_ret. exists ms. split_and!; [done..|]. intros ts.
    rewrite (adv_remaining _ _ _ Ha1). setoid_rewrite (adv_remaining _ _ _ Ha2). unfold block_tokens.
    assert (∀ us, remaining st2 us ↔ us = []) as Hend.
    { intros us. unfold remaining, current. rewrite Hstop, (ok_stop _ (ready_ok _ Hst2) Hstop).
      setoid_rewrite spells_nil_iff. split; [by intros (? & -> & ->)|intros ->; by exists []]. }
    split.
    + intros (us & -> & vs & -> & Hvs). apply Hend in Hvs as ->. done.
    + intros ->. exists [TClose]. split; [done|]. exists []. by rewrite Hend.
Qed.

Definition whole_interface (ts : list token) : Prop :=
  ∃ i, interface_valid i ∧ ts = interface_tokens i.

Lemma match_interface_spec st : lexer_ok st → reach st <= MAX_REACH →
  pd_lexeme_type st = LEXEME_START →
  wpp match_interface st (refuted st whole_interface)
    (λ i _, interface_valid i ∧ ∀ ts, remaining st ts ↔ ts = interface_tokens i).
Proof.
  intros Hok Hr Ht. assert (current st = []) as Hc by (unfold current; by rewrite Ht).
  eapply (advance_bind (λ _, []) (λ _ _, True)).
  { eapply wpp_mono; [by apply match_spec|intros H ts _; by apply H|].
    intros _ st0 [_ Ha]. rewrite Hc in Ha. done. }
  intros _ st0 _ Ha0. cbn [app].
  assert (ready st0) as Hst0. { destruct Ha0 as [H1' H2' _ _ H3']. split; [done|lia|done]. }
  assert (∀ ts, whole_interface ts → ∃ w l, identifier w ∧ l ≠ [] ∧ Forall method_valid l ∧
    ts = [word "interface"; TId w; TOpen] ++ block_tokens method_grammar l) as HL.
  { intros ts ([l w] & (Hw & Hl & Hne) & ->). by exists w, l. }
  apply (parse_bind (token_grammar (word "interface"))).
  { apply parse_word; [done|]. by apply (bool_decide_unpack _); vm_compute. }
  { intros ts (w & l & _ & _ & _ & ->)%HL _. by eexists tt, _. }
  intros [] st1 _ Ha1. apply parse_name; [by eapply advance_ready|..].
  { intros ts (w & l & _ & _ & _ & [= ->])%HL. eauto. }
  intros w st2 Hw Ha2. assert (ready st2) as Hst2 by (do 2 (eapply advance_ready; [|done]); done).
  apply (parse_bind (token_grammar TOpen)); [by apply parse_open|..].
  { intros ts (w' & l & _ & _ & _ & [= _ ->])%HL _. by eexists tt, _. }
  intros [] st3 _ Ha3. eapply wpp_mono; [apply match_interface_body; by eapply advance_ready|..].
  - apply refuted_mono. intros ts (w' & l & _ & Hne & Hl & [= _ ->])%HL. by exists l.
  - intros i st4 (ms & -> & Hne & Hms & Hrem). split; [by split_and!|]. intros ts.
    pose proof (advance_trans _ _ _ _ _ Ha0 (advance_trans _ _ _ _ _ Ha1
      (advance_trans _ _ _ _ _ Ha2 Ha3))) as Ha.
    rewrite (adv_remaining _ _ _ Ha). setoid_rewrite Hrem. split.
    + by intros (us & -> & ->).
    + intros ->. by eexists.
Qed.

(** ** The parser of files *)

(** A file which can be parsed: [<ctype.h>] is defined on its characters and
    its positions are in the range of [int]. *)
Definition parsable (ctx : parser_data) (file : list byte) : Prop :=
  zlength (pd_lexeme ctx) = MAX_LEXEME_SIZE ∧ readable false file ∧
  3 + 2 * zlength file <= MAX_REACH.

#[export] Instance parsable_dec ctx file : Decision (parsable ctx file).
Proof. unfold parsable. apply _. Defined.

Lemma parse_interface_spec ctx filename file : parsable ctx file →
  wpp (parse_interface filename (Some file)) ctx
    (∀ i, interface_valid i → ¬ spells file (interface_tokens i))
    (λ i _, interface_valid i ∧ ∀ ts, spells file ts ↔ ts = interface_tokens i).
Proof.
  intros (Hs & Hf & Hlen). unfold parse_interface, init_lexer, set_lexeme, set_reader. pp_steps.
  apply wp_arr_set; [by rewrite Hs|]. pp_steps.
  set (st := ParserData _ _ _ _ _ _ _).
  assert (∀ ts, remaining st ts ↔ spells file ts) as Hrem.
  { intros ts. apply remaining_no_token. by right. }
  eapply wpp_mono; [apply match_interface_spec|..].
  - split; cbn; try done; [by rewrite zlength_insert|]. apply insert_zero.
    unfold zlength, MAX_LEXEME_SIZE in Hs. lia.
  - unfold reach. cbn. unfold unread. cbn. lia.
  - done.
  - intros H i Hi Hts. apply (H (interface_tokens i)); [by exists i|by apply Hrem].
  - intros i _ [Hi Hts]. split; [done|]. intros ts. by rewrite <- Hts, Hrem.
Qed.

(** The layout of an interface which a printer would choose. *)
Definition spell (t : token) : list byte :=
  match t with TId w => w | TOpen => ["{"%byte] | TClose => ["}"%byte] end ++ [x0a].

Definition print_interface (i : interface) : list byte := concat (spell <$> interface_tokens i).

Definition token_valid (t : token) : Prop :=
  match t with TId w => identifier w | _ => True end.

Lemma spells_print ts : Forall token_valid ts → spells (concat (spell <$> ts)) ts.
Proof.
  induction 1 as [|t ts Ht Hts IH]; [constructor|]. cbn. unfold spell. rewrite <- app_assoc.
  assert (spells ([x0a] ++ concat (spell <$> ts)) ts) by by apply spells_space.
  destruct t; cbn [app]; [|by constructor..]. constructor; [done|by left|done].
Qed.

Lemma word_valid s : bool_decide (identifier (chars s)) → token_valid (word s).
Proof. apply bool_decide_unpack. Qed.

Lemma type_word_valid t : token_valid (type_word t).
Proof. by destruct t; apply word_valid; vm_compute. Qed.

Lemma Forall_concat_fmap {A B} (f : A → list B) (R : B → Prop) l :
  (∀ a, a ∈ l → Forall R (f a)) → Forall R (concat (f <$> l)).
Proof.
  induction l as [|a l IH]; intros H; [constructor|]. cbn. apply Forall_app. split.
  - apply H. constructor.
  - apply IH. intros b Hb. apply H. by constructor.
Qed.

Lemma params_tokens_valid pt ps : Forall (param_valid pt) ps → Forall token_valid (params_tokens pt ps).
Proof.
  intros Hps. unfold params_tokens. apply Forall_app. split.
  - constructor; [by destruct pt; apply word_valid; vm_compute|by repeat constructor].
  - apply Forall_app. split; [|by repeat constructor]. apply Forall_concat_fmap. intros p Hp.
    rewrite Forall_forall in Hps. destruct (Hps p Hp) as [_ Hn]. unfold param_tokens.
    apply Forall_app. split; [case_decide; [|constructor]; constructor; [by apply word_valid; vm_compute|constructor]|].
    constructor; [apply type_word_valid|]. by constructor.
Qed.

Lemma interface_tokens_valid i : interface_valid i → Forall token_valid (interface_tokens i).
Proof.
  intros (Hi & Hm & _). unfold interface_tokens. apply Forall_app. split.
  - constructor; [by apply word_valid; vm_compute|]. constructor; [done|by repeat constructor].
  - apply Forall_app. split; [|by repeat constructor]. apply Forall_concat_fmap. intros m Hin.
    rewrite Forall_forall in Hm. destruct (Hm m Hin) as (Hn & Hq & Hp). unfold method_tokens.
    rewrite !Forall_app. split_and!; [|by apply params_tokens_valid..|by repeat constructor].
    constructor; [by apply word_valid; vm_compute|]. constructor; [done|by repeat constructor].
Qed.

(** ** Properties *)

(** C11. The parser accepts a file if and only if the file spells the tokens of
    a valid interface, with any layout and any comments, and returns that
    interface: it implements the grammar exactly. *)
Theorem parser_exact ctx filename file i : parsable ctx file →
  (∃ ctx', parse_interface filename (Some file) ctx = Ret (inr (i, ctx'))) ↔
  interface_valid i ∧ spells file (interface_tokens i).
Proof.
  intros Hp. pose proof (parse_interface_spec ctx filename file Hp) as H. unfold wpp in H.
  destruct (parse_interface filename (Some file) ctx) as [[e|[j ctx']]|f]; cbn in H; [..|done].
  - split; [by intros [? [=]]|]. intros [Hi Hs]. by destruct (H i Hi).
  - destruct H as [Hj Hts]. split.
    + intros [? [= <- _]]. split; [done|]. by apply Hts.
    + intros [Hi Hs%Hts]. exists ctx'.
      by destruct (interface_unambiguous i j [] []) as [-> _]; rewrite ?app_nil_r.
Qed.

(** C37. On every parsable file the parser ends without a fault, with an
    interface or with a message: the lexeme buffer is never overrun, [line]
    and [pos] never overflow, and its loops terminate. *)
Theorem parser_terminates ctx filename file : parsable ctx file →
  ∃ r, parse_interface filename (Some file) ctx = Ret r.
Proof.
  intros Hp. pose proof (parse_interface_spec ctx filename file Hp) as H. unfold wpp in H.
  destruct (parse_interface filename (Some file) ctx) as [r|f]; [by exists r|done].
Qed.

(** What is printed of a valid interface is parsed back. *)
Lemma parser_roundtrip ctx filename i : interface_valid i → parsable ctx (print_interface i) →
  ∃ ctx', parse_interface filename (Some (print_interface i)) ctx = Ret (inr (i, ctx')).
Proof.
  intros Hi Hp. pose proof (parse_interface_spec ctx filename _ Hp) as H. unfold wpp in H.
  pose proof (spells_print _ (interface_tokens_valid i Hi)) as Hs.
  destruct (parse_interface filename (Some (print_interface i)) ctx) as [[e|[j ctx']]|f];
    cbn in H; [..|done].
  - by destruct (H i Hi).
  - destruct H as [Hj Hts]. apply Hts in Hs. exists ctx'.
    by destruct (interface_unambiguous i j [] []) as [-> _]; rewrite ?app_nil_r.
Qed.

Lemma lexer_char_not_plain b st : ¬ plain b → lexer_char STATE_START b st = Fault OutOfBounds.
Proof.
  intros Hb. unfold lexer_char.
  do 4 (rewrite decide_False by (intros ->; apply Hb; by vm_compute)).
  unfold mbind, P_bind, eval, is_whitespace, isspace, ctype.
  rewrite bool_decide_eq_false_2; [done|]. intros [Hp _]. by apply Hb.
Qed.

Lemma bind_ret {A B} (m : P A) (k : A → P B) st a st' :
  m st = Ret (inr (a, st')) → (m ≫= k) st = k a st'.
Proof. unfold mbind, P_bind. by intros ->. Qed.

Lemma bind_fault {A B} (m : P A) (k : A → P B) st f : m st = Fault f → (m ≫= k) st = Fault f.
Proof. unfold mbind, P_bind. by intros ->. Qed.

Lemma read_not_plain t l n line fn b f : zlength l = MAX_LEXEME_SIZE → is_s32 line → ¬ plain b →
  read_next_lexeme (ParserData t l n line 0 fn (b :: f)) = Fault OutOfBounds.
Proof.
  intros Hs Hl Hb. unfold read_next_lexeme, clear_lexeme.
  erewrite bind_ret; [|erewrite bind_ret by done; erewrite bind_ret;
    [done|unfold eval, arr_set; rewrite bool_decide_eq_true_2; [done|by cbn; rewrite Hs]]].
  erewrite bind_ret by done. cbn [lexer_loop].
  apply bind_fault. unfold lexer_step, read_next_char.
  erewrite bind_ret by (erewrite bind_ret by done; by erewrite bind_ret by done).
  rewrite decide_False, byte_of_Z_of_byte by apply byte_of_Z_not_EOF.
  by apply lexer_char_not_plain.
Qed.

(** A character beyond ASCII where no comment has begun is passed to
    [isspace] as a negative [int] which is not [EOF]: undefined behaviour, not
    the message about an unexpected character. *)
Lemma parser_not_ascii ctx filename b f :
  zlength (pd_lexeme ctx) = MAX_LEXEME_SIZE → ¬ plain b →
  parse_interface filename (Some (b :: f)) ctx = Fault OutOfBounds.
Proof.
  intros Hs Hb. unfold parse_interface. erewrite bind_ret by done. erewrite bind_ret by done.
  erewrite bind_ret; [|unfold init_lexer; erewrite bind_ret by done; erewrite bind_ret;
    [by erewrite bind_ret by done|unfold eval, arr_set; rewrite bool_decide_eq_true_2; [done|by cbn; rewrite Hs]]].
  unfold match_interface. apply bind_fault. unfold match_lexeme. erewrite bind_ret by done.
  apply read_not_plain; [|done|done].
  etrans; [apply zlength_insert|done].
Qed.

(** ** Witnesses *)

Definition sample_text : list byte :=
  chars "interface test# a comment { }" ++ [x0a] ++
  chars "{ method ping{request{key uint32 id blob data}response{} }}# end".

Definition sample_interface : interface :=
  Interface [Method [Param PARAM_UINT32 1 (chars "id"); Param PARAM_BLOB 0 (chars "data")] []
               (chars "ping")] (chars "test").

Example sample_parses : ∃ ctx',
  parse_interface [] (Some sample_text) parser_ctx = Ret (inr (sample_interface, ctx')).
Proof. eexists. by vm_compute. Qed.

(** The message of a file without methods, and the lexeme after which the end
    of the line has been read: its position is in the next line. *)
Example sample_message : parse_interface [] (Some (chars "interface i { }")) parser_ctx =
  Ret (inl (UnexpectedLexeme (chars "}") [] 1 15 (chars "method"))).
Proof. by vm_compute. Qed.

Example message_line : parse_interface [] (Some (chars "interfaces" ++ [x0a])) parser_ctx =
  Ret (inl (UnexpectedLexeme (chars "interfaces") [] 2 0 (chars "interface"))).
Proof. by vm_compute. Qed.

Lemma parser_exact_witness : parsable parser_ctx sample_text ∧
  interface_valid sample_interface ∧ spells sample_text (interface_tokens sample_interface).
Proof.
  assert (parsable parser_ctx sample_text) as Hp by (apply (bool_decide_unpack _); by vm_compute).
  split; [exact Hp|].
  apply (parser_exact parser_ctx [] sample_text sample_interface Hp). eexists. by vm_compute.
Defined.

Lemma parser_terminates_witness : parsable parser_ctx sample_text ∧
  ∃ r, parse_interface [] (Some sample_text) parser_ctx = Ret r.
Proof.
  assert (parsable parser_ctx sample_text) as Hp by (apply (bool_decide_unpack _); by vm_compute).
  split; [exact Hp|]. apply (parser_terminates parser_ctx [] sample_text Hp).
Defined.

Lemma parser_roundtrip_witness : interface_valid sample_interface ∧
  parsable parser_ctx (print_interface sample_interface) ∧
  ∃ ctx', parse_interface [] (Some (print_interface sample_interface)) parser_ctx =
    Ret (inr (sample_interface, ctx')).
Proof.
  assert (interface_valid sample_interface) as Hi by (apply (bool_decide_unpack _); by vm_compute).
  assert (parsable parser_ctx (print_interface sample_interface)) as Hp
    by (apply (bool_decide_unpack _); by vm_compute).
  split; [exact Hi|split; [exact Hp|apply (parser_roundtrip parser_ctx [] sample_interface Hi Hp)]].
Defined.

Lemma parser_not_ascii_witness : zlength (pd_lexeme parser_ctx) = MAX_LEXEME_SIZE ∧ ¬ plain xd0 ∧
  parse_interface [] (Some (xd0 :: xb0 :: sample_text)) parser_ctx = Fault OutOfBounds.
Proof.
  assert (zlength (pd_lexeme parser_ctx) = MAX_LEXEME_SIZE) as Hs by reflexivity.
  assert (¬ plain xd0) as Hb by (apply (bool_decide_unpack _); by vm_compute).
  split; [exact Hs|split; [exact Hb|apply (parser_not_ascii parser_ctx [] xd0 _ Hs Hb)]].
Defined.
