(* ===== verification/Stdio.v ===== *)
(** * Output of the code generators (interface-compiler/src/common.c)

    The generators write C text with [dump], which is [vfprintf] on the file that
    [open_file] has opened.  This file models the part of [<stdio.h>] they use:
    format strings, one file which is open, the files on the disk, the two output
    streams, and calls which may fail.  [dumps m text]: the code [m] writes [text]. *)

From stdpp Require Import gmap.
From Stdlib Require Import Strings.String DecimalString DecimalZ.
From S2P Require Import Prelude.

Open Scope Z_scope.
Open Scope list_scope.

#[export] Instance byte_countable : Countable byte := inj_countable Byte.to_N Byte.of_N Byte.of_to_N.

(** ** String literals

    The text between the quotes of a C literal; ["\q"] stands for an escaped
    quote.  Adjacent literals are one literal. *)

Fixpoint unescape (s : list byte) : list byte :=
  match s with
  | "\"%byte :: "n"%byte :: s => x0a :: unescape s
  | "\"%byte :: "t"%byte :: s => x09 :: unescape s
  | "\"%byte :: "q"%byte :: s => x22 :: unescape s
  | c :: s => c :: unescape s
  | [] => []
  end.

Definition c_literal (s : string) : list byte := unescape (list_byte_of_string s).
Definition c_literals (l : list string) : list byte := concat (c_literal <$> l).

(** ** Format strings *)

Inductive format_arg :=
  | ArgStr (s : list byte)
  | ArgChar (c : byte)
  | ArgInt (z : Z).

Inductive format_piece :=
  | FmtText (s : list byte)
  | FmtStr
  | FmtChar
  | FmtInt.

Definition add_text (c : byte) (l : list format_piece) : list format_piece :=
  match l with
  | FmtText s :: l => FmtText (c :: s) :: l
  | _ => FmtText [c] :: l
  end.

(** The conversions which the compiler uses; the behaviour of others is not
    defined here. *)
Fixpoint parse_format (fmt : list byte) : option (list format_piece) :=
  match fmt with
  | [] => Some []
  | "%"%byte :: fmt =>
      match fmt with
      | "%"%byte :: fmt => l ← parse_format fmt; Some (add_text "%"%byte l)
      | "s"%byte :: fmt => l ← parse_format fmt; Some (FmtStr :: l)
      | "c"%byte :: fmt => l ← parse_format fmt; Some (FmtChar :: l)
      | "d"%byte :: fmt => l ← parse_format fmt; Some (FmtInt :: l)
      | _ => None
      end
  | c :: fmt => l ← parse_format fmt; Some (add_text c l)
  end.

Definition decimal (z : Z) : list byte := list_byte_of_string (NilZero.string_of_int (Z.to_int z)).

(** A conversion without an argument, or with one of another type, is undefined;
    arguments which are left are ignored. *)
Fixpoint render (l : list format_piece) (args : list format_arg) : outcome (list byte) :=
  match l, args with
  | [], _ => Ret []
  | FmtText s :: l, args => text ← render l args; Ret (s ++ text)
  | FmtStr :: l, ArgStr s :: args => text ← render l args; Ret (s ++ text)
  | FmtChar :: l, ArgChar c :: args => text ← render l args; Ret (c :: text)
  | FmtInt :: l, ArgInt z :: args => text ← render l args; Ret (decimal z ++ text)
  | _, _ => Fault UndefinedFormat
  end.

Definition c_format (fmt : list byte) (args : list format_arg) : outcome (list byte) :=
  match parse_format fmt with
  | Some l => render l args
  | None => Fault UndefinedFormat
  end.

(** ** Files *)

(** A call succeeds, or fails with an error number; [vfprintf] may have written
    some characters. *)
Inductive io_result :=
  | IoOk
  | IoFailed (written : nat) (errno : Z).

Definition io_ok (r : io_result) : Prop := r = IoOk.

(** The static [filename_buf] and [file] (the name of the file which is open),
    the disk, what has been written to [stdout] and [stderr], and the results of
    the calls to come; after these, calls succeed. *)
Record gen_state := GenState {
  gs_filename_buf : list byte;
  gs_file : option (list byte);
  gs_disk : gmap (list byte) (list byte);
  gs_stdout : list byte;
  gs_stderr : list byte;
  gs_io : list io_result
}.

Definition EXIT_FAILURE : Z := 1.
Definition EXIT_SUCCESS : Z := 0.

(** Code which may end the program with an exit code. *)
Definition G (A : Type) : Type := M gen_state (Z + A).

#[export] Instance G_ret : MRet G := λ A a st, Ret (inr a, st).
#[export] Instance G_bind : MBind G := λ A B k m st,
  match m st with
  | Ret (inr a, st) => k a st
  | Ret (inl code, st) => Ret (inl code, st)
  | Fault f => Fault f
  end.

Definition exit {A} (code : Z) : G A := λ st, Ret (inl code, st).
Definition get_state : G gen_state := λ st, Ret (inr st, st).
Definition set_state (st : gen_state) : G unit := λ _, Ret (inr tt, st).
Definition evaluate {A} (o : outcome A) : G A := λ st,
  match o with Ret a => Ret (inr a, st) | Fault f => Fault f end.

Definition set_buf (buf : list byte) : G unit := λ '(GenState _ f d o e io), Ret (inr tt, GenState buf f d o e io).
Definition set_file (f : option (list byte)) : G unit := λ '(GenState buf _ d o e io), Ret (inr tt, GenState buf f d o e io).
Definition set_disk (d : gmap (list byte) (list byte)) : G unit :=
  λ '(GenState buf f _ o e io), Ret (inr tt, GenState buf f d o e io).
Definition next_io : G io_result := λ '(GenState buf f d o e io),
  match io with
  | r :: io => Ret (inr r, GenState buf f d o e io)
  | [] => Ret (inr IoOk, GenState buf f d o e [])
  end.

(** Output on the standard streams, whose result is not used. *)
Definition add_stdout (text : list byte) : G unit :=
  λ '(GenState buf f d o e io), Ret (inr tt, GenState buf f d (o ++ text) e io).
Definition add_stderr (text : list byte) : G unit :=
  λ '(GenState buf f d o e io), Ret (inr tt, GenState buf f d o (e ++ text) io).

Definition printf (fmt : list string) (args : list format_arg) : G unit :=
  text ← evaluate (c_format (c_literals fmt) args);
  add_stdout text.
Definition fprintf_stderr (fmt : list string) (args : list format_arg) : G unit :=
  text ← evaluate (c_format (c_literals fmt) args);
  add_stderr text.

(** [fopen(name, "wt")]: the file exists and is empty; a file which cannot be
    opened is left as it is. *)
Definition fopen (name : list byte) : G (Z + list byte) :=
  r ← next_io;
  match r with
  | IoOk => st ← get_state; set_disk (<[name := []]> (gs_disk st));; mret (inr name)
  | IoFailed _ errno => mret (inl errno)
  end.

Definition append_text (name text : list byte) : G unit :=
  st ← get_state;
  set_disk (<[name := default [] (gs_disk st !! name) ++ text]> (gs_disk st)).

(** The number of characters, or a negative one. *)
Definition vfprintf (name : list byte) (fmt : list string) (args : list format_arg) : G Z :=
  text ← evaluate (c_format (c_literals fmt) args);
  r ← next_io;
  match r with
  | IoOk => append_text name text;; mret (zlength text)
  | IoFailed written _ => append_text name (take written text);; mret (-1)
  end.

Definition EOF : Z := -1.
Definition fflush : G Z :=
  r ← next_io;
  mret match r with IoOk => 0 | IoFailed _ _ => EOF end.
Definition fclose : G Z := fflush.

(** ** common.c *)

Definition FILENAME_BUF_SIZE : Z := 200.

Definition die {A} (fmt : list string) (args : list format_arg) : G A :=
  fprintf_stderr fmt args;;
  fprintf_stderr ["\n"%string] [];;
  exit EXIT_FAILURE.

(** [vsnprintf] writes what the buffer has room for, and returns the length of the
    whole text. *)
Definition open_file (fmt : list string) (args : list format_arg) : G unit :=
  text ← evaluate (c_format (c_literals fmt) args);
  set_buf (take (Z.to_nat (FILENAME_BUF_SIZE - 1)) text);;
  (if bool_decide (zlength text >= FILENAME_BUF_SIZE) then die ["cannot generate filename"%string] [] else mret tt);;
  st ← get_state;
  evaluate (ff_assert (bool_decide (gs_file st = None)));;
  file ← fopen (gs_filename_buf st);
  match file with
  | inl errno =>
      set_file None;;
      die ["canot create the file=[%s]. errno=%d"%string] [ArgStr (gs_filename_buf st); ArgInt errno]
  | inr file => set_file (Some file)
  end.

Definition close_file : G unit :=
  st ← get_state;
  evaluate (ff_assert (bool_decide (gs_file st ≠ None)));;
  rv ← fflush;
  evaluate (ff_assert (bool_decide (rv = 0)));;
  rv ← fclose;
  evaluate (ff_assert (bool_decide (rv = 0)));;
  set_file None.

Definition dump (fmt : list string) (args : list format_arg) : G unit :=
  st ← get_state;
  match gs_file st with
  | None => evaluate (Fault AssertionFailed)
  | Some file =>
      len ← vfprintf file fmt args;
      if bool_decide (len <= 0) then die ["error when writing data to the output file"%string] []
      else mret tt
  end.

(** [while (list != NULL)] over a linked list. *)
Fixpoint for_each {A} (l : list A) (body : A → G unit) : G unit :=
  match l with
  | [] => mret tt
  | a :: l => body a;; for_each l body
  end.

(** ** What code writes *)

Definition io_fine (st : gen_state) : Prop := Forall io_ok (gs_io st).

(** The code succeeds, unless a call of the C library fails: then the program ends
    with [EXIT_FAILURE], or in an assertion of [close_file]. *)
Definition gwp {A} (m : G A) (st : gen_state) (Q : A → gen_state → Prop) : Prop :=
  match m st with
  | Ret (inr a, st') => (io_fine st → io_fine st') ∧ Q a st'
  | Ret (inl code, _) => code = EXIT_FAILURE ∧ ¬ io_fine st
  | Fault f => f = AssertionFailed ∧ ¬ io_fine st
  end.

Section gwp.
Context {A B : Type}.
Implicit Types (m : G A) (st : gen_state).

Lemma gwp_mono m st (Q Q' : A → gen_state → Prop) :
  gwp m st Q → (∀ a st', Q a st' → Q' a st') → gwp m st Q'.
Proof. unfold gwp. destruct (m st) as [[[code|a] st']|f]; intros [??] ?; auto. Qed.

Lemma gwp_bind m (k : A → G B) st (Q : B → gen_state → Prop) : gwp m st (λ a st', gwp (k a) st' Q) → gwp (m ≫= k) st Q.
Proof.
  unfold gwp, mbind, G_bind. destruct (m st) as [[[code|a] st']|f]; [done| |done].
  intros [Hio Hk]. destruct (k a st') as [[[code|b] st'']|f]; destruct Hk as [Hc Hk]; split; auto.
Qed.

Lemma gwp_ret a st (Q : A → gen_state → Prop) : Q a st → gwp (mret a) st Q.
Proof. done. Qed.

Lemma gwp_get st Q : Q st st → gwp get_state st Q.
Proof. done. Qed.

Lemma gwp_evaluate (o : outcome A) a st (Q : A → gen_state → Prop) : o = Ret a → Q a st → gwp (evaluate o) st Q.
Proof. by intros ->. Qed.
End gwp.

(** The text is appended to the file which is open. *)
Definition appended (st : gen_state) (name text : list byte) (st' : gen_state) : Prop :=
  ∃ io, st' = GenState (gs_filename_buf st) (Some name) (<[name := text]> (gs_disk st)) (gs_stdout st)
    (gs_stderr st) io.

Definition dumps (m : G unit) (text : list byte) : Prop :=
  ∀ st name old, gs_file st = Some name → gs_disk st !! name = Some old →
    gwp m st (λ _, appended st name (old ++ text)).

Lemma dumps_ret : dumps (mret tt) [].
Proof.
  intros [buf f d o e io] name old Hf Hd. cbn in *. subst. apply gwp_ret. exists io. cbn.
  by rewrite app_nil_r, insert_id.
Qed.

Lemma dumps_bind m k t1 t2 : dumps m t1 → dumps k t2 → dumps (m;; k) (t1 ++ t2).
Proof.
  intros Hm Hk st name old Hf Hd. apply gwp_bind. eapply gwp_mono; [by apply Hm|].
  intros _ st1 [io1 ->]. eapply gwp_mono; [apply (Hk _ name (old ++ t1)); cbn; [done|apply lookup_insert_eq]|].
  intros _ st2 [io2 ->]. exists io2. cbn. by rewrite insert_insert_eq, app_assoc.
Qed.

Lemma dumps_dump fmt args text : c_format (c_literals fmt) args = Ret text → text ≠ [] →
  dumps (dump fmt args) text.
Proof.
  intros Hfmt Hne [buf f d o e io] name old Hf Hd. cbn in *. subst.
  unfold dump, vfprintf, append_text, gwp, mbind, G_bind, mret, G_ret, get_state, evaluate, next_io, io_fine.
  assert (bool_decide (zlength text <= 0) = false) as Hlen by (apply bool_decide_eq_false_2; destruct text; [done|zlen]).
  cbn -[bool_decide lookup insert]. rewrite Hfmt. destruct io as [|[|written errno] io]; cbn -[bool_decide lookup insert]; rewrite Hd.
  - rewrite Hlen. split; [done|by eexists].
  - rewrite Hlen. split; [by inversion 1|by eexists].
  - rewrite bool_decide_eq_true_2 by lia. split; [done|]. intros [Hio _]%Forall_cons. by inversion Hio.
Qed.

Lemma dumps_for_each {A} (l : list A) body g : (∀ a, a ∈ l → dumps (body a) (g a)) →
  dumps (for_each l body) (concat (g <$> l)).
Proof.
  induction l as [|a l IH]; intros Hall; [apply dumps_ret|]. cbn.
  apply (dumps_bind (body a) (for_each l body)); [apply Hall; by left|]. apply IH. intros b Hb. apply Hall. by right.
Qed.

Lemma dumps_ext m m' text : (∀ st, m st = m' st) → dumps m text → dumps m' text.
Proof. intros Heq Hm st name old Hf Hd. unfold gwp. rewrite <- Heq. by apply Hm. Qed.

Lemma dumps_evaluate {A} (o : outcome A) a k text : o = Ret a → dumps (k a) text →
  dumps (evaluate o ≫= k) text.
Proof. intros ->. by apply dumps_ext. Qed.

Lemma bind_assoc {A B C} (m : G A) (k : A → G B) (h : B → G C) st :
  ((m ≫= k) ≫= h) st = (m ≫= λ a, k a ≫= h) st.
Proof. unfold mbind, G_bind. by destruct (m st) as [[[code|a] st']|f]. Qed.

(** Code which creates files, one after the other, and prints [out]. *)
Definition creates (m : G unit) (files : list (list byte * list byte)) (out : list byte) : Prop :=
  ∀ st, gs_file st = None → gwp m st (λ _ st', gs_file st' = None ∧
    gs_disk st' = foldl (λ d f, <[f.1 := f.2]> d) (gs_disk st) files ∧
    gs_stdout st' = gs_stdout st ++ out ∧ gs_stderr st' = gs_stderr st).

Lemma creates_bind m k fs1 fs2 o1 o2 : creates m fs1 o1 → creates k fs2 o2 →
  creates (m;; k) (fs1 ++ fs2) (o1 ++ o2).
Proof.
  intros Hm Hk st Hf. apply gwp_bind. eapply gwp_mono; [by apply Hm|].
  intros _ st1 (Hf1 & Hd1 & Ho1 & He1). eapply gwp_mono; [by apply Hk|].
  intros _ st2 (Hf2 & Hd2 & Ho2 & He2). split_and!; [done| | |congruence].
  - by rewrite Hd2, Hd1, foldl_app.
  - by rewrite Ho2, Ho1, app_assoc.
Qed.

Lemma creates_out m fs out out' : creates m fs out → out = out' → creates m fs out'.
Proof. by intros ? <-. Qed.

Lemma creates_printf fmt args out : c_format (c_literals fmt) args = Ret out →
  creates (printf fmt args) [] out.
Proof.
  intros Hfmt [buf f d o e io] Hf. cbn in Hf. subst.
  unfold printf, gwp, mbind, G_bind, evaluate. rewrite Hfmt. by cbn.
Qed.

Lemma open_file_spec fmt args name st : c_format (c_literals fmt) args = Ret name →
  zlength name < FILENAME_BUF_SIZE → gs_file st = None →
  gwp (open_file fmt args) st (λ _ st', gs_file st' = Some name ∧
    gs_disk st' = <[name := []]> (gs_disk st) ∧ gs_stdout st' = gs_stdout st ∧ gs_stderr st' = gs_stderr st).
Proof.
  intros Hfmt Hlen Hf. destruct st as [buf f d o e io]. cbn in Hf. subst.
  assert (take (Z.to_nat (FILENAME_BUF_SIZE - 1)) name = name) as Htake.
  { apply take_ge. unfold zlength, FILENAME_BUF_SIZE in *. lia. }
  unfold open_file, fopen, die, fprintf_stderr, gwp, io_fine, mbind, G_bind, mret, G_ret, evaluate, get_state, next_io. rewrite Hfmt.
  assert (bool_decide (zlength name >= FILENAME_BUF_SIZE) = false) as Hshort by (apply bool_decide_eq_false_2; lia).
  cbn -[bool_decide take insert FILENAME_BUF_SIZE]. rewrite Hshort, Htake. cbn -[insert FILENAME_BUF_SIZE].
  destruct io as [|[|written errno] io]; cbn -[insert]; [done|by split; [inversion 1|]|].
  split; [done|]. intros [Hio _]%Forall_cons. by inversion Hio.
Qed.

Lemma close_file_spec st : gs_file st ≠ None →
  gwp close_file st (λ _ st', gs_file st' = None ∧ gs_disk st' = gs_disk st ∧
    gs_stdout st' = gs_stdout st ∧ gs_stderr st' = gs_stderr st).
Proof.
  destruct st as [buf f d o e io]. intros Hf. cbn in Hf.
  unfold close_file, fclose, fflush, gwp, io_fine, mbind, G_bind, mret, G_ret, evaluate, get_state, next_io.
  cbn -[bool_decide]. rewrite (bool_decide_eq_true_2 (f ≠ None)) by done. cbn.
  assert (∀ written errno l, Forall io_ok l → IoFailed written errno ∉ l) as Hno.
  { intros written errno l Hl Hin. rewrite Forall_forall in Hl. by specialize (Hl _ Hin). }
  destruct io as [|[|w1 e1] [|[|w2 e2] io]]; cbn; split; try done.
  all: try by intros Hl; repeat apply Forall_cons_1 in Hl as [_ Hl].
  all: intros Hl; first [by eapply Hno; [exact Hl|left]|by eapply Hno; [exact Hl|right; left]].
Qed.

(** A file is opened, written and closed, and a message is printed. *)
Lemma write_file fmt args name body text msg margs out (rest : G unit) st Q :
  c_format (c_literals fmt) args = Ret name → zlength name < FILENAME_BUF_SIZE → dumps body text →
  c_format (c_literals msg) margs = Ret out → gs_file st = None →
  (∀ st', gs_file st' = None → gs_disk st' = <[name := text]> (gs_disk st) →
     gs_stdout st' = gs_stdout st ++ out → gs_stderr st' = gs_stderr st → gwp rest st' Q) →
  gwp (open_file fmt args;; body;; close_file;; printf msg margs;; rest) st Q.
Proof.
  intros Hfmt Hlen Hbody Hmsg Hf Hrest. apply gwp_bind. eapply gwp_mono; [by apply open_file_spec|].
  intros _ st1 (Hf1 & Hd1 & Ho1 & He1). apply gwp_bind.
  eapply gwp_mono; [apply (Hbody st1 name []); [done|rewrite Hd1; apply lookup_insert_eq]|].
  intros _ st2 [io2 ->]. apply gwp_bind. eapply gwp_mono; [by apply close_file_spec|].
  intros _ st3 (Hf3 & Hd3 & Ho3 & He3). apply gwp_bind.
  eapply gwp_mono; [by apply (creates_printf msg margs out)|].
  intros _ st4 (Hf4 & Hd4 & Ho4 & He4). cbn in *. apply Hrest; [done| | |congruence].
  - by rewrite Hd4, Hd3, Hd1, insert_insert_eq.
  - by rewrite Ho4, Ho3, Ho1.
Qed.

Lemma creates_file fmt args name body text msg margs out rest fs outs :
  c_format (c_literals fmt) args = Ret name → zlength name < FILENAME_BUF_SIZE → dumps body text →
  c_format (c_literals msg) margs = Ret out → creates rest fs outs →
  creates (open_file fmt args;; body;; close_file;; printf msg margs;; rest) ((name, text) :: fs) (out ++ outs).
Proof.
  intros Hfmt Hlen Hbody Hmsg Hrest st Hf. eapply write_file; [done..|].
  intros st' Hf' Hd' Ho' He'. eapply gwp_mono; [by apply Hrest|].
  intros _ st2 (Hf2 & Hd2 & Ho2 & He2). split_and!; [done| | |congruence].
  - by rewrite Hd2, Hd'.
  - by rewrite Ho2, Ho', app_assoc.
Qed.

Lemma creates_last_file fmt args name body text msg margs out :
  c_format (c_literals fmt) args = Ret name → zlength name < FILENAME_BUF_SIZE → dumps body text →
  c_format (c_literals msg) margs = Ret out →
  creates (open_file fmt args;; body;; close_file;; printf msg margs) [(name, text)] out.
Proof.
  intros Hfmt Hlen Hbody Hmsg st Hf. rewrite <- (app_nil_r out).
  assert (creates (mret tt) [] []) as Hend.
  { intros st' Hf'. apply gwp_ret. by rewrite app_nil_r. }
  pose proof (creates_file fmt args name body text msg margs out _ [] [] Hfmt Hlen Hbody Hmsg Hend st Hf) as Hw.
  unfold gwp, mbind, G_bind in *. destruct (open_file fmt args st) as [[[code|[]] st1]|f]; [done| |done].
  destruct (body st1) as [[[code|[]] st2]|f]; [done| |done].
  destruct (close_file st2) as [[[code|[]] st3]|f]; [done| |done].
  by destruct (printf msg margs st3) as [[[code|[]] st4]|f].
Qed.

Lemma printf_run fmt args text st : c_format (c_literals fmt) args = Ret text →
  printf fmt args st = Ret (inr tt, GenState (gs_filename_buf st) (gs_file st) (gs_disk st) (gs_stdout st ++ text)
    (gs_stderr st) (gs_io st)).
Proof.
  intros Hfmt. destruct st as [buf f d o e io]. unfold printf, mbind, G_bind, evaluate. by rewrite Hfmt.
Qed.

Lemma fprintf_run fmt args text st : c_format (c_literals fmt) args = Ret text →
  fprintf_stderr fmt args st = Ret (inr tt, GenState (gs_filename_buf st) (gs_file st) (gs_disk st) (gs_stdout st)
    (gs_stderr st ++ text) (gs_io st)).
Proof.
  intros Hfmt. destruct st as [buf f d o e io]. unfold fprintf_stderr, mbind, G_bind, evaluate. by rewrite Hfmt.
Qed.

(** While no call fails, code runs. *)
Lemma gwp_run {A} (m : G A) st Q : gwp m st Q → io_fine st →
  ∃ a st', m st = Ret (inr a, st') ∧ io_fine st' ∧ Q a st'.
Proof.
  unfold gwp. destruct (m st) as [[[code|a] st']|f]; intros [H1' H2'] Hio; [done| |done].
  exists a, st'. split_and!; auto.
Qed.

Lemma bind_run {A B} (m : G A) (k : A → G B) st a st' : m st = Ret (inr a, st') → (m ≫= k) st = k a st'.
Proof. unfold mbind, G_bind. by intros ->. Qed.

(** Code which writes, and then is not defined. *)
Definition writes_fault (m : G unit) (f : fault) : Prop :=
  ∀ st name, gs_file st = Some name → is_Some (gs_disk st !! name) → io_fine st → m st = Fault f.

Lemma writes_fault_bind m text k f : dumps m text → writes_fault k f → writes_fault (m;; k) f.
Proof.
  intros Hm Hk st name Hf [old Hd] Hio.
  destruct (gwp_run _ _ _ (Hm st name old Hf Hd) Hio) as ([] & st' & Hrun & Hio' & io' & ->).
  rewrite (bind_run _ _ _ _ _ Hrun). apply (Hk _ name); [done| |done]. exists (old ++ text). apply lookup_insert_eq.
Qed.

Lemma writes_fault_dump fmt args f k : c_format (c_literals fmt) args = Fault f →
  writes_fault (dump fmt args;; k) f.
Proof.
  intros Hfmt [buf fl d o e io] name Hf [old Hd] Hio. cbn in *. subst.
  unfold dump, vfprintf, mbind, G_bind, get_state, evaluate. cbn. by rewrite Hfmt.
Qed.

(** A program whose file cannot be written. *)
Definition runs_fault (m : G unit) (f : fault) : Prop := ∀ st, gs_file st = None → io_fine st → m st = Fault f.

Lemma runs_fault_file fmt args name body k f : c_format (c_literals fmt) args = Ret name →
  zlength name < FILENAME_BUF_SIZE → writes_fault body f → runs_fault (open_file fmt args;; body;; k) f.
Proof.
  intros Hfmt Hlen Hbody st Hf Hio.
  destruct (gwp_run _ _ _ (open_file_spec fmt args name st Hfmt Hlen Hf) Hio) as ([] & st1 & Hrun & Hio1 & Hf1 & Hd1 & _).
  rewrite (bind_run _ _ _ _ _ Hrun). unfold mbind, G_bind. rewrite (Hbody st1 name); [done|done| |done].
  rewrite Hd1, lookup_insert_eq. by eexists.
Qed.

Lemma runs_fault_next fmt args name body text msg margs out rest f :
  c_format (c_literals fmt) args = Ret name → zlength name < FILENAME_BUF_SIZE → dumps body text →
  c_format (c_literals msg) margs = Ret out → runs_fault rest f →
  runs_fault (open_file fmt args;; body;; close_file;; printf msg margs;; rest) f.
Proof.
  intros Hfmt Hlen Hbody Hmsg Hrest st Hf Hio.
  destruct (gwp_run _ _ _ (open_file_spec fmt args name st Hfmt Hlen Hf) Hio) as ([] & st1 & Hrun1 & Hio1 & Hf1 & Hd1 & _).
  rewrite (bind_run _ _ _ _ _ Hrun1).
  destruct (gwp_run _ _ _ (Hbody st1 name [] Hf1 ltac:(rewrite Hd1; apply lookup_insert_eq)) Hio1)
    as ([] & st2 & Hrun2 & Hio2 & io2 & ->).
  rewrite (bind_run _ _ _ _ _ Hrun2).
  set (st2 := GenState _ _ _ _ _ io2) in *.
  destruct (gwp_run _ _ _ (close_file_spec st2 ltac:(discriminate)) Hio2) as ([] & st3 & Hrun3 & Hio3 & Hf3 & _).
  rewrite (bind_run _ _ _ _ _ Hrun3).
  destruct (gwp_run _ _ _ (creates_printf msg margs out Hmsg st3 Hf3) Hio3) as ([] & st4 & Hrun4 & Hio4 & Hf4 & _).
  rewrite (bind_run _ _ _ _ _ Hrun4). by apply Hrest.
Qed.

(** A name which does not fit ends the program, and no file is touched. *)
Lemma open_file_too_long fmt args name st : c_format (c_literals fmt) args = Ret name →
  zlength name >= FILENAME_BUF_SIZE →
  ∃ st', open_file fmt args st = Ret (inl EXIT_FAILURE, st') ∧ gs_disk st' = gs_disk st ∧
    gs_stderr st' = gs_stderr st ++ c_literal "cannot generate filename\n".
Proof.
  intros Hfmt Hlen. destruct st as [buf f d o e io].
  assert (bool_decide (zlength name >= FILENAME_BUF_SIZE) = true) as Hlong by by apply bool_decide_eq_true_2.
  unfold open_file, mbind, G_bind, evaluate. rewrite Hfmt.
  cbn -[bool_decide die FILENAME_BUF_SIZE]. rewrite Hlong. cbn -[FILENAME_BUF_SIZE].
  eexists. split; [reflexivity|]. cbn. by rewrite <- app_assoc.
Qed.

(** ** Formats with symbolic arguments *)

Lemma c_format_eq fmt args l text : parse_format (c_literals fmt) = Some l → render l args = Ret text →
  c_format (c_literals fmt) args = Ret text.
Proof. unfold c_format. by intros ->. Qed.

(** Proves [c_format (c_literals fmt) args = Ret ?text] for literals [fmt]. *)
Ltac solve_format :=
  eapply c_format_eq; [vm_compute; reflexivity|cbn [render mbind outcome_bind]; reflexivity].

Create HintDb dumps.
#[export] Hint Resolve dumps_ret : dumps.
Ltac solve_dumps :=
  repeat first
    [ solve [eauto with dumps]
    | apply dumps_bind
    | apply dumps_dump; [solve_format|discriminate]
    | apply dumps_for_each; intros ].

(** ** The text which code writes *)

Definition scratch_state : gen_state := GenState [] (Some []) {[[] := []]} [] [] [].

Definition generated (m : G unit) : list byte :=
  match m scratch_state with
  | Ret (inr _, st) => default [] (gs_disk st !! [])
  | _ => []
  end.

Lemma dumps_generated m text : dumps m text → generated m = text.
Proof.
  intros Hm. specialize (Hm scratch_state [] [] eq_refl (lookup_insert_eq _ _ _)).
  unfold gwp, generated in *. destruct (m scratch_state) as [[[code|[]] st]|f].
  - destruct Hm as [_ Hno]. destruct Hno. constructor.
  - destruct Hm as [_ [io ->]]. cbn [gs_disk]. by rewrite lookup_insert_eq.
  - destruct Hm as [_ Hno]. destruct Hno. constructor.
Qed.
