(* ===== verification/GeneratorCommon.v ===== *)
(** * Types of parameters in C (interface-compiler/src/c_common.c) *)

From Stdlib Require Import Strings.String.
From S2P Require Import Prelude InterfaceParser Stdio.

Open Scope Z_scope.
Open Scope list_scope.
Open Scope string_scope.

(** The default cases, which call [die], cannot be reached: [param_type] has no
    other values. *)
Definition c_get_param_code_type (param : param) : list byte :=
  match p_type param with
  | PARAM_UINT32 => c_literal "uint32_t "
  | PARAM_INT32 => c_literal "int32_t "
  | PARAM_UINT64 => c_literal "uint64_t "
  | PARAM_INT64 => c_literal "int64_t "
  | PARAM_CHAR_ARRAY => c_literal "struct mrpc_char_array *"
  | PARAM_WCHAR_ARRAY => c_literal "struct mrpc_wchar_array *"
  | PARAM_BLOB => c_literal "struct mrpc_blob *"
  end.

Definition c_get_param_type (param : param) : list byte :=
  match p_type param with
  | PARAM_UINT32 => c_literal "uint32"
  | PARAM_INT32 => c_literal "int32"
  | PARAM_UINT64 => c_literal "uint64"
  | PARAM_INT64 => c_literal "int64"
  | PARAM_CHAR_ARRAY => c_literal "char_array"
  | PARAM_WCHAR_ARRAY => c_literal "wchar_array"
  | PARAM_BLOB => c_literal "blob"
  end.

Definition c_get_param_code_constructor (param : param) : list byte :=
  match p_type param with
  | PARAM_UINT32 => c_literal "mrpc_uint32_param_create"
  | PARAM_INT32 => c_literal "mrpc_int32_param_create"
  | PARAM_UINT64 => c_literal "mrpc_uint64_param_create"
  | PARAM_INT64 => c_literal "mrpc_int64_param_create"
  | PARAM_CHAR_ARRAY => c_literal "mrpc_char_array_param_create"
  | PARAM_WCHAR_ARRAY => c_literal "mrpc_wchar_array_param_create"
  | PARAM_BLOB => c_literal "mrpc_blob_param_create"
  end.

Definition c_is_param_ptr (param : param) : bool :=
  match p_type param with
  | PARAM_CHAR_ARRAY | PARAM_WCHAR_ARRAY | PARAM_BLOB => true
  | _ => false
  end.

(** [c_is_param_ptr(param) ? " = NULL" : ""] *)
Definition null_if_ptr (param : param) : list byte :=
  if c_is_param_ptr param then c_literal " = NULL" else [].
