(* ===== verification/GeneratedCode.v ===== *)
(** * Reading generated code back

    What the code generators promise is about the C code which they write.  So
    that it can be stated on the text itself, [code_of] reads the statements of a
    generated file which communicate, line by line, without knowing the generator:
    a line is a statement when it has the beginning of one.  [emits] relates a
    part of a generator to the statements of the text it writes. *)

From stdpp Require Import gmap.
From Stdlib Require Import Strings.String DecimalString.
From S2P Require Import Prelude InterfaceLexer InterfaceParser Stdio GeneratorCommon.

Open Scope Z_scope.
Open Scope list_scope.

(** ** Statements *)

(** The types of [mrpc_*_serialize] and [mrpc_*_unserialize]; variables and
    functions are named by their text.  The braces of blocks are statements of
    their own, [CloseFile] is a brace in the first column. *)
Inductive statement :=
  (* functions and tables *)
  | ClientFunction (name : list byte)
  | DistributedFunction (name : list byte)
  | HandlerFunction (name : list byte)
  | StreamHandlerFunction (name : list byte)
  | ServiceFunction (prototype : list byte)
  | HandlerEntry (name : list byte)
  | CloseTable
  | CloseFile
  (* control *)
  | Open
  | Close
  | IfFailed
  | IfNoStream
  | IfStream
  | IfNoClient
  | IfEmptyByteSet
  | IfMethodIdAtLeast (bound : list byte)
  | IfPointer (variable : list byte)
  | GotoEnd
  | EndLabel
  | Return
  | AssertFalse
  (* the stream *)
  | CreateStream
  | WriteMethodId
  | ReadMethodId
  | WriteEmptyByte
  | ReadEmptyByte
  | Serialize (type : param_type) (variable : list byte)
  | Unserialize (type : param_type) (variable : list byte)
  | FlushStream
  | DeleteStream
  | ResetConnection
  (* variables *)
  | SetMethodId (id : list byte)
  | SetFailure
  | AssignResponse (assignment : list byte)
  | IncRef (type : param_type) (variable : list byte)
  | DecRef (type : param_type) (variable : list byte)
  (* calls *)
  | CallService (name_and_arguments : list byte)
  | CallHandler
  | HashParam (type : param_type) (variable : list byte)
  | AcquireClient
  | CallClient (name_and_arguments : list byte)
  | ReleaseClient.

#[export] Instance statement_eq_dec : EqDecision statement.
Proof. solve_decision. Defined.

(** The text up to the first [c]. *)
Fixpoint take_until (c : byte) (s : list byte) : list byte :=
  match s with
  | [] => []
  | b :: s => if decide (b = c) then [] else b :: take_until c s
  end.

Fixpoint strip_prefix (p s : list byte) : option (list byte) :=
  match p, s with
  | [], _ => Some s
  | a :: p, b :: s => if decide (a = b) then strip_prefix p s else None
  | _, [] => None
  end.

Fixpoint first_match {A} (rules : list (list byte * (list byte → A))) (s : list byte) : option A :=
  match rules with
  | [] => None
  | (p, f) :: rules =>
      match strip_prefix p s with
      | Some rest => Some (f rest)
      | None => first_match rules s
      end
  end.

Definition all_types : list param_type :=
  [PARAM_UINT32; PARAM_INT32; PARAM_UINT64; PARAM_INT64; PARAM_CHAR_ARRAY; PARAM_WCHAR_ARRAY; PARAM_BLOB].
Definition type_name (t : param_type) : list byte := c_get_param_type (Param t 0 []).

Definition statement_rules : list (list byte * (list byte → statement)) :=
  [(c_literal "enum ff_result client_", λ s, ClientFunction (take_until "("%byte s));
   (c_literal "enum ff_result distributed_client_", λ s, DistributedFunction (take_until "("%byte s));
   (c_literal "static enum ff_result server_method_handler_", λ s, HandlerFunction (take_until "("%byte s));
   (c_literal "enum ff_result server_stream_handler_", λ s, StreamHandlerFunction (take_until "("%byte s));
   (c_literal "void service_", λ s, ServiceFunction (take_until ")"%byte s));
   (c_literal "\tserver_method_handler_", λ s, HandlerEntry (take_until ","%byte s));
   (c_literal "};", λ _, CloseTable);
   (c_literal "}", λ _, CloseFile);
   (c_literal "\t{", λ _, Open);
   (c_literal "\t\t{", λ _, Open);
   (c_literal "\t}", λ _, Close);
   (c_literal "\t\t}", λ _, Close);
   (c_literal "\tif (result != FF_SUCCESS)", λ _, IfFailed);
   (c_literal "\t\tif (result != FF_SUCCESS)", λ _, IfFailed);
   (c_literal "\tif (stream == NULL)", λ _, IfNoStream);
   (c_literal "\tif (stream != NULL)", λ _, IfStream);
   (c_literal "\tif (client == NULL)", λ _, IfNoClient);
   (c_literal "\t\tif (empty_byte != 0)", λ _, IfEmptyByteSet);
   (c_literal "\tif (method_id >= ", λ s, IfMethodIdAtLeast (take_until ")"%byte s));
   (c_literal "\tif (request_", λ s, IfPointer (c_literal "request_" ++ take_until " "%byte s));
   (c_literal "\tif (response_", λ s, IfPointer (c_literal "response_" ++ take_until " "%byte s));
   (c_literal "\t\tgoto end;", λ _, GotoEnd);
   (c_literal "\t\t\tgoto end;", λ _, GotoEnd);
   (c_literal "end:", λ _, EndLabel);
   (c_literal "\treturn", λ _, Return);
   (c_literal "\tff_assert(0);", λ _, AssertFalse);
   (c_literal "\tstream = mrpc_client_create_request_stream(client);", λ _, CreateStream);
   (c_literal "\tresult = ff_stream_write(stream, &method_id, 1);", λ _, WriteMethodId);
   (c_literal "\tresult = ff_stream_read(stream, &method_id, 1);", λ _, ReadMethodId);
   (c_literal "\t\tresult = ff_stream_write(stream, &empty_byte, 1);", λ _, WriteEmptyByte);
   (c_literal "\t\tresult = ff_stream_read(stream, &empty_byte, 1);", λ _, ReadEmptyByte);
   (c_literal "\tresult = ff_stream_flush(stream);", λ _, FlushStream);
   (c_literal "\t\tff_stream_delete(stream);", λ _, DeleteStream);
   (c_literal "\t\tmrpc_client_reset_connection(client);", λ _, ResetConnection);
   (c_literal "\tuint8_t method_id = ", λ s, SetMethodId (take_until ";"%byte s));
   (c_literal "\t\tresult = FF_FAILURE;", λ _, SetFailure);
   (c_literal "\t\t\tresult = FF_FAILURE;", λ _, SetFailure);
   (c_literal "\t*", λ s, AssignResponse (take_until ";"%byte s));
   (c_literal "\tservice_", λ s, CallService (take_until ")"%byte s));
   (c_literal "\tresult = server_method_handlers_", λ _, CallHandler);
   (c_literal "\tresult = mrpc_blob_get_hash(", λ s, HashParam PARAM_BLOB (take_until ","%byte s));
   (c_literal "\tclient = mrpc_distributed_client_acquire_client(", λ _, AcquireClient);
   (c_literal "\tresult = client_", λ s, CallClient (take_until ")"%byte s));
   (c_literal "\tmrpc_distributed_client_release_client(", λ _, ReleaseClient)] ++
  ((λ t, (c_literal "\tresult = mrpc_" ++ type_name t ++ c_literal "_serialize(",
          λ s, Serialize t (take_until ","%byte s))) <$> all_types) ++
  ((λ t, (c_literal "\tresult = mrpc_" ++ type_name t ++ c_literal "_unserialize(&",
          λ s, Unserialize t (take_until ","%byte s))) <$> all_types) ++
  ((λ t, (c_literal "\tmrpc_" ++ type_name t ++ c_literal "_inc_ref(",
          λ s, IncRef t (take_until ")"%byte s))) <$> all_types) ++
  ((λ t, (c_literal "\t\tmrpc_" ++ type_name t ++ c_literal "_dec_ref(",
          λ s, DecRef t (take_until ")"%byte s))) <$> all_types) ++
  ((λ t, (c_literal "\thash_value = mrpc_" ++ type_name t ++ c_literal "_get_hash(",
          λ s, HashParam t (take_until ","%byte s))) <$> all_types).

(** The statement on a line, if any. *)
Definition line_code (line : list byte) : list statement :=
  match first_match statement_rules line with Some s => [s] | None => [] end.

(** The statements so far and the line so far. *)
Definition read_char (st : list statement * list byte) (c : byte) : list statement * list byte :=
  if decide (c = x0a) then (st.1 ++ line_code st.2, []) else (st.1, st.2 ++ [c]).

Definition code_of (text : list byte) : list statement := (foldl read_char ([], []) text).1.

(** ** Reading text piece by piece *)

(** From [line] on, [text] completes the statements [code] and begins [line']. *)
Definition reads (text line : list byte) (code : list statement) (line' : list byte) : Prop :=
  ∀ code0, foldl read_char (code0, line) text = (code0 ++ code, line').

Lemma reads_nil line : reads [] line [] line.
Proof. intros code0. by rewrite app_nil_r. Qed.

Lemma reads_app t1 t2 line c1 line1 c2 line2 :
  reads t1 line c1 line1 → reads t2 line1 c2 line2 → reads (t1 ++ t2) line (c1 ++ c2) line2.
Proof. intros H1' H2' code0. by rewrite foldl_app, H1', H2', app_assoc. Qed.

Lemma reads_word (w line : list byte) : x0a ∉ w → reads w line [] (line ++ w).
Proof.
  revert line. induction w as [|c w IH]; intros line Hw code0; [by rewrite !app_nil_r|].
  apply not_elem_of_cons in Hw as [Hc Hw]. cbn [foldl]. unfold read_char at 2. rewrite decide_False by done.
  cbn [fst snd]. rewrite (IH (line ++ [c])%list Hw). by rewrite <- app_assoc.
Qed.

Lemma reads_newline line : reads [x0a] line (line_code line) [].
Proof. done. Qed.

(** The complete lines of a text, and the rest. *)
Fixpoint split_lines (s : list byte) : list (list byte) * list byte :=
  match s with
  | [] => ([], [])
  | c :: s =>
      let '(ls, last) := split_lines s in
      if decide (c = x0a) then ([] :: ls, last)
      else match ls with [] => ([], c :: last) | l :: ls => ((c :: l) :: ls, last) end
  end.

Lemma reads_lit_open s f line : split_lines s = ([], f) → reads s line [] (line ++ f).
Proof.
  revert f line. induction s as [|c s IH]; intros f line; cbn [split_lines]; [intros [= <-]; rewrite app_nil_r; apply reads_nil|].
  destruct (split_lines s) as [ls last]. case_decide as Hc; [done|]. destruct ls; [|done]. intros [= <-] code0.
  cbn [foldl]. unfold read_char at 2. rewrite decide_False by done. cbn [fst snd].
  rewrite (IH last (line ++ [c])%list eq_refl). by rewrite <- app_assoc.
Qed.

Lemma reads_lit_lines s f ls last line : split_lines s = (f :: ls, last) →
  reads s line (line_code (line ++ f) ++ concat (line_code <$> ls)) last.
Proof.
  revert f ls last line. induction s as [|c s IH]; intros f ls last line; cbn [split_lines]; [done|].
  destruct (split_lines s) as [ls0 last0] eqn:Hs. intros Heq code0. cbn [foldl]. unfold read_char at 2.
  case_decide as Hc.
  - injection Heq as <- <- <-. cbn [fst snd]. rewrite app_nil_r. destruct ls0 as [|l ls0].
    + rewrite (reads_lit_open s last0 [] Hs). cbn. by rewrite !app_nil_r.
    + rewrite (IH l ls0 last0 [] eq_refl). cbn. by rewrite <- !app_assoc.
  - destruct ls0 as [|l ls0]; [done|]. injection Heq as <- <- <-. cbn [fst snd].
    rewrite (IH l ls0 last0 (line ++ [c])%list eq_refl). by rewrite <- app_assoc.
Qed.

Lemma reads_code text code line' : reads text [] code line' → code_of text = code.
Proof. intros H'. unfold code_of. by rewrite (H' []). Qed.

Lemma reads_lines s f ls last line code : split_lines s = (f :: ls, last) →
  concat (line_code <$> ls) = code → reads s line (line_code (line ++ f) ++ code) last.
Proof. intros Hs <-. by apply reads_lit_lines. Qed.

(** ** What code emits *)

Definition emits (m : G unit) (line : list byte) (code : list statement) (line' : list byte) : Prop :=
  ∃ text, dumps m text ∧ reads text line code line'.

Lemma emits_dumps m line code line' : emits m line code line' → dumps m (generated m).
Proof. intros (text & Hm & _). by rewrite (dumps_generated m text). Qed.

Lemma emits_code m code line' : emits m [] code line' → code_of (generated m) = code.
Proof. intros (text & Hm & Hr). rewrite (dumps_generated m text Hm). by eapply reads_code. Qed.

Lemma emits_eq m line code line' code' line'' :
  emits m line code line' → code = code' → line' = line'' → emits m line code' line''.
Proof. by intros ? <- <-. Qed.

Lemma emits_ret line : emits (mret tt) line [] line.
Proof. exists []. split; [apply dumps_ret|apply reads_nil]. Qed.

Lemma emits_bind m k line c1 line1 c2 line2 :
  emits m line c1 line1 → emits k line1 c2 line2 → emits (m;; k) line (c1 ++ c2) line2.
Proof.
  intros (t1 & Hm1 & Hr1) (t2 & Hm2 & Hr2). exists (t1 ++ t2). split; [by apply dumps_bind|by eapply reads_app].
Qed.

Lemma emits_evaluate {A} (o : outcome A) a k line code line' : o = Ret a →
  emits (k a) line code line' → emits (evaluate o ≫= k) line code line'.
Proof. intros Ho (text & Hm & Hr). exists text. split; [by eapply dumps_evaluate|done]. Qed.

Lemma emits_ext m m' line code line' : (∀ st, m st = m' st) → emits m line code line' → emits m' line code line'.
Proof. intros Heq (text & Hm & Hr). exists text. split; [by eapply dumps_ext|done]. Qed.

Lemma emits_dump fmt args ps text line code line' :
  parse_format (c_literals fmt) = Some ps → render ps args = Ret text → text ≠ [] →
  reads text line code line' → emits (dump fmt args) line code line'.
Proof. intros Hp Hr Hne Hreads. exists text. split; [|done]. apply dumps_dump; [by eapply c_format_eq|done]. Qed.

(** Loops which write whole lines, and loops which add to the line. *)
Lemma emits_for_each {A} (l : list A) body g : (∀ a, a ∈ l → emits (body a) [] (g a) []) →
  emits (for_each l body) [] (concat (g <$> l)) [].
Proof.
  induction l as [|a l IH]; intros Hall; [apply emits_ret|]. cbn [for_each fmap list_fmap concat].
  eapply emits_bind; [apply Hall; by left|]. apply IH. intros b Hb. apply Hall. by right.
Qed.

Lemma emits_for_each_none {A} (l : list A) body : (∀ a, a ∈ l → emits (body a) [] [] []) →
  emits (for_each l body) [] [] [].
Proof.
  intros Hall. eapply emits_eq; [by apply (emits_for_each l body (λ _, []))| |done].
  induction l as [|a l IH]; [done|]. apply IH. intros b Hb. apply Hall. by right.
Qed.

Lemma emits_for_each_line {A} (l : list A) body g line :
  (∀ a line, a ∈ l → emits (body a) line [] (line ++ g a)) →
  emits (for_each l body) line [] (line ++ concat (g <$> l)).
Proof.
  revert line. induction l as [|a l IH]; intros line Hall; cbn [for_each fmap list_fmap concat].
  - rewrite app_nil_r. apply emits_ret.
  - rewrite app_assoc. apply (emits_bind (body a) (for_each l body) line [] (line ++ g a) []); [apply Hall; by left|].
    apply IH. intros b line' Hb. apply Hall. by right.
Qed.

Lemma fmap_as_concat {A B} (f : A → B) l : f <$> l = concat ((λ a, [f a]) <$> l).
Proof. induction l as [|a l IH]; [done|]. cbn. by f_equal. Qed.

(** ** Characters which do not occur *)

Lemma without_app (c : byte) (w1 w2 : list byte) : c ∉ w1 → c ∉ w2 → c ∉ w1 ++ w2.
Proof. rewrite elem_of_app. tauto. Qed.

Lemma without_concat {A} (c : byte) (l : list A) (g : A → list byte) : (∀ a, a ∈ l → c ∉ g a) → c ∉ concat (g <$> l).
Proof.
  induction l as [|a l IH]; intros Hall; cbn [fmap list_fmap concat]; [apply not_elem_of_nil|].
  apply without_app; [apply Hall; by left|]. apply IH. intros b Hb. apply Hall. by right.
Qed.

Lemma take_until_app c w s : c ∉ w → take_until c (w ++ s) = w ++ take_until c s.
Proof.
  induction w as [|b w IH]; [done|]. intros [Hb Hw]%not_elem_of_cons. cbn [take_until app].
  by rewrite decide_False, IH.
Qed.

Lemma take_until_delimiter c s : take_until c (c :: s) = [].
Proof. cbn. by rewrite decide_True. Qed.

Lemma identifier_without c w : identifier w → is_word c = false → c ∉ w.
Proof.
  destruct w as [|b w]; [done|]. intros (Hb & Hw & _) Hc Hin.
  assert (Is_true (is_word c)) as Hword; [|by rewrite Hc in Hword].
  apply elem_of_cons in Hin as [->|Hin]; [|by rewrite Forall_forall in Hw; apply Hw].
  unfold is_word, alnum_class. unfold is_alpha in Hb. by destruct (alpha_class (int_of_char b)).
Qed.

Lemma uint_without c u : c ∉ chars "0123456789" → c ∉ list_byte_of_string (NilEmpty.string_of_uint u).
Proof.
  intros Hc. assert (∀ d : byte, bool_decide (d ∈ chars "0123456789") = true → c ≠ d) as Hd.
  { intros d Hd%bool_decide_eq_true ->. done. }
  induction u; cbn; [apply not_elem_of_nil|..]; (apply not_elem_of_cons; split; [by apply Hd|done]).
Qed.

Lemma decimal_without c z : 0 <= z → c ∉ chars "0123456789" → c ∉ decimal z.
Proof.
  intros Hz Hc. unfold decimal. destruct z as [|p|p]; [..|lia]; cbn [Z.to_int].
  - by apply (uint_without c (Decimal.D0 Decimal.Nil)).
  - unfold NilZero.string_of_int, NilZero.string_of_uint. pose proof (uint_without c (Pos.to_uint p) Hc) as Hp.
    destruct (Pos.to_uint p); try done. by apply (uint_without c (Decimal.D0 Decimal.Nil)).
Qed.

(** ** Lines with names *)

(** A literal which is evaluated when it is read. *)
#[local] Abbreviation lit s := (ltac:(let x := eval vm_compute in (c_literal s) in exact x)) (only parsing).

Lemma line_word (pre : list byte) c (C : list byte → statement) w :
  (∀ s, line_code (pre ++ s) = [C (take_until c s)]) → ∀ s, c ∉ w → line_code (pre ++ w ++ c :: s) = [C w].
Proof. intros Hpre s Hw. by rewrite Hpre, take_until_app, take_until_delimiter, app_nil_r. Qed.

Lemma line_serialize param w s : ","%byte ∉ w →
  line_code (lit "\tresult = mrpc_" ++ c_get_param_type param ++ lit "_serialize(" ++ w ++ ","%byte :: s) =
  [Serialize (p_type param) w].
Proof.
  intros Hw. rewrite 2!app_assoc, <- (app_assoc _ (c_get_param_type param)).
  apply (line_word _ ","%byte (Serialize (p_type param))); [|done]. intros s'.
  unfold c_get_param_type. destruct (p_type param); vm_compute; reflexivity.
Qed.

Lemma line_unserialize param w s : ","%byte ∉ w →
  line_code (lit "\tresult = mrpc_" ++ c_get_param_type param ++ lit "_unserialize(&" ++ w ++ ","%byte :: s) =
  [Unserialize (p_type param) w].
Proof.
  intros Hw. rewrite 2!app_assoc, <- (app_assoc _ (c_get_param_type param)).
  apply (line_word _ ","%byte (Unserialize (p_type param))); [|done]. intros s'.
  unfold c_get_param_type. destruct (p_type param); vm_compute; reflexivity.
Qed.

Lemma line_hash param w s : ","%byte ∉ w →
  line_code (lit "\thash_value = mrpc_" ++ c_get_param_type param ++ lit "_get_hash(" ++ w ++ ","%byte :: s) =
  [HashParam (p_type param) w].
Proof.
  intros Hw. rewrite 2!app_assoc, <- (app_assoc _ (c_get_param_type param)).
  apply (line_word _ ","%byte (HashParam (p_type param))); [|done]. intros s'.
  unfold c_get_param_type. destruct (p_type param); vm_compute; reflexivity.
Qed.

Lemma line_inc_ref param w s : ")"%byte ∉ w →
  line_code (lit "\tmrpc_" ++ c_get_param_type param ++ lit "_inc_ref(" ++ w ++ ")"%byte :: s) =
  [IncRef (p_type param) w].
Proof.
  intros Hw. rewrite 2!app_assoc, <- (app_assoc _ (c_get_param_type param)).
  apply (line_word _ ")"%byte (IncRef (p_type param))); [|done]. intros s'.
  unfold c_get_param_type. destruct (p_type param); vm_compute; reflexivity.
Qed.

Lemma line_dec_ref param w s : ")"%byte ∉ w →
  line_code (lit "\t\tmrpc_" ++ c_get_param_type param ++ lit "_dec_ref(" ++ w ++ ")"%byte :: s) =
  [DecRef (p_type param) w].
Proof.
  intros Hw. rewrite 2!app_assoc, <- (app_assoc _ (c_get_param_type param)).
  apply (line_word _ ")"%byte (DecRef (p_type param))); [|done]. intros s'.
  unfold c_get_param_type. destruct (p_type param); vm_compute; reflexivity.
Qed.

(** A line which begins like no statement. *)
Fixpoint differs (p s : list byte) : bool :=
  match p, s with
  | a :: p, b :: s => if decide (a = b) then differs p s else true
  | _, _ => false
  end.
Definition no_rule (p : list byte) : bool := forallb (λ r, differs r.1 p) statement_rules.

Lemma differs_strip p s s' : differs p s = true → strip_prefix p (s ++ s') = None.
Proof.
  revert s. induction p as [|a p IH]; intros [|b s]; cbn; try done. case_decide; [apply IH|done].
Qed.

Lemma line_none p s : no_rule p = true → line_code (p ++ s) = [].
Proof.
  unfold no_rule, line_code. induction statement_rules as [|[q f] rules IH]; cbn; [done|].
  intros [Hq Hrules]%andb_prop. rewrite differs_strip by done. by apply IH.
Qed.

(** A declaration of a variable. *)
Lemma line_declaration param s : line_code ([x09] ++ c_get_param_code_type param ++ s) = [].
Proof. unfold c_get_param_code_type. destruct (p_type param); vm_compute; reflexivity. Qed.

Lemma code_type_without param : x0a ∉ c_get_param_code_type param.
Proof. unfold c_get_param_code_type. destruct (p_type param); apply (bool_decide_unpack _); by vm_compute. Qed.
Lemma type_without param : x0a ∉ c_get_param_type param.
Proof. unfold c_get_param_type. destruct (p_type param); apply (bool_decide_unpack _); by vm_compute. Qed.
Lemma null_without param : x0a ∉ null_if_ptr param.
Proof. unfold null_if_ptr, c_is_param_ptr. destruct (p_type param); apply (bool_decide_unpack _); by vm_compute. Qed.

Lemma request_name m param : method_valid m → param ∈ m_request_params m → identifier (p_name param).
Proof. intros (_ & Hps & _) Hin. rewrite Forall_forall in Hps. by apply Hps. Qed.
Lemma response_name m param : method_valid m → param ∈ m_response_params m → identifier (p_name param).
Proof. intros (_ & _ & Hps) Hin. rewrite Forall_forall in Hps. by apply Hps. Qed.
Lemma interface_name i : interface_valid i → identifier (i_name i).
Proof. by intros (Hi & _). Qed.
Lemma method_name m : method_valid m → identifier (m_name m).
Proof. by intros (Hm & _). Qed.

(** ** Automation *)

Create HintDb without.
#[export] Hint Extern 1 (is_word _ = false) => vm_compute; reflexivity : without.
#[export] Hint Resolve code_type_without type_without null_without request_name response_name method_name interface_name
  decimal_without : without.
#[export] Hint Extern 1 (_ ∉ c_literal _) => apply (bool_decide_unpack _); vm_compute; exact I : without.
#[export] Hint Extern 1 (_ ∉ chars _) => apply (bool_decide_unpack _); vm_compute; exact I : without.

Ltac solve_without :=
  lazymatch goal with
  | |- _ ∉ _ ++ _ => apply without_app; solve_without
  | |- _ ∉ concat (_ <$> _) => apply without_concat; intros ? ?; solve_without
  | |- _ ∉ c_literal _ => apply (bool_decide_unpack _); vm_compute; exact I
  | |- _ ∉ p_name _ => apply identifier_without; [solve [eauto with without]|vm_compute; reflexivity]
  | |- _ =>
      first
        [ assumption
        | apply identifier_without; [solve [eauto with without]|vm_compute; reflexivity]
        | solve [eauto with without]
        | apply (bool_decide_unpack _); vm_compute; exact I ]
  end.

Ltac reads_steps :=
  lazymatch goal with
  | |- reads [] _ _ _ => apply reads_nil
  | |- reads (_ ++ _) _ _ _ => eapply reads_app; [reads_steps|reads_steps]
  | |- reads (?c :: ?s) _ _ _ =>
      let r := eval vm_compute in (split_lines (c :: s)) in
      lazymatch r with
      | ([], ?f) => apply (reads_lit_open (c :: s) f); vm_compute; reflexivity
      | (?f :: ?ls, ?last) =>
          let code := eval vm_compute in (concat (line_code <$> ls)) in
          apply (reads_lines (c :: s) f ls last _ code); vm_compute; reflexivity
      end
  | |- _ => apply reads_word; solve_without
  end.

(** Code is rewritten and not computed with, so that lines are only looked at by
    these tactics. *)
Ltac simpl_app := rewrite ?app_nil_l, ?app_nil_r, <- ?app_assoc; rewrite ?app_nil_l.

Ltac is_list l :=
  lazymatch l with
  | _ :: ?l => is_list l
  | ?l1 ++ ?l2 => is_list l1; is_list l2
  | [] => idtac
  end.

(** The lines which are known to be one statement, or none. *)
Ltac simpl_lines :=
  simpl_app;
  repeat
    match goal with
    | |- context [line_code ?l] =>
        tryif is_list l then
          let r := eval vm_compute in (line_code l) in
          replace (line_code l) with r by (vm_compute; reflexivity)
        else
          lazymatch l with
          | ?p ++ ?s =>
              is_list p;
              lazymatch eval vm_compute in (no_rule p) with
              | true => rewrite (line_none p s ltac:(vm_compute; reflexivity))
              end
          end
    end;
  simpl_app.

Ltac emits_dump_step :=
  lazymatch goal with
  | |- emits (dump ?fmt ?args) _ _ _ =>
      let r := eval vm_compute in (parse_format (c_literals fmt)) in
      lazymatch r with
      | Some ?l =>
          eapply emits_eq;
            [eapply (emits_dump fmt args l);
              [vm_compute; reflexivity|cbn [render mbind outcome_bind]; reflexivity|discriminate|reads_steps]
            |simpl_lines; reflexivity|simpl_app; reflexivity]
      end
  end.

Create HintDb emits.

(** Loops and calls are left to the lemmas about them. *)
Ltac emits_steps :=
  repeat
    lazymatch goal with
    | |- emits (for_each _ _) _ _ _ => solve [eauto with emits]
    | |- emits (mret tt) _ _ _ => apply emits_ret
    | |- emits (dump _ _) _ _ _ => emits_dump_step
    | |- emits (_ ≫= _) _ _ _ => eapply emits_bind
    | |- emits _ _ _ _ => solve [eauto with emits]
    end.


(** Compares what is written with what is expected. *)
Ltac emits_line := eapply emits_eq; [emits_steps|simpl_lines; reflexivity|simpl_app; reflexivity].

(** One of the lines is the one which [lem] is about. *)
Ltac line_by lem :=
  match goal with
  | |- context [line_code ?l] =>
      let H := fresh in
      eassert (line_code l = _) as H
        by (etransitivity; [refine (f_equal line_code _)|eapply lem; solve_without];
            first [reflexivity|simpl_app; reflexivity]);
      rewrite H; clear H
  end; simpl_app.

(** The line which begins with [pre] is the statement [C w]; [w] goes up to [c]. *)
Ltac line_is pre c C w :=
  let pre := eval vm_compute in (c_literal pre) in
  line_by (line_word pre c C w ltac:(intros; vm_compute; reflexivity)).

(** The names in generated code. *)
Definition stub_name (i : interface) (m : method) : list byte := i_name i ++ c_literal "_" ++ m_name m.
Definition request_variable (p : param) : list byte := c_literal "request_" ++ p_name p.
Definition response_variable (p : param) : list byte := c_literal "response_" ++ p_name p.

Lemma word_without c s : is_word c = false → Forall (λ b, is_word b = true) (c_literal s) → c ∉ c_literal s.
Proof. intros Hc Hall Hin. rewrite Forall_forall in Hall. specialize (Hall c Hin). congruence. Qed.

Lemma response_without c m p : method_valid m → p ∈ m_response_params m → is_word c = false →
  c ∉ response_variable p.
Proof.
  intros Hm Hp Hc. apply without_app; [|eauto using identifier_without, response_name].
  apply word_without; [done|]. apply (bool_decide_unpack _). by vm_compute.
Qed.

Lemma request_without c m p : method_valid m → p ∈ m_request_params m → is_word c = false →
  c ∉ request_variable p.
Proof.
  intros Hm Hp Hc. apply without_app; [|eauto using identifier_without, request_name].
  apply word_without; [done|]. apply (bool_decide_unpack _). by vm_compute.
Qed.
#[export] Hint Resolve response_without request_without : without.

(** The parameters in a declaration. *)
Lemma emits_value_params m line : method_valid m →
  emits (for_each (m_request_params m) (λ param,
      dump [", %s%s"%string] [ArgStr (c_get_param_code_type param); ArgStr (p_name param)])) line []
    (line ++ concat ((λ p, c_literal ", " ++ c_get_param_code_type p ++ p_name p) <$> m_request_params m)).
Proof. intros Hm. apply emits_for_each_line. intros p l Hin. emits_line. Qed.

Lemma emits_pointer_params m line : method_valid m →
  emits (for_each (m_response_params m) (λ param,
      dump [", %s*%s"%string] [ArgStr (c_get_param_code_type param); ArgStr (p_name param)])) line []
    (line ++ concat ((λ p, c_literal ", " ++ c_get_param_code_type p ++ c_literal "*" ++ p_name p) <$> m_response_params m)).
Proof. intros Hm. apply emits_for_each_line. intros p l Hin. emits_line. Qed.

Lemma emits_response_declarations m : method_valid m →
  emits (for_each (m_response_params m) (λ param, dump ["\t%sresponse_%s%s;\n"%string]
    [ArgStr (c_get_param_code_type param); ArgStr (p_name param); ArgStr (null_if_ptr param)])) [] [] [].
Proof.
  intros Hm. apply emits_for_each_none. intros p Hin. eapply emits_eq; [emits_steps| |reflexivity].
  by line_by (line_declaration p).
Qed.

(** The references which a function gives up at its end. *)
Definition release_code (variable : param → list byte) (ps : list param) : list statement :=
  concat ((λ p, if c_is_param_ptr p then
                  [IfPointer (variable p); Open; DecRef (p_type p) (variable p); Close]
                else []) <$> ps).

Lemma emits_response_releases m : method_valid m →
  emits (for_each (m_response_params m) (λ param,
    if c_is_param_ptr param then
      dump ["\tif (response_%s != NULL)\n\t{\n\t\tmrpc_%s_dec_ref(response_%s);\n\t}\n"%string]
        [ArgStr (p_name param); ArgStr (c_get_param_type param); ArgStr (p_name param)]
    else mret tt)) [] (release_code response_variable (m_response_params m)) [].
Proof.
  intros Hm. apply emits_for_each. intros p Hin. destruct (c_is_param_ptr p); [|emits_line].
  eapply emits_eq; [emits_steps| |reflexivity].
  line_is "\tif (response_" " "%byte (λ w, IfPointer (c_literal "response_" ++ w)) (p_name p).
  line_by (line_dec_ref p (response_variable p)). unfold response_variable. reflexivity.
Qed.

#[export] Hint Resolve emits_value_params emits_pointer_params emits_response_declarations
  emits_response_releases : emits.

(** The statements of a call which is checked. *)
Definition checked (s : statement) : list statement := [s; IfFailed; Open; GotoEnd; Close].

(** Names of files of parsed interfaces fit the buffer of [open_file]. *)
Lemma file_name_fits i pre suf : interface_valid i → zlength pre + zlength suf <= FILENAME_BUF_SIZE - MAX_LEXEME_SIZE →
  zlength (pre ++ i_name i ++ suf) < FILENAME_BUF_SIZE.
Proof.
  intros (Hi & _) Hlen. apply identifier_length in Hi. rewrite !zlength_app. unfold FILENAME_BUF_SIZE, MAX_LEXEME_SIZE in *. lia.
Qed.


Ltac solve_name := eapply c_format_eq; [vm_compute; reflexivity|reflexivity].
Ltac solve_fits := apply file_name_fits; [assumption|vm_compute; discriminate].
