(* ===== verification/ClientGenerator.v ===== *)
(** * The generator of the client code (interface-compiler/src/c_client_generator.c)

    One definition for each function; the loops are [for_each]. *)

From Stdlib Require Import Strings.String.
From S2P Require Import Prelude InterfaceLexer InterfaceParser Stdio GeneratorCommon GeneratedCode.

Open Scope Z_scope.
Open Scope list_scope.
Section generator.
#[local] Open Scope string_scope.

Definition dump_client_method_declaration (interface : interface) (method : method) : G unit :=
  dump ["/* invokes the rpc method [%s] of the client interface [%s] using the given client.\n"]
    [ArgStr (m_name method); ArgStr (i_name interface)];;
  dump [
    " * The caller must be responsible for deleting returned response parameters.\n";
    " * Returns FF_SUCCESS on success, FF_FAILURE on error.\n";
    " * If the function returns FF_FAILURE, then there is no need to delete response parameters,\n";
    " * because they aren't set in this case.\n";
    " */\n"] [];;
  dump ["enum ff_result client_%s_%s(struct mrpc_client *client"]
    [ArgStr (i_name interface); ArgStr (m_name method)];;
  for_each (m_request_params method) (λ param,
    dump [", %s%s"] [ArgStr (c_get_param_code_type param); ArgStr (p_name param)]);;
  for_each (m_response_params method) (λ param,
    dump [", %s*%s"] [ArgStr (c_get_param_code_type param); ArgStr (p_name param)]);;
  dump [")"] [].

(** The calls of one method; its parts, in the order of the function. *)
Definition dump_client_request (method : method) : G unit :=
  match m_request_params method with
  | [] =>
      dump ["\t/* there is no request parameters */\n"] []
  | params =>
      for_each params (λ param,
        dump ["\tresult = mrpc_%s_serialize(%s, stream);\n"]
          [ArgStr (c_get_param_type param); ArgStr (p_name param)];;
        dump ["\tif (result != FF_SUCCESS)\n\t{\n"] [];;
        dump ["\t\tff_log_debug(L\qcannot serialize the %s of the type %s to the stream=%%p. See previous messages for more info\q, stream);\n"]
          [ArgStr (p_name param); ArgStr (c_get_param_type param)];;
        dump ["\t\tgoto end;\n\t}\n"] [])
  end.

Definition dump_client_response (method : method) : G unit :=
  match m_response_params method with
  | [] =>
      dump [
        "\t/* there is no response parameters */\n";
        "\t{\n\t\tuint8_t empty_byte;\n\n";
        "\t\tresult = ff_stream_read(stream, &empty_byte, 1);\n";
        "\t\tif (result != FF_SUCCESS)\n\t\t{\n";
        "\t\t\tff_log_debug(L\qcannot read an empty byte from the stream=%%p. See previous messages for more info\q, stream);\n";
        "\t\t\tgoto end;\n\t\t}\n";
        "\t\tif (empty_byte != 0)\n\t\t{\n";
        "\t\t\tff_log_debug(L\qunexpected empty_byte=%%d read from the stream. Expected 0\q, (int) empty_byte);\n";
        "\t\t\tresult = FF_FAILURE;\n";
        "\t\t\tgoto end;\n\t\t}\n\t}\n"] []
  | params =>
      for_each params (λ param,
        dump ["\tresult = mrpc_%s_unserialize(&response_%s, stream);\n"]
          [ArgStr (c_get_param_type param); ArgStr (p_name param)];;
        dump ["\tif (result != FF_SUCCESS)\n\t{\n"] [];;
        dump ["\t\tff_log_debug(L\qcannot unserialize the %s of the type %s from the stream=%%p. See previous messages for more info\q, stream);\n"]
          [ArgStr (p_name param); ArgStr (c_get_param_type param)];;
        dump ["\t\tgoto end;\n\t}\n"] []);;
      dump ["\n"] [];;
      for_each params (λ param,
        dump ["\t*%s = response_%s;\n"] [ArgStr (p_name param); ArgStr (p_name param)];;
        if c_is_param_ptr param then
          dump ["\tmrpc_%s_inc_ref(response_%s);\n"] [ArgStr (c_get_param_type param); ArgStr (p_name param)]
        else mret tt)
  end.

Definition dump_client_method (interface : interface) (method : method) (id : Z) : G unit :=
  dump_client_method_declaration interface method;;
  dump ["\n{\n"] [];;
  dump ["\tstruct ff_stream *stream;\n"] [];;
  for_each (m_response_params method) (λ param,
    dump ["\t%sresponse_%s%s;\n"]
      [ArgStr (c_get_param_code_type param); ArgStr (p_name param); ArgStr (null_if_ptr param)]);;
  dump ["\tuint8_t method_id = %d;\n"] [ArgInt id];;
  dump ["\tenum ff_result result;\n\n"] [];;
  dump [
    "\tstream = mrpc_client_create_request_stream(client);\n";
    "\tif (stream == NULL)\n\t{\n";
    "\t\tff_log_debug(L\qcannot create request stream using the client=%%p and tries_cnt=%%d. See previous messages for more info\q, client, REQUEST_STREAM_TRIES_CNT);\n";
    "\t\tresult = FF_FAILURE;\n";
    "\t\tgoto end;\n\t}\n\n"] [];;
  dump [
    "\tresult = ff_stream_write(stream, &method_id, 1);\n";
    "\tif (result != FF_SUCCESS)\n\t{\n";
    "\t\tff_log_debug(L\qcannot write method_id=%%d to the request stream=%%p. See previous messages for more info\q, method_id, stream);\n";
    "\t\tgoto end;\n\t}\n\n"] [];;
  dump_client_request method;;
  dump ["\n\tresult = ff_stream_flush(stream);\n"] [];;
  dump [
    "\tif (result != FF_SUCCESS)\n\t{\n";
    "\t\tff_log_debug(L\qcannot flush the stream=%%p. See previous messages for more info\q, stream);\n";
    "\t\tgoto end;\n\t}\n\n"] [];;
  dump_client_response method;;
  dump ["\nend:\n"] [];;
  dump [
    "\tif (result != FF_SUCCESS)\n\t{\n";
    "\t\tmrpc_client_reset_connection(client);\n\t}\n"] [];;
  for_each (m_response_params method) (λ param,
    if c_is_param_ptr param then
      dump ["\tif (response_%s != NULL)\n\t{\n\t\tmrpc_%s_dec_ref(response_%s);\n\t}\n"]
        [ArgStr (p_name param); ArgStr (c_get_param_type param); ArgStr (p_name param)]
    else mret tt);;
  dump ["\tif (stream != NULL)\n\t{\n\t\tff_stream_delete(stream);\n\t}\n"] [];;
  dump ["\treturn result;\n}\n"] [].

(** The loop of [dump_client_source], from method [i] on. *)
Fixpoint dump_client_methods (interface : interface) (methods : list method) (i : Z) : G unit :=
  match methods with
  | [] => mret tt
  | method :: methods =>
      dump ["\n"] [];;
      dump_client_method interface method i;;
      i ← evaluate (checked_int (i + 1));
      dump_client_methods interface methods i
  end.

Definition dump_client_source (interface : interface) : G unit :=
  dump ["/* auto-generated code of the client for the interface [%s] */\n"] [ArgStr (i_name interface)];;
  dump ["#include \qmrpc/mrpc_common.h\q\n\n"] [];;
  dump ["#include \qclient_%s.h\q\n\n"] [ArgStr (i_name interface)];;
  dump [
    "#include \qmrpc/mrpc_int.h\q\n";
    "#include \qmrpc/mrpc_blob.h\q\n";
    "#include \qmrpc/mrpc_char_array.h\q\n";
    "#include \qmrpc/mrpc_wchar_array.h\q\n\n"] [];;
  dump [
    "#include \qmrpc/mrpc_client.h\q\n";
    "#include \qff/ff_stream.h\q\n"] [];;
  dump_client_methods interface (i_methods interface) 0.

Definition dump_distributed_client_method_declaration (interface : interface) (method : method) : G unit :=
  dump ["/* invokes the rpc method [%s] of the client interface [%s] using the given distributed client.\n"]
    [ArgStr (m_name method); ArgStr (i_name interface)];;
  dump [
    " * The caller must be responsible for deleting returned response parameters.\n";
    " * Returns FF_SUCCESS on success, FF_FAILURE on error.\n";
    " * If the function returns FF_FAILURE, then there is no need to delete response parameters,\n";
    " * because they aren't set in this case.\n";
    " */\n"] [];;
  dump ["enum ff_result distributed_client_%s_%s(struct mrpc_distributed_client *distributed_client"]
    [ArgStr (i_name interface); ArgStr (m_name method)];;
  for_each (m_request_params method) (λ param,
    dump [", %s%s"] [ArgStr (c_get_param_code_type param); ArgStr (p_name param)]);;
  for_each (m_response_params method) (λ param,
    dump [", %s*%s"] [ArgStr (c_get_param_code_type param); ArgStr (p_name param)]);;
  dump [")"] [].

(** The part of the hash value of one parameter. *)
Definition dump_param_hash (param : param) : G unit :=
  if bool_decide (p_is_key param ≠ 0) then
    if bool_decide (p_type param ≠ PARAM_BLOB) then
      dump ["\thash_value = mrpc_%s_get_hash(%s, hash_value);\n"]
        [ArgStr (c_get_param_type param); ArgStr (p_name param)]
    else
      dump ["\tresult = mrpc_blob_get_hash(%s, hash_value, &hash_value);\n"] [ArgStr (p_name param)];;
      dump ["\tif (result != FF_SUCCESS)\n\t{\n"] [];;
      dump ["\t\tff_log_debug(L\qcannot calculate hash value for the blob=%%p. See previous messages for more info\q, %s);\n"]
        [ArgStr (p_name param)];;
      dump ["\t\tgoto end;\n\t}\n"] []
  else mret tt.

Definition dump_distributed_client_method (interface : interface) (method : method) : G unit :=
  dump_distributed_client_method_declaration interface method;;
  dump ["\n{\n"] [];;
  dump [
    "\tstruct mrpc_client *client;\n";
    "\tconst void *cookie;\n";
    "\tuint32_t hash_value = 0;\n";
    "\tenum ff_result result;\n\n"] [];;
  for_each (m_request_params method) dump_param_hash;;
  dump [
    "\tclient = mrpc_distributed_client_acquire_client(distributed_client, hash_value, &cookie);\n";
    "\tif (client == NULL)\n\t{\n";
    "\t\tff_log_debug(L\qcannot acquire client from distributed_client=%%p. See previous messages for more info\q, distributed_client);\n";
    "\t\tresult = FF_FAILURE;\n";
    "\t\tgoto end;\n\t}\n"] [];;
  dump ["\tresult = client_%s_%s(client"] [ArgStr (i_name interface); ArgStr (m_name method)];;
  for_each (m_request_params method) (λ param,
    dump [", %s"] [ArgStr (p_name param)]);;
  for_each (m_response_params method) (λ param,
    dump [", %s"] [ArgStr (p_name param)]);;
  dump [");\n"] [];;
  dump ["\tif (result != FF_SUCCESS)\n\t{\n"] [];;
  dump ["\t\tff_log_debug(L\qerror when calling rpc method [%s]. See previous messages for more info\q);\n\t}\n"]
    [ArgStr (m_name method)];;
  dump ["\tmrpc_distributed_client_release_client(distributed_client, client, cookie);\n\n"] [];;
  dump ["end:\n"] [];;
  dump ["\treturn result;\n}\n"] [].

(** The second [#include] has a conversion and no argument. *)
Definition dump_distributed_client_source (interface : interface) : G unit :=
  dump ["/* auto-generated code of the distributed client for the interface [%s] */\n"] [ArgStr (i_name interface)];;
  dump ["#include \qmrpc/mrpc_common.h\q\n\n"] [];;
  dump ["#include \qdistributed_client_%s.h\q\n"] [ArgStr (i_name interface)];;
  dump ["#include \qclient_%s.h\q\n\n"] [];;
  dump [
    "#include \qmrpc/mrpc_int.h\q\n";
    "#include \qmrpc/mrpc_blob.h\q\n";
    "#include \qmrpc/mrpc_char_array.h\q\n";
    "#include \qmrpc/mrpc_wchar_array.h\q\n\n"] [];;
  dump [
    "#include \qmrpc/mrpc_distributed_client.h\q\n";
    "#include \qmrpc/mrpc_client.h\q\n"] [];;
  for_each (i_methods interface) (λ method,
    dump ["\n"] [];;
    dump_distributed_client_method interface method).

Definition dump_client_header (interface : interface) : G unit :=
  dump ["#ifndef CLIENT_%s_H\n#define CLIENT_%s_H\n\n"] [ArgStr (i_name interface); ArgStr (i_name interface)];;
  dump [
    "#include \qmrpc/mrpc_common.h\q\n\n";
    "#include \qmrpc/mrpc_int.h\q\n";
    "#include \qmrpc/mrpc_blob.h\q\n";
    "#include \qmrpc/mrpc_char_array.h\q\n";
    "#include \qmrpc/mrpc_wchar_array.h\q\n\n";
    "#include \qmrpc/mrpc_client.h\q\n\n"] [];;
  dump ["#ifdef __cplusplus\nextern \qC\q {\n#endif\n\n"] [];;
  for_each (i_methods interface) (λ method,
    dump_client_method_declaration interface method;;
    dump [";\n\n"] []);;
  dump ["#ifdef __cplusplus\n}\n#endif\n\n"] [];;
  dump ["#endif\n"] [].

Definition dump_distributed_client_header (interface : interface) : G unit :=
  dump ["#ifndef DISTRIBUTED_CLIENT_%s_H\n#define DISTRIBUTED_CLIENT_%s_H\n\n"]
    [ArgStr (i_name interface); ArgStr (i_name interface)];;
  dump [
    "#include \qmrpc/mrpc_common.h\q\n\n";
    "#include \qmrpc/mrpc_int.h\q\n";
    "#include \qmrpc/mrpc_blob.h\q\n";
    "#include \qmrpc/mrpc_char_array.h\q\n";
    "#include \qmrpc/mrpc_wchar_array.h\q\n\n";
    "#include \qmrpc/mrpc_distributed_client.h\q\n\n"] [];;
  dump ["#ifdef __cplusplus\nextern \qC\q {\n#endif\n\n"] [];;
  for_each (i_methods interface) (λ method,
    dump_distributed_client_method_declaration interface method;;
    dump [";\n\n"] []);;
  dump ["#ifdef __cplusplus\n}\n#endif\n\n"] [];;
  dump ["#endif\n"] [].

Definition c_client_generator_generate (interface : interface) : G unit :=
  open_file ["client_%s.c"] [ArgStr (i_name interface)];;
  dump_client_source interface;;
  close_file;;
  printf ["client_%s.c file has been generated\n"] [ArgStr (i_name interface)];;
  open_file ["client_%s.h"] [ArgStr (i_name interface)];;
  dump_client_header interface;;
  close_file;;
  printf ["client_%s.h file has been generated\n"] [ArgStr (i_name interface)];;
  open_file ["distributed_client_%s.c"] [ArgStr (i_name interface)];;
  dump_distributed_client_source interface;;
  close_file;;
  printf ["distributed_client_%s.c file has been generated\n"] [ArgStr (i_name interface)];;
  open_file ["distributed_client_%s.h"] [ArgStr (i_name interface)];;
  dump_distributed_client_header interface;;
  close_file;;
  printf ["distributed_client_%s.h file has been generated\n"] [ArgStr (i_name interface)].
End generator.

(** ** The statements of the generated code *)

Definition client_request_code (m : method) : list statement :=
  concat ((λ p, checked (Serialize (p_type p) (p_name p))) <$> m_request_params m).

Definition assign_code (p : param) : list statement :=
  AssignResponse (p_name p ++ c_literal " = " ++ response_variable p) ::
  (if c_is_param_ptr p then [IncRef (p_type p) (response_variable p)] else []).

Definition client_response_code (m : method) : list statement :=
  match m_response_params m with
  | [] =>
      [Open] ++ checked ReadEmptyByte ++ [IfEmptyByteSet; Open; SetFailure; GotoEnd; Close; Close]
  | params =>
      concat ((λ p, checked (Unserialize (p_type p) (response_variable p))) <$> params) ++
      concat (assign_code <$> params)
  end.

Definition client_code (i : interface) (k : Z) (m : method) : list statement :=
  [ClientFunction (stub_name i m); SetMethodId (decimal k);
   CreateStream; IfNoStream; Open; SetFailure; GotoEnd; Close] ++
  checked WriteMethodId ++ client_request_code m ++ checked FlushStream ++ client_response_code m ++
  [EndLabel; IfFailed; Open; ResetConnection; Close] ++
  release_code response_variable (m_response_params m) ++
  [IfStream; Open; DeleteStream; Close; Return; CloseFile].

(** ** Proofs *)

Lemma emits_client_request m : method_valid m → emits (dump_client_request m) [] (client_request_code m) [].
Proof.
  intros Hm. unfold dump_client_request, client_request_code.
  destruct (m_request_params m) as [|p0 ps] eqn:Hps; [emits_line|]. rewrite <- Hps.
  apply emits_for_each. intros p Hin. eapply emits_eq; [emits_steps| |reflexivity].
  by line_by (line_serialize p (p_name p)).
Qed.

Lemma emits_client_response m : method_valid m → emits (dump_client_response m) [] (client_response_code m) [].
Proof.
  intros Hm. unfold dump_client_response, client_response_code.
  destruct (m_response_params m) as [|p0 ps] eqn:Hps; [emits_line|]. rewrite <- Hps.
  eapply emits_bind; [|eapply (emits_bind _ _ _ [])].
  - apply emits_for_each. intros p Hin. eapply emits_eq; [emits_steps| |reflexivity].
    by line_by (line_unserialize p (response_variable p)).
  - emits_line.
  - apply emits_for_each. intros p Hin. unfold assign_code.
    destruct (c_is_param_ptr p); (eapply emits_eq; [emits_steps| |reflexivity]).
    all: line_is "\t*" ";"%byte AssignResponse (p_name p ++ c_literal " = " ++ response_variable p).
    all: try line_by (line_inc_ref p (response_variable p)).
    all: reflexivity.
Qed.

#[local] Hint Resolve emits_client_request emits_client_response : emits.

Lemma emits_client_method i k m : interface_valid i → method_valid m → 0 <= k →
  emits (dump_client_method i m k) [] (client_code i k m) [].
Proof.
  intros Hi Hm Hk. unfold dump_client_method, dump_client_method_declaration, client_code.
  eapply emits_eq; [emits_steps| |reflexivity]. simpl_app. unfold stub_name.
  line_is "enum ff_result client_" "("%byte ClientFunction (i_name i ++ c_literal "_" ++ m_name m).
  by line_is "\tuint8_t method_id = " ";"%byte SetMethodId (decimal k).
Qed.

Fixpoint client_codes (i : interface) (k : Z) (ms : list method) : list statement :=
  match ms with
  | [] => []
  | m :: ms => client_code i k m ++ client_codes i (k + 1) ms
  end.

Lemma emits_client_methods i ms k : interface_valid i → Forall method_valid ms → 0 <= k →
  k + zlength ms < 2 ^ 31 → emits (dump_client_methods i ms k) [] (client_codes i k ms) [].
Proof.
  intros Hi Hms. revert k. induction Hms as [|m ms Hm Hms IH]; intros k Hk Hlen; [apply emits_ret|].
  pose proof (zlength_nonneg ms). rewrite zlength_cons in Hlen. cbn [dump_client_methods client_codes].
  rewrite <- (app_nil_l (client_code i k m ++ _)). eapply emits_bind; [emits_line|].
  eapply emits_bind; [by apply emits_client_method|]. apply (emits_evaluate _ (k + 1)).
  - unfold checked_int. rewrite bool_decide_eq_true_2; [done|]. unfold is_s32. lia.
  - apply IH; lia.
Qed.

Lemma emits_client_source i : interface_valid i → zlength (i_methods i) < 2 ^ 31 →
  emits (dump_client_source i) [] (client_codes i 0 (i_methods i)) [].
Proof.
  intros Hi Hlen. pose proof Hi as (_ & Hms & _). unfold dump_client_source.
  eapply emits_eq; [emits_steps; apply emits_client_methods; (done || lia)| |reflexivity]. by simpl_app.
Qed.

Lemma emits_client_header i : interface_valid i →
  emits (dump_client_header i) [] (((λ m, ClientFunction (stub_name i m)) <$> i_methods i) ++ [CloseFile]) [].
Proof.
  intros Hi. pose proof Hi as (_ & Hms & _). rewrite Forall_forall in Hms. rewrite fmap_as_concat.
  unfold dump_client_header.
  assert (emits (for_each (i_methods i) (λ method, dump_client_method_declaration i method;; dump [";\n\n"%string] [])) []
    (concat ((λ m, [ClientFunction (stub_name i m)]) <$> i_methods i)) []) as Hloop.
  { apply emits_for_each. intros m Hin. specialize (Hms m Hin). unfold dump_client_method_declaration.
    eapply emits_eq; [emits_steps| |reflexivity]. simpl_app. unfold stub_name.
    by line_is "enum ff_result client_" "("%byte ClientFunction (i_name i ++ c_literal "_" ++ m_name m). }
  eapply emits_eq; [emits_steps| |reflexivity]. by simpl_app.
Qed.

(** ** The distributed client *)

Definition hash_code (p : param) : list statement :=
  if bool_decide (p_is_key p ≠ 0) then
    HashParam (p_type p) (p_name p) :: (if bool_decide (p_type p ≠ PARAM_BLOB) then [] else [IfFailed; Open; GotoEnd; Close])
  else [].

(** The arguments of a call, each after a comma. *)
Definition arguments (ps : list param) : list byte := concat ((λ p, c_literal ", " ++ p_name p) <$> ps).

Definition distributed_client_code (i : interface) (m : method) : list statement :=
  [DistributedFunction (stub_name i m)] ++ concat (hash_code <$> m_request_params m) ++
  [AcquireClient; IfNoClient; Open; SetFailure; GotoEnd; Close;
   CallClient (stub_name i m ++ c_literal "(client" ++ arguments (m_request_params m) ++
     arguments (m_response_params m)); IfFailed; Open; Close; ReleaseClient; EndLabel; Return; CloseFile].

Lemma emits_param_hash m p : method_valid m → p ∈ m_request_params m →
  emits (dump_param_hash p) [] (hash_code p) [].
Proof.
  intros Hm Hin. unfold dump_param_hash, hash_code. destruct (bool_decide (p_is_key p ≠ 0)); [|emits_line].
  case_bool_decide as Ht; (eapply emits_eq; [emits_steps| |reflexivity]).
  - by line_by (line_hash p (p_name p)).
  - assert (p_type p = PARAM_BLOB) as -> by (by destruct (decide (p_type p = PARAM_BLOB))).
    by line_is "\tresult = mrpc_blob_get_hash(" ","%byte (HashParam PARAM_BLOB) (p_name p).
Qed.

Lemma emits_arguments ps line : Forall (λ p, identifier (p_name p)) ps →
  emits (for_each ps (λ param, dump [", %s"%string] [ArgStr (p_name param)])) line [] (line ++ arguments ps).
Proof.
  intros Hps. rewrite Forall_forall in Hps. apply emits_for_each_line. intros p l Hin. specialize (Hps p Hin).
  emits_line.
Qed.

Lemma arguments_without c ps : Forall (λ p, identifier (p_name p)) ps → is_word c = false →
  c ∉ c_literal ", " → c ∉ arguments ps.
Proof.
  intros Hps Hc Hcomma. rewrite Forall_forall in Hps. apply without_concat. intros p Hin.
  apply without_app; [done|]. by apply identifier_without; [apply Hps|].
Qed.
#[local] Hint Resolve emits_arguments : emits.
#[local] Hint Resolve arguments_without : without.

Lemma emits_distributed_client_method i m : interface_valid i → method_valid m →
  emits (dump_distributed_client_method i m) [] (distributed_client_code i m) [].
Proof.
  intros Hi Hm. unfold dump_distributed_client_method, dump_distributed_client_method_declaration.
  assert (emits (for_each (m_request_params m) dump_param_hash) [] (concat (hash_code <$> m_request_params m)) [])
    by (apply emits_for_each; intros p Hin; by eapply emits_param_hash).
  assert (Forall (λ p, identifier (p_name p)) (m_request_params m)) as Hreq
    by (apply Forall_forall; eauto using request_name).
  assert (Forall (λ p, identifier (p_name p)) (m_response_params m)) as Hresp
    by (apply Forall_forall; eauto using response_name).
  eapply emits_eq; [emits_steps| |reflexivity]. simpl_app. unfold distributed_client_code, stub_name.
  line_is "enum ff_result distributed_client_" "("%byte DistributedFunction (i_name i ++ c_literal "_" ++ m_name m).
  by line_is "\tresult = client_" ")"%byte CallClient (i_name i ++ c_literal "_" ++ m_name m ++
    c_literal "(client" ++ arguments (m_request_params m) ++ arguments (m_response_params m)).
Qed.

Lemma emits_distributed_client_header i : interface_valid i →
  emits (dump_distributed_client_header i) []
    (((λ m, DistributedFunction (stub_name i m)) <$> i_methods i) ++ [CloseFile]) [].
Proof.
  intros Hi. pose proof Hi as (_ & Hms & _). rewrite Forall_forall in Hms. rewrite fmap_as_concat.
  unfold dump_distributed_client_header.
  assert (emits (for_each (i_methods i) (λ method,
      dump_distributed_client_method_declaration i method;; dump [";\n\n"%string] [])) []
    (concat ((λ m, [DistributedFunction (stub_name i m)]) <$> i_methods i)) []) as Hloop.
  { apply emits_for_each. intros m Hin. specialize (Hms m Hin). unfold dump_distributed_client_method_declaration.
    eapply emits_eq; [emits_steps| |reflexivity]. simpl_app. unfold stub_name.
    by line_is "enum ff_result distributed_client_" "("%byte DistributedFunction (i_name i ++ c_literal "_" ++ m_name m). }
  eapply emits_eq; [emits_steps| |reflexivity]. by simpl_app.
Qed.

(** The source of the distributed client ends at the second [#include]. *)
Lemma distributed_client_source_fault i : writes_fault (dump_distributed_client_source i) UndefinedFormat.
Proof.
  unfold dump_distributed_client_source.
  do 3 (eapply writes_fault_bind; [apply dumps_dump; [solve_format|discriminate]|]).
  by apply writes_fault_dump.
Qed.

(** ** The files *)

(** Two files are written; the third one never is. *)
Lemma client_generator_fault i : interface_valid i → zlength (i_methods i) < 2 ^ 31 →
  runs_fault (c_client_generator_generate i) UndefinedFormat.
Proof.
  intros Hi Hlen. unfold c_client_generator_generate.
  pose proof (emits_dumps _ _ _ _ (emits_client_source i Hi Hlen)).
  pose proof (emits_dumps _ _ _ _ (emits_client_header i Hi)).
  do 2 (eapply runs_fault_next; [solve_format|solve_fits|eassumption|solve_format|]).
  eapply runs_fault_file; [solve_format|solve_fits|apply distributed_client_source_fault].
Qed.

(** ** Properties *)

(** The generated client source, read back as statements: one stub for each
    method, in the order of the interface and numbered from 0.  A stub sends its
    number, serializes the request parameters in their order with the functions
    of their types, flushes, and unserializes the response parameters in their
    order; every step is checked, and on a failure the connection is reset and
    what has been received is released. *)
Lemma client_source_code i : interface_valid i → zlength (i_methods i) < 2 ^ 31 →
  code_of (generated (dump_client_source i)) = client_codes i 0 (i_methods i).
Proof. intros Hi Hlen. by eapply emits_code, emits_client_source. Qed.


(** ** Witnesses *)

Definition sample_method : method :=
  Method [Param PARAM_UINT32 1 (chars "id"); Param PARAM_BLOB 0 (chars "data")] [] (chars "ping").

Lemma client_source_code_witness : interface_valid sample_interface ∧
  code_of (generated (dump_client_source sample_interface)) =
    client_code sample_interface 0 sample_method.
Proof.
  assert (interface_valid sample_interface) as Hi by (apply (bool_decide_unpack _); by vm_compute).
  split; [exact Hi|]. rewrite (client_source_code sample_interface Hi); [apply app_nil_r|reflexivity].
Defined.

