(* ===== verification/ServerGenerator.v ===== *)
(** * The generator of the server code (interface-compiler/src/c_server_generator.c)

    One definition for each function; the loops are [for_each]. *)

From Stdlib Require Import Strings.String.
From S2P Require Import Prelude InterfaceLexer InterfaceParser Stdio GeneratorCommon GeneratedCode.

Open Scope Z_scope.
Open Scope list_scope.
Section generator.
#[local] Open Scope string_scope.

(** The calls of one method; its parts, in the order of the function. *)
Definition dump_handler_request (method : method) : G unit :=
  match m_request_params method with
  | [] =>
      dump ["\t/* there is no request parameters */\n"] []
  | params =>
      for_each params (λ param,
        dump ["\tresult = mrpc_%s_unserialize(&request_%s, stream);\n"]
          [ArgStr (c_get_param_type param); ArgStr (p_name param)];;
        dump ["\tif (result != FF_SUCCESS)\n\t{\n"] [];;
        dump ["\t\tff_log_debug(L\qcannot unserialize parameter %s of type %s from the stream=%%p. See previous messages for more info\q, stream);\n"]
          [ArgStr (p_name param); ArgStr (c_get_param_type param)];;
        dump ["\t\tgoto end;\n\t}\n"] [])
  end.

Definition dump_handler_call (interface : interface) (method : method) : G unit :=
  dump ["\n\tservice_%s_%s(service"] [ArgStr (i_name interface); ArgStr (m_name method)];;
  for_each (m_request_params method) (λ param,
    dump [", request_%s"] [ArgStr (p_name param)]);;
  for_each (m_response_params method) (λ param,
    dump [", &response_%s"] [ArgStr (p_name param)]);;
  dump [");\n\n"] [].

Definition dump_handler_response (method : method) : G unit :=
  match m_response_params method with
  | [] =>
      dump [
        "\t/* there is no response paramters */\n";
        "\t{\n\t\tuint8_t empty_byte = 0;\n\n";
        "\t\tresult = ff_stream_write(stream, &empty_byte, 1);\n";
        "\t\tif (result != FF_SUCCESS)\n\t\t{\n";
        "\t\t\tff_log_debug(L\qcannot write an empty byte to the stream=%%p. See previous messages for more info\q, stream);\n";
        "\t\t\tgoto end;\n\t\t}\n\t}"] []
  | params =>
      for_each params (λ param,
        dump ["\tresult = mrpc_%s_serialize(response_%s, stream);\n"]
          [ArgStr (c_get_param_type param); ArgStr (p_name param)];;
        dump ["\tif (result != FF_SUCCESS)\n\t{\n"] [];;
        dump ["\t\tff_log_debug(L\qcannot serialize parameter %s of type %s to the stream=%%p. See previous messages for more info\q, stream);\n"]
          [ArgStr (p_name param); ArgStr (c_get_param_type param)];;
        dump ["\t\tgoto end;\n\t}\n"] [])
  end.

Definition dump_server_method_handler (interface : interface) (method : method) : G unit :=
  dump ["static enum ff_result server_method_handler_%s_%s(struct ff_stream *stream, struct service_%s *service)\n{\n"]
    [ArgStr (i_name interface); ArgStr (m_name method); ArgStr (i_name interface)];;
  for_each (m_request_params method) (λ param,
    dump ["\t%srequest_%s%s;\n"]
      [ArgStr (c_get_param_code_type param); ArgStr (p_name param); ArgStr (null_if_ptr param)]);;
  for_each (m_response_params method) (λ param,
    dump ["\t%sresponse_%s%s;\n"]
      [ArgStr (c_get_param_code_type param); ArgStr (p_name param); ArgStr (null_if_ptr param)]);;
  dump ["\tenum ff_result result;\n\n"] [];;
  dump_handler_request method;;
  dump_handler_call interface method;;
  dump_handler_response method;;
  dump ["\nend:\n"] [];;
  for_each (m_request_params method) (λ param,
    if c_is_param_ptr param then
      dump ["\tif (request_%s != NULL)\n\t{\n\t\tmrpc_%s_dec_ref(request_%s);\n\t}\n"]
        [ArgStr (p_name param); ArgStr (c_get_param_type param); ArgStr (p_name param)]
    else mret tt);;
  for_each (m_response_params method) (λ param,
    if c_is_param_ptr param then
      dump ["\tif (response_%s != NULL)\n\t{\n\t\tmrpc_%s_dec_ref(response_%s);\n\t}\n"]
        [ArgStr (p_name param); ArgStr (c_get_param_type param); ArgStr (p_name param)]
    else mret tt);;
  dump ["\treturn result;\n}\n\n"] [].

Definition dump_server_stream_handler_declaration (interface : interface) : G unit :=
  dump ["/* mrpc_server_stream_handler for the interface [%s] */\n"] [ArgStr (i_name interface)];;
  dump ["enum ff_result server_stream_handler_%s(struct ff_stream *stream, void *service_ctx)"]
    [ArgStr (i_name interface)].

Definition dump_server_stream_handler (interface : interface) (methods_cnt : Z) : G unit :=
  dump_server_stream_handler_declaration interface;;
  dump ["\n{\n\tstruct service_%s *service;\n"] [ArgStr (i_name interface)];;
  dump [
    "\tuint8_t method_id;\n";
    "\tenum ff_result result;\n\n"] [];;
  dump ["\tservice = (struct service_%s *) service_ctx;\n"] [ArgStr (i_name interface)];;
  dump [
    "\tresult = ff_stream_read(stream, &method_id, 1);\n";
    "\tif (result != FF_SUCCESS)\n\t{\n";
    "\t\tff_log_debug(L\qcannot read method_id from the stream=%%p. See previous messages for more info\q, stream);\n";
    "\t\tgoto end;\n\t}\n"] [];;
  dump ["\tif (method_id >= %d)\n\t{\n"] [ArgInt methods_cnt];;
  dump ["\t\tff_log_debug(L\qunexpected method_id=%%d read from the stream=%%p. It must be less than %d\q, (int) method_id, stream);\n"]
    [ArgInt methods_cnt];;
  dump [
    "\t\tresult = FF_FAILURE;\n";
    "\t\tgoto end;\n\t}\n\n"] [];;
  dump ["\tresult = server_method_handlers_%s[method_id](stream, service);\n"] [ArgStr (i_name interface)];;
  dump [
    "\tif (result != FF_SUCCESS)\n\t{\n";
    "\t\tff_log_debug(L\qcannot handle the method with method_id=%%d using the stream=%%p. See previous messages for more info\q, (int) method_id, stream);\n";
    "\t\tgoto end;\n\t}\n\n"] [];;
  dump [
    "\tresult = ff_stream_flush(stream);\n";
    "\tif (result != FF_SUCCESS)\n\t{\n";
    "\t\tff_log_debug(L\qcannot flush the stream=%%p. See previous messages for more info\q, stream);\n";
    "\t\tgoto end;\n\t}\n\n";
    "end:\n\treturn result;\n}\n"] [].

(** The second loop of [dump_server_stream_handler_source], which counts the
    methods. *)
Fixpoint dump_handler_table (interface : interface) (methods : list method) (methods_cnt : Z) : G Z :=
  match methods with
  | [] => mret methods_cnt
  | method :: methods =>
      dump ["\tserver_method_handler_%s_%s,\n"] [ArgStr (i_name interface); ArgStr (m_name method)];;
      methods_cnt ← evaluate (checked_int (methods_cnt + 1));
      dump_handler_table interface methods methods_cnt
  end.

Definition dump_server_stream_handler_source (interface : interface) : G unit :=
  dump ["/* auto-generated code of the mrpc_server_stream_handler for the interface [%s] */\n"]
    [ArgStr (i_name interface)];;
  dump ["#include \qmrpc/mrpc_common.h\q\n\n"] [];;
  dump ["#include \qserver_stream_handler_%s.h\q\n"] [ArgStr (i_name interface)];;
  dump ["#include \qservice_%s.h\q\n\n"] [ArgStr (i_name interface)];;
  dump [
    "#include \qmrpc/mrpc_int.h\q\n";
    "#include \qmrpc/mrpc_blob.h\q\n";
    "#include \qmrpc/mrpc_char_array.h\q\n";
    "#include \qmrpc/mrpc_wchar_array.h\q\n";
    "#include \qmrpc/mrpc_server_stream_handler.h\q\n";
    "#include \qff/ff_stream.h\q\n\n"] [];;
  dump ["typedef enum ff_result (*server_method_handler)(struct ff_stream *stream, struct service_%s *service);\n\n"]
    [ArgStr (i_name interface)];;
  for_each (i_methods interface) (λ method,
    dump_server_method_handler interface method);;
  dump ["static const server_method_handler server_method_handlers_%s[] =\n{\n"] [ArgStr (i_name interface)];;
  methods_cnt ← dump_handler_table interface (i_methods interface) 0;
  dump ["};\n\n"] [];;
  dump_server_stream_handler interface methods_cnt.

Definition dump_server_stream_handler_header (interface : interface) : G unit :=
  dump ["#ifndef SERVER_STREAM_HANDLER_%s_H\n#define SERVER_STREAM_HANDLER_%s_H\n\n"]
    [ArgStr (i_name interface); ArgStr (i_name interface)];;
  dump [
    "#include \qmrpc/mrpc_common.h\q\n";
    "#include \qmrpc/mrpc_server_stream_handler.h\q\n";
    "#include \qff/ff_stream.h\q\n\n"] [];;
  dump ["#ifdef __cplusplus\nextern \qC\q {\n#endif\n\n"] [];;
  dump_server_stream_handler_declaration interface;;
  dump [";\n\n"] [];;
  dump ["#ifdef __cplusplus\n}\n#endif\n\n"] [];;
  dump ["#endif\n"] [].

Definition dump_service_method_declaration (interface : interface) (method : method) : G unit :=
  dump ["/* implements the server method [%s] of the interface [%s] */\n"]
    [ArgStr (m_name method); ArgStr (i_name interface)];;
  dump ["void service_%s_%s(struct service_%s *service"]
    [ArgStr (i_name interface); ArgStr (m_name method); ArgStr (i_name interface)];;
  for_each (m_request_params method) (λ param,
    dump [", %s%s"] [ArgStr (c_get_param_code_type param); ArgStr (p_name param)]);;
  for_each (m_response_params method) (λ param,
    dump [", %s*%s"] [ArgStr (c_get_param_code_type param); ArgStr (p_name param)]);;
  dump [")"] [].

Definition dump_service_method (interface : interface) (method : method) : G unit :=
  dump_service_method_declaration interface method;;
  dump ["\n{\n\t/* insert code for the [%s] method instead of ff_assert(0)*/\n"] [ArgStr (m_name method)];;
  dump ["\tff_assert(0);\n}\n"] [].

Definition dump_service_constructor_declaration (interface : interface) : G unit :=
  dump ["/* creates the service instance for the interface [%s] */\n"] [ArgStr (i_name interface)];;
  dump ["struct service_%s *service_%s_create()"] [ArgStr (i_name interface); ArgStr (i_name interface)].

Definition dump_service_destructor_declaration (interface : interface) : G unit :=
  dump ["/* deletes the service instance, which was created by service_%s_create() */\n"]
    [ArgStr (i_name interface)];;
  dump ["void service_%s_delete(struct service_%s *service)"] [ArgStr (i_name interface); ArgStr (i_name interface)].

Definition dump_service_source (interface : interface) : G unit :=
  dump ["#include \qmrpc/mrpc_common.h\q\n\n"] [];;
  dump ["#include \qservice_%s.h\q\n\n"] [ArgStr (i_name interface)];;
  dump [
    "#include \qmrpc/mrpc_int.h\q\n";
    "#include \qmrpc/mrpc_blob.h\q\n";
    "#include \qmrpc/mrpc_char_array.h\q\n";
    "#include \qmrpc/mrpc_wchar_array.h\q\n\n"] [];;
  dump ["struct service_%s\n{\n\t/* put service context here */\n};\n\n"] [ArgStr (i_name interface)];;
  dump_service_constructor_declaration interface;;
  dump ["\n{\n\tstruct service_%s *service;\n\n"] [ArgStr (i_name interface)];;
  dump ["\tservice = (struct service_%s *) ff_malloc(sizeof(*service));\n\n"] [ArgStr (i_name interface)];;
  dump [
    "\t/* insert service initialization code instead of ff_assert(0) */\n";
    "\tff_assert(0);\n\n";
    "\treturn service;\n}\n\n"] [];;
  dump_service_destructor_declaration interface;;
  dump [
    "\n{\n\t/* insert service shutdown code instead of ff_assert(0) */\n";
    "\tff_assert(0);\n\n";
    "\tff_free(service);\n}\n"] [];;
  for_each (i_methods interface) (λ method,
    dump ["\n"] [];;
    dump_service_method interface method).

Definition dump_service_header (interface : interface) : G unit :=
  dump ["#ifndef SERVICE_%s_H\n#define SERVICE_%s_H\n\n"] [ArgStr (i_name interface); ArgStr (i_name interface)];;
  dump [
    "#include \qmrpc/mrpc_common.h\q\n\n";
    "#include \qmrpc/mrpc_int.h\q\n";
    "#include \qmrpc/mrpc_blob.h\q\n";
    "#include \qmrpc/mrpc_char_array.h\q\n";
    "#include \qmrpc/mrpc_wchar_array.h\q\n\n"] [];;
  dump ["#ifdef __cplusplus\nextern \qC\q {\n#endif\n\n"] [];;
  dump ["struct service_%s;\n\n"] [ArgStr (i_name interface)];;
  dump_service_constructor_declaration interface;;
  dump [";\n\n"] [];;
  dump_service_destructor_declaration interface;;
  dump [";\n\n"] [];;
  for_each (i_methods interface) (λ method,
    dump_service_method_declaration interface method;;
    dump [";\n\n"] []);;
  dump ["#ifdef __cplusplus\n}\n#endif\n\n"] [];;
  dump ["#endif\n"] [].

Definition c_server_generator_generate (interface : interface) : G unit :=
  open_file ["server_stream_handler_%s.c"] [ArgStr (i_name interface)];;
  dump_server_stream_handler_source interface;;
  close_file;;
  printf ["server_stream_handler_%s.c file has been generated\n"] [ArgStr (i_name interface)];;
  open_file ["server_stream_handler_%s.h"] [ArgStr (i_name interface)];;
  dump_server_stream_handler_header interface;;
  close_file;;
  printf ["server_stream_handler_%s.h file has been generated\n"] [ArgStr (i_name interface)];;
  open_file ["service_%s.c"] [ArgStr (i_name interface)];;
  dump_service_source interface;;
  close_file;;
  printf ["service_%s.c file has been generated\n"] [ArgStr (i_name interface)];;
  open_file ["service_%s.h"] [ArgStr (i_name interface)];;
  dump_service_header interface;;
  close_file;;
  printf ["service_%s.h file has been generated\n"] [ArgStr (i_name interface)].
End generator.

(** ** The statements of the generated code *)

Definition handler_response_code (m : method) : list statement :=
  match m_response_params m with
  | [] => [Open] ++ checked WriteEmptyByte ++ [Close]
  | params => concat ((λ p, checked (Serialize (p_type p) (response_variable p))) <$> params)
  end.

(** The arguments of the call of the service. *)
Definition service_arguments (m : method) : list byte :=
  concat ((λ p, c_literal ", " ++ request_variable p) <$> m_request_params m) ++
  concat ((λ p, c_literal ", &" ++ response_variable p) <$> m_response_params m).

Definition handler_code (i : interface) (m : method) : list statement :=
  [HandlerFunction (stub_name i m)] ++
  concat ((λ p, checked (Unserialize (p_type p) (request_variable p))) <$> m_request_params m) ++
  [CallService (stub_name i m ++ c_literal "(service" ++ service_arguments m)] ++
  handler_response_code m ++ [EndLabel] ++
  release_code request_variable (m_request_params m) ++ release_code response_variable (m_response_params m) ++
  [Return; CloseFile].

Definition stream_handler_code (i : interface) (methods_cnt : Z) : list statement :=
  [StreamHandlerFunction (i_name i)] ++ checked ReadMethodId ++
  [IfMethodIdAtLeast (decimal methods_cnt); Open; SetFailure; GotoEnd; Close] ++ checked CallHandler ++
  checked FlushStream ++ [EndLabel; Return; CloseFile].

Definition server_code (i : interface) : list statement :=
  concat (handler_code i <$> i_methods i) ++ ((λ m, HandlerEntry (stub_name i m)) <$> i_methods i) ++
  [CloseTable] ++ stream_handler_code i (zlength (i_methods i)).

(** The prototypes of a method of the service and of the destructor. *)
Definition service_struct (i : interface) : list byte :=
  c_literal "(struct service_" ++ i_name i ++ c_literal " *service".
Definition value_params (ps : list param) : list byte :=
  concat ((λ p, c_literal ", " ++ c_get_param_code_type p ++ p_name p) <$> ps).
Definition pointer_params (ps : list param) : list byte :=
  concat ((λ p, c_literal ", " ++ c_get_param_code_type p ++ c_literal "*" ++ p_name p) <$> ps).
Definition service_prototype (i : interface) (m : method) : statement :=
  ServiceFunction (stub_name i m ++ service_struct i ++ value_params (m_request_params m) ++
    pointer_params (m_response_params m)).
Definition service_destructor (i : interface) : statement :=
  ServiceFunction (i_name i ++ c_literal "_delete" ++ service_struct i).

(** The functions which the header of the service declares, and which its source
    defines: the constructor, the destructor and one function for each method. *)
Definition service_header_code (i : interface) : list statement :=
  service_destructor i :: (service_prototype i <$> i_methods i) ++ [CloseFile].
Definition service_source_code (i : interface) : list statement :=
  [CloseTable; AssertFalse; Return; CloseFile; service_destructor i; AssertFalse; CloseFile] ++
  concat ((λ m, [service_prototype i m; AssertFalse; CloseFile]) <$> i_methods i).

(** ** Proofs *)

Lemma emits_handler_request m : method_valid m → emits (dump_handler_request m) []
  (concat ((λ p, checked (Unserialize (p_type p) (request_variable p))) <$> m_request_params m)) [].
Proof.
  intros Hm. unfold dump_handler_request.
  destruct (m_request_params m) as [|p0 ps] eqn:Hps; [emits_line|]. rewrite <- Hps.
  apply emits_for_each. intros p Hin. eapply emits_eq; [emits_steps| |reflexivity].
  by line_by (line_unserialize p (request_variable p)).
Qed.

Lemma emits_handler_empty_response m : m_response_params m = [] →
  emits (dump_handler_response m) [] ([Open] ++ checked WriteEmptyByte) [x09; "}"%byte].
Proof. intros Hps. unfold dump_handler_response. rewrite Hps. emits_line. Qed.

Lemma emits_handler_response m : method_valid m → m_response_params m ≠ [] →
  emits (dump_handler_response m) [] (handler_response_code m) [].
Proof.
  intros Hm Hne. unfold dump_handler_response, handler_response_code.
  destruct (m_response_params m) as [|p0 ps] eqn:Hps; [done|]. rewrite <- Hps.
  apply emits_for_each. intros p Hin. eapply emits_eq; [emits_steps| |reflexivity].
  by line_by (line_serialize p (response_variable p)).
Qed.

Lemma emits_handler_call i m : interface_valid i → method_valid m → emits (dump_handler_call i m) []
  [CallService (stub_name i m ++ c_literal "(service" ++ service_arguments m)] [].
Proof.
  intros Hi Hm. unfold dump_handler_call.
  assert (∀ line, emits (for_each (m_request_params m) (λ param,
      dump [", request_%s"%string] [ArgStr (p_name param)])) line []
    (line ++ concat ((λ p, c_literal ", " ++ request_variable p) <$> m_request_params m))) as Hreq.
  { intros line. apply emits_for_each_line. intros p l Hin. eapply emits_eq; [emits_steps|done|]. by simpl_app. }
  assert (∀ line, emits (for_each (m_response_params m) (λ param,
      dump [", &response_%s"%string] [ArgStr (p_name param)])) line []
    (line ++ concat ((λ p, c_literal ", &" ++ response_variable p) <$> m_response_params m))) as Hresp.
  { intros line. apply emits_for_each_line. intros p l Hin. eapply emits_eq; [emits_steps|done|]. by simpl_app. }
  eapply emits_eq; [emits_steps| |reflexivity]. simpl_app. unfold stub_name, service_arguments.
  by line_is "\tservice_" ")"%byte CallService ((i_name i ++ c_literal "_" ++ m_name m) ++ c_literal "(service" ++
    concat ((λ p, c_literal ", " ++ request_variable p) <$> m_request_params m) ++
    concat ((λ p, c_literal ", &" ++ response_variable p) <$> m_response_params m)).
Qed.

Lemma emits_request_declarations m : method_valid m →
  emits (for_each (m_request_params m) (λ param, dump ["\t%srequest_%s%s;\n"%string]
    [ArgStr (c_get_param_code_type param); ArgStr (p_name param); ArgStr (null_if_ptr param)])) [] [] [].
Proof.
  intros Hm. apply emits_for_each_none. intros p Hin. eapply emits_eq; [emits_steps| |reflexivity].
  by line_by (line_declaration p).
Qed.

Lemma emits_request_releases m : method_valid m →
  emits (for_each (m_request_params m) (λ param,
    if c_is_param_ptr param then
      dump ["\tif (request_%s != NULL)\n\t{\n\t\tmrpc_%s_dec_ref(request_%s);\n\t}\n"%string]
        [ArgStr (p_name param); ArgStr (c_get_param_type param); ArgStr (p_name param)]
    else mret tt)) [] (release_code request_variable (m_request_params m)) [].
Proof.
  intros Hm. apply emits_for_each. intros p Hin. destruct (c_is_param_ptr p); [|emits_line].
  eapply emits_eq; [emits_steps| |reflexivity].
  line_is "\tif (request_" " "%byte (λ w, IfPointer (c_literal "request_" ++ w)) (p_name p).
  line_by (line_dec_ref p (request_variable p)). unfold request_variable. reflexivity.
Qed.

#[local] Hint Resolve emits_handler_request emits_handler_empty_response emits_handler_response
  emits_handler_call emits_request_declarations emits_request_releases : emits.

Lemma emits_server_method_handler i m : interface_valid i → method_valid m →
  emits (dump_server_method_handler i m) [] (handler_code i m) [].
Proof.
  intros Hi Hm. unfold dump_server_method_handler, handler_code.
  destruct (decide (m_response_params m = [])) as [Hempty|Hne];
    (eapply emits_eq; [emits_steps| |reflexivity]); simpl_app;
    line_is "static enum ff_result server_method_handler_" "("%byte HandlerFunction
      (i_name i ++ c_literal "_" ++ m_name m).
  - unfold handler_response_code. by rewrite Hempty.
  - done.
Qed.

Lemma line_call_handler pre s : pre = c_literal "\tresult = server_method_handlers_" → line_code (pre ++ s) = [CallHandler].
Proof. intros ->. vm_compute. reflexivity. Qed.

Lemma emits_stream_handler i n : interface_valid i → 0 <= n →
  emits (dump_server_stream_handler i n) [] (stream_handler_code i n) [].
Proof.
  intros Hi Hn. unfold dump_server_stream_handler, dump_server_stream_handler_declaration.
  eapply emits_eq; [emits_steps| |reflexivity]. simpl_app.
  line_is "enum ff_result server_stream_handler_" "("%byte StreamHandlerFunction (i_name i).
  line_is "\tif (method_id >= " ")"%byte IfMethodIdAtLeast (decimal n).
  rewrite line_call_handler by (vm_compute; reflexivity). by simpl_app.
Qed.

(** The table of the handlers, and the code after it. *)
Lemma emits_handler_table i ms n (k : Z → G unit) code : interface_valid i → Forall method_valid ms →
  0 <= n → n + zlength ms < 2 ^ 31 → emits (k (n + zlength ms)) [] code [] →
  emits (dump_handler_table i ms n ≫= k) [] (((λ m, HandlerEntry (stub_name i m)) <$> ms) ++ code) [].
Proof.
  intros Hi Hms. revert n. induction Hms as [|m ms Hm Hms IH]; intros n Hn Hlen Hk.
  - eapply emits_ext; [|exact Hk]. intros st. change (zlength []) with 0. by rewrite Z.add_0_r.
  - pose proof (zlength_nonneg ms). rewrite zlength_cons in Hlen, Hk. cbn [dump_handler_table].
    eapply emits_ext; [intros st; symmetry; apply bind_assoc|].
    apply (emits_bind _ _ _ [HandlerEntry (stub_name i m)] []).
    + unfold stub_name. eapply emits_eq; [emits_steps| |reflexivity]. simpl_app.
      by line_is "\tserver_method_handler_" ","%byte HandlerEntry (i_name i ++ c_literal "_" ++ m_name m).
    + eapply emits_ext; [intros st; symmetry; apply bind_assoc|]. apply (emits_evaluate _ (n + 1)).
      * unfold checked_int. rewrite bool_decide_eq_true_2; [done|]. unfold is_s32. lia.
      * apply IH; [lia|lia|]. by replace (n + 1 + zlength ms) with (n + (1 + zlength ms)) by lia.
Qed.

Lemma emits_server_source i : interface_valid i → zlength (i_methods i) < 2 ^ 31 →
  emits (dump_server_stream_handler_source i) [] (server_code i) [].
Proof.
  intros Hi Hlen. pose proof Hi as (_ & Hms & _). unfold dump_server_stream_handler_source, server_code.
  assert (emits (for_each (i_methods i) (λ method, dump_server_method_handler i method)) []
    (concat (handler_code i <$> i_methods i)) []) as Hloop.
  { apply emits_for_each. intros m Hin. rewrite Forall_forall in Hms. by apply emits_server_method_handler, Hms. }
  assert (emits (dump_handler_table i (i_methods i) 0 ≫= λ n, dump ["};\n\n"%string] [];; dump_server_stream_handler i n) []
    (((λ m, HandlerEntry (stub_name i m)) <$> i_methods i) ++ [CloseTable] ++ stream_handler_code i (zlength (i_methods i))) []) as Htable.
  { apply emits_handler_table; [done..|lia|done|]. rewrite Z.add_0_l.
    eapply emits_eq; [emits_steps; by apply emits_stream_handler, zlength_nonneg| |reflexivity]. by simpl_app. }
  eapply emits_eq; [emits_steps| |reflexivity]; [by apply Htable|].
  by simpl_app.
Qed.

Lemma emits_server_header i : interface_valid i →
  emits (dump_server_stream_handler_header i) [] [StreamHandlerFunction (i_name i); CloseFile] [].
Proof.
  intros Hi. unfold dump_server_stream_handler_header, dump_server_stream_handler_declaration.
  eapply emits_eq; [emits_steps| |reflexivity]. simpl_app.
  by line_is "enum ff_result server_stream_handler_" "("%byte StreamHandlerFunction (i_name i).
Qed.

Lemma code_type_closed param : ")"%byte ∉ c_get_param_code_type param.
Proof. unfold c_get_param_code_type. destruct (p_type param); apply (bool_decide_unpack _); by vm_compute. Qed.
#[local] Hint Resolve code_type_closed : without.

Lemma value_params_closed m : method_valid m → ")"%byte ∉ value_params (m_request_params m).
Proof. intros Hm. unfold value_params. solve_without. Qed.
Lemma pointer_params_closed m : method_valid m → ")"%byte ∉ pointer_params (m_response_params m).
Proof. intros Hm. unfold pointer_params. solve_without. Qed.
#[local] Hint Resolve value_params_closed pointer_params_closed : without.

Lemma emits_service_value_params m line : method_valid m →
  emits (for_each (m_request_params m) (λ param,
      dump [", %s%s"%string] [ArgStr (c_get_param_code_type param); ArgStr (p_name param)])) line []
    (line ++ value_params (m_request_params m)).
Proof. apply emits_value_params. Qed.
Lemma emits_service_pointer_params m line : method_valid m →
  emits (for_each (m_response_params m) (λ param,
      dump [", %s*%s"%string] [ArgStr (c_get_param_code_type param); ArgStr (p_name param)])) line []
    (line ++ pointer_params (m_response_params m)).
Proof. apply emits_pointer_params. Qed.
#[local] Remove Hints emits_value_params emits_pointer_params : emits.
#[local] Hint Resolve emits_service_value_params emits_service_pointer_params : emits.

Lemma emits_service_method i m : interface_valid i → method_valid m →
  emits (dump_service_method i m) [] [service_prototype i m; AssertFalse; CloseFile] [].
Proof.
  intros Hi Hm. unfold dump_service_method, dump_service_method_declaration.
  eapply emits_eq; [emits_steps| |reflexivity]. simpl_app.
  line_is "void service_" ")"%byte ServiceFunction (i_name i ++ c_literal "_" ++ m_name m ++
    c_literal "(struct service_" ++ i_name i ++ c_literal " *service" ++ value_params (m_request_params m) ++
    pointer_params (m_response_params m)).
  unfold service_prototype, stub_name, service_struct. by simpl_app.
Qed.

Lemma emits_service_source i : interface_valid i →
  emits (dump_service_source i) [] (service_source_code i) [].
Proof.
  intros Hi. pose proof Hi as (_ & Hms & _). rewrite Forall_forall in Hms.
  unfold dump_service_source, dump_service_constructor_declaration, dump_service_destructor_declaration, service_source_code.
  assert (emits (for_each (i_methods i) (λ method, dump ["\n"%string] [];; dump_service_method i method)) []
    (concat ((λ m, [service_prototype i m; AssertFalse; CloseFile]) <$> i_methods i)) []) as Hloop.
  { apply emits_for_each. intros m Hin. eapply emits_eq; [emits_steps; apply emits_service_method; auto|done|done]. }
  eapply emits_eq; [emits_steps| |reflexivity]. simpl_app.
  line_is "void service_" ")"%byte ServiceFunction (i_name i ++ c_literal "_delete" ++
    c_literal "(struct service_" ++ i_name i ++ c_literal " *service").
  unfold service_destructor, service_struct. by simpl_app.
Qed.

Lemma emits_service_header i : interface_valid i → emits (dump_service_header i) [] (service_header_code i) [].
Proof.
  intros Hi. pose proof Hi as (_ & Hms & _). rewrite Forall_forall in Hms.
  unfold dump_service_header, dump_service_constructor_declaration, dump_service_destructor_declaration, service_header_code.
  assert (emits (for_each (i_methods i) (λ method, dump_service_method_declaration i method;; dump [";\n\n"%string] [])) []
    (concat ((λ m, [service_prototype i m]) <$> i_methods i)) []) as Hloop.
  { apply emits_for_each. intros m Hin. specialize (Hms m Hin). unfold dump_service_method_declaration.
    eapply emits_eq; [emits_steps| |reflexivity]. simpl_app.
    line_is "void service_" ")"%byte ServiceFunction (i_name i ++ c_literal "_" ++ m_name m ++
      c_literal "(struct service_" ++ i_name i ++ c_literal " *service" ++ value_params (m_request_params m) ++
      pointer_params (m_response_params m)).
    unfold service_prototype, stub_name, service_struct. by simpl_app. }
  rewrite fmap_as_concat.
  eapply emits_eq; [emits_steps| |reflexivity]. simpl_app.
  line_is "void service_" ")"%byte ServiceFunction (i_name i ++ c_literal "_delete" ++
    c_literal "(struct service_" ++ i_name i ++ c_literal " *service").
  unfold service_destructor, service_struct. by simpl_app.
Qed.

(** ** The files *)

Definition server_files (i : interface) : list (list byte * list byte) :=
  [(c_literal "server_stream_handler_" ++ i_name i ++ c_literal ".c", generated (dump_server_stream_handler_source i));
   (c_literal "server_stream_handler_" ++ i_name i ++ c_literal ".h", generated (dump_server_stream_handler_header i));
   (c_literal "service_" ++ i_name i ++ c_literal ".c", generated (dump_service_source i));
   (c_literal "service_" ++ i_name i ++ c_literal ".h", generated (dump_service_header i))].

Definition server_messages (i : interface) : list byte :=
  concat ((λ f, f.1 ++ c_literal " file has been generated\n") <$> server_files i).

Lemma server_generator_creates i : interface_valid i → zlength (i_methods i) < 2 ^ 31 →
  creates (c_server_generator_generate i) (server_files i) (server_messages i).
Proof.
  intros Hi Hlen. unfold c_server_generator_generate, server_messages, server_files.
  cbn [fmap list_fmap concat fst].
  pose proof (emits_dumps _ _ _ _ (emits_server_source i Hi Hlen)).
  pose proof (emits_dumps _ _ _ _ (emits_server_header i Hi)).
  pose proof (emits_dumps _ _ _ _ (emits_service_source i Hi)).
  pose proof (emits_dumps _ _ _ _ (emits_service_header i Hi)).
  eapply creates_out.
  - do 3 (eapply creates_file; [solve_name|solve_fits|eassumption|solve_name|]).
    eapply creates_last_file; [solve_name|solve_fits|eassumption|solve_name].
  - by rewrite app_nil_r, <- !app_assoc.
Qed.

(** ** Properties *)

(** The generated server source, read back as statements: one handler for
    each method, which unserializes the request parameters in their order, calls
    the function of the service with all parameters, serializes the response
    parameters in their order and releases all of them; a table of the handlers
    in the order of the interface; and a stream handler which rejects every
    method number from the number of methods on. *)
Lemma server_source_code i : interface_valid i → zlength (i_methods i) < 2 ^ 31 →
  code_of (generated (dump_server_stream_handler_source i)) = server_code i.
Proof. intros Hi Hlen. by eapply emits_code, emits_server_source. Qed.

(** The names of the functions of a service. *)
Definition service_functions (code : list statement) : list (list byte) :=
  concat ((λ s, match s with ServiceFunction prototype => [take_until "("%byte prototype] | _ => [] end) <$> code).

Lemma prototype_name (w s : list byte) : "("%byte ∉ w → take_until "("%byte (w ++ c_literal "(struct service_" ++ s) = w.
Proof.
  intros Hw. rewrite take_until_app by done.
  assert (c_literal "(struct service_" = "("%byte :: c_literal "struct service_") as -> by (vm_compute; reflexivity).
  rewrite <- app_comm_cons, take_until_delimiter. apply app_nil_r.
Qed.

Lemma service_functions_app code1 code2 :
  service_functions (code1 ++ code2) = service_functions code1 ++ service_functions code2.
Proof. unfold service_functions. by rewrite fmap_app, concat_app. Qed.

(** The functions of a service whose methods have the names [names]. *)
Definition member_names (i : interface) (names : list (list byte)) : list (list byte) :=
  (λ w, i_name i ++ c_literal "_" ++ w) <$> names.

Lemma service_functions_method i m : interface_valid i → method_valid m →
  service_functions [service_prototype i m; AssertFalse; CloseFile] = [i_name i ++ c_literal "_" ++ m_name m].
Proof.
  intros Hi Hm. unfold service_functions, service_prototype, service_struct, stub_name.
  cbn [fmap list_fmap concat]. rewrite !app_nil_r, <- (app_assoc (c_literal "(struct service_")).
  rewrite prototype_name; [done|]. solve_without.
Qed.

Lemma service_functions_destructor i : interface_valid i →
  service_functions [CloseTable; AssertFalse; Return; CloseFile; service_destructor i; AssertFalse; CloseFile] =
  [i_name i ++ c_literal "_" ++ c_literal "delete"].
Proof.
  intros Hi. unfold service_functions, service_destructor, service_struct.
  assert (c_literal "_delete" = c_literal "_" ++ c_literal "delete") as -> by (vm_compute; reflexivity).
  cbn [fmap list_fmap concat]. rewrite !app_nil_l, !app_nil_r, (app_assoc (i_name i)), prototype_name; [done|].
  solve_without.
Qed.

Lemma service_functions_source i : interface_valid i →
  service_functions (service_source_code i) = member_names i (c_literal "delete" :: (m_name <$> i_methods i)).
Proof.
  intros Hi. pose proof Hi as (_ & Hms & _). unfold service_source_code.
  rewrite service_functions_app, service_functions_destructor by done. unfold member_names. rewrite fmap_cons.
  apply (f_equal (cons _)). induction Hms as [|m ms Hm Hms IH]; [done|].
  rewrite !fmap_cons. cbn [concat]. by rewrite service_functions_app, service_functions_method, IH.
Qed.

(** The source of the service defines each function once if and only if the
    methods of the interface have different names and none of them is called
    [delete], the name of the destructor.  The parser accepts every interface, so
    the generated files of some do not compile. *)
Lemma service_functions_distinct i : interface_valid i →
  NoDup (service_functions (code_of (generated (dump_service_source i)))) ↔
  NoDup (m_name <$> i_methods i) ∧ c_literal "delete" ∉ (m_name <$> i_methods i).
Proof.
  intros Hi. rewrite (emits_code _ _ _ (emits_service_source i Hi)), service_functions_source by done.
  assert (Inj (=) (=) (λ w, i_name i ++ c_literal "_" ++ w)) as Hinj.
  { intros v w Heq. by do 2 apply app_inv_head in Heq. }
  unfold member_names. rewrite (NoDup_fmap _), NoDup_cons. split; [intros [??]|intros [??]]; done.
Qed.

(** ** Witnesses *)

Lemma server_source_code_witness : interface_valid sample_interface ∧
  code_of (generated (dump_server_stream_handler_source sample_interface)) = server_code sample_interface.
Proof.
  assert (interface_valid sample_interface) as Hi by (apply (bool_decide_unpack _); by vm_compute).
  split; [exact Hi|]. apply (server_source_code sample_interface Hi). reflexivity.
Defined.

Lemma service_functions_distinct_witness : interface_valid sample_interface ∧
  NoDup (service_functions (code_of (generated (dump_service_source sample_interface)))).
Proof.
  assert (interface_valid sample_interface) as Hi by (apply (bool_decide_unpack _); by vm_compute).
  split; [exact Hi|]. apply (service_functions_distinct sample_interface Hi).
  split; apply (bool_decide_unpack _); by vm_compute.
Defined.
