(* ===== verification/Compiler.v ===== *)
(** * The interface compiler (interface-compiler/src/main.c)

    [main] parses the interface definition and calls one of the two generators.
    The theorems at the end are about the whole program: from the arguments and
    the disk to the exit code, the files and the messages. *)

From stdpp Require Import gmap.
From Stdlib Require Import Strings.String.
From S2P Require Import Prelude InterfaceLexer InterfaceParser Stdio GeneratorCommon GeneratedCode ClientGenerator ServerGenerator.

Open Scope Z_scope.
Open Scope list_scope.

(** ** The program *)

Section program.
#[local] Open Scope string_scope.

Definition help {A} (app_name : list byte) : G A :=
  printf ["\nUsage: %s filename output_type\n\n"] [ArgStr app_name];;
  printf [
    "The multiplexing-rpc interface compiler generates source files,\n";
    "which is required for either accessing mrpc service (client source files)\n";
    "either implementing mrpc service (server source files).\n";
    "The interface compiler writes generated files into current directory.\n";
    "Be careful: it owerwrites existing files with the same name.\n";
    "The interface compiler doesn't support unicode.\n";
    "\n";
    "- filename must contain path to the interface definition file.\n";
    "  It is preferred to invoke the interface compiler from the directory,\n";
    "  which contains the given interface definition file.\n";
    "\n";
    "- output_type can have the following values:\n";
    "  - c_client - generates client source files for the C mrpc library:\n";
    "    - client_{interface_name}.h contains declarations of rpc\n";
    "      wrapper functions defined in the interface definition file.\n";
    "      These functions must be called in order to perform rpc.\n";
    "\n";
    "    - client_{interface_name}.c contains definition of\n";
    "      the rpc wrapper functions. Do not modify this file!\n";
    "\n";
    "    - distributed_client_{interface_name}.h contains declarations\n";
    "      of rpc wrapper functions defined in the interface definition file,\n";
    "      which must be called to perform distributed rpc.\n";
    "\n";
    "    - distributed_client_{interface_name}.c constains definition of\n";
    "      the rpc wrapper functions for distributed client.\n";
    "      Do not modify this file!\n";
    "\n";
    "  - c_server - generates server source files for the C mrpc library:\n";
    "    - server_stream_handler_{interface_name}.h contains single declaration\n";
    "      of the mrpc_server_stream_handler, which implements the interface\n";
    "      defined in the interface definition file.\n";
    "\n";
    "    - server_stream_handler_{interface_name}.c contains definition\n";
    "      of the mrpc_server_stream_handler. Do not modify this file!\n";
    "\n";
    "    - service_{interface_name}.h contains declaration of the service,\n";
    "      which must implement rpc interface defined in the interface definition\n";
    "      file on the server.\n";
    "\n";
    "    - service_{interface_name}.c contains stubs for the service,\n";
    "      which implement rpc interface defined in the interface definition file.\n";
    "      These stubs must be substituted by real implementation of the given\n";
    "      rpc interface.\n"
  ] [];;
  exit EXIT_SUCCESS.

(** The message of an error of the parser; [errno] is the one of [fopen]. *)
Definition die_parse_error {A} (e : parse_error) (errno : Z) : G A :=
  match e with
  | CannotOpen filename =>
      Stdio.die ["cannot open the file [%s]. errno=%d"] [ArgStr filename; ArgInt errno]
  | UnexpectedLexeme lexeme filename line pos expected =>
      Stdio.die ["unexpected lexeme [%s] found at the file [%s], line=%d, position=%d. Expected: %s."]
        [ArgStr lexeme; ArgStr filename; ArgInt line; ArgInt pos; ArgStr expected]
  | TooLongLexeme lexeme filename line pos =>
      Stdio.die ["too long lexeme=[%s...] found at the file [%s], line=%d, position=%d"]
        [ArgStr lexeme; ArgStr filename; ArgInt line; ArgInt pos]
  | UnexpectedCharacter ch filename line pos expected =>
      Stdio.die ["unexpected character=[%c] found at the file [%s], line=%d, position=%d. Expected: %s."]
        [ArgChar ch; ArgStr filename; ArgInt line; ArgInt pos; ArgStr expected]
  end.

Definition ENOENT : Z := 2.

(** [parse_interface] on the disk: the file is opened, parsed and closed. *)
Definition parse_file (filename : list byte) : G interface :=
  st ← get_state;
  r ← next_io;
  let '(file, errno) :=
    match r with
    | IoOk => (gs_disk st !! filename, ENOENT)
    | IoFailed _ errno => (None, errno)
    end in
  parsed ← evaluate (parse_interface filename file parser_ctx);
  match parsed with
  | inl e => die_parse_error e errno
  | inr (interface, _) =>
      rv ← Stdio.fclose;
      evaluate (ff_assert (bool_decide (rv = 0)));;
      mret interface
  end.

(** [argv[i]]; [argv[0]] may be a null pointer, which has no text. *)
Definition argument (argv : list (list byte)) (i : nat) : G (list byte) :=
  evaluate match argv !! i with Some s => Ret s | None => Fault UndefinedFormat end.

(** The second half of [main].  The memory of the interface is not part of this state:
    [interface_delete] is in [InterfaceHeap]. *)
Definition generate (argv : list (list byte)) (output_type : list byte) (interface : interface) : G unit :=
  if bool_decide (output_type = c_literal "c_client") then c_client_generator_generate interface
   else if bool_decide (output_type = c_literal "c_server") then c_server_generator_generate interface
   else
     fprintf_stderr ["error: unexpected output_type [%s]. Expected: c_client, c_server\n"] [ArgStr output_type];;
     app_name ← argument argv 0;
     help app_name.

Definition main (argv : list (list byte)) : G Z :=
  (if bool_decide (zlength argv ≠ 3) then app_name ← argument argv 0; help app_name else mret tt);;
  filename ← argument argv 1;
  interface ← parse_file filename;
  output_type ← argument argv 2;
  generate argv output_type interface;;
  mret 0.
End program.

(** What the environment sees: the exit code and the state at the end. *)
Definition run_program (argv : list (list byte)) (st : gen_state) : outcome (Z * gen_state) :=
  match main argv st with
  | Ret (inl code, st) | Ret (inr code, st) => Ret (code, st)
  | Fault f => Fault f
  end.

(** ** Parsing the input *)

Lemma spells_length f ts : spells f ts → zlength ts <= zlength f.
Proof.
  induction 1 as [|b f ts Hb Hf IH|body f ts Hbody Hend Hf IH|f ts Hf IH|f ts Hf IH|w f ts Hw Hend Hf IH];
    try apply identifier_length in Hw; zlen.
Qed.

Lemma methods_length ms : zlength ms <= zlength (concat (method_tokens <$> ms)).
Proof.
  induction ms as [|m ms IH]; [done|]. cbn [fmap list_fmap concat]. unfold method_tokens at 1. zlen.
Qed.

Lemma methods_bound file i : parsable parser_ctx file → spells file (interface_tokens i) →
  zlength (i_methods i) < 2 ^ 31.
Proof.
  intros (_ & _ & Hlen) Hs%spells_length. pose proof (methods_length (i_methods i)) as Hm.
  unfold interface_tokens in Hs. unfold MAX_REACH in Hlen. revert Hs Hm Hlen. generalize (concat (method_tokens <$> i_methods i)).
  intros ts. zlen.
Qed.

Lemma parse_ok filename file i : parsable parser_ctx file → interface_valid i → spells file (interface_tokens i) →
  ∃ ctx', parse_interface filename (Some file) parser_ctx = Ret (inr (i, ctx')).
Proof.
  intros Hp Hi Hs. pose proof (parse_interface_spec parser_ctx filename file Hp) as H. unfold wpp in H.
  destruct (parse_interface filename (Some file) parser_ctx) as [[e|[j ctx']]|f]; [by destruct (H i Hi)| |done].
  destruct H as [Hj Hts]. apply Hts in Hs. exists ctx'.
  by destruct (interface_unambiguous i j [] []) as [-> _]; rewrite ?app_nil_r.
Qed.

Lemma parse_none filename : parse_interface filename None parser_ctx = Ret (inl (CannotOpen filename)).
Proof. done. Qed.

(** A message of the parser ends the program; only [stderr] has changed. *)
Definition stopped (st : gen_state) (st' : gen_state) : Prop :=
  ∃ message, message ≠ [] ∧ st' = GenState (gs_filename_buf st) (gs_file st) (gs_disk st) (gs_stdout st)
    (gs_stderr st ++ message) (gs_io st).

Lemma die_run {A} fmt args text st : c_format (c_literals fmt) args = Ret text →
  ∃ st', Stdio.die (A:=A) fmt args st = Ret (inl EXIT_FAILURE, st') ∧ stopped st st'.
Proof.
  intros Hfmt. destruct st as [buf f d o e io].
  unfold Stdio.die, fprintf_stderr, mbind, G_bind, evaluate. rewrite Hfmt. cbn. eexists. split; [done|].
  exists (text ++ [x0a]). split; [by destruct text|]. cbn. by rewrite app_assoc.
Qed.

Lemma die_parse_error_run {A} error errno st :
  ∃ st', die_parse_error (A:=A) error errno st = Ret (inl EXIT_FAILURE, st') ∧ stopped st st'.
Proof. destruct error; (eapply die_run; solve_format). Qed.

Lemma parse_file_spec filename file i st : gs_disk st !! filename = Some file → parsable parser_ctx file →
  interface_valid i → spells file (interface_tokens i) →
  gwp (parse_file filename) st (λ j st', j = i ∧ ∃ io, st' = GenState (gs_filename_buf st) (gs_file st) (gs_disk st)
    (gs_stdout st) (gs_stderr st) io).
Proof.
  intros Hfile Hp Hi Hs. destruct (parse_ok filename file i Hp Hi Hs) as [ctx' Hparse].
  destruct st as [buf f d o e io]. cbn in Hfile.
  unfold parse_file, fclose, fflush, gwp, io_fine, mbind, G_bind, mret, G_ret, evaluate, get_state, next_io.
  cbn -[parse_interface bool_decide lookup]. rewrite Hfile.
  destruct io as [|[|written errno] io]; cbn -[parse_interface bool_decide].
  - rewrite Hparse. split; [done|]. split; [done|by exists []].
  - rewrite Hparse. destruct io as [|[|w2 e2] io]; cbn.
    + split; [by intros [_ ?]%Forall_cons|]. split; [done|by exists []].
    + split; [by intros [_ [_ ?]%Forall_cons]%Forall_cons|]. split; [done|by exists io].
    + split; [done|]. intros [_ [Hio _]%Forall_cons]%Forall_cons. by inversion Hio.
  - assert (¬ Forall io_ok (IoFailed written errno :: io)) as Hno by (intros [Hio _]%Forall_cons; by inversion Hio).
    rewrite parse_none.
    destruct (die_parse_error_run (A:=interface) (CannotOpen filename) errno (GenState buf f d o e io)) as (st' & -> & _).
    done.
Qed.

(** A file which is no interface. *)
Lemma parse_file_rejects filename file st : gs_disk st !! filename = Some file → parsable parser_ctx file →
  (∀ i, interface_valid i → ¬ spells file (interface_tokens i)) →
  ∃ st', parse_file filename st = Ret (inl EXIT_FAILURE, st') ∧
    gs_disk st' = gs_disk st ∧ gs_stdout st' = gs_stdout st ∧ gs_stderr st' ≠ gs_stderr st.
Proof.
  intros Hfile Hp Hno. pose proof (parse_interface_spec parser_ctx filename file Hp) as H. unfold wpp in H.
  assert (∃ e, parse_interface filename (Some file) parser_ctx = Ret (inl e)) as [e Hparse].
  { destruct (parse_interface filename (Some file) parser_ctx) as [[e|[j ctx']]|f]; [by exists e| |done].
    destruct H as [Hj Hts]. destruct (Hno j Hj). by apply Hts. }
  destruct st as [buf f d o err io]. cbn in Hfile.
  unfold parse_file, mbind, G_bind, evaluate, get_state, next_io.
  cbn -[parse_interface lookup]. rewrite Hfile.
  destruct io as [|[|written errno] io]; cbn -[parse_interface]; rewrite ?Hparse, ?parse_none.
  all: match goal with |- context [die_parse_error ?e ?errno ?st] =>
    destruct (die_parse_error_run (A:=interface) e errno st) as (st' & -> & message & Hne & ->) end.
  all: eexists; split; [done|]; cbn; split_and!; [done..|].
  all: intros Heq; apply Hne; apply (app_inv_head err); by rewrite app_nil_r.
Qed.

Lemma main_steps app filename out st : main [app; filename; out] st =
  (interface ← parse_file filename; generate [app; filename; out] out interface;; mret 0) st.
Proof. reflexivity. Qed.

(** The options are printed, and the exit code is the one of a success. *)
Definition printed_help (st st' : gen_state) : Prop := ∃ text, text ≠ [] ∧
  st' = GenState (gs_filename_buf st) (gs_file st) (gs_disk st) (gs_stdout st ++ text) (gs_stderr st) (gs_io st).

Lemma help_run {A} app st : ∃ st', help (A:=A) app st = Ret (inl EXIT_SUCCESS, st') ∧ printed_help st st'.
Proof.
  unfold help. erewrite bind_run; [|apply printf_run; solve_format].
  erewrite bind_run; [|apply printf_run; solve_format].
  eexists. split; [done|]. eexists. split; [|cbn; by rewrite <- app_assoc]. discriminate.
Qed.

(** C19. [interface_compiler file c_server], for every file which spells an
    interface: whatever the calls of the C library return, the program ends.  It
    ends with success, and then the disk has changed by exactly the four generated
    files, or a call has failed, and then the exit code is [EXIT_FAILURE] or an
    assertion of [close_file] fails. *)
Theorem server_compiled app filename file i st :
  gs_file st = None → gs_disk st !! filename = Some file → parsable parser_ctx file →
  interface_valid i → spells file (interface_tokens i) →
  match run_program [app; filename; c_literal "c_server"] st with
  | Ret (code, st') =>
      code = EXIT_SUCCESS ∧ gs_disk st' = foldl (λ d f, <[f.1 := f.2]> d) (gs_disk st) (server_files i) ∧
        gs_stdout st' = gs_stdout st ++ server_messages i ∧ gs_stderr st' = gs_stderr st ∨
      code = EXIT_FAILURE ∧ ¬ io_fine st
  | Fault f => f = AssertionFailed ∧ ¬ io_fine st
  end.
Proof.
  intros Hf Hfile Hp Hi Hs.
  assert (gwp (main [app; filename; c_literal "c_server"]) st (λ code st', code = EXIT_SUCCESS ∧
    gs_disk st' = foldl (λ d f, <[f.1 := f.2]> d) (gs_disk st) (server_files i) ∧
    gs_stdout st' = gs_stdout st ++ server_messages i ∧ gs_stderr st' = gs_stderr st)) as Hmain.
  { unfold gwp. rewrite main_steps. apply gwp_bind.
    eapply gwp_mono; [by eapply parse_file_spec|]. intros j st1 (-> & io & ->). apply gwp_bind.
    change (generate _ _ i) with (c_server_generator_generate i).
    eapply gwp_mono; [apply server_generator_creates; [done|by eapply methods_bound|done]|].
    intros [] st2 (_ & Hd & Ho & He). by apply gwp_ret. }
  unfold gwp, run_program in *. destruct (main _ st) as [[[code|code] st']|f]; [by right|left; apply Hmain|done].
Qed.

(** C20. [interface_compiler file c_client] has undefined behaviour on every file
    which spells an interface, although no call fails: the third file has a
    conversion without an argument. *)
Theorem client_not_compiled app filename file i st :
  gs_file st = None → io_fine st → gs_disk st !! filename = Some file → parsable parser_ctx file →
  interface_valid i → spells file (interface_tokens i) →
  run_program [app; filename; c_literal "c_client"] st = Fault UndefinedFormat.
Proof.
  intros Hf Hio Hfile Hp Hi Hs. unfold run_program. rewrite main_steps.
  destruct (gwp_run _ _ _ (parse_file_spec filename file i st Hfile Hp Hi Hs) Hio) as (j & st1 & Hrun & Hio1 & -> & io & ->).
  rewrite (bind_run _ _ _ _ _ Hrun). unfold mbind, G_bind.
  change (generate _ _ i) with (c_client_generator_generate i).
  by rewrite (client_generator_fault i Hi ltac:(by eapply methods_bound)).
Qed.

(** A file which spells no interface: the program ends with a message and
    [EXIT_FAILURE], and no file is written. *)
Lemma file_rejected app filename file out st :
  gs_disk st !! filename = Some file → parsable parser_ctx file →
  (∀ i, interface_valid i → ¬ spells file (interface_tokens i)) →
  ∃ st', run_program [app; filename; out] st = Ret (EXIT_FAILURE, st') ∧
    gs_disk st' = gs_disk st ∧ gs_stdout st' = gs_stdout st ∧ gs_stderr st' ≠ gs_stderr st.
Proof.
  intros Hfile Hp Hno. destruct (parse_file_rejects filename file st Hfile Hp Hno) as (st' & Hrun & Hst').
  exists st'. split; [|done]. unfold run_program. rewrite main_steps. unfold mbind, G_bind. by rewrite Hrun.
Qed.

(** An unknown output type is reported, and nothing is written; the exit code
    is the one of a success. *)
Lemma output_type_rejected app filename file i out st : io_fine st →
  gs_disk st !! filename = Some file → parsable parser_ctx file →
  interface_valid i → spells file (interface_tokens i) → out ≠ c_literal "c_client" → out ≠ c_literal "c_server" →
  ∃ st', run_program [app; filename; out] st = Ret (EXIT_SUCCESS, st') ∧ gs_disk st' = gs_disk st ∧
    gs_stderr st' = gs_stderr st ++ c_literal "error: unexpected output_type [" ++ out ++
      c_literal "]. Expected: c_client, c_server\n".
Proof.
  intros Hio Hfile Hp Hi Hs Hclient Hserver. unfold run_program. rewrite main_steps.
  destruct (gwp_run _ _ _ (parse_file_spec filename file i st Hfile Hp Hi Hs) Hio) as (j & st1 & Hrun & Hio1 & -> & io & ->).
  rewrite (bind_run _ _ _ _ _ Hrun). unfold generate. rewrite !bool_decide_eq_false_2 by done.
  set (st1 := GenState _ _ _ _ _ io).
  pose proof (fprintf_run ["error: unexpected output_type [%s]. Expected: c_client, c_server\n"%string] [ArgStr out]
    (c_literal "error: unexpected output_type [" ++ out ++ c_literal "]. Expected: c_client, c_server\n") st1
    ltac:(solve_name)) as Herr.
  destruct (help_run (A:=unit) app (GenState (gs_filename_buf st1) (gs_file st1) (gs_disk st1) (gs_stdout st1)
    (gs_stderr st1 ++ c_literal "error: unexpected output_type [" ++ out ++
     c_literal "]. Expected: c_client, c_server\n") (gs_io st1))) as (st2 & Hhelp & text & _ & Hst2).
  exists st2. unfold mbind at 1, G_bind at 1. erewrite (bind_run _ _ _ _ _ Herr).
  rewrite (bind_run (argument [app; filename; out] 0) _ _ app _ eq_refl), Hhelp.
  split; [reflexivity|]. rewrite Hst2. unfold st1. cbn [gs_disk gs_stderr]. split; reflexivity.
Qed.

(** ** Witnesses *)

Definition sample_disk (file : list byte) : gen_state :=
  GenState [] None {[chars "f" := file]} [] [] [].

Lemma sample_valid : interface_valid sample_interface.
Proof. apply (bool_decide_unpack _). by vm_compute. Qed.
Lemma sample_parsable : parsable parser_ctx sample_text.
Proof. apply (bool_decide_unpack _). by vm_compute. Qed.
Lemma sample_spells : spells sample_text (interface_tokens sample_interface).
Proof.
  pose proof (parse_interface_spec parser_ctx [] sample_text sample_parsable) as H. unfold wpp in H.
  destruct sample_parses as [ctx' Heq]. rewrite Heq in H. by apply H.
Qed.
Lemma sample_fine file : io_fine (sample_disk file).
Proof. constructor. Qed.
Lemma sample_file file : gs_disk (sample_disk file) !! chars "f" = Some file.
Proof. apply lookup_insert_eq. Qed.

Lemma server_compiled_witness : ∃ st',
  run_program [chars "ic"; chars "f"; c_literal "c_server"] (sample_disk sample_text) = Ret (EXIT_SUCCESS, st') ∧
  gs_stdout st' = server_messages sample_interface.
Proof.
  pose proof (server_compiled (chars "ic") (chars "f") sample_text sample_interface (sample_disk sample_text) eq_refl
    (sample_file _) sample_parsable sample_valid sample_spells) as H.
  destruct (run_program _ _) as [[code st']|f].
  - destruct H as [(-> & _ & Hout & _)|[_ Hno]]; [exists st'; by split|destruct Hno; apply sample_fine].
  - destruct H as [_ Hno]. destruct Hno. apply sample_fine.
Defined.

Lemma client_not_compiled_witness : io_fine (sample_disk sample_text) ∧
  run_program [chars "ic"; chars "f"; c_literal "c_client"] (sample_disk sample_text) = Fault UndefinedFormat.
Proof.
  split; [apply sample_fine|].
  apply (client_not_compiled _ _ sample_text sample_interface); [reflexivity|apply sample_fine|apply sample_file| | |].
  - apply sample_parsable.
  - apply sample_valid.
  - apply sample_spells.
Defined.

Lemma file_rejected_witness : parsable parser_ctx [] ∧
  ∃ st', run_program [chars "ic"; chars "f"; c_literal "c_server"] (sample_disk []) = Ret (EXIT_FAILURE, st') ∧
    gs_disk st' = gs_disk (sample_disk []).
Proof.
  assert (parsable parser_ctx []) as Hp by (apply (bool_decide_unpack _); by vm_compute). split; [exact Hp|].
  destruct (file_rejected (chars "ic") (chars "f") [] (c_literal "c_server") (sample_disk [])) as (st' & Hrun & Hd & _).
  - apply sample_file.
  - exact Hp.
  - intros i _ Hs. by apply spells_nil_iff in Hs.
  - exists st'. by split.
Defined.

Lemma output_type_rejected_witness : io_fine (sample_disk sample_text) ∧
  ∃ st', run_program [chars "ic"; chars "f"; chars "java"] (sample_disk sample_text) = Ret (EXIT_SUCCESS, st') ∧
    gs_disk st' = gs_disk (sample_disk sample_text).
Proof.
  split; [apply sample_fine|].
  destruct (output_type_rejected (chars "ic") (chars "f") sample_text sample_interface (chars "java") (sample_disk sample_text))
    as (st' & Hrun & Hd & _); [apply sample_fine|apply sample_file|apply sample_parsable|apply sample_valid|apply sample_spells| | |].
  - by vm_compute.
  - by vm_compute.
  - exists st'. by split.
Defined.
