(* ===== verification/StubSemantics.v ===== *)
(** * Running generated code

    What the statements of a generated file do, so that the stub of a client and
    the handler of a server can be run against each other.  The meaning of a
    statement is the one of the C line it was read from: the calls of the run-time
    library are the operations of a stream ([FF]) and of the values which are sent
    ([Wire]); variables are kept by name, each with the number of references to its
    object; a use of a variable which is not set, of an object which has been
    released or of a stream which has been deleted is a fault. *)

From stdpp Require Import gmap.
From Stdlib Require Import Strings.String DecimalString DecimalZ.
From S2P Require Import Prelude FF Wire InterfaceLexer InterfaceParser Stdio GeneratorCommon GeneratedCode.

Open Scope Z_scope.
Open Scope list_scope.

(** [ff_stream_flush] *)
Class FFFlush (S : Type) := ff_stream_flush : M S ff_result.

(** What has been written is handed over; there must be something.  Nothing can be
    written afterwards, unless the stream says so. *)
Class FFFlushSpec (S : Type) `{FFStreamSpec S, FFFlush S} : Prop := {
  ff_stream_flush_spec s : stream_inv s → writable s → outgoing s ≠ [] →
    wp (ff_stream_flush s) (λ '(r, s'), stream_inv s' ∧
      incoming s' = incoming s ∧ outgoing s' = outgoing s ∧ (r = FF_SUCCESS → flushed s'))
}.
Class ReliableFlush (S : Type) `{FFStream S, StreamView S, FFFlush S} : Prop := {
  reliable_flush s : stream_inv s → writable s → outgoing s ≠ [] →
    wp (ff_stream_flush s) (λ '(r, _), r = FF_SUCCESS)
}.

#[export] Instance mem_stream_flush : FFFlush mem_stream := λ s, Ret (FF_SUCCESS, s).
#[export] Instance mem_stream_flush_spec : FFFlushSpec mem_stream.
Proof. by split. Qed.
#[export] Instance mem_stream_flush_reliable : ReliableFlush mem_stream.
Proof. by split. Qed.

(** ** Reading names and numbers *)

Definition number (text : list byte) : Z :=
  match NilZero.int_of_string (string_of_list_byte text) with Some i => Z.of_int i | None => 0 end.

Fixpoint split_on (c : byte) (s : list byte) : list (list byte) :=
  match s with
  | [] => [[]]
  | b :: s =>
      if decide (b = c) then [] :: split_on c s
      else match split_on c s with w :: ws => (b :: w) :: ws | [] => [[b]] end
  end.

(** The function of a call and its arguments after the first one, each of which
    follows a comma and a space. *)
Definition call_function (text : list byte) : list byte := take_until "("%byte text.
Definition call_arguments (text : list byte) : list (list byte) :=
  drop 1 <$> tail (split_on ","%byte (drop (length (call_function text)) text)).

(** [a] is the value of a variable, [&a] its address. *)
Definition by_value (arg : list byte) : option (list byte) :=
  match arg with "&"%byte :: _ => None | _ => Some arg end.
Definition by_address (arg : list byte) : option (list byte) :=
  match arg with "&"%byte :: v => Some v | _ => None end.

(** [x = v] *)
Definition assigned_name (text : list byte) : list byte := take_until " "%byte text.
Definition assigned_variable (text : list byte) : list byte :=
  drop (length (assigned_name text) + 3) text.

(** What follows the header of a function. *)
Fixpoint function_code (header : statement) (code : list statement) : option (list statement) :=
  match code with
  | [] => None
  | s :: code => if decide (s = header) then Some code else function_code header code
  end.

(** ** The state of a function *)

Section semantics.
Context {value : param_type → Type} `{Hwire : ∀ t, Wire (value t)}.
Context {S : Type} `{FFStream S, FFFlush S}.

Definition any_value : Type := sigT value.

(** [fr_outs] is what has been stored through the pointers to the response
    parameters; [fr_result] is [result], which has no value at first. *)
Record frame := Frame {
  fr_stream : option S;
  fr_deleted : bool;
  fr_reset : bool;
  fr_locals : gmap (list byte) (any_value * Z);
  fr_outs : gmap (list byte) any_value;
  fr_result : option ff_result;
  fr_method_id : Z;
  fr_empty_byte : Z
}.

Definition set_stream (s : option S) (fr : frame) : frame :=
  Frame s (fr_deleted fr) (fr_reset fr) (fr_locals fr) (fr_outs fr) (fr_result fr) (fr_method_id fr) (fr_empty_byte fr).
Definition set_deleted (fr : frame) : frame :=
  Frame (fr_stream fr) true (fr_reset fr) (fr_locals fr) (fr_outs fr) (fr_result fr) (fr_method_id fr) (fr_empty_byte fr).
Definition set_reset (fr : frame) : frame :=
  Frame (fr_stream fr) (fr_deleted fr) true (fr_locals fr) (fr_outs fr) (fr_result fr) (fr_method_id fr) (fr_empty_byte fr).
Definition set_locals (l : gmap (list byte) (any_value * Z)) (fr : frame) : frame :=
  Frame (fr_stream fr) (fr_deleted fr) (fr_reset fr) l (fr_outs fr) (fr_result fr) (fr_method_id fr) (fr_empty_byte fr).
Definition set_outs (o : gmap (list byte) any_value) (fr : frame) : frame :=
  Frame (fr_stream fr) (fr_deleted fr) (fr_reset fr) (fr_locals fr) o (fr_result fr) (fr_method_id fr) (fr_empty_byte fr).
Definition set_result (r : ff_result) (fr : frame) : frame :=
  Frame (fr_stream fr) (fr_deleted fr) (fr_reset fr) (fr_locals fr) (fr_outs fr) (Some r) (fr_method_id fr) (fr_empty_byte fr).
Definition set_method_id (id : Z) (fr : frame) : frame :=
  Frame (fr_stream fr) (fr_deleted fr) (fr_reset fr) (fr_locals fr) (fr_outs fr) (fr_result fr) id (fr_empty_byte fr).
Definition set_empty_byte (b : Z) (fr : frame) : frame :=
  Frame (fr_stream fr) (fr_deleted fr) (fr_reset fr) (fr_locals fr) (fr_outs fr) (fr_result fr) (fr_method_id fr) b.

(** A function at its start. *)
Definition new_frame (s : option S) (locals : gmap (list byte) (any_value * Z)) : frame :=
  Frame s false false locals ∅ None 0 0.

(** ** Statements *)

(** A call on the stream. *)
Definition on_stream {A} (m : M S A) (k : A → frame → frame) (fr : frame) : outcome frame :=
  match fr_stream fr, fr_deleted fr with
  | Some s, false => '(a, s) ← m s; Ret (k a (set_stream (Some s) fr))
  | _, _ => Fault UseAfterFree
  end.

(** [ff_stream_read(stream, &b, 1)] *)
Definition read_octet (set : Z → frame → frame) : frame → outcome frame :=
  on_stream (ff_stream_read 1) (λ '(r, bs) fr,
    set_result r match r, bs with FF_SUCCESS, [b] => set (Z_of_byte b) fr | _, _ => fr end).

(** The value of a variable, whose object must be referenced. *)
Definition variable (fr : frame) (v : list byte) : outcome any_value :=
  match fr_locals fr !! v with
  | Some (x, refs) => if bool_decide (0 < refs) then Ret x else Fault UseAfterFree
  | None => Fault OutOfBounds
  end.

Definition change_refs (v : list byte) (change : Z) (fr : frame) : outcome frame :=
  match fr_locals fr !! v with
  | Some (x, refs) =>
      if bool_decide (0 < refs) then Ret (set_locals (<[v := (x, refs + change)]> (fr_locals fr)) fr)
      else Fault UseAfterFree
  | None => Fault OutOfBounds
  end.

Definition serialize_variable (t : param_type) (v : list byte) (fr : frame) : outcome frame :=
  x ← variable fr v;
  if bool_decide (projT1 x = t) then on_stream (wire_serialize (projT2 x)) set_result fr
  else Fault OutOfBounds.

Definition unserialize_variable (t : param_type) (v : list byte) : frame → outcome frame :=
  on_stream (wire_unserialize (A := value t)) (λ '(r, o) fr,
    set_result r match o with
                 | Some a => set_locals (<[v := (existT t a, 1)]> (fr_locals fr)) fr
                 | None => fr
                 end).

Fixpoint variables (fr : frame) (vs : list (list byte)) : outcome (list any_value) :=
  match vs with
  | [] => Ret []
  | v :: vs => x ← variable fr v; l ← variables fr vs; Ret (x :: l)
  end.

Fixpoint assign_all (vs : list (list byte)) (xs : list any_value) (locals : gmap (list byte) (any_value * Z)) :
    outcome (gmap (list byte) (any_value * Z)) :=
  match vs, xs with
  | [], [] => Ret locals
  | v :: vs, x :: xs => assign_all vs xs (<[v := (x, 1)]> locals)
  | _, _ => Fault OutOfBounds
  end.

(** The stream which [mrpc_client_create_request_stream] returns; the functions of
    the service, from the values of the request parameters to those of the response
    parameters; the handlers of the table. *)
Context (created : option S) (service : list byte → list any_value → list any_value)
  (call_handler : Z → frame → outcome frame).

Definition call_service (text : list byte) (fr : frame) : outcome frame :=
  inputs ← variables fr (omap by_value (call_arguments text));
  locals ← assign_all (omap by_address (call_arguments text)) (service (call_function text) inputs) (fr_locals fr);
  Ret (set_locals locals fr).

Definition run_statement (s : statement) (fr : frame) : outcome frame :=
  match s with
  | CreateStream => Ret (set_stream created fr)
  | WriteMethodId => on_stream (ff_stream_write [byte_of_Z (fr_method_id fr)]) set_result fr
  | ReadMethodId => read_octet set_method_id fr
  | WriteEmptyByte => on_stream (ff_stream_write [x00]) set_result fr
  | ReadEmptyByte => read_octet set_empty_byte fr
  | Serialize t v => serialize_variable t v fr
  | Unserialize t v => unserialize_variable t v fr
  | FlushStream => on_stream ff_stream_flush set_result fr
  | DeleteStream => on_stream (mret tt) (λ _, set_deleted) fr
  | ResetConnection => Ret (set_reset fr)
  | SetMethodId id => Ret (set_method_id (u8 (number id)) fr)
  | SetFailure => Ret (set_result FF_FAILURE fr)
  | AssignResponse text =>
      x ← variable fr (assigned_variable text);
      Ret (set_outs (<[assigned_name text := x]> (fr_outs fr)) fr)
  | IncRef _ v => change_refs v 1 fr
  | DecRef _ v => change_refs v (-1) fr
  | CallService text => call_service text fr
  | CallHandler => call_handler (fr_method_id fr) fr
  | _ => Ret fr
  end.

(** The condition of an [if]. *)
Definition condition (s : statement) (fr : frame) : option (outcome bool) :=
  match s with
  | IfFailed =>
      Some match fr_result fr with Some r => Ret (bool_decide (r ≠ FF_SUCCESS)) | None => Fault OutOfBounds end
  | IfNoStream => Some (Ret (bool_decide (fr_stream fr = None)))
  | IfStream => Some (Ret (bool_decide (fr_stream fr ≠ None)))
  | IfEmptyByteSet => Some (Ret (bool_decide (fr_empty_byte fr ≠ 0)))
  | IfMethodIdAtLeast bound => Some (Ret (bool_decide (fr_method_id fr >= number bound)))
  | IfPointer v => Some (Ret (bool_decide (fr_locals fr !! v ≠ None)))
  | _ => None
  end.

(** ** Functions

    Statements are run one after the other; while a block is skipped, its braces
    are counted; after a [goto] the label is searched. *)

Inductive mode :=
  | Running
  | Skipping (depth : nat)
  | Jumping.

Fixpoint exec (code : list statement) (m : mode) (fr : frame) : outcome frame :=
  match code with
  | [] => Fault OutOfBounds
  | s :: code =>
      match m with
      | Running =>
          match s with
          | GotoEnd => exec code Jumping fr
          | Return => match fr_result fr with Some _ => Ret fr | None => Fault OutOfBounds end
          | _ =>
              match condition s fr with
              | Some (Ret b) => exec code (if b : bool then Running else Skipping 0) fr
              | Some (Fault f) => Fault f
              | None => fr ← run_statement s fr; exec code Running fr
              end
          end
      | Skipping depth =>
          match s, depth with
          | Open, _ => exec code (Skipping (Datatypes.S depth)) fr
          | Close, (0 | 1)%nat => exec code Running fr
          | Close, Datatypes.S depth => exec code (Skipping depth) fr
          | _, _ => exec code (Skipping depth) fr
          end
      | Jumping =>
          match s with
          | EndLabel => exec code Running fr
          | _ => exec code Jumping fr
          end
      end
  end.
End semantics.
