(* ===== verification/RemoteCall.v ===== *)
(** * A remote call, from the generated stub to the generated handler

    The text which the generators write for an interface is read back and run:
    the stub of a method on one stream, the stream handler on another.  The types
    of the values which are sent and the streams are interfaces ([Wire],
    [FFStream]). *)

From stdpp Require Import gmap.
From Stdlib Require Import Strings.String DecimalString DecimalPos DecimalZ.
From S2P Require Import Prelude FF Wire InterfaceLexer InterfaceParser Stdio GeneratorCommon GeneratedCode ClientGenerator ServerGenerator StubSemantics.

Open Scope Z_scope.
Open Scope list_scope.

(** ** Names and numbers *)

Lemma number_decimal n : number (decimal n) = n.
Proof.
  unfold number, decimal. rewrite string_of_list_byte_of_string, NilZero.isi; [apply of_to| |]; destruct n; try done;
    cbn; intros [= Hn]; by apply (Unsigned.to_uint_nonnil p).
Qed.

Lemma split_on_last c w : c ∉ w → split_on c w = [w].
Proof.
  induction w as [|b w IH]; [done|]. intros [Hb Hw]%not_elem_of_cons. cbn [split_on].
  rewrite decide_False by done. by rewrite IH.
Qed.

Lemma split_on_app c w s : c ∉ w → split_on c (w ++ c :: s) = w :: split_on c s.
Proof.
  induction w as [|b w IH]; cbn [split_on app]; [by rewrite decide_True|]. intros [Hb Hw]%not_elem_of_cons.
  rewrite decide_False by done. by rewrite IH.
Qed.

(** The arguments of a call, separated by commas. *)
Definition comma_list (ws : list (list byte)) : list byte := concat ((λ w, c_literal ", " ++ w) <$> ws).

Lemma comma_list_cons w ws : comma_list (w :: ws) = ","%byte :: (" "%byte :: w) ++ comma_list ws.
Proof. unfold comma_list. rewrite fmap_cons. cbn [concat]. rewrite <- app_assoc. reflexivity. Qed.

Lemma split_comma_list first ws : ","%byte ∉ first → Forall (λ w, ","%byte ∉ w) ws →
  split_on ","%byte (first ++ comma_list ws) = first :: ((λ w, " "%byte :: w) <$> ws).
Proof.
  intros Hfirst Hws. revert first Hfirst. induction Hws as [|w ws Hw Hws IH]; intros first Hfirst.
  - unfold comma_list. cbn. rewrite app_nil_r. by apply split_on_last.
  - rewrite comma_list_cons, split_on_app, IH by (done || by apply not_elem_of_cons). done.
Qed.

Lemma call_parts w first ws : "("%byte ∉ w → ","%byte ∉ first → Forall (λ w, ","%byte ∉ w) ws →
  call_function (w ++ "("%byte :: first ++ comma_list ws) = w ∧
  call_arguments (w ++ "("%byte :: first ++ comma_list ws) = ws.
Proof.
  intros Hw Hfirst Hws.
  assert (call_function (w ++ "("%byte :: first ++ comma_list ws) = w) as Hf.
  { unfold call_function. by rewrite take_until_app, take_until_delimiter, app_nil_r. }
  split; [done|]. unfold call_arguments. rewrite Hf, drop_app_length.
  change ("("%byte :: first ++ comma_list ws) with (("("%byte :: first) ++ comma_list ws).
  rewrite split_comma_list; [|by apply not_elem_of_cons|done]. cbn [tail].
  rewrite <- list_fmap_compose. apply list_fmap_id.
Qed.

Lemma assignment_parts x v : " "%byte ∉ x →
  assigned_name (x ++ c_literal " = " ++ v) = x ∧ assigned_variable (x ++ c_literal " = " ++ v) = v.
Proof.
  intros Hx. change (c_literal " = " ++ v) with (" "%byte :: "="%byte :: " "%byte :: v).
  assert (assigned_name (x ++ " "%byte :: "="%byte :: " "%byte :: v) = x) as Hn.
  { unfold assigned_name. by rewrite take_until_app, take_until_delimiter, app_nil_r. }
  split; [done|]. unfold assigned_variable. rewrite Hn.
  rewrite <- drop_drop, drop_app_length. done.
Qed.

(** ** Rules for code *)

Section code.
Context {value : param_type → Type} `{Hwire : ∀ t, Wire (value t)} `{Hlaws : ∀ t, WireSpec (value t)}.
Context {S : Type} `{FFFlushSpec S}.
Context (created : option S) (service : list byte → list (any_value (value := value)) → list (any_value (value := value)))
  (call_handler : Z → frame (value := value) (S := S) → outcome (frame (value := value) (S := S))).
Implicit Types (m : method) (args : list (any_value (value := value))) (fr : frame (value := value) (S := S)) (s : S) (x : any_value (value := value)) (code : list statement).

#[local] Abbreviation run_code := (exec created service call_handler).
#[local] Abbreviation run := (run_statement created service call_handler).

(** A call whose result is checked. *)
Definition checkable (st : statement) : Prop :=
  (∀ fr, condition st fr = None) ∧ st ≠ GotoEnd ∧ st ≠ Return.

Lemma exec_statement st code fr Q : checkable st →
  wp (run st fr) (λ fr', wp (run_code code Running fr') Q) → wp (run_code (st :: code) Running fr) Q.
Proof.
  intros (Hc & Hg & Hr). rewrite <- wp_bind. specialize (Hc fr).
  destruct st; try done; cbn [exec]; by rewrite ?Hc.
Qed.

Lemma exec_checked st code fr Q : checkable st →
  wp (run st fr) (λ fr', match fr_result fr' with
    | Some FF_SUCCESS => wp (run_code code Running fr') Q
    | Some FF_FAILURE => wp (run_code code Jumping fr') Q
    | None => False
    end) → wp (run_code (checked st ++ code) Running fr) Q.
Proof.
  intros Hst Hwp. unfold checked. cbn [app]. apply exec_statement; [done|].
  eapply wp_mono; [exact Hwp|]. intros fr'. cbn [exec condition]. by destruct (fr_result fr') as [[]|].
Qed.

Lemma exec_open code fr : run_code (Open :: code) Running fr = run_code code Running fr.
Proof. done. Qed.
Lemma exec_close code fr : run_code (Close :: code) Running fr = run_code code Running fr.
Proof. done. Qed.
Lemma exec_label code fr : run_code (EndLabel :: code) Running fr = run_code code Running fr.
Proof. done. Qed.
Lemma exec_return code fr r : fr_result fr = Some r → run_code (Return :: code) Running fr = Ret fr.
Proof. cbn [exec]. by intros ->. Qed.

Lemma exec_test test code fr (b : bool) : condition test fr = Some (Ret b) → test ≠ GotoEnd → test ≠ Return →
  run_code (test :: code) Running fr = run_code code (if b then Running else Skipping 0) fr.
Proof. intros Hc Hg Hr. cbn [exec]. destruct test; try done; by rewrite Hc. Qed.

Lemma skip_statement st code fr n : st ≠ Open → st ≠ Close →
  run_code (st :: code) (Skipping (Datatypes.S n)) fr = run_code code (Skipping (Datatypes.S n)) fr.
Proof. intros Ho Hc. cbn [exec]. by destruct st. Qed.

(** A block of one statement, and a block which fails. *)
Lemma exec_if_block test body code fr (b : bool) Q : condition test fr = Some (Ret b) → checkable body →
  test ≠ GotoEnd → test ≠ Return → body ≠ Open → body ≠ Close →
  (if b then wp (run body fr) (λ fr', wp (run_code code Running fr') Q) else wp (run_code code Running fr) Q) →
  wp (run_code (test :: Open :: body :: Close :: code) Running fr) Q.
Proof.
  intros Hc Hbody Hg Hr Ho Hcl Hwp. rewrite (exec_test test _ fr b) by done. destruct b.
  - rewrite exec_open. by apply exec_statement.
  - change (run_code (Open :: body :: Close :: code) (Skipping 0) fr) with
      (run_code (body :: Close :: code) (Skipping 1) fr). by rewrite skip_statement.
Qed.

Lemma exec_if_fails test code fr (b : bool) : condition test fr = Some (Ret b) → test ≠ GotoEnd → test ≠ Return →
  run_code (test :: Open :: SetFailure :: GotoEnd :: Close :: code) Running fr =
  if b then run_code code Jumping (set_result FF_FAILURE fr) else run_code code Running fr.
Proof.
  intros Hc Hg Hr. rewrite (exec_test test _ fr b) by done. by destruct b.
Qed.

Lemma jump_over code1 code fr : EndLabel ∉ code1 → run_code (code1 ++ code) Jumping fr = run_code code Jumping fr.
Proof.
  induction code1 as [|st code1 IH]; [done|]. intros [Hst Hcode]%not_elem_of_cons. cbn [app exec].
  rewrite IH by done. by destruct st.
Qed.

(** ** Values and streams *)

(** A stream which can be used. *)
Definition live fr s : Prop := fr_stream fr = Some s ∧ fr_deleted fr = false ∧ stream_inv s.

(** A value of the type of a parameter. *)
Definition typed (p : param) x : Prop := projT1 x = p_type p ∧ wire_valid (projT2 x).

Definition value_bytes (xs : list (any_value (value := value))) : list byte := concat ((λ x, wire_bytes (projT2 x)) <$> xs).

Definition referenced fr (v : list byte) x : Prop := ∃ n, fr_locals fr !! v = Some (x, n) ∧ 0 < n.

(** The result after a loop, which may have no rounds. *)
Definition succeeded (ps : list param) fr : frame :=
  match ps with [] => fr | _ => set_result FF_SUCCESS fr end.

Lemma on_stream_wp {A} (m : M S A) k fr s (R : A → S → Prop) Q : live fr s →
  wp (m s) (λ '(a, s'), R a s') → (∀ a s', R a s' → Q (k a (set_stream (Some s') fr))) → wp (on_stream m k fr) Q.
Proof.
  intros (Hs & Hd & _) Hm HQ. unfold on_stream. rewrite Hs, Hd. rewrite wp_bind.
  eapply wp_mono; [exact Hm|]. intros [a s'] Ha. by apply HQ.
Qed.

Lemma variable_ok fr v x : referenced fr v x → variable fr v = Ret x.
Proof. intros (n & Hv & Hn). unfold variable. by rewrite Hv, bool_decide_eq_true_2. Qed.

(** One value, on any stream and on one which does not fail. *)
Lemma serialize_one p v x fr s Q : live fr s → writable s → typed p x → referenced fr v x →
  (∀ r s', wrote (wire_bytes (projT2 x)) s r s' → (ReliableStream S → r = FF_SUCCESS) →
    Q (set_result r (set_stream (Some s') fr))) →
  wp (serialize_variable (p_type p) v fr) Q.
Proof.
  intros Hl Hw (Ht & Hx) Hv HQ. unfold serialize_variable. rewrite (variable_ok fr v x Hv). cbn [mbind outcome_bind].
  rewrite bool_decide_eq_true_2 by done. pose proof Hl as (_ & _ & Hs).
  eapply (on_stream_wp _ _ _ s (λ r s', wrote (wire_bytes (projT2 x)) s r s' ∧ (ReliableStream S → r = FF_SUCCESS)));
    [done| |intros r s' [??]; by apply HQ].
  pose proof (wire_serialize_spec (projT2 x) s Hx Hs Hw) as Hspec.
  destruct (wire_serialize (projT2 x) s) as [[r s']|f] eqn:E; [|done]. split; [done|]. intros Hrel.
  pose proof (wire_serialize_reliable (projT2 x) s Hx Hs Hw) as Hok. by rewrite E in Hok.
Qed.

Lemma live_next fr s s' : live fr s → stream_inv s' → live (set_stream (Some s') fr) s'.
Proof. by intros (_ & Hd & _) ?. Qed.

Lemma end_not_checked {A} (f : A → statement) l : (∀ a, f a ≠ EndLabel) → EndLabel ∉ concat ((λ a, checked (f a)) <$> l).
Proof.
  intros Hf. induction l as [|a l IH]; [apply not_elem_of_nil|]. rewrite fmap_cons. cbn [concat].
  apply not_elem_of_app. split; [|done]. unfold checked. specialize (Hf a).
  rewrite !not_elem_of_cons. split_and!; try done. apply not_elem_of_nil.
Qed.

Lemma exec_serialize_all (var : param → list byte) ps xs code fr s Q : live fr s → writable s →
  Forall2 typed ps xs → Forall2 (λ p x, referenced fr (var p) x) ps xs →
  (∀ s', stream_inv s' → writable s' → incoming s' = incoming s → outgoing s' = outgoing s ++ value_bytes xs →
    wp (run_code code Running (succeeded ps (set_stream (Some s') fr))) Q) →
  (∀ s', ¬ ReliableStream S → stream_inv s' → writable s' →
    wp (run_code code Jumping (set_result FF_FAILURE (set_stream (Some s') fr))) Q) →
  wp (run_code (concat ((λ p, checked (Serialize (p_type p) (var p))) <$> ps) ++ code) Running fr) Q.
Proof.
  intros Hl Hw Ht. revert fr s Hl Hw. induction Ht as [|p x ps xs Hp Ht IH]; intros fr s Hl Hw Hv Hok Hfail.
  - cbn [fmap list_fmap concat app]. destruct Hl as (Hs & Hd & Hi).
    specialize (Hok s Hi Hw eq_refl). destruct fr as [st ? ? ? ? ? ? ?]. cbn in Hs, Hok. subst st. apply Hok.
    unfold value_bytes. cbn. by rewrite app_nil_r.
  - apply Forall2_cons in Hv as [Hvx Hv]. rewrite fmap_cons. cbn [concat]. rewrite <- app_assoc.
    apply exec_checked; [done|]. cbn [run_statement].
    apply (serialize_one p (var p) x fr s); [done..|]. intros r s1 (Hi & Hw1 & Hin & Hout) Hrel. cbn [fr_result set_result].
    destruct r.
    + apply (IH _ s1); [by split_and!; [|apply Hl|..]|done|done| |done].
      intros s' Hi' Hw' Hin' Hout'. specialize (Hok s' Hi' Hw').
      rewrite Hin', Hin in Hok. specialize (Hok eq_refl). rewrite Hout', Hout, <- app_assoc in Hok.
      specialize (Hok eq_refl). by destruct ps.
    + rewrite jump_over by (by apply end_not_checked). apply Hfail; [|done..]. intros Hr. by specialize (Hrel Hr).
Qed.

(** ** Values which are received *)

(** New objects, each with one reference. *)
Fixpoint bind_all (vs : list (list byte)) (xs : list (any_value (value := value)))
    (L : gmap (list byte) (any_value (value := value) * Z)) : gmap (list byte) (any_value (value := value) * Z) :=
  match vs, xs with
  | v :: vs, x :: xs => bind_all vs xs (<[v := (x, 1)]> L)
  | _, _ => L
  end.

(** The stream begins with these values, and does not fail. *)
Definition delivered ps xs s rest : Prop :=
  ReliableStream S ∧ Forall2 typed ps xs ∧ incoming s = value_bytes xs ++ rest.

Lemma unserialize_one p v fr s Q : live fr s →
  (∀ x s', typed p x → live (set_stream (Some s') fr) s' → undisturbed s s' →
    (∀ xs ps rest, delivered (p :: ps) xs s rest → ∃ xs', xs = x :: xs' ∧ delivered ps xs' s' rest) →
    Q (set_result FF_SUCCESS (set_locals (<[v := (x, 1)]> (fr_locals fr)) (set_stream (Some s') fr)))) →
  (∀ s', live (set_stream (Some s') fr) s' → (∀ xs ps rest, ¬ delivered (p :: ps) xs s rest) →
    Q (set_result FF_FAILURE (set_stream (Some s') fr))) →
  wp (unserialize_variable (p_type p) v fr) Q.
Proof.
  intros Hl Hok Hfail. pose proof Hl as (_ & _ & Hs). unfold unserialize_variable.
  eapply (on_stream_wp _ _ _ s (λ ro s', wire_unserialize (A := value (p_type p)) s = Ret (ro, s'))); [done| |].
  { pose proof (wire_unserialize_safe (A := value (p_type p)) s Hs) as Hsafe.
    by destruct (wire_unserialize s) as [[ro s']|f]. }
  intros [r o] s' Hrun.
  assert (∀ xs ps rest, delivered (p :: ps) xs s rest → ∃ a xs', xs = existT (p_type p) a :: xs' ∧
    r = FF_SUCCESS ∧ o = Some a ∧ delivered ps xs' s' rest) as Harr.
  { intros xs ps rest (Hrel & Ht & Hin). inversion Ht as [|p' x ps' xs' Hp Hps]; subst.
    destruct x as [t a], Hp as [Hpt Ha]. cbn in Hpt, Ha. subst t. exists a, xs'.
    unfold value_bytes in Hin. rewrite fmap_cons in Hin. cbn [concat projT2] in Hin. rewrite <- app_assoc in Hin.
    pose proof (wire_unserialize_bytes a s _ Ha Hs Hin) as Hread. rewrite Hrun in Hread. cbn in Hread.
    by destruct Hread as (-> & -> & _ & Hrest). }
  pose proof (wire_unserialize_safe (A := value (p_type p)) s Hs) as Hsafe. rewrite Hrun in Hsafe. cbn in Hsafe.
  destruct r.
  - destruct Hsafe as ((bs & Hu & _) & a & -> & Ha).
    apply (Hok (existT (p_type p) a)); [done|apply (live_next fr s); eauto with mrpc|done|].
    intros xs ps rest Hxs. destruct (Harr xs ps rest Hxs) as (b & xs' & -> & _ & [= ->] & ?). by exists xs'.
  - destruct Hsafe as (Hu & ->). apply Hfail; [apply (live_next fr s); eauto with mrpc|].
    intros xs ps rest Hxs. by destruct (Harr xs ps rest Hxs) as (b & xs' & _ & ? & _).
Qed.

Lemma exec_unserialize_all (var : param → list byte) ps code fr s Q : live fr s →
  (∀ xs s', Forall2 typed ps xs → live (set_stream (Some s') fr) s' → undisturbed s s' →
    (∀ ys rest, delivered ps ys s rest → ys = xs ∧ incoming s' = rest) →
    wp (run_code code Running
      (succeeded ps (set_locals (bind_all (var <$> ps) xs (fr_locals fr)) (set_stream (Some s') fr)))) Q) →
  (∀ ps1 xs s', ps1 `prefix_of` ps → Forall2 typed ps1 xs → live (set_stream (Some s') fr) s' →
    (∀ ys rest, ¬ delivered ps ys s rest) →
    wp (run_code code Jumping
      (set_result FF_FAILURE (set_locals (bind_all (var <$> ps1) xs (fr_locals fr)) (set_stream (Some s') fr)))) Q) →
  wp (run_code (concat ((λ p, checked (Unserialize (p_type p) (var p))) <$> ps) ++ code) Running fr) Q.
Proof.
  revert fr s. induction ps as [|p ps IH]; intros fr s Hl Hok Hfail.
  - cbn [fmap list_fmap concat app].
    specialize (Hok [] s ltac:(constructor)). destruct Hl as (Hs & Hl).
    destruct fr as [st ? ? ? ? ? ? ?]. cbn in Hs, Hok. subst st. apply Hok; [done|by destruct Hl|].
    intros ys rest (_ & Hys & Hin). inversion Hys; subst. by rewrite Hin.
  - rewrite fmap_cons. cbn [concat]. rewrite <- app_assoc.
    apply exec_checked; [done|]. cbn [run_statement]. apply (unserialize_one p (var p) fr s); [done|..].
    + intros x s1 Hx Hl1 Hout1 Harr. cbn [fr_result set_result]. apply (IH _ s1); [exact Hl1|..].
      * intros xs s' Hxs Hl' Hout' Hrest. specialize (Hok (x :: xs) s' ltac:(by constructor) Hl').
        cbn [fmap list_fmap bind_all] in Hok.
        assert (∀ ys rest, delivered (p :: ps) ys s rest → ys = x :: xs ∧ incoming s' = rest) as Hall.
        { intros ys rest Hys. destruct (Harr ys ps rest Hys) as (xs' & -> & Hxs').
          by destruct (Hrest xs' rest Hxs') as [-> ->]. }
        specialize (Hok (undisturbed_trans _ _ _ Hout1 Hout') Hall). by destruct ps.
      * intros ps1 xs s' Hpre Hxs Hl' Hno.
        apply (Hfail (p :: ps1) (x :: xs) s'); [by apply prefix_cons|by constructor|done|].
        intros ys rest Hys. destruct (Harr ys ps rest Hys) as (xs' & _ & Hxs'). by apply (Hno xs' rest).
    + intros s1 Hl1 Hno. cbn [fr_result set_result]. rewrite jump_over by (by apply end_not_checked).
      apply (Hfail [] [] s1); [apply prefix_nil|constructor|done|]. intros ys rest Hys. by apply (Hno ys ps rest).
Qed.

(** ** References *)

Definition change_count (change : Z) (v : list byte) (L : gmap (list byte) (any_value (value := value) * Z)) :=
  match L !! v with Some (x, n) => <[v := (x, n + change)]> L | None => L end.

(** The references of the pointers among some variables. *)
Fixpoint change_counts (change : Z) (var : param → list byte) (ps : list param)
    (L : gmap (list byte) (any_value (value := value) * Z)) :=
  match ps with
  | [] => L
  | p :: ps => change_counts change var ps (if c_is_param_ptr p then change_count change (var p) L else L)
  end.

Fixpoint store_all (vs : list (list byte)) (xs : list (any_value (value := value)))
    (outs : gmap (list byte) (any_value (value := value))) :=
  match vs, xs with
  | v :: vs, x :: xs => store_all vs xs (<[v := x]> outs)
  | _, _ => outs
  end.

Lemma change_count_ne change v w L : v ≠ w → change_count change v L !! w = L !! w.
Proof. intros Hvw. unfold change_count. destruct (L !! v) as [[x n]|]; [by rewrite lookup_insert_ne|done]. Qed.

Lemma change_count_lookup change v L : change_count change v L !! v = (λ xn, (xn.1, xn.2 + change)) <$> L !! v.
Proof.
  unfold change_count. destruct (L !! v) as [[x n]|] eqn:E; [by rewrite lookup_insert_eq|by rewrite E].
Qed.

Lemma change_refs_ok fr v change x n : fr_locals fr !! v = Some (x, n) → 0 < n →
  change_refs v change fr = Ret (set_locals (change_count change v (fr_locals fr)) fr).
Proof. intros Hv Hn. unfold change_refs, change_count. by rewrite Hv, bool_decide_eq_true_2. Qed.

Lemma referenced_inc fr v w x : referenced fr v x →
  referenced (set_locals (change_count 1 w (fr_locals fr)) fr) v x.
Proof.
  intros (n & Hv & Hn). unfold referenced. cbn [fr_locals set_locals]. destruct (decide (w = v)) as [->|Hw].
  - exists (n + 1). rewrite change_count_lookup, Hv. split; [done|lia].
  - exists n. by rewrite change_count_ne.
Qed.

Lemma exec_assign_all ps xs code fr Q :
  Forall (λ p, " "%byte ∉ p_name p) ps → Forall2 (λ p x, referenced fr (response_variable p) x) ps xs →
  wp (run_code code Running (set_locals (change_counts 1 response_variable ps (fr_locals fr))
    (set_outs (store_all (p_name <$> ps) xs (fr_outs fr)) fr))) Q →
  wp (run_code (concat (assign_code <$> ps) ++ code) Running fr) Q.
Proof.
  revert fr xs. induction ps as [|p ps IH]; intros fr xs Hps Hv Hwp.
  - inversion Hv; subst. cbn [fmap list_fmap concat app] in *. by destruct fr.
  - inversion Hv as [|p' x ps' xs' Hx Hxs]; subst. apply Forall_cons in Hps as [Hp Hps].
    rewrite fmap_cons. cbn [concat]. rewrite <- app_assoc. unfold assign_code at 1. rewrite <- app_comm_cons.
    destruct (assignment_parts (p_name p) (response_variable p) Hp) as [Hname Hvar].
    apply exec_statement; [done|]. cbn [run_statement]. rewrite Hvar, (variable_ok fr _ x Hx). cbn [mbind outcome_bind].
    rewrite Hname. cbn [wp]. cbn [change_counts fmap list_fmap store_all] in Hwp.
    destruct (c_is_param_ptr p).
    + rewrite <- app_comm_cons, app_nil_l. apply exec_statement; [done|]. cbn [run_statement].
      destruct Hx as (n & Hx & Hn). erewrite change_refs_ok by done. cbn [wp]. apply (IH _ xs'); [done| |exact Hwp].
      eapply Forall2_impl; [exact Hxs|]. intros q y Hy. by apply (referenced_inc fr).
    + apply (IH _ xs'); [done|exact Hxs|exact Hwp].
Qed.

(** The variables which are set have references. *)
Definition counted (var : param → list byte) (ps : list param) fr : Prop :=
  ∀ p x n, p ∈ ps → c_is_param_ptr p → fr_locals fr !! var p = Some (x, n) → 0 < n.

Lemma exec_release_all var ps code fr Q : NoDup (var <$> ps) → counted var ps fr →
  wp (run_code code Running (set_locals (change_counts (-1) var ps (fr_locals fr)) fr)) Q →
  wp (run_code (release_code var ps ++ code) Running fr) Q.
Proof.
  unfold release_code. revert fr. induction ps as [|p ps IH]; intros fr Hnd Hc Hwp.
  - cbn [fmap list_fmap concat app] in *. by destruct fr.
  - rewrite fmap_cons in *. apply NoDup_cons in Hnd as [Hp Hnd]. cbn [concat]. rewrite <- app_assoc.
    assert (counted var ps fr) as Hc' by (intros q x n Hq; apply Hc; by right).
    cbn [change_counts] in Hwp. destruct (c_is_param_ptr p) eqn:Hptr; [|by apply IH].
    cbn [app]. eapply exec_if_block; [reflexivity|done..|]. case_bool_decide as Hv.
    + cbn [run_statement]. destruct (fr_locals fr !! var p) as [[x n]|] eqn:Hx; [|done].
      rewrite (change_refs_ok fr _ _ x n Hx) by (apply (Hc p x n); [by left|by rewrite Hptr|done]). cbn [wp].
      apply IH; [done| |exact Hwp]. intros q y k Hq Hqptr. cbn [fr_locals set_locals].
      rewrite change_count_ne; [by apply Hc'|]. intros Heq. apply Hp. rewrite Heq. apply list_elem_of_fmap. by exists q.
    + unfold change_count in Hwp. rewrite Hv in Hwp. by apply IH.
Qed.

(** ** Counts of references *)

Definition positive (L : gmap (list byte) (any_value (value := value) * Z)) : Prop :=
  ∀ v x n, L !! v = Some (x, n) → 0 < n.

Lemma positive_bind_all vs xs L : positive L → positive (bind_all vs xs L).
Proof.
  revert xs L. induction vs as [|v vs IH]; intros [|x xs] L HL; try done. cbn [bind_all]. apply IH.
  intros w y n. destruct (decide (v = w)) as [->|Hvw]; [rewrite lookup_insert_eq; by intros [= <- <-]|].
  rewrite lookup_insert_ne by done. apply HL.
Qed.

Lemma positive_inc v L : positive L → positive (change_count 1 v L).
Proof.
  intros HL w x n. destruct (decide (v = w)) as [->|Hvw]; [|rewrite change_count_ne by done; apply HL].
  rewrite change_count_lookup. destruct (L !! w) as [[y k]|] eqn:E; [|done]. cbn. intros [= <- <-].
  specialize (HL w y k E). lia.
Qed.

Lemma positive_incs var ps L : positive L → positive (change_counts 1 var ps L).
Proof.
  revert L. induction ps as [|p ps IH]; intros L HL; [done|]. cbn [change_counts]. apply IH.
  destruct (c_is_param_ptr p); [by apply positive_inc|done].
Qed.

Lemma positive_counted var ps fr : positive (fr_locals fr) → counted var ps fr.
Proof. intros HL p x n _ _. apply HL. Qed.

Lemma bind_all_other vs xs L v : v ∉ vs → bind_all vs xs L !! v = L !! v.
Proof.
  revert xs L. induction vs as [|w vs IH]; intros [|x xs] L; try done. intros [Hv Hvs]%not_elem_of_cons.
  cbn [bind_all]. by rewrite IH, lookup_insert_ne.
Qed.

Lemma bind_all_lookup vs xs L : NoDup vs → length vs = length xs →
  Forall2 (λ v x, bind_all vs xs L !! v = Some (x, 1)) vs xs.
Proof.
  revert xs L. induction vs as [|v vs IH]; intros [|x xs] L Hnd Hlen; try done.
  apply NoDup_cons in Hnd as [Hv Hnd]. cbn [bind_all]. constructor.
  - by rewrite bind_all_other, lookup_insert_eq.
  - apply IH; [done|]. by injection Hlen.
Qed.

Lemma bind_all_params (var : param → list byte) ps xs L : NoDup (var <$> ps) → Forall2 typed ps xs →
  Forall2 (λ p x, bind_all (var <$> ps) xs L !! var p = Some (x, 1)) ps xs.
Proof.
  intros Hnd Ht. apply (Forall2_fmap_l var (λ v x, bind_all (var <$> ps) xs L !! v = Some (x, 1)) ps xs).
  apply bind_all_lookup; [done|]. rewrite length_fmap. by eapply Forall2_length.
Qed.

(** ** The stub of a client *)

Definition request_bytes (k : Z) (args : list (any_value (value := value))) : list byte := byte_of_Z k :: value_bytes args.
Definition response_bytes (m : method) (results : list (any_value (value := value))) : list byte :=
  match m_response_params m with [] => [x00] | _ => value_bytes results end.

Lemma response_bytes_nonempty m results : Forall2 typed (m_response_params m) results → response_bytes m results ≠ [].
Proof.
  unfold response_bytes, value_bytes. destruct 1 as [|p x ps xs [_ Hx] _]; [done|]. rewrite fmap_cons. cbn [concat].
  by intros [Hn%wire_bytes_nonempty _]%app_eq_nil.
Qed.

(** The end of the stub. *)
Definition client_end_code (m : method) : list statement :=
  [EndLabel; IfFailed; Open; ResetConnection; Close] ++ release_code response_variable (m_response_params m) ++
  [IfStream; Open; DeleteStream; Close; Return; CloseFile].

Definition at_end (m : method) fr : frame :=
  let fr := match fr_result fr with Some FF_SUCCESS => fr | _ => set_reset fr end in
  let fr := set_locals (change_counts (-1) response_variable (m_response_params m) (fr_locals fr)) fr in
  match fr_stream fr with Some _ => set_deleted fr | None => fr end.

Lemma exec_client_end m code fr Q : is_Some (fr_result fr) → fr_deleted fr = false →
  NoDup (response_variable <$> m_response_params m) → positive (fr_locals fr) →
  Q (at_end m fr) → wp (run_code (client_end_code m ++ code) Running fr) Q.
Proof.
  intros [r Hr] Hd Hnd Hpos HQ. unfold client_end_code. rewrite <- !app_assoc.
  rewrite <- app_comm_cons, exec_label. cbn [app].
  set (fr1 := match r with FF_SUCCESS => fr | FF_FAILURE => set_reset fr end).
  eapply (exec_if_block _ _ _ _ (bool_decide (r ≠ FF_SUCCESS))); [cbn [condition]; by rewrite Hr|done..|].
  assert (wp (run_code (release_code response_variable (m_response_params m) ++
    ([IfStream; Open; DeleteStream; Close; Return; CloseFile] ++ code)) Running fr1) Q) as Hrest;
    [|by destruct r].
  apply exec_release_all; [done|by apply positive_counted; destruct r|].
  unfold at_end in HQ. rewrite Hr in HQ. fold fr1 in HQ. cbv zeta in HQ.
  set (fr2 := set_locals _ fr1) in *. cbn [app].
  eapply exec_if_block; [reflexivity|done..|].
  assert (fr_result fr2 = Some r) as Hr2 by by destruct r.
  destruct (fr_stream fr2) as [s|] eqn:Hs.
  - rewrite bool_decide_eq_true_2 by done. cbn [run_statement]. unfold on_stream.
    assert (fr_deleted fr2 = false) as -> by by destruct r. rewrite Hs. cbn [mbind outcome_bind mret M_ret wp].
    erewrite exec_return by exact Hr2. cbn [wp]. destruct fr2; cbn in *; by subst.
  - rewrite bool_decide_eq_false_2 by (intros Hne; by apply Hne). by erewrite exec_return by exact Hr2.
Qed.

Lemma read_octet_wp set fr s Q : live fr s →
  (∀ b s', live (set_stream (Some s') fr) s' → undisturbed s s' →
    (∀ c rest, ReliableStream S → incoming s = c :: rest → b = c ∧ incoming s' = rest) →
    Q (set_result FF_SUCCESS (set (Z_of_byte b) (set_stream (Some s') fr)))) →
  (∀ s', live (set_stream (Some s') fr) s' → (∀ c rest, ReliableStream S → incoming s ≠ c :: rest) →
    Q (set_result FF_FAILURE (set_stream (Some s') fr))) →
  wp (read_octet set fr) Q.
Proof.
  intros Hl Hok Hfail. pose proof Hl as (_ & _ & Hs). unfold read_octet.
  pose proof (ff_stream_read_spec s 1 Hs ltac:(lia)) as Hspec.
  assert (∀ c rest, ReliableStream S → incoming s = c :: rest → wp (ff_stream_read 1 s) (λ '(r, got, s'),
    r = FF_SUCCESS ∧ got = [c] ∧ consumed [c] s s' ∧ incoming s' = rest)) as Hread.
  { intros c rest Hrel Hin. by apply (read_front s [c] rest). }
  eapply (on_stream_wp _ _ _ s (λ rb s', ff_stream_read 1 s = Ret (rb, s'))); [done| |].
  { by destruct (ff_stream_read 1 s) as [[rb s']|f]. }
  intros [r bs] s' Hrun. rewrite Hrun in Hspec, Hread. cbn in Hspec, Hread.
  destruct r.
  - destruct Hspec as [[Hu Hin] Hlen].
    destruct bs as [|b [|b' bs]]; [done| |exfalso; zlen]. apply Hok; [apply (live_next fr s); eauto with mrpc|done|].
    intros c rest Hrel Hc. by destruct (Hread c rest Hrel Hc) as (_ & [= ->] & _ & ?).
  - destruct Hspec as [Hu _].
    assert (Q (set_result FF_FAILURE (set_stream (Some s') fr))) as HQ; [|by destruct bs as [|? [|??]]].
    apply Hfail; [apply (live_next fr s); eauto with mrpc|]. intros c rest Hrel Hc. by destruct (Hread c rest Hrel Hc) as (? & _).
Qed.

(** The stream begins with a response. *)
Definition answered m xs s rest : Prop :=
  ReliableStream S ∧ Forall2 typed (m_response_params m) xs ∧ incoming s = response_bytes m xs ++ rest.

Definition received m fr xs s' fr' : Prop :=
  live fr' s' ∧ fr_reset fr' = fr_reset fr ∧ fr_result fr' = Some FF_SUCCESS ∧
  fr_outs fr' = store_all (p_name <$> m_response_params m) xs (fr_outs fr) ∧
  fr_locals fr' = change_counts 1 response_variable (m_response_params m)
    (bind_all (response_variable <$> m_response_params m) xs (fr_locals fr)).

Definition not_received m fr fr' : Prop := ∃ s' ps xs,
  live fr' s' ∧ fr_reset fr' = fr_reset fr ∧ fr_result fr' = Some FF_FAILURE ∧ fr_outs fr' = fr_outs fr ∧
  ps `prefix_of` m_response_params m ∧ Forall2 typed ps xs ∧
  fr_locals fr' = bind_all (response_variable <$> ps) xs (fr_locals fr).

Lemma exec_client_empty_response m code fr s Q : m_response_params m = [] → live fr s →
  (∀ xs s' fr', Forall2 typed (m_response_params m) xs → received m fr xs s' fr' → undisturbed s s' →
    (∀ ys rest, answered m ys s rest → ys = xs ∧ incoming s' = rest) → wp (run_code code Running fr') Q) →
  (∀ fr', not_received m fr fr' → (∀ ys rest, ¬ answered m ys s rest) → wp (run_code code Jumping fr') Q) →
  wp (run_code (client_response_code m ++ code) Running fr) Q.
Proof.
  intros Hm Hl Hok Hfail. unfold client_response_code, received, not_received, answered, response_bytes in *.
  rewrite Hm in *. rewrite <- !app_assoc. cbn [app]. rewrite exec_open.
  apply exec_checked; [done|]. cbn [run_statement]. apply (read_octet_wp _ _ s); [done|..].
  - intros b s1 Hl1 Hout1 Hin1. cbn [fr_result set_result app].
    rewrite (exec_if_fails _ _ _ (bool_decide (Z_of_byte b ≠ 0))) by done. case_bool_decide as Hb.
    + cbn [exec]. apply Hfail; [exists s1, [], []; by split_and!|]. intros ys rest (Hrel & _ & Hin).
      destruct (Hin1 x00 rest Hrel Hin) as [-> _]. by apply Hb.
    + rewrite exec_close. apply (Hok [] s1); [constructor|by split_and!|done|].
      intros ys rest (Hrel & Hys & Hin). inversion Hys; subst. by destruct (Hin1 x00 rest Hrel Hin).
  - intros s1 Hl1 Hin1. cbn [fr_result set_result app exec].
    apply Hfail; [exists s1, [], []; by split_and!|]. intros ys rest (Hrel & _ & Hin). by apply (Hin1 x00 rest Hrel).
Qed.

Lemma response_code_nonempty m : m_response_params m ≠ [] → client_response_code m =
  concat ((λ p, checked (Unserialize (p_type p) (response_variable p))) <$> m_response_params m) ++
  concat (assign_code <$> m_response_params m).
Proof. unfold client_response_code. by destruct (m_response_params m). Qed.

Lemma end_not_assigned ps : EndLabel ∉ concat (assign_code <$> ps).
Proof.
  induction ps as [|p ps IH]; [apply not_elem_of_nil|]. rewrite fmap_cons. cbn [concat].
  apply not_elem_of_app. split; [|done]. unfold assign_code. destruct (c_is_param_ptr p);
    rewrite !not_elem_of_cons; split_and!; try done; apply not_elem_of_nil.
Qed.

Lemma exec_client_response m code fr s Q : method_valid m → NoDup (response_variable <$> m_response_params m) →
  live fr s →
  (∀ xs s' fr', Forall2 typed (m_response_params m) xs → received m fr xs s' fr' → undisturbed s s' →
    (∀ ys rest, answered m ys s rest → ys = xs ∧ incoming s' = rest) → wp (run_code code Running fr') Q) →
  (∀ fr', not_received m fr fr' → (∀ ys rest, ¬ answered m ys s rest) → wp (run_code code Jumping fr') Q) →
  wp (run_code (client_response_code m ++ code) Running fr) Q.
Proof.
  intros Hv Hnd Hl Hok Hfail. destruct (decide (m_response_params m = [])) as [Hm|Hm];
    [by eapply exec_client_empty_response|].
  rewrite response_code_nonempty, <- app_assoc by done.
  assert (∀ ys rest, answered m ys s rest ↔ delivered (m_response_params m) ys s rest) as Hans.
  { intros ys rest. unfold answered, delivered, response_bytes. by destruct (m_response_params m). }
  apply (exec_unserialize_all _ _ _ _ s); [done|..].
  - intros xs s' Hxs Hl' Hout Hin.
    set (fr1 := set_locals _ _).
    assert (succeeded (m_response_params m) fr1 = set_result FF_SUCCESS fr1) as -> by by destruct (m_response_params m).
    apply (exec_assign_all _ xs).
    + apply Forall_forall. intros p Hp. apply identifier_without; [by eapply response_name|by vm_compute].
    + eapply Forall2_impl; [by apply (bind_all_params response_variable _ _ (fr_locals fr) Hnd Hxs)|].
      intros p x Hx. by exists 1.
    + apply (Hok xs s'); [done|by split_and!|done|]. intros ys rest Hys%Hans. by apply Hin.
  - intros ps xs s' Hpre Hxs Hl' Hin. rewrite jump_over by apply end_not_assigned.
    apply Hfail; [exists s', ps, xs; by split_and!|]. intros ys rest Hys%Hans. by apply (Hin ys rest).
Qed.

(** A method whose stubs have different names for different variables. *)
Definition well_named (m : method) : Prop :=
  NoDup (p_name <$> m_request_params m) ∧ NoDup (p_name <$> m_response_params m) ∧
  Forall (λ q, response_variable q ∉ (p_name <$> m_request_params m)) (m_response_params m).

Lemma variables_distinct (pre : list byte) ps : NoDup (p_name <$> ps) → NoDup ((λ p, pre ++ p_name p) <$> ps).
Proof.
  intros Hnd. rewrite (list_fmap_compose p_name (app pre)).
  assert (Inj (=) (=) (app pre)) by (intros v w Heq; by apply app_inv_head in Heq).
  by apply (NoDup_fmap_2 (app pre)).
Qed.

Lemma well_named_responses m : well_named m → NoDup (response_variable <$> m_response_params m).
Proof.
  intros (_ & Hnd & _). by apply variables_distinct.
Qed.

(** The parameters of a call. *)
Definition parameters m (args : list (any_value (value := value))) : gmap (list byte) (any_value (value := value) * Z) :=
  bind_all (p_name <$> m_request_params m) args ∅.

(** The outcomes of a call on the stream [c]: the response parameters are set and
    belong to the caller, or none is set and the connection is reset.  A stream
    which does not fail and which the server answers leads to the first one. *)
Definition call_succeeded m k args (c : S) xs fr : Prop :=
  Forall2 typed (m_response_params m) xs ∧ fr_result fr = Some FF_SUCCESS ∧ fr_reset fr = false ∧
  fr_outs fr = store_all (p_name <$> m_response_params m) xs ∅ ∧
  fr_locals fr = change_counts (-1) response_variable (m_response_params m)
    (change_counts 1 response_variable (m_response_params m)
      (bind_all (response_variable <$> m_response_params m) xs (parameters m args))) ∧
  ∃ c', fr_stream fr = Some c' ∧ stream_inv c' ∧ flushed c' ∧ outgoing c' = outgoing c ++ request_bytes k args ∧
    ∀ ys rest, ReliableFlush S → answered m ys c rest → ys = xs ∧ incoming c' = rest.

Definition call_failed m args (c : S) fr : Prop :=
  fr_result fr = Some FF_FAILURE ∧ fr_reset fr = true ∧ fr_outs fr = ∅ ∧ is_Some (fr_stream fr) ∧
  (∃ ps xs, ps `prefix_of` m_response_params m ∧ Forall2 typed ps xs ∧
    fr_locals fr = change_counts (-1) response_variable (m_response_params m)
      (bind_all (response_variable <$> ps) xs (parameters m args))) ∧
  ∀ ys rest, ReliableFlush S → ¬ answered m ys c rest.

Definition call_ended m k args (c : S) fr : Prop :=
  fr_deleted fr = true ∧ ((∃ xs, call_succeeded m k args c xs fr) ∨ call_failed m args c fr).

(** A failure before the end. *)
Lemma client_fails m args c code fr k s ps xs : well_named m →
  live fr s → fr_reset fr = false → fr_result fr = Some FF_FAILURE → fr_outs fr = ∅ →
  ps `prefix_of` m_response_params m → Forall2 typed ps xs →
  fr_locals fr = bind_all (response_variable <$> ps) xs (parameters m args) →
  (∀ ys rest, ReliableFlush S → ¬ answered m ys c rest) →
  wp (run_code (client_end_code m ++ code) Running fr) (call_ended m k args c).
Proof.
  intros Hwn (Hs & Hd & _) Hrs Hr Ho Hpre Hxs HL Hno.
  apply exec_client_end; [by rewrite Hr|done|by apply well_named_responses|..].
  - rewrite HL. do 2 apply positive_bind_all. intros v x n Hv. by rewrite lookup_empty in Hv.
  - unfold at_end. rewrite Hr. cbn [set_reset fr_locals set_locals fr_stream]. rewrite Hs, HL.
    split; [done|]. right. split_and!; try done. by exists ps, xs.
Qed.

Definition client_body (k : Z) (m : method) : list statement :=
  [SetMethodId (decimal k); CreateStream; IfNoStream; Open; SetFailure; GotoEnd; Close] ++
  checked WriteMethodId ++ client_request_code m ++ checked FlushStream ++ client_response_code m ++ client_end_code m.

Lemma client_code_body i k m : client_code i k m = ClientFunction (stub_name i m) :: client_body k m.
Proof. reflexivity. Qed.

Lemma write_wp bs fr s Q : live fr s → writable s →
  (∀ r s', wrote bs s r s' → (ReliableStream S → r = FF_SUCCESS) → Q (set_result r (set_stream (Some s') fr))) →
  wp (on_stream (ff_stream_write bs) set_result fr) Q.
Proof.
  intros Hl Hw HQ. pose proof Hl as (_ & _ & Hs).
  eapply (on_stream_wp _ _ _ s); [done|by apply write_sends|]. intros r s' [??]. by apply HQ.
Qed.

Lemma flush_wp fr s Q : live fr s → writable s → outgoing s ≠ [] →
  (∀ r s', live (set_stream (Some s') fr) s' → incoming s' = incoming s → outgoing s' = outgoing s →
    (r = FF_SUCCESS → flushed s') → (ReliableFlush S → r = FF_SUCCESS) → Q (set_result r (set_stream (Some s') fr))) →
  wp (on_stream ff_stream_flush set_result fr) Q.
Proof.
  intros Hl Hw Hne HQ. pose proof Hl as (_ & Hd & Hs).
  eapply (on_stream_wp _ _ _ s (λ r s', (stream_inv s' ∧ incoming s' = incoming s ∧ outgoing s' = outgoing s ∧
    (r = FF_SUCCESS → flushed s')) ∧ (ReliableFlush S → r = FF_SUCCESS))); [done| |].
  - pose proof (ff_stream_flush_spec s Hs Hw Hne) as Hspec. destruct (ff_stream_flush s) as [[r s']|f] eqn:E; [|done].
    split; [done|]. intros Hrel. pose proof (reliable_flush s Hs Hw Hne) as Hok. by rewrite E in Hok.
  - intros r s' [(Hi & Hin & Hout & Hf) Hr]. by apply HQ.
Qed.

Lemma end_not_checked_one st : st ≠ EndLabel → EndLabel ∉ checked st.
Proof. intros Hst. unfold checked. rewrite !not_elem_of_cons. split_and!; try done. apply not_elem_of_nil. Qed.

Lemma end_not_in_response m : EndLabel ∉ client_response_code m.
Proof.
  destruct (decide (m_response_params m = [])) as [Hm|Hm].
  - unfold client_response_code. rewrite Hm. unfold checked. cbn [app].
    rewrite !not_elem_of_cons. split_and!; try done. apply not_elem_of_nil.
  - rewrite response_code_nonempty by done. apply not_elem_of_app. split; [by apply end_not_checked|apply end_not_assigned].
Qed.

Lemma jump_end m code fr :
  run_code (client_end_code m ++ code) Jumping fr = run_code (client_end_code m ++ code) Running fr.
Proof. done. Qed.

(** From the flush on. *)
Lemma exec_client_answer m k args c code fr s : method_valid m → well_named m →
  live fr s → writable s → fr_reset fr = false → fr_outs fr = ∅ → fr_locals fr = parameters m args →
  incoming s = incoming c → outgoing s = outgoing c ++ request_bytes k args →
  wp (run_code (checked FlushStream ++ client_response_code m ++ client_end_code m ++ code) Running fr)
    (call_ended m k args c).
Proof.
  intros Hm Hwn Hl Hw Hrs Ho HL Hin Hout. apply exec_checked; [done|]. cbn [run_statement].
  apply (flush_wp fr s); [done|done|rewrite Hout; by destruct (outgoing c)|].
  intros r s1 Hl1 Hin1 Hout1 Hfl Hrel. cbn [fr_result set_result].
  assert (∀ ys rest, answered m ys s1 rest ↔ answered m ys c rest) as Hans.
  { intros ys rest. unfold answered. by rewrite Hin1, Hin. }
  destruct r.
  - apply (exec_client_response m _ _ s1); [done|by apply well_named_responses|done|..].
    + intros xs s' fr' Hxs (Hl' & Hrs' & Hr' & Ho' & HL') (_ & (_ & Hfl') & Hout') Hys. cbn [fr_outs fr_locals fr_reset set_result set_stream] in *.
      rewrite Ho in Ho'. rewrite HL in HL'. rewrite Hrs in Hrs'.
      apply exec_client_end; [by rewrite Hr'|apply Hl'|by apply well_named_responses|..].
      * rewrite HL'. apply positive_incs. do 2 apply positive_bind_all. intros v x n Hv. by rewrite lookup_empty in Hv.
      * pose proof Hl' as (Hs' & _). unfold at_end. rewrite Hr'. cbn [fr_locals set_locals fr_stream]. rewrite Hs', HL'.
        split; [done|]. left. exists xs. split_and!; try done. exists s'. split_and!; [done|apply Hl'|auto|congruence|].
        intros ys rest _ Hys'%Hans. by apply Hys.
    + intros fr' (s' & ps & xs & Hl' & Hrs' & Hr' & Ho' & Hpre & Hxs & HL') Hno.
      cbn [fr_outs fr_locals fr_reset set_result set_stream] in *. rewrite jump_end.
      apply (client_fails m args c _ _ k s' ps xs); try done; [congruence..|].
      intros ys rest _ Hys%Hans. by apply (Hno ys rest).
  - rewrite jump_over by apply end_not_in_response. rewrite jump_end.
    apply (client_fails m args c _ _ k s1 [] []); try done; [apply prefix_nil|].
    intros ys rest Hr _. by specialize (Hrel Hr).
Qed.

Lemma byte_of_Z_u8 z : byte_of_Z (u8 z) = byte_of_Z z.
Proof. unfold byte_of_Z, u8. by rewrite Z.mod_mod. Qed.

Lemma exec_client_body m k args c code : method_valid m → well_named m →
  Forall2 typed (m_request_params m) args → created = Some c → stream_inv c → writable c →
  wp (run_code (client_body k m ++ code) Running (new_frame None (parameters m args))) (call_ended m k args c).
Proof.
  intros Hm Hwn Hargs Hc Hi Hw. unfold client_body. rewrite <- !app_assoc. cbn [app].
  apply exec_statement; [done|]. cbn [run_statement wp]. apply exec_statement; [done|]. cbn [run_statement wp].
  rewrite number_decimal.
  set (fr0 := set_stream created _).
  assert (live fr0 c) as Hl0 by by split_and!.
  rewrite (exec_if_fails IfNoStream _ fr0 false); [|cbn [condition]; by rewrite (proj1 Hl0)|done..].
  apply exec_checked; [done|]. cbn [run_statement].
  apply (write_wp _ fr0 c); [done..|]. intros r s1 (Hi1 & Hw1 & Hin1 & Hout1) Hrel1. cbn [fr_result set_result].
  change (fr_method_id fr0) with (u8 k) in *. rewrite byte_of_Z_u8 in *.
  destruct r.
  - unfold client_request_code. apply (exec_serialize_all p_name _ args _ _ s1); [by split_and!|done|done| | |].
    + eapply Forall2_impl; [apply (bind_all_params p_name _ _ ∅); [by destruct Hwn|done]|].
      intros p x Hx. by exists 1.
    + intros s2 Hi2 Hw2 Hin2 Hout2. set (fr2 := succeeded _ _).
      assert (fr2 = set_result FF_SUCCESS (set_stream (Some s2) fr0)) as -> by (unfold fr2; by destruct (m_request_params m)).
      apply (exec_client_answer m k args c _ _ s2); try done; [congruence|].
      rewrite Hout2, Hout1. unfold request_bytes. by rewrite <- app_assoc.
    + intros s2 Hno Hi2 Hw2.
      rewrite jump_over by by apply end_not_checked_one.
      rewrite jump_over by apply end_not_in_response. rewrite jump_end.
      apply (client_fails m args c _ _ k s2 [] []); try done; [apply prefix_nil|].
      intros ys rest _ (Hr & _). by apply Hno.
  - unfold client_request_code. rewrite jump_over by by apply end_not_checked.
    rewrite jump_over by by apply end_not_checked_one.
    rewrite jump_over by apply end_not_in_response. rewrite jump_end.
    apply (client_fails m args c _ _ k s1 [] []); try done; [apply prefix_nil|].
    intros ys rest _ (Hr & _). by specialize (Hrel1 Hr).
Qed.

(** ** The handler of a method *)

Lemma change_counts_other change var ps L v : v ∉ (var <$> ps) → change_counts change var ps L !! v = L !! v.
Proof.
  revert L. induction ps as [|p ps IH]; intros L; [done|]. rewrite fmap_cons. intros [Hv Hps]%not_elem_of_cons.
  cbn [change_counts]. rewrite IH by done. destruct (c_is_param_ptr p); [|done]. by apply change_count_ne.
Qed.

Lemma prefixes_differ n (a b v w : list byte) : (n <= length a)%nat → (n <= length b)%nat →
  take n a ≠ take n b → a ++ v ≠ b ++ w.
Proof. intros Ha Hb Hne Heq. apply Hne. by rewrite <- (take_app_le a v), Heq, take_app_le. Qed.

Lemma request_not_response p q : request_variable p ≠ response_variable q.
Proof. apply (prefixes_differ 3); vm_compute; [lia|lia|discriminate]. Qed.

Lemma request_variables_other (ps : list param) q : response_variable q ∉ (request_variable <$> ps).
Proof. intros (p & Heq & _)%list_elem_of_fmap. by apply (request_not_response p q). Qed.

Definition handler_end_code (m : method) : list statement :=
  [EndLabel] ++ release_code request_variable (m_request_params m) ++
  release_code response_variable (m_response_params m) ++ [Return; CloseFile].

Definition released m L :=
  change_counts (-1) response_variable (m_response_params m)
    (change_counts (-1) request_variable (m_request_params m) L).

Lemma exec_handler_end m code fr Q : is_Some (fr_result fr) → well_named m → positive (fr_locals fr) →
  Q (set_locals (released m (fr_locals fr)) fr) → wp (run_code (handler_end_code m ++ code) Running fr) Q.
Proof.
  intros [r Hr] (Hreq & Hresp & _) Hpos HQ. unfold handler_end_code. rewrite <- !app_assoc.
  rewrite <- app_comm_cons, exec_label, app_nil_l.
  apply exec_release_all; [by apply variables_distinct|by apply positive_counted|].
  apply exec_release_all; [by apply variables_distinct| |].
  - intros q x n _ _. cbn [fr_locals set_locals]. rewrite change_counts_other by apply request_variables_other. apply Hpos.
  - rewrite <- app_comm_cons. erewrite exec_return; [exact HQ|exact Hr].
Qed.

(** The stream begins with the parameters of a request. *)
Definition requested m xs s rest : Prop := delivered (m_request_params m) xs s rest.

Definition handled i m s fr : Prop :=
  fr_deleted fr = false ∧ ∃ s', fr_stream fr = Some s' ∧ stream_inv s' ∧
  ((∃ xs ys, writable s' ∧ Forall2 typed (m_request_params m) xs ∧ ys = service (stub_name i m) xs ∧
      fr_result fr = Some FF_SUCCESS ∧ outgoing s' = outgoing s ++ response_bytes m ys ∧
      fr_locals fr = released m (bind_all (response_variable <$> m_response_params m) ys
        (bind_all (request_variable <$> m_request_params m) xs ∅)) ∧
      ∀ zs rest, requested m zs s rest → xs = zs ∧ incoming s' = rest) ∨
   (∃ ps xs qs ys, ps `prefix_of` m_request_params m ∧ Forall2 typed ps xs ∧
      qs `prefix_of` m_response_params m ∧ Forall2 typed qs ys ∧ fr_result fr = Some FF_FAILURE ∧
      fr_locals fr = released m (bind_all (response_variable <$> qs) ys (bind_all (request_variable <$> ps) xs ∅)) ∧
      ∀ zs rest, ¬ requested m zs s rest)).

Definition handler_body i m : list statement :=
  concat ((λ p, checked (Unserialize (p_type p) (request_variable p))) <$> m_request_params m) ++
  [CallService (stub_name i m ++ c_literal "(service" ++ service_arguments m)] ++
  handler_response_code m ++ handler_end_code m.

Lemma handler_code_body i m : handler_code i m = HandlerFunction (stub_name i m) :: handler_body i m.
Proof. reflexivity. Qed.

Definition address (v : list byte) : list byte := "&"%byte :: v.

Lemma service_arguments_list m : service_arguments m =
  comma_list ((request_variable <$> m_request_params m) ++ (address <$> (response_variable <$> m_response_params m))).
Proof.
  unfold service_arguments, comma_list. rewrite fmap_app, concat_app, <- !list_fmap_compose.
  apply (f_equal2 app); apply (f_equal (@concat byte)); [reflexivity|]. apply list_fmap_ext. intros k p _.
  unfold compose, address. assert (c_literal ", &" = c_literal ", " ++ ["&"%byte]) as -> by (vm_compute; reflexivity).
  by rewrite <- app_assoc.
Qed.

Lemma omap_fmap_some {A B C} (f : B → option C) (g : A → B) (h : A → C) (l : list A) :
  (∀ a, f (g a) = Some (h a)) → omap f (g <$> l) = h <$> l.
Proof. intros Hf. induction l as [|a l IH]; [done|]. cbn. by rewrite Hf, IH. Qed.

Lemma omap_fmap_none {A B C} (f : B → option C) (g : A → B) (l : list A) : (∀ a, f (g a) = None) → omap f (g <$> l) = [].
Proof. intros Hf. induction l as [|a l IH]; [done|]. cbn. by rewrite Hf, IH. Qed.

Lemma request_is_value p : by_value (request_variable p) = Some (request_variable p) ∧ by_address (request_variable p) = None.
Proof.
  unfold request_variable. assert (c_literal "request_" = "r"%byte :: c_literal "equest_") as -> by (vm_compute; reflexivity).
  by rewrite <- app_comm_cons.
Qed.

Lemma omap_arguments (ps qs : list param) :
  omap by_value ((request_variable <$> ps) ++ (address <$> (response_variable <$> qs))) = request_variable <$> ps ∧
  omap by_address ((request_variable <$> ps) ++ (address <$> (response_variable <$> qs))) = response_variable <$> qs.
Proof.
  rewrite !omap_app, <- (list_fmap_compose response_variable address). split.
  - rewrite (omap_fmap_some by_value request_variable request_variable), (omap_fmap_none by_value (address ∘ response_variable)), app_nil_r;
      [done|done|apply request_is_value].
  - rewrite (omap_fmap_none by_address request_variable), (omap_fmap_some by_address (address ∘ response_variable) response_variable), app_nil_l;
      [done|done|apply request_is_value].
Qed.

Lemma call_service_parts i m : interface_valid i → method_valid m →
  call_function (stub_name i m ++ c_literal "(service" ++ service_arguments m) = stub_name i m ∧
  call_arguments (stub_name i m ++ c_literal "(service" ++ service_arguments m) =
    (request_variable <$> m_request_params m) ++ (address <$> (response_variable <$> m_response_params m)).
Proof.
  intros Hi Hm. rewrite service_arguments_list.
  assert (c_literal "(service" = "("%byte :: c_literal "service") as -> by (vm_compute; reflexivity).
  rewrite <- app_comm_cons. apply call_parts.
  - unfold stub_name. solve_without.
  - solve_without.
  - apply Forall_app. split; apply Forall_forall.
    + intros v (p & -> & Hp)%list_elem_of_fmap. by eapply request_without.
    + intros v (v' & -> & (p & -> & Hp)%list_elem_of_fmap)%list_elem_of_fmap.
      apply not_elem_of_cons. split; [done|]. by eapply response_without.
Qed.

Lemma variables_ok fr vs xs : Forall2 (referenced fr) vs xs → variables fr vs = Ret xs.
Proof.
  induction 1 as [|v x vs xs Hx _ IH]; [done|]. cbn [variables]. rewrite (variable_ok fr v x Hx). cbn [mbind outcome_bind].
  by rewrite IH.
Qed.

Lemma assign_all_ok vs xs L : length vs = length xs → assign_all vs xs L = Ret (bind_all vs xs L).
Proof.
  revert xs L. induction vs as [|v vs IH]; intros [|x xs] L Hlen; try done. cbn [assign_all bind_all].
  apply IH. by injection Hlen.
Qed.

(** The service is called with the values of the request parameters. *)
Lemma run_call_service i m xs fr : interface_valid i → method_valid m →
  Forall2 (λ p x, referenced fr (request_variable p) x) (m_request_params m) xs →
  length (service (stub_name i m) xs) = length (m_response_params m) →
  run (CallService (stub_name i m ++ c_literal "(service" ++ service_arguments m)) fr =
    Ret (set_locals (bind_all (response_variable <$> m_response_params m) (service (stub_name i m) xs) (fr_locals fr)) fr).
Proof.
  intros Hi Hm Hxs Hlen. cbn [run_statement]. unfold call_service.
  destruct (call_service_parts i m Hi Hm) as [-> ->]. destruct (omap_arguments (m_request_params m) (m_response_params m)) as [-> ->].
  rewrite (variables_ok fr _ xs) by by apply Forall2_fmap_l. cbn [mbind outcome_bind].
  by rewrite assign_all_ok by by rewrite length_fmap.
Qed.

Lemma handler_jump_end m code fr :
  run_code (handler_end_code m ++ code) Jumping fr = run_code (handler_end_code m ++ code) Running fr.
Proof. done. Qed.

Lemma end_not_handled m : EndLabel ∉ handler_response_code m.
Proof.
  unfold handler_response_code. destruct (m_response_params m) as [|p ps]; [|by apply end_not_checked].
  unfold checked. cbn [app]. rewrite !not_elem_of_cons. split_and!; try done. apply not_elem_of_nil.
Qed.

(** Sending a response: everything is sent, or the stream has failed. *)
Lemma exec_handler_response m ys code fr s Q : live fr s → writable s → Forall2 typed (m_response_params m) ys →
  Forall2 (λ p x, referenced fr (response_variable p) x) (m_response_params m) ys →
  (∀ s', stream_inv s' → writable s' → incoming s' = incoming s → outgoing s' = outgoing s ++ response_bytes m ys →
    wp (run_code code Running (set_result FF_SUCCESS (set_stream (Some s') fr))) Q) →
  (∀ s', ¬ ReliableStream S → stream_inv s' → writable s' →
    wp (run_code code Jumping (set_result FF_FAILURE (set_stream (Some s') fr))) Q) →
  wp (run_code (handler_response_code m ++ code) Running fr) Q.
Proof.
  intros Hl Hw Ht Hv Hok Hfail. unfold handler_response_code, response_bytes in *.
  destruct (m_response_params m) as [|p ps] eqn:Hps.
  - rewrite <- !app_assoc. cbn [app]. rewrite exec_open. apply exec_checked; [done|]. cbn [run_statement].
    apply (write_wp _ fr s); [done..|]. intros r s' (Hi & Hw' & Hin & Hout) Hrel. cbn [fr_result set_result app].
    destruct r; [rewrite exec_close; by apply Hok|].
    cbn [exec]. apply Hfail; [|done..]. intros Hr. by specialize (Hrel Hr).
  - apply (exec_serialize_all response_variable _ ys _ _ s); done.
Qed.

Lemma exec_handler_body i m s code : interface_valid i → method_valid m → well_named m → stream_inv s → writable s →
  (∀ xs, Forall2 typed (m_request_params m) xs → Forall2 typed (m_response_params m) (service (stub_name i m) xs)) →
  wp (run_code (handler_body i m ++ code) Running (new_frame (Some s) ∅)) (handled i m s).
Proof.
  intros Hi Hm Hwn His Hws Hserv. pose proof Hwn as (Hreq & Hresp & _).
  assert (live (new_frame (Some s) ∅) s) as Hl by by split_and!.
  assert (positive ∅) as Hempty by (intros v x n Hv; by rewrite lookup_empty in Hv).
  unfold handler_body. rewrite <- !app_assoc.
  apply (exec_unserialize_all request_variable _ _ _ s); [done|..].
  - intros xs s1 Hxs Hl1 (_ & (Hw1 & _) & Hout1) Harr. set (fr1 := succeeded _ _).
    set (ys := service (stub_name i m) xs). pose proof (Hserv xs Hxs) as Hys. fold ys in Hys.
    set (L1 := bind_all (request_variable <$> m_request_params m) xs ∅).
    assert (live fr1 s1 ∧ fr_locals fr1 = L1) as [Hl1' HL1] by (unfold fr1; destruct (m_request_params m); by split).
    cbn [app]. apply exec_statement; [done|]. rewrite (run_call_service i m xs); try done.
    2: { eapply Forall2_impl; [apply (bind_all_params request_variable _ _ ∅); [by apply variables_distinct|exact Hxs]|].
         intros p x Hx. exists 1. by rewrite HL1. }
    2: by eapply eq_sym, Forall2_length.
    cbn [wp]. fold ys. rewrite HL1. set (L2 := bind_all _ ys L1).
    apply (exec_handler_response m ys _ _ s1); [by destruct Hl1' as (?&?&?)|auto|done| | |].
    + eapply Forall2_impl; [apply (bind_all_params response_variable _ _ L1); [by apply variables_distinct|exact Hys]|].
      intros p x Hx. by exists 1.
    + intros s2 Hi2 Hw2 Hin2 Hout2. apply exec_handler_end; [by eexists|done|by do 2 apply positive_bind_all|].
      split; [apply Hl1'|]. exists s2. split_and!; try done. left. exists xs, ys. split_and!; try done.
      { cbn. by rewrite Hout2, Hout1. }
      intros zs rest Hz. destruct (Harr zs rest Hz) as [-> <-]. split; [done|]. by rewrite Hin2.
    + intros s2 Hno Hi2 Hw2. rewrite handler_jump_end.
      apply exec_handler_end; [by eexists|done|by do 2 apply positive_bind_all|].
      split; [apply Hl1'|]. exists s2. split_and!; try done. right.
      exists (m_request_params m), xs, (m_response_params m), ys. split_and!; try done.
      intros zs rest (Hr & _). by apply Hno.
  - intros ps xs s1 Hpre Hxs Hl1 Hno. rewrite jump_over by (by rewrite not_elem_of_cons; split; [|apply not_elem_of_nil]).
    rewrite jump_over by apply end_not_handled. rewrite handler_jump_end.
    apply exec_handler_end; [by eexists|done|by apply positive_bind_all|]. destruct Hl1 as (_ & Hd1 & Hi1).
    split; [done|]. exists s1. split_and!; try done. right. exists ps, xs, [], []. split_and!; try done.
    apply prefix_nil.
Qed.
End code.
