(* ===== verification/Rpc.v ===== *)
(** * Remote calls between generated programs

    The whole way of a call: the source of the client and the source of the server
    which the compiler writes for an interface, read back and run against each
    other.  The functions are found by their names in the text, and the handler by
    its place in the table. *)

From stdpp Require Import gmap.
From Stdlib Require Import Strings.String.
From S2P Require Import Prelude FF Wire MrpcInt CharArray WcharArray InterfaceLexer InterfaceParser Stdio GeneratorCommon GeneratedCode ClientGenerator ServerGenerator StubSemantics RemoteCall.

Open Scope Z_scope.
Open Scope list_scope.

(** ** Finding functions *)

(** A statement inside of a function. *)
Definition inside (s : statement) : bool :=
  match s with
  | ClientFunction _ | DistributedFunction _ | HandlerFunction _ | StreamHandlerFunction _ | ServiceFunction _
  | HandlerEntry _ => false
  | _ => true
  end.

Definition handler_names (code : list statement) : list (list byte) :=
  omap (λ s, match s with HandlerEntry w => Some w | _ => None end) code.

Lemma inside_checked {A} (f : A → statement) l : (∀ a, inside (f a)) → Forall inside (concat ((λ a, checked (f a)) <$> l)).
Proof.
  intros Hf. induction l as [|a l IH]; [done|]. rewrite fmap_cons. cbn [concat]. apply Forall_app. split; [|done].
  unfold checked. repeat constructor. apply Hf.
Qed.

Lemma inside_release var ps : Forall inside (release_code var ps).
Proof.
  unfold release_code. induction ps as [|p ps IH]; [done|]. rewrite fmap_cons. cbn [concat]. apply Forall_app.
  split; [|done]. destruct (c_is_param_ptr p); by repeat constructor.
Qed.

Lemma inside_assign ps : Forall inside (concat (assign_code <$> ps)).
Proof.
  induction ps as [|p ps IH]; [done|]. rewrite fmap_cons. cbn [concat]. apply Forall_app. split; [|done].
  unfold assign_code. destruct (c_is_param_ptr p); by repeat constructor.
Qed.

Lemma inside_client_body k m : Forall inside (client_body k m).
Proof.
  unfold client_body, client_request_code, client_end_code, checked, client_response_code.
  repeat (apply Forall_app; split); try by repeat constructor.
  - by apply inside_checked.
  - destruct (m_response_params m) as [|p ps]; [by repeat constructor|].
    apply Forall_app. split; [by apply inside_checked|apply inside_assign].
  - apply inside_release.
Qed.

Lemma inside_handler_body i m : Forall inside (handler_body i m).
Proof.
  unfold handler_body, handler_end_code, handler_response_code.
  repeat (apply Forall_app; split); try by repeat constructor.
  - by apply inside_checked.
  - destruct (m_response_params m) as [|p ps]; [by repeat constructor|]. by apply inside_checked.
  - apply inside_release.
  - apply inside_release.
Qed.

Lemma function_code_skip header code1 code2 : header ∉ code1 →
  function_code header (code1 ++ code2) = function_code header code2.
Proof.
  induction code1 as [|s code1 IH]; [done|]. intros [Hs Hcode]%not_elem_of_cons. cbn [app function_code].
  by rewrite decide_False, IH.
Qed.

Lemma function_code_found header code : function_code header (header :: code) = Some code.
Proof. cbn [function_code]. by rewrite decide_True. Qed.

Lemma inside_not_elem s code : Forall inside code → inside s = false → s ∉ code.
Proof. rewrite Forall_forall. intros Hcode Hs Hin. specialize (Hcode s Hin). by rewrite Hs in Hcode. Qed.

Lemma stub_name_inj i m m' : stub_name i m = stub_name i m' → m_name m = m_name m'.
Proof. unfold stub_name. intros Heq. by do 2 apply app_inv_head in Heq. Qed.

Lemma find_client i m ms (k : nat) j : NoDup (m_name <$> ms) → ms !! k = Some m →
  ∃ rest, function_code (ClientFunction (stub_name i m)) (client_codes i j ms) =
    Some (client_body (j + Z.of_nat k) m ++ rest).
Proof.
  revert k j. induction ms as [|m' ms IH]; intros k j Hnd Hk; [done|]. rewrite fmap_cons in Hnd.
  apply NoDup_cons in Hnd as [Hm' Hnd]. cbn [client_codes]. rewrite client_code_body, <- app_comm_cons.
  destruct k as [|k].
  - injection Hk as ->. exists (client_codes i (j + 1) ms). by rewrite function_code_found, Z.add_0_r.
  - cbn [lookup list_lookup] in Hk. destruct (IH k (j + 1) Hnd Hk) as [rest Hrest]. exists rest.
    rewrite app_comm_cons, function_code_skip; [by replace (j + Z.of_nat (S k)) with (j + 1 + Z.of_nat k) by lia|].
    apply not_elem_of_cons. split; [|by apply (inside_not_elem _ _ (inside_client_body j m'))].
    intros [= Heq%stub_name_inj]. apply Hm'. rewrite <- Heq. apply list_elem_of_fmap. exists m. split; [done|].
    by eapply list_elem_of_lookup_2.
Qed.

Lemma find_handler i m ms tail_code : NoDup (m_name <$> ms) → m ∈ ms →
  ∃ rest, function_code (HandlerFunction (stub_name i m)) (concat (handler_code i <$> ms) ++ tail_code) =
    Some (handler_body i m ++ rest).
Proof.
  induction ms as [|m' ms IH]; intros Hnd Hm; [by apply not_elem_of_nil in Hm|]. rewrite fmap_cons in Hnd.
  apply NoDup_cons in Hnd as [Hm' Hnd]. rewrite fmap_cons. cbn [concat]. rewrite handler_code_body, <- app_assoc, <- app_comm_cons.
  apply elem_of_cons in Hm as [->|Hm].
  - eexists. by rewrite function_code_found.
  - destruct (IH Hnd Hm) as [rest Hrest]. exists rest. rewrite app_comm_cons, function_code_skip; [done|].
    apply not_elem_of_cons. split; [|by apply (inside_not_elem _ _ (inside_handler_body i m'))].
    intros [= Heq%stub_name_inj]. apply Hm'. rewrite <- Heq. apply list_elem_of_fmap. by exists m.
Qed.

Lemma handler_names_app code1 code2 : handler_names (code1 ++ code2) = handler_names code1 ++ handler_names code2.
Proof. unfold handler_names. by rewrite omap_app. Qed.

Lemma handler_names_inside code : Forall inside code → handler_names code = [].
Proof.
  induction 1 as [|s code Hs Hcode IH]; [done|]. unfold handler_names. cbn. by destruct s.
Qed.

Lemma handler_names_handlers i ms : handler_names (concat (handler_code i <$> ms)) = [].
Proof.
  induction ms as [|m ms IH]; [done|]. rewrite fmap_cons. cbn [concat]. rewrite handler_names_app, IH, app_nil_r.
  rewrite handler_code_body. unfold handler_names. cbn. apply handler_names_inside, inside_handler_body.
Qed.

Definition stream_handler_body (n : Z) : list statement :=
  checked ReadMethodId ++ [IfMethodIdAtLeast (decimal n); Open; SetFailure; GotoEnd; Close] ++ checked CallHandler ++
  checked FlushStream ++ [EndLabel; Return; CloseFile].

Lemma handler_names_server i : handler_names (server_code i) = stub_name i <$> i_methods i.
Proof.
  unfold server_code. rewrite !handler_names_app, handler_names_handlers. cbn [app].
  rewrite <- (app_nil_r (stub_name i <$> _)). apply (f_equal2 app); [|reflexivity].
  unfold handler_names. by apply omap_fmap_some.
Qed.

Lemma find_stream_handler i : function_code (StreamHandlerFunction (i_name i)) (server_code i) =
  Some (stream_handler_body (zlength (i_methods i))).
Proof.
  unfold server_code. rewrite function_code_skip; [rewrite function_code_skip; [rewrite function_code_skip|]|].
  - unfold stream_handler_code. rewrite <- app_comm_cons. apply function_code_found.
  - rewrite not_elem_of_cons. split; [done|apply not_elem_of_nil].
  - by intros (m & ? & _)%list_elem_of_fmap.
  - induction (i_methods i) as [|m ms IH]; [apply not_elem_of_nil|]. rewrite fmap_cons. cbn [concat].
    apply not_elem_of_app. split; [|done]. rewrite handler_code_body. apply not_elem_of_cons. split; [done|].
    by apply (inside_not_elem _ _ (inside_handler_body i m)).
Qed.

(** ** Running the files of an interface *)

Section programs.
Context {value : param_type → Type} `{Hwire : ∀ t, Wire (value t)}.
Context {S : Type} `{FFStream S, FFFlush S}.

#[local] Abbreviation values := (list (any_value (value := value))).
#[local] Abbreviation state := (frame (value := value) (S := S)).

(** [client_<interface>_<method>(client, args...)], where [created] is the request
    stream which the client creates, or a null pointer. *)
Definition run_stub (text : list byte) (i : interface) (m : method) (args : values) (created : option S) : outcome state :=
  match function_code (ClientFunction (stub_name i m)) (code_of text) with
  | Some body => exec created (λ _ _, []) (λ _ _, Fault OutOfBounds) body Running (new_frame None (parameters m args))
  | None => Fault OutOfBounds
  end.

(** [server_method_handlers_<interface>[id](stream, service)]; the variables of the
    handler, as it leaves them, are kept in the frame. *)
Definition call_table (code : list statement) (service : list byte → values → values) (id : Z) (fr : state) : outcome state :=
  match name ← handler_names code !! Z.to_nat id; function_code (HandlerFunction name) code with
  | Some body =>
      fr' ← exec None service (λ _ _, Fault OutOfBounds) body Running (new_frame (fr_stream fr) ∅);
      Ret (Frame (fr_stream fr') (fr_deleted fr) (fr_reset fr) (fr_locals fr') (fr_outs fr) (fr_result fr')
        (fr_method_id fr) (fr_empty_byte fr))
  | None => Fault OutOfBounds
  end.

(** [server_stream_handler_<interface>(stream, service)] *)
Definition run_server (text : list byte) (i : interface) (service : list byte → values → values) (s : S) : outcome state :=
  match function_code (StreamHandlerFunction (i_name i)) (code_of text) with
  | Some body =>
      exec None service (call_table (code_of text) service) body Running (new_frame (Some s) ∅)
  | None => Fault OutOfBounds
  end.
End programs.

(** A C function whose parameters have different names, one for each method. *)
Definition interface_named (i : interface) : Prop :=
  NoDup (m_name <$> i_methods i) ∧ Forall well_named (i_methods i).

#[export] Instance well_named_dec m : Decision (well_named m).
Proof. unfold well_named. apply _. Defined.
#[export] Instance interface_named_dec i : Decision (interface_named i).
Proof. unfold interface_named. apply _. Defined.

(** ** Counts at the end *)

Definition is_pointer (t : param_type) : bool := c_is_param_ptr (Param t 0 []).

Lemma is_pointer_param p : is_pointer (p_type p) = c_is_param_ptr p.
Proof. done. Qed.

Section counts.
Context {value : param_type → Type} `{Hwire : ∀ t, Wire (value t)}.
Implicit Types (L : gmap (list byte) (any_value (value := value) * Z)) (var : param → list byte).

Lemma change_counts_in change var ps L p : NoDup (var <$> ps) → p ∈ ps →
  change_counts change var ps L !! var p = (λ xn, (xn.1, xn.2 + if c_is_param_ptr p then change else 0)) <$> L !! var p.
Proof.
  revert L. induction ps as [|q ps IH]; intros L Hnd Hp; [by apply not_elem_of_nil in Hp|].
  rewrite fmap_cons in Hnd. apply NoDup_cons in Hnd as [Hq Hnd]. cbn [change_counts].
  apply elem_of_cons in Hp as [->|Hp].
  - rewrite change_counts_other by done. destruct (c_is_param_ptr q); [apply change_count_lookup|].
    destruct (L !! var q) as [[x n]|]; [|done]. cbn. by rewrite Z.add_0_r.
  - rewrite IH by done. destruct (c_is_param_ptr q); [|done]. rewrite change_count_ne; [done|].
    intros Heq. apply Hq. rewrite Heq. apply list_elem_of_fmap. by exists p.
Qed.

(** The variables of the parameters [ps], of which those in [qs] have been set. *)
Lemma bind_prefix_lookup var ps qs xs L p x n : NoDup (var <$> ps) → qs `prefix_of` ps →
  Forall2 typed qs xs → p ∈ ps → L !! var p = None → bind_all (var <$> qs) xs L !! var p = Some (x, n) →
  projT1 x = p_type p ∧ n = 1 ∧ p ∈ qs.
Proof.
  intros Hnd [qs' ->] Hxs Hp HL Hx. rewrite fmap_app in Hnd. apply NoDup_app in Hnd as (Hnd & Hne & Hnd').
  destruct (decide (var p ∈ var <$> qs)) as [Hv|Hv]; [|by rewrite bind_all_other, HL in Hx].
  assert (p ∈ qs) as Hq.
  { apply elem_of_app in Hp as [Hp|Hp]; [done|]. destruct (Hne (var p) Hv). apply list_elem_of_fmap. by exists p. }
  pose proof (bind_all_params var qs xs L Hnd Hxs) as Hb.
  apply list_elem_of_lookup in Hq as [k Hk]. destruct (Forall2_lookup_l _ _ _ _ _ Hb Hk) as (y & Hy & Heq).
  destruct (Forall2_lookup_l _ _ _ _ _ Hxs Hk) as (y' & Hy' & Ht & _).
  pose proof (eq_trans (eq_sym Hx) Heq) as Hxy. injection Hxy as -> ->. rewrite Hy in Hy'. injection Hy' as ->.
  split_and!; [done..|]. by eapply list_elem_of_lookup_2.
Qed.

(** No object of a function is left with a reference. *)
Definition balanced L : Prop := ∀ v x n, L !! v = Some (x, n) → is_pointer (projT1 x) → n = 0.

Lemma released_balanced m ps xs qs ys : well_named m → ps `prefix_of` m_request_params m → Forall2 typed ps xs →
  qs `prefix_of` m_response_params m → Forall2 typed qs ys →
  balanced (released m (bind_all (response_variable <$> qs) ys (bind_all (request_variable <$> ps) xs ∅))).
Proof.
  intros (Hreq & Hresp & _) Hps Hxs Hqs Hys v x n. unfold released.
  apply (variables_distinct (c_literal "request_")) in Hreq. apply (variables_distinct (c_literal "response_")) in Hresp.
  set (L1 := bind_all (request_variable <$> ps) xs ∅).
  assert (∀ q, L1 !! response_variable q = None) as HL1.
  { intros q. unfold L1. by rewrite bind_all_other by apply request_variables_other. }
  destruct (decide (v ∈ response_variable <$> m_response_params m)) as [(q & -> & Hq)%list_elem_of_fmap|Hv].
  - rewrite (change_counts_in _ response_variable), change_counts_other by (done || apply request_variables_other).
    destruct (bind_all _ ys L1 !! response_variable q) as [[y k]|] eqn:Hy; [|done]. cbn. intros [= <- <-] Hptr.
    destruct (bind_prefix_lookup response_variable (m_response_params m) qs ys L1 q y k) as (Ht & -> & _); try done.
    rewrite Ht, is_pointer_param in Hptr. by destruct (c_is_param_ptr q).
  - assert (∀ p, p ∈ m_request_params m → request_variable p ∉ response_variable <$> qs) as Hne.
    { intros p _ (q & Heq & _)%list_elem_of_fmap. by apply (request_not_response p q). }
    rewrite change_counts_other by done.
    destruct (decide (v ∈ request_variable <$> m_request_params m)) as [(p & -> & Hp)%list_elem_of_fmap|Hv'].
    + rewrite (change_counts_in _ request_variable), bind_all_other by auto.
      destruct (L1 !! request_variable p) as [[y k]|] eqn:Hy; [|done]. cbn. intros [= <- <-] Hptr.
      destruct (bind_prefix_lookup request_variable (m_request_params m) ps xs ∅ p y k) as (Ht & -> & _); try done.
      rewrite Ht, is_pointer_param in Hptr. by destruct (c_is_param_ptr p).
    + rewrite change_counts_other by done. unfold L1. destruct Hps as [ps' Hps], Hqs as [qs' Hqs].
      rewrite Hps, fmap_app in Hv'. rewrite Hqs, fmap_app in Hv. apply not_elem_of_app in Hv as [Hv _], Hv' as [Hv' _].
      by rewrite !bind_all_other, lookup_empty by done.
Qed.
End counts.

(** ** The client *)

Section rpc.
Context {value : param_type → Type} `{Hwire : ∀ t, Wire (value t)} `{Hlaws : ∀ t, WireSpec (value t)}.
Context {S : Type} `{FFFlushSpec S}.
Implicit Types (i : interface) (m : method) (args : list (any_value (value := value))) (s c : S).

Lemma run_stub_ended i m (k : nat) args c : interface_valid i → interface_named i → zlength (i_methods i) < 2 ^ 31 →
  i_methods i !! k = Some m → Forall2 typed (m_request_params m) args → stream_inv c → writable c →
  wp (run_stub (generated (dump_client_source i)) i m args (Some c)) (call_ended m (Z.of_nat k) args c).
Proof.
  intros Hi (Hnd & Hwn) Hlen Hk Hargs Hs Hw. unfold run_stub.
  rewrite (emits_code _ _ _ (emits_client_source i Hi Hlen)).
  destruct (find_client i m (i_methods i) k 0 Hnd Hk) as [rest ->]. rewrite Z.add_0_l.
  destruct Hi as (_ & Hms & _). rewrite Forall_lookup in Hms, Hwn.
  apply exec_client_body; try done; [by apply (Hms k)|by apply (Hwn k)].
Qed.

(** Without a request stream the call fails at once. *)
Lemma run_stub_null i m (k : nat) args : interface_valid i → interface_named i → zlength (i_methods i) < 2 ^ 31 →
  i_methods i !! k = Some m →
  wp (run_stub (S := S) (generated (dump_client_source i)) i m args None) (λ fr,
    fr_result fr = Some FF_FAILURE ∧ fr_reset fr = true ∧ fr_outs fr = ∅ ∧ fr_deleted fr = false ∧
    fr_locals fr = change_counts (-1) response_variable (m_response_params m) (parameters m args)).
Proof.
  intros Hi (Hnd & Hwn) Hlen Hk. unfold run_stub. rewrite (emits_code _ _ _ (emits_client_source i Hi Hlen)).
  destruct (find_client i m (i_methods i) k 0 Hnd Hk) as [rest ->].
  unfold client_body. rewrite <- !app_assoc. cbn [app].
  apply exec_statement; [done|]. cbn [run_statement wp]. apply exec_statement; [done|]. cbn [run_statement wp].
  rewrite (exec_if_fails _ _ _ IfNoStream _ _ true) by done.
  rewrite jump_over by by apply end_not_checked_one.
  unfold client_request_code. rewrite jump_over by by apply end_not_checked.
  rewrite jump_over by by apply end_not_checked_one.
  rewrite jump_over by apply end_not_in_response. rewrite jump_end.
  rewrite Forall_lookup in Hwn.
  apply exec_client_end; [by eexists|done|by apply well_named_responses, (Hwn k)| |done].
  apply positive_bind_all. intros v x n Hv. by rewrite lookup_empty in Hv.
Qed.

(** ** The server *)

Context (service : list byte → list (any_value (value := value)) → list (any_value (value := value))).

(** The service sets the response parameters of every method. *)
Definition service_typed i : Prop := ∀ m xs, m ∈ i_methods i →
  Forall2 typed (m_request_params m) xs → Forall2 typed (m_response_params m) (service (stub_name i m) xs).

(** The stream begins with the request of method [k]. *)
Definition request_arrived i m (k : nat) args s rest : Prop :=
  i_methods i !! k = Some m ∧ Z.of_nat k < 256 ∧ ReliableStream S ∧ Forall2 typed (m_request_params m) args ∧
  incoming s = request_bytes (Z.of_nat k) args ++ rest.

Definition served i s (fr : frame (value := value) (S := S)) : Prop :=
  ∃ r s', fr_result fr = Some r ∧ fr_deleted fr = false ∧ fr_stream fr = Some s' ∧ stream_inv s' ∧
    balanced (fr_locals fr) ∧
    (∀ m k args rest, ReliableFlush S → request_arrived i m k args s rest →
      r = FF_SUCCESS ∧ flushed s' ∧ outgoing s' = outgoing s ++ response_bytes m (service (stub_name i m) args) ∧ incoming s' = rest) ∧
    (∀ id rest, ReliableStream S → incoming s = byte_of_Z id :: rest → zlength (i_methods i) <= u8 id →
      r = FF_FAILURE ∧ outgoing s' = outgoing s).

(** The handler of a number in the table. *)
Lemma run_call_table i m (k : nat) s fr : interface_valid i → interface_named i → service_typed i →
  i_methods i !! k = Some m → fr_stream fr = Some s → stream_inv s → writable s →
  wp (call_table (server_code i) service (Z.of_nat k) fr) (λ fr', fr_deleted fr' = fr_deleted fr ∧
    ∃ fh, handled service i m s fh ∧ fr_stream fr' = fr_stream fh ∧ fr_locals fr' = fr_locals fh ∧ fr_result fr' = fr_result fh).
Proof.
  intros Hi (Hnd & Hwn) Hserv Hk Hst Hs Hw. unfold call_table. rewrite handler_names_server, Nat2Z.id, list_lookup_fmap, Hk.
  cbn [fmap option_fmap option_map mbind option_bind].
  assert (m ∈ i_methods i) as Hm by by eapply list_elem_of_lookup_2.
  destruct (find_handler i m (i_methods i) (((λ m, HandlerEntry (stub_name i m)) <$> i_methods i) ++
    [CloseTable] ++ stream_handler_code i (zlength (i_methods i))) Hnd Hm) as [rest Hrest].
  unfold server_code. rewrite Hrest. rewrite wp_bind, Hst.
  pose proof Hi as (_ & Hms & _). rewrite Forall_forall in Hms, Hwn.
  eapply wp_mono; [apply (exec_handler_body None service (λ _ _, Fault OutOfBounds) i m s rest); try done; [by apply Hms|by apply Hwn|]|].
  - intros xs Hxs. by apply Hserv.
  - intros fh Hfh. cbn. split; [done|]. by exists fh.
Qed.

Lemma handled_balanced i m s fr : service_typed i → m ∈ i_methods i → well_named m → handled service i m s fr → balanced (fr_locals fr).
Proof.
  intros Hserv Hm Hwn (_ & s' & _ & _ & [(xs & ys & _ & Hxs & -> & _ & _ & HL & _)|(ps & xs & qs & ys & Hps & Hxs & Hqs & Hys & _ & HL & _)]);
    rewrite HL; by apply released_balanced; auto.
Qed.

(** The stream [s1] is what is left of [s] after a number which has been read. *)
Definition number_read s (id : Z) s1 : Prop := outgoing s1 = outgoing s ∧
  ∀ b rest, ReliableStream S → incoming s = b :: rest → Z_of_byte b = id ∧ incoming s1 = rest.

Lemma number_read_request i m k s s1 m' (k' : nat) args rest : number_read s (Z.of_nat k) s1 → i_methods i !! k = Some m →
  request_arrived i m' k' args s rest → m' = m ∧ requested m args s1 rest.
Proof.
  intros [_ Hread] Hk (Hk' & Hlt & Hrel & Hargs & Hin).
  destruct (Hread _ _ Hrel Hin) as [Hid Hin1]. rewrite Z_of_byte_of_Z in Hid. unfold u8 in Hid.
  rewrite Z.mod_small in Hid by lia. assert (k' = k) as -> by lia. rewrite Hk in Hk'. injection Hk' as ->.
  split; [done|]. by split_and!.
Qed.

Lemma number_read_known i m k s s1 id rest : number_read s (Z.of_nat k) s1 → i_methods i !! k = Some m →
  ReliableStream S → incoming s = byte_of_Z id :: rest → ¬ zlength (i_methods i) <= u8 id.
Proof.
  intros [_ Hread] Hk Hrel Hin. destruct (Hread _ _ Hrel Hin) as [Hid _]. rewrite Z_of_byte_of_Z in Hid.
  apply lookup_lt_Some in Hk. unfold zlength. lia.
Qed.

(** The stream handler once the handler of the method has returned. *)
Lemma handled_served i m k s s1 fr fh : interface_named i → service_typed i → i_methods i !! k = Some m →
  number_read s (Z.of_nat k) s1 → handled service i m s1 fh →
  fr_deleted fr = false → fr_stream fr = fr_stream fh → fr_locals fr = fr_locals fh → fr_result fr = fr_result fh →
  match fr_result fr with
  | Some FF_SUCCESS =>
      wp (exec None service (call_table (server_code i) service)
        (checked FlushStream ++ [EndLabel; Return; CloseFile]) Running fr) (served i s)
  | Some FF_FAILURE => served i s fr
  | None => False
  end.
Proof.
  intros (_ & Hwn) Hserv Hk Hread Hh Hd Hst HL Hr.
  assert (m ∈ i_methods i) as Hm by by eapply list_elem_of_lookup_2. rewrite Forall_forall in Hwn.
  pose proof (handled_balanced i m s1 fh Hserv Hm (Hwn m Hm) Hh) as Hbal. rewrite <- HL in Hbal.
  pose proof Hread as [Hout _]. rewrite Hr.
  destruct Hh as (_ & s2 & Hst2 & Hi2 & [(xs & ys & Hw2 & Hxs & -> & Hr2 & Hout2 & _ & Hreq)|(ps & xs & qs & ys & _ & _ & _ & _ & Hr2 & _ & Hno)]);
    rewrite Hst2 in Hst; rewrite Hr2 in Hr; rewrite Hr2.
  - apply exec_checked; [done|]. cbn [run_statement]. apply (flush_wp fr s2); [by split_and!|done|by rewrite Hout2; intros [_ Hn]%app_eq_nil; apply response_bytes_nonempty in Hn; auto|].
    intros r s3 (_ & _ & Hi3) Hin3 Hout3 Hfl3 Hrel. cbn [fr_result set_result].
    assert (served i s (set_result r (set_stream (Some s3) fr))) as Hserved; [|by destruct r].
    exists r, s3. split_and!; try done.
    + intros m' k' args rest Hfl Harr. destruct (number_read_request i m k s s1 m' k' args rest Hread Hk Harr) as [-> Hargs].
      destruct (Hreq args rest Hargs) as [-> Hin2]. specialize (Hrel Hfl). by rewrite Hout3, Hout2, Hout, Hin3; auto.
    + intros id rest Hrl Hin Hle. by destruct (number_read_known i m k s s1 id rest Hread Hk Hrl Hin).
  - exists FF_FAILURE, s2. split_and!; try done.
    + intros m' k' args rest Hfl Harr. destruct (number_read_request i m k s s1 m' k' args rest Hread Hk Harr) as [-> Hargs].
      by destruct (Hno args rest).
    + intros id rest Hrl Hin Hle. by destruct (number_read_known i m k s s1 id rest Hread Hk Hrl Hin).
Qed.

Lemma run_server_served i s : interface_valid i → interface_named i → zlength (i_methods i) < 2 ^ 31 → service_typed i →
  stream_inv s → writable s →
  wp (run_server (generated (dump_server_stream_handler_source i)) i service s) (served i s).
Proof.
  intros Hi Hn Hlen Hserv Hs Hw. unfold run_server. rewrite (emits_code _ _ _ (emits_server_source i Hi Hlen)).
  rewrite find_stream_handler. unfold stream_handler_body.
  apply exec_checked; [done|]. cbn [run_statement]. apply (read_octet_wp _ _ s); [by split_and!|..].
  - intros b s1 (_ & _ & Hi1) (_ & (Hw1 & _) & Hout1) Hin1. specialize (Hw1 Hw). cbn [fr_result set_result app].
    set (id := Z_of_byte b). pose proof (Z_of_byte_range b) as Hid. fold id in Hid.
    rewrite (exec_if_fails _ _ _ _ _ _ (bool_decide (id >= zlength (i_methods i))));
      [|by cbn [condition]; rewrite number_decimal|done..].
    case_bool_decide as Hge.
    + cbn [exec wp]. exists FF_FAILURE, s1. split_and!; try done.
      intros m k args rest _ (Hk & Hlt & Hrel & _ & Hin). destruct (Hin1 _ _ Hrel Hin) as [-> _].
      unfold id in Hge. rewrite Z_of_byte_of_Z in Hge. unfold u8 in Hge. rewrite Z.mod_small in Hge by lia.
      apply lookup_lt_Some in Hk. unfold zlength in Hge. lia.
    + destruct (lookup_lt_is_Some_2 (i_methods i) (Z.to_nat id)) as [m Hk]; [unfold zlength in Hge; lia|].
      apply exec_checked; [done|]. cbn [run_statement fr_method_id set_result set_method_id].
      rewrite <- (Z2Nat.id id) by lia.
      eapply wp_mono; [by apply (run_call_table i m (Z.to_nat id) s1)|].
      intros fr (Hd & fh & Hh & Hst & HL & Hr).
      pose proof (handled_served i m (Z.to_nat id) s s1 fr fh Hn Hserv Hk) as Hfin. rewrite Z2Nat.id in Hfin by lia.
      specialize (Hfin ltac:(split; [done|]; intros c rest Hrel Hc; by destruct (Hin1 c rest Hrel Hc) as [-> ->])
        Hh Hd Hst HL Hr).
      destruct (fr_result fr) as [[]|] eqn:Hres; [exact Hfin| |done]. cbn [app exec checked]. by rewrite Hres.
  - intros s1 (_ & _ & Hi1) Hno. cbn [fr_result set_result app exec]. cbn [wp].
    exists FF_FAILURE, s1. split_and!; try done.
    + intros m k args rest _ (_ & _ & Hrel & _ & Hin). by destruct (Hno _ _ Hrel Hin).
    + intros id rest Hrel Hin. by destruct (Hno _ _ Hrel Hin).
Qed.
End rpc.

(** ** The variables of a stub *)

Section variables.
Context {value : param_type → Type} `{Hwire : ∀ t, Wire (value t)}.
Implicit Types (args xs : list (any_value (value := value))).

Lemma store_all_other vs xs outs v : v ∉ vs → store_all vs xs outs !! v = outs !! v.
Proof.
  revert xs outs. induction vs as [|w vs IH]; intros [|x xs] outs; try done. intros [Hv Hvs]%not_elem_of_cons.
  cbn [store_all]. by rewrite IH, lookup_insert_ne.
Qed.

Lemma store_all_params ps xs outs : NoDup (p_name <$> ps) → Forall2 typed ps xs →
  Forall2 (λ p x, store_all (p_name <$> ps) xs outs !! p_name p = Some x) ps xs.
Proof.
  intros Hnd Hxs. revert outs Hnd. induction Hxs as [|p x ps xs _ _ IH]; intros outs Hnd; [done|].
  rewrite fmap_cons in Hnd |- *. apply NoDup_cons in Hnd as [Hp Hnd]. cbn [store_all]. constructor; [|by apply IH].
  by rewrite store_all_other, lookup_insert_eq.
Qed.

Lemma response_not_parameter m q args : well_named m → q ∈ m_response_params m → parameters m args !! response_variable q = None.
Proof.
  intros (_ & _ & Hne) Hq. rewrite Forall_forall in Hne. unfold parameters. by rewrite bind_all_other by by apply Hne.
Qed.

(** The object of a response parameter once its stub has ended with success: the
    references are one for the variable, one for the caller, and the one of the
    variable is given back. *)
Lemma owned_by_caller m args xs : well_named m → Forall2 typed (m_response_params m) xs →
  Forall2 (λ q x, change_counts (-1) response_variable (m_response_params m)
    (change_counts 1 response_variable (m_response_params m)
      (bind_all (response_variable <$> m_response_params m) xs (parameters m args))) !! response_variable q = Some (x, 1))
    (m_response_params m) xs.
Proof.
  intros Hwn Hxs. pose proof (well_named_responses m Hwn) as Hnd.
  pose proof (bind_all_params response_variable _ _ (parameters m args) Hnd Hxs) as Hb.
  apply Forall2_lookup. intros j. pose proof (proj1 (Forall2_lookup _ _ _) Hb j) as Hj.
  destruct (m_response_params m !! j) as [q|] eqn:Hq; inversion Hj as [? x Hx|]; constructor.
  apply list_elem_of_lookup_2 in Hq. rewrite !change_counts_in by done. rewrite Hx. cbn.
  by destruct (c_is_param_ptr q).
Qed.

(** The objects of a stub which has failed. *)
Lemma released_by_stub m args ps xs q x n : well_named m → ps `prefix_of` m_response_params m → Forall2 typed ps xs →
  q ∈ m_response_params m →
  change_counts (-1) response_variable (m_response_params m)
    (bind_all (response_variable <$> ps) xs (parameters m args)) !! response_variable q = Some (x, n) →
  c_is_param_ptr q → n = 0.
Proof.
  intros Hwn Hps Hxs Hq Hx Hptr. pose proof (well_named_responses m Hwn) as Hnd.
  rewrite (change_counts_in _ response_variable _ _ q) in Hx by done. destruct (c_is_param_ptr q); [|done].
  destruct (bind_all _ _ _ !! _) as [[y k]|] eqn:Hy; [|done]. injection Hx as <- <-.
  pose proof (bind_prefix_lookup response_variable _ ps xs _ q y k Hnd Hps Hxs Hq (response_not_parameter m q args Hwn Hq) Hy). lia.
Qed.
End variables.

(** ** Values of the types of an interface

    Integers, arrays of characters and of wide characters; a blob lives in a file
    ([Blob]), so there are none among these values. *)

Definition plain_value (t : param_type) : Type :=
  match t with
  | PARAM_UINT32 => mrpc_int TUint32
  | PARAM_INT32 => mrpc_int TInt32
  | PARAM_UINT64 => mrpc_int TUint64
  | PARAM_INT64 => mrpc_int TInt64
  | PARAM_CHAR_ARRAY => list byte
  | PARAM_WCHAR_ARRAY => list Z
  | PARAM_BLOB => Empty_set
  end.

#[export] Instance empty_wire : Wire Empty_set := {
  wire_valid _ := False;
  wire_bytes _ := [];
  wire_serialize _ _ _ := mret FF_FAILURE;
  wire_unserialize _ _ := mret (FF_FAILURE, None)
}.
#[export] Instance empty_wire_spec : WireSpec Empty_set.
Proof. split; [by intros []|by intros ???? []..| |by intros ????? []]. intros ???? s Hs. by split. Qed.

#[export] Instance plain_value_wire t : Wire (plain_value t).
Proof.
  refine match t with
         | PARAM_UINT32 => mrpc_int_wire TUint32
         | PARAM_INT32 => mrpc_int_wire TInt32
         | PARAM_UINT64 => mrpc_int_wire TUint64
         | PARAM_INT64 => mrpc_int_wire TInt64
         | PARAM_CHAR_ARRAY => char_array_wire
         | PARAM_WCHAR_ARRAY => wchar_array_wire
         | PARAM_BLOB => empty_wire
         end.
Defined.
#[export] Instance plain_value_wire_spec t : WireSpec (plain_value t).
Proof.
  destruct t; [exact (mrpc_int_wire_spec TUint32)|exact (mrpc_int_wire_spec TInt32)|exact (mrpc_int_wire_spec TUint64)|
    exact (mrpc_int_wire_spec TInt64)|exact char_array_wire_spec|exact wchar_array_wire_spec|exact empty_wire_spec].
Qed.

#[local] Abbreviation plain := (any_value (value := plain_value)).

Definition some_value (t : param_type) : option plain :=
  match t with
  | PARAM_UINT32 => Some (existT PARAM_UINT32 (MrpcInt 7))
  | PARAM_INT32 => Some (existT PARAM_INT32 (MrpcInt (-7)))
  | PARAM_UINT64 => Some (existT PARAM_UINT64 (MrpcInt 300))
  | PARAM_INT64 => Some (existT PARAM_INT64 (MrpcInt (-300)))
  | PARAM_CHAR_ARRAY => Some (existT PARAM_CHAR_ARRAY (c_literal "alice"))
  | PARAM_WCHAR_ARRAY => Some (existT PARAM_WCHAR_ARRAY [0x3b1; 0x3b2])
  | PARAM_BLOB => None
  end.

(** A value for each parameter, and a service which gives one for each parameter of
    its response. *)
Definition some_values (ps : list param) : list plain := omap (λ p, some_value (p_type p)) ps.

Definition some_service (i : interface) (name : list byte) (_ : list plain) : list plain :=
  match list_find (λ m, stub_name i m = name) (i_methods i) with
  | Some (_, m) => some_values (m_response_params m)
  | None => []
  end.

Definition without_blobs (ps : list param) : Prop := Forall (λ p, p_type p ≠ PARAM_BLOB) ps.

Lemma some_values_typed ps : without_blobs ps → Forall2 typed ps (some_values ps).
Proof.
  unfold some_values. induction 1 as [|p ps Hp _ IH]; [constructor|].
  assert (∃ x, some_value (p_type p) = Some x ∧ typed p x) as (x & Hx & Ht).
  { unfold typed. destruct (p_type p); try done; eexists; (split; [reflexivity|]); (split; [reflexivity|]); cbn;
      unfold wchar_ok; repeat constructor; try lia; by vm_compute. }
  cbn. rewrite Hx. by constructor.
Qed.

Lemma some_service_typed i : interface_named i → Forall (λ m, without_blobs (m_response_params m)) (i_methods i) →
  service_typed (some_service i) i.
Proof.
  intros (Hnd & _) Hb m xs Hm _. unfold some_service.
  destruct (list_find _ (i_methods i)) as [[j m']|] eqn:Hf.
  - apply list_find_Some in Hf as (Hj & Heq & _). apply stub_name_inj in Heq.
    apply list_elem_of_lookup in Hm as [k Hk].
    assert (j = k) as ->.
    { eapply NoDup_lookup; [exact Hnd|rewrite list_lookup_fmap, Hj; done|rewrite list_lookup_fmap, Hk; cbn; by rewrite Heq]. }
    rewrite Hj in Hk. injection Hk as ->. apply some_values_typed. rewrite Forall_lookup in Hb. by apply (Hb k).
  - apply list_find_None in Hf. rewrite Forall_forall in Hf. by destruct (Hf m Hm).
Qed.

(** ** A call and its answer *)

Section calls.
Context {value : param_type → Type} `{Hwire : ∀ t, Wire (value t)} `{Hlaws : ∀ t, WireSpec (value t)}.
Implicit Types (args xs : list (any_value (value := value))).

(** The arguments of a stub keep the references of the caller. *)
Lemma stub_arguments (m : method) args (L : gmap (list byte) (any_value (value := value) * Z)) : well_named m → Forall2 typed (m_request_params m) args →
  (∀ v, v ∉ (response_variable <$> m_response_params m) → L !! v = parameters m args !! v) →
  Forall2 (λ p x, L !! p_name p = Some (x, 1)) (m_request_params m) args.
Proof.
  intros (Hreq & _ & Hne) Hargs HL. pose proof (bind_all_params p_name _ _ ∅ Hreq Hargs) as Hb.
  apply Forall2_lookup. intros j. pose proof (proj1 (Forall2_lookup _ _ _) Hb j) as Hj.
  destruct (m_request_params m !! j) as [p|] eqn:Hp; inversion Hj as [? x Hx|]; constructor.
  rewrite HL; [done|]. intros (q & Heq & Hq)%list_elem_of_fmap. rewrite Forall_forall in Hne.
  apply (Hne q Hq). rewrite <- Heq. apply list_elem_of_fmap. exists p. split; [done|]. by eapply list_elem_of_lookup_2.
Qed.

Lemma release_other (m : method) args change ps xs v : ps `prefix_of` m_response_params m →
  v ∉ (response_variable <$> m_response_params m) →
  change_counts change response_variable (m_response_params m)
    (bind_all (response_variable <$> ps) xs (parameters m args)) !! v = parameters m args !! v.
Proof.
  intros [qs ->] Hv. rewrite change_counts_other by done. rewrite fmap_app, not_elem_of_app in Hv.
  by rewrite bind_all_other by apply Hv.
Qed.

Lemma typed_types ps qs xs : p_type <$> ps = p_type <$> qs → Forall2 typed qs xs → Forall2 typed ps xs.
Proof.
  intros Heq Hxs. revert ps Heq. induction Hxs as [|q x qs xs [Ht Hv] _ IH]; intros [|p ps] Heq; try done.
  injection Heq as Hp Hps. constructor; [|by apply IH]. by split; [rewrite Hp|].
Qed.

Lemma response_bytes_types m m' xs : p_type <$> m_response_params m = p_type <$> m_response_params m' →
  response_bytes m xs = response_bytes m' xs.
Proof. unfold response_bytes. by destruct (m_response_params m), (m_response_params m'). Qed.

Lemma request_bytes_wrap (k : nat) args : request_bytes (Z.of_nat k) args = request_bytes (Z.of_nat (k mod 256)) args.
Proof.
  unfold request_bytes. f_equal. rewrite Nat2Z.inj_mod. symmetry. apply byte_of_Z_u8.
Qed.

(** The generated server, on every stream which begins with the request, succeeds,
    writes and flushes the response and leaves the rest. *)
Definition answers (T : Type) `{FFFlushSpec T} i service (request response : list byte) : Prop :=
  ∀ (s : T) rest, stream_inv s → writable s → incoming s = request ++ rest →
  wp (run_server (generated (dump_server_stream_handler_source i)) i service s) (λ fr,
    fr_result fr = Some FF_SUCCESS ∧
    ∃ s', fr_stream fr = Some s' ∧ stream_inv s' ∧ flushed s' ∧ incoming s' = rest ∧ outgoing s' = outgoing s ++ response).

(** The generated stub of [m], on every stream which begins with the response,
    succeeds, writes and flushes the request, stores [results] through the pointers of
    its caller and leaves the rest. *)
Definition calls (C : Type) `{FFFlushSpec C} i (m : method) args (results : list (any_value (value := value)))
    (request response : list byte) : Prop :=
  ∀ (c : C) rest, stream_inv c → writable c → incoming c = response ++ rest →
  wp (run_stub (generated (dump_client_source i)) i m args (Some c)) (λ fr,
    fr_result fr = Some FF_SUCCESS ∧ fr_reset fr = false ∧
    Forall2 (λ q x, fr_outs fr !! p_name q = Some x) (m_response_params m) results ∧
    ∃ c', fr_stream fr = Some c' ∧ stream_inv c' ∧ flushed c' ∧ incoming c' = rest ∧ outgoing c' = outgoing c ++ request).

(** The server runs the method whose number is the last octet of [k]. *)
Lemma server_answers {T : Type} `{FFFlushSpec T} `{!ReliableStream T} `{!ReliableFlush T} i m (k : nat) service args :
  interface_valid i → interface_named i → zlength (i_methods i) < 2 ^ 31 → service_typed service i →
  i_methods i !! (k mod 256)%nat = Some m → Forall2 typed (m_request_params m) args →
  answers T i service (request_bytes (Z.of_nat k) args) (response_bytes m (service (stub_name i m) args)).
Proof.
  intros Hi Hn Hlen Hserv Hk Hargs s rest Hs Hw Hin. eapply wp_mono; [by apply (run_server_served service i s)|].
  intros fr (r & s' & Hr & _ & Hst & Hi' & _ & Hok & _).
  destruct (Hok m (k mod 256)%nat args rest _) as (-> & Hfl & Hout & Hin').
  { split_and!; try done; [|by rewrite <- request_bytes_wrap]. pose proof (Nat.mod_upper_bound k 256). lia. }
  split; [done|]. by exists s'.
Qed.

Lemma client_calls {C : Type} `{FFFlushSpec C} `{!ReliableStream C} `{!ReliableFlush C} i m (k : nat) args results :
  interface_valid i → interface_named i → zlength (i_methods i) < 2 ^ 31 →
  i_methods i !! k = Some m → Forall2 typed (m_request_params m) args → Forall2 typed (m_response_params m) results →
  calls C i m args results (request_bytes (Z.of_nat k) args) (response_bytes m results).
Proof.
  intros Hi Hn Hlen Hk Hargs Hres c rest Hc Hw Hin. eapply wp_mono; [by apply (run_stub_ended i m k args c)|].
  assert (answered m results c rest) as Hans by by split_and!.
  intros fr (_ & [(xs & Hxs & Hr & Hrs & Ho & _ & c' & Hst & Hi' & Hfl & Hout & Hok)|(_ & _ & _ & _ & _ & Hno)]);
    [|by destruct (Hno results rest _)].
  destruct (Hok results rest _ Hans) as [<- Hin']. split; [done|]. split; [done|]. split; [|by exists c'].
  rewrite Ho. apply store_all_params; [|done]. destruct Hn as [_ Hwn]. rewrite Forall_lookup in Hwn.
  by destruct (Hwn k m Hk) as (_ & ? & _).
Qed.
End calls.

(** ** Properties *)





(** ** Witnesses *)

Definition directory_find : method :=
  Method [Param PARAM_UINT32 1 (c_literal "id"); Param PARAM_CHAR_ARRAY 0 (c_literal "name")]
    [Param PARAM_INT64 0 (c_literal "balance"); Param PARAM_WCHAR_ARRAY 0 (c_literal "title")] (c_literal "find").
Definition directory_ping : method := Method [] [] (c_literal "ping").
Definition directory : interface := Interface [directory_ping; directory_find] (c_literal "directory").

Lemma directory_ok : interface_valid directory ∧ interface_named directory ∧
  service_typed (some_service directory) directory.
Proof.
  assert (interface_named directory) as Hn by (apply (bool_decide_unpack _); by vm_compute).
  split; [apply (bool_decide_unpack _); by vm_compute|]. split; [exact Hn|].
  apply some_service_typed; [exact Hn|]. unfold without_blobs. repeat constructor; discriminate.
Qed.

Lemma directory_arguments : Forall2 typed (m_request_params directory_find) (some_values (m_request_params directory_find)).
Proof. apply some_values_typed. unfold without_blobs. repeat constructor; discriminate. Qed.




(** Three hundred methods of the same type. *)
Definition numbered_method (j : nat) : method :=
  Method [Param PARAM_UINT32 0 (c_literal "id")] [Param PARAM_INT32 0 (c_literal "status")]
    (c_literal "m" ++ decimal (Z.of_nat j)).
Definition large_interface : interface := Interface (numbered_method <$> seq 0 300) (c_literal "large").


(** The two programs run: the octets of a call, and what the caller obtains. *)
Example directory_call : ∃ fr fr',
  run_stub (generated (dump_client_source directory)) directory directory_find
    (some_values (m_request_params directory_find)) (Some (MemStream [xd7; x04; x02; xb1; x07; xb2; x07; x09] [])) = Ret fr ∧
  fr_stream fr = Some (MemStream [x09] [x01; x07; x05; x61; x6c; x69; x63; x65]) ∧
  fr_outs fr !! c_literal "title" = Some (existT PARAM_WCHAR_ARRAY [0x3b1; 0x3b2]) ∧
  run_server (generated (dump_server_stream_handler_source directory)) directory (some_service directory)
    (MemStream [x01; x07; x05; x61; x6c; x69; x63; x65; x09] []) = Ret fr' ∧
  fr_stream fr' = Some (MemStream [x09] [xd7; x04; x02; xb1; x07; xb2; x07]).
Proof. do 2 eexists. split_and!; vm_compute; reflexivity. Qed.
