(* ===== verification/PacketChannel.v ===== *)
(** * Request streams as channels of remote calls

    The functions of src/mrpc_packet_stream.c are behind the [ff_stream] which a stub
    and a handler use: here a packet stream is an instance of [FFStream] and of its
    laws, so that what holds of the generated programs on any stream holds of them
    on packet streams.  The octets which a program has written are the payloads of
    the packets it has put on the writer queue, and what arrives are the payloads in
    the reader queue. *)

From stdpp Require Import gmap.
From Stdlib Require Import Strings.String.
From S2P Require Import Prelude FF Wire MrpcInt Packet PacketStream InterfaceLexer InterfaceParser Stdio GeneratorCommon GeneratedCode ClientGenerator ServerGenerator StubSemantics RemoteCall Rpc.

Open Scope Z_scope.
Open Scope list_scope.

(** A packet stream with the request id [id], whose writer queue, which it shares
    with other streams, holds [base] when the program begins.  On a channel which is
    [fed] the first packet of a message arrives before the timeout. *)
Record channel (Q W P : Type) (fed : Prop) (base : list (option mrpc_packet)) (request_id : byte) := Channel {
  ch_stream : mrpc_packet_stream Q W P
}.
Arguments Channel {Q W P} fed base request_id ch_stream : assert.
Arguments ch_stream {Q W P fed base request_id} c : assert.

Section channel.
Context {Q W P : Type} `{PacketPoolSpec P} `{FFBlockingQueueSpec Q mrpc_packet}
  `{FFBlockingQueueSpec W (option mrpc_packet)}.
Context {fed : Prop} {base : list (option mrpc_packet)} {request_id : byte}.
#[local] Abbreviation CH := (channel Q W P fed base request_id).
#[local] Abbreviation to_channel := (Channel fed base request_id).
Implicit Types ch : CH.

Definition on_channel {A} (m : M (mrpc_packet_stream Q W P) A) : M CH A := λ ch,
  match m (ch_stream ch) with
  | Ret (a, st) => Ret (a, to_channel st)
  | Fault f => Fault f
  end.

(** The functions of [request_stream_wrapper_vtable] of the stream processors, on the
    packet stream of a request. *)
#[export] Instance channel_ops : FFStream CH := {
  ff_stream_read n := on_channel (mrpc_packet_stream_read n);
  ff_stream_write bs := on_channel (mrpc_packet_stream_write bs)
}.
#[export] Instance channel_flush : FFFlush CH := on_channel mrpc_packet_stream_flush.

(** The packets which the program has put on the writer queue. *)
Definition ch_packets ch : list mrpc_packet :=
  omap id (drop (length base) (queue_contents (ps_writer_queue (ch_stream ch)))).

Definition ch_outgoing ch : list byte :=
  payloads (ch_packets ch) ++ from_option packet_payload [] (ps_current_write_packet (ch_stream ch)).

Definition has_queued (ps : list mrpc_packet) ch : Prop :=
  queue_contents (ps_writer_queue (ch_stream ch)) = base ++ (Some <$> ps).

#[export] Instance channel_view : StreamView CH := {
  stream_inv ch := ps_inv (ch_stream ch) ∧ ps_request_id (ch_stream ch) = request_id ∧
    (fed → ps_started (ch_stream ch) = true);
  writable ch := ∃ ps sent, has_queued ps ch ∧ ps_writing ps sent (ch_stream ch);
  flushed ch := ∃ ps sent, has_queued ps ch ∧ ps_flushed ps sent (ch_stream ch);
  incoming ch := ps_incoming (ch_stream ch);
  outgoing := ch_outgoing
}.

Lemma queued_packets ps ch : has_queued ps ch → ch_packets ch = ps.
Proof.
  unfold has_queued, ch_packets. intros ->. rewrite drop_app_length. induction ps as [|p ps IH]; [done|].
  rewrite fmap_cons. cbn. by rewrite IH.
Qed.

Lemma writing_outgoing ps sent ch : has_queued ps ch → ps_writing ps sent (ch_stream ch) → ch_outgoing ch = sent.
Proof.
  intros Hq (_ & Hw). unfold ch_outgoing. rewrite (queued_packets ps ch Hq).
  destruct (ps_current_write_packet (ch_stream ch)) as [p|]; cbn.
  - by destruct Hw as (_ & _ & _ & _ & _ & ->).
  - by destruct Hw as [-> ->].
Qed.

Lemma flushed_outgoing ps sent ch : has_queued ps ch → ps_flushed ps sent (ch_stream ch) →
  ps_inv (ch_stream ch) → ch_outgoing ch = sent.
Proof.
  intros Hq ((init & lst & _ & _ & _ & _ & _ & _ & _ & Hbody) & p & Hp & _ & Hsize) Hinv.
  unfold ch_outgoing. rewrite (queued_packets ps ch Hq), Hp, Hbody. cbn.
  pose proof (ps_write_inv _ Hinv) as Hpi. rewrite Hp in Hpi. cbn in Hpi.
  unfold packet_payload. rewrite Hsize. pose proof (packet_pos _ Hpi). replace (0 - pk_curr_pos p) with 0 by lia.
  by rewrite app_nil_r.
Qed.

(** What the operations of the reader leave alone. *)
Lemma same_writer_undisturbed ch st : same_writer (ch_stream ch) st → stream_inv ch → ps_inv st →
  (fed → ps_started st = true) → undisturbed ch (to_channel st).
Proof.
  intros (Hq & Hw & Hid) (_ & Hid' & _) Hinv Hfed. split; [split; [done|split; [cbn; by rewrite Hid|done]]|]. cbn.
  unfold has_queued, ch_outgoing, ch_packets, ps_writing, ps_flushed. cbn. by rewrite Hq, Hw, Hid.
Qed.

(** What the operations of the writer leave alone. *)
Lemma same_reader_inv ch st : same_reader (ch_stream ch) st → stream_inv ch → ps_inv st →
  stream_inv (to_channel st) ∧ incoming (to_channel st) = incoming ch.
Proof.
  intros (Hrq & Hcr & Hid) (_ & Hid' & Hfed) Hinv. cbn. unfold ps_started, ps_incoming, arrived in *.
  rewrite Hrq, Hcr, Hid. done.
Qed.

Lemma channel_read ch n : stream_inv ch → 0 <= n →
  wp (ff_stream_read n ch) (λ '(r, bs, ch'),
    match r with
    | FF_SUCCESS => consumed bs ch ch' ∧ zlength bs = n
    | FF_FAILURE => undisturbed ch ch' ∧ zlength bs <= n ∧ (fed → zlength (incoming ch) < n)
    end).
Proof.
  intros Hch Hn. pose proof Hch as (Hinv & Hid & Hfed). cbn [ff_stream_read channel_ops]. unfold on_channel.
  pose proof (stream_read_spec n (ch_stream ch) Hinv Hn) as Hspec.
  destruct (mrpc_packet_stream_read n (ch_stream ch)) as [[[r bs] st]|f]; [|done]. cbn in Hspec |- *.
  destruct Hspec as (Hinv' & Hw & _ & Hr). destruct r.
  - destruct Hr as (_ & Hl & Hin & Hs). split; [|done]. split; [by apply same_writer_undisturbed|done].
  - destruct Hr as [[Hs ->]|(Hs & Hl & -> & Hs')].
    + split; [|split; [done|intros Hf; specialize (Hfed Hf); congruence]].
      apply same_writer_undisturbed; [done..|]. intros Hf. specialize (Hfed Hf). congruence.
    + split; [by apply same_writer_undisturbed|]. split; [|done]. change (incoming ch) with (ps_incoming (ch_stream ch)). lia.
Qed.

Lemma queued_more ps new ch st : has_queued ps ch → queued new (ch_stream ch) st → has_queued (ps ++ new) (to_channel st).
Proof. unfold has_queued, queued. cbn. intros Hq ->. by rewrite Hq, fmap_app, app_assoc. Qed.

Lemma channel_write ch bs : stream_inv ch → writable ch →
  wp (ff_stream_write bs ch) (λ '(r, ch'), r = FF_SUCCESS ∧ wrote bs ch r ch').
Proof.
  intros Hch (ps & sent & Hq & Hw). cbn [ff_stream_write channel_ops]. unfold on_channel.
  pose proof (stream_write_spec ps sent bs (ch_stream ch) (proj1 Hch) Hw) as Hspec.
  destruct (mrpc_packet_stream_write bs (ch_stream ch)) as [[r st]|f]; [|done]. cbn in Hspec |- *.
  destruct Hspec as (-> & Hinv' & Hsame & _ & _ & new & Hnew & Hw').
  destruct (same_reader_inv ch st Hsame Hch Hinv') as [Hch' Hin].
  pose proof (queued_more ps new ch st Hq Hnew) as Hq'.
  split; [done|]. split; [exact Hch'|]. split; [by exists (ps ++ new), (sent ++ bs)|]. split; [exact Hin|].
  change (ch_outgoing (to_channel st) = ch_outgoing ch ++ bs).
  by rewrite (writing_outgoing _ _ _ Hq' Hw'), (writing_outgoing ps sent ch Hq Hw).
Qed.

Lemma channel_flushes ch : stream_inv ch → writable ch → outgoing ch ≠ [] →
  wp (ff_stream_flush ch) (λ '(r, ch'), r = FF_SUCCESS ∧ stream_inv ch' ∧
    incoming ch' = incoming ch ∧ outgoing ch' = outgoing ch ∧ flushed ch').
Proof.
  intros Hch (ps & sent & Hq & Hw) Hne. unfold ff_stream_flush, channel_flush, on_channel.
  assert (is_null (ps_current_write_packet (ch_stream ch)) = false) as Hcur.
  { destruct (ps_current_write_packet (ch_stream ch)) as [p|] eqn:Hp; [done|]. destruct Hne. cbn.
    rewrite (writing_outgoing ps sent ch Hq Hw). destruct Hw as [_ Hw]. rewrite Hp in Hw. by destruct Hw as [_ ->]. }
  pose proof (stream_flush_spec ps sent (ch_stream ch) (proj1 Hch) Hw Hcur) as Hspec.
  destruct (mrpc_packet_stream_flush (ch_stream ch)) as [[r st]|f]; [|done]. cbn in Hspec |- *.
  destruct Hspec as (-> & Hinv' & Hsame & _ & lst & Hnew & Hf).
  destruct (same_reader_inv ch st Hsame Hch Hinv') as [Hch' Hin].
  pose proof (queued_more ps [lst] ch st Hq Hnew) as Hq'.
  split; [done|]. split; [exact Hch'|]. split; [exact Hin|]. split; [|by exists (ps ++ [lst]), sent].
  change (ch_outgoing (to_channel st) = ch_outgoing ch).
  by rewrite (flushed_outgoing _ _ _ Hq' Hf Hinv'), (writing_outgoing ps sent ch Hq Hw).
Qed.

#[export] Instance channel_spec : FFStreamSpec CH.
Proof.
  split.
  - intros ch n Hch Hn. eapply wp_mono; [by apply channel_read|]. intros [[[|] bs] ch']; [done|]. by intros (? & ? & _).
  - intros ch bs Hch Hw. eapply wp_mono; [by apply channel_write|]. by intros [r ch'] [_ ?].
Qed.

#[export] Instance channel_flush_spec : FFFlushSpec CH.
Proof.
  split. intros ch Hch Hw Hne. eapply wp_mono; [by apply channel_flushes|]. by intros [r ch'] (_ & ? & ? & ? & ?).
Qed.

#[export] Instance channel_reliable_flush : ReliableFlush CH.
Proof. split. intros ch Hch Hw Hne. eapply wp_mono; [by apply channel_flushes|]. by intros [r ch'] (? & _). Qed.
End channel.

(** A fed channel does not fail. *)
#[export] Instance channel_reliable {Q W P : Type} `{PacketPoolSpec P} `{FFBlockingQueueSpec Q mrpc_packet}
  `{FFBlockingQueueSpec W (option mrpc_packet)} base request_id : ReliableStream (channel Q W P True base request_id).
Proof.
  split.
  - intros ch n Hch Hn. eapply wp_mono; [apply channel_read; [done|lia]|]. intros [[[|] bs] ch']; [done|].
    intros (_ & _ & Hl). specialize (Hl I). lia.
  - intros ch bs Hch Hw. eapply wp_mono; [by apply channel_write|]. by intros [r ch'] [? _].
Qed.

(** ** Calls over packets *)

Section packets.
Context {Q W P : Type} `{PacketPoolSpec P} `{FFBlockingQueueSpec Q mrpc_packet}
  `{FFBlockingQueueSpec W (option mrpc_packet)}.
Implicit Types st : mrpc_packet_stream Q W P.

(** A packet stream as its channel. *)
Definition channel_of (fed : Prop) st :
    channel Q W P fed (queue_contents (ps_writer_queue st)) (ps_request_id st) := Channel fed _ _ st.

(** A packet stream on which nothing has been written and a message arrives: the
    packets of some writer, as the connection brings them, and perhaps others. *)
Definition receives (body : list byte) st : Prop :=
  ps_inv st ∧ ps_current_write_packet st = None ∧ ps_current_read_packet st = None ∧
  ∃ request_id ps qs extra, message request_id ps body ∧ PacketStream.arrived st = qs ++ extra ∧ Forall2 packet_same qs ps.

(** The packets of a message have been put on the writer queue. *)
Definition sends (body : list byte) st st' : Prop :=
  ∃ ps, queued ps st st' ∧ message (ps_request_id st) ps body.

Lemma receives_channel body st : receives body st →
  stream_inv (channel_of True st) ∧ writable (channel_of True st) ∧
  incoming (channel_of True st) = body ++ [] ∧ outgoing (channel_of True st) = [].
Proof.
  intros (Hinv & Hw & Hr & id & ps & qs & extra & Hmsg & Harr & Hsame).
  destruct (message_readable id ps body qs extra Hmsg Hsame) as (q & rest & Hqs & Hfirst & Hbody).
  assert (has_queued [] (channel_of True st)) as Hq by (unfold has_queued; by rewrite app_nil_r).
  assert (ps_writing [] [] st) as Hwr by (unfold ps_writing; by rewrite Hw).
  split; [split; [done|split; [done|]]|split; [by exists [], []|split; [|by apply (writing_outgoing [] [])]]].
  - intros _. cbn. unfold ps_started. by rewrite Hr, Harr, Hqs.
  - cbn. unfold ps_incoming. by rewrite Hr, Harr, Hqs, Hfirst, app_nil_r.
Qed.

Lemma flushed_sends body fed st (ch' : channel Q W P fed (queue_contents (ps_writer_queue st)) (ps_request_id st)) :
  stream_inv ch' → flushed ch' → outgoing ch' = body → sends body st (ch_stream ch').
Proof.
  intros (Hinv & Hid & _) (ps & sent & Hq & Hf) <-. exists ps. split; [exact Hq|].
  pose proof (flushed_outgoing ps sent ch' Hq Hf Hinv) as Ho. change (outgoing ch') with (ch_outgoing ch'). rewrite Ho.
  destruct Hf as [Hmsg _]. by rewrite Hid in Hmsg.
Qed.

(** Programs which answer and call on channels do so over packets. *)
Section programs.
Context {value : param_type → Type} `{Hwire : ∀ t, Wire (value t)} `{Hlaws : ∀ t, WireSpec (value t)}.
Implicit Types (args results : list (any_value (value := value))).

Lemma answers_packets i service request response st :
  answers (value := value) (channel Q W P True (queue_contents (ps_writer_queue st)) (ps_request_id st)) i service request response →
  receives request st →
  wp (run_server (generated (dump_server_stream_handler_source i)) i service (channel_of True st)) (λ fr,
    fr_result fr = Some FF_SUCCESS ∧ ∃ ch, fr_stream fr = Some ch ∧ sends response st (ch_stream ch)).
Proof.
  intros Hans Hst. destruct (receives_channel _ st Hst) as (Hch & Hw & Hin & Hout).
  specialize (Hans (channel_of True st) [] Hch Hw Hin). eapply wp_mono; [exact Hans|].
  intros fr (Hr & ch & Hs & Hi' & Hf & _ & Ho). split; [done|]. exists ch. split; [done|].
  apply flushed_sends; [done..|]. by rewrite Ho, Hout.
Qed.

Lemma calls_packets i m args results request response st :
  calls (channel Q W P True (queue_contents (ps_writer_queue st)) (ps_request_id st)) i m args results request response →
  receives response st →
  wp (run_stub (generated (dump_client_source i)) i m args (Some (channel_of True st))) (λ fr,
    fr_result fr = Some FF_SUCCESS ∧ Forall2 (λ q x, fr_outs fr !! p_name q = Some x) (m_response_params m) results ∧
    ∃ ch, fr_stream fr = Some ch ∧ sends request st (ch_stream ch)).
Proof.
  intros Hcalls Hst. destruct (receives_channel _ st Hst) as (Hch & Hw & Hin & Hout).
  specialize (Hcalls (channel_of True st) [] Hch Hw Hin). eapply wp_mono; [exact Hcalls|].
  intros fr (Hr & _ & Houts & ch & Hs & Hi' & Hf & _ & Ho). split; [done|]. split; [done|]. exists ch. split; [done|].
  apply flushed_sends; [done..|]. by rewrite Ho, Hout.
Qed.
End programs.
End packets.

(** ** Properties *)


(** ** Witnesses *)

#[local] Abbreviation stream := (mrpc_packet_stream (list mrpc_packet) (list (option mrpc_packet)) Z).


(** The packets of a call: the request of the client is fed to the server, and its
    response to the client. *)
Definition packets_sent (o : outcome (frame (value := plain_value) (S := channel (list mrpc_packet) (list (option mrpc_packet)) Z False [] x07))) :
    list mrpc_packet :=
  match o with
  | Ret fr => match fr_stream fr with Some ch => omap id (ps_writer_queue (ch_stream ch)) | None => [] end
  | Fault _ => []
  end.

Definition stream_with (arrived : list mrpc_packet) : stream := PacketStream 0 arrived [] None None x07.

Definition client_run (arrived : list mrpc_packet) :=
  run_stub (generated (dump_client_source directory)) directory directory_find
    (some_values (m_request_params directory_find)) (Some (Channel False [] x07 (stream_with arrived))).
Definition server_run (arrived : list mrpc_packet) :=
  run_server (generated (dump_server_stream_handler_source directory)) directory (some_service directory)
    (Channel False [] x07 (stream_with arrived)).

Example call_over_packets :
  let request := packets_sent (client_run []) in
  let response := packets_sent (server_run request) in
  (packet_payload <$> request) = [[x01; x07; x05; x61; x6c; x69; x63; x65]] ∧
  (packet_payload <$> response) = [[xd7; x04; x02; xb1; x07; xb2; x07]] ∧
  match client_run response with
  | Ret fr => fr_result fr = Some FF_SUCCESS ∧ fr_outs fr !! c_literal "title" = Some (existT PARAM_WCHAR_ARRAY [0x3b1; 0x3b2])
  | Fault _ => False
  end.
Proof. intros request response. split_and!; vm_compute; [reflexivity|reflexivity|split; reflexivity]. Qed.
