(* ===== verification/InterfaceHeap.v ===== *)
(** * The memory of an interface (interface-compiler/src/interface.c and the
      allocations of interface-compiler/src/parser.c)

    The parser builds the structures of types.h out of pieces of memory; the code
    generators walk through its linked lists; [interface_delete] releases them.
    Here the memory is a map from addresses to pieces, so that the lists of
    [InterfaceParser] are what these structures hold. *)

From stdpp Require Import gmap.
From Stdlib Require Import Strings.String.
From S2P Require Import Prelude InterfaceLexer InterfaceParser.

Open Scope Z_scope.
Open Scope list_scope.

(** ** Memory *)

(** A pointer which has no value yet, a null pointer, an address. *)
Inductive pointer :=
  | Undefined
  | NULL
  | At (l : positive).

#[export] Instance pointer_eq_dec : EqDecision pointer.
Proof. solve_decision. Defined.

(** [struct param]; the fields have no values when it is allocated. *)
Record param_struct := ParamStruct {
  ps_type : option param_type;
  ps_is_key : option Z;
  ps_name : pointer
}.

(** [struct param_list] and [struct method_list] *)
Record list_entry := ListEntry {
  le_item : pointer;
  le_next : pointer
}.

(** [struct method] *)
Record method_struct := MethodStruct {
  mt_request_params : pointer;
  mt_response_params : pointer;
  mt_name : pointer
}.

(** [struct interface] *)
Record interface_struct := InterfaceStruct {
  is_methods : pointer;
  is_name : pointer
}.

(** A piece of memory. *)
Inductive piece :=
  | Text (s : list byte)
  | ParamPiece (p : param_struct)
  | ParamListPiece (e : list_entry)
  | MethodPiece (m : method_struct)
  | MethodListPiece (e : list_entry)
  | InterfacePiece (i : interface_struct).

#[local] Abbreviation memory := (gmap positive piece).

(** Memory is always available: the code does not look at what [malloc] returns. *)
Definition malloc (c : piece) : M memory pointer := λ h,
  let l := fresh (dom h) in Ret (At l, <[l := c]> h).

Definition load (p : pointer) : M memory piece := λ h,
  match p with
  | At l => match h !! l with Some c => Ret (c, h) | None => Fault UseAfterFree end
  | _ => Fault UseAfterFree
  end.

Definition store (p : pointer) (c : piece) : M memory unit := λ h,
  match p with
  | At l => match h !! l with Some _ => Ret (tt, <[l := c]> h) | None => Fault UseAfterFree end
  | _ => Fault UseAfterFree
  end.

(** Freeing a null pointer does nothing. *)
Definition free (p : pointer) : M memory unit := λ h,
  match p with
  | At l => match h !! l with Some _ => Ret (tt, delete l h) | None => Fault UseAfterFree end
  | NULL => Ret (tt, h)
  | Undefined => Fault UseAfterFree
  end.

(** Access to a structure. *)
Class Struct (A : Type) := {
  to_piece : A → piece;
  of_piece : piece → option A;
  of_to_piece a : of_piece (to_piece a) = Some a
}.

#[export] Instance text_piece : Struct (list byte) := {|
  to_piece := Text; of_piece c := match c with Text s => Some s | _ => None end;
  of_to_piece a := eq_refl |}.
#[export] Instance param_piece : Struct param_struct := {|
  to_piece := ParamPiece; of_piece c := match c with ParamPiece p => Some p | _ => None end;
  of_to_piece a := eq_refl |}.
#[export] Instance method_piece : Struct method_struct := {|
  to_piece := MethodPiece; of_piece c := match c with MethodPiece m => Some m | _ => None end;
  of_to_piece a := eq_refl |}.
#[export] Instance interface_piece : Struct interface_struct := {|
  to_piece := InterfacePiece; of_piece c := match c with InterfacePiece i => Some i | _ => None end;
  of_to_piece a := eq_refl |}.

(** The entries of the two types of lists are different structures. *)
Definition param_list_piece : Struct list_entry := {|
  to_piece := ParamListPiece; of_piece c := match c with ParamListPiece e => Some e | _ => None end;
  of_to_piece a := eq_refl |}.
Definition method_list_piece : Struct list_entry := {|
  to_piece := MethodListPiece; of_piece c := match c with MethodListPiece e => Some e | _ => None end;
  of_to_piece a := eq_refl |}.

Definition fetch {A} `{Struct A} (p : pointer) : M memory A :=
  c ← load p;
  match of_piece c with Some a => mret a | None => lift (Fault OutOfBounds) end.

Definition update {A} `{Struct A} (p : pointer) (f : A → A) : M memory unit :=
  a ← fetch p;
  store p (to_piece (f a)).

(** ** The release of an interface *)

Definition delete_param (param : pointer) : M memory unit :=
  s ← fetch (A := param_struct) param;
  free (ps_name s);;
  free param.

(** The loop of [delete_params] and of [delete_methods]: [delete_item] releases what
    an entry points to.  A round releases an entry, so that there are not more rounds
    than pieces of memory. *)
Section lists.
Context (Entry : Struct list_entry).

Fixpoint delete_entries (delete_item : pointer → M memory unit) (fuel : nat) (list : pointer) : M memory unit :=
  if decide (list = NULL) then mret tt
  else match fuel with
       | O => lift (Fault OutOfFuel)
       | S fuel =>
           e ← fetch list;
           delete_item (le_item e);;
           let prev_entry := list in
           e ← fetch list;
           free prev_entry;;
           delete_entries delete_item fuel (le_next e)
       end.
End lists.

Definition memory_fuel : M memory nat := λ h, Ret (size h, h).

Definition delete_params (param_list : pointer) : M memory unit :=
  fuel ← memory_fuel;
  delete_entries param_list_piece delete_param fuel param_list.

Definition delete_method (method : pointer) : M memory unit :=
  s ← fetch (A := method_struct) method;
  delete_params (mt_request_params s);;
  s ← fetch (A := method_struct) method;
  delete_params (mt_response_params s);;
  s ← fetch (A := method_struct) method;
  free (mt_name s);;
  free method.

Definition delete_methods (method_list : pointer) : M memory unit :=
  fuel ← memory_fuel;
  delete_entries method_list_piece delete_method fuel method_list.

Definition interface_delete (interface : pointer) : M memory unit :=
  s ← fetch (A := interface_struct) interface;
  delete_methods (is_methods s);;
  s ← fetch (A := interface_struct) interface;
  free (is_name s).

(** ** The construction of an interface

    What [match_interface] and the functions it calls do with the memory, once the
    lexemes of the interface [i] have been matched: the allocations and assignments
    of each function, in its order. *)

Definition strdup (s : list byte) : M memory pointer := malloc (Text s).

(** [match_param]; [is_key] gets at once the value it has after the test for the word
    key. *)
Definition new_param (p : param) : M memory pointer :=
  param ← malloc (ParamPiece (ParamStruct None None Undefined));
  update param (λ s, ParamStruct (ps_type s) (Some (p_is_key p)) (ps_name s));;
  update param (λ s, ParamStruct (Some (p_type p)) (ps_is_key s) (ps_name s));;
  name ← strdup (p_name p);
  update param (λ s, ParamStruct (ps_type s) (ps_is_key s) name);;
  mret param.

(** The loop of [match_params] and of [match_methods], which appends an entry for
    each of the items. *)
Section lists.
Context {A : Type} (Entry : Struct list_entry) (new_item : A → M memory pointer).

Definition new_entry (x : A) : M memory pointer :=
  entry ← malloc (to_piece (ListEntry Undefined Undefined));
  update entry (λ e, ListEntry (le_item e) NULL);;
  item ← new_item x;
  update entry (λ e, ListEntry item (le_next e));;
  mret entry.

Fixpoint append_entries (xs : list A) (first_entry last_entry : pointer) : M memory pointer :=
  match xs with
  | [] => mret first_entry
  | x :: xs =>
      entry ← new_entry x;
      if decide (first_entry = NULL) then append_entries xs entry entry
      else
        update last_entry (λ e, ListEntry (le_item e) entry);;
        append_entries xs first_entry entry
  end.
End lists.

Definition new_params (ps : list param) : M memory pointer :=
  append_entries param_list_piece new_param ps NULL NULL.

(** [match_method] *)
Definition new_method (m : method) : M memory pointer :=
  method ← malloc (MethodPiece (MethodStruct Undefined Undefined Undefined));
  name ← strdup (m_name m);
  update method (λ s, MethodStruct (mt_request_params s) (mt_response_params s) name);;
  request_params ← new_params (m_request_params m);
  update method (λ s, MethodStruct request_params (mt_response_params s) (mt_name s));;
  response_params ← new_params (m_response_params m);
  update method (λ s, MethodStruct (mt_request_params s) response_params (mt_name s));;
  mret method.

(** [match_methods], which matches the first method before its loop. *)
Definition new_methods (m : method) (ms : list method) : M memory pointer :=
  entry ← new_entry method_list_piece new_method m;
  append_entries method_list_piece new_method ms entry entry.

(** [match_interface]; there is at least one method. *)
Definition new_interface (i : interface) : M memory pointer :=
  interface ← malloc (InterfacePiece (InterfaceStruct Undefined Undefined));
  name ← strdup (i_name i);
  update interface (λ s, InterfaceStruct (is_methods s) name);;
  methods ← match i_methods i with
            | m :: ms => new_methods m ms
            | [] => lift (Fault OutOfBounds)
            end;
  update interface (λ s, InterfaceStruct methods (is_name s));;
  mret interface.

(** ** Walking through an interface

    The loops of the code generators over the lists, [while (entry != NULL)], which
    look at the items in their order. *)

Definition read_param (ptr : pointer) : M memory param :=
  s ← fetch (A := param_struct) ptr;
  name ← fetch (A := list byte) (ps_name s);
  match ps_type s, ps_is_key s with
  | Some type, Some is_key => mret (Param type is_key name)
  | _, _ => lift (Fault OutOfBounds)
  end.

Section lists.
Context {A : Type} (Entry : Struct list_entry) (read_item : pointer → M memory A).

Fixpoint read_entries (fuel : nat) (ptr : pointer) : M memory (list A) :=
  if decide (ptr = NULL) then mret []
  else match fuel with
       | O => lift (Fault OutOfFuel)
       | S fuel =>
           e ← fetch ptr;
           x ← read_item (le_item e);
           xs ← read_entries fuel (le_next e);
           mret (x :: xs)
       end.
End lists.

Definition read_params (ptr : pointer) : M memory (list param) :=
  fuel ← memory_fuel;
  read_entries param_list_piece read_param fuel ptr.

Definition read_method (ptr : pointer) : M memory method :=
  s ← fetch (A := method_struct) ptr;
  request_params ← read_params (mt_request_params s);
  response_params ← read_params (mt_response_params s);
  name ← fetch (A := list byte) (mt_name s);
  mret (Method request_params response_params name).

Definition read_methods (ptr : pointer) : M memory (list method) :=
  fuel ← memory_fuel;
  read_entries method_list_piece read_method fuel ptr.

Definition read_interface (ptr : pointer) : M memory interface :=
  s ← fetch (A := interface_struct) ptr;
  methods ← read_methods (is_methods s);
  name ← fetch (A := list byte) (is_name s);
  mret (Interface methods name).

(** ** Pieces of memory

    [h ⊨ cs]: the memory consists of the pieces [cs], in any order. *)

Definition pieces : Type := list (positive * piece).

Definition consists_of (h : memory) (cs : pieces) : Prop := map_to_list h ≡ₚ cs.
#[local] Infix "⊨" := consists_of (at level 70).

#[export] Instance consists_of_proper h : Proper ((≡ₚ) ==> iff) (consists_of h).
Proof. intros cs cs' Hcs. unfold consists_of. by rewrite Hcs. Qed.

Lemma consists_all h : h ⊨ map_to_list h.
Proof. by unfold consists_of. Qed.

Lemma consists_perm h cs cs' : h ⊨ cs → cs ≡ₚ cs' → h ⊨ cs'.
Proof. unfold consists_of. intros Hh Hcs. by rewrite Hh. Qed.

(** The same pieces in another order. *)
Ltac pieces H := apply (consists_perm _ _ _ H); cbn [app]; solve_Permutation.

Lemma consists_lookup h l c F : h ⊨ (l, c) :: F → h !! l = Some c.
Proof. intros Hh. apply elem_of_map_to_list. unfold consists_of in Hh. rewrite Hh. by left. Qed.

Lemma consists_delete h l c F : h ⊨ (l, c) :: F → delete l h ⊨ F.
Proof.
  intros Hh. pose proof (consists_lookup h l c F Hh) as Hl. unfold consists_of in *.
  apply (Permutation.Permutation_cons_inv (a := (l, c))). rewrite <- Hh. by apply map_to_list_delete.
Qed.

Lemma consists_insert h l c F : h ⊨ F → h !! l = None → <[l := c]> h ⊨ (l, c) :: F.
Proof. unfold consists_of. intros Hh Hl. rewrite <- Hh. by apply map_to_list_insert. Qed.

Lemma consists_fuel h cs F : h ⊨ cs ++ F → (length cs <= size h)%nat.
Proof. unfold consists_of. intros Hh. rewrite <- length_map_to_list, Hh, length_app. lia. Qed.

(** The rules of the operations on the memory. *)
Lemma malloc_rule c h F Q : h ⊨ F → (∀ l h', h' ⊨ (l, c) :: F → Q (At l, h')) → wp (malloc c h) Q.
Proof.
  intros Hh HQ. cbn. apply HQ. apply consists_insert; [done|]. apply not_elem_of_dom, is_fresh.
Qed.

Lemma free_rule l c h F Q : h ⊨ (l, c) :: F → (∀ h', h' ⊨ F → Q (tt, h')) → wp (free (At l) h) Q.
Proof. intros Hh HQ. cbn. rewrite (consists_lookup _ _ _ _ Hh). apply HQ. by eapply consists_delete. Qed.

Lemma fetch_rule {A} `{Struct A} l a h F (Q : A * memory → Prop) : h ⊨ (l, to_piece a) :: F → Q (a, h) → wp (fetch (At l) h) Q.
Proof.
  intros Hh HQ. unfold fetch. rewrite wp_M_bind. cbn. rewrite (consists_lookup _ _ _ _ Hh). cbn. by rewrite of_to_piece.
Qed.

Lemma update_rule {A} `{Struct A} l (a : A) f h F Q : h ⊨ (l, to_piece a) :: F →
  (∀ h', h' ⊨ (l, to_piece (f a)) :: F → Q (tt, h')) → wp (update (At l) f h) Q.
Proof.
  intros Hh HQ. unfold update. rewrite wp_M_bind. eapply fetch_rule; [done|]. cbn. rewrite (consists_lookup _ _ _ _ Hh).
  apply HQ. rewrite <- insert_delete_eq. apply consists_insert; [by eapply consists_delete|apply lookup_delete_eq].
Qed.

(** ** The structures of an interface

    Which pieces make up the structure at a pointer. *)

Definition owns_param (x : param) (p : pointer) (cs : pieces) : Prop :=
  ∃ l l', p = At l ∧ cs = [(l, ParamPiece (ParamStruct (Some (p_type x)) (Some (p_is_key x)) (At l'))); (l', Text (p_name x))].

Section lists.
Context {A : Type} (Entry : Struct list_entry) (owns : A → pointer → pieces → Prop).

Inductive owns_list : list A → pointer → pieces → Prop :=
  | owns_end : owns_list [] NULL []
  | owns_entry x xs l q n cs cs' : owns x q cs → owns_list xs n cs' →
      owns_list (x :: xs) (At l) ((l, to_piece (ListEntry q n)) :: cs ++ cs').

Lemma owns_list_length xs p cs : owns_list xs p cs → (length xs <= length cs)%nat.
Proof. induction 1 as [|x xs l q n cs cs' _ _ IH]; [done|]. cbn [length]. rewrite length_app. lia. Qed.

(** A list but for the pointer of its last entry: the entry [l] with the item [q] is
    the last one of the items [xs], the pieces [rest] are the others. *)
Definition open_list (xs : list A) (p : pointer) (l : positive) (q : pointer) (rest : pieces) : Prop :=
  ∀ n ys cs', owns_list ys n cs' →
  ∃ cs, owns_list (xs ++ ys) p cs ∧ cs ≡ₚ (l, to_piece (ListEntry q n)) :: rest ++ cs'.

Lemma open_one x l q cs : owns x q cs → open_list [x] (At l) l q cs.
Proof. intros Hx n ys cs' Hys. eexists. split; [by apply owns_entry|done]. Qed.

Lemma open_snoc xs p l q rest x l' q' cs : open_list xs p l q rest → owns x q' cs →
  open_list (xs ++ [x]) p l' q' ((l, to_piece (ListEntry q (At l'))) :: rest ++ cs).
Proof.
  intros Hxs Hx n ys cs' Hys. destruct (Hxs (At l') (x :: ys) _ (owns_entry x ys l' q' n cs cs' Hx Hys)) as (cs2 & Hcs2 & Hp).
  exists cs2. rewrite <- app_assoc. split; [done|]. rewrite Hp. solve_Permutation.
Qed.

Lemma open_closed xs p l q rest : open_list xs p l q rest →
  ∃ cs, owns_list xs p cs ∧ cs ≡ₚ (l, to_piece (ListEntry q NULL)) :: rest.
Proof. intros Hxs. destruct (Hxs NULL [] [] owns_end) as (cs & Hcs & Hp). rewrite !app_nil_r in *. by exists cs. Qed.

(** Building a list. *)
Context (new_item : A → M memory pointer).
Context (new_item_spec : ∀ x h F, h ⊨ F → wp (new_item x h) (λ '(p, h'), ∃ cs, owns x p cs ∧ h' ⊨ cs ++ F)).

Lemma new_entry_spec x h F : h ⊨ F → wp (new_entry Entry new_item x h) (λ '(p, h'),
  ∃ l q cs, p = At l ∧ owns x q cs ∧ h' ⊨ (l, to_piece (ListEntry q NULL)) :: cs ++ F).
Proof.
  intros Hh. unfold new_entry. rewrite wp_M_bind. eapply malloc_rule; [done|]. intros l h1 Hh1. cbn [fst snd].
  rewrite wp_M_bind. eapply update_rule; [done|]. intros h2 Hh2. cbn [fst snd le_item] in *.
  rewrite wp_M_bind. eapply wp_mono; [by apply new_item_spec|]. intros [q h3] (cs & Hx & Hh3). cbn [fst snd].
  rewrite wp_M_bind. eapply (update_rule _ (ListEntry Undefined NULL) _ _ (cs ++ F)); [pieces Hh3|]. intros h4 Hh4. cbn [fst snd le_next] in *.
  by exists l, q, cs.
Qed.

Lemma append_entries_open ys xs p l q rest h F : h ⊨ (l, to_piece (ListEntry q NULL)) :: rest ++ F →
  open_list xs p l q rest → p ≠ NULL →
  wp (append_entries Entry new_item ys p (At l) h) (λ '(p', h'), ∃ cs, owns_list (xs ++ ys) p' cs ∧ h' ⊨ cs ++ F).
Proof.
  revert xs l q rest h. induction ys as [|y ys IH]; intros xs l q rest h Hh Hxs Hp; cbn [append_entries].
  - cbn [wp mret M_ret]. destruct (open_closed _ _ _ _ _ Hxs) as (cs & Hcs & Hperm). exists cs. rewrite app_nil_r.
    split; [done|]. rewrite Hperm. pieces Hh.
  - rewrite wp_M_bind. eapply wp_mono; [by apply new_entry_spec|]. intros [p' h1] (l' & q' & cs & -> & Hy & Hh1). cbn [fst snd].
    rewrite decide_False by done. rewrite wp_M_bind. eapply (update_rule _ (ListEntry q NULL) _ _ ((l', to_piece (ListEntry q' NULL)) :: cs ++ rest ++ F)); [pieces Hh1|].
    intros h2 Hh2. cbn [fst snd le_item] in *.
    rewrite cons_middle, app_assoc.
    apply (IH (xs ++ [y]) l' q' ((l, to_piece (ListEntry q (At l'))) :: rest ++ cs)); [|by apply open_snoc|done].
    pieces Hh2.
Qed.

Lemma append_entries_spec xs h F : h ⊨ F →
  wp (append_entries Entry new_item xs NULL NULL h) (λ '(p, h'), ∃ cs, owns_list xs p cs ∧ h' ⊨ cs ++ F).
Proof.
  intros Hh. destruct xs as [|x xs]; cbn [append_entries].
  - exists []. split; [constructor|done].
  - rewrite wp_M_bind. eapply wp_mono; [by apply new_entry_spec|]. intros [p' h1] (l & q & cs & -> & Hx & Hh1). cbn [fst snd].
    rewrite decide_True by done. apply (append_entries_open xs [x] (At l) l q cs); [done|by apply open_one|done].
Qed.

(** Walking through a list, and releasing it. *)
Lemma read_entries_spec (read_item : pointer → M memory A) :
  (∀ x p cs h F, owns x p cs → h ⊨ cs ++ F → wp (read_item p h) (λ r, r = (x, h))) →
  ∀ xs p cs, owns_list xs p cs → ∀ fuel h F, (length xs <= fuel)%nat → h ⊨ cs ++ F →
  wp (read_entries Entry read_item fuel p h) (λ r, r = (xs, h)).
Proof.
  intros Hitem xs p cs. induction 1 as [|x xs l q n cs cs' Hx _ IH]; intros [|fuel] h F Hf Hh; cbn [length] in *;
    [done|done|lia|]. cbn [read_entries]. rewrite decide_False by done.
  rewrite wp_M_bind. eapply fetch_rule; [done|]. cbn [fst snd le_item le_next].
  rewrite wp_M_bind. eapply wp_mono; [apply (Hitem x q cs h ((l, to_piece (ListEntry q n)) :: cs' ++ F)); [done|]|].
  { pieces Hh. }
  intros ? ->. cbn [fst snd]. rewrite wp_M_bind.
  eapply wp_mono; [apply (IH fuel h ((l, to_piece (ListEntry q n)) :: cs ++ F)); [lia|]|].
  { pieces Hh. }
  by intros ? ->.
Qed.

Lemma delete_entries_spec (delete_item : pointer → M memory unit) :
  (∀ x p cs h F, owns x p cs → h ⊨ cs ++ F → wp (delete_item p h) (λ '(_, h'), h' ⊨ F)) →
  ∀ xs p cs, owns_list xs p cs → ∀ fuel h F, (length xs <= fuel)%nat → h ⊨ cs ++ F →
  wp (delete_entries Entry delete_item fuel p h) (λ '(_, h'), h' ⊨ F).
Proof.
  intros Hitem xs p cs. induction 1 as [|x xs l q n cs cs' Hx _ IH]; intros [|fuel] h F Hf Hh; cbn [length] in *;
    [done|done|lia|]. cbn [delete_entries]. rewrite decide_False by done.
  rewrite wp_M_bind. eapply fetch_rule; [done|]. cbn [fst snd le_item le_next].
  rewrite wp_M_bind. eapply wp_mono; [apply (Hitem x q cs h ((l, to_piece (ListEntry q n)) :: cs' ++ F)); [done|]|].
  { pieces Hh. }
  intros [[] h1] Hh1. cbn [fst snd]. rewrite wp_M_bind. eapply fetch_rule; [done|]. cbn [fst snd le_next].
  rewrite wp_M_bind. eapply free_rule; [done|]. intros h2 Hh2. cbn [fst snd]. apply IH; [lia|done].
Qed.
End lists.

#[local] Abbreviation owns_params := (owns_list param_list_piece owns_param).

Definition owns_method (x : method) (p : pointer) (cs : pieces) : Prop :=
  ∃ l l' q1 q2 cs1 cs2, p = At l ∧ owns_params (m_request_params x) q1 cs1 ∧ owns_params (m_response_params x) q2 cs2 ∧
    cs = (l, MethodPiece (MethodStruct q1 q2 (At l'))) :: (l', Text (m_name x)) :: cs1 ++ cs2.

#[local] Abbreviation owns_methods := (owns_list method_list_piece owns_method).

(** The structure of an interface is well formed: a piece for each parameter, each
    method, each entry and each name, and no piece twice. *)
Definition owns_interface (x : interface) (p : pointer) (cs : pieces) : Prop :=
  ∃ l l' q cs', p = At l ∧ owns_methods (i_methods x) q cs' ∧
    cs = (l, InterfacePiece (InterfaceStruct q (At l'))) :: (l', Text (i_name x)) :: cs'.

(** ** Parameters *)

Lemma new_param_spec x h F : h ⊨ F → wp (new_param x h) (λ '(p, h'), ∃ cs, owns_param x p cs ∧ h' ⊨ cs ++ F).
Proof.
  intros Hh. unfold new_param. rewrite wp_M_bind. eapply malloc_rule; [done|]. intros l h1 Hh1. cbn [fst snd].
  rewrite wp_M_bind. eapply (update_rule (A := param_struct)); [done|]. intros h2 Hh2.
  cbn [fst snd ps_type ps_is_key ps_name] in *.
  rewrite wp_M_bind. eapply (update_rule (A := param_struct)); [done|]. intros h3 Hh3.
  cbn [fst snd ps_type ps_is_key ps_name] in *.
  rewrite wp_M_bind. eapply malloc_rule; [done|]. intros l' h4 Hh4. cbn [fst snd].
  rewrite wp_M_bind. eapply (update_rule (A := param_struct) l (ParamStruct (Some (p_type x)) (Some (p_is_key x)) Undefined) _ _
    ((l', Text (p_name x)) :: F)); [pieces Hh4|]. intros h5 Hh5. cbn [fst snd ps_type ps_is_key ps_name] in *.
  eexists. split; [by exists l, l'|done].
Qed.

Lemma read_param_spec x p cs h F : owns_param x p cs → h ⊨ cs ++ F → wp (read_param p h) (λ r, r = (x, h)).
Proof.
  intros (l & l' & -> & ->) Hh. unfold read_param. rewrite wp_M_bind.
  eapply (fetch_rule (A := param_struct)); [done|]. cbn [fst snd ps_name]. rewrite wp_M_bind.
  eapply (fetch_rule (A := list byte) _ _ _ ((l, ParamPiece _) :: F)); [pieces Hh|]. by destruct x.
Qed.

Lemma delete_param_spec x p cs h F : owns_param x p cs → h ⊨ cs ++ F → wp (delete_param p h) (λ '(_, h'), h' ⊨ F).
Proof.
  intros (l & l' & -> & ->) Hh. unfold delete_param. rewrite wp_M_bind.
  eapply (fetch_rule (A := param_struct)); [done|]. cbn [fst snd ps_name]. rewrite wp_M_bind.
  eapply (free_rule _ _ _ ((l, ParamPiece _) :: F)); [pieces Hh|]. intros h1 Hh1. cbn [fst snd].
  by eapply free_rule.
Qed.

Lemma new_params_spec xs h F : h ⊨ F → wp (new_params xs h) (λ '(p, h'), ∃ cs, owns_params xs p cs ∧ h' ⊨ cs ++ F).
Proof. apply append_entries_spec, new_param_spec. Qed.

Lemma read_params_spec xs p cs h F : owns_params xs p cs → h ⊨ cs ++ F → wp (read_params p h) (λ r, r = (xs, h)).
Proof.
  intros Hxs Hh. unfold read_params. rewrite wp_M_bind. cbn.
  eapply read_entries_spec; [by apply read_param_spec|done| |done].
  etrans; [by eapply owns_list_length|by eapply consists_fuel].
Qed.

Lemma delete_params_spec xs p cs h F : owns_params xs p cs → h ⊨ cs ++ F → wp (delete_params p h) (λ '(_, h'), h' ⊨ F).
Proof.
  intros Hxs Hh. unfold delete_params. rewrite wp_M_bind. cbn.
  eapply delete_entries_spec; [by apply delete_param_spec|done| |done].
  etrans; [by eapply owns_list_length|by eapply consists_fuel].
Qed.

(** ** Methods *)

Lemma new_method_spec x h F : h ⊨ F → wp (new_method x h) (λ '(p, h'), ∃ cs, owns_method x p cs ∧ h' ⊨ cs ++ F).
Proof.
  intros Hh. unfold new_method. rewrite wp_M_bind. eapply malloc_rule; [done|]. intros l h1 Hh1. cbn [fst snd].
  rewrite wp_M_bind. eapply malloc_rule; [done|]. intros l' h2 Hh2. cbn [fst snd].
  rewrite wp_M_bind. eapply (update_rule (A := method_struct) l (MethodStruct Undefined Undefined Undefined) _ _
    ((l', Text (m_name x)) :: F)); [pieces Hh2|]. intros h3 Hh3. cbn [fst snd mt_request_params mt_response_params mt_name] in *.
  rewrite wp_M_bind. eapply wp_mono; [by apply new_params_spec|]. intros [q1 h4] (cs1 & Hq1 & Hh4). cbn [fst snd].
  rewrite wp_M_bind. eapply (update_rule (A := method_struct) l (MethodStruct Undefined Undefined (At l')) _ _
    ((l', Text (m_name x)) :: cs1 ++ F)); [pieces Hh4|]. intros h5 Hh5. cbn [fst snd mt_request_params mt_response_params mt_name] in *.
  rewrite wp_M_bind. eapply wp_mono; [by apply new_params_spec|]. intros [q2 h6] (cs2 & Hq2 & Hh6). cbn [fst snd].
  rewrite wp_M_bind. eapply (update_rule (A := method_struct) l (MethodStruct q1 Undefined (At l')) _ _
    ((l', Text (m_name x)) :: cs1 ++ cs2 ++ F)); [pieces Hh6|]. intros h7 Hh7.
  eexists. split; [by exists l, l', q1, q2, cs1, cs2|]. cbn [mt_request_params mt_response_params mt_name] in Hh7. pieces Hh7.
Qed.

Lemma read_method_spec x p cs h F : owns_method x p cs → h ⊨ cs ++ F → wp (read_method p h) (λ r, r = (x, h)).
Proof.
  intros (l & l' & q1 & q2 & cs1 & cs2 & -> & Hq1 & Hq2 & ->) Hh. unfold read_method.
  set (c := MethodPiece _) in *. rewrite wp_M_bind. eapply (fetch_rule (A := method_struct)); [done|].
  cbn [fst snd mt_request_params mt_response_params mt_name]. rewrite wp_M_bind.
  eapply wp_mono; [eapply (read_params_spec _ _ cs1 _ ((l, c) :: (l', Text (m_name x)) :: cs2 ++ F)); [done|pieces Hh]|].
  intros ? ->. cbn [fst snd]. rewrite wp_M_bind.
  eapply wp_mono; [eapply (read_params_spec _ _ cs2 _ ((l, c) :: (l', Text (m_name x)) :: cs1 ++ F)); [done|pieces Hh]|].
  intros ? ->. cbn [fst snd]. rewrite wp_M_bind.
  eapply (fetch_rule (A := list byte) _ _ _ ((l, c) :: cs1 ++ cs2 ++ F)); [pieces Hh|]. by destruct x.
Qed.

Lemma delete_method_spec x p cs h F : owns_method x p cs → h ⊨ cs ++ F → wp (delete_method p h) (λ '(_, h'), h' ⊨ F).
Proof.
  intros (l & l' & q1 & q2 & cs1 & cs2 & -> & Hq1 & Hq2 & ->) Hh. unfold delete_method.
  set (c := MethodPiece _) in *. rewrite wp_M_bind. eapply (fetch_rule (A := method_struct)); [done|].
  cbn [fst snd mt_request_params]. rewrite wp_M_bind.
  eapply wp_mono; [eapply (delete_params_spec _ _ cs1 _ ((l, c) :: (l', Text (m_name x)) :: cs2 ++ F)); [done|pieces Hh]|].
  intros [[] h1] Hh1. cbn [fst snd]. rewrite wp_M_bind. eapply (fetch_rule (A := method_struct)); [done|].
  cbn [fst snd mt_response_params]. rewrite wp_M_bind.
  eapply wp_mono; [eapply (delete_params_spec _ _ cs2 _ ((l, c) :: (l', Text (m_name x)) :: F)); [done|pieces Hh1]|].
  intros [[] h2] Hh2. cbn [fst snd]. rewrite wp_M_bind. eapply (fetch_rule (A := method_struct)); [done|].
  cbn [fst snd mt_name]. rewrite wp_M_bind. eapply (free_rule _ _ _ ((l, c) :: F)); [pieces Hh2|].
  intros h3 Hh3. cbn [fst snd]. by eapply free_rule.
Qed.

Lemma new_methods_spec x xs h F : h ⊨ F → wp (new_methods x xs h) (λ '(p, h'), ∃ cs, owns_methods (x :: xs) p cs ∧ h' ⊨ cs ++ F).
Proof.
  intros Hh. unfold new_methods. rewrite wp_M_bind.
  eapply wp_mono; [by apply (new_entry_spec _ owns_method _ new_method_spec)|]. intros [p h1] (l & q & cs & -> & Hx & Hh1). cbn [fst snd].
  by apply (append_entries_open _ owns_method _ new_method_spec xs [x] (At l) l q cs); [|apply open_one|].
Qed.

(** ** Interfaces *)

Lemma new_interface_spec x h F : i_methods x ≠ [] → h ⊨ F →
  wp (new_interface x h) (λ '(p, h'), ∃ cs, owns_interface x p cs ∧ h' ⊨ cs ++ F).
Proof.
  intros Hx Hh. unfold new_interface. rewrite wp_M_bind. eapply malloc_rule; [done|]. intros l h1 Hh1. cbn [fst snd].
  rewrite wp_M_bind. eapply malloc_rule; [done|]. intros l' h2 Hh2. cbn [fst snd].
  rewrite wp_M_bind. eapply (update_rule (A := interface_struct) l (InterfaceStruct Undefined Undefined) _ _
    ((l', Text (i_name x)) :: F)); [pieces Hh2|]. intros h3 Hh3. cbn [fst snd is_methods is_name] in *.
  rewrite wp_M_bind. destruct x as [[|m ms] name]; [done|]. cbn [i_methods] in *.
  eapply wp_mono; [by apply new_methods_spec|]. intros [q h4] (cs & Hq & Hh4). cbn [fst snd].
  rewrite wp_M_bind. eapply (update_rule (A := interface_struct) l (InterfaceStruct Undefined (At l')) _ _
    ((l', Text name) :: cs ++ F)); [pieces Hh4|]. intros h5 Hh5.
  eexists. split; [by exists l, l', q, cs|done].
Qed.

Lemma read_interface_spec x p cs h F : owns_interface x p cs → h ⊨ cs ++ F → wp (read_interface p h) (λ r, r = (x, h)).
Proof.
  intros (l & l' & q & cs' & -> & Hq & ->) Hh. unfold read_interface. set (c := InterfacePiece _) in *.
  rewrite wp_M_bind. eapply (fetch_rule (A := interface_struct)); [done|]. cbn [fst snd is_methods is_name]. rewrite wp_M_bind.
  unfold read_methods. rewrite wp_M_bind. cbn [memory_fuel wp fst snd].
  eapply wp_mono; [eapply (read_entries_spec _ owns_method _ read_method_spec _ _ cs' Hq _ _ ((l, c) :: (l', Text (i_name x)) :: F))|].
  - etrans; [by eapply owns_list_length|]. apply (consists_fuel _ _ ((l, c) :: (l', Text (i_name x)) :: F)). pieces Hh.
  - pieces Hh.
  - intros ? ->. cbn [fst snd]. rewrite wp_M_bind.
    eapply (fetch_rule (A := list byte) _ _ _ ((l, c) :: cs' ++ F)); [pieces Hh|]. by destruct x.
Qed.

(** The release of an interface leaves its own structure behind. *)
Lemma interface_delete_spec x p cs h F : owns_interface x p cs → h ⊨ cs ++ F →
  wp (interface_delete p h) (λ '(_, h'), ∃ l s, p = At l ∧ h' ⊨ (l, InterfacePiece s) :: F).
Proof.
  intros (l & l' & q & cs' & -> & Hq & ->) Hh. unfold interface_delete. set (c := InterfacePiece _) in *.
  rewrite wp_M_bind. eapply (fetch_rule (A := interface_struct)); [done|]. cbn [fst snd is_methods is_name]. rewrite wp_M_bind.
  unfold delete_methods. rewrite wp_M_bind. cbn [memory_fuel wp fst snd].
  eapply wp_mono; [eapply (delete_entries_spec _ owns_method _ delete_method_spec _ _ cs' Hq _ _ ((l, c) :: (l', Text (i_name x)) :: F))|].
  - etrans; [by eapply owns_list_length|]. apply (consists_fuel _ _ ((l, c) :: (l', Text (i_name x)) :: F)). pieces Hh.
  - pieces Hh.
  - intros [[] h1] Hh1. cbn [fst snd]. rewrite wp_M_bind. eapply (fetch_rule (A := interface_struct)); [done|]. cbn [fst snd is_name].
    eapply (free_rule _ _ _ ((l, c) :: F)); [pieces Hh1|]. intros h2 Hh2. by eexists _, _.
Qed.

(** Memory which has been extended by one piece. *)
Lemma consists_one h h' l c : h' ⊨ (l, c) :: map_to_list h → h !! l = None ∧ h' = <[l := c]> h.
Proof.
  intros Hh'. pose proof (NoDup_fst_map_to_list h') as Hnd. pose proof Hh' as Hp. unfold consists_of in Hp. rewrite Hp in Hnd.
  rewrite fmap_cons in Hnd. apply NoDup_cons in Hnd as [Hl _].
  assert (h !! l = None) as Hn.
  { destruct (h !! l) as [c'|] eqn:Hc; [|done]. destruct Hl. apply list_elem_of_fmap. exists (l, c'). split; [done|].
    by apply elem_of_map_to_list. }
  split; [done|]. apply (map_to_list_inj (K := positive)). rewrite Hp. symmetry. by apply map_to_list_insert.
Qed.

(** ** Properties *)

(** C35. The structures which the parser builds for an interface, in whatever memory,
    are well formed: a list entry and a piece of its own for each method and each
    parameter, with every name in a piece of its own, no piece twice and the other
    memory as it was.  A walk along the lists reads the interface, method for method
    and parameter for parameter, in the order of the source. *)
Theorem interface_linked (i : interface) (h : gmap positive piece) : i_methods i ≠ [] →
  wp (new_interface i h) (λ '(p, h'),
    (∃ cs, owns_interface i p cs ∧ map_to_list h' ≡ₚ cs ++ map_to_list h) ∧ wp (read_interface p h') (λ r, r = (i, h'))).
Proof.
  intros Hi. eapply wp_mono; [apply (new_interface_spec i h (map_to_list h)); [exact Hi|apply consists_all]|]. intros [p h'] (cs & Hcs & Hh').
  split; [by exists cs|]. by eapply read_interface_spec.
Qed.

(** C36. The release of an interface which the parser has built ends; it releases
    every name, parameter, method and list entry once and uses nothing which has
    been released.  What it leaves is the memory as it was before the interface was
    built, and the structure of the interface itself. *)
Theorem interface_released (i : interface) (h : gmap positive piece) : i_methods i ≠ [] →
  wp ((p ← new_interface i; interface_delete p;; mret p) h) (λ '(p, h'),
    ∃ l s, p = At l ∧ h !! l = None ∧ h' = <[l := InterfacePiece s]> h).
Proof.
  intros Hi. rewrite wp_M_bind. eapply wp_mono; [apply (new_interface_spec i h (map_to_list h)); [exact Hi|apply consists_all]|].
  intros [p h1] (cs & Hcs & Hh1). cbn [fst snd]. rewrite wp_M_bind.
  eapply wp_mono; [by apply (interface_delete_spec i p cs h1 (map_to_list h))|].
  intros [[] h2] (l & s & -> & Hh2). cbn. exists l, s. by destruct (consists_one h h2 l _ Hh2).
Qed.

(** ** Witnesses *)

Definition small_interface : interface :=
  Interface [Method [] [] (chars "ping");
             Method [Param PARAM_UINT32 1 (chars "id"); Param PARAM_BLOB 0 (chars "data")] [Param PARAM_INT32 0 (chars "status")] (chars "put")]
    (chars "store").

Lemma interface_linked_witness :
  wp (new_interface small_interface ∅) (λ '(p, h'), size h' = 17%nat ∧ wp (read_interface p h') (λ r, r = (small_interface, h'))).
Proof.
  eapply wp_mono; [apply wp_and; [apply (interface_linked small_interface ∅); discriminate|]|].
  - assert (wp (new_interface small_interface ∅) (λ r, size r.2 = 17%nat)) as Hsize by (vm_compute; reflexivity). exact Hsize.
  - intros [p h'] [[_ Hr] Hs]. by split.
Defined.

Lemma interface_released_witness : i_methods small_interface ≠ [] ∧
  wp ((p ← new_interface small_interface; interface_delete p;; mret p) ∅) (λ '(p, h'),
    ∃ l s, p = At l ∧ (∅ : gmap positive piece) !! l = None ∧ h' = <[l := InterfacePiece s]> ∅).
Proof. split; [discriminate|]. apply (interface_released small_interface ∅). discriminate. Defined.
